(* ===== verification/_CoqProject ===== *)
-Q . S2P
Prelude.v
GoLib.v
Wrr.v
Base.v
Redis.v
RedisFacts.v
Client.v
RdbCore.v
RdbLocks.v
RdbFlow.v
RdbAdmin.v
Instances.v
Lifecycle.v
Retry.v
Schedule.v
ScoreSpec.v
CoreSpec.v
Handler.v
Server.v
Runtime.v
Options.v
Scheduler.v
Builder.v
Inspector.v
GoText.v
Cli.v
Sparkline.v
Svg.v
Console.v
Pages.v
LockSpec.v
FlowSpec.v
Processes.v
Programs.v
FrontEnds.v
Concurrent.v
Typing.v
Namespaces.v
Advance.v
ServerSpec.v
FetchSpec.v
MaintSpec.v
JanitorSpec.v
RecoverSpec.v
CrashSpec.v
RetrySpec.v
BuilderSpec.v
WorkflowSpec.v
ChainSpec.v
LineSpec.v
FanInSpec.v
TimetableSpec.v
SchedulerSpec.v
ConsoleSpec.v
Exporter.v
JobScheduler.v
Bench.v
Soak.v
Tour.v
Mains.v
