(* ===== verification/Prelude.v ===== *)
(** * chronos-go: a verification library

    chronos-go is a task queue and scheduler on Redis.  Clients enqueue
    tasks, alone, in chains or in groups; servers fetch them from streams,
    run handlers, retry, archive and recover them; elected schedulers fire
    periodic tasks; an inspector, a command line, a web console and a metrics
    exporter look after it all.  This library models the program in Rocq and
    proves what makes it correct.

    ** How the program is modelled

    - Pure code (the picker, retry delays, schedules, keys, builders) becomes
      functions.  Machine integers are [Z] with the wrap-around written out
      where it can happen; scores are doubles, as the exact rational numbers
      they denote; instants and durations count nanoseconds.
    - Redis is the class [Redis] of Redis.v: the commands the program issues,
      with their documented effect on an observed keyspace.  RefRedis of
      Instances.v is a server that satisfies its laws, on which the witnesses
      run.
    - A Lua script or a transaction is a [script] (Client.v), which the server
      runs atomically.  Go code is a program of the monad [M], a tree of its
      round trips, clock readings and sleeps, with Go errors as results.
    - A program has two semantics.  [exec_M] runs it alone, in a [world] whose
      plan delays each round trip, and loses some before or after they took
      effect: theorems about one operation quantify over worlds and so over
      all plans.  [Concurrent.conc_step] interleaves any number of programs
      of any number of processes, command by command.

    ** Files

    Foundations
    - Prelude.v: notations, tactics, lists, strings.  GoLib.v: the Go library
      (time, float64, UTF-8, strings, base64).  GoText.v: more of it, for the
      front ends (errors as text, url, text/tabwriter).
    - Redis.v, RedisFacts.v, Client.v: the server and the two monads.
      Instances.v: reference instances of the interfaces.

    The program (paths under src/)
    - Wrr.v: wrr.go; Retry.v: retry.go; Schedule.v: schedule.go.
    - Base.v: internal/base (Prefix: prefix.go; Keys: keys.go, unique.go;
      Task: task.go).  A struct is a record, with a function [with_F] for the
      assignment to a field [F].  Namespaces.v: namespace.go.
    - RdbCore.v: internal/rdb/rdb.go, retry.go, schedule.go, forward.go.
      RdbLocks.v: unique.go, periodic.go, leader.go, heartbeat.go, pause.go.
      RdbFlow.v: chain.go, group.go.  RdbAdmin.v: janitor.go, recover.go,
      inspect.go, registry.go.  Scripts keep their Go names; the receiver's
      key builder is the argument [K].
    - Handler.v: handler.go and the result accessors of chronos.go.
      Options.v: chronos.go, codec.go.  Server.v: server.go, with metrics.go;
      Runtime.v: its goroutines, the state they share (semaphore, wait group,
      in-flight map), the dispatch of batches and the shutdown.
      Scheduler.v: scheduler.go.  Builder.v: chain.go, group.go.
      Inspector.v: inspector.go.
    - Cli.v: cmd/chronos.  contrib/webui: Console.v (handlers.go and the
      routes), Sparkline.v and Svg.v (sparkline.go: the samples, the drawing),
      Pages.v (render.go, and the console as one handler of requests).
      Exporter.v: contrib/prometheus.  Mains.v: the [main] functions of
      cmd/chronos, contrib/webui/cmd/webui, contrib/prometheus/cmd/loadgen and
      examples/tour, and internal/testutil.
    - Programs that use the library: JobScheduler.v: examples/jobscheduler
      (an adapter for another scheduler's interface); Tour.v: examples/tour;
      Bench.v: benchmarks/bench and cmd/bench; Soak.v: benchmarks/soak and
      cmd/soak.

    How they call each other: Options, Builder and Server enqueue through
    RdbCore, RdbLocks and RdbFlow; Server.process calls Handler.dispatch and
    then hands chains and groups over through RdbFlow; Scheduler elects and
    fires through RdbLocks; Inspector reads through RdbAdmin, and the front
    ends call Inspector and RdbAdmin.  Every one of them is one process's
    code; they meet only in the server's keyspace.

    ** Theorems

    The system
    - Lifecycle.v: an abstract system whose steps are the atomic scripts, of
      any process, in any order, by workers that may hold entries long lost to
      others.  Its invariant gives [no_task_lost].
    - Processes.v, Programs.v, FrontEnds.v: each operation of the program
      makes only steps of that system ([safe], [fine]).  Concurrent.v: the
      system of all goroutines refines it ([processes_refine]), hence
      [concurrent_no_task_lost].  Typing.v: every step acts on the program's
      own keys and in all runs a key keeps one type of value, so the keyspace
      model hides no WRONGTYPE reply.  Namespaces.v: deployments of
      independent namespaces do not disturb each other.
    - Runtime.v: the goroutines of one server keep their accounts, a dispatch
      never blocks, the heartbeat covers what is being processed, and a
      shutdown ends with everything processed.

    One operation or loop, whatever fails
    - CoreSpec.v (a message is read back as enqueued; only due tasks are
      promoted), LockSpec.v (unique locks, trigger fences, leadership, lock
      renewal), FlowSpec.v (a link or a callback is created once),
      RecoverSpec.v, JanitorSpec.v, MaintSpec.v (the maintenance loops make
      progress and end), FetchSpec.v (the fetch round), ServerSpec.v (a worker
      acknowledges only what it handed over; where a failed task goes),
      SchedulerSpec.v (an entry's turn), BuilderSpec.v (what builders accept
      is well addressed and can complete), ConsoleSpec.v (the console writes
      only for its own pages; bulk actions end and drain), Exporter.v (a scrape
      is one the registry accepts: all described, no series twice).
    - Advance.v: the rules for "whatever fails" that they share.

    Several operations in a row
    - CrashSpec.v: a task whose workers die is delivered MaxRetry+1 times and
      then archived.  RetrySpec.v: a failing task from its first attempt to
      its success or the archive.  WorkflowSpec.v: a chain unrolls into the stages its
      builder was given, and a hand-over stores the next stage.  LineSpec.v:
      a worker that fetches batches of any size works off a queue in order,
      each task once.  TimetableSpec.v: delayed tasks are delivered in the
      order of their times, each once and not before its time.  ChainSpec.v
      and FanInSpec.v: from the enqueueing of a chain to its last link, and of
      a group to its callback with the members' results, with nothing left
      behind.  JobScheduler.v: from the adapter's Enqueue to the handler.
      Soak.v: the fate of each task of the mix, a sampler that reads the keys
      of keys.go, and a verdict without false alarms.  Tour.v: the sixteen scenes, run on the reference server, show
      what they announce.

    Pure code
    - Wrr.v (each queue its weight in a cycle, no overflow), Retry.v (bounds of
      the delay, non-retryable errors), Schedule.v (which trigger fires),
      ScoreSpec.v (the double score), Bench.v (percentiles), Base.v (accepted
      prefixes, one cluster slot per queue, keys of different queues differ),
      Sparkline.v (the ring is the list of the last samples), Svg.v (the
      drawing stays inside its box, keeps the order of the samples and holds
      no markup of theirs), Pages.v (no text is cut inside a rune), Mains.v
      (in which order a process connects, serves and closes; tests flush only
      their own database).

    ** Interfaces and what is assumed

    Code outside src/ is a parameter: [Redis]; [Json] and [MetaJson]
    (encoding/json at the stored types, cjson), whose law is the round trip up
    to the repair of invalid UTF-8; [Next] of a schedule (robfig/cron);
    [sha256hex]; html/template; uuid, the random source, strconv.Quote,
    json.Indent and the texts of library errors.  A theorem that needs more of a parameter says
    so, and its witness instantiates it.

    ** Bounds and fuel

    - [Schedule.scan] is the source's own bounded loop ([maxScan]).
    - [Server.withRetry] runs its 3 attempts.
    - [Console.bulkLoop] has fuel [bulkFuel], one more than [bulkLimit]: every
      pass but the last makes a task succeed ([bulk_terminates] proves that
      the fuel never runs out).
    - The tour's scenes are as many steps of a tenth of a second as the source
      sleeps.
    - All other recursion is structural; repeated ticks of a loop are lists of
      ticks, and [forwarder_drains] and [janitor_converges] give the number
      that is enough.

    ** Not modelled

    - Tickers, deadlines and log lines of server.go and scheduler.go: a tick
      may come at any time, a deadline shows as a lost round trip.
      Concurrent.v starts the bodies of the loops as goroutines, at any time
      and any number, which includes what Runtime.v lets the server do.
    - The cluster branch of ScanSchedules, which does on every master what the
      modelled branch does on one server.
    - The HTML templates (a parameter of Pages.v) and static files; flag
      parsing (Mains.v starts from the flags' values); the Prometheus client;
      the HTTP server of the load generator.
    - The scenarios of chronosbench and asynqbench, which measure wall-clock
      time, the tickers of the soak test, and what only prints.
    - Fused multiply-add, which some processors' Go compilers may use in the
      coordinates of Svg.v. *)

From stdpp Require Export base tactics option list list_numbers numbers strings
  pretty gmap fin_maps sets sorting relations.
From Stdlib Require Export Lia ZArith.

#[export] Set Default Goal Selector "!".

(** ** Notation scope *)

Declare Scope chronos_scope.
Delimit Scope chronos_scope with chronos.
Open Scope chronos_scope.

(** A Go [len(x)], read as an integer. *)
Notation "'len' l" := (Z.of_nat (length l)) (at level 9, l at level 9) : chronos_scope.

(** ** Hint databases

    [chronos] holds the lemmas that close the routine side conditions;
    [chronos_rw] the rewriting rules that normalise lookups. *)

Create HintDb chronos discriminated.
Create HintDb chronos_rw discriminated.

(** ** Tactics *)

(** Close a goal of linear arithmetic after unfolding the booleans. *)
Ltac zlia := repeat (case_bool_decide || case_decide); simplify_eq/=; lia.

(** Split every conjunction of the context and of the goal. *)
Ltac splits := repeat match goal with |- _ ∧ _ => split end.

(** ** Strings *)

Lemma string_app_assoc (a b c : string) : (a +:+ b) +:+ c = a +:+ (b +:+ c).
Proof.
  induction a as [|x a IH]; [done|].
  change (String x ((a +:+ b) +:+ c) = String x (a +:+ (b +:+ c))). by rewrite IH.
Qed.

Lemma string_app_nil_r (s : string) : s +:+ "" = s.
Proof. induction s as [|c s IH]; [done|]. change (String c (s +:+ "") = String c s). by rewrite IH. Qed.

(** ** Membership *)

(** Deciding membership in a list extended at the end. *)
Lemma decide_elem_snoc {A B} `{EqDecision A} (x y : A) (l : list A) (a b : B) :
  (if decide (y ∈ l ++ [x]) then a else b)
  = if decide (x = y) then a else if decide (y ∈ l) then a else b.
Proof.
  destruct (decide (y ∈ l ++ [x])) as [Hin|Hni].
  - apply elem_of_app in Hin as [?| ->%list_elem_of_singleton].
    + by repeat case_decide.
    + by rewrite decide_True.
  - rewrite not_elem_of_app, not_elem_of_cons in Hni. destruct Hni as (? & ? & _).
    by rewrite !decide_False by congruence.
Qed.

Lemma filter_none {A} (P : A → Prop) `{∀ x, Decision (P x)} l :
  (∀ x, x ∈ l → ¬ P x) → filter P l = [].
Proof.
  intros Hl. destruct (filter P l) as [|x k] eqn:E; [done|].
  assert (x ∈ filter P l) as [Hx Hin]%list_elem_of_filter by (rewrite E; left).
  by destruct (Hl x Hin).
Qed.

Lemma StronglySorted_drop {A} (R : relation A) n l : StronglySorted R l → StronglySorted R (drop n l).
Proof.
  intros H. revert n. induction H as [|x l Hl IH Hx]; intros [|n]; simpl; [constructor..| |done].
  by constructor.
Qed.

(** ** Integer sums over lists *)

Fixpoint zsum (l : list Z) : Z :=
  match l with [] => 0 | x :: l => x + zsum l end%Z.

Lemma zsum_app l1 l2 : zsum (l1 ++ l2) = (zsum l1 + zsum l2)%Z.
Proof. induction l1 as [|x l1 IH]; simpl; lia. Qed.

Lemma zsum_nonneg l : Forall (λ x, 0 ≤ x)%Z l → (0 ≤ zsum l)%Z.
Proof. induction 1; simpl; lia. Qed.

Lemma zsum_replicate_0 n : zsum (replicate n 0%Z) = 0%Z.
Proof. by induction n. Qed.

Lemma zsum_zip_add (l1 l2 : list Z) :
  length l1 = length l2 →
  zsum (zip_with Z.add l1 l2) = (zsum l1 + zsum l2)%Z.
Proof.
  revert l2; induction l1 as [|x l1 IH]; intros [|y l2] Hl; simplify_eq/=; [done|].
  rewrite IH by done. lia.
Qed.

(** Updating one cell changes the sum by the difference. *)
Lemma zsum_alter (f : Z → Z) (l : list Z) i x :
  l !! i = Some x →
  zsum (alter f i l) = (zsum l - x + f x)%Z.
Proof.
  revert i; induction l as [|y l IH]; intros [|i] Hi; simplify_eq/=; [lia|].
  rewrite (IH i) by done. lia.
Qed.

(** Non-negative numbers with a zero sum are all zero. *)
Lemma zsum_zero_all l :
  Forall (λ x, 0 ≤ x)%Z l → zsum l = 0%Z → Forall (λ x, x = 0%Z) l.
Proof.
  induction 1 as [|x l Hx Hl IH]; intros Hs; simpl in *; [done|].
  pose proof (zsum_nonneg l Hl). constructor; [lia|]. apply IH; lia.
Qed.

(** A lower bound on every element bounds the sum, hence one element from above. *)
Lemma zsum_lower (b : Z) l :
  Forall (λ x, b ≤ x)%Z l → (b * len l ≤ zsum l)%Z.
Proof. induction 1; simpl; lia. Qed.

Lemma zsum_upper (b : Z) l :
  Forall (λ x, x ≤ b)%Z l → (zsum l ≤ b * len l)%Z.
Proof. induction 1; simpl; lia. Qed.

Lemma zsum_upper_elem (b : Z) l i x :
  Forall (λ x, b ≤ x)%Z l → l !! i = Some x →
  (x ≤ zsum l - b * (len l - 1))%Z.
Proof.
  revert i; induction l as [|y l IH]; intros [|i] Hl Hi; simplify_eq/=;
    inversion_clear Hl as [|?? Hy Hl'].
  - pose proof (zsum_lower b l Hl'). lia.
  - specialize (IH i Hl' Hi). lia.
Qed.

(** ** Go's [int] (64 bits, two's complement)

    [wrap64] is the wrap-around of a 64-bit signed addition; [in_int64]
    the range in which it is the identity. *)

Definition int64_min : Z := - 2 ^ 63.
Definition int64_max : Z := 2 ^ 63 - 1.

Definition wrap64 (z : Z) : Z := (z + 2 ^ 63) `mod` 2 ^ 64 - 2 ^ 63.

Definition in_int64 (z : Z) : Prop := (int64_min ≤ z ≤ int64_max)%Z.

#[global] Instance in_int64_dec z : Decision (in_int64 z).
Proof. unfold in_int64. apply _. Defined.

Lemma wrap64_id z : in_int64 z → wrap64 z = z.
Proof.
  unfold in_int64, int64_min, int64_max, wrap64. intros H.
  rewrite Z.mod_small by lia. lia.
Qed.

Lemma wrap64_range z : in_int64 (wrap64 z).
Proof.
  unfold in_int64, int64_min, int64_max, wrap64.
  pose proof (Z.mod_pos_bound (z + 2 ^ 63) (2 ^ 64) eq_refl). lia.
Qed.

(** [Time.Sub] saturates at the ends of the range. *)
Definition sat64 (z : Z) : Z := Z.max int64_min (Z.min int64_max z).

Lemma sat64_id z : in_int64 z → sat64 z = z.
Proof. unfold in_int64, sat64. lia. Qed.

(** ** Counting occurrences *)

Section count.
Context {A : Type} `{EqDecision A}.

Fixpoint count (x : A) (l : list A) : Z :=
  match l with
  | [] => 0
  | y :: l => (if decide (x = y) then 1 else 0) + count x l
  end%Z.

Lemma count_app x l1 l2 : count x (l1 ++ l2) = (count x l1 + count x l2)%Z.
Proof. induction l1; simpl; lia. Qed.

Lemma count_nonneg x l : (0 ≤ count x l)%Z.
Proof. induction l; simpl; zlia. Qed.
End count.

(** *** Keys of a map after an update *)

Lemma is_Some_insert {V} (f : gmap string V) k v k' :
  is_Some (<[k := v]> f !! k') ↔ k = k' ∨ is_Some (f !! k').
Proof. rewrite lookup_insert_is_Some. destruct (decide (k = k')); naive_solver. Qed.

Lemma is_Some_delete {V} (f : gmap string V) k k' : is_Some (delete k f !! k') → is_Some (f !! k').
Proof. rewrite lookup_delete_is_Some. naive_solver. Qed.
