(* ===== verification/GoLib.v ===== *)
(** * The parts of Go's standard library the program uses

    Time and durations, [float64] scores, UTF-8 runes, [strings] helpers,
    and base64.  Go's language and standard library are modelled here once;
    the components require this file. *)

From S2P Require Import Prelude.
From Stdlib Require Import Ascii.

(** ** Time

    An instant is a [Z] counting nanoseconds since the Unix epoch, a
    duration a [Z] of nanoseconds. *)
Module GoTime.

Definition Millisecond : Z := 1000000.
Definition Second : Z := 1000000000.
Definition Minute : Z := 60 * Second.
Definition Hour : Z := 60 * Minute.

(** The zero [time.Time]: 1 January of year 1, UTC. *)
Definition zeroTime : Z := - 62135596800 * Second.

Definition IsZero (t : Z) : bool := bool_decide (t = zeroTime).

(** [t.Unix()] rounds towards minus infinity, [d.Milliseconds()] towards
    zero. *)
Definition Unix (t : Z) : Z := (t `div` Second)%Z.
Definition Nanosecond (t : Z) : Z := (t `mod` Second)%Z.
Definition Milliseconds (d : Z) : Z := (d `quot` Millisecond)%Z.

Lemma Unix_Nanosecond t : (t = Second * Unix t + Nanosecond t)%Z.
Proof. unfold Unix, Nanosecond. apply Z.div_mod. done. Qed.

Lemma Nanosecond_range t : (0 ≤ Nanosecond t < Second)%Z.
Proof. unfold Nanosecond. by apply Z.mod_pos_bound. Qed.

End GoTime.

(** ** [float64] scores

    A ZSET score is a double.  The scores the program produces are finite
    and at most [2^63] seconds, with fractions no finer than [2^-83], so a
    score is represented exactly as a [Z] counting units of [2^-90]
    seconds, and [f64] rounds such a number to the nearest double, ties to
    even (53 significant bits). *)
Module GoFloat.
Import GoTime.

Notation score := Z (only parsing).
Definition score_unit : Z := 2 ^ 90.

(** Round [x] to a multiple of [2^e], ties to even. *)
Definition rne (x e : Z) : Z :=
  let q := (x `div` 2 ^ e)%Z in
  let r := (x `mod` 2 ^ e)%Z in
  let up := match Z.compare (2 * r) (2 ^ e) with
            | Lt => false | Gt => true | Eq => Z.odd q
            end in
  ((if up then q + 1 else q) * 2 ^ e)%Z.

Definition f64 (x : Z) : score :=
  rne x (Z.max 0 (Z.log2 (Z.abs x) - 52)).

(** [float64(n)] for an integer [n]. *)
Definition ofInt (n : Z) : score := f64 (n * score_unit).

(** [float64(ns)/1e9]: the quotient is formed with a sticky last bit, which
    makes the rounding to 53 bits the correct one. *)
Definition nsFraction (ns : Z) : score :=
  let n := (ns * score_unit)%Z in
  let q := (n `div` Second)%Z in
  f64 (if bool_decide (n `mod` Second = 0)%Z then q else if Z.odd q then q else q + 1)%Z.

(** [float64] addition. *)
Definition fadd (a b : score) : score := f64 (a + b).

(** [float64] subtraction. *)
Definition fsub (a b : score) : score := f64 (a - b).

(** A quotient rounded towards odd, as [nsFraction] forms it: its last bit
    tells the later rounding that something was cut off. *)
Definition stickyDiv (n d : Z) : Z :=
  let q := (n `div` d)%Z in
  if bool_decide (n `mod` d = 0)%Z then q else if Z.odd q then q else (q + 1)%Z.

(** [float64] multiplication and division; right for results that are zero
    or at least [2^-37]. *)
Definition fmul (a b : score) : score := f64 (stickyDiv (a * b) score_unit).
Definition fdiv (a b : score) : score := f64 (stickyDiv (a * score_unit) b).

(** [int64(score)] truncates towards zero. *)
Definition toInt64 (s : score) : Z := (s `quot` score_unit)%Z.

Lemma rne_multiple q e : (0 ≤ e)%Z → rne (q * 2 ^ e) e = (q * 2 ^ e)%Z.
Proof.
  intros He. pose proof (Z.pow_pos_nonneg 2 e ltac:(lia) He).
  unfold rne. rewrite Z.mod_mul, Z.div_mul by lia.
  rewrite (proj2 (Z.compare_lt_iff _ _)) by lia. done.
Qed.

Lemma rne_mono x y e : (0 ≤ e)%Z → (x ≤ y)%Z → (rne x e ≤ rne y e)%Z.
Proof.
  intros He Hxy. pose proof (Z.pow_pos_nonneg 2 e ltac:(lia) He) as Hp.
  unfold rne. apply Z.mul_le_mono_nonneg_r; [lia|].
  pose proof (Z.div_le_mono x y _ Hp Hxy) as Hq.
  pose proof (Z.div_mod x (2 ^ e)) as Hx. pose proof (Z.div_mod y (2 ^ e)) as Hy.
  destruct (decide (x `div` 2 ^ e = y `div` 2 ^ e)%Z) as [E|].
  - rewrite E in *. assert (x `mod` 2 ^ e ≤ y `mod` 2 ^ e)%Z by lia.
    destruct (Z.compare_spec (2 * (x `mod` 2 ^ e)) (2 ^ e)),
      (Z.compare_spec (2 * (y `mod` 2 ^ e)) (2 ^ e)); repeat case_match; lia.
  - repeat case_match; lia.
Qed.

Lemma rne_bounds x e lo hi :
  (0 ≤ e)%Z → (lo * 2 ^ e ≤ x ≤ hi * 2 ^ e)%Z → (lo * 2 ^ e ≤ rne x e ≤ hi * 2 ^ e)%Z.
Proof.
  intros He [Hlo Hhi].
  apply (rne_mono _ _ e He) in Hlo, Hhi. rewrite rne_multiple in Hlo, Hhi by done. lia.
Qed.

Lemma f64_exponent x :
  (0 < x)%Z → let e := Z.max 0 (Z.log2 (Z.abs x) - 52) in
  (0 ≤ e ∧ x < 2 ^ 53 * 2 ^ e ∧ (0 < e → 2 ^ 52 * 2 ^ e ≤ x))%Z.
Proof.
  intros Hx e. pose proof (Z.log2_spec x Hx) as [Hl Hu].
  subst e. rewrite Z.abs_eq by lia. set (n := Z.log2 x) in *. split; [lia|].
  rewrite <- !Z.pow_add_r by lia. split.
  - eapply Z.lt_le_trans; [exact Hu|]. apply Z.pow_le_mono_r; lia.
  - intros He. etrans; [|exact Hl]. apply Z.pow_le_mono_r; lia.
Qed.

(** Rounding to a double is monotone on the non-negative numbers. *)
Lemma f64_mono x y : (0 ≤ x)%Z → (x ≤ y)%Z → (f64 x ≤ f64 y)%Z.
Proof.
  intros Hx Hxy. destruct (decide (x = y)) as [->|]; [done|].
  destruct (decide (x = 0)%Z) as [->|].
  { assert (0 * 2 ^ Z.max 0 (Z.log2 (Z.abs y) - 52) ≤ f64 y)%Z; [|done].
    destruct (f64_exponent y ltac:(lia)) as (? & ? & _).
    apply (rne_bounds y _ 0 (2 ^ 53)); lia. }
  pose proof (f64_exponent x ltac:(lia)) as (Hx0 & Hxu & _).
  pose proof (f64_exponent y ltac:(lia)) as (Hy0 & Hyu & Hyl).
  unfold f64. set (ex := Z.max 0 (Z.log2 (Z.abs x) - 52)%Z) in *.
  set (ey := Z.max 0 (Z.log2 (Z.abs y) - 52)%Z) in *.
  assert (ex ≤ ey)%Z.
  { subst ex ey. rewrite !Z.abs_eq by lia. pose proof (Z.log2_le_mono x y Hxy). lia. }
  destruct (decide (ex = ey)) as [<-|]; [by apply rne_mono|].
  trans (2 ^ 53 * 2 ^ ex)%Z.
  - apply (rne_bounds x ex 0 (2 ^ 53)); lia.
  - trans (2 ^ 52 * 2 ^ ey)%Z.
    + rewrite <- !Z.pow_add_r by lia. apply Z.pow_le_mono_r; lia.
    + apply (rne_bounds y ey (2 ^ 52) (2 ^ 53)); lia.
Qed.

(** A whole number of seconds below [2^53] is exactly representable. *)
Lemma ofInt_exact n : (0 ≤ n < 2 ^ 53)%Z → ofInt n = (n * score_unit)%Z.
Proof.
  intros Hn. destruct (decide (n = 0)%Z) as [->|]; [done|].
  unfold ofInt, f64, score_unit. rewrite Z.abs_eq by lia.
  rewrite Z.log2_mul_pow2 by lia.
  pose proof (Z.log2_nonneg n). assert (Z.log2 n < 53)%Z by (apply Z.log2_lt_pow2; lia).
  set (e := Z.max 0 (90 + Z.log2 n - 52)%Z).
  replace (n * 2 ^ 90)%Z with (n * 2 ^ (90 - e) * 2 ^ e)%Z; [apply rne_multiple; lia|].
  rewrite <- Z.mul_assoc, <- Z.pow_add_r by lia. do 2 f_equal. lia.
Qed.

Lemma f64_nonneg x : (0 ≤ x)%Z → (0 ≤ f64 x)%Z.
Proof. intros Hx. by apply (f64_mono 0 x). Qed.

Lemma stickyDiv_nonneg a n : (0 ≤ a)%Z → (0 < n)%Z → (0 ≤ stickyDiv a n)%Z.
Proof.
  intros. assert (0 ≤ a `div` n)%Z by (by apply Z.div_pos). unfold stickyDiv. repeat case_match; lia.
Qed.

Lemma stickyDiv_mono a b n : (0 < n)%Z → (a ≤ b)%Z → (stickyDiv a n ≤ stickyDiv b n)%Z.
Proof.
  intros Hn Hab. unfold stickyDiv.
  pose proof (Z.div_le_mono a b n Hn Hab).
  pose proof (Z.div_mod a n ltac:(lia)). pose proof (Z.div_mod b n ltac:(lia)).
  pose proof (Z.mod_pos_bound a n Hn). pose proof (Z.mod_pos_bound b n Hn).
  destruct (decide (a `div` n = b `div` n)%Z) as [E|].
  - rewrite E in *. repeat case_bool_decide; repeat case_match; lia.
  - repeat case_bool_decide; repeat case_match; lia.
Qed.

Lemma stickyDiv_exact k n : (0 < n)%Z → stickyDiv (k * n) n = k.
Proof. intros Hn. unfold stickyDiv. rewrite Z.mod_mul, Z.div_mul by lia. by rewrite bool_decide_true. Qed.

Lemma score_unit_pos : (0 < score_unit)%Z.
Proof. done. Qed.

(** Products and quotients of non-negative doubles are monotone. *)
Lemma fmul_mono a b c : (0 ≤ a)%Z → (0 ≤ b ≤ c)%Z → (0 ≤ fmul a b ≤ fmul a c)%Z.
Proof.
  intros Ha Hb. unfold fmul. split; [apply f64_nonneg, stickyDiv_nonneg; [nia|done]|].
  apply f64_mono; [apply stickyDiv_nonneg; [nia|done]|]. apply stickyDiv_mono; [done|nia].
Qed.

Lemma fdiv_mono a b c : (0 < c)%Z → (0 ≤ a ≤ b)%Z → (0 ≤ fdiv a c ≤ fdiv b c)%Z.
Proof.
  intros Hc Ha. pose proof score_unit_pos. unfold fdiv.
  split; [apply f64_nonneg, stickyDiv_nonneg; [nia|done]|].
  apply f64_mono; [apply stickyDiv_nonneg; [nia|done]|]. apply stickyDiv_mono; [done|nia].
Qed.

(** Whole numbers are multiplied and divided exactly, when the result is one
    below [2^53]. *)
Lemma fmul_ints a b : (0 ≤ a * b < 2 ^ 53)%Z → fmul (a * score_unit) (b * score_unit) = (a * b * score_unit)%Z.
Proof.
  intros Hab. unfold fmul. replace (a * score_unit * (b * score_unit))%Z with (a * b * score_unit * score_unit)%Z by ring.
  rewrite stickyDiv_exact by done. by apply ofInt_exact.
Qed.

Lemma fdiv_ints a b : (0 < b)%Z → (0 ≤ a < 2 ^ 53)%Z → fdiv (a * b * score_unit) (b * score_unit) = (a * score_unit)%Z.
Proof.
  intros Hb Ha. pose proof score_unit_pos. unfold fdiv.
  replace (a * b * score_unit * score_unit)%Z with (a * score_unit * (b * score_unit))%Z by ring.
  rewrite stickyDiv_exact by nia. by apply ofInt_exact.
Qed.

(** A double divided by itself is one. *)
Lemma fdiv_self a : (0 < a)%Z → fdiv a a = score_unit.
Proof. intros Ha. unfold fdiv. rewrite Z.mul_comm, stickyDiv_exact by done. by apply (ofInt_exact 1). Qed.

Lemma fdiv_0 c : (0 < c)%Z → fdiv 0 c = 0%Z.
Proof. intros Hc. unfold fdiv. by rewrite (stickyDiv_exact 0 c Hc : stickyDiv (0 * score_unit) c = _). Qed.

End GoFloat.

(** ** Strings and bytes

    A Go [string] and a [[]byte] are both sequences of bytes, i.e. a Rocq
    [string] of 8-bit characters. *)
Module GoStr.

Definition bytes := string.

Definition chars (s : string) : list ascii := String.list_ascii_of_string s.
Definition ofChars (l : list ascii) : string := String.string_of_list_ascii l.
Definition code (c : ascii) : Z := Z.of_N (N_of_ascii c).
Definition codes (s : string) : list Z := map code (chars s).
Definition ofCode (z : Z) : ascii := ascii_of_N (Z.to_N z).

Lemma chars_app a b : chars (a +:+ b) = chars a ++ chars b.
Proof. induction a as [|c a IH]; [done|]. change (c :: chars (a +:+ b) = c :: chars a ++ chars b). by rewrite IH. Qed.

Lemma ofChars_chars s : ofChars (chars s) = s.
Proof. apply String.string_of_list_ascii_of_string. Qed.

Lemma chars_ofChars l : chars (ofChars l) = l.
Proof. apply String.list_ascii_of_string_of_list_ascii. Qed.

Lemma chars_inj a b : chars a = chars b → a = b.
Proof. intros H. by rewrite <- (ofChars_chars a), H, ofChars_chars. Qed.

Lemma code_range c : (0 ≤ code c < 256)%Z.
Proof. unfold code. destruct c as [[][][][][][][][]]; simpl; lia. Qed.

Lemma ofCode_code c : ofCode (code c) = c.
Proof. unfold ofCode, code. rewrite N2Z.id. apply ascii_N_embedding. Qed.

(** [strings.Trim(s, cutset)] for a one-character cutset. *)
Fixpoint trimLeft (c : ascii) (l : list ascii) : list ascii :=
  match l with
  | [] => []
  | x :: l' => if decide (x = c) then trimLeft c l' else l
  end.

Definition trim (c : ascii) (s : string) : string :=
  ofChars (reverse (trimLeft c (reverse (trimLeft c (chars s))))).

(** [strings.HasPrefix]. *)
Definition hasPrefix (s p : string) : bool := String.prefix p s.

(** [fmt.Sprintf] of a decimal integer. *)
Definition itoa (n : Z) : string := pretty n.

Lemma trimLeft_idemp c l : trimLeft c (trimLeft c l) = trimLeft c l.
Proof.
  induction l as [|x l IH]; simpl; [done|].
  destruct (decide (x = c)) as [->|] eqn:E; [done|]. simpl. by rewrite E.
Qed.

Lemma trimLeft_suffix c l : ∃ k, l = replicate k c ++ trimLeft c l.
Proof.
  induction l as [|x l [k IH]]; simpl; [by exists 0|].
  destruct (decide (x = c)) as [->|]; [|by exists 0].
  exists (S k). simpl. by f_equal.
Qed.

Lemma trimLeft_head c l : head (trimLeft c l) ≠ Some c.
Proof.
  induction l as [|x l IH]; simpl; [done|].
  destruct (decide (x = c)); [done|]. simpl. congruence.
Qed.

Lemma trimLeft_id c l : head l ≠ Some c → trimLeft c l = l.
Proof.
  destruct l as [|x l]; simpl; [done|]. intros H.
  destruct (decide (x = c)); [congruence|done].
Qed.

(** Trimming the right end does not disturb the left one. *)
Lemma trimRight_head c l :
  head l ≠ Some c → head (reverse (trimLeft c (reverse l))) ≠ Some c.
Proof.
  intros Hl. destruct (trimLeft_suffix c (reverse l)) as [k Hk].
  assert (l = reverse (trimLeft c (reverse l)) ++ replicate k c) as Heq.
  { rewrite <- (reverse_involutive l) at 1. rewrite Hk at 1. rewrite reverse_app.
    by rewrite reverse_replicate. }
  destruct (reverse (trimLeft c (reverse l))) as [|y l'] eqn:E; [done|].
  intros [= ->]. apply Hl. by rewrite Heq.
Qed.

Lemma trim_idemp c s : trim c (trim c s) = trim c s.
Proof.
  unfold trim. rewrite chars_ofChars. f_equal.
  rewrite (trimLeft_id c (reverse (trimLeft c (reverse (trimLeft c (chars s)))))).
  - by rewrite reverse_involutive, trimLeft_idemp.
  - apply trimRight_head, trimLeft_head.
Qed.

Lemma trim_ends c s :
  head (chars (trim c s)) ≠ Some c ∧ last (chars (trim c s)) ≠ Some c.
Proof.
  unfold trim. rewrite chars_ofChars. split.
  - apply trimRight_head, trimLeft_head.
  - rewrite last_reverse. apply trimLeft_head.
Qed.

End GoStr.

(** ** UTF-8: the runes a [range] loop over a string visits *)
Module Utf8.
Import GoStr.

Definition RuneError : Z := 65533.

Definition cont (b : Z) : bool := bool_decide (128 ≤ b ≤ 191)%Z.

(** Decode the bytes of a string.  [None] marks an invalid byte, for which
    a [range] loop yields [RuneError] and advances by one byte. *)
Fixpoint decode_runes (l : list Z) : list (option Z) :=
  match l with
  | [] => []
  | b0 :: l1 =>
    if bool_decide (b0 < 128)%Z then Some b0 :: decode_runes l1
    else match l1 with
    | [] => [None]
    | b1 :: l2 =>
      if bool_decide (194 ≤ b0 ≤ 223)%Z && cont b1 then
        Some ((b0 - 192) * 64 + (b1 - 128))%Z :: decode_runes l2
      else match l2 with
      | [] => None :: decode_runes l1
      | b2 :: l3 =>
        if bool_decide (224 ≤ b0 ≤ 239)%Z && cont b1 && cont b2
           && implb (bool_decide (b0 = 224)%Z) (bool_decide (160 ≤ b1)%Z)
           && implb (bool_decide (b0 = 237)%Z) (bool_decide (b1 ≤ 159)%Z) then
          Some ((b0 - 224) * 4096 + (b1 - 128) * 64 + (b2 - 128))%Z :: decode_runes l3
        else match l3 with
        | [] => None :: decode_runes l1
        | b3 :: l4 =>
          if bool_decide (240 ≤ b0 ≤ 244)%Z && cont b1 && cont b2 && cont b3
             && implb (bool_decide (b0 = 240)%Z) (bool_decide (144 ≤ b1)%Z)
             && implb (bool_decide (b0 = 244)%Z) (bool_decide (b1 ≤ 143)%Z) then
            Some ((b0 - 240) * 262144 + (b1 - 128) * 4096
                  + (b2 - 128) * 64 + (b3 - 128))%Z :: decode_runes l4
          else None :: decode_runes l1
        end
      end
    end
  end.

Definition runes (s : string) : list Z := map (default RuneError) (decode_runes (codes s)).

(** [utf8.ValidString]. *)
Definition valid (s : string) : bool :=
  forallb (λ r, match r with Some _ => true | None => false end)
    (decode_runes (codes s)).

(** What [encoding/json] makes of the bytes of a string: every invalid byte
    becomes the encoding of [RuneError]. *)
Fixpoint sanitize_bytes (l : list Z) : list Z :=
  match l with
  | [] => []
  | b0 :: l1 =>
    if bool_decide (b0 < 128)%Z then b0 :: sanitize_bytes l1
    else match l1 with
    | [] => [239; 191; 189]%Z
    | b1 :: l2 =>
      if bool_decide (194 ≤ b0 ≤ 223)%Z && cont b1 then b0 :: b1 :: sanitize_bytes l2
      else match l2 with
      | [] => 239%Z :: 191%Z :: 189%Z :: sanitize_bytes l1
      | b2 :: l3 =>
        if bool_decide (224 ≤ b0 ≤ 239)%Z && cont b1 && cont b2
           && implb (bool_decide (b0 = 224)%Z) (bool_decide (160 ≤ b1)%Z)
           && implb (bool_decide (b0 = 237)%Z) (bool_decide (b1 ≤ 159)%Z) then
          b0 :: b1 :: b2 :: sanitize_bytes l3
        else match l3 with
        | [] => 239%Z :: 191%Z :: 189%Z :: sanitize_bytes l1
        | b3 :: l4 =>
          if bool_decide (240 ≤ b0 ≤ 244)%Z && cont b1 && cont b2 && cont b3
             && implb (bool_decide (b0 = 240)%Z) (bool_decide (144 ≤ b1)%Z)
             && implb (bool_decide (b0 = 244)%Z) (bool_decide (b1 ≤ 143)%Z) then
            b0 :: b1 :: b2 :: b3 :: sanitize_bytes l4
          else 239%Z :: 191%Z :: 189%Z :: sanitize_bytes l1
        end
      end
    end
  end.

Definition sanitize (s : string) : string := ofChars (map ofCode (sanitize_bytes (codes s))).

Definition valid_bytes (l : list Z) : bool :=
  forallb (λ r, match r with Some _ => true | None => false end) (decode_runes l).

Lemma sanitize_bytes_valid l : valid_bytes l = true → sanitize_bytes l = l.
Proof.
  induction l as [l IH] using (induction_ltof1 _ length). unfold ltof in IH.
  unfold valid_bytes in *. destruct l as [|b0 l1]; [done|]. simpl.
  case_bool_decide; simpl; [intros Hv; f_equal; apply IH; [simpl; lia|done]|].
  destruct l1 as [|b1 l2]; [done|].
  destruct (_ && _); simpl; [intros Hv; do 2 f_equal; apply IH; [simpl; lia|done]|].
  destruct l2 as [|b2 l3]; [done|].
  destruct (_ && _); simpl; [intros Hv; do 3 f_equal; apply IH; [simpl; lia|done]|].
  destruct l3 as [|b3 l4]; [done|].
  destruct (_ && _); simpl; [intros Hv; do 4 f_equal; apply IH; [simpl; lia|done]|done].
Qed.

Lemma decode_runes_app l l' :
  valid_bytes l = true → decode_runes (l ++ l') = decode_runes l ++ decode_runes l'.
Proof.
  induction l as [l IH] using (induction_ltof1 _ length). unfold ltof in IH.
  unfold valid_bytes in *. destruct l as [|b0 l1]; [done|]. simpl.
  case_bool_decide; simpl; [intros Hv; f_equal; apply IH; [simpl; lia|done]|].
  destruct l1 as [|b1 l2]; [done|]. simpl.
  destruct (_ && _); simpl; [intros Hv; f_equal; apply IH; [simpl; lia|done]|].
  destruct l2 as [|b2 l3]; [done|]. simpl.
  destruct (_ && _); simpl; [intros Hv; f_equal; apply IH; [simpl; lia|done]|].
  destruct l3 as [|b3 l4]; [done|]. simpl.
  destruct (_ && _); simpl; [intros Hv; f_equal; apply IH; [simpl; lia|done]|done].
Qed.

Lemma sanitize_valid s : valid s = true → sanitize s = s.
Proof.
  intros Hv. unfold sanitize. rewrite sanitize_bytes_valid by done. unfold codes.
  rewrite map_map. rewrite <- (ofChars_chars s) at 2. f_equal.
  induction (chars s) as [|c l IH]; simpl; [done|]. by rewrite ofCode_code, IH.
Qed.

Lemma valid_append a b : valid a = true → valid b = true → valid (a +:+ b) = true.
Proof.
  unfold valid, codes. rewrite chars_app, map_app. intros Ha Hb.
  by rewrite decode_runes_app, forallb_app, Ha, Hb.
Qed.

(** Strings of ASCII characters are valid. *)
Lemma valid_ascii s : Forall (λ c, code c < 128)%Z (chars s) → valid s = true.
Proof.
  unfold valid, codes. induction 1 as [|c l Hc Hl IH]; [done|]. simpl.
  by rewrite bool_decide_true by done.
Qed.

(** What holds of the digits and of the sign holds of a printed integer. *)
Lemma itoa_chars (P : ascii → Prop) z : Forall P (chars "-0123456789") → Forall P (chars (itoa z)).
Proof.
  intros HP. repeat (apply Forall_cons in HP as [? HP]).
  assert (∀ x, P (pretty_N_char x)) as Hc by (intros x; unfold pretty_N_char; by repeat case_match).
  assert (∀ x s, Forall P (chars s) → Forall P (chars (pretty_N_go x s))) as Hgo.
  { intros x. induction (N.lt_wf_0 x) as [x _ IH]; intros s Hs.
    destruct (decide (x = 0%N)) as [->|]; [by rewrite pretty_N_go_0|].
    rewrite pretty_N_go_step by lia. apply IH; [apply N.div_lt; lia|]. by constructor. }
  assert (∀ x : N, Forall P (chars (pretty x))) as HN.
  { intros x. unfold pretty, pretty_N. case_decide; [by repeat constructor|]. apply Hgo. constructor. }
  unfold itoa. destruct z as [|p|p]; [by repeat constructor|exact (HN (N.pos p))|].
  change (Forall P ("-"%char :: chars (pretty (N.pos p)))). by constructor.
Qed.

Lemma itoa_nonempty z : itoa z ≠ "".
Proof.
  assert (∀ x : N, pretty x ≠ "") as HN.
  { intros x. unfold pretty, pretty_N. case_decide as Hx; [done|].
    assert (∀ x s, s ≠ "" → pretty_N_go x s ≠ "") as Hgo.
    { clear. intros x. induction (N.lt_wf_0 x) as [x _ IH]; intros s Hs.
      destruct (decide (x = 0%N)) as [->|]; [by rewrite pretty_N_go_0|].
      rewrite pretty_N_go_step by lia. by apply IH; [apply N.div_lt; lia|]. }
    rewrite pretty_N_go_step by lia. by apply Hgo. }
  unfold itoa. destruct z; [done|apply (HN (N.pos _))|done].
Qed.

Lemma valid_itoa z : valid (itoa z) = true.
Proof. apply valid_ascii, itoa_chars. by repeat constructor. Qed.

(** [unicode.IsSpace] and [unicode.IsControl]. *)
Definition IsSpace (r : Z) : bool :=
  bool_decide (r ∈ [9; 10; 11; 12; 13; 32; 133; 160; 5760; 8232; 8233; 8239; 8287; 12288]%Z)
  || bool_decide (8192 ≤ r ≤ 8202)%Z.

Definition IsControl (r : Z) : bool :=
  bool_decide (0 ≤ r ≤ 31)%Z || bool_decide (127 ≤ r ≤ 159)%Z.

End Utf8.

(** ** [base64.StdEncoding] *)
Module Base64.
Import GoStr.

Definition alphabet : list ascii :=
  chars "ABCDEFGHIJKLMNOPQRSTUVWXYZabcdefghijklmnopqrstuvwxyz0123456789+/".

Definition encodeChar (v : Z) : ascii := nth (Z.to_nat v) alphabet "="%char.

Definition decodeChar (c : ascii) : option Z :=
  (λ p, Z.of_nat p.1) <$> list_find (c =.) alphabet.

Fixpoint encodeBytes (l : list Z) : list ascii :=
  match l with
  | [] => []
  | [a] =>
    [encodeChar (a `div` 4); encodeChar (a `mod` 4 * 16); "="; "="]%char
  | [a; b] =>
    [encodeChar (a `div` 4); encodeChar (a `mod` 4 * 16 + b `div` 16);
     encodeChar (b `mod` 16 * 4); "="]%char
  | a :: b :: c :: l =>
    encodeChar (a `div` 4) :: encodeChar (a `mod` 4 * 16 + b `div` 16)
      :: encodeChar (b `mod` 16 * 4 + c `div` 64) :: encodeChar (c `mod` 64)
      :: encodeBytes l
  end%Z.

(** Decoding of groups of four characters; the last group may be padded. *)
Fixpoint decodeBytes (l : list ascii) : option (list Z) :=
  match l with
  | [] => Some []
  | c0 :: c1 :: c2 :: c3 :: l =>
    s0 ← decodeChar c0; s1 ← decodeChar c1;
    if decide (c2 = "=" ∧ c3 = "=" ∧ l = [])%char then Some [s0 * 4 + s1 `div` 16]
    else s2 ← decodeChar c2;
      if decide (c3 = "=" ∧ l = [])%char then
        Some [s0 * 4 + s1 `div` 16; s1 `mod` 16 * 16 + s2 `div` 4]
      else s3 ← decodeChar c3; r ← decodeBytes l;
        Some (s0 * 4 + s1 `div` 16 :: s1 `mod` 16 * 16 + s2 `div` 4
              :: s2 `mod` 4 * 64 + s3 :: r)
  | _ => None
  end%Z.

Definition EncodeToString (b : bytes) : string := ofChars (encodeBytes (codes b)).

Definition DecodeString (s : string) : option bytes :=
  (λ l, ofChars (map ofCode l)) <$> decodeBytes (chars s).

Lemma decodeChar_encodeChar v :
  (0 ≤ v < 64)%Z → decodeChar (encodeChar v) = Some v.
Proof.
  intros Hv.
  assert (forallb (λ n, bool_decide (decodeChar (encodeChar (Z.of_nat n)) = Some (Z.of_nat n)))
    (seq 0 64) = true) as H by (vm_compute; reflexivity).
  rewrite forallb_forall in H. specialize (H (Z.to_nat v)).
  rewrite bool_decide_eq_true in H. rewrite Z2Nat.id in H by lia.
  apply H, in_seq. lia.
Qed.

Lemma encodeChar_not_pad v : (0 ≤ v < 64)%Z → encodeChar v ≠ "="%char.
Proof.
  intros Hv E. pose proof (decodeChar_encodeChar v Hv) as H. rewrite E in H. done.
Qed.

(** The arithmetic of splitting bytes into sextets and joining them again. *)
Local Ltac sextet :=
  intros; repeat match goal with
  | H : (0 ≤ _ < 256)%Z |- _ => revert H
  end; clear; intros; Z.div_mod_to_equations; lia.

Lemma sextet_range0 a : (0 ≤ a < 256 → 0 ≤ a `div` 4 < 64)%Z.
Proof. sextet. Qed.
Lemma sextet_range1 a : (0 ≤ a < 256 → 0 ≤ a `mod` 4 * 16 < 64)%Z.
Proof. sextet. Qed.
Lemma sextet_range2 a b :
  (0 ≤ a < 256 → 0 ≤ b < 256 → 0 ≤ a `mod` 4 * 16 + b `div` 16 < 64)%Z.
Proof. sextet. Qed.
Lemma sextet_range3 b : (0 ≤ b < 256 → 0 ≤ b `mod` 16 * 4 < 64)%Z.
Proof. sextet. Qed.
Lemma sextet_range4 b c :
  (0 ≤ b < 256 → 0 ≤ c < 256 → 0 ≤ b `mod` 16 * 4 + c `div` 64 < 64)%Z.
Proof. sextet. Qed.
Lemma sextet_range5 c : (0 ≤ c < 256 → 0 ≤ c `mod` 64 < 64)%Z.
Proof. sextet. Qed.

Lemma join0 a : (0 ≤ a < 256 → a `div` 4 * 4 + (a `mod` 4 * 16) `div` 16 = a)%Z.
Proof. sextet. Qed.
Lemma join1 a b :
  (0 ≤ a < 256 → 0 ≤ b < 256 →
   a `div` 4 * 4 + (a `mod` 4 * 16 + b `div` 16) `div` 16 = a)%Z.
Proof. sextet. Qed.
Lemma join2 a b :
  (0 ≤ a < 256 → 0 ≤ b < 256 →
   (a `mod` 4 * 16 + b `div` 16) `mod` 16 * 16 + (b `mod` 16 * 4) `div` 4 = b)%Z.
Proof. sextet. Qed.
Lemma join3 a b c :
  (0 ≤ a < 256 → 0 ≤ b < 256 → 0 ≤ c < 256 →
   (a `mod` 4 * 16 + b `div` 16) `mod` 16 * 16
     + (b `mod` 16 * 4 + c `div` 64) `div` 4 = b)%Z.
Proof. sextet. Qed.
Lemma join4 b c :
  (0 ≤ b < 256 → 0 ≤ c < 256 →
   (b `mod` 16 * 4 + c `div` 64) `mod` 4 * 64 + c `mod` 64 = c)%Z.
Proof. sextet. Qed.

#[local] Hint Resolve sextet_range0 sextet_range1 sextet_range2 sextet_range3
  sextet_range4 sextet_range5 : chronos.

Lemma decode_encodeBytes l :
  Forall (λ b, 0 ≤ b < 256)%Z l → decodeBytes (encodeBytes l) = Some l.
Proof.
  induction l as [l IH] using (induction_ltof1 _ length). unfold ltof in IH.
  intros Hl. destruct l as [|a [|b [|c l]]]; [done|..];
    rewrite ?Forall_cons in Hl; simpl.
  - destruct Hl as [Ha _]. rewrite !decodeChar_encodeChar by auto with chronos. simpl.
    by rewrite join0.
  - destruct Hl as (Ha & Hb & _).
    rewrite !decodeChar_encodeChar by auto with chronos. simpl.
    rewrite decide_False
      by (intros [E _]; eapply encodeChar_not_pad, E; auto with chronos).
    simpl. by rewrite join1, join2.
  - destruct Hl as (Ha & Hb & Hc & Hl).
    rewrite !decodeChar_encodeChar by auto with chronos. simpl.
    rewrite decide_False
      by (intros [E _]; eapply encodeChar_not_pad, E; auto with chronos).
    rewrite decide_False
      by (intros [E _]; eapply encodeChar_not_pad, E; auto with chronos).
    rewrite IH by (done || simpl; lia). simpl. by rewrite join1, join3, join4.
Qed.

Lemma decode_encode (b : bytes) : DecodeString (EncodeToString b) = Some b.
Proof.
  unfold DecodeString, EncodeToString. rewrite chars_ofChars, decode_encodeBytes.
  - simpl. f_equal. rewrite <- (ofChars_chars b) at 2. f_equal.
    unfold codes. rewrite map_map. induction (chars b) as [|c l IH]; simpl; [done|].
    by rewrite ofCode_code, IH.
  - apply Forall_fmap, Forall_true. intros c. apply code_range.
Qed.

End Base64.
