(* ===== verification/Wrr.v ===== *)
(** * Smooth weighted round-robin ([src/wrr.go])

    The picker that chooses which queue a fetch round reads first.  The
    counters are Go [int]s, so the additions wrap at 64 bits; the theorems
    show that with at most [2^20] queues they never do, that a cycle of
    [total] picks selects every queue exactly [weight] times and returns
    the picker to its initial state, and which bound the counters do and
    do not satisfy. *)

From S2P Require Import Prelude.

Module Wrr.

Definition maxWeight : Z := Z.shiftl 1 20.

Definition normalizeWeight (w : Z) : Z :=
  if bool_decide (w ≤ 0)%Z then 1%Z
  else if bool_decide (maxWeight < w)%Z then maxWeight
  else w.

Record wrrPicker := WrrPicker {
  names : list string;
  weights : list Z;
  current : list Z;
  total : Z;
}.

(** [sort.Strings]: the names of the map in ascending byte order. *)
Definition sortStrings (l : list string) : list string := merge_sort String.le l.

Definition newWRRPicker (queues : gmap string Z) : wrrPicker :=
  let ns := sortStrings (map fst (map_to_list queues)) in
  let ws := map (λ q, normalizeWeight (queues !!! q)) ns in
  WrrPicker ns ws (replicate (length ns) 0%Z)
    (foldl (λ t w, wrap64 (t + w)) 0%Z ws).

(** One iteration of the loop of [pick]: raise the score of [i], then make
    [i] the best so far when it is strictly ahead. *)
Definition pick_step (ws : list Z) (st : list Z * nat) (i : nat) : list Z * nat :=
  let '(cur, best) := st in
  let cur' := alter (λ c, wrap64 (c + ws !!! i)) i cur in
  (cur', if bool_decide (cur' !!! best < cur' !!! i)%Z then i else best).

Definition pick_loop (p : wrrPicker) : list Z * nat :=
  foldl (pick_step (weights p)) (current p, 0) (seq 0 (length (names p))).

(** [pick] returns the next queue name, [""] for an empty picker. *)
Definition pick (p : wrrPicker) : wrrPicker * string :=
  match names p with
  | [] => (p, "")
  | _ =>
    let '(cur, best) := pick_loop p in
    (WrrPicker (names p) (weights p)
       (alter (λ c, wrap64 (c - total p)) best cur) (total p),
     names p !!! best)
  end.

(** [k] consecutive picks. *)
Fixpoint picks (k : nat) (p : wrrPicker) : wrrPicker * list string :=
  match k with
  | 0 => (p, [])
  | S k => let '(p1, q) := pick p in
           let '(p2, qs) := picks k p1 in (p2, q :: qs)
  end.

Example picks_5_1_1 :
  snd (picks 7 (newWRRPicker {["a" := 5%Z; "b" := 1%Z; "c" := 1%Z]}))
  = ["a"; "a"; "b"; "a"; "c"; "a"; "a"].
Proof. vm_compute. reflexivity. Qed.

(** ** The loop of [pick] *)

Lemma alter_lookup_total (f : Z → Z) (l : list Z) i j :
  j < length l →
  alter f i l !!! j = if decide (i = j) then f (l !!! j) else l !!! j.
Proof.
  intros Hj. destruct (lookup_lt_is_Some_2 l j Hj) as [x Hx].
  rewrite (list_lookup_total_correct l j x Hx).
  apply list_lookup_total_correct. rewrite list_lookup_alter.
  case_decide; subst; by rewrite Hx.
Qed.

(** After the first [k] iterations the first [k] scores are raised and
    [best] is an index of their maximum. *)
Lemma pick_loop_spec ws cur k :
  length ws = length cur → k ≤ length cur →
  ∃ cur' best,
    foldl (pick_step ws) (cur, 0) (seq 0 k) = (cur', best) ∧
    length cur' = length cur ∧
    (∀ j, j < length cur →
      cur' !!! j = if decide (j < k) then wrap64 (cur !!! j + ws !!! j) else cur !!! j) ∧
    best < max 1 k ∧
    (∀ j : nat, (j < k)%nat → (cur' !!! j ≤ cur' !!! best)%Z).
Proof.
  intros Hl. induction k as [|k IH]; intros Hk.
  { exists cur, 0. simpl. by split_and!; try lia. }
  destruct IH as (cur' & best & Heq & Hlen & Hcur & Hb & Hmax); [lia|].
  rewrite seq_S, foldl_app, Heq. simpl.
  set (cur'' := alter _ k cur').
  assert (∀ j, j < length cur → cur'' !!! j =
    if decide (j < S k) then wrap64 (cur !!! j + ws !!! j) else cur !!! j) as Hcur''.
  { intros j Hj. subst cur''. rewrite alter_lookup_total, Hcur by lia.
    repeat case_decide; subst; try lia; done. }
  exists cur''. eexists. split; [done|].
  split; [by subst cur''; rewrite length_alter|].
  split; [done|].
  assert (∀ j, j < k → cur'' !!! j = cur' !!! j) as Hold.
  { intros j Hj. rewrite Hcur'', Hcur by lia. by rewrite !decide_True by lia. }
  case_bool_decide as Hlt.
  - split; [lia|]. intros j Hj. destruct (decide (j = k)) as [->|]; [lia|].
    destruct (decide (k = 0)) as [->|]; [lia|].
    rewrite Hold in * by lia. specialize (Hmax j ltac:(lia)). lia.
  - split; [lia|]. intros j Hj. destruct (decide (j = k)) as [->|]; [lia|].
    rewrite !Hold in * by lia. by apply Hmax; lia.
Qed.

(** ** The invariant of a picker *)

(** The largest number of queues for which the counters provably stay in
    the range of [int]. *)
Definition maxQueues : Z := 2 ^ 20.

Record wrr_ok (p : wrrPicker) : Prop := WrrOk {
  ok_weights_len : length (weights p) = length (names p);
  ok_current_len : length (current p) = length (names p);
  ok_queues : (len (names p) ≤ maxQueues)%Z;
  ok_weights : Forall (λ w, 1 ≤ w ≤ maxWeight)%Z (weights p);
  ok_total : total p = zsum (weights p);
  ok_sum : zsum (current p) = 0%Z;
  ok_lower : names p ≠ [] → Forall (λ c, - total p < c)%Z (current p);
}.

Lemma wrr_total_bounds p :
  wrr_ok p → (len (names p) ≤ total p ≤ maxWeight * len (names p))%Z.
Proof.
  intros [Hw Hc Hn Hws Ht Hs Hlo]. rewrite Ht, <- Hw. split.
  - rewrite <- (Z.mul_1_l (len _)). apply zsum_lower.
    eapply Forall_impl; [exact Hws|]. simpl. lia.
  - apply zsum_upper. eapply Forall_impl; [exact Hws|]. simpl. lia.
Qed.

Lemma wrr_total_pos p : wrr_ok p → names p ≠ [] → (0 < total p)%Z.
Proof.
  intros Hok Hne. pose proof (wrr_total_bounds p Hok) as [Ht _].
  destruct (names p); [done|simpl in Ht; lia].
Qed.

(** The bound the invariant gives: each counter lies strictly above
    [-total] and at most [total * (queues - 1)]. *)
Lemma wrr_current_bounds p i c :
  wrr_ok p → current p !! i = Some c →
  (- total p < c ≤ total p * (len (names p) - 1))%Z.
Proof.
  intros Hok Hi. pose proof (wrr_total_bounds p Hok) as Ht.
  destruct Hok as [Hw Hc Hn Hws Htot Hs Hlo].
  assert (names p ≠ []) as Hne.
  { intros He. rewrite He in Hc. apply lookup_lt_Some in Hi. simpl in Hc. lia. }
  specialize (Hlo Hne). split.
  - by eapply (Forall_lookup_1 _ _ _ _ Hlo).
  - assert (Forall (λ c, - total p ≤ c)%Z (current p)) as Hle.
    { eapply Forall_impl; [exact Hlo|]. simpl. lia. }
    pose proof (zsum_upper_elem _ _ _ _ Hle Hi). rewrite Hs, Hc in *. nia.
Qed.

Lemma wrr_int64 p c d :
  wrr_ok p → names p ≠ [] →
  (- total p * len (names p) ≤ c ≤ total p * len (names p))%Z →
  (- 2 * maxWeight * maxQueues ≤ d ≤ 2 * maxWeight * maxQueues)%Z →
  in_int64 (c + d).
Proof.
  intros Hok Hne Hc Hd. pose proof (wrr_total_bounds p Hok) as Ht.
  pose proof (ok_queues p Hok) as Hn.
  change maxWeight with 1048576%Z in *. change maxQueues with 1048576%Z in *.
  assert (total p * len (names p) ≤ 1099511627776 * 1048576)%Z.
  { apply Z.mul_le_mono_nonneg; lia. }
  unfold in_int64, int64_min, int64_max. lia.
Qed.

Lemma wrr_current_wide p j :
  wrr_ok p → j < length (names p) →
  (- total p * len (names p) ≤ current p !!! j ≤ total p * len (names p))%Z.
Proof.
  intros Hok Hj. pose proof (wrr_total_bounds p Hok) as [Ht _].
  destruct (wrr_current_bounds p j (current p !!! j) Hok) as [Hlo Hhi].
  { apply list_lookup_lookup_total_lt. by rewrite (ok_current_len p Hok). }
  generalize dependent (current p !!! j). intros c Hlo Hhi.
  assert (1 ≤ len (names p))%Z as Hn by lia.
  generalize dependent (len (names p)). intros n Ht Hhi Hn. split; nia.
Qed.

Lemma lookup_total_Some (l : list Z) j : j < length l → l !! j = Some (l !!! j).
Proof. intros Hj. by apply list_lookup_lookup_total_lt. Qed.

Lemma list_eq_total (l1 l2 : list Z) :
  length l1 = length l2 → (∀ j, j < length l1 → l1 !!! j = l2 !!! j) → l1 = l2.
Proof.
  intros Hl Heq. apply list_eq. intros j. destruct (decide (j < length l1)).
  - rewrite !lookup_total_Some by lia. f_equal. auto.
  - by rewrite !lookup_ge_None_2 by lia.
Qed.

Lemma lookup_total_zip (l1 l2 : list Z) j :
  j < length l1 → j < length l2 →
  zip_with Z.add l1 l2 !!! j = (l1 !!! j + l2 !!! j)%Z.
Proof.
  intros H1 H2. apply list_lookup_total_correct.
  by rewrite lookup_zip_with, !lookup_total_Some by done.
Qed.

(** The largest of the numbers whose sum is positive is positive. *)
Lemma zsum_pos_max (l : list Z) b :
  (0 < zsum l)%Z → (∀ j : nat, (j < length l)%nat → (l !!! j ≤ l !!! b)%Z) →
  (0 < l !!! b)%Z.
Proof.
  intros Hs Hmax. destruct (decide (0 < l !!! b)%Z) as [|Hneg]; [done|exfalso].
  assert (zsum l ≤ 0 * len l)%Z; [|lia].
  apply zsum_upper, Forall_lookup_2. intros j x Hx.
  pose proof (lookup_lt_Some _ _ _ Hx). specialize (Hmax j ltac:(done)).
  rewrite (list_lookup_total_correct _ _ _ Hx) in Hmax. lia.
Qed.

Lemma wrr_weight_bounds p j :
  wrr_ok p → j < length (names p) → (1 ≤ weights p !!! j ≤ maxWeight)%Z.
Proof.
  intros Hok Hj. apply (Forall_lookup_1 _ _ j _ (ok_weights p Hok)), lookup_total_Some.
  by rewrite (ok_weights_len p Hok).
Qed.

(** What one [pick] does to a picker that satisfies the invariant: no
    addition wraps, the winner holds a positive score before the deduction,
    and each counter moves by its weight, the winner's minus [total]. *)
Lemma pick_spec p :
  wrr_ok p → names p ≠ [] →
  ∃ best p',
    pick p = (p', names p !!! best) ∧ best < length (names p) ∧
    names p' = names p ∧ weights p' = weights p ∧ total p' = total p ∧
    length (current p') = length (current p) ∧
    (0 < current p !!! best + weights p !!! best)%Z ∧
    (∀ j, j < length (names p) →
      current p' !!! j = (current p !!! j + weights p !!! j
                          - (if decide (j = best) then total p else 0))%Z).
Proof.
  intros Hok Hne. pose proof Hok as [Hw Hc Hn Hws Ht Hs Hlo]. specialize (Hlo Hne).
  assert (0 < length (names p)) as Hpos by (destruct (names p); simpl in *; [done|lia]).
  pose proof (wrr_total_bounds p Hok) as Htb.
  destruct (pick_loop_spec (weights p) (current p) (length (names p)))
    as (cur' & best & Heq & Hlen & Hcur & Hb & Hmax); [lia..|].
  assert (∀ j, j < length (names p) →
    cur' !!! j = (current p !!! j + weights p !!! j)%Z) as Hcur'.
  { intros j Hj. rewrite Hcur, decide_True by lia. apply wrap64_id, (wrr_int64 p); try done.
    - by apply wrr_current_wide.
    - pose proof (wrr_weight_bounds p j Hok Hj) as Hwj. change maxWeight with 1048576%Z in *.
      change maxQueues with 1048576%Z in *. lia. }
  assert (0 < cur' !!! best)%Z as Hbest.
  { assert (cur' = zip_with Z.add (current p) (weights p)) as Hz.
    { apply list_eq_total; [rewrite length_zip_with; lia|].
      intros j Hj. rewrite Hcur', lookup_total_zip by lia. done. }
    apply zsum_pos_max; [|intros; apply Hmax; lia].
    rewrite Hz, zsum_zip_add by lia. lia. }
  exists best, (WrrPicker (names p) (weights p)
    (alter (λ c, wrap64 (c - total p)) best cur') (total p)). split.
  { unfold pick, pick_loop. rewrite Heq. by destruct (names p). }
  simpl. split; [lia|]. split_and!; try done.
  { by rewrite length_alter. }
  { rewrite <- Hcur' by lia. done. }
  intros j Hj. rewrite alter_lookup_total by lia. rewrite Hcur' by done.
  destruct (decide (best = j)) as [->|Hne'].
  - rewrite (decide_True _ _ eq_refl).
    replace (current p !!! j + weights p !!! j - total p)%Z
      with (current p !!! j + (weights p !!! j - total p))%Z by lia.
    apply wrap64_id, (wrr_int64 p); try done.
    + by apply wrr_current_wide.
    + pose proof (wrr_weight_bounds p j Hok Hj) as Hwj. change maxWeight with 1048576%Z in *.
      change maxQueues with 1048576%Z in *. lia.
  - rewrite decide_False by done. lia.
Qed.

(** The deduction equals the total of what the increments added, so the
    invariant is preserved. *)
Lemma pick_ok p : wrr_ok p → wrr_ok (fst (pick p)).
Proof.
  intros Hok. destruct (decide (names p = [])) as [He|Hne].
  { unfold pick. by rewrite He. }
  destruct (pick_spec p Hok Hne)
    as (best & p' & Heq & Hb & Hn' & Hw' & Ht' & Hl' & Hpos & Hcur).
  rewrite Heq. simpl. pose proof Hok as [Hw Hc Hn Hws Ht Hs Hlo]. specialize (Hlo Hne).
  assert (current p' = alter (λ c, c - total p)%Z best
            (zip_with Z.add (current p) (weights p))) as Hz.
  { apply list_eq_total; [rewrite length_alter, length_zip_with; lia|].
    intros j Hj. rewrite Hcur, alter_lookup_total, lookup_total_zip
      by (rewrite ?length_zip_with; lia).
    repeat case_decide; subst; try done; lia. }
  constructor; rewrite ?Hn', ?Hw', ?Ht'; try lia; try done.
  - rewrite Hz. erewrite zsum_alter with (x := (current p !!! best + weights p !!! best)%Z).
    + rewrite zsum_zip_add by lia. lia.
    + by rewrite lookup_zip_with, !lookup_total_Some by lia.
  - intros _. apply Forall_lookup_2. intros j x Hx.
    pose proof (lookup_lt_Some _ _ _ Hx).
    rewrite <- (list_lookup_total_correct _ _ _ Hx), Hcur by lia.
    destruct (wrr_current_bounds p j (current p !!! j) Hok) as [Hj _].
    { apply lookup_total_Some. lia. }
    pose proof (wrr_weight_bounds p j Hok ltac:(lia)).
    case_decide; subst; lia.
Qed.

(** ** The picker a server starts with *)

Lemma normalizeWeight_bounds w : (1 ≤ normalizeWeight w ≤ maxWeight)%Z.
Proof.
  unfold normalizeWeight. change maxWeight with 1048576%Z.
  repeat case_bool_decide; lia.
Qed.

Lemma total_sum ws :
  Forall (λ w, 1 ≤ w ≤ maxWeight)%Z ws → (len ws ≤ maxQueues)%Z →
  foldl (λ t w, wrap64 (t + w)) 0%Z ws = zsum ws.
Proof.
  change maxWeight with 1048576%Z. change maxQueues with 1048576%Z.
  intros Hws Hl. cut (∀ t ws, Forall (λ w, 1 ≤ w ≤ 1048576)%Z ws →
    (0 ≤ t)%Z → (t + 1048576 * len ws ≤ 1048576 * 1048576)%Z →
    foldl (λ t w, wrap64 (t + w)) t ws = (t + zsum ws)%Z).
  { intros H. rewrite H; [lia|done|lia|lia]. }
  clear. intros t ws Hws. revert t. induction Hws as [|w ws Hw Hws IH]; intros t Ht Hb; simpl in *.
  - lia.
  - rewrite wrap64_id; [rewrite IH; lia|]. unfold in_int64, int64_min, int64_max. lia.
Qed.

Lemma newWRRPicker_names queues :
  names (newWRRPicker queues) ≡ₚ map fst (map_to_list queues).
Proof. apply merge_sort_Permutation. Qed.

Lemma newWRRPicker_NoDup queues : NoDup (names (newWRRPicker queues)).
Proof. rewrite newWRRPicker_names. apply NoDup_fst_map_to_list. Qed.

Lemma newWRRPicker_length queues :
  length (names (newWRRPicker queues)) = size queues.
Proof.
  rewrite newWRRPicker_names. rewrite length_map. apply length_map_to_list.
Qed.

Lemma newWRRPicker_ok queues :
  (Z.of_nat (size queues) ≤ maxQueues)%Z → wrr_ok (newWRRPicker queues).
Proof.
  intros Hsz. pose proof (newWRRPicker_length queues) as Hlen.
  unfold newWRRPicker in *. simpl in *.
  assert (Forall (λ w, 1 ≤ w ≤ maxWeight)%Z
    (map (λ q, normalizeWeight (queues !!! q)) (sortStrings (map fst (map_to_list queues)))))
    as Hws.
  { apply Forall_fmap, Forall_true. intros q. apply normalizeWeight_bounds. }
  constructor; simpl; try done.
  - by rewrite length_map.
  - by rewrite length_replicate.
  - by rewrite Hlen.
  - apply total_sum; [done|]. by rewrite length_map, Hlen.
  - apply zsum_replicate_0.
  - intros Hne. apply Forall_replicate.
    rewrite total_sum by (done || rewrite length_map, Hlen; done).
    destruct (sortStrings _); [done|]. simpl in *.
    inversion Hws as [|?? Hw Hws']; subst.
    assert (0 ≤ zsum (map (λ q, normalizeWeight (queues !!! q)) l))%Z; [|lia].
    apply zsum_nonneg. eapply Forall_impl; [done|]. simpl. lia.
Qed.

Lemma newWRRPicker_weight queues j :
  j < length (names (newWRRPicker queues)) →
  weights (newWRRPicker queues) !!! j
  = normalizeWeight (queues !!! (names (newWRRPicker queues) !!! j)).
Proof.
  intros Hj. apply list_lookup_total_correct. simpl in *.
  rewrite list_lookup_fmap, list_lookup_lookup_total_lt by done. done.
Qed.

(** ** A run of picks *)

Lemma picks_fields k p :
  wrr_ok p →
  names (fst (picks k p)) = names p ∧ weights (fst (picks k p)) = weights p ∧
  total (fst (picks k p)) = total p ∧ wrr_ok (fst (picks k p)).
Proof.
  revert p; induction k as [|k IH]; intros p Hok; [done|]. simpl.
  destruct (pick p) as [p1 q] eqn:Hp.
  assert (wrr_ok p1 ∧ names p1 = names p ∧ weights p1 = weights p ∧ total p1 = total p)
    as (Hok1 & Hn & Hw & Ht).
  { destruct (decide (names p = [])) as [He|Hne].
    { unfold pick in Hp. rewrite He in Hp. simplify_eq. by rewrite He. }
    destruct (pick_spec p Hok Hne) as (b & p' & Hp' & _ & ? & ? & ? & _).
    pose proof (pick_ok p Hok) as Hk. rewrite Hp' in Hp, Hk. by simplify_eq. }
  specialize (IH p1 Hok1). destruct (picks k p1) as [p2 qs]. simpl in *.
  naive_solver congruence.
Qed.

(** The counter of a queue records exactly what it is owed: the weights it
    accrued minus [total] for every time it was selected. *)
Lemma picks_current k p j :
  wrr_ok p → NoDup (names p) → j < length (names p) →
  current (fst (picks k p)) !!! j =
    (current p !!! j + Z.of_nat k * weights p !!! j
     - total p * count (names p !!! j) (snd (picks k p)))%Z.
Proof.
  revert p; induction k as [|k IH]; intros p Hok Hnd Hj; [simpl; lia|].
  destruct (pick_spec p Hok) as (b & p' & Hp & Hb & Hn & Hw & Ht & Hl & _ & Hcur).
  { intros He. rewrite He in Hj. simpl in Hj. lia. }
  pose proof (pick_ok p Hok) as Hok'. simpl. rewrite Hp in Hok' |- *. simpl in Hok'.
  specialize (IH p' Hok'). rewrite Hn, Hw, Ht in IH. specialize (IH Hnd Hj).
  destruct (picks k p') as [p2 qs]. simpl in *. rewrite IH, Hcur by done.
  destruct (decide (j = b)) as [->|Hne].
  - rewrite (decide_True _ _ eq_refl). lia.
  - rewrite (decide_False (P := names p !!! j = names p !!! b)); [lia|].
    intros Heq. apply Hne. eapply (NoDup_lookup _ j b); [done|..].
    + by apply list_lookup_lookup_total_lt.
    + rewrite Heq. by apply list_lookup_lookup_total_lt.
Qed.

(** A state whose counters are all zero is the initial state. *)
Lemma wrr_zero_state p queues :
  wrr_ok p → names p = names (newWRRPicker queues) →
  weights p = weights (newWRRPicker queues) →
  total p = total (newWRRPicker queues) →
  Forall (λ c, c = 0%Z) (current p) → p = newWRRPicker queues.
Proof.
  intros [_ Hc _ _ _ _ _] Hn Hw Ht Hz. destruct p as [ns ws cur t].
  unfold newWRRPicker in *. simpl in *. subst. f_equal.
  rewrite <- Hc. clear -Hz. induction Hz; simpl; congruence.
Qed.

(** The sum of the counters is zero and none is below or at [-total]: at the
    end of a cycle every counter is a multiple of [total], hence zero. *)
Lemma wrr_multiples_zero p :
  wrr_ok p → names p ≠ [] →
  (∀ j, j < length (names p) → ∃ m, current p !!! j = (total p * m)%Z) →
  Forall (λ c, c = 0%Z) (current p).
Proof.
  intros Hok Hne Hm. pose proof (wrr_total_bounds p Hok) as [Ht _].
  apply zsum_zero_all; [|apply (ok_sum p Hok)].
  apply Forall_lookup_2. intros j c Hj. pose proof (lookup_lt_Some _ _ _ Hj) as Hlt.
  destruct (wrr_current_bounds p j c Hok Hj) as [Hlo _].
  rewrite (ok_current_len p Hok) in Hlt.
  destruct (Hm j Hlt) as [m Hc]. rewrite (list_lookup_total_correct _ _ _ Hj) in Hc.
  pose proof (wrr_total_pos p Hok Hne).
  subst c. assert (0 ≤ m)%Z by nia. simpl. nia.
Qed.

(** C40: over a cycle of [total] picks every configured queue is selected
    exactly as often as its normalised weight says, and the picker is back in
    its initial state, so the pattern repeats for ever: no queue starves. *)
Theorem wrr_cycle queues :
  queues ≠ ∅ → (Z.of_nat (size queues) ≤ maxQueues)%Z →
  let p := newWRRPicker queues in
  let run := picks (Z.to_nat (total p)) p in
  fst run = p ∧
  ∀ q w, queues !! q = Some w → count q (snd run) = normalizeWeight w.
Proof.
  intros Hne Hsz p run. pose proof (newWRRPicker_ok queues Hsz) as Hok. fold p in Hok.
  pose proof (newWRRPicker_NoDup queues) as Hnd. fold p in Hnd.
  assert (names p ≠ []) as Hnames.
  { intros He. pose proof (newWRRPicker_length queues) as Hl. fold p in Hl.
    rewrite He in Hl. symmetry in Hl. by apply map_size_empty_iff in Hl. }
  destruct (picks_fields (Z.to_nat (total p)) p Hok) as (Hn & Hw & Ht & Hok').
  fold run in Hn, Hw, Ht, Hok'.
  pose proof (wrr_total_bounds p Hok) as [Htb _].
  assert (∀ j, j < length (names p) → current (fst run) !!! j =
    (total p * (weights p !!! j - count (names p !!! j) (snd run)))%Z) as Hcur.
  { intros j Hj. unfold run. rewrite picks_current by done.
    assert (current p !!! j = 0%Z) as ->.
    { by apply list_lookup_total_correct, lookup_replicate_2. }
    rewrite Z2Nat.id by lia. lia. }
  assert (Forall (λ c, c = 0%Z) (current (fst run))) as Hzero.
  { apply wrr_multiples_zero; [done|by rewrite Hn|].
    intros j Hj. rewrite Hn in Hj. rewrite Ht, Hcur by done. by eexists. }
  split; [by apply wrr_zero_state|].
  intros q w Hq.
  assert (q ∈ names p) as Hin.
  { unfold p. rewrite newWRRPicker_names. apply list_elem_of_fmap.
    exists (q, w). split; [done|]. by apply elem_of_map_to_list. }
  apply list_elem_of_lookup in Hin as [j Hj].
  pose proof (lookup_lt_Some _ _ _ Hj) as Hjl. specialize (Hcur j Hjl).
  rewrite (Forall_lookup_1 _ _ j _ Hzero) in Hcur.
  2:{ apply lookup_total_Some. by rewrite (ok_current_len _ Hok'), Hn. }
  pose proof (newWRRPicker_weight queues j Hjl) as Hwt. fold p in Hwt. rewrite Hwt in Hcur.
  rewrite (list_lookup_total_correct _ _ _ Hj) in Hcur.
  rewrite (lookup_total_correct _ _ _ Hq) in Hcur.
  pose proof (wrr_total_pos p Hok Hnames).
  symmetry in Hcur. apply Z.mul_eq_0 in Hcur. lia.
Qed.

Lemma wrr_cycle_witness :
  let p := newWRRPicker {["a" := 5%Z; "b" := 1%Z]} in
  fst (picks (Z.to_nat (total p)) p) = p ∧
  ∀ q w, ({["a" := 5%Z; "b" := 1%Z]} : gmap string Z) !! q = Some w →
    count q (snd (picks (Z.to_nat (total p)) p)) = normalizeWeight w.
Proof. apply (wrr_cycle {["a" := 5%Z; "b" := 1%Z]}); vm_compute; done. Defined.

(** Whatever the number of picks, every counter stays strictly above
    [-total] and at most [total * (queues - 1)], and inside the range of a
    64-bit [int], so the picker's arithmetic never wraps. *)
Lemma wrr_no_overflow queues k i c :
  (Z.of_nat (size queues) ≤ maxQueues)%Z →
  current (fst (picks k (newWRRPicker queues))) !! i = Some c →
  (- total (newWRRPicker queues) < c
     ≤ total (newWRRPicker queues) * (Z.of_nat (size queues) - 1))%Z ∧
  in_int64 c.
Proof.
  intros Hsz Hi. pose proof (newWRRPicker_ok queues Hsz) as Hok.
  destruct (picks_fields k _ Hok) as (Hn & Hw & Ht & Hok').
  pose proof (wrr_current_bounds _ _ _ Hok' Hi) as Hb.
  rewrite Ht, Hn, newWRRPicker_length in Hb. split; [done|].
  assert (names (newWRRPicker queues) ≠ []) as Hne.
  { intros He. apply lookup_lt_Some in Hi. rewrite (ok_current_len _ Hok'), Hn, He in Hi.
    simpl in Hi. lia. }
  replace c with (c + 0)%Z by lia.
  apply (wrr_int64 (newWRRPicker queues)); [done|done| |].
  - rewrite newWRRPicker_length.
    pose proof (wrr_total_bounds _ Hok) as [Hb' _]. rewrite newWRRPicker_length in Hb'.
    destruct (decide (size queues = 0)) as [E|]; [|nia].
    rewrite <- newWRRPicker_length in E. by apply nil_length_inv in E.
  - change maxWeight with 1048576%Z. change maxQueues with 1048576%Z. lia.
Qed.

Lemma wrr_no_overflow_witness :
  let qs : gmap string Z := {["a" := 5%Z; "b" := 1%Z]} in
  (- total (newWRRPicker qs) < 2
     ≤ total (newWRRPicker qs) * (Z.of_nat (size qs) - 1))%Z ∧ in_int64 2.
Proof.
  apply (wrr_no_overflow {["a" := 5%Z; "b" := 1%Z]} 2 1 2); vm_compute; done.
Defined.

(** The counters are not bounded by [total] in magnitude: with weights
    1, 1, 1, 5, 5, 5 (total 18) the eleventh pick leaves a counter at 19. *)
Theorem wrr_counter_exceeds_total :
  let p := newWRRPicker {["a" := 1%Z; "b" := 1%Z; "c" := 1%Z;
                          "d" := 5%Z; "e" := 5%Z; "f" := 5%Z]} in
  total p = 18%Z ∧ current (fst (picks 11 p)) !! 5 = Some 19%Z.
Proof. by vm_compute. Qed.

End Wrr.
