(* ===== verification/Base.v ===== *)
(** * Package [internal/base]: key layout, prefix validation, task messages

    [Prefix] models [prefix.go], [Keys] models [keys.go], [Task] models
    [task.go] and [unique.go].  JSON marshalling of a message is the
    interface [Json] (the standard library's [encoding/json] together with
    the [cjson] library of the Redis server, which the group script uses to
    patch a message): a codec that returns what was encoded. *)

From S2P Require Import Prelude GoLib.
From Stdlib Require Import Ascii.

(** ** [prefix.go] *)
Module Prefix.
Import GoStr Utf8.

Definition DefaultPrefix : string := "chronos".

(** The reasons [NormalizePrefix] panics. *)
Inductive prefix_panic :=
  | PrefixEmpty | PrefixBraces | PrefixGlob | PrefixSpace.

Definition isBrace (r : Z) : bool := bool_decide (r = 123 ∨ r = 125)%Z.
Definition isGlob (r : Z) : bool := bool_decide (r = 42 ∨ r = 63 ∨ r = 91 ∨ r = 93)%Z.

(** The [range] loop over the runes: the first offending one panics. *)
Fixpoint checkRunes (l : list Z) : option prefix_panic :=
  match l with
  | [] => None
  | r :: l =>
    if isBrace r then Some PrefixBraces
    else if isGlob r then Some PrefixGlob
    else if IsSpace r || IsControl r then Some PrefixSpace
    else checkRunes l
  end.

Definition NormalizePrefix (prefix : string) : string + prefix_panic :=
  let p := trim ":" prefix in
  if decide (p = "") then inr PrefixEmpty
  else match checkRunes (runes p) with
       | Some e => inr e
       | None => inl p
       end.

Lemma checkRunes_None l r :
  checkRunes l = None → r ∈ l →
  isBrace r = false ∧ isGlob r = false ∧ IsSpace r = false ∧ IsControl r = false.
Proof.
  induction l as [|x l IH]; intros Hc Hr; [by apply not_elem_of_nil in Hr|].
  simpl in Hc.
  destruct (isBrace x) eqn:?, (isGlob x) eqn:?, (IsSpace x) eqn:?, (IsControl x) eqn:?;
    try done; apply elem_of_cons in Hr as [->|Hr]; auto.
Qed.

(** An ASCII byte of a string is always a rune of it: it can be neither part
    of nor swallowed by a multi-byte sequence. *)
Lemma ascii_is_rune b l :
  (b < 128)%Z → b ∈ l → Some b ∈ decode_runes l.
Proof.
  intros Hb. induction l as [l IH] using (induction_ltof1 _ length). unfold ltof in IH.
  intros Hin. destruct l as [|b0 l1]; [by apply not_elem_of_nil in Hin|].
  assert (∀ l', length l' < length (b0 :: l1) → b ∈ l' → Some b ∈ decode_runes l') as IH'
    by (intros; by apply IH).
  clear IH. simpl. case_bool_decide as H0.
  { apply elem_of_cons in Hin as [->|Hin]; [left|right]. apply IH'; [simpl; lia|done]. }
  apply elem_of_cons in Hin as [->|Hin]; [lia|].
  assert (Some b ∈ None :: decode_runes l1) as Hskip by (right; apply IH'; [simpl; lia|done]).
  destruct l1 as [|b1 l2]; [by apply not_elem_of_nil in Hin|].
  destruct (bool_decide (194 ≤ b0 ≤ 223)%Z && cont b1) eqn:E1.
  { apply andb_true_iff in E1 as [_ E1]. unfold cont in E1. apply bool_decide_eq_true in E1.
    apply elem_of_cons in Hin as [->|Hin]; [lia|]. right. apply IH'; [simpl; lia|done]. }
  destruct l2 as [|b2 l3]; [done|].
  match goal with |- context [if ?c then _ else _] => destruct c eqn:E2 end.
  { repeat (apply andb_true_iff in E2 as [E2 ?]). unfold cont in *.
    repeat match goal with H : bool_decide _ = true |- _ => apply bool_decide_eq_true in H end.
    repeat (apply elem_of_cons in Hin as [->|Hin]; [lia|]). right. apply IH'; [simpl; lia|done]. }
  destruct l3 as [|b3 l4]; [done|].
  match goal with |- context [if ?c then _ else _] => destruct c eqn:E3 end; [|done].
  repeat (apply andb_true_iff in E3 as [E3 ?]). unfold cont in *.
  repeat match goal with H : bool_decide _ = true |- _ => apply bool_decide_eq_true in H end.
  repeat (apply elem_of_cons in Hin as [->|Hin]; [lia|]). right. apply IH'; [simpl; lia|done].
Qed.

(** A character of an accepted prefix is neither a brace, nor a glob
    metacharacter, nor ASCII white space or control. *)
Definition clean_char (c : ascii) : Prop :=
  isBrace (code c) = false ∧ isGlob (code c) = false ∧
  ((code c < 128)%Z → IsSpace (code c) = false ∧ IsControl (code c) = false).

Lemma NormalizePrefix_chars s p :
  NormalizePrefix s = inl p → ∀ c, c ∈ chars p → clean_char c.
Proof.
  unfold NormalizePrefix. intros H c Hc. case_decide; [done|].
  destruct (checkRunes _) eqn:Hck; [done|]. injection H as <-.
  destruct (decide (code c < 128)%Z) as [Hlt|Hge].
  - destruct (checkRunes_None _ (code c) Hck) as (? & ? & ? & ?); [|done].
    unfold runes. apply list_elem_of_fmap. exists (Some (code c)). split; [done|].
    apply ascii_is_rune; [done|]. apply list_elem_of_fmap. by exists c.
  - unfold clean_char, isBrace, isGlob. rewrite !bool_decide_false by lia. done.
Qed.

Lemma NormalizePrefix_no_brace s p :
  NormalizePrefix s = inl p → "{"%char ∉ chars p ∧ "}"%char ∉ chars p.
Proof.
  intros H. split; intros Hin; by destruct (NormalizePrefix_chars s p H _ Hin) as [? _].
Qed.

(** An accepted prefix is not empty, has no colon at either end, holds no
    brace, no glob metacharacter and no ASCII white space or control
    character, and normalising it again changes nothing. *)
Lemma NormalizePrefix_sound s p :
  NormalizePrefix s = inl p →
  p ≠ "" ∧ head (chars p) ≠ Some ":"%char ∧ last (chars p) ≠ Some ":"%char ∧
  (∀ c, c ∈ chars p → clean_char c) ∧ NormalizePrefix p = inl p.
Proof.
  intros H. pose proof (NormalizePrefix_chars s p H) as Hc.
  unfold NormalizePrefix in *. case_decide as He; [done|].
  destruct (checkRunes _) eqn:Hck; [done|]. injection H as <-.
  destruct (trim_ends ":" s). rewrite trim_idemp, Hck.
  by rewrite decide_False.
Qed.

Lemma NormalizePrefix_sound_witness :
  "my:app" ≠ "" ∧ head (chars "my:app") ≠ Some ":"%char ∧
  last (chars "my:app") ≠ Some ":"%char ∧
  (∀ c, c ∈ chars "my:app" → clean_char c) ∧ NormalizePrefix "my:app" = inl "my:app".
Proof. by apply (NormalizePrefix_sound "::my:app:"). Defined.

End Prefix.

(** ** [keys.go] *)
Module Keys.
Import GoStr Prefix.

Record Keys := MkKeys { prefix : string }.

#[global] Instance Keys_eq_dec : EqDecision Keys.
Proof. solve_decision. Defined.

Definition NewKeys (s : string) : Keys + prefix_panic :=
  match NormalizePrefix s with
  | inl p => inl (MkKeys p)
  | inr e => inr e
  end.

Definition DefaultKeys : Keys := MkKeys DefaultPrefix.

Section builders.
Context (k : Keys).

Definition QueueKeyPrefix (qname : string) : string :=
    prefix k +:+ ":{" +:+ qname +:+ "}:".
Definition StreamKey (qname : string) : string := QueueKeyPrefix qname +:+ "stream".
Definition TaskKey (qname id : string) : string := QueueKeyPrefix qname +:+ "t:" +:+ id.
Definition QueuesKey : string := prefix k +:+ ":queues".
Definition PausedKey : string := prefix k +:+ ":paused".
Definition SchedulesKey : string := prefix k +:+ ":schedules".
Definition TaskKeyPrefix (qname : string) : string := QueueKeyPrefix qname +:+ "t:".
Definition RetryKey (qname : string) : string := QueueKeyPrefix qname +:+ "retry".
Definition ArchivedKey (qname : string) : string := QueueKeyPrefix qname +:+ "archived".
Definition CompletedKey (qname : string) : string := QueueKeyPrefix qname +:+ "completed".
Definition GroupKey (cbQueue groupID : string) : string :=
    QueueKeyPrefix cbQueue +:+ "group:" +:+ groupID.
Definition GroupResultKey (cbQueue groupID : string) : string :=
    QueueKeyPrefix cbQueue +:+ "groupresult:" +:+ groupID.
Definition ScheduledKey (qname : string) : string := QueueKeyPrefix qname +:+ "scheduled".
Definition UniqueKey (qname suffix : string) : string :=
    QueueKeyPrefix qname +:+ "unique:" +:+ suffix.
Definition LeaderKey : string := prefix k +:+ ":leader".
Definition LeaderResignChannel : string := prefix k +:+ ":leader:resign".
Definition PeriodicDedupKey (qname id : string) : string :=
    QueueKeyPrefix qname +:+ "pdedup:" +:+ id.
Definition ScheduleLastFiredKey (scheduleID : string) : string :=
    prefix k +:+ ":sched:" +:+ scheduleID +:+ ":last".
End builders.

(** A task key built by a Lua script from the prefix it is passed is the
    task key Go builds. *)
Lemma TaskKey_concat k q id : TaskKeyPrefix k q +:+ id = TaskKey k q id.
Proof. unfold TaskKeyPrefix, TaskKey. by rewrite !string_app_assoc. Qed.

(** *** The keys of a queue as data *)

Inductive queue_key :=
  | KStream | KRetry | KArchived | KCompleted | KScheduled
  | KTask (id : string) | KGroup (g : string) | KGroupResult (g : string)
  | KUnique (suffix : string) | KPeriodic (id : string).

Definition key_suffix (x : queue_key) : string :=
  match x with
  | KStream => "stream" | KRetry => "retry" | KArchived => "archived"
  | KCompleted => "completed" | KScheduled => "scheduled"
  | KTask id => "t:" +:+ id
  | KGroup g => "group:" +:+ g
  | KGroupResult g => "groupresult:" +:+ g
  | KUnique s => "unique:" +:+ s
  | KPeriodic id => "pdedup:" +:+ id
  end.

Definition queueKey (k : Keys) (q : string) (x : queue_key) : string :=
  match x with
  | KStream => StreamKey k q | KRetry => RetryKey k q
  | KArchived => ArchivedKey k q | KCompleted => CompletedKey k q
  | KScheduled => ScheduledKey k q
  | KTask id => TaskKey k q id
  | KGroup g => GroupKey k q g | KGroupResult g => GroupResultKey k q g
  | KUnique s => UniqueKey k q s | KPeriodic id => PeriodicDedupKey k q id
  end.

Lemma queueKey_suffix k q x :
  queueKey k q x = QueueKeyPrefix k q +:+ key_suffix x.
Proof. by destruct x. Qed.

Lemma key_suffix_inj x y : key_suffix x = key_suffix y → x = y.
Proof. destruct x, y; simpl; intros H; try discriminate; by simplify_eq. Qed.

Lemma queueKey_inj k q x y : queueKey k q x = queueKey k q y → x = y.
Proof.
  rewrite !queueKey_suffix. intros H. by apply (inj _), key_suffix_inj in H.
Qed.

Lemma TaskKey_inj k q T T' : TaskKey k q T = TaskKey k q T' → T = T'.
Proof. intros E. by apply (queueKey_inj k q (KTask T) (KTask T')) in E as [= ->]. Qed.

(** [strings.Cut] on characters. *)
Fixpoint cut (c : ascii) (l : list ascii) : option (list ascii * list ascii) :=
  match l with
  | [] => None
  | x :: l => if decide (x = c) then Some ([], l)
              else (λ p, (x :: p.1, p.2)) <$> cut c l
  end.

Lemma cut_app c l1 l2 : c ∉ l1 → cut c (l1 ++ c :: l2) = Some (l1, l2).
Proof.
  induction l1 as [|x l1 IH]; intros H; simpl.
  - by rewrite decide_True.
  - apply not_elem_of_cons in H as [Hx Hl]. rewrite decide_False by congruence.
    by rewrite IH.
Qed.

(** The hash tag rule of Redis Cluster: the text between the first opening
    brace and the first closing brace after it, when there is any. *)
Definition hash_tag (key : string) : option string :=
  match cut "{" (chars key) with
  | Some (_, l) =>
    match cut "}" l with
    | Some ((_ :: _) as t, _) => Some (ofChars t)
    | _ => None
    end
  | None => None
  end.

(** The slot of a key: [crc16] of the tag, or of the whole key without one. *)
Definition key_slot (crc16 : string → Z) (key : string) : Z :=
  (crc16 (default key (hash_tag key)) `mod` 16384)%Z.

(** The part of a queue name that reaches the hash tag. *)
Definition tag_of_queue (q : string) : list ascii :=
  match cut "}" (chars q) with Some (t, _) => t | None => chars q end.

Lemma cut_tag_of_queue q rest :
  ∃ l, cut "}" (chars q ++ "}"%char :: rest) = Some (tag_of_queue q, l).
Proof.
  unfold tag_of_queue. induction (chars q) as [|x l IH]; simpl; [by eexists|].
  case_decide as E; [by eexists|].
  destruct IH as [l' ->]. destruct (cut _ l) as [[??]|]; simpl; by eexists.
Qed.

Lemma QueueKeyPrefix_chars k q s :
  chars (QueueKeyPrefix k q +:+ s)
  = (chars (prefix k) ++ [":"%char]) ++ "{"%char :: chars q ++ "}"%char :: ":"%char :: chars s.
Proof.
  unfold QueueKeyPrefix. rewrite !chars_app. simpl.
  rewrite <- !app_assoc. simpl. by rewrite <- !app_assoc.
Qed.

(** What the key builders rely on: the prefix came out of
    [NormalizePrefix]. *)
Definition valid_keys (k : Keys) : Prop := ∃ s, NewKeys s = inl k.

Lemma valid_keys_no_brace k :
  valid_keys k → "{"%char ∉ chars (prefix k) ∧ "}"%char ∉ chars (prefix k).
Proof.
  intros [s Hs]. unfold NewKeys in Hs. destruct (NormalizePrefix s) as [p|] eqn:E; [|done].
  injection Hs as <-. by eapply NormalizePrefix_no_brace.
Qed.

Lemma prefix_colon_no_brace k : valid_keys k → "{"%char ∉ chars (prefix k) ++ [":"%char].
Proof.
  intros Hk. pose proof (valid_keys_no_brace k Hk) as [Hp _].
  rewrite elem_of_app, list_elem_of_singleton. naive_solver.
Qed.

Lemma hash_tag_queueKey k q x :
  valid_keys k → tag_of_queue q ≠ [] →
  hash_tag (queueKey k q x) = Some (ofChars (tag_of_queue q)).
Proof.
  intros Hk Hq. rewrite queueKey_suffix. unfold hash_tag.
  rewrite QueueKeyPrefix_chars, cut_app by (by apply prefix_colon_no_brace).
  destruct (cut_tag_of_queue q (":"%char :: chars (key_suffix x))) as [l ->].
  destruct (tag_of_queue q) as [|c t]; [congruence|done].
Qed.

(** Brace-free queue names are recovered from a key. *)
Definition brace_free (q : string) : Prop := "}"%char ∉ chars q.

#[global] Instance brace_free_dec q : Decision (brace_free q).
Proof. unfold brace_free. apply _. Defined.

Lemma QueueKeyPrefix_inj k k' q q' a b :
  valid_keys k → valid_keys k' → brace_free q → brace_free q' →
  QueueKeyPrefix k q +:+ a = QueueKeyPrefix k' q' +:+ b →
  k = k' ∧ q = q' ∧ a = b.
Proof.
  intros Hk Hk' Hq Hq' H. apply (f_equal chars) in H.
  rewrite !QueueKeyPrefix_chars in H. apply (f_equal (cut "{")) in H.
  rewrite !cut_app in H by (by apply prefix_colon_no_brace).
  injection H as Hp H. apply app_inj_tail in Hp as [Hp _]. apply chars_inj in Hp.
  apply (f_equal (cut "}")) in H. rewrite !cut_app in H by done.
  injection H as Hqq Hab. apply chars_inj in Hqq, Hab.
  destruct k, k'. simpl in *. by subst.
Qed.

Lemma queueKey_iff k k' q q' x y :
  valid_keys k → valid_keys k' → brace_free q → brace_free q' →
  queueKey k q x = queueKey k' q' y ↔ k = k' ∧ q = q' ∧ x = y.
Proof.
  intros Hk Hk' Hq Hq'. split; [|by intros (-> & -> & ->)].
  rewrite !queueKey_suffix. intros H.
  apply QueueKeyPrefix_inj in H as (-> & -> & H); [|done..].
  by apply key_suffix_inj in H.
Qed.

(** The keys without a hash tag are no queue's. *)
Lemma queueKey_not_global k q x s :
  valid_keys k → hd_error (chars s) ≠ Some "{"%char → queueKey k q x ≠ prefix k +:+ ":" +:+ s.
Proof.
  intros Hk Hs H. apply (f_equal chars) in H.
  rewrite queueKey_suffix, QueueKeyPrefix_chars, !chars_app in H. simpl in H.
  rewrite <- app_assoc in H. apply app_inv_head in H. injection H as H.
  rewrite <- H in Hs. done.
Qed.

(** Every key of a queue (stream, state ZSETs, task hashes, group keys,
    locks) hashes to the same cluster slot, whatever the namespace prefix,
    as long as the queue name is not empty and does not start with a closing
    brace, so the multi-key scripts are never cross-slot. *)
Lemma queue_keys_same_slot (crc16 : string → Z) k q x y :
  valid_keys k → tag_of_queue q ≠ [] →
  key_slot crc16 (queueKey k q x) = key_slot crc16 (queueKey k q y).
Proof. intros Hk Hq. unfold key_slot. by rewrite !hash_tag_queueKey. Qed.

Lemma queue_keys_same_slot_witness :
  key_slot (λ s, Z.of_nat (String.length s)) (queueKey DefaultKeys "mail" (KTask "42"))
  = key_slot (λ s, Z.of_nat (String.length s)) (queueKey DefaultKeys "mail" KStream).
Proof. apply queue_keys_same_slot; [by exists "chronos"|done]. Defined.

(** Two keys of queues agree only when the namespace, the queue and the
    kind of key (with its id) all agree: namespaces with different prefixes
    never share a queue key, and a key is never used for two purposes.  The
    queue names must not contain a closing brace. *)
Theorem queue_keys_isolated k k' q q' x y :
  valid_keys k → valid_keys k' → brace_free q → brace_free q' →
  queueKey k q x = queueKey k' q' y ↔ k = k' ∧ q = q' ∧ x = y.
Proof.
  apply queueKey_iff.
Qed.

Lemma queue_keys_isolated_witness :
  queueKey (MkKeys "app") "q" KRetry = queueKey (MkKeys "web") "q" KRetry ↔
  MkKeys "app" = MkKeys "web" ∧ "q" = "q" ∧ KRetry = KRetry.
Proof.
  apply queue_keys_isolated; [by exists "app"|by exists "web"| |];
    by apply (bool_decide_unpack (brace_free "q")).
Defined.

(** The last-fired keys of two valid namespaces can coincide when one
    prefix extends the other by [":sched:"]: a schedule of the namespace
    ["app:sched:x"] and a schedule of ["app"] share their key. *)
Theorem schedule_keys_collide :
  valid_keys (MkKeys "app") ∧ valid_keys (MkKeys "app:sched:x") ∧
  ∀ id, ScheduleLastFiredKey (MkKeys "app") ("x:sched:" +:+ id)
        = ScheduleLastFiredKey (MkKeys "app:sched:x") id.
Proof. split_and!; [by exists "app"|by exists "app:sched:x"|done]. Qed.

End Keys.

(** ** [task.go] and [unique.go] *)
Module Task.
Import GoStr Utf8.

(** *** Task states *)

(** [TaskState] is an integer: a decoded message may hold any value. *)
Definition StatePending : Z := 1.
Definition StateActive : Z := 2.
Definition StateCompleted : Z := 3.
Definition StateRetry : Z := 4.
Definition StateArchived : Z := 5.
Definition StateScheduled : Z := 6.

Definition StateString (s : Z) : string :=
  if decide (s = StatePending) then "pending"
  else if decide (s = StateActive) then "active"
  else if decide (s = StateCompleted) then "completed"
  else if decide (s = StateRetry) then "retry"
  else if decide (s = StateArchived) then "archived"
  else if decide (s = StateScheduled) then "scheduled"
  else "unknown".

(** *** Messages *)

Record GroupMemberLink := MkGroupMemberLink {
  gm_Kind : string;
  gm_Payload : bytes;
  gm_Queue : string;
  gm_MaxRetry : Z;
  gm_Retention : Z;
  gm_Delay : Z;
}.

Record ChainLink := MkChainLink {
  cl_Kind : string;
  cl_Payload : bytes;
  cl_Queue : string;
  cl_MaxRetry : Z;
  cl_NoArchive : bool;
  cl_Retention : Z;
  cl_Delay : Z;
  cl_Group : list GroupMemberLink;
}.

Record TaskMessage := MkTaskMessage {
  m_ID : string;
  m_Kind : string;
  m_Payload : bytes;
  m_Queue : string;
  m_State : Z;
  m_Retried : Z;
  m_MaxRetry : Z;
  m_NoArchive : bool;
  m_UniqueKey : string;
  m_LastErr : string;
  m_Retention : Z;
  m_CompletedAt : Z;
  m_Chain : list ChainLink;
  m_ChainID : string;
  m_ChainIndex : Z;
  m_GroupID : string;
  m_GroupQueue : string;
  m_GroupCallback : option ChainLink;
  m_Result : bytes;
  m_PrevResult : bytes;
  m_GroupResults : list bytes;
  m_GroupIndex : Z;
  m_GroupSize : Z;
  m_GroupMemberID : string;
  m_GroupCallbackChain : list ChainLink;
}.

Definition with_State (v : Z) (m : TaskMessage) : TaskMessage :=
  MkTaskMessage (m_ID m) (m_Kind m) (m_Payload m) (m_Queue m) v (m_Retried m)
    (m_MaxRetry m) (m_NoArchive m) (m_UniqueKey m) (m_LastErr m) (m_Retention m)
    (m_CompletedAt m) (m_Chain m) (m_ChainID m) (m_ChainIndex m) (m_GroupID m)
    (m_GroupQueue m) (m_GroupCallback m) (m_Result m) (m_PrevResult m)
    (m_GroupResults m) (m_GroupIndex m) (m_GroupSize m) (m_GroupMemberID m)
    (m_GroupCallbackChain m).

Definition with_Retried (v : Z) (m : TaskMessage) : TaskMessage :=
  MkTaskMessage (m_ID m) (m_Kind m) (m_Payload m) (m_Queue m) (m_State m) v
    (m_MaxRetry m) (m_NoArchive m) (m_UniqueKey m) (m_LastErr m) (m_Retention m)
    (m_CompletedAt m) (m_Chain m) (m_ChainID m) (m_ChainIndex m) (m_GroupID m)
    (m_GroupQueue m) (m_GroupCallback m) (m_Result m) (m_PrevResult m)
    (m_GroupResults m) (m_GroupIndex m) (m_GroupSize m) (m_GroupMemberID m)
    (m_GroupCallbackChain m).

Definition with_LastErr (v : string) (m : TaskMessage) : TaskMessage :=
  MkTaskMessage (m_ID m) (m_Kind m) (m_Payload m) (m_Queue m) (m_State m)
    (m_Retried m) (m_MaxRetry m) (m_NoArchive m) (m_UniqueKey m) v (m_Retention m)
    (m_CompletedAt m) (m_Chain m) (m_ChainID m) (m_ChainIndex m) (m_GroupID m)
    (m_GroupQueue m) (m_GroupCallback m) (m_Result m) (m_PrevResult m)
    (m_GroupResults m) (m_GroupIndex m) (m_GroupSize m) (m_GroupMemberID m)
    (m_GroupCallbackChain m).

Definition with_CompletedAt (v : Z) (m : TaskMessage) : TaskMessage :=
  MkTaskMessage (m_ID m) (m_Kind m) (m_Payload m) (m_Queue m) (m_State m)
    (m_Retried m) (m_MaxRetry m) (m_NoArchive m) (m_UniqueKey m) (m_LastErr m)
    (m_Retention m) v (m_Chain m) (m_ChainID m) (m_ChainIndex m) (m_GroupID m)
    (m_GroupQueue m) (m_GroupCallback m) (m_Result m) (m_PrevResult m)
    (m_GroupResults m) (m_GroupIndex m) (m_GroupSize m) (m_GroupMemberID m)
    (m_GroupCallbackChain m).

Definition with_Retention (v : Z) (m : TaskMessage) : TaskMessage :=
  MkTaskMessage (m_ID m) (m_Kind m) (m_Payload m) (m_Queue m) (m_State m)
    (m_Retried m) (m_MaxRetry m) (m_NoArchive m) (m_UniqueKey m) (m_LastErr m) v
    (m_CompletedAt m) (m_Chain m) (m_ChainID m) (m_ChainIndex m) (m_GroupID m)
    (m_GroupQueue m) (m_GroupCallback m) (m_Result m) (m_PrevResult m)
    (m_GroupResults m) (m_GroupIndex m) (m_GroupSize m) (m_GroupMemberID m)
    (m_GroupCallbackChain m).

Definition with_UniqueKey (v : string) (m : TaskMessage) : TaskMessage :=
  MkTaskMessage (m_ID m) (m_Kind m) (m_Payload m) (m_Queue m) (m_State m)
    (m_Retried m) (m_MaxRetry m) (m_NoArchive m) v (m_LastErr m) (m_Retention m)
    (m_CompletedAt m) (m_Chain m) (m_ChainID m) (m_ChainIndex m) (m_GroupID m)
    (m_GroupQueue m) (m_GroupCallback m) (m_Result m) (m_PrevResult m)
    (m_GroupResults m) (m_GroupIndex m) (m_GroupSize m) (m_GroupMemberID m)
    (m_GroupCallbackChain m).

Definition with_Chain (v : list ChainLink) (m : TaskMessage) : TaskMessage :=
  MkTaskMessage (m_ID m) (m_Kind m) (m_Payload m) (m_Queue m) (m_State m)
    (m_Retried m) (m_MaxRetry m) (m_NoArchive m) (m_UniqueKey m) (m_LastErr m)
    (m_Retention m) (m_CompletedAt m) v (m_ChainID m) (m_ChainIndex m) (m_GroupID m)
    (m_GroupQueue m) (m_GroupCallback m) (m_Result m) (m_PrevResult m)
    (m_GroupResults m) (m_GroupIndex m) (m_GroupSize m) (m_GroupMemberID m)
    (m_GroupCallbackChain m).

Definition with_ChainID (v : string) (m : TaskMessage) : TaskMessage :=
  MkTaskMessage (m_ID m) (m_Kind m) (m_Payload m) (m_Queue m) (m_State m)
    (m_Retried m) (m_MaxRetry m) (m_NoArchive m) (m_UniqueKey m) (m_LastErr m)
    (m_Retention m) (m_CompletedAt m) (m_Chain m) v (m_ChainIndex m) (m_GroupID m)
    (m_GroupQueue m) (m_GroupCallback m) (m_Result m) (m_PrevResult m)
    (m_GroupResults m) (m_GroupIndex m) (m_GroupSize m) (m_GroupMemberID m)
    (m_GroupCallbackChain m).

Definition with_ChainIndex (v : Z) (m : TaskMessage) : TaskMessage :=
  MkTaskMessage (m_ID m) (m_Kind m) (m_Payload m) (m_Queue m) (m_State m)
    (m_Retried m) (m_MaxRetry m) (m_NoArchive m) (m_UniqueKey m) (m_LastErr m)
    (m_Retention m) (m_CompletedAt m) (m_Chain m) (m_ChainID m) v (m_GroupID m)
    (m_GroupQueue m) (m_GroupCallback m) (m_Result m) (m_PrevResult m)
    (m_GroupResults m) (m_GroupIndex m) (m_GroupSize m) (m_GroupMemberID m)
    (m_GroupCallbackChain m).

Definition with_Result (v : bytes) (m : TaskMessage) : TaskMessage :=
  MkTaskMessage (m_ID m) (m_Kind m) (m_Payload m) (m_Queue m) (m_State m)
    (m_Retried m) (m_MaxRetry m) (m_NoArchive m) (m_UniqueKey m) (m_LastErr m)
    (m_Retention m) (m_CompletedAt m) (m_Chain m) (m_ChainID m) (m_ChainIndex m)
    (m_GroupID m) (m_GroupQueue m) (m_GroupCallback m) v (m_PrevResult m)
    (m_GroupResults m) (m_GroupIndex m) (m_GroupSize m) (m_GroupMemberID m)
    (m_GroupCallbackChain m).

Definition with_GroupResults (v : list bytes) (m : TaskMessage) : TaskMessage :=
  MkTaskMessage (m_ID m) (m_Kind m) (m_Payload m) (m_Queue m) (m_State m)
    (m_Retried m) (m_MaxRetry m) (m_NoArchive m) (m_UniqueKey m) (m_LastErr m)
    (m_Retention m) (m_CompletedAt m) (m_Chain m) (m_ChainID m) (m_ChainIndex m)
    (m_GroupID m) (m_GroupQueue m) (m_GroupCallback m) (m_Result m) (m_PrevResult m) v
    (m_GroupIndex m) (m_GroupSize m) (m_GroupMemberID m) (m_GroupCallbackChain m).

Definition with_GroupID (v : string) (m : TaskMessage) : TaskMessage :=
  MkTaskMessage (m_ID m) (m_Kind m) (m_Payload m) (m_Queue m) (m_State m)
    (m_Retried m) (m_MaxRetry m) (m_NoArchive m) (m_UniqueKey m) (m_LastErr m)
    (m_Retention m) (m_CompletedAt m) (m_Chain m) (m_ChainID m) (m_ChainIndex m) v
    (m_GroupQueue m) (m_GroupCallback m) (m_Result m) (m_PrevResult m)
    (m_GroupResults m) (m_GroupIndex m) (m_GroupSize m) (m_GroupMemberID m)
    (m_GroupCallbackChain m).

Definition with_GroupQueue (v : string) (m : TaskMessage) : TaskMessage :=
  MkTaskMessage (m_ID m) (m_Kind m) (m_Payload m) (m_Queue m) (m_State m)
    (m_Retried m) (m_MaxRetry m) (m_NoArchive m) (m_UniqueKey m) (m_LastErr m)
    (m_Retention m) (m_CompletedAt m) (m_Chain m) (m_ChainID m) (m_ChainIndex m)
    (m_GroupID m) v (m_GroupCallback m) (m_Result m) (m_PrevResult m) (m_GroupResults m)
    (m_GroupIndex m) (m_GroupSize m) (m_GroupMemberID m) (m_GroupCallbackChain m).

Definition with_GroupCallback (v : option ChainLink) (m : TaskMessage) : TaskMessage :=
  MkTaskMessage (m_ID m) (m_Kind m) (m_Payload m) (m_Queue m) (m_State m)
    (m_Retried m) (m_MaxRetry m) (m_NoArchive m) (m_UniqueKey m) (m_LastErr m)
    (m_Retention m) (m_CompletedAt m) (m_Chain m) (m_ChainID m) (m_ChainIndex m)
    (m_GroupID m) (m_GroupQueue m) v (m_Result m) (m_PrevResult m) (m_GroupResults m)
    (m_GroupIndex m) (m_GroupSize m) (m_GroupMemberID m) (m_GroupCallbackChain m).

Definition with_GroupIndex (v : Z) (m : TaskMessage) : TaskMessage :=
  MkTaskMessage (m_ID m) (m_Kind m) (m_Payload m) (m_Queue m) (m_State m)
    (m_Retried m) (m_MaxRetry m) (m_NoArchive m) (m_UniqueKey m) (m_LastErr m)
    (m_Retention m) (m_CompletedAt m) (m_Chain m) (m_ChainID m) (m_ChainIndex m)
    (m_GroupID m) (m_GroupQueue m) (m_GroupCallback m) (m_Result m) (m_PrevResult m)
    (m_GroupResults m) v (m_GroupSize m) (m_GroupMemberID m) (m_GroupCallbackChain m).

Definition with_GroupSize (v : Z) (m : TaskMessage) : TaskMessage :=
  MkTaskMessage (m_ID m) (m_Kind m) (m_Payload m) (m_Queue m) (m_State m)
    (m_Retried m) (m_MaxRetry m) (m_NoArchive m) (m_UniqueKey m) (m_LastErr m)
    (m_Retention m) (m_CompletedAt m) (m_Chain m) (m_ChainID m) (m_ChainIndex m)
    (m_GroupID m) (m_GroupQueue m) (m_GroupCallback m) (m_Result m) (m_PrevResult m)
    (m_GroupResults m) (m_GroupIndex m) v (m_GroupMemberID m) (m_GroupCallbackChain m).

Definition with_GroupMemberID (v : string) (m : TaskMessage) : TaskMessage :=
  MkTaskMessage (m_ID m) (m_Kind m) (m_Payload m) (m_Queue m) (m_State m)
    (m_Retried m) (m_MaxRetry m) (m_NoArchive m) (m_UniqueKey m) (m_LastErr m)
    (m_Retention m) (m_CompletedAt m) (m_Chain m) (m_ChainID m) (m_ChainIndex m)
    (m_GroupID m) (m_GroupQueue m) (m_GroupCallback m) (m_Result m) (m_PrevResult m)
    (m_GroupResults m) (m_GroupIndex m) (m_GroupSize m) v (m_GroupCallbackChain m).

Definition with_GroupCallbackChain (v : list ChainLink) (m : TaskMessage) : TaskMessage :=
  MkTaskMessage (m_ID m) (m_Kind m) (m_Payload m) (m_Queue m) (m_State m)
    (m_Retried m) (m_MaxRetry m) (m_NoArchive m) (m_UniqueKey m) (m_LastErr m)
    (m_Retention m) (m_CompletedAt m) (m_Chain m) (m_ChainID m) (m_ChainIndex m)
    (m_GroupID m) (m_GroupQueue m) (m_GroupCallback m) (m_Result m) (m_PrevResult m)
    (m_GroupResults m) (m_GroupIndex m) (m_GroupSize m) (m_GroupMemberID m) v.

Definition with_PrevResult (v : bytes) (m : TaskMessage) : TaskMessage :=
  MkTaskMessage (m_ID m) (m_Kind m) (m_Payload m) (m_Queue m) (m_State m)
    (m_Retried m) (m_MaxRetry m) (m_NoArchive m) (m_UniqueKey m) (m_LastErr m)
    (m_Retention m) (m_CompletedAt m) (m_Chain m) (m_ChainID m) (m_ChainIndex m)
    (m_GroupID m) (m_GroupQueue m) (m_GroupCallback m) (m_Result m) v (m_GroupResults m)
    (m_GroupIndex m) (m_GroupSize m) (m_GroupMemberID m) (m_GroupCallbackChain m).

Definition with_NoArchive (v : bool) (m : TaskMessage) : TaskMessage :=
  MkTaskMessage (m_ID m) (m_Kind m) (m_Payload m) (m_Queue m) (m_State m)
    (m_Retried m) (m_MaxRetry m) v (m_UniqueKey m) (m_LastErr m) (m_Retention m)
    (m_CompletedAt m) (m_Chain m) (m_ChainID m) (m_ChainIndex m) (m_GroupID m)
    (m_GroupQueue m) (m_GroupCallback m) (m_Result m) (m_PrevResult m)
    (m_GroupResults m) (m_GroupIndex m) (m_GroupSize m) (m_GroupMemberID m)
    (m_GroupCallbackChain m).
(** The zero value of a message with the fields every composite literal of
    the program sets. *)
Definition newMessage (ID Kind : string) (Payload : bytes) (Queue : string)
    (MaxRetry : Z) (NoArchive : bool) (Retention : Z) : TaskMessage :=
  MkTaskMessage ID Kind Payload Queue 0 0 MaxRetry NoArchive "" "" Retention 0
    [] "" 0 "" "" None "" "" [] 0 0 "" [].

#[global] Instance GroupMemberLink_eq_dec : EqDecision GroupMemberLink.
Proof. solve_decision. Defined.
#[global] Instance ChainLink_eq_dec : EqDecision ChainLink.
Proof. solve_decision. Defined.
#[global] Instance TaskMessage_eq_dec : EqDecision TaskMessage.
Proof. solve_decision. Defined.

(** *** UTF-8 well-formedness

    [encoding/json] replaces invalid UTF-8 in strings, so a message comes
    back unchanged when its strings are valid; byte slices travel as base64
    and are unrestricted. *)

Definition utf8_member (g : GroupMemberLink) : bool :=
  valid (gm_Kind g) && valid (gm_Queue g).

Definition utf8_link (l : ChainLink) : bool :=
  valid (cl_Kind l) && valid (cl_Queue l) && forallb utf8_member (cl_Group l).

Definition utf8_msg (m : TaskMessage) : bool :=
  valid (m_ID m) && valid (m_Kind m) && valid (m_Queue m) && valid (m_UniqueKey m)
  && valid (m_LastErr m) && forallb utf8_link (m_Chain m) && valid (m_ChainID m)
  && valid (m_GroupID m) && valid (m_GroupQueue m)
  && match m_GroupCallback m with Some l => utf8_link l | None => true end
  && valid (m_GroupMemberID m) && forallb utf8_link (m_GroupCallbackChain m).

(** What a message is once it went through [encoding/json] and back. *)
Definition sanitize_member (g : GroupMemberLink) : GroupMemberLink :=
  MkGroupMemberLink (sanitize (gm_Kind g)) (gm_Payload g) (sanitize (gm_Queue g))
    (gm_MaxRetry g) (gm_Retention g) (gm_Delay g).

Definition sanitize_link (l : ChainLink) : ChainLink :=
  MkChainLink (sanitize (cl_Kind l)) (cl_Payload l) (sanitize (cl_Queue l)) (cl_MaxRetry l)
    (cl_NoArchive l) (cl_Retention l) (cl_Delay l) (map sanitize_member (cl_Group l)).

Definition sanitize_msg (m : TaskMessage) : TaskMessage :=
  MkTaskMessage (sanitize (m_ID m)) (sanitize (m_Kind m)) (m_Payload m) (sanitize (m_Queue m))
    (m_State m) (m_Retried m) (m_MaxRetry m) (m_NoArchive m) (sanitize (m_UniqueKey m))
    (sanitize (m_LastErr m)) (m_Retention m) (m_CompletedAt m)
    (map sanitize_link (m_Chain m)) (sanitize (m_ChainID m)) (m_ChainIndex m)
    (sanitize (m_GroupID m)) (sanitize (m_GroupQueue m)) (sanitize_link <$> m_GroupCallback m)
    (m_Result m) (m_PrevResult m) (m_GroupResults m) (m_GroupIndex m) (m_GroupSize m)
    (sanitize (m_GroupMemberID m)) (map sanitize_link (m_GroupCallbackChain m)).

Lemma map_id_forallb {A} (f : A → A) (p : A → bool) l :
  (∀ x, p x = true → f x = x) → forallb p l = true → map f l = l.
Proof.
  intros Hf. induction l as [|x l IH]; simpl; [done|].
  intros [Hx Hl]%andb_true_iff. by rewrite Hf, IH.
Qed.

Lemma sanitize_member_valid g : utf8_member g = true → sanitize_member g = g.
Proof.
  unfold utf8_member, sanitize_member. intros [? ?]%andb_true_iff.
  rewrite !sanitize_valid by done. by destruct g.
Qed.

Lemma sanitize_link_valid l : utf8_link l = true → sanitize_link l = l.
Proof.
  unfold utf8_link, sanitize_link. rewrite !andb_true_iff. intros [[? ?] ?].
  rewrite !sanitize_valid by done.
  rewrite (map_id_forallb _ utf8_member) by (done || apply sanitize_member_valid).
  by destruct l.
Qed.

(** A message of valid strings comes back unchanged. *)
Lemma sanitize_msg_valid m : utf8_msg m = true → sanitize_msg m = m.
Proof.
  unfold utf8_msg, sanitize_msg. rewrite !andb_true_iff.
  intros [[[[[[[[[[[? ?] ?] ?] ?] ?] ?] ?] ?] Hcb] ?] ?].
  rewrite !sanitize_valid by done.
  rewrite !(map_id_forallb _ utf8_link) by (done || apply sanitize_link_valid).
  assert (sanitize_link <$> m_GroupCallback m = m_GroupCallback m) as ->.
  { destruct (m_GroupCallback m) as [l|]; simpl; [by rewrite sanitize_link_valid|done]. }
  by destruct m.
Qed.

(** *** The JSON interface *)

(** What a callback message looks like after the server's [cjson] has set
    its [group_results] field to an array of base64 strings and nulls and
    Go has decoded it again: [null] and undecodable entries are empty. *)
Definition results_of_json (rs : list (option string)) : list bytes :=
  map (λ r, default "" (r ≫= Base64.DecodeString)) rs.

(** [cjson] prints numbers with 14 significant digits: integers pass through
    it unchanged only below that. *)
Definition small (z : Z) : bool := bool_decide (Z.abs z < 10 ^ 14)%Z.

Definition small_member (g : GroupMemberLink) : bool :=
  small (gm_MaxRetry g) && small (gm_Retention g) && small (gm_Delay g).

Definition small_link (l : ChainLink) : bool :=
  small (cl_MaxRetry l) && small (cl_Retention l) && small (cl_Delay l)
  && forallb small_member (cl_Group l).

Definition small_msg (m : TaskMessage) : bool :=
  small (m_State m) && small (m_Retried m) && small (m_MaxRetry m) && small (m_Retention m)
  && small (m_CompletedAt m) && forallb small_link (m_Chain m) && small (m_ChainIndex m)
  && match m_GroupCallback m with Some l => small_link l | None => true end
  && small (m_GroupIndex m) && small (m_GroupSize m)
  && forallb small_link (m_GroupCallbackChain m).

Class Json := {
  (** [json.Marshal] and [json.Unmarshal] at type [TaskMessage]. *)
  Marshal : TaskMessage → string;
  Unmarshal : string → option TaskMessage;
  (** [cjson.decode], assignment of [group_results], [cjson.encode]. *)
  cjsonSetGroupResults : string → list (option string) → string;
  Unmarshal_Marshal m : Unmarshal (Marshal m) = Some (sanitize_msg m);
  (** The results are encoded byte slices, at least one entry. *)
  Unmarshal_cjson m rs :
    small_msg m = true → rs ≠ [] →
    Forall (λ r, ∃ b, r = Base64.EncodeToString b) (omap id rs) →
    Unmarshal (cjsonSetGroupResults (Marshal m) rs)
    = Some (with_GroupResults (results_of_json rs) (sanitize_msg m));
  (** Other numbers or results at most make the decoding fail. *)
  Unmarshal_cjson_inv m rs m' :
    rs ≠ [] → Unmarshal (cjsonSetGroupResults (Marshal m) rs) = Some m' →
    ∃ l, m' = with_GroupResults l (sanitize_msg m);
}.

(** [EncodeMessage] cannot fail: every field of the struct is marshallable. *)
Definition EncodeMessage `{Json} (m : TaskMessage) : string := Marshal m.
Definition DecodeMessage `{Json} (b : string) : option TaskMessage := Unmarshal b.

(** [unique.go].  [crypto/sha256] enters as a parameter, the hex digest of
    its argument. *)
Definition UniqueSuffix (sha256hex : bytes → string) (kind : string) (payload : bytes) : string :=
  kind +:+ ":" +:+ sha256hex payload.

End Task.
