(* ===== verification/Redis.v ===== *)
(** * The Redis server, as the program relies on it

    Redis is not part of the repository.  It enters the development as the
    class [Redis]: a store, a function [exec] that runs one command, and
    [elapse_store] for the passage of time.  The laws of the class state the
    documented behaviour of the commands the program issues, through an
    observation [ks] of the data a store holds: [exec_effect] what a command
    does to it (given the reply, where the server chooses, as it does for the
    id of a stream entry), [exec_reply] which replies it may give.

    The data model keeps one map per data type.  A key of a real server holds
    one type only; [Typing] proves that in every run the program keeps each
    key to one type, so that replies of the WRONGTYPE kind do not arise.

    Times are milliseconds.  Keys whose deadline passed are removed when time
    elapses, so every key in the maps is live. *)

From S2P Require Import Prelude GoLib.
From Stdlib Require Import Ascii.

Module Redis.
Import GoFloat.

(** ** The data model *)

(** A stream entry id ([ms-seq]) as one integer. *)
Notation sid := Z (only parsing).

(** An entry of a consumer group's pending entries list. *)
Record pending := MkPending {
  pe_consumer : string;
  pe_since : Z;
  pe_count : Z;
}.

Record group := MkGroup {
  g_last : sid;
  g_pel : gmap sid pending;
}.

(** A stream: its entries (id and the value of the field [task_id]), the last
    id generated, its consumer groups. *)
Record stream := MkStream {
  st_entries : list (sid * string);
  st_last : sid;
  st_groups : gmap string group;
}.

Definition empty_stream : stream := MkStream [] 0%Z ∅.

Record keyspace := MkKeyspace {
  k_str : gmap string string;
  k_hash : gmap string (gmap string string);
  k_set : gmap string (gset string);
  k_zset : gmap string (gmap string score);
  k_stream : gmap string stream;
  k_exp : gmap string Z;
  k_now : Z;
}.

Definition empty_keyspace : keyspace := MkKeyspace ∅ ∅ ∅ ∅ ∅ ∅ 0%Z.

(** ** The components

    Each data type has its own map; an absent key reads as the empty value,
    and a hash, set or sorted set whose last element goes is removed. *)

Notation hashes := (gmap string (gmap string string)).
Notation sets := (gmap string (gset string)).
Notation zsets := (gmap string (gmap string score)).
Notation streams := (gmap string stream).

Definition h_at (h : hashes) (k : string) : gmap string string := default ∅ (h !! k).
Definition h_set (k : string) (fvs : list (string * string)) (h : hashes) : hashes :=
  <[k := foldl (λ f fv, <[fv.1 := fv.2]> f) (h_at h k) fvs]> h.
Definition h_del (k : string) (fs : list string) (h : hashes) : hashes :=
  let f := foldl (λ f x, delete x f) (h_at h k) fs in
  if decide (f = ∅) then delete k h else <[k := f]> h.

Definition s_at (s : sets) (k : string) : gset string := default ∅ (s !! k).
Definition s_add (k : string) (xs : list string) (s : sets) : sets :=
  <[k := list_to_set xs ∪ s_at s k]> s.
Definition s_rem (k x : string) (s : sets) : sets :=
  let t := s_at s k ∖ {[x]} in
  if decide (t = ∅) then delete k s else <[k := t]> s.

Definition z_at (z : zsets) (k : string) : gmap string score := default ∅ (z !! k).
Definition z_add (k : string) (sc : score) (x : string) (z : zsets) : zsets :=
  <[k := <[x := sc]> (z_at z k)]> z.
Definition z_rem (k x : string) (z : zsets) : zsets :=
  let t := delete x (z_at z k) in
  if decide (t = ∅) then delete k z else <[k := t]> z.

Definition x_at (x : streams) (k : string) : stream := default empty_stream (x !! k).
Definition x_add (k : string) (id : sid) (tid : string) (x : streams) : streams :=
  let st := x_at x k in
  <[k := MkStream (st_entries st ++ [(id, tid)]) id (st_groups st)]> x.
Definition x_mkgroup (k g : string) (x : streams) : streams :=
  let st := x_at x k in
  <[k := MkStream (st_entries st) (st_last st) (<[g := MkGroup 0%Z ∅]> (st_groups st))]> x.
Definition x_group (k g : string) (f : group → group) (x : streams) : streams :=
  let st := x_at x k in
  match st_groups st !! g with
  | None => x
  | Some gr => <[k := MkStream (st_entries st) (st_last st) (<[g := f gr]> (st_groups st))]> x
  end.
Definition x_del (k : string) (ids : list sid) (x : streams) : streams :=
  match x !! k with
  | None => x
  | Some st => <[k := MkStream (filter (λ e, e.1 ∉ ids) (st_entries st))
                        (st_last st) (st_groups st)]> x
  end.

(** Observations of a keyspace. *)
Definition hash_at (m : keyspace) (k : string) : gmap string string := h_at (k_hash m) k.
Definition hget (m : keyspace) (k f : string) : option string := hash_at m k !! f.
Definition set_at (m : keyspace) (k : string) : gset string := s_at (k_set m) k.
Definition zset_at (m : keyspace) (k : string) : gmap string score := z_at (k_zset m) k.
Definition stream_at (m : keyspace) (k : string) : stream := x_at (k_stream m) k.
Definition group_at (m : keyspace) (k g : string) : option group :=
  st_groups (stream_at m k) !! g.

(** Updates of one component. *)
Definition set_str (f : gmap string string → gmap string string) (m : keyspace) :=
  MkKeyspace (f (k_str m)) (k_hash m) (k_set m) (k_zset m) (k_stream m) (k_exp m) (k_now m).
Definition set_hash (f : hashes → hashes) (m : keyspace) :=
  MkKeyspace (k_str m) (f (k_hash m)) (k_set m) (k_zset m) (k_stream m) (k_exp m) (k_now m).
Definition set_set (f : sets → sets) (m : keyspace) :=
  MkKeyspace (k_str m) (k_hash m) (f (k_set m)) (k_zset m) (k_stream m) (k_exp m) (k_now m).
Definition set_zset (f : zsets → zsets) (m : keyspace) :=
  MkKeyspace (k_str m) (k_hash m) (k_set m) (f (k_zset m)) (k_stream m) (k_exp m) (k_now m).
Definition set_stream (f : streams → streams) (m : keyspace) :=
  MkKeyspace (k_str m) (k_hash m) (k_set m) (k_zset m) (f (k_stream m)) (k_exp m) (k_now m).
Definition set_exp (f : gmap string Z → gmap string Z) (m : keyspace) :=
  MkKeyspace (k_str m) (k_hash m) (k_set m) (k_zset m) (k_stream m) (f (k_exp m)) (k_now m).

(** ** Effects of the commands *)

Definition key_exists (m : keyspace) (k : string) : bool :=
  bool_decide (is_Some (k_str m !! k)) || bool_decide (is_Some (k_hash m !! k))
  || bool_decide (is_Some (k_set m !! k)) || bool_decide (is_Some (k_zset m !! k))
  || bool_decide (is_Some (k_stream m !! k)).

Definition del_key (k : string) (m : keyspace) : keyspace :=
  MkKeyspace (delete k (k_str m)) (delete k (k_hash m)) (delete k (k_set m))
    (delete k (k_zset m)) (delete k (k_stream m)) (delete k (k_exp m)) (k_now m).

(** [EXPIRE] and [PEXPIRE] set a deadline on an existing key. *)
Definition do_pexpire (k : string) (ms : Z) (m : keyspace) : keyspace :=
  set_exp (if key_exists m k then <[k := (k_now m + ms)%Z]> else id) m.

(** A plain [SET] discards a deadline, [SET ... PX] replaces it. *)
Definition do_set (k v : string) (m : keyspace) : keyspace :=
  set_exp (delete k) (set_str <[k := v]> m).
Definition do_setpx (k v : string) (ms : Z) (m : keyspace) : keyspace :=
  set_exp <[k := (k_now m + ms)%Z]> (set_str <[k := v]> m).

Definition do_hset (k : string) (fvs : list (string * string)) : keyspace → keyspace :=
  set_hash (h_set k fvs).

(** A key that is removed loses its deadline. *)
Definition do_hdel (k : string) (fs : list string) (m : keyspace) : keyspace :=
  set_exp (if decide (h_del k fs (k_hash m) !! k = None) then delete k else id)
    (set_hash (h_del k fs) m).
Definition do_sadd (k : string) (xs : list string) : keyspace → keyspace :=
  set_set (s_add k xs).
Definition do_srem (k x : string) (m : keyspace) : keyspace :=
  set_exp (if decide (s_rem k x (k_set m) !! k = None) then delete k else id)
    (set_set (s_rem k x) m).
Definition do_zadd (k : string) (sc : score) (x : string) : keyspace → keyspace :=
  set_zset (z_add k sc x).
Definition do_zrem (k x : string) (m : keyspace) : keyspace :=
  set_exp (if decide (z_rem k x (k_zset m) !! k = None) then delete k else id)
    (set_zset (z_rem k x) m).

(** Elements of a ZSET by score, ties by member. *)
Definition zle (a b : string * score) : Prop :=
  (a.2 < b.2)%Z ∨ (a.2 = b.2 ∧ String.le a.1 b.1).

#[global] Instance zle_dec : RelDecision zle.
Proof. intros a b. unfold zle. apply _. Defined.

Definition zsorted (z : gmap string score) : list (string * score) :=
  merge_sort zle (map_to_list z).

(** [LIMIT 0 n]: a negative count means no limit. *)
Definition take_limit {A} (n : Z) (l : list A) : list A :=
  if bool_decide (n < 0)%Z then l else take (Z.to_nat n) l.

Definition zrangebyscore (z : gmap string score) (max : score) (n : Z) : list string :=
  take_limit n (map fst (filter (λ p, p.2 ≤ max)%Z (zsorted z))).

(** [ZRANGE start stop], by rank; negative ranks count from the end. *)
Definition zrange {A} (start stop : Z) (l : list A) : list A :=
  let fix_rank i := if bool_decide (i < 0)%Z then (len l + i)%Z else i in
  let lo := Z.max 0 (fix_rank start) in
  take (Z.to_nat (fix_rank stop + 1 - lo)) (drop (Z.to_nat lo) l).

Definition do_xadd (k : string) (id : sid) (tid : string) : keyspace → keyspace :=
  set_stream (x_add k id tid).
Definition do_xgroup (k g : string) : keyspace → keyspace := set_stream (x_mkgroup k g).

(** Replace a consumer group of a stream. *)
Definition set_group (k g : string) (f : group → group) : keyspace → keyspace :=
  set_stream (x_group k g f).

(** Entries never delivered to the group. *)
Definition undelivered (st : stream) (gr : group) : list (sid * string) :=
  filter (λ e, g_last gr < e.1)%Z (st_entries st).

Definition deliver (c : string) (now : Z) (es : list (sid * string)) (gr : group) : group :=
  MkGroup (default (g_last gr) (fst <$> last es))
    (foldl (λ pel e, <[e.1 := MkPending c now 1%Z]> pel) (g_pel gr) es).

Definition do_xack (k g : string) (ids : list sid) : keyspace → keyspace :=
  set_group k g (λ gr, MkGroup (g_last gr) (foldl (λ pel i, delete i pel) (g_pel gr) ids)).

Definition do_xdel (k : string) (ids : list sid) : keyspace → keyspace :=
  set_stream (x_del k ids).

(** Claim pending entries for a consumer: the idle time restarts; [XCLAIM]
    with [JUSTID] leaves the delivery count, [XAUTOCLAIM] raises it. *)
Definition claim (c : string) (now inc : Z) (ids : list sid) (gr : group) : group :=
  MkGroup (g_last gr)
    (foldl (λ pel i, alter (λ p, MkPending c now (pe_count p + inc)%Z) i pel) (g_pel gr) ids).

(** Pending entries in id order. *)
Definition pel_le (a b : sid * pending) : Prop := (a.1 ≤ b.1)%Z.
#[global] Instance pel_le_dec : RelDecision pel_le.
Proof. intros a b. unfold pel_le. apply _. Defined.

Definition pel_sorted (gr : group) : list (sid * pending) :=
  merge_sort pel_le (map_to_list (g_pel gr)).

Definition entry_of (st : stream) (i : sid) : option (sid * string) :=
  snd <$> list_find (λ e, e.1 = i) (st_entries st).

(** The documentation of [XAUTOCLAIM] leaves open whether an idle time equal
    to the minimum qualifies; the reply is fixed by some test between the
    strict and the weak comparison.  At most ten times [count] pending
    entries are scanned.  Pending entries whose stream entry was deleted are
    not returned; the program acknowledges every entry it deletes, so it has
    none. *)
Definition autoclaimed (now minIdle count : Z) (ok : sid * pending → bool)
    (st : stream) (gr : group) : list (sid * string) :=
  omap (entry_of st) (map fst (take (Z.to_nat count)
    (filter (λ p, ok p = true) (take (Z.to_nat (10 * count)) (pel_sorted gr))))).

Definition idle_test (now minIdle : Z) (ok : sid * pending → bool) : Prop :=
  ∀ p, (minIdle < now - pe_since p.2 → ok p = true)%Z
       ∧ (ok p = true → minIdle ≤ now - pe_since p.2)%Z.

(** ** The commands the program issues, by the type of their reply *)
Inductive cmd : Type → Type :=
  | GET (k : string) : cmd (option string)
  | SET (k v : string) : cmd unit
  | SETPX (k v : string) (ms : Z) : cmd unit
  | SETNXPX (k v : string) (ms : Z) : cmd bool
  | DEL (ks : list string) : cmd unit
  | EXISTS (k : string) : cmd bool
  | PTTL (k : string) : cmd Z
  | PEXPIRE (k : string) (ms : Z) : cmd unit
  | HSET (k : string) (fvs : list (string * string)) : cmd unit
  | HGET (k f : string) : cmd (option string)
  | HMGET (k : string) (fs : list string) : cmd (list (option string))
  | HGETALL (k : string) : cmd (list (string * string))
  | HDEL (k : string) (fs : list string) : cmd unit
  | SADD (k : string) (xs : list string) : cmd unit
  | SREM (k x : string) : cmd unit
  | SCARD (k : string) : cmd Z
  | SMEMBERS (k : string) : cmd (list string)
  | ZADD (k : string) (sc : score) (x : string) : cmd unit
  | ZREM (k x : string) : cmd Z
  | ZCARD (k : string) : cmd Z
  | ZSCORE (k x : string) : cmd (option score)
  | ZRANGEBYSCORE (k : string) (max : score) (n : Z) : cmd (list string)
  | ZRANGE (k : string) (start stop : Z) : cmd (list (string * score))
  | XADD (k tid : string) : cmd sid
  | XGROUPCREATE (k g : string) : cmd bool
  | XREADGROUP (k g consumer : string) (count : Z) : cmd (option (list (sid * string)))
  | XACK (k g : string) (ids : list sid) : cmd unit
  | XDEL (k : string) (ids : list sid) : cmd unit
  | XLEN (k : string) : cmd Z
  | XPENDING (k g : string) : cmd (option Z)
  | XCLAIMJUSTID (k g consumer : string) (ids : list sid) : cmd unit
  | XAUTOCLAIM (k g consumer : string) (minIdle count : Z) : cmd (option (list (sid * string)))
  | PUBLISH (channel payload : string) : cmd unit
  | SCAN (pattern : string) : cmd (list string).

(** What a command with reply [r] does to the data. *)
Definition cmd_effect {A} (c : cmd A) : A → keyspace → keyspace :=
  match c in cmd A return A → keyspace → keyspace with
  | SET k v => λ _, do_set k v
  | SETPX k v ms => λ _, do_setpx k v ms
  | SETNXPX k v ms => λ r, if r then do_setpx k v ms else id
  | DEL ks => λ _ m, foldl (λ m k, del_key k m) m ks
  | PEXPIRE k ms => λ _, do_pexpire k ms
  | HSET k fvs => λ _, do_hset k fvs
  | HDEL k fs => λ _, do_hdel k fs
  | SADD k xs => λ _, do_sadd k xs
  | SREM k x => λ _, do_srem k x
  | ZADD k sc x => λ _, do_zadd k sc x
  | ZREM k x => λ _, do_zrem k x
  | XADD k tid => λ id, do_xadd k id tid
  | XGROUPCREATE k g => λ r, if r then do_xgroup k g else id
  | XREADGROUP k g c n => λ r m,
      match r with
      | Some es => set_group k g (deliver c (k_now m) es) m
      | None => m
      end
  | XACK k g ids => λ _, do_xack k g ids
  | XDEL k ids => λ _, do_xdel k ids
  | XCLAIMJUSTID k g c ids => λ _ m, set_group k g (claim c (k_now m) 0%Z ids) m
  | XAUTOCLAIM k g c _ _ => λ r m,
      match r with
      | Some es => set_group k g (claim c (k_now m) 1%Z (map fst es)) m
      | None => m
      end
  | _ => λ _ m, m
  end.

(** Glob patterns, for the constructs [*], [?] and the escape [\]; patterns
    with a character class are not constrained. *)
Fixpoint glob (p s : list ascii) : bool :=
  match p with
  | [] => bool_decide (s = [])
  | c :: p' =>
      if decide (c = "*"%char) then
        (fix star (s : list ascii) : bool :=
           glob p' s || match s with [] => false | _ :: s' => star s' end) s
      else match s with
      | [] => false
      | x :: s' =>
          if decide (c = "?"%char) then glob p' s'
          else if decide (c = "\"%char) then
            match p' with
            | [] => bool_decide (x = c) && glob p' s'
            | e :: p'' => bool_decide (x = e) && glob p'' s'
            end
          else bool_decide (x = c) && glob p' s'
      end
  end.

(** The live keys of a keyspace. *)
Definition all_keys (m : keyspace) : gset string :=
  dom (k_str m) ∪ dom (k_hash m) ∪ dom (k_set m) ∪ dom (k_zset m) ∪ dom (k_stream m).

(** Which replies a command may give.  The order of an unordered reply is
    the server's choice; a [SCAN] iteration may return a key twice. *)
Definition cmd_reply {A} (c : cmd A) (m : keyspace) : A → Prop :=
  match c in cmd A return A → Prop with
  | GET k => λ r, r = k_str m !! k
  | SETNXPX k _ _ => λ r, r = negb (key_exists m k)
  | EXISTS k => λ r, r = key_exists m k
  | PTTL k => λ r, r = if key_exists m k
                       then match k_exp m !! k with Some d => d - k_now m | None => -1 end%Z
                       else (-2)%Z
  | HGET k f => λ r, r = hget m k f
  | HMGET k fs => λ r, r = map (hget m k) fs
  | HGETALL k => λ r, r ≡ₚ map_to_list (hash_at m k)
  | SCARD k => λ r, r = Z.of_nat (size (set_at m k))
  | SMEMBERS k => λ r, r ≡ₚ elements (set_at m k)
  | ZREM k x => λ r, r = if decide (is_Some (zset_at m k !! x)) then 1%Z else 0%Z
  | ZCARD k => λ r, r = Z.of_nat (size (zset_at m k))
  | ZSCORE k x => λ r, r = zset_at m k !! x
  | ZRANGEBYSCORE k max n => λ r, r = zrangebyscore (zset_at m k) max n
  | ZRANGE k start stop => λ r, r = zrange start stop (zsorted (zset_at m k))
  | XADD k _ => λ r, (st_last (stream_at m k) < r)%Z
  | XGROUPCREATE k g => λ r, r = bool_decide (group_at m k g = None)
  | XREADGROUP k g _ n => λ r,
      r = (λ gr, take (Z.to_nat n) (undelivered (stream_at m k) gr)) <$> group_at m k g
  | XLEN k => λ r, r = len (st_entries (stream_at m k))
  | XPENDING k g => λ r, r = (λ gr, Z.of_nat (size (g_pel gr))) <$> group_at m k g
  | XAUTOCLAIM k g _ minIdle n => λ r,
      ∃ ok, idle_test (k_now m) minIdle ok ∧
        r = (autoclaimed (k_now m) minIdle n ok (stream_at m k)) <$> group_at m k g
  | SCAN pattern => λ r,
      "["%char ∉ GoStr.chars pattern →
      ∀ x, x ∈ r ↔ x ∈ all_keys m ∧ glob (GoStr.chars pattern) (GoStr.chars x) = true
  | _ => λ _, True
  end.

(** Time passes: keys whose deadline is reached disappear. *)
Definition live_at (now : Z) (m : keyspace) (k : string) : bool :=
  match k_exp m !! k with Some d => bool_decide (now < d)%Z | None => true end.

Definition elapse (dt : Z) (m : keyspace) : keyspace :=
  let now := (k_now m + dt)%Z in
  let keep := live_at now m in
  MkKeyspace (filter (λ p, keep p.1 = true) (k_str m))
    (filter (λ p, keep p.1 = true) (k_hash m)) (filter (λ p, keep p.1 = true) (k_set m))
    (filter (λ p, keep p.1 = true) (k_zset m)) (filter (λ p, keep p.1 = true) (k_stream m))
    (filter (λ p, keep p.1 = true) (k_exp m)) now.

(** ** The interface *)

Class Redis := {
  store : Type;
  ks : store → keyspace;
  exec : ∀ {A}, cmd A → store → store * A;
  elapse_store : Z → store → store;
  exec_effect : ∀ A (c : cmd A) s,
    ks (fst (exec c s)) = cmd_effect c (snd (exec c s)) (ks s);
  exec_reply : ∀ A (c : cmd A) s, cmd_reply c (ks s) (snd (exec c s));
  elapse_effect : ∀ dt s, (0 ≤ dt)%Z → ks (elapse_store dt s) = elapse dt (ks s);
}.

End Redis.
