(* ===== verification/RedisFacts.v ===== *)
(** * Facts about the data model

    How each update of a component reads back, in the form of a decision on
    the key, collected in the rewriting database [chronos_rw]; and what the
    range queries return. *)

From S2P Require Import Prelude GoLib Redis.

Module RedisFacts.
Import GoFloat Redis.

(** ** Reading back an update *)

Lemma h_at_set k fvs h k' :
  h_at (h_set k fvs h) k'
  = if decide (k = k') then foldl (λ f fv, <[fv.1 := fv.2]> f) (h_at h k) fvs else h_at h k'.
Proof. unfold h_set, h_at. rewrite lookup_insert. by case_decide. Qed.

Lemma h_at_delete k h k' :
  h_at (delete k h) k' = if decide (k = k') then ∅ else h_at h k'.
Proof. unfold h_at. rewrite lookup_delete. by case_decide. Qed.

Lemma h_at_del k fs h k' :
  h_at (h_del k fs h) k'
  = if decide (k = k') then foldl (λ f x, delete x f) (h_at h k) fs else h_at h k'.
Proof.
  unfold h_del. case_decide as E.
  - rewrite h_at_delete. case_decide; [|done]. by rewrite E.
  - unfold h_at. rewrite lookup_insert. by case_decide.
Qed.

Lemma s_at_add k xs s k' :
  s_at (s_add k xs s) k' = if decide (k = k') then list_to_set xs ∪ s_at s k else s_at s k'.
Proof. unfold s_add, s_at. rewrite lookup_insert. by case_decide. Qed.

Lemma s_at_delete k s k' :
  s_at (delete k s) k' = if decide (k = k') then ∅ else s_at s k'.
Proof. unfold s_at. rewrite lookup_delete. by case_decide. Qed.

Lemma s_at_rem k x s k' :
  s_at (s_rem k x s) k' = if decide (k = k') then s_at s k ∖ {[x]} else s_at s k'.
Proof.
  unfold s_rem. case_decide as E.
  - rewrite s_at_delete. case_decide; [|done]. by rewrite E.
  - unfold s_at. rewrite lookup_insert. by case_decide.
Qed.

Lemma z_at_add k sc x z k' :
  z_at (z_add k sc x z) k' = if decide (k = k') then <[x := sc]> (z_at z k) else z_at z k'.
Proof. unfold z_add, z_at. rewrite lookup_insert. by case_decide. Qed.

Lemma z_at_delete k z k' :
  z_at (delete k z) k' = if decide (k = k') then ∅ else z_at z k'.
Proof. unfold z_at. rewrite lookup_delete. by case_decide. Qed.

Lemma z_at_rem k x z k' :
  z_at (z_rem k x z) k' = if decide (k = k') then delete x (z_at z k) else z_at z k'.
Proof.
  unfold z_rem. case_decide as E.
  - rewrite z_at_delete. case_decide; [|done]. by rewrite E.
  - unfold z_at. rewrite lookup_insert. by case_decide.
Qed.

Lemma x_at_add k id tid x k' :
  x_at (x_add k id tid x) k'
  = if decide (k = k')
    then MkStream (st_entries (x_at x k) ++ [(id, tid)]) id (st_groups (x_at x k))
    else x_at x k'.
Proof. unfold x_add, x_at. rewrite lookup_insert. by case_decide. Qed.

Lemma x_at_delete k x k' :
  x_at (delete k x) k' = if decide (k = k') then empty_stream else x_at x k'.
Proof. unfold x_at. rewrite lookup_delete. by case_decide. Qed.

Lemma x_at_mkgroup k g x k' :
  x_at (x_mkgroup k g x) k'
  = if decide (k = k')
    then MkStream (st_entries (x_at x k)) (st_last (x_at x k))
           (<[g := MkGroup 0%Z ∅]> (st_groups (x_at x k)))
    else x_at x k'.
Proof. unfold x_mkgroup, x_at. rewrite lookup_insert. by case_decide. Qed.

Lemma x_at_group k g f x k' :
  x_at (x_group k g f x) k'
  = if decide (k = k')
    then MkStream (st_entries (x_at x k)) (st_last (x_at x k))
           (alter f g (st_groups (x_at x k)))
    else x_at x k'.
Proof.
  unfold x_group. destruct (st_groups (x_at x k) !! g) as [gr|] eqn:E.
  - unfold x_at at 1. rewrite lookup_insert. case_decide; [|done]. simpl.
    f_equal. apply map_eq. intros g'. rewrite lookup_insert, lookup_alter.
    case_decide as Hg; [|done]. subst. by rewrite E.
  - case_decide; [|done]. subst k'.
    assert (alter f g (st_groups (x_at x k)) = st_groups (x_at x k)) as ->.
    { apply map_eq. intros g'. rewrite lookup_alter. case_decide as Hg; [|done].
      subst. by rewrite E. }
    by destruct (x_at x k).
Qed.

Lemma x_at_del k ids x k' :
  x_at (x_del k ids x) k'
  = if decide (k = k')
    then MkStream (filter (λ e, e.1 ∉ ids) (st_entries (x_at x k))) (st_last (x_at x k))
           (st_groups (x_at x k))
    else x_at x k'.
Proof.
  unfold x_del, x_at. destruct (x !! k) as [st|] eqn:E.
  - rewrite lookup_insert. by case_decide.
  - case_decide; [|done]. subst k'. by rewrite E.
Qed.

#[export] Hint Rewrite h_at_set h_at_delete h_at_del s_at_add s_at_delete s_at_rem
  z_at_add z_at_delete z_at_rem x_at_add x_at_delete x_at_mkgroup x_at_group x_at_del
  @lookup_insert @lookup_delete : chronos_rw.

(** ** Existence *)

Lemma key_exists_hash m k : key_exists m k = false → hash_at m k = ∅.
Proof.
  unfold key_exists, hash_at, h_at. intros E. destruct (k_hash m !! k); [|done].
  exfalso. revert E. rewrite !orb_false_iff, !bool_decide_eq_false.
  intros [[[[_ E] _] _] _]. apply E. eauto.
Qed.

Lemma key_exists_set m k : key_exists m k = false → set_at m k = ∅.
Proof.
  unfold key_exists, set_at, s_at. intros E. destruct (k_set m !! k); [|done].
  exfalso. revert E. rewrite !orb_false_iff, !bool_decide_eq_false.
  intros [[[_ E] _] _]. apply E. eauto.
Qed.

Lemma key_exists_str m k v : k_str m !! k = Some v → key_exists m k = true.
Proof. unfold key_exists. by intros ->. Qed.

Lemma key_exists_hget m k f v : hget m k f = Some v → key_exists m k = true.
Proof.
  unfold hget. intros E. destruct (key_exists m k) eqn:Hk; [done|].
  by rewrite (key_exists_hash m k Hk), lookup_empty in E.
Qed.

(** ** Ranges *)

#[global] Instance zle_total : Total zle.
Proof.
  intros [a x] [b y]. unfold zle; simpl.
  destruct (Z.lt_trichotomy x y) as [?|[->|?]]; [by left; left| |by right; left].
  destruct (total String.le a b); [left|right]; by right.
Qed.

#[global] Instance zle_trans : Transitive zle.
Proof.
  intros [a x] [b y] [c z]. unfold zle; simpl.
  intros [?|[-> ?]] [?|[-> ?]]; [left; lia|by left|by left|right].
  split; [done|]. by etrans.
Qed.

Lemma zsorted_perm z : zsorted z ≡ₚ map_to_list z.
Proof. apply merge_sort_Permutation. Qed.

Lemma zsorted_sorted z : StronglySorted zle (zsorted z).
Proof. apply StronglySorted_merge_sort; apply _. Qed.

Lemma elem_of_zsorted z x sc : (x, sc) ∈ zsorted z ↔ z !! x = Some sc.
Proof. by rewrite zsorted_perm, elem_of_map_to_list. Qed.

Lemma zsorted_NoDup z : NoDup (map fst (zsorted z)).
Proof.
  change (NoDup (fst <$> zsorted z)). rewrite zsorted_perm. apply NoDup_fst_map_to_list.
Qed.

Lemma take_limit_sublist {A} n (l : list A) : take_limit n l `sublist_of` l.
Proof. unfold take_limit. case_bool_decide; [done|]. apply sublist_take. Qed.

Lemma take_limit_length {A} n (l : list A) :
  (0 ≤ n)%Z → (len (take_limit n l) = Z.min n (len l))%Z.
Proof. intros Hn. unfold take_limit. rewrite bool_decide_false by lia. rewrite length_take. lia. Qed.

Lemma zrangebyscore_sublist z max n :
  zrangebyscore z max n `sublist_of` map fst (zsorted z).
Proof.
  unfold zrangebyscore. etrans; [apply take_limit_sublist|].
  apply (fmap_sublist fst), sublist_filter.
Qed.

Lemma zrangebyscore_NoDup z max n : NoDup (zrangebyscore z max n).
Proof. eapply sublist_NoDup; [apply zsorted_NoDup|apply zrangebyscore_sublist]. Qed.

(** Members returned are due. *)
Lemma elem_of_zrangebyscore z max n x :
  x ∈ zrangebyscore z max n → ∃ sc, z !! x = Some sc ∧ (sc ≤ max)%Z.
Proof.
  unfold zrangebyscore. intros Hx.
  eapply elem_of_submseteq in Hx; [|apply sublist_submseteq, take_limit_sublist].
  apply list_elem_of_fmap in Hx as ([x' sc] & -> & Hin).
  apply list_elem_of_filter in Hin as [Hle Hin]. apply elem_of_zsorted in Hin. eauto.
Qed.

(** A due member is returned when the limit was not reached. *)
Lemma elem_of_zrangebyscore_all z max n x sc :
  z !! x = Some sc → (sc ≤ max)%Z → (0 ≤ n)%Z → (len (zrangebyscore z max n) < n)%Z →
  x ∈ zrangebyscore z max n.
Proof.
  unfold zrangebyscore, take_limit. intros Hx Hsc Hn. rewrite bool_decide_false by lia.
  rewrite length_take. intros Hlen. rewrite take_ge by lia.
  apply list_elem_of_fmap. exists (x, sc). split; [done|].
  apply list_elem_of_filter. split; [done|]. by apply elem_of_zsorted.
Qed.

Lemma StronglySorted_filter' {A} (R : relation A) (P : A → Prop) `{∀ x, Decision (P x)} l :
  StronglySorted R l → StronglySorted R (filter P l).
Proof.
  induction 1 as [|x l Hl IH Hx]; [constructor|]. rewrite filter_cons.
  case_decide; [|done]. constructor; [done|]. apply Forall_forall.
  intros y [_ Hy]%list_elem_of_filter. rewrite Forall_forall in Hx. auto.
Qed.

Lemma StronglySorted_take {A} (R : relation A) n l :
  StronglySorted R l → StronglySorted R (take n l).
Proof.
  intros H. revert n. induction H as [|x l Hl IH Hx]; intros [|n]; simpl; [constructor..|].
  constructor; [done|]. apply Forall_forall. intros y Hy.
  rewrite Forall_forall in Hx. apply Hx. eapply elem_of_submseteq; [exact Hy|].
  apply sublist_submseteq, sublist_take.
Qed.

Lemma take_limit_sorted {A} (R : relation A) n l :
  StronglySorted R l → StronglySorted R (take_limit n l).
Proof. unfold take_limit. case_bool_decide; [done|]. apply StronglySorted_take. Qed.

End RedisFacts.
