(* ===== verification/Client.v ===== *)
(** * One process talking to Redis

    The Go code issues commands over a network: a round trip takes time and
    may fail, before the server applied the commands or after.  This file
    holds the two monads the components are written in, and the rules by
    which the components' theorems are proved.

    - [script]: a Lua script or a [MULTI] transaction, run by the server
      atomically.  [wps] is its weakest precondition over keyspaces.
    - [M]: Go code of one process, as a tree of the round trips, clock
      readings and sleeps it makes.  [exec_M] runs it alone against the
      server, in a [world]: the store, the process's clock, the cache, and a
      plan that says, for each round trip to come, how long it takes and
      whether it fails.  Theorems that quantify over worlds quantify over all
      plans.  [Processes] runs many such programs against one server,
      interleaved at their round trips. *)

From S2P Require Import Prelude GoLib Redis.

Module Client.
Import Redis.

(** ** Results *)

(** The errors the modelled code tests for or creates. *)
Inductive err :=
  | ErrNet            (* connection or context error *)
  | ErrNil            (* redis.Nil *)
  | ErrNoGroup        (* NOGROUP reply *)
  | ErrNoTask
  | ErrDuplicateTask
  | ErrDecode         (* a json error *)
  | ErrParse          (* a strconv error *)
  | ErrText (s : string)
  | ErrWrapped (prefix : string) (e : err)    (* fmt.Errorf("...: %w", err) *)
  | ErrSuffixed (e : err) (suffix : string).  (* fmt.Errorf("%w...", err) *)

#[global] Instance err_eq_dec : EqDecision err.
Proof. solve_decision. Defined.

Inductive result (A : Type) :=
  | Ok (a : A)
  | Err (e : err).
Arguments Ok {A} a.
Arguments Err {A} e.

#[global] Instance result_eq_dec {A} `{EqDecision A} : EqDecision (result A).
Proof. solve_decision. Defined.

Section client.
Context `{R : Redis}.

(** ** Scripts *)

Definition script (A : Type) : Type := store → store * A.

#[global] Instance script_ret : MRet script := λ A a s, (s, a).
#[global] Instance script_bind : MBind script := λ A B f p s,
  let (s', a) := p s in f a s'.
#[global] Instance script_fmap : FMap script := λ A B f p s,
  let (s', a) := p s in (s', f a).

(** [redis.call]. *)
Definition call {A} (c : cmd A) : script A := λ s, exec c s.

(** [for _, x in ipairs(l) do ... end]. *)
Fixpoint foreach {A} (l : list A) (f : A → script ()) : script () :=
  match l with
  | [] => mret ()
  | x :: l => f x;; foreach l f
  end.

(** ** Go code

    A program is a tree of what it does next: an atomic round trip (a single
    command, a script or a [MULTI] block), a pipeline (one round trip, each
    command on its own), the clock, the cache [knownQueues] of [rdb.go], a
    sleep; or the value or error it returned. *)

Inductive op : Type → Type :=
  | Trip {X} (p : script (result X)) : op (result X)
  | Pipe {X} (ps : list (script X)) : op (result (list X))
  | Clock : op Z
  | Knows (q : string) : op bool
  | Learn (q : string) : op ()
  | Sleep (ms : N) : op ().

Inductive M (A : Type) : Type :=
  | Return (r : result A)
  | Do {X} (o : op X) (k : X → M A).
Arguments Return {A} r.
Arguments Do {A X} o k.

#[global] Instance M_ret : MRet M := λ A a, Return (Ok a).
#[global] Instance M_bind : MBind M := λ A B f,
  fix go p := match p with
              | Return (Ok a) => f a
              | Return (Err e) => Return (Err e)
              | Do o k => Do o (λ x, go (k x))
              end.

Definition fail {A} (e : err) : M A := Return (Err e).
Definition lift_result {A} (r : result A) : M A := Return r.

(** [v, err := p]: the error becomes a value. *)
Fixpoint try {A} (p : M A) : M (result A) :=
  match p with
  | Return r => Return (Ok r)
  | Do o k => Do o (λ x, try (k x))
  end.

(** [return fmt.Errorf("prefix: %w", err)]. *)
Fixpoint wrap_err {A} (prefix : string) (p : M A) : M A :=
  match p with
  | Return (Err e) => Return (Err (ErrWrapped prefix e))
  | Return r => Return r
  | Do o k => Do o (λ x, wrap_err prefix (k x))
  end.

(** [time.Now()]. *)
Definition now : M Z := Do Clock (λ t, Return (Ok t)).
Definition knows (q : string) : M bool := Do (Knows q) (λ b, Return (Ok b)).
Definition learn (q : string) : M () := Do (Learn q) (λ _, Return (Ok ())).

(** [time.After(d)], [time.Sleep(d)]. *)
Definition sleep (ms : N) : M () := Do (Sleep ms) (λ _, Return (Ok ())).

Definition round_trip {A} (p : script (result A)) : M A := Do (Trip p) Return.
Definition run {A} (p : script A) : M A := round_trip (Ok <$> p).
Definition pipeline {A} (ps : list (script A)) : M (list A) := Do (Pipe ps) Return.

(** A loop [for _, x := range l { acc = f(acc, x) }] whose body may return
    from the function with an error. *)
Fixpoint go_foldl {A B} (f : B → A → M B) (acc : B) (l : list A) : M B :=
  match l with
  | [] => mret acc
  | x :: l => acc' ← f acc x; go_foldl f acc' l
  end.

(** ** One process alone with the server

    A round trip takes time (in milliseconds), and if it fails, the server
    had executed some number of its commands by then. *)

Record event := MkEvent {
  ev_delay : N;
  ev_fault : option nat;
}.

Record world := MkWorld {
  w_store : store;
  w_plan : list event;
  w_clock : Z;
  w_known : gset string;
}.

Definition set_store (s : store) (w : world) : world :=
  MkWorld s (w_plan w) (w_clock w) (w_known w).

(** Time passes for the server and for the process. *)
Definition pass (ms : N) (w : world) : world :=
  MkWorld (elapse_store (Z.of_N ms) (w_store w)) (w_plan w)
    (w_clock w + Z.of_N ms * GoTime.Millisecond) (w_known w).

(** The next event of the plan; beyond its end everything succeeds at once. *)
Definition next (w : world) : world * option nat :=
  match w_plan w with
  | [] => (w, None)
  | ev :: plan =>
      (pass (ev_delay ev) (MkWorld (w_store w) plan (w_clock w) (w_known w)), ev_fault ev)
  end.

(** A pipeline on the server; when the connection breaks the server has
    executed a prefix. *)
Fixpoint pipe_all {A} (ps : list (script A)) (s : store) : store * list A :=
  match ps with
  | [] => (s, [])
  | p :: ps => let (s1, a) := p s in let (s2, l) := pipe_all ps s1 in (s2, a :: l)
  end.

Definition do_op {X} (o : op X) : world → world * X :=
  match o in op X return world → world * X with
  | Trip p => λ w,
      let (w', fault) := next w in
      match fault with
      | None => let (s, r) := p (w_store w') in (set_store s w', r)
      | Some 0 => (w', Err ErrNet)
      | Some (S _) => (set_store (fst (p (w_store w'))) w', Err ErrNet)
      end
  | Pipe ps => λ w,
      let (w', fault) := next w in
      match fault with
      | None => let (s, l) := pipe_all ps (w_store w') in (set_store s w', Ok l)
      | Some n => (set_store (fst (pipe_all (take n ps) (w_store w'))) w', Err ErrNet)
      end
  | Clock => λ w, (w, w_clock w)
  | Knows q => λ w, (w, bool_decide (q ∈ w_known w))
  | Learn q => λ w,
      (MkWorld (w_store w) (w_plan w) (w_clock w) ({[q]} ∪ w_known w), ())
  | Sleep ms => λ w, (pass ms w, ())
  end.

(** The program run to its end. *)
Fixpoint exec_M {A} (p : M A) (w : world) : world * result A :=
  match p with
  | Return r => (w, r)
  | Do o k => let (w', x) := do_op o w in exec_M (k x) w'
  end.

Coercion exec_M : M >-> Funclass.

Lemma exec_bind {A B} (p : M A) (f : A → M B) w :
  exec_M (p ≫= f) w = match exec_M p w with
                      | (w', Ok a) => exec_M (f a) w'
                      | (w', Err e) => (w', Err e)
                      end.
Proof.
  revert w. induction p as [[a|e]|X o k IH]; intros w; [done|done|].
  simpl. destruct (do_op o w) as [w' x]. apply IH.
Qed.

Lemma exec_try {A} (p : M A) w : exec_M (try p) w = let (w', r) := exec_M p w in (w', Ok r).
Proof.
  revert w. induction p as [r|X o k IH]; intros w; [done|].
  simpl. destruct (do_op o w) as [w' x]. apply IH.
Qed.

Lemma exec_wrap_err {A} prefix (p : M A) w :
  exec_M (wrap_err prefix p) w = match exec_M p w with
                                 | (w', Err e) => (w', Err (ErrWrapped prefix e))
                                 | r => r
                                 end.
Proof.
  revert w. induction p as [[a|e]|X o k IH]; intros w; [done|done|].
  simpl. destruct (do_op o w) as [w' x]. apply IH.
Qed.

(** ** Weakest preconditions of scripts *)

Definition wps {A} (p : script A) (Q : A → keyspace → Prop) (m : keyspace) : Prop :=
  ∀ s, ks s = m → Q (p s).2 (ks (p s).1).

Lemma wps_ret {A} (a : A) (Q : A → keyspace → Prop) m : Q a m → wps (mret a) Q m.
Proof. by intros HQ s <-. Qed.

Lemma wps_bind {A B} (p : script A) (f : A → script B) (Q : B → keyspace → Prop) m :
  wps p (λ a, wps (f a) Q) m → wps (p ≫= f) Q m.
Proof.
  intros Hp s Hs. specialize (Hp s Hs). unfold mbind, script_bind.
  destruct (p s) as [s' a]; simpl in *. by apply Hp.
Qed.

Lemma wps_fmap {A B} (f : A → B) (p : script A) (Q : B → keyspace → Prop) m :
  wps p (λ a, Q (f a)) m → wps (f <$> p) Q m.
Proof.
  intros Hp s Hs. specialize (Hp s Hs). unfold fmap, script_fmap.
  by destruct (p s).
Qed.

(** A command: any reply the server may give, with the effect that reply has. *)
Lemma wps_call {A} (c : cmd A) (Q : A → keyspace → Prop) m :
  (∀ r, cmd_reply c m r → Q r (cmd_effect c r m)) → wps (call c) Q m.
Proof.
  intros HQ s <-. unfold call. rewrite exec_effect. apply HQ, exec_reply.
Qed.

Lemma wps_mono {A} (p : script A) (P Q : A → keyspace → Prop) m :
  wps p P m → (∀ a m', P a m' → Q a m') → wps p Q m.
Proof. intros Hp HPQ s Hs. by apply HPQ, Hp. Qed.

(** A loop with an invariant over the part of the list done. *)
Lemma wps_foreach_inv {A} (I : list A → keyspace → Prop) (l : list A) (f : A → script ())
    (Q : () → keyspace → Prop) m :
  I [] m →
  (∀ l1 x l2 m', l = l1 ++ x :: l2 → I l1 m' → wps (f x) (λ _, I (l1 ++ [x])) m') →
  (∀ m', I l m' → Q () m') →
  wps (foreach l f) Q m.
Proof.
  intros H0 Hstep HQ.
  assert (∀ l1 l2 m', l = l1 ++ l2 → I l1 m' → wps (foreach l2 f) Q m') as Hgen.
  { intros l1 l2. revert l1. induction l2 as [|x l2 IH]; intros l1 m' Hl HI.
    - apply wps_ret, HQ. rewrite Hl. by rewrite app_nil_r.
    - apply wps_bind. eapply wps_mono; [by eapply Hstep|].
      intros [] m'' HI'. apply (IH (l1 ++ [x])); [by rewrite <- app_assoc|done]. }
  by apply (Hgen [] l m).
Qed.

(** ** Rules for Go code *)

Definition wks (w : world) : keyspace := ks (w_store w).

Lemma wks_set_store s w : wks (set_store s w) = ks s.
Proof. done. Qed.

Definition wpm {A} (p : M A) (Q : result A → world → Prop) (w : world) : Prop :=
  Q (exec_M p w).2 (exec_M p w).1.

Lemma wpm_ret {A} (a : A) (Q : result A → world → Prop) w :
  Q (Ok a) w → wpm (mret a) Q w.
Proof. done. Qed.

Lemma wpm_bind {A B} (p : M A) (f : A → M B) (Q : result B → world → Prop) w :
  wpm p (λ r w', match r with Ok a => wpm (f a) Q w' | Err e => Q (Err e) w' end) w →
  wpm (p ≫= f) Q w.
Proof. unfold wpm. rewrite exec_bind. by destruct (exec_M p w) as [w' [a|e]]. Qed.

Lemma wpm_knows q (Q : result bool → world → Prop) w :
  Q (Ok (bool_decide (q ∈ w_known w))) w → wpm (knows q) Q w.
Proof. done. Qed.

Lemma wpm_now (Q : result Z → world → Prop) w : Q (Ok (w_clock w)) w → wpm now Q w.
Proof. done. Qed.

Lemma wpm_learn q (Q : result () → world → Prop) w :
  Q (Ok ()) (MkWorld (w_store w) (w_plan w) (w_clock w) ({[q]} ∪ w_known w)) →
  wpm (learn q) Q w.
Proof. done. Qed.

Lemma wpm_sleep ms (Q : result () → world → Prop) w : Q (Ok ()) (pass ms w) → wpm (sleep ms) Q w.
Proof. done. Qed.

Lemma wpm_fail {A} e (Q : result A → world → Prop) w : Q (Err e) w → wpm (fail e) Q w.
Proof. done. Qed.

Lemma wpm_try {A} (p : M A) (Q : result (result A) → world → Prop) w :
  wpm p (λ r, Q (Ok r)) w → wpm (try p) Q w.
Proof. unfold wpm. rewrite exec_try. by destruct (exec_M p w). Qed.

Lemma wpm_wrap_err {A} prefix (p : M A) (Q : result A → world → Prop) w :
  wpm p (λ r, Q (match r with Err e => Err (ErrWrapped prefix e) | Ok a => Ok a end)) w →
  wpm (wrap_err prefix p) Q w.
Proof. unfold wpm. rewrite exec_wrap_err. by destruct (exec_M p w) as [w' [a|e]]. Qed.

Lemma wpm_mono {A} (p : M A) (P Q : result A → world → Prop) w :
  wpm p P w → (∀ r w', P r w' → Q r w') → wpm p Q w.
Proof. unfold wpm. auto. Qed.

(** What the wait for a round trip may change: only time passes. *)
Definition lapse (w w1 : world) : Prop :=
  w_known w1 = w_known w ∧ (w_clock w ≤ w_clock w1)%Z ∧
  (w1 = w ∨ ∃ dt, (0 ≤ dt)%Z ∧ wks w1 = elapse dt (wks w)).

(** No failure is planned. *)
Definition calm (w : world) : Prop := Forall (λ ev, ev_fault ev = None) (w_plan w).

Lemma next_spec w :
  lapse w (next w).1 ∧ ((next w).2 ≠ None → ¬ calm w) ∧ (calm w → calm (next w).1).
Proof.
  unfold lapse, next, calm. destruct (w_plan w) as [|ev plan] eqn:Hp; simpl.
  { rewrite Hp. split_and!; [done|lia|by left|done|done]. }
  split_and!; [done|unfold GoTime.Millisecond; lia| | |].
  - right. exists (Z.of_N (ev_delay ev)). split; [lia|].
    unfold wks; simpl. by rewrite elapse_effect by lia.
  - intros Hf Hc. by inversion Hc.
  - by inversion 1.
Qed.

(** One atomic round trip: its wait, then the reply of the script, or a
    failure before or after the server ran it. *)
Lemma wpm_round_trip {A} (p : script (result A)) (Q : result A → world → Prop) w :
  (∀ w1, lapse w w1 → (calm w → calm w1) →
     (¬ calm w → Q (Err ErrNet) w1) ∧
     wps p (λ r m', ∀ s', ks s' = m' →
        Q r (set_store s' w1) ∧ (¬ calm w → Q (Err ErrNet) (set_store s' w1))) (wks w1)) →
  wpm (round_trip p) Q w.
Proof.
  intros H. unfold wpm, round_trip. simpl. destruct (next_spec w) as (Hl & Hf & Hc).
  destruct (next w) as [w1 f]; simpl in *. destruct (H w1 Hl Hc) as [Hlost Hok].
  specialize (Hok (w_store w1) eq_refl).
  destruct f as [[|n]|]; simpl.
  - apply Hlost, Hf. done.
  - eapply Hok, Hf; done.
  - destruct (p (w_store w1)) as [s r]. by eapply Hok.
Qed.

Lemma wpm_run {A} (p : script A) (Q : result A → world → Prop) w :
  (∀ w1, lapse w w1 → (calm w → calm w1) →
     (¬ calm w → Q (Err ErrNet) w1) ∧
     wps p (λ r m', ∀ s', ks s' = m' →
        Q (Ok r) (set_store s' w1) ∧ (¬ calm w → Q (Err ErrNet) (set_store s' w1))) (wks w1)) →
  wpm (run p) Q w.
Proof.
  intros H. apply wpm_round_trip. intros w1 Hl Hc. destruct (H w1 Hl Hc) as [Hlost Hok].
  split; [done|]. by apply wps_fmap.
Qed.

(** ** Worlds where nothing is planned: round trips take no time and succeed *)

Definition quiet (w : world) : Prop := w_plan w = [].

Lemma round_trip_quiet {A} (p : script (result A)) w :
  quiet w → exec_M (round_trip p) w = (set_store (p (w_store w)).1 w, (p (w_store w)).2).
Proof.
  unfold quiet, round_trip. simpl. unfold next. intros ->. by destruct (p (w_store w)).
Qed.

Lemma wpm_round_trip_quiet {A} (p : script (result A)) (Q : result A → world → Prop) w :
  quiet w → wps p (λ r m', ∀ s', ks s' = m' → Q r (set_store s' w)) (wks w) →
  wpm (round_trip p) Q w.
Proof.
  intros Hq Hp. unfold wpm. rewrite round_trip_quiet by done.
  by apply (Hp (w_store w) eq_refl).
Qed.

Lemma wpm_run_quiet {A} (p : script A) (Q : result A → world → Prop) w :
  quiet w → wps p (λ r m', ∀ s', ks s' = m' → Q (Ok r) (set_store s' w)) (wks w) →
  wpm (run p) Q w.
Proof. intros Hq Hp. apply wpm_round_trip_quiet; [done|]. by apply wps_fmap. Qed.

(** A round trip that the plan loses before the server ran it. *)
Lemma wpm_run_lost {A} (p : script A) (Q : result A → world → Prop) d plan w :
  w_plan w = MkEvent d (Some 0) :: plan →
  Q (Err ErrNet) (pass d (MkWorld (w_store w) plan (w_clock w) (w_known w))) →
  wpm (run p) Q w.
Proof.
  intros Hp HQ. unfold wpm, run, round_trip. simpl. unfold next. by rewrite Hp.
Qed.

Lemma pipe_all_wps {A} (ps : list (script A)) (Q : list A → keyspace → Prop) m :
  wps (foldr (λ p k, a ← p; l ← k; mret (a :: l)) (mret []) ps) Q m →
  wps (pipe_all ps) Q m.
Proof.
  intros H s Hs. specialize (H s Hs). revert H. generalize (eq_refl (pipe_all ps s)).
  assert (foldr (λ p k, a ← p; l ← k; mret (a :: l)) (mret []) ps s = pipe_all ps s) as ->; [|done].
  clear. revert s. induction ps as [|p ps IH]; intros s; simpl; [done|].
  unfold mbind at 1, script_bind. destruct (p s) as [s1 a].
  unfold mbind, script_bind. rewrite IH. by destruct (pipe_all ps s1).
Qed.

Lemma wpm_pipeline_quiet {A} (ps : list (script A)) (Q : result (list A) → world → Prop) w :
  quiet w →
  wps (foldr (λ p k, a ← p; l ← k; mret (a :: l)) (mret []) ps)
    (λ l m', ∀ s', ks s' = m' → Q (Ok l) (set_store s' w)) (wks w) →
  wpm (pipeline ps) Q w.
Proof.
  intros Hq Hp. apply pipe_all_wps in Hp. specialize (Hp (w_store w) eq_refl).
  unfold wpm, pipeline. simpl. unfold next. unfold quiet in Hq. rewrite Hq.
  destruct (pipe_all ps (w_store w)). by apply Hp.
Qed.

End client.

Arguments Return {R A} r.
Arguments Do {R A X} o k.

(** Programs are reasoned about by the rules, not by unfolding them. *)
#[global] Arguments M_bind : simpl never.
#[global] Arguments try : simpl never.
#[global] Arguments wrap_err : simpl never.
#[global] Arguments round_trip : simpl never.
#[global] Arguments run : simpl never.
#[global] Arguments pipeline : simpl never.
#[global] Arguments now : simpl never.
#[global] Arguments knows : simpl never.
#[global] Arguments learn : simpl never.
#[global] Arguments sleep : simpl never.
#[global] Arguments exec_M : simpl never.
#[global] Arguments wpm : simpl never.

(** Apply the structural rules until a command or a named script is reached. *)
Ltac wps_steps :=
  repeat (apply wps_bind || apply wps_ret || apply wps_fmap
          || (apply wps_call; cbn [cmd_reply cmd_effect foldl]; intros ? ?; simplify_eq)).

End Client.
