(* ===== verification/RdbCore.v ===== *)
(** * internal/rdb: the task operations

    [rdb.go], [retry.go], [schedule.go] and [forward.go]: enqueueing,
    dequeueing through the consumer group, acknowledging, retrying,
    archiving, delayed tasks and the forwarder's script.  Lua scripts keep
    their Go names ([enqueueCmd], ...); their KEYS and ARGV are the
    arguments, in the source's order.  A Go method that sets a field of the
    message it is given works on [with_...] of that message. *)

From S2P Require Import Prelude GoLib Base Redis Client.

Module RdbCore.
Import GoTime GoFloat GoStr Keys Task Redis Client.

Definition ConsumerGroup : string := "chronos".

Section rdb.
Context `{R : Redis} `{J : Json} (K : Keys).

(** ** rdb.go *)

Definition registerQueue (qname : string) : M () :=
  known ← knows qname;
  if known : bool then mret () else
  run (call (SADD (QueuesKey K) [qname]));;
  learn qname.

Definition enqueueCmd (taskKey stream completed archived : string)
    (encoded : string) (state : Z) (id : string) : script Z :=
  call (HSET taskKey [("msg", encoded); ("state", itoa state)]);;
  call (XADD stream id);;
  call (ZREM completed id);;
  call (ZREM archived id);;
  mret 1%Z.

Definition Enqueue (msg : TaskMessage) : M () :=
  let msg := with_State StatePending msg in
  let encoded := EncodeMessage msg in
  registerQueue (m_Queue msg);;
  run (enqueueCmd (TaskKey K (m_Queue msg) (m_ID msg)) (StreamKey K (m_Queue msg))
         (CompletedKey K (m_Queue msg)) (ArchivedKey K (m_Queue msg))
         encoded StatePending (m_ID msg));;
  mret ().

(** A [BUSYGROUP] error is not an error. *)
Definition EnsureGroup (qname : string) : M () :=
  run (call (XGROUPCREATE (StreamKey K qname) ConsumerGroup));;
  mret ().

Record Dequeued := MkDequeued {
  dq_Msg : TaskMessage;
  dq_StreamID : sid;
}.

(** [pipe := r.client.TxPipeline(); pipe.XAck(...); pipe.XDel(...)]. *)
Definition ackDelete (streamKey : string) (ids : list sid) : script () :=
  call (XACK streamKey ConsumerGroup ids);;
  call (XDEL streamKey ids).

(** The classification loop over the bodies read: tasks to hand out and
    orphan entry ids; undecodable bodies are in neither. *)
Fixpoint classify (entries : list (sid * string)) (bodies : list (option string))
    : list Dequeued * list sid :=
  match entries, bodies with
  | (eid, _) :: entries, raw :: bodies =>
      let (tasks, orphans) := classify entries bodies in
      match raw with
      | None => (tasks, eid :: orphans)
      | Some raw =>
          match DecodeMessage raw with
          | None => (tasks, orphans)
          | Some msg => (MkDequeued (with_State StateActive msg) eid :: tasks, orphans)
          end
      end
  | _, _ => ([], [])
  end.

(** The [XREADGROUP] itself.  How long it blocks is the delay of its round
    trip; without a consumer group the server replies [NOGROUP]. *)
Definition readGroup (streamKey consumer : string) (count : Z) : M (list (sid * string)) :=
  round_trip
    (r ← call (XREADGROUP streamKey ConsumerGroup consumer count);
     mret match r with None => Err ErrNoGroup | Some es => Ok es end).

Definition DequeueBatch (consumer : string) (qname : string) (count : Z)
    : M (list Dequeued) :=
  let count := if bool_decide (count < 1)%Z then 1%Z else count in
  let streamKey := StreamKey K qname in
  entries ← readGroup streamKey consumer count;
  if bool_decide (entries = []) then fail ErrNoTask else
  bodies ← pipeline (map (λ e : sid * string, call (HGET (TaskKey K qname e.2) "msg")) entries);
  let (tasks, orphans) := classify entries bodies in
  (if bool_decide (orphans = []) then mret ()
   else try (run (ackDelete streamKey orphans));; mret ());;
  if bool_decide (tasks = []) then fail ErrNoTask else
  pipeline (map (λ d, call (HSET (TaskKey K qname (m_ID (dq_Msg d)))
                                  [("state", itoa StateActive)])) tasks);;
  mret tasks.

Definition Dequeue (consumer : string) (qname : string) : M (TaskMessage * sid) :=
  tasks ← DequeueBatch consumer qname 1;
  match tasks with
  | d :: _ => mret (dq_Msg d, dq_StreamID d)
  | [] => fail (ErrText "index out of range")   (* a panic in Go *)
  end.

Definition requeueCmd (stream taskKey : string) (group : string) (old : sid)
    (id : string) (pending : Z) : script Z :=
  call (XACK stream group [old]);;
  call (XDEL stream [old]);;
  ex ← call (EXISTS taskKey);
  (if ex : bool then
     call (HSET taskKey [("state", itoa pending)]);;
     call (XADD stream id);;
     mret ()
   else mret ());;
  mret 1%Z.

Definition Requeue (qname : string) (streamID : sid) (msg : TaskMessage) : M () :=
  run (requeueCmd (StreamKey K qname) (TaskKey K qname (m_ID msg))
         ConsumerGroup streamID (m_ID msg) StatePending);;
  mret ().

Definition releaseUniqueCmd (lock id : string) : script Z :=
  cur ← call (GET lock);
  (if bool_decide (cur = Some id) then call (DEL [lock]) else mret ());;
  mret 1%Z.

Definition releaseUnique (msg : TaskMessage) : M () :=
  if bool_decide (m_UniqueKey msg = "") then mret () else
  run (releaseUniqueCmd (m_UniqueKey msg) (m_ID msg));;
  mret ().

(** ** retry.go *)

Definition moveToZSetCmd (stream taskKey zset : string) (group : string) (old : sid)
    (encoded : string) (state : Z) (sc : score) (id : string) : script Z :=
  call (XACK stream group [old]);;
  call (XDEL stream [old]);;
  call (HSET taskKey [("msg", encoded); ("state", itoa state)]);;
  call (ZADD zset sc id);;
  mret 1%Z.

(** The integer score travels as decimal digits; the server reads a double. *)
Definition moveToZSet (qname : string) (streamID : sid) (msg : TaskMessage)
    (zsetKey : string) (state : Z) (score : Z) : M () :=
  let msg := with_State state msg in
  let encoded := EncodeMessage msg in
  run (moveToZSetCmd (StreamKey K qname) (TaskKey K qname (m_ID msg)) zsetKey
         ConsumerGroup streamID encoded state (ofInt score) (m_ID msg));;
  mret ().

Definition Retry (qname : string) (streamID : sid) (msg : TaskMessage) (retryAt : Z) : M () :=
  moveToZSet qname streamID msg (RetryKey K qname) StateRetry (Unix retryAt).

(** [Archive] releases the lock of the message [moveToZSet] mutated; the
    fields the release reads are not the mutated one. *)
Definition Archive (qname : string) (streamID : sid) (msg : TaskMessage) (diedAt : Z) : M () :=
  moveToZSet qname streamID msg (ArchivedKey K qname) StateArchived (Unix diedAt);;
  releaseUnique (with_State StateArchived msg).

(** [Done] of [rdb.go].  The transaction of the plain case: *)
Definition doneTx (stream taskKey : string) (streamID : sid) : script () :=
  call (XACK stream ConsumerGroup [streamID]);;
  call (XDEL stream [streamID]);;
  call (DEL [taskKey]).

Definition Done (qname : string) (streamID : sid) (msg : TaskMessage) : M () :=
  if bool_decide (0 < m_Retention msg)%Z then
    t ← now;
    let msg := with_CompletedAt (Unix t) msg in
    let expireAt := wrap64 (Unix t + m_Retention msg) in
    moveToZSet qname streamID msg (CompletedKey K qname) StateCompleted expireAt;;
    releaseUnique (with_State StateCompleted msg)
  else
    run (doneTx (StreamKey K qname) (TaskKey K qname (m_ID msg)) streamID);;
    releaseUnique msg.

(** ** schedule.go *)

Definition scheduleCmd (taskKey scheduled completed archived : string)
    (encoded : string) (state : Z) (sc : score) (id : string) : script Z :=
  call (HSET taskKey [("msg", encoded); ("state", itoa state)]);;
  call (ZADD scheduled sc id);;
  call (ZREM completed id);;
  call (ZREM archived id);;
  mret 1%Z.

(** [float64(t.Unix()) + float64(t.Nanosecond())/1e9]. *)
Definition scheduleScore (t : Z) : score :=
  fadd (ofInt (Unix t)) (nsFraction (Nanosecond t)).

Definition Schedule (msg : TaskMessage) (processAt : Z) : M () :=
  let msg := with_State StateScheduled msg in
  let encoded := EncodeMessage msg in
  registerQueue (m_Queue msg);;
  run (scheduleCmd (TaskKey K (m_Queue msg) (m_ID msg)) (ScheduledKey K (m_Queue msg))
         (CompletedKey K (m_Queue msg)) (ArchivedKey K (m_Queue msg))
         encoded StateScheduled (scheduleScore processAt) (m_ID msg));;
  mret ().

(** ** forward.go *)

Definition forwardCmd (source stream : string) (cutoff : score) (max : Z)
    (taskKeyPrefix : string) (pending : Z) : script Z :=
  ids ← call (ZRANGEBYSCORE source cutoff max);
  foreach ids (λ id,
    call (XADD stream id);;
    call (HSET (taskKeyPrefix +:+ id) [("state", itoa pending)]);;
    call (ZREM source id);;
    mret ());;
  mret (len ids).

Definition ForwardRetry (qname : string) (t : Z) (max : Z) : M Z :=
  run (forwardCmd (RetryKey K qname) (StreamKey K qname) (ofInt (Unix t)) max
         (TaskKeyPrefix K qname) StatePending).

Definition ForwardScheduled (qname : string) (t : Z) (max : Z) : M Z :=
  run (forwardCmd (ScheduledKey K qname) (StreamKey K qname) (scheduleScore t) max
         (TaskKeyPrefix K qname) StatePending).

End rdb.
End RdbCore.
