(* ===== verification/RdbLocks.v ===== *)
(** * internal/rdb: locks

    [unique.go] (the per-content unique lock), [periodic.go] (the
    per-trigger fence and the last-fired record), [leader.go] (the
    scheduler's leader lock), [heartbeat.go] (lease and lock renewal) and
    [pause.go]. *)

From S2P Require Import Prelude GoLib Base Redis Client RdbCore.
From Stdlib Require Import Ascii.

Module RdbLocks.
Import GoTime GoFloat GoStr Keys Task Redis Client RdbCore.

(** [strconv.ParseInt(s, 10, 64)]: an optional sign, at least one digit,
    within 64 bits. *)
Fixpoint parseDigits (acc : Z) (l : list ascii) : option Z :=
  match l with
  | [] => Some acc
  | c :: l =>
      let d := (code c - 48)%Z in
      if bool_decide (0 ≤ d ≤ 9)%Z then parseDigits (10 * acc + d)%Z l else None
  end.

Definition ParseInt (s : string) : option Z :=
  let digits l := match l with [] => None | _ => parseDigits 0 l end in
  let checked v := if decide (in_int64 v) then Some v else None in
  match chars s with
  | "-"%char :: l => v ← digits l; checked (- v)%Z
  | "+"%char :: l => v ← digits l; checked v
  | l => v ← digits l; checked v
  end.

(** A lifetime in milliseconds, at least one ([SET PX 0] is an error). *)
Definition uniqueTTLMillis (ttl : Z) : Z :=
  let ms := Milliseconds ttl in
  if bool_decide (ms < 1)%Z then 1%Z else ms.

Section rdb.
Context `{R : Redis} `{J : Json} (K : Keys).

(** ** unique.go *)

Definition enqueueUniqueCmd (lock taskKey stream completed archived : string)
    (id : string) (ttl : Z) (encoded : string) (state : Z) : script Z :=
  got ← call (SETNXPX lock id ttl);
  if negb got then mret (-1)%Z else
  call (HSET taskKey [("msg", encoded); ("state", itoa state)]);;
  call (XADD stream id);;
  call (ZREM completed id);;
  call (ZREM archived id);;
  mret 1%Z.

Definition scheduleUniqueCmd (lock taskKey scheduled completed archived : string)
    (id : string) (ttl : Z) (encoded : string) (state : Z) (sc : score) : script Z :=
  got ← call (SETNXPX lock id ttl);
  if negb got then mret (-1)%Z else
  call (HSET taskKey [("msg", encoded); ("state", itoa state)]);;
  call (ZADD scheduled sc id);;
  call (ZREM completed id);;
  call (ZREM archived id);;
  mret 1%Z.

Section unique.
Context (sha256hex : bytes → string).

(** The message with the lock key derived from its kind and payload. *)
Definition lockKey (msg : TaskMessage) : string :=
  UniqueKey K (m_Queue msg) (UniqueSuffix sha256hex (m_Kind msg) (m_Payload msg)).

Definition EnqueueUnique (msg : TaskMessage) (uniqueTTL : Z) : M () :=
  let msg := with_UniqueKey (lockKey msg) msg in
  let msg := with_State StatePending msg in
  let encoded := EncodeMessage msg in
  registerQueue K (m_Queue msg);;
  res ← run (enqueueUniqueCmd (m_UniqueKey msg) (TaskKey K (m_Queue msg) (m_ID msg))
               (StreamKey K (m_Queue msg)) (CompletedKey K (m_Queue msg))
               (ArchivedKey K (m_Queue msg))
               (m_ID msg) (uniqueTTLMillis uniqueTTL) encoded StatePending);
  if bool_decide (res = (-1)%Z) then fail ErrDuplicateTask else mret ().

Definition ScheduleUnique (msg : TaskMessage) (processAt uniqueTTL : Z) : M () :=
  let msg := with_UniqueKey (lockKey msg) msg in
  let msg := with_State StateScheduled msg in
  let encoded := EncodeMessage msg in
  registerQueue K (m_Queue msg);;
  res ← run (scheduleUniqueCmd (m_UniqueKey msg) (TaskKey K (m_Queue msg) (m_ID msg))
               (ScheduledKey K (m_Queue msg)) (CompletedKey K (m_Queue msg))
               (ArchivedKey K (m_Queue msg))
               (m_ID msg) (uniqueTTLMillis uniqueTTL) encoded StateScheduled
               (scheduleScore processAt));
  if bool_decide (res = (-1)%Z) then fail ErrDuplicateTask else mret ().

End unique.

(** ** periodic.go *)

Definition enqueuePeriodicCmd (dedup taskKey stream completed archived : string)
    (id : string) (ttl : Z) (encoded : string) (state : Z) : script Z :=
  got ← call (SETNXPX dedup "1" ttl);
  if negb got then mret (-1)%Z else
  call (HSET taskKey [("msg", encoded); ("state", itoa state)]);;
  call (XADD stream id);;
  call (ZREM completed id);;
  call (ZREM archived id);;
  mret 1%Z.

Definition EnqueuePeriodic (msg : TaskMessage) (triggerID : string) (dedupTTL : Z) : M () :=
  let dedupKey := PeriodicDedupKey K (m_Queue msg) triggerID in
  let msg := with_State StatePending msg in
  let encoded := EncodeMessage msg in
  registerQueue K (m_Queue msg);;
  let ms := Milliseconds dedupTTL in
  let ms := if bool_decide (ms < 1)%Z then 1%Z else ms in
  res ← run (enqueuePeriodicCmd dedupKey (TaskKey K (m_Queue msg) (m_ID msg))
               (StreamKey K (m_Queue msg)) (CompletedKey K (m_Queue msg))
               (ArchivedKey K (m_Queue msg)) (m_ID msg) ms encoded StatePending);
  if bool_decide (res = (-1)%Z) then fail ErrDuplicateTask else mret ().

Definition SetLastFired (scheduleID : string) (when : Z) : M () :=
  run (call (SET (ScheduleLastFiredKey K scheduleID) (itoa (Unix when)))).

(** [None] is the answer [ok = false]. *)
Definition GetLastFired (scheduleID : string) : M (option Z) :=
  raw ← run (call (GET (ScheduleLastFiredKey K scheduleID)));
  match raw with
  | None => mret None
  | Some raw =>
      match ParseInt raw with
      | None => fail ErrParse
      | Some sec => mret (Some (sec * Second)%Z)
      end
  end.

(** ** leader.go *)

Definition acquireOrRenewCmd (leader instanceID : string) (ttl : Z) : script Z :=
  cur ← call (GET leader);
  match cur with
  | None => call (SETPX leader instanceID ttl);; mret 1%Z
  | Some cur =>
      if bool_decide (cur = instanceID) then call (PEXPIRE leader ttl);; mret 1%Z
      else mret 0%Z
  end.

Definition resignCmd (leader instanceID : string) : script Z :=
  cur ← call (GET leader);
  if bool_decide (cur = Some instanceID) then call (DEL [leader]);; mret 1%Z
  else mret 0%Z.

Definition AcquireOrRenewLeadership (instanceID : string) (ttl : Z) : M bool :=
  let ms := Milliseconds ttl in
  let ms := if bool_decide (ms < 1)%Z then 1%Z else ms in
  res ← run (acquireOrRenewCmd (LeaderKey K) instanceID ms);
  mret (bool_decide (res = 1%Z)).

Definition ResignLeadership (instanceID : string) : M () :=
  run (resignCmd (LeaderKey K) instanceID);;
  run (call (PUBLISH (LeaderResignChannel K) instanceID)).

(** ** heartbeat.go *)

Definition ExtendLease (qname consumer : string) (streamIDs : list sid) : M () :=
  if bool_decide (streamIDs = []) then mret () else
  run (call (XCLAIMJUSTID (StreamKey K qname) ConsumerGroup consumer streamIDs)).

Definition renewUniqueCmd (lock : string) (ms : Z) : script Z :=
  ttl ← call (PTTL lock);
  (if bool_decide (0 ≤ ttl ∧ ttl < ms)%Z then call (PEXPIRE lock ms) else mret ());;
  mret 1%Z.

Definition RenewUnique (uniqueKeys : list string) (ttl : Z) : M () :=
  if bool_decide (uniqueKeys = []) then mret () else
  let ms := uniqueTTLMillis ttl in
  pipeline (map (λ k, renewUniqueCmd k ms) uniqueKeys);;
  mret ().

(** ** pause.go *)

Definition PauseQueue (qname : string) : M () := run (call (SADD (PausedKey K) [qname])).
Definition ResumeQueue (qname : string) : M () := run (call (SREM (PausedKey K) qname)).
Definition PausedQueues : M (list string) := run (call (SMEMBERS (PausedKey K))).

End rdb.
End RdbLocks.
