(* ===== verification/RdbFlow.v ===== *)
(** * internal/rdb: chains and groups

    [chain.go] (create-if-absent of a chain's next link) and [group.go] (the
    fan-in barrier: a SET of members not yet done, a HASH of their results,
    and the callback created when the SET runs empty). *)

From S2P Require Import Prelude GoLib Base Redis Client RdbCore.

Module RdbFlow.
Import GoTime GoFloat GoStr Keys Task Redis Client RdbCore.

Section rdb.
Context `{R : Redis} `{J : Json} (K : Keys).

(** ** chain.go *)

Definition chainEnqueueCmd (taskKey stream : string) (encoded : string) (state : Z)
    (id : string) : script Z :=
  ex ← call (EXISTS taskKey);
  if ex : bool then mret 0%Z else
  call (HSET taskKey [("msg", encoded); ("state", itoa state)]);;
  call (XADD stream id);;
  mret 1%Z.

Definition chainScheduleCmd (taskKey scheduled : string) (encoded : string) (state : Z)
    (sc : score) (id : string) : script Z :=
  ex ← call (EXISTS taskKey);
  if ex : bool then mret 0%Z else
  call (HSET taskKey [("msg", encoded); ("state", itoa state)]);;
  call (ZADD scheduled sc id);;
  mret 1%Z.

Definition EnqueueChainLink (msg : TaskMessage) (delay : Z) : M bool :=
  registerQueue K (m_Queue msg);;
  if bool_decide (0 < delay)%Z then
    let msg := with_State StateScheduled msg in
    let encoded := EncodeMessage msg in
    t ← now;
    n ← run (chainScheduleCmd (TaskKey K (m_Queue msg) (m_ID msg))
               (ScheduledKey K (m_Queue msg)) encoded StateScheduled
               (ofInt (Unix (t + delay))) (m_ID msg));
    mret (bool_decide (n = 1%Z))
  else
    let msg := with_State StatePending msg in
    let encoded := EncodeMessage msg in
    n ← run (chainEnqueueCmd (TaskKey K (m_Queue msg) (m_ID msg))
               (StreamKey K (m_Queue msg)) encoded StatePending (m_ID msg));
    mret (bool_decide (n = 1%Z)).

(** ** group.go *)

Definition GroupTTL : Z := 7 * 24 * Hour.
Definition groupTTLSeconds : Z := (GroupTTL `quot` Second)%Z.

(** [EXPIRE key seconds]. *)
Definition expire (key : string) (seconds : Z) : script () :=
  call (PEXPIRE key (1000 * seconds)%Z).

(** Where the script puts the callback: [ARGV[5]] and [ARGV[6]]. *)
Inductive dest :=
  | ToStream
  | ToZSet (sc : score).

(** The results read back one by one: [for i = 0, n - 1]. *)
Fixpoint readResults (resultKey : string) (i : Z) (n : nat) : script (list (option string)) :=
  match n with
  | 0 => mret []
  | S n =>
      v ← call (HGET resultKey (itoa i));
      vs ← readResults resultKey (i + 1)%Z n;
      mret (v :: vs)
  end.

Definition groupCompleteCmd (groupKey cbTaskKey destKey resultKey : string)
    (member : string) (encoded : string) (state : Z) (cbID : string) (mode : dest)
    (ttl : Z) (resultB64 : string) (index size : Z) : script Z :=
  ex ← call (EXISTS groupKey);
  if negb ex then mret 0%Z else
  call (SREM groupKey member);;
  (if bool_decide (resultB64 = "") then mret () else
     call (HSET resultKey [(itoa index, resultB64)]);;
     expire resultKey ttl);;
  left ← call (SCARD groupKey);
  if bool_decide (0 < left)%Z then
    expire groupKey ttl;;
    exr ← call (EXISTS resultKey);
    (if exr : bool then expire resultKey ttl else mret ());;
    mret 0%Z
  else
    exr ← call (EXISTS resultKey);
    cb ← (if exr && bool_decide (0 < size)%Z then
            results ← readResults resultKey 0 (Z.to_nat size);
            mret (cjsonSetGroupResults encoded results)
          else mret encoded);
    call (DEL [groupKey; resultKey]);;
    exc ← call (EXISTS cbTaskKey);
    if exc : bool then mret 0%Z else
    call (HSET cbTaskKey [("msg", cb); ("state", itoa state)]);;
    (match mode with
     | ToStream => call (XADD destKey cbID);; mret ()
     | ToZSet sc => call (ZADD destKey sc cbID)
     end);;
    mret 1%Z.

Definition createGroupTx (key : string) (memberIDs : list string) : script () :=
  call (SADD key memberIDs);;
  call (PEXPIRE key (Milliseconds GroupTTL)).

Definition CreateGroup (cbQueue groupID : string) (memberIDs : list string) : M () :=
  if bool_decide (memberIDs = []) then
    fail (ErrText "chronos: group needs at least one member")
  else run (createGroupTx (GroupKey K cbQueue groupID) memberIDs).

Definition GroupStageDone : Z := 0.
Definition GroupStageExists : Z := 1.
Definition GroupStageCreated : Z := 2.

Definition createGroupIfAbsentCmd (groupKey cbTaskKey resultKey : string)
    (ttl : Z) (memberIDs : list string) : script Z :=
  exc ← call (EXISTS cbTaskKey);
  if exc : bool then mret 0%Z else
  exg ← call (EXISTS groupKey);
  if exg : bool then expire groupKey ttl;; mret 1%Z else
  foreach memberIDs (λ id, call (SADD groupKey [id]));;
  expire groupKey ttl;;
  call (DEL [resultKey]);;
  mret 2%Z.

Definition CreateGroupIfAbsent (cbQueue groupID : string) (memberIDs : list string)
    (cbTaskID : string) : M Z :=
  if bool_decide (memberIDs = []) then
    fail (ErrText "chronos: group needs at least one member")
  else run (createGroupIfAbsentCmd (GroupKey K cbQueue groupID)
              (TaskKey K cbQueue cbTaskID) (GroupResultKey K cbQueue groupID)
              groupTTLSeconds memberIDs).

(** The callback a member's message carries, as a message. *)
Definition callbackMessage (member : TaskMessage) (link : ChainLink) : TaskMessage :=
  let cb := newMessage (m_GroupID member +:+ ":cb") (cl_Kind link) (cl_Payload link)
              (cl_Queue link) (cl_MaxRetry link) (cl_NoArchive link) (cl_Retention link) in
  if bool_decide (m_GroupCallbackChain member = []) then cb
  else with_ChainIndex (m_ChainIndex member)
         (with_ChainID (m_ChainID member) (with_Chain (m_GroupCallbackChain member) cb)).

(** The member's slot in the pending SET: its own ID unless it says otherwise. *)
Definition memberSlot (member : TaskMessage) : string :=
  if bool_decide (m_GroupMemberID member = "") then m_ID member else m_GroupMemberID member.

Definition CompleteGroupMember (member : TaskMessage) : M bool :=
  match m_GroupCallback member with
  | None => fail (ErrText "chronos: group member has no callback snapshot")
  | Some link =>
      if negb (bool_decide (m_GroupQueue member = cl_Queue link)) then
        fail (ErrText "chronos: group state and callback must live on the callback queue")
      else
      let cb := callbackMessage member link in
      registerQueue K (m_Queue cb);;
      t ← now;
      let delayed := bool_decide (0 < cl_Delay link)%Z in
      let state := if delayed then StateScheduled else StatePending in
      let mode := if delayed
                  then ToZSet (ofInt (Unix (t + wrap64 (cl_Delay link * Second))))
                  else ToStream in
      let destKey := if delayed then ScheduledKey K (m_Queue cb) else StreamKey K (m_Queue cb) in
      let cb := with_State state cb in
      let encoded := EncodeMessage cb in
      let resultB64 := if bool_decide (m_Result member = "") then ""
                       else Base64.EncodeToString (m_Result member) in
      n ← run (groupCompleteCmd (GroupKey K (m_GroupQueue member) (m_GroupID member))
                 (TaskKey K (m_Queue cb) (m_ID cb)) destKey
                 (GroupResultKey K (m_GroupQueue member) (m_GroupID member))
                 (memberSlot member) encoded state (m_ID cb) mode groupTTLSeconds
                 resultB64 (m_GroupIndex member) (m_GroupSize member));
      mret (bool_decide (n = 1%Z))
  end.

Definition GroupMembers (cbQueue groupID : string) : M (list string) :=
  run (call (SMEMBERS (GroupKey K cbQueue groupID))).

Definition GroupPending (cbQueue groupID : string) : M Z :=
  run (call (SCARD (GroupKey K cbQueue groupID))).

End rdb.
End RdbFlow.
