(* ===== verification/RdbAdmin.v ===== *)
(** * internal/rdb: maintenance and inspection

    [janitor.go], [recover.go], [inspect.go] and [registry.go]. *)

From S2P Require Import Prelude GoLib Base Redis Client RdbCore RdbLocks.
From Stdlib Require Import Ascii.

Module RdbAdmin.
Import GoTime GoFloat GoStr Keys Task Redis Client RdbCore RdbLocks.

(** [ScheduleMeta] of [registry.go]; the ID is the hash field, not part of
    the JSON value. *)
Record ScheduleMeta := MkScheduleMeta {
  sm_ID : string;
  sm_Kind : string;
  sm_Queue : string;
  sm_Spec : string;
  sm_RegisteredAt : Z;
  sm_LastSeen : Z;
}.

Definition with_ID (v : string) (m : ScheduleMeta) : ScheduleMeta :=
  MkScheduleMeta v (sm_Kind m) (sm_Queue m) (sm_Spec m) (sm_RegisteredAt m) (sm_LastSeen m).
Definition with_LastSeen (v : Z) (m : ScheduleMeta) : ScheduleMeta :=
  MkScheduleMeta (sm_ID m) (sm_Kind m) (sm_Queue m) (sm_Spec m) (sm_RegisteredAt m) v.
Definition with_RegisteredAt (v : Z) (m : ScheduleMeta) : ScheduleMeta :=
  MkScheduleMeta (sm_ID m) (sm_Kind m) (sm_Queue m) (sm_Spec m) v (sm_LastSeen m).

Definition utf8_meta (m : ScheduleMeta) : bool :=
  Utf8.valid (sm_Kind m) && Utf8.valid (sm_Queue m) && Utf8.valid (sm_Spec m).

(** [encoding/json] at type [ScheduleMeta]. *)
Class MetaJson := {
  MarshalMeta : ScheduleMeta → string;
  UnmarshalMeta : string → option ScheduleMeta;
  UnmarshalMeta_MarshalMeta m :
    utf8_meta m = true → UnmarshalMeta (MarshalMeta m) = Some (with_ID "" m);
}.

Section rdb.
Context `{R : Redis} `{J : Json} (K : Keys).

(** ** janitor.go *)

(** Delete the task hash and the ZSET member of each ID. *)
Definition removeAll (zset taskKeyPrefix : string) (ids : list string) : script () :=
  foreach ids (λ id,
    call (DEL [taskKeyPrefix +:+ id]);;
    call (ZREM zset id);;
    mret ()).

Definition trimArchivedCmd (zset : string) (cutoff : score) (batch : Z)
    (taskKeyPrefix : string) (maxSize : Z) : script Z :=
  expired ← call (ZRANGEBYSCORE zset cutoff batch);
  removeAll zset taskKeyPrefix expired;;
  if bool_decide (0 ≤ maxSize)%Z then
    card ← call (ZCARD zset);
    let over := (card - maxSize)%Z in
    if bool_decide (0 < over)%Z then
      let over := if bool_decide (batch < over)%Z then batch else over in
      excess ← call (ZRANGE zset 0 (over - 1));
      removeAll zset taskKeyPrefix (map fst excess);;
      mret (len expired + len excess)%Z
    else mret (len expired)
  else mret (len expired).

Definition TrimArchived (qname : string) (cutoff : Z) (maxSize batch : Z) : M Z :=
  run (trimArchivedCmd (ArchivedKey K qname) (ofInt (Unix cutoff)) batch
         (TaskKeyPrefix K qname) maxSize).

Definition TrimCompleted (qname : string) (t : Z) (maxSize batch : Z) : M Z :=
  run (trimArchivedCmd (CompletedKey K qname) (ofInt (Unix t)) batch
         (TaskKeyPrefix K qname) maxSize).

(** ** recover.go *)

Definition autoClaim (streamKey consumer : string) (minIdle max : Z) : M (list (sid * string)) :=
  round_trip
    (r ← call (XAUTOCLAIM streamKey ConsumerGroup consumer (Milliseconds minIdle) max);
     mret match r with None => Err ErrNoGroup | Some es => Ok es end).

(** The named results of [Recover]: they are all returned, also with an
    error. *)
Record recovery := MkRecovery {
  rc_recovered : Z;
  rc_archived : list TaskMessage;
  rc_err : option err;
}.

Definition rc_fail (e : err) (a : recovery) : recovery :=
  MkRecovery (rc_recovered a) (rc_archived a) (Some e).

(** One iteration of the loop over the claimed entries. *)
Definition recoverEntry (qname : string) (t : Z) (acc : recovery) (m : sid * string)
    : M recovery :=
  let (eid, taskID) := m in
  raw ← try (run (call (HGET (TaskKey K qname taskID) "msg")));
  match raw with
  | Err e => mret (rc_fail e acc)
  | Ok None =>
      try (run (ackDelete (StreamKey K qname) [eid]));;
      mret acc
  | Ok (Some raw) =>
      match DecodeMessage raw with
      | None => mret (rc_fail ErrDecode acc)
      | Some msg =>
          if bool_decide (m_MaxRetry msg ≤ m_Retried msg)%Z then
            r ← try (Archive K qname eid msg t);
            match r with
            | Err e => mret (rc_fail e acc)
            | Ok _ => mret (MkRecovery (rc_recovered acc)
                             (rc_archived acc ++ [with_State StateArchived msg]) (rc_err acc))
            end
          else
            let msg := with_Retried (m_Retried msg + 1)%Z msg in
            r ← try (Retry K qname eid msg t);
            match r with
            | Err e => mret (rc_fail e acc)
            | Ok _ => mret (MkRecovery (rc_recovered acc + 1)%Z (rc_archived acc) (rc_err acc))
            end
      end
  end.

Definition Recover (qname consumer : string) (minIdle max : Z) : M recovery :=
  msgs ← try (autoClaim (StreamKey K qname) consumer minIdle max);
  match msgs with
  | Err e => mret (MkRecovery 0 [] (Some e))
  | Ok msgs =>
      t ← now;
      go_foldl (recoverEntry qname t) (MkRecovery 0 [] None) msgs
  end.

(** ** inspect.go *)

Record QueueStats := MkQueueStats {
  qs_Queue : string;
  qs_Pending : Z;
  qs_Active : Z;
  qs_Scheduled : Z;
  qs_Retry : Z;
  qs_Archived : Z;
  qs_Completed : Z;
}.

Definition queueStats (qname : string) : M QueueStats :=
  let streamKey := StreamKey K qname in
  xlen ← run (call (XLEN streamKey));
  pending ← run (call (XPENDING streamKey ConsumerGroup));
  let active := match pending with Some n => n | None => 0%Z end in
  scheduled ← run (call (ZCARD (ScheduledKey K qname)));
  retry ← run (call (ZCARD (RetryKey K qname)));
  archived ← run (call (ZCARD (ArchivedKey K qname)));
  completed ← run (call (ZCARD (CompletedKey K qname)));
  let streamPending := (xlen - active)%Z in
  let streamPending := if bool_decide (streamPending < 0)%Z then 0%Z else streamPending in
  mret (MkQueueStats qname streamPending active scheduled retry archived completed).

Definition Queues : M (list string) := run (call (SMEMBERS (QueuesKey K))).

Definition GroupMemberIDs (cbQueue groupID : string) : M (list string) :=
  run (call (SMEMBERS (GroupKey K cbQueue groupID))).

Definition LeaderID : M string :=
  id ← run (call (GET (LeaderKey K)));
  mret (default "" id).

(** [strings.Index(pattern, "*")] and the two halves around it. *)
Fixpoint cutStar (l : list ascii) : list ascii * list ascii :=
  match l with
  | [] => ([], [])
  | c :: l =>
      if decide (c = "*"%char) then ([], l)
      else let (a, b) := cutStar l in (c :: a, b)
  end.

(** [strings.TrimPrefix] and [strings.TrimSuffix]. *)
Definition trimPrefix (pre l : list ascii) : list ascii :=
  if decide (pre `prefix_of` l) then drop (length pre) l else l.
Definition trimSuffix (suf l : list ascii) : list ascii :=
  if decide (suf `suffix_of` l) then take (length l - length suf) l else l.

Record ScheduleFireInfo := MkScheduleFireInfo {
  sf_ID : string;
  sf_LastFired : Z;
}.

(** The keys are read one by one; a key that is gone or does not hold an
    integer is skipped.  On a single server the cursor walk is one [SCAN]. *)
Definition scanStep (pre suf : list ascii) (out : list ScheduleFireInfo) (key : string)
    : M (list ScheduleFireInfo) :=
  raw ← run (call (GET key));
  match raw with
  | None => mret out
  | Some raw =>
      match ParseInt raw with
      | None => mret out
      | Some ts =>
          let id := ofChars (trimSuffix suf (trimPrefix pre (chars key))) in
          mret (out ++ [MkScheduleFireInfo id ts])
      end
  end.

Definition ScanSchedules : M (list ScheduleFireInfo) :=
  let pattern := ScheduleLastFiredKey K "*" in
  let (pre, suf) := cutStar (chars pattern) in
  keys ← run (call (SCAN (ofChars (pre ++ "*"%char :: suf))));
  go_foldl (scanStep pre suf) [] keys.

(** [GetTask]: [ErrNil] when the hash or its field is absent. *)
Definition GetTask (qname taskID : string) : M TaskMessage :=
  raw ← run (call (HGET (TaskKey K qname taskID) "msg"));
  match raw with
  | None => fail ErrNil
  | Some raw => match DecodeMessage raw with None => fail ErrDecode | Some m => mret m end
  end.

Record ZSetTask := MkZSetTask { zt_Msg : TaskMessage; zt_Score : score }.

Definition listStep (qname : string) (acc : list ZSetTask) (z : string * score)
    : M (list ZSetTask) :=
  r ← try (GetTask qname z.1);
  match r with
  | Ok msg => mret (acc ++ [MkZSetTask msg z.2])
  | Err ErrNil => mret acc
  | Err e => fail e
  end.

Definition ListZSetTasks (qname zsetKey : string) (limit : Z) : M (list ZSetTask) :=
  if bool_decide (limit ≤ 0)%Z then mret [] else
  zs ← run (call (ZRANGE zsetKey 0 (limit - 1)));
  go_foldl (listStep qname) [] zs.

Definition ZScore (zsetKey taskID : string) : M (option score) :=
  run (call (ZSCORE zsetKey taskID)).

Definition TaskState (qname taskID : string) : M Z :=
  raw ← run (call (HGET (TaskKey K qname taskID) "state"));
  match raw with
  | None => fail ErrNil
  | Some raw => match ParseInt raw with None => fail ErrParse | Some v => mret v end
  end.

Definition runTaskCmd (scheduled retry archived completed stream taskKey : string)
    (id : string) (pending : Z) : script Z :=
  r1 ← call (ZREM scheduled id);
  r2 ← call (ZREM retry id);
  r3 ← call (ZREM archived id);
  r4 ← call (ZREM completed id);
  if bool_decide (r1 + r2 + r3 + r4 = 0)%Z then mret 0%Z else
  ex ← call (EXISTS taskKey);
  if negb ex then mret 0%Z else
  call (XADD stream id);;
  call (HSET taskKey [("state", itoa pending)]);;
  mret 1%Z.

Definition ZSetKeyForState (qname state : string) : option string :=
  if decide (state = "scheduled") then Some (ScheduledKey K qname)
  else if decide (state = "retry") then Some (RetryKey K qname)
  else if decide (state = "archived") then Some (ArchivedKey K qname)
  else if decide (state = "completed") then Some (CompletedKey K qname)
  else None.

Definition RunTask (qname taskID : string) : M () :=
  run (runTaskCmd (ScheduledKey K qname) (RetryKey K qname) (ArchivedKey K qname)
         (CompletedKey K qname) (StreamKey K qname) (TaskKey K qname taskID)
         taskID StatePending);;
  mret ().

Definition deleteTx (qname taskID : string) : script () :=
  call (ZREM (ScheduledKey K qname) taskID);;
  call (ZREM (RetryKey K qname) taskID);;
  call (ZREM (ArchivedKey K qname) taskID);;
  call (ZREM (CompletedKey K qname) taskID);;
  call (DEL [TaskKey K qname taskID]).

Definition DeleteTask (qname taskID : string) : M () :=
  r ← try (GetTask qname taskID);
  match r with
  | Err ErrNil => run (deleteTx qname taskID)
  | Err e => fail e
  | Ok msg => run (deleteTx qname taskID);; releaseUnique msg
  end.

(** ** registry.go *)

Section registry.
Context `{MJ : MetaJson}.

Definition RegisterSchedules (metas : list ScheduleMeta) : M () :=
  if bool_decide (metas = []) then mret () else
  t ← now;
  let pairs := map (λ m, (sm_ID m,
      MarshalMeta (with_LastSeen (Unix t) (with_RegisteredAt (Unix t) m)))) metas in
  run (call (HSET (SchedulesKey K) pairs)).

(** Fields present and decodable, with their last_seen refreshed. *)
Fixpoint touched (t : Z) (ids : list string) (vals : list (option string))
    : list (string * string) :=
  match ids, vals with
  | id :: ids, v :: vals =>
      match v ≫= UnmarshalMeta with
      | Some m => (id, MarshalMeta (with_LastSeen t m)) :: touched t ids vals
      | None => touched t ids vals
      end
  | _, _ => []
  end.

Definition TouchSchedules (ids : list string) : M () :=
  if bool_decide (ids = []) then mret () else
  vals ← run (call (HMGET (SchedulesKey K) ids));
  t ← now;
  let pairs := touched (Unix t) ids vals in
  if bool_decide (pairs = []) then mret () else
  run (call (HSET (SchedulesKey K) pairs)).

(** The registry fields [PruneSchedules] removes. *)
Definition prunable (keepIDs : list string) (cutoff : Z) (f : string * string) : bool :=
  if bool_decide (f.1 ∈ keepIDs) then false
  else match UnmarshalMeta f.2 with
       | None => false
       | Some m => bool_decide (sm_LastSeen m < cutoff)%Z
       end.

Definition dropLastFired (acc : ()) (f : string) : M () :=
  try (run (call (DEL [ScheduleLastFiredKey K f])));; mret ().

Definition PruneSchedules (keepIDs : list string) (staleBefore : Z) : M Z :=
  all ← run (call (HGETALL (SchedulesKey K)));
  let fields := map fst (filter (λ f, prunable keepIDs (Unix staleBefore) f = true) all) in
  if bool_decide (fields = []) then mret 0%Z else
  run (call (HDEL (SchedulesKey K) fields));;
  go_foldl dropLastFired () fields;;
  mret (len fields).

Definition ListSchedules : M (list ScheduleMeta) :=
  all ← run (call (HGETALL (SchedulesKey K)));
  mret (omap (M := list) (λ f, with_ID f.1 <$> UnmarshalMeta f.2) all).

End registry.
End rdb.
End RdbAdmin.
