(* ===== verification/Instances.v ===== *)
(** * Reference instances of the interfaces

    [RefRedis] is a server that keeps exactly the observed data and answers
    deterministically; [RefJson] and [RefMetaJson] are injective encodings.
    They show that the laws of the interfaces can hold together, and let the
    development's definitions run on concrete inputs. *)

From S2P Require Import Prelude GoLib Base Redis Client RdbAdmin.
From Stdlib Require Import Ascii DecimalString DecimalZ.

Module RefRedis.
Import GoFloat Redis.

(** A reply the specification allows. *)
Definition ref_reply {A} (c : cmd A) (m : keyspace) : A :=
  match c in cmd A return A with
  | GET k => k_str m !! k
  | SET _ _ => ()
  | SETPX _ _ _ => ()
  | SETNXPX k _ _ => negb (key_exists m k)
  | DEL _ => ()
  | EXISTS k => key_exists m k
  | PTTL k => if key_exists m k
              then match k_exp m !! k with Some d => d - k_now m | None => -1 end%Z
              else (-2)%Z
  | PEXPIRE _ _ => ()
  | HSET _ _ => ()
  | HGET k f => hget m k f
  | HMGET k fs => map (hget m k) fs
  | HGETALL k => map_to_list (hash_at m k)
  | HDEL _ _ => ()
  | SADD _ _ => ()
  | SREM _ _ => ()
  | SCARD k => Z.of_nat (size (set_at m k))
  | SMEMBERS k => elements (set_at m k)
  | ZADD _ _ _ => ()
  | ZREM k x => if decide (is_Some (zset_at m k !! x)) then 1%Z else 0%Z
  | ZCARD k => Z.of_nat (size (zset_at m k))
  | ZSCORE k x => zset_at m k !! x
  | ZRANGEBYSCORE k max n => zrangebyscore (zset_at m k) max n
  | ZRANGE k start stop => zrange start stop (zsorted (zset_at m k))
  | XADD k _ => (st_last (stream_at m k) + 1)%Z
  | XGROUPCREATE k g => bool_decide (group_at m k g = None)
  | XREADGROUP k g _ n =>
      (λ gr, take (Z.to_nat n) (undelivered (stream_at m k) gr)) <$> group_at m k g
  | XACK _ _ _ => ()
  | XDEL _ _ => ()
  | XLEN k => len (st_entries (stream_at m k))
  | XPENDING k g => (λ gr, Z.of_nat (size (g_pel gr))) <$> group_at m k g
  | XCLAIMJUSTID _ _ _ _ => ()
  | XAUTOCLAIM k g _ minIdle n =>
      (autoclaimed (k_now m) minIdle n
         (λ p, bool_decide (minIdle ≤ k_now m - pe_since p.2)%Z) (stream_at m k))
      <$> group_at m k g
  | PUBLISH _ _ => ()
  | SCAN pattern =>
      filter (λ x, glob (GoStr.chars pattern) (GoStr.chars x) = true) (elements (all_keys m))
  end.

Lemma ref_reply_ok A (c : cmd A) m : cmd_reply c m (ref_reply c m).
Proof.
  destruct c; simpl; try done; [lia| |].
  - eexists. split; [|done]. intros p; simpl. split; intros; zlia.
  - intros _ x. rewrite list_elem_of_filter, elem_of_elements. naive_solver.
Qed.

#[global] Instance RefRedis : Redis := {|
  store := keyspace;
  ks := id;
  exec := λ A c m, (cmd_effect c (ref_reply c m) m, ref_reply c m);
  elapse_store := elapse;
  exec_effect := λ _ _ _, eq_refl;
  exec_reply := λ A c m, ref_reply_ok A c m;
  elapse_effect := λ _ _ _, eq_refl;
|}.

End RefRedis.

(** An invertible packing of a list of strings into one. *)
Module Pack.
Import GoStr.

Fixpoint put (l rest : list ascii) : list ascii :=
  match l with [] => "0"%char :: rest | c :: l => "1"%char :: c :: put l rest end.

Fixpoint packs (l : list string) : list ascii :=
  match l with [] => [] | s :: l => put (chars s) (packs l) end.

(** Read fields, [acc] holding the reversed characters of the current one. *)
Fixpoint unpacks (acc l : list ascii) : list string :=
  match l with
  | [] => []
  | b :: l =>
      if decide (b = "0"%char) then ofChars (reverse acc) :: unpacks [] l
      else match l with [] => [] | c :: l => unpacks (c :: acc) l end
  end.

Definition pack (l : list string) : string := ofChars (packs l).
Definition unpack (s : string) : list string := unpacks [] (chars s).

Lemma unpacks_put l rest acc :
  unpacks acc (put l rest) = ofChars (reverse acc ++ l) :: unpacks [] rest.
Proof.
  revert acc. induction l as [|c l IH]; intros acc; simpl.
  - by rewrite app_nil_r.
  - rewrite IH. rewrite reverse_cons, <- app_assoc. done.
Qed.

Lemma unpack_pack l : unpack (pack l) = l.
Proof.
  unfold unpack, pack. rewrite chars_ofChars.
  induction l as [|s l IH]; [done|]. simpl. rewrite unpacks_put, IH. simpl.
  by rewrite ofChars_chars.
Qed.

Definition zstr (z : Z) : string := NilZero.string_of_int (Z.to_int z).
Definition strz (s : string) : Z := default 0%Z (Z.of_int <$> NilZero.int_of_string s).

Lemma strz_zstr z : strz (zstr z) = z.
Proof.
  unfold strz, zstr. rewrite NilZero.isi.
  - simpl. apply DecimalZ.of_to.
  - destruct z as [|p|p]; simpl; [done| |done].
    intros [= E]. by apply (DecimalPos.Unsigned.to_uint_nonnil p).
  - destruct z as [|p|p]; simpl; [done|done|].
    intros [= E]. by apply (DecimalPos.Unsigned.to_uint_nonnil p).
Qed.

Definition bstr (b : bool) : string := if b then "1" else "0".
Definition strb (s : string) : bool := bool_decide (s = "1").
Lemma strb_bstr b : strb (bstr b) = b.
Proof. by destruct b. Qed.

Definition liststr {A} (f : A → string) (l : list A) : string := pack (map f l).
Definition strlist {A} (g : string → A) (s : string) : list A := map g (unpack s).
Lemma strlist_liststr {A} (f : A → string) (g : string → A) l :
  (∀ x, g (f x) = x) → strlist g (liststr f l) = l.
Proof.
  intros Hfg. unfold strlist, liststr. rewrite unpack_pack, map_map.
  induction l as [|x l IH]; simpl; [done|]. by rewrite Hfg, IH.
Qed.

Definition optstr {A} (f : A → string) (o : option A) : string :=
  liststr f (match o with Some x => [x] | None => [] end).
Definition stropt {A} (g : string → A) (s : string) : option A :=
  head (strlist g s).
Lemma stropt_optstr {A} (f : A → string) (g : string → A) o :
  (∀ x, g (f x) = x) → stropt g (optstr f o) = o.
Proof.
  intros Hfg. unfold stropt, optstr. rewrite strlist_liststr by done. by destruct o.
Qed.
End Pack.

Module RefJson.
Import GoStr Task Pack.

Definition member_str (g : GroupMemberLink) : string :=
  pack [gm_Kind g; gm_Payload g; gm_Queue g; zstr (gm_MaxRetry g); zstr (gm_Retention g);
        zstr (gm_Delay g)].
Definition str_member (s : string) : GroupMemberLink :=
  match unpack s with
  | [a; b; c; d; e; f] => MkGroupMemberLink a b c (strz d) (strz e) (strz f)
  | _ => MkGroupMemberLink "" "" "" 0 0 0
  end.
Lemma member_ok g : str_member (member_str g) = g.
Proof.
  unfold str_member, member_str. rewrite unpack_pack. rewrite !strz_zstr. by destruct g.
Qed.

Definition link_str (l : ChainLink) : string :=
  pack [cl_Kind l; cl_Payload l; cl_Queue l; zstr (cl_MaxRetry l); bstr (cl_NoArchive l);
        zstr (cl_Retention l); zstr (cl_Delay l); liststr member_str (cl_Group l)].
Definition str_link (s : string) : ChainLink :=
  match unpack s with
  | [a; b; c; d; e; f; g; h] =>
      MkChainLink a b c (strz d) (strb e) (strz f) (strz g) (strlist str_member h)
  | _ => MkChainLink "" "" "" 0 false 0 0 []
  end.
Lemma link_ok l : str_link (link_str l) = l.
Proof.
  unfold str_link, link_str. rewrite unpack_pack, !strz_zstr, strb_bstr.
  rewrite strlist_liststr by apply member_ok. by destruct l.
Qed.

Definition msg_str (m : TaskMessage) : string :=
  pack [m_ID m; m_Kind m; m_Payload m; m_Queue m; zstr (m_State m); zstr (m_Retried m);
        zstr (m_MaxRetry m); bstr (m_NoArchive m); m_UniqueKey m; m_LastErr m;
        zstr (m_Retention m); zstr (m_CompletedAt m); liststr link_str (m_Chain m);
        m_ChainID m; zstr (m_ChainIndex m); m_GroupID m; m_GroupQueue m;
        optstr link_str (m_GroupCallback m); m_Result m; m_PrevResult m;
        pack (m_GroupResults m); zstr (m_GroupIndex m); zstr (m_GroupSize m);
        m_GroupMemberID m; liststr link_str (m_GroupCallbackChain m)].

Definition str_msg (s : string) : option TaskMessage :=
  match unpack s with
  | [f1; f2; f3; f4; f5; f6; f7; f8; f9; f10; f11; f12; f13; f14; f15; f16; f17; f18; f19;
     f20; f21; f22; f23; f24; f25] =>
      Some (MkTaskMessage f1 f2 f3 f4 (strz f5) (strz f6) (strz f7) (strb f8) f9 f10 (strz f11)
              (strz f12) (strlist str_link f13) f14 (strz f15) f16 f17 (stropt str_link f18)
              f19 f20 (unpack f21) (strz f22) (strz f23) f24 (strlist str_link f25))
  | _ => None
  end.

Lemma msg_ok m : str_msg (msg_str m) = Some m.
Proof.
  unfold str_msg, msg_str. rewrite unpack_pack, !strz_zstr, strb_bstr, unpack_pack.
  rewrite !strlist_liststr, stropt_optstr by apply link_ok. by destruct m.
Qed.

Definition ref_marshal (m : TaskMessage) : string := msg_str (sanitize_msg m).

Definition set_results (s : string) (rs : list (option string)) : string :=
  match str_msg s with
  | Some m => msg_str (with_GroupResults (results_of_json rs) m)
  | None => s
  end.

Lemma set_results_ok m rs :
  str_msg (set_results (ref_marshal m) rs)
  = Some (with_GroupResults (results_of_json rs) (sanitize_msg m)).
Proof. unfold set_results, ref_marshal. by rewrite !msg_ok. Qed.

Lemma set_results_inv m rs m' :
  str_msg (set_results (ref_marshal m) rs) = Some m' →
  ∃ l, m' = with_GroupResults l (sanitize_msg m).
Proof. rewrite set_results_ok. intros [= <-]. eauto. Qed.

#[global] Instance RefJson : Json := {|
  Marshal := ref_marshal;
  Unmarshal := str_msg;
  cjsonSetGroupResults := set_results;
  Unmarshal_Marshal := λ m, msg_ok (sanitize_msg m);
  Unmarshal_cjson := λ m rs _ _ _, set_results_ok m rs;
  Unmarshal_cjson_inv := λ m rs m' _, set_results_inv m rs m';
|}.

Import RdbAdmin.

Definition meta_str (m : ScheduleMeta) : string :=
  pack [sm_Kind m; sm_Queue m; sm_Spec m; zstr (sm_RegisteredAt m); zstr (sm_LastSeen m)].
Definition str_meta (s : string) : option ScheduleMeta :=
  match unpack s with
  | [a; b; c; d; e] => Some (MkScheduleMeta "" a b c (strz d) (strz e))
  | _ => None
  end.
Lemma meta_ok m : str_meta (meta_str m) = Some (with_ID "" m).
Proof. unfold str_meta, meta_str. by rewrite unpack_pack, !strz_zstr. Qed.

#[global] Instance RefMetaJson : MetaJson := {|
  MarshalMeta := meta_str;
  UnmarshalMeta := str_meta;
  UnmarshalMeta_MarshalMeta := λ m _, meta_ok m;
|}.

End RefJson.
