(* ===== verification/Lifecycle.v ===== *)
(** * The life of a task across processes

    Any number of processes run the scripts of [internal/rdb] against one
    server, in any order; workers may be slow, crash, or act on an entry
    that was taken from them long ago.  This file defines that system as a
    step relation whose steps are the atomic scripts, and proves by rule
    induction that no accepted task is lost: a task whose body is stored is
    always in the stream or in one of the state ZSETs, where some process
    will find it. *)

From S2P Require Import Prelude GoLib Base Redis RedisFacts Client.
From S2P Require Import RdbCore RdbLocks RdbFlow RdbAdmin Instances.
From Stdlib Require Import Ascii.

Module Lifecycle.
Import GoFloat GoStr Keys Task Redis RedisFacts Client RdbCore RdbLocks RdbFlow RdbAdmin.

(** ** Streams only grow *)

Definition stream_wf (st : stream) : Prop :=
  NoDup (map fst (st_entries st)) ∧ Forall (λ e, e.1 ≤ st_last st)%Z (st_entries st).

(** [st'] is a later state of [st]: ids are never reused. *)
Definition stream_le (st st' : stream) : Prop :=
  (st_last st ≤ st_last st')%Z ∧ (stream_wf st → stream_wf st') ∧
  ∀ e T, (e, T) ∈ st_entries st' → (e, T) ∈ st_entries st ∨ (st_last st < e)%Z.

#[global] Instance stream_le_preorder : PreOrder stream_le.
Proof.
  split; [intros st; unfold stream_le; auto with lia|].
  intros a b c (Hl1 & Hw1 & He1) (Hl2 & Hw2 & He2). split_and!; [lia|auto|].
  intros e T [HT|]%He2; [|right; lia]. by apply He1.
Qed.

Lemma stream_le_add st id T :
  (st_last st < id)%Z →
  stream_le st (MkStream (st_entries st ++ [(id, T)]) id (st_groups st)).
Proof.
  intros Hid. unfold stream_le, stream_wf; simpl. split_and!; [lia| |].
  - intros [Hnd Hle]. rewrite map_app. simpl. split.
    + apply NoDup_app. split_and!; [done| |apply NoDup_singleton].
      intros e (x & Hxe & Hx)%list_elem_of_fmap He%list_elem_of_singleton.
      rewrite Forall_forall in Hle. specialize (Hle x Hx). subst. lia.
    + apply Forall_app. split; [|by repeat constructor].
      eapply Forall_impl; [done|]. simpl. lia.
  - intros e T' [?|[= -> ->]%list_elem_of_singleton]%elem_of_app; [by left|by right].
Qed.

Lemma stream_le_del st (ids : list sid) :
  stream_le st (MkStream (filter (λ e, e.1 ∉ ids) (st_entries st)) (st_last st) (st_groups st)).
Proof.
  unfold stream_le, stream_wf; simpl. split_and!; [lia| |].
  - intros [Hnd Hle]. split; [|apply Forall_forall; intros e [_ He]%list_elem_of_filter;
                               by rewrite Forall_forall in Hle; apply Hle].
    eapply sublist_NoDup; [exact Hnd|]. apply (fmap_sublist fst), sublist_filter.
  - intros e T [_ ?]%list_elem_of_filter. by left.
Qed.

Lemma stream_le_groups st gs :
  stream_le st (MkStream (st_entries st) (st_last st) gs).
Proof. unfold stream_le; simpl. split_and!; [done|done|]. by left. Qed.

Section lifecycle.
Context `{R : Redis} `{J : Json} (K : Keys).

(** What every stored body must satisfy: [G q T b] for the body [b] of task
    [T] of queue [q]. *)
Context (G : string → string → string → Prop).

(** ** Where a task is *)

Inductive zkind := ZScheduled | ZRetry | ZArchived | ZCompleted.

Definition zslot (z : zkind) : queue_key :=
  match z with
  | ZScheduled => KScheduled | ZRetry => KRetry
  | ZArchived => KArchived | ZCompleted => KCompleted
  end.

Definition zkey (q : string) (z : zkind) : string := queueKey K q (zslot z).

Definition body (m : keyspace) (q id : string) : option string :=
  hget m (TaskKey K q id) "msg".
Definition queue_stream (m : keyspace) (q : string) : stream :=
  stream_at m (StreamKey K q).
Definition entries (m : keyspace) (q : string) : list (sid * string) :=
  st_entries (queue_stream m q).
Definition in_zset (m : keyspace) (q : string) (z : zkind) (id : string) : Prop :=
  is_Some (zset_at m (zkey q z) !! id).

(** ** What processes know

    A claim [(q, e, T)] is a worker's or a recoverer's knowledge that entry
    [e] of the stream of [q] carries task [T]; it may be outdated.  A claim
    is an orphan claim once its holder has seen that [T] has no body. *)
Definition claim_t : Type := string * sid * string.

Record sys := MkSys {
  s_store : store;
  s_claims : gset claim_t;
  s_orphans : gset claim_t;
}.

(** Keys that never get a deadline. *)
Definition durable (x : queue_key) : bool :=
  match x with
  | KStream | KRetry | KArchived | KCompleted | KScheduled | KTask _ => true
  | _ => false
  end.

(** [T] will be found: it is in a ZSET, or in an entry nobody is about to
    drop as an orphan. *)
Definition findable (m : keyspace) (O : gset claim_t) (q T : string) : Prop :=
  (∃ e, (e, T) ∈ entries m q ∧ (q, e, T) ∉ O) ∨ ∃ z, in_zset m q z T.

Record Inv (m : keyspace) (C O : gset claim_t) : Prop := MkInv {
  inv_stream : ∀ q, brace_free q → stream_wf (queue_stream m q);
  inv_claims : ∀ q e T, (q, e, T) ∈ C →
    brace_free q ∧ (e ≤ st_last (queue_stream m q))%Z
    ∧ ∀ T', (e, T') ∈ entries m q → T' = T;
  inv_orphans : O ⊆ C;
  inv_durable : ∀ q x, brace_free q → durable x = true → k_exp m !! queueKey K q x = None;
  inv_found : ∀ q T, brace_free q → body m q T ≠ None → findable m O q T;
  inv_bodies : ∀ q T b, brace_free q → body m q T = Some b → G q T b;
}.

(** ** Effects that are always harmless *)

(** [m'] is later than [m]: streams grew, no deadline was put on durable keys. *)
Definition later (m m' : keyspace) : Prop :=
  (∀ q, brace_free q → stream_le (queue_stream m q) (queue_stream m' q)) ∧
  (∀ q x, brace_free q → durable x = true →
     k_exp m !! queueKey K q x = None → k_exp m' !! queueKey K q x = None).

(** From [m] to [m'] nothing happened to tasks other than [T] of [q]. *)
Definition only_touches (q T : string) (m m' : keyspace) : Prop :=
  ∀ q' T', brace_free q' → (q', T') ≠ (q, T) →
    body m' q' T' = body m q' T' ∧
    (∀ e, (e, T') ∈ entries m q' → (e, T') ∈ entries m' q') ∧
    (∀ z, in_zset m q' z T' → in_zset m' q' z T').

#[global] Instance later_preorder : PreOrder later.
Proof.
  split; [by split|]. intros a b c [Hs1 He1] [Hs2 He2]. split; [|auto].
  intros q Hq. etrans; [by apply Hs1|by apply Hs2].
Qed.

#[global] Instance only_touches_preorder q T : PreOrder (only_touches q T).
Proof.
  split; [intros m; unfold only_touches; auto|].
  intros a b c Hab Hbc q' T' Hq Hne.
  destruct (Hab q' T' Hq Hne) as (? & ? & ?), (Hbc q' T' Hq Hne) as (? & ? & ?).
  split_and!; [congruence|auto..].
Qed.

(** A script that touches one task keeps the invariant if that task, should
    it have a body afterwards, can be found. *)
Lemma Inv_touch q T m m' C O :
  Inv m C O → later m m' → only_touches q T m m' →
  (∀ b, body m' q T = Some b → G q T b ∧ findable m' O q T) →
  Inv m' C O.
Proof.
  intros [Hs Hc Ho Hd Hf Hb] [Hl He] Ht HT. constructor.
  - intros q' Hq. destruct (Hl q' Hq) as (_ & Hw & _). auto.
  - intros q' e T' Hin. destruct (Hc q' e T' Hin) as (Hq & Hle & Hu).
    destruct (Hl q' Hq) as (Hlast & _ & Hent). split_and!; [done|lia|].
    intros T'' [Hin'|]%Hent; [auto|lia].
  - done.
  - auto.
  - intros q' T' Hq Hbd. destruct (decide ((q', T') = (q, T))) as [[= -> ->]|Hne].
    { destruct (body m' q T) as [b|] eqn:E; [by apply (HT b)|done]. }
    destruct (Ht q' T' Hq Hne) as (Eb & Hent & Hz). rewrite Eb in Hbd.
    destruct (Hf q' T' Hq Hbd) as [(e & ? & ?)|[z ?]]; [left|right]; eauto.
  - intros q' T' b Hq Hbd. destruct (decide ((q', T') = (q, T))) as [[= -> ->]|Hne]; [by apply HT|].
    destruct (Ht q' T' Hq Hne) as (Eb & _). rewrite Eb in Hbd. auto.
Qed.

(** *** The effects, one lemma each *)

Context (HK : valid_keys K).

Lemma queueKey_eq q q' x y :
  brace_free q → brace_free q' → queueKey K q x = queueKey K q' y → q = q' ∧ x = y.
Proof. intros Hq Hq' H. by apply (queueKey_iff K K) in H as (_ & -> & ->). Qed.

(** A key is harmless when it is no queue's durable key. *)
Definition transient (k : string) : Prop :=
  ∀ q x, brace_free q → durable x = true → queueKey K q x ≠ k.

Lemma transient_queueKey q x :
  brace_free q → durable x = false → transient (queueKey K q x).
Proof. intros Hq Hx q' y Hq' Hy E. apply queueKey_eq in E as [-> ->]; [congruence|done..]. Qed.

Lemma transient_global s :
  hd_error (chars s) ≠ Some "{"%char → transient (prefix K +:+ ":" +:+ s).
Proof. intros Hs q x Hq Hx. by apply queueKey_not_global. Qed.

Lemma later_hset m m' k fvs : later m m' → later m (do_hset k fvs m').
Proof. done. Qed.
Lemma later_sadd m m' k xs : later m m' → later m (do_sadd k xs m').
Proof. done. Qed.
Lemma later_zadd m m' k sc x : later m m' → later m (do_zadd k sc x m').
Proof. done. Qed.

(** Dropping deadlines is harmless. *)
Lemma later_exp m m' (P : Prop) `{Decision P} k f :
  later m m' → k_stream (f m') = k_stream m' → k_exp (f m') = k_exp m' →
  later m (set_exp (if decide P then delete k else id) (f m')).
Proof.
  intros [Hs He] Es Ee. unfold later, queue_stream, stream_at; simpl. rewrite Es, Ee.
  split; [done|]. intros q x Hq Hx Hn. specialize (He q x Hq Hx Hn).
  case_decide; simpl; [|done]. rewrite lookup_delete. by case_decide.
Qed.

Lemma later_zrem m m' k x : later m m' → later m (do_zrem k x m').
Proof. intros H. by apply (later_exp m m' _ k (set_zset (z_rem k x))). Qed.
Lemma later_srem m m' k x : later m m' → later m (do_srem k x m').
Proof. intros H. by apply (later_exp m m' _ k (set_set (s_rem k x))). Qed.
Lemma later_hdel m m' k fs : later m m' → later m (do_hdel k fs m').
Proof. intros H. by apply (later_exp m m' _ k (set_hash (h_del k fs))). Qed.

(** An effect on one stream. *)
Lemma later_stream m m' k (f : streams → streams) :
  later m m' →
  (∀ k', x_at (f (k_stream m')) k' = if decide (k = k') then x_at (f (k_stream m')) k
                                     else x_at (k_stream m') k') →
  stream_le (x_at (k_stream m') k) (x_at (f (k_stream m')) k) →
  later m (set_stream f m').
Proof.
  intros Hl Hk Hle. etrans; [exact Hl|]. split; [|done]. intros q Hq.
  unfold queue_stream, stream_at; simpl. rewrite Hk. case_decide as E; [|done].
  by rewrite <- E.
Qed.

Lemma later_xadd m m' k id T :
  later m m' → (st_last (stream_at m' k) < id)%Z → later m (do_xadd k id T m').
Proof.
  intros Hl Hid. apply (later_stream m m' k); [done| |].
  - intros k'. rewrite !x_at_add. by repeat case_decide; subst.
  - rewrite x_at_add, decide_True by done. by apply stream_le_add.
Qed.

Lemma later_xdel m m' k ids : later m m' → later m (do_xdel k ids m').
Proof.
  intros Hl. apply (later_stream m m' k); [done| |].
  - intros k'. rewrite !x_at_del. by repeat case_decide; subst.
  - rewrite x_at_del, decide_True by done. by apply stream_le_del.
Qed.

Lemma later_set_group m m' k g f : later m m' → later m (set_group k g f m').
Proof.
  intros Hl. apply (later_stream m m' k); [done| |].
  - intros k'. rewrite !x_at_group. by repeat case_decide; subst.
  - rewrite x_at_group, decide_True by done. apply stream_le_groups.
Qed.

Lemma later_xgroup m m' k g : later m m' → later m (do_xgroup k g m').
Proof.
  intros Hl. apply (later_stream m m' k); [done| |].
  - intros k'. rewrite !x_at_mkgroup. by repeat case_decide; subst.
  - rewrite x_at_mkgroup, decide_True by done. apply stream_le_groups.
Qed.

Lemma later_del m m' k :
  later m m' → (∀ q, brace_free q → queueKey K q KStream ≠ k) → later m (del_key k m').
Proof.
  intros Hl Hk. etrans; [exact Hl|]. split.
  - intros q Hq. unfold queue_stream, stream_at; simpl. rewrite x_at_delete.
    case_decide as E; [|done]. by destruct (Hk q Hq).
  - intros q x _ _. simpl. rewrite lookup_delete. by case_decide.
Qed.

(** Deadlines on transient keys. *)
Lemma later_deadline m m' k (f : gmap string Z → gmap string Z) :
  later m m' → transient k → (∀ e k', k ≠ k' → f e !! k' = e !! k') →
  later m (set_exp f m').
Proof.
  intros Hl Hk Hf. etrans; [exact Hl|]. split; [done|]. intros q x Hq Hx He. simpl.
  rewrite Hf; [done|]. intros ->. by destruct (Hk q x Hq Hx).
Qed.

Lemma later_pexpire m m' k ms : later m m' → transient k → later m (do_pexpire k ms m').
Proof.
  intros Hl Hk. apply (later_deadline m m' k); [done..|]. intros e k' Hne.
  destruct (key_exists m' k); [|done]. by rewrite lookup_insert_ne.
Qed.
Lemma later_setpx m m' k v ms : later m m' → transient k → later m (do_setpx k v ms m').
Proof.
  intros Hl Hk. apply (later_deadline m (set_str <[k := v]> m') k); [done..|].
  intros e k' Hne. by rewrite lookup_insert_ne.
Qed.
Lemma later_set m m' k v : later m m' → transient k → later m (do_set k v m').
Proof.
  intros Hl Hk. apply (later_deadline m (set_str <[k := v]> m') k); [done..|].
  intros e k' Hne. by rewrite lookup_delete_ne.
Qed.

(** Effects on the touched task, or on no task at all. *)

Lemma touch_trans q T m m' m'' :
  only_touches q T m m' → only_touches q T m' m'' → only_touches q T m m''.
Proof. apply transitivity. Qed.

Lemma body_hset m k fvs q T :
  brace_free q → k ≠ TaskKey K q T → body (do_hset k fvs m) q T = body m q T.
Proof.
  intros Hq Hk. unfold body, hget, hash_at; simpl. rewrite h_at_set.
  by rewrite decide_False.
Qed.

Lemma touch_hset q T m m' fvs :
  brace_free q →
  only_touches q T m m' → only_touches q T m (do_hset (TaskKey K q T) fvs m').
Proof.
  intros Hq Ht. eapply touch_trans; [exact Ht|]. intros q' T' Hq' Hne.
  split_and!; [|done..]. apply body_hset; [done|].
  intros E. apply (queueKey_eq q q' (KTask T) (KTask T')) in E as [-> [= ->]]; done.
Qed.

Lemma touch_hset_transient q T m m' k fvs :
  transient k → only_touches q T m m' → only_touches q T m (do_hset k fvs m').
Proof.
  intros Hk Ht. eapply touch_trans; [exact Ht|]. intros q' T' Hq' Hne.
  split_and!; [|done..]. apply body_hset; [done|].
  intros ->. by apply (Hk q' (KTask T')).
Qed.

Lemma touch_sadd q T m m' k xs : only_touches q T m m' → only_touches q T m (do_sadd k xs m').
Proof. done. Qed.
Lemma touch_srem q T m m' k x : only_touches q T m m' → only_touches q T m (do_srem k x m').
Proof. done. Qed.
Lemma touch_setpx q T m m' k v ms :
  only_touches q T m m' → only_touches q T m (do_setpx k v ms m').
Proof. done. Qed.
Lemma touch_set q T m m' k v : only_touches q T m m' → only_touches q T m (do_set k v m').
Proof. done. Qed.
Lemma touch_pexpire q T m m' k ms :
  only_touches q T m m' → only_touches q T m (do_pexpire k ms m').
Proof. done. Qed.

Lemma touch_hdel q T m m' k fs :
  transient k → only_touches q T m m' → only_touches q T m (do_hdel k fs m').
Proof.
  intros Hk Ht. eapply touch_trans; [exact Ht|]. intros q' T' Hq' Hne.
  split_and!; [|done..]. unfold body, hget, hash_at; simpl. rewrite h_at_del.
  rewrite decide_False; [done|]. intros ->. by apply (Hk q' (KTask T')).
Qed.

Lemma touch_zadd q T m m' k sc :
  only_touches q T m m' → only_touches q T m (do_zadd k sc T m').
Proof.
  intros Ht. eapply touch_trans; [exact Ht|]. intros q' T' Hq' Hne.
  split_and!; [done..|]. intros z. unfold in_zset, zset_at; simpl. rewrite z_at_add.
  case_decide as E; [|done]. rewrite E, lookup_insert. by case_decide.
Qed.

Lemma touch_zrem q T m m' z :
  brace_free q →
  only_touches q T m m' → only_touches q T m (do_zrem (zkey q z) T m').
Proof.
  intros Hq Ht. eapply touch_trans; [exact Ht|]. intros q' T' Hq' Hne.
  split_and!; [done..|]. intros z'. unfold in_zset, zset_at; simpl. rewrite z_at_rem.
  case_decide as E; [|done]. apply queueKey_eq in E as [-> E]; [|done..].
  rewrite lookup_delete. rewrite decide_False by congruence.
  by destruct z, z'.
Qed.

Lemma touch_xadd q T m m' k id :
  only_touches q T m m' → only_touches q T m (do_xadd k id T m').
Proof.
  intros Ht. eapply touch_trans; [exact Ht|]. intros q' T' Hq' Hne.
  split_and!; [done| |done]. intros e. unfold entries, queue_stream, stream_at; simpl.
  rewrite x_at_add. case_decide as E; [|done]. rewrite <- E. simpl. rewrite elem_of_app. by left.
Qed.

Lemma touch_xdel q T m m' (e : sid) :
  brace_free q → (∀ T', (e, T') ∈ entries m' q → T' = T) →
  only_touches q T m m' → only_touches q T m (do_xdel (StreamKey K q) [e] m').
Proof.
  intros Hq He Ht. eapply touch_trans; [exact Ht|]. intros q' T' Hq' Hne.
  split_and!; [done| |done]. intros e'. unfold entries, queue_stream, stream_at; simpl.
  rewrite x_at_del. case_decide as E; [|done]. rewrite <- E. simpl. intros Hin.
  apply (queueKey_eq q q' KStream KStream) in E as [-> _]; [|done..].
  apply list_elem_of_filter. split; [|done]. simpl.
  intros ->%list_elem_of_singleton. apply He in Hin. congruence.
Qed.

Lemma entries_set_group m k g f q : entries (set_group k g f m) q = entries m q.
Proof.
  unfold entries, queue_stream, stream_at; simpl. rewrite x_at_group.
  by case_decide as E; [rewrite <- E|].
Qed.

Lemma touch_set_group q T m m' k g f :
  only_touches q T m m' → only_touches q T m (set_group k g f m').
Proof.
  intros Ht. eapply touch_trans; [exact Ht|]. intros q' T' Hq' Hne.
  split_and!; [done| |done]. intros e. by rewrite entries_set_group.
Qed.

Lemma touch_xgroup q T m m' k g :
  only_touches q T m m' → only_touches q T m (do_xgroup k g m').
Proof.
  intros Ht. eapply touch_trans; [exact Ht|]. intros q' T' Hq' Hne.
  split_and!; [done| |done]. intros e. unfold entries, queue_stream, stream_at; simpl.
  rewrite x_at_mkgroup. by case_decide as E; [rewrite <- E|].
Qed.

(** Deleting a key that is no queue's stream, ZSET or other task. *)
Lemma touch_del q T m m' k :
  (∀ q' x, brace_free q' → durable x = true → queueKey K q' x = k → q' = q ∧ x = KTask T) →
  only_touches q T m m' → only_touches q T m (del_key k m').
Proof.
  intros Hk Ht. eapply touch_trans; [exact Ht|]. intros q' T' Hq' Hne.
  assert (∀ x, durable x = true → x ≠ KTask T ∨ q' ≠ q → k ≠ queueKey K q' x) as Hx.
  { intros x Hx Hor E. destruct (Hk q' x Hq' Hx (eq_sym E)). by destruct Hor. }
  split_and!.
  - unfold body, hget, hash_at; simpl. rewrite h_at_delete, decide_False; [done|].
    apply (Hx (KTask T')); [done|]. destruct (decide (q' = q)); [left; congruence|by right].
  - intros e. unfold entries, queue_stream, stream_at; simpl.
    rewrite x_at_delete, decide_False; [done|]. apply (Hx KStream); [done|by left].
  - intros z. unfold in_zset, zset_at; simpl. rewrite z_at_delete, decide_False; [done|].
    apply Hx; destruct z; done || by left.
Qed.

Lemma touch_del_task q T m m' :
  brace_free q → only_touches q T m m' → only_touches q T m (del_key (TaskKey K q T) m').
Proof.
  intros Hq. apply touch_del. intros q' x Hq' _ E.
  by apply (queueKey_eq q' q x (KTask T)) in E.
Qed.
Lemma touch_del_transient q T m m' k :
  transient k → only_touches q T m m' → only_touches q T m (del_key k m').
Proof. intros Hk. apply touch_del. intros q' x Hq' Hx E. by destruct (Hk q' x Hq' Hx). Qed.

(** *** Finding the touched task again *)

(** An entry just appended is known to nobody. *)
Lemma findable_xadd m C O m1 m' q T id :
  Inv m C O → later m m1 → brace_free q →
  (st_last (queue_stream m1 q) < id)%Z →
  entries m' q = entries (do_xadd (StreamKey K q) id T m1) q →
  findable m' O q T.
Proof.
  intros HI Hl Hq Hid He. left. exists id. split.
  - rewrite He. unfold entries, queue_stream, stream_at; simpl. rewrite x_at_add.
    rewrite decide_True by done. simpl. rewrite elem_of_app, list_elem_of_singleton. by right.
  - intros Hin. apply (inv_orphans _ _ _ HI) in Hin.
    destruct (inv_claims _ _ _ HI q id T Hin) as (_ & Hle & _).
    destruct Hl as [Hl _]. destruct (Hl q Hq) as [Hlast _]. lia.
Qed.

Lemma entries_hset k fvs m q : entries (do_hset k fvs m) q = entries m q.
Proof. done. Qed.
Lemma entries_zrem k x m q : entries (do_zrem k x m) q = entries m q.
Proof. done. Qed.

Lemma in_zset_zadd m q z sc T : in_zset (do_zadd (zkey q z) sc T m) q z T.
Proof.
  unfold in_zset, zset_at; simpl. rewrite z_at_add, decide_True, lookup_insert_eq by done.
  eauto.
Qed.

Lemma in_zset_zrem m q z z' x T :
  brace_free q → z ≠ z' → in_zset m q z T → in_zset (do_zrem (zkey q z') x m) q z T.
Proof.
  intros Hq Hz. unfold in_zset, zset_at; simpl. rewrite z_at_rem, decide_False; [done|].
  intros E. apply queueKey_eq in E as [_ E]; [|done..]. by destruct z, z'.
Qed.

Lemma body_del m q T : body (del_key (TaskKey K q T) m) q T = None.
Proof.
  unfold body, hget, hash_at; simpl. rewrite h_at_delete, decide_True by done. done.
Qed.

Lemma body_state m m' q T v :
  k_hash m' = h_set (TaskKey K q T) [("state", v)] (k_hash m) → body m' q T = body m q T.
Proof.
  unfold body, hget, hash_at. intros ->. rewrite h_at_set, decide_True by done. simpl.
  by rewrite lookup_insert_ne.
Qed.

Lemma body_written h m' q T encoded v :
  k_hash m' = h_set (TaskKey K q T) [("msg", encoded); ("state", v)] h →
  body m' q T = Some encoded.
Proof.
  unfold body, hget, hash_at. intros ->. rewrite h_at_set, decide_True by done. simpl.
  by rewrite lookup_insert_ne, lookup_insert_eq.
Qed.

Lemma touched_written h m' q T encoded v (P : Prop) :
  k_hash m' = h_set (TaskKey K q T) [("msg", encoded); ("state", v)] h →
  G q T encoded → P → ∀ b, body m' q T = Some b → G q T b ∧ P.
Proof. intros E%body_written HG HP b Hb. rewrite E in Hb. by simplify_eq. Qed.

Lemma touched_kept m m' C O q T v (P : Prop) :
  Inv m C O → brace_free q →
  k_hash m' = h_set (TaskKey K q T) [("state", v)] (k_hash m) →
  (body m q T ≠ None → P) → ∀ b, body m' q T = Some b → G q T b ∧ P.
Proof.
  intros HI Hq E%body_state HP b Hb. rewrite E in Hb.
  split; [by eapply inv_bodies|]. apply HP. congruence.
Qed.

Lemma not_exists_body m q T : key_exists m (TaskKey K q T) = false → body m q T = None.
Proof. unfold body, hget. intros E. by rewrite (key_exists_hash _ _ E). Qed.

End lifecycle.

(** ** Tactics *)

(** Side conditions on keys. *)
Ltac key_side :=
  match goal with
  | HK : valid_keys ?K |- transient ?K ?k =>
      match k with
      | GroupKey _ ?q ?g => by apply (transient_queueKey K HK q (KGroup g))
      | GroupResultKey _ ?q ?g => by apply (transient_queueKey K HK q (KGroupResult g))
      | UniqueKey _ ?q ?g => by apply (transient_queueKey K HK q (KUnique g))
      | PeriodicDedupKey _ ?q ?g => by apply (transient_queueKey K HK q (KPeriodic g))
      | QueuesKey _ => by apply (transient_global K HK "queues")
      | PausedKey _ => by apply (transient_global K HK "paused")
      | SchedulesKey _ => by apply (transient_global K HK "schedules")
      | LeaderKey _ => by apply (transient_global K HK "leader")
      | ScheduleLastFiredKey _ ?i => by apply (transient_global K HK ("sched:" +:+ i +:+ ":last"))
      end
  | HK : valid_keys ?K, Hq : brace_free ?q |- ∀ q', brace_free q' → queueKey ?K q' KStream ≠ TaskKey ?K ?q ?T =>
      let q' := fresh in let Hq' := fresh in let E := fresh in
      intros q' Hq' E; by apply (queueKey_eq K HK q' q KStream (KTask T)) in E as [_ E]
  | |- ∀ q', brace_free q' → queueKey ?K q' KStream ≠ ?k =>
      let q' := fresh in let Hq' := fresh in
      intros q' Hq'; assert (transient K k) as Htr by key_side; by apply (Htr q' KStream)
  end.

(** Peel the effects of a script off, last first. *)
Ltac peel_later :=
  repeat match goal with
  | |- later _ ?m ?m => reflexivity
  | |- later _ _ (do_hset _ _ _) => apply later_hset
  | |- later _ _ (do_sadd _ _ _) => apply later_sadd
  | |- later _ _ (do_zadd _ _ _ _) => apply later_zadd
  | |- later _ _ (do_zrem _ _ _) => apply later_zrem
  | |- later _ _ (do_srem _ _ _) => apply later_srem
  | |- later _ _ (do_hdel _ _ _) => apply later_hdel
  | |- later _ _ (do_xdel _ _ _) => apply later_xdel
  | |- later _ _ (do_xack _ _ _ _) => apply later_set_group
  | |- later _ _ (set_group _ _ _ _) => apply later_set_group
  | |- later _ _ (do_xgroup _ _ _) => apply later_xgroup
  | |- later _ _ (do_xadd _ _ _ _) => apply later_xadd; [|assumption]
  | |- later _ _ (del_key _ _) => apply later_del; [|key_side]
  | |- later _ _ (do_pexpire _ _ _) => apply later_pexpire; [|key_side]
  | |- later _ _ (do_setpx _ _ _ _) => apply later_setpx; [|key_side]
  | |- later _ _ (do_set _ _ _) => apply later_set; [|key_side]
  end.

Ltac peel_zrem :=
  match goal with
  | HK : valid_keys ?K |- only_touches _ _ _ _ (do_zrem ?k _ _) =>
      match k with
      | ScheduledKey _ _ => apply (touch_zrem K HK _ _ _ _ ZScheduled)
      | RetryKey _ _ => apply (touch_zrem K HK _ _ _ _ ZRetry)
      | ArchivedKey _ _ => apply (touch_zrem K HK _ _ _ _ ZArchived)
      | CompletedKey _ _ => apply (touch_zrem K HK _ _ _ _ ZCompleted)
      | zkey _ _ _ => apply (touch_zrem K HK)
      end
  end.

Ltac peel_touch :=
  repeat match goal with
  | |- only_touches _ _ _ ?m ?m => reflexivity
  | |- only_touches _ _ _ _ (do_hset (TaskKey _ _ _) _ _) => apply touch_hset; [done|done|]
  | |- only_touches _ _ _ _ (do_hset _ _ _) => apply touch_hset_transient; [key_side|]
  | |- only_touches _ _ _ _ (do_sadd _ _ _) => apply touch_sadd
  | |- only_touches _ _ _ _ (do_srem _ _ _) => apply touch_srem
  | |- only_touches _ _ _ _ (do_setpx _ _ _ _) => apply touch_setpx
  | |- only_touches _ _ _ _ (do_set _ _ _) => apply touch_set
  | |- only_touches _ _ _ _ (do_pexpire _ _ _) => apply touch_pexpire
  | |- only_touches _ _ _ _ (do_hdel _ _ _) => apply touch_hdel; [key_side|]
  | |- only_touches _ _ _ _ (do_zadd _ _ _ _) => apply touch_zadd
  | |- only_touches _ _ _ _ (do_zrem _ _ _) => peel_zrem; [done|]
  | |- only_touches _ _ _ _ (do_xadd _ _ _ _) => apply touch_xadd
  | |- only_touches _ _ _ _ (do_xdel _ _ _) => apply touch_xdel; [done|done| |]
  | |- only_touches _ _ _ _ (do_xack _ _ _ _) => apply touch_set_group
  | |- only_touches _ _ _ _ (set_group _ _ _ _) => apply touch_set_group
  | |- only_touches _ _ _ _ (do_xgroup _ _ _) => apply touch_xgroup
  | |- only_touches _ _ _ _ (del_key (TaskKey _ _ _) _) => apply touch_del_task; [done|done|]
  | |- only_touches _ _ _ _ (del_key _ _) => apply touch_del_transient; [key_side|]
  end.

(** The task was appended to the stream by the script that started in [m]. *)
Ltac found_appended m :=
  match goal with
  | HK : valid_keys ?K |- findable ?K ?m' ?O ?q ?T =>
      match m' with
      | context [do_xadd _ ?id _ ?m1] =>
          eapply (findable_xadd K _ m _ O m1 m' q T id);
          [done|peel_later|done|assumption|by rewrite ?entries_zrem, ?entries_hset]
      end
  end.

(** The script stored the body it was given. *)
Ltac written := eapply touched_written; [reflexivity|done|].

(** The script changed the state field at most. *)
Ltac kept m HI := eapply (touched_kept _ _ m); [exact HI|done|reflexivity|].

(** ** The scripts keep the invariant *)

Section scripts.
Context `{R : Redis} `{J : Json} (K : Keys) (HK : valid_keys K).
Context (G : string → string → string → Prop).

Notation Keeps p := (∀ m C O, Inv K G m C O → wps p (λ _ m', Inv K G m' C O) m).

Lemma enqueueCmd_inv q T encoded st :
  brace_free q → G q T encoded →
  Keeps (enqueueCmd (TaskKey K q T) (StreamKey K q) (CompletedKey K q) (ArchivedKey K q)
           encoded st T).
Proof.
  intros Hq HG m C O HI. unfold enqueueCmd. wps_steps.
  apply (Inv_touch K G q T m); [done|peel_later|peel_touch|].
  written. found_appended m.
Qed.

Lemma scheduleCmd_inv q T encoded st sc :
  brace_free q → G q T encoded →
  Keeps (scheduleCmd (TaskKey K q T) (ScheduledKey K q) (CompletedKey K q) (ArchivedKey K q)
           encoded st sc T).
Proof.
  intros Hq HG m C O HI. unfold scheduleCmd. wps_steps.
  apply (Inv_touch K G q T m); [done|peel_later|peel_touch|].
  written. right. exists ZScheduled.
  apply (in_zset_zrem K HK _ _ _ ZArchived); [done..|].
  apply (in_zset_zrem K HK _ _ _ ZCompleted); [done..|]. apply (in_zset_zadd K _ _ ZScheduled).
Qed.

Lemma enqueueUniqueCmd_inv q T suf ttl encoded st :
  brace_free q → G q T encoded →
  Keeps (enqueueUniqueCmd (UniqueKey K q suf) (TaskKey K q T) (StreamKey K q)
           (CompletedKey K q) (ArchivedKey K q) T ttl encoded st).
Proof.
  intros Hq HG m C O HI. unfold enqueueUniqueCmd. wps_steps.
  destruct (key_exists _ _); simpl; [by wps_steps|]. wps_steps.
  apply (Inv_touch K G q T m); [done|peel_later|peel_touch|].
  written. found_appended m.
Qed.

Lemma enqueuePeriodicCmd_inv q T trig ttl encoded st :
  brace_free q → G q T encoded →
  Keeps (enqueuePeriodicCmd (PeriodicDedupKey K q trig) (TaskKey K q T) (StreamKey K q)
           (CompletedKey K q) (ArchivedKey K q) T ttl encoded st).
Proof.
  intros Hq HG m C O HI. unfold enqueuePeriodicCmd. wps_steps.
  destruct (key_exists _ _); simpl; [by wps_steps|]. wps_steps.
  apply (Inv_touch K G q T m); [done|peel_later|peel_touch|].
  written. found_appended m.
Qed.

Lemma scheduleUniqueCmd_inv q T suf ttl encoded st sc :
  brace_free q → G q T encoded →
  Keeps (scheduleUniqueCmd (UniqueKey K q suf) (TaskKey K q T) (ScheduledKey K q)
           (CompletedKey K q) (ArchivedKey K q) T ttl encoded st sc).
Proof.
  intros Hq HG m C O HI. unfold scheduleUniqueCmd. wps_steps.
  destruct (key_exists _ _); simpl; [by wps_steps|]. wps_steps.
  apply (Inv_touch K G q T m); [done|peel_later|peel_touch|].
  written. right. exists ZScheduled.
  apply (in_zset_zrem K HK _ _ _ ZArchived); [done..|].
  apply (in_zset_zrem K HK _ _ _ ZCompleted); [done..|]. apply (in_zset_zadd K _ _ ZScheduled).
Qed.

Lemma chainEnqueueCmd_inv q T encoded st :
  brace_free q → G q T encoded → Keeps (chainEnqueueCmd (TaskKey K q T) (StreamKey K q) encoded st T).
Proof.
  intros Hq HG m C O HI. unfold chainEnqueueCmd. wps_steps.
  destruct (key_exists _ _); [by wps_steps|]. wps_steps.
  apply (Inv_touch K G q T m); [done|peel_later|peel_touch|].
  written. found_appended m.
Qed.

Lemma chainScheduleCmd_inv q T encoded st sc :
  brace_free q → G q T encoded → Keeps (chainScheduleCmd (TaskKey K q T) (ScheduledKey K q) encoded st sc T).
Proof.
  intros Hq HG m C O HI. unfold chainScheduleCmd. wps_steps.
  destruct (key_exists _ _); [by wps_steps|]. wps_steps.
  apply (Inv_touch K G q T m); [done|peel_later|peel_touch|].
  written. right. exists ZScheduled. apply (in_zset_zadd K _ _ ZScheduled).
Qed.

(** Scripts run by a worker or a recoverer on an entry it once claimed.  The
    entry may meanwhile be gone; if it is there it carries the task. *)

Notation Keeps_claimed q e T p :=
  (∀ m C O, Inv K G m C O → (q, e, T) ∈ C → wps p (λ _ m', Inv K G m' C O) m).

Lemma claim_entry m C O q e T g f :
  Inv K G m C O → (q, e, T) ∈ C →
  ∀ T', (e, T') ∈ entries K (set_group (StreamKey K q) g f m) q → T' = T.
Proof.
  intros HI Hin T'. rewrite entries_set_group. by apply (inv_claims _ _ _ _ _ HI).
Qed.

Lemma moveToZSetCmd_inv q e T z g encoded st sc :
  brace_free q → G q T encoded →
  Keeps_claimed q e T (moveToZSetCmd (StreamKey K q) (TaskKey K q T) (zkey K q z) g e
                         encoded st sc T).
Proof.
  intros Hq HG m C O HI Hin. unfold moveToZSetCmd. wps_steps.
  apply (Inv_touch K G q T m); [done|peel_later|peel_touch|].
  - by eapply claim_entry.
  - written. right. exists z. apply in_zset_zadd.
Qed.

Lemma doneTx_inv q e T :
  brace_free q → Keeps_claimed q e T (doneTx (StreamKey K q) (TaskKey K q T) e).
Proof.
  intros Hq m C O HI Hin. unfold doneTx. wps_steps.
  apply (Inv_touch K G q T m); [done|peel_later|peel_touch|].
  - by eapply claim_entry.
  - intros b. by rewrite body_del.
Qed.

Lemma requeueCmd_inv q e T g st :
  brace_free q →
  Keeps_claimed q e T (requeueCmd (StreamKey K q) (TaskKey K q T) g e T st).
Proof.
  intros Hq m C O HI Hin. unfold requeueCmd. wps_steps.
  destruct (key_exists _ _) eqn:Hex; wps_steps.
  - apply (Inv_touch K G q T m); [done|peel_later|peel_touch|].
    + by eapply claim_entry.
    + kept m HI. intros _. found_appended m.
  - apply (Inv_touch K G q T m); [done|peel_later|peel_touch|].
    + by eapply claim_entry.
    + intros b. by rewrite (not_exists_body K _ _ _ Hex).
Qed.

(** Scripts that touch no task. *)
Lemma Inv_untouched m m' C O :
  Inv K G m C O → later K m m' → (∀ T, only_touches K "" T m m') → Inv K G m' C O.
Proof.
  intros HI Hl Ht. assert (brace_free "") as Hq by (by inversion 1).
  apply (Inv_touch K G "" "a" m); [done..|]. intros b Hb.
  destruct (Ht "b" "" "a" Hq) as (Eb & He & Hz); [done|]. rewrite Eb in Hb.
  split; [by eapply inv_bodies|].
  destruct (inv_found _ _ _ _ _ HI "" "a" Hq) as [(e & ? & ?)|[z ?]]; [congruence|left|right]; eauto.
Qed.

Ltac untouched m := apply (Inv_untouched m); [done|peel_later|intros ?; peel_touch].

Lemma releaseUniqueCmd_inv q suf T :
  brace_free q → Keeps (releaseUniqueCmd (UniqueKey K q suf) T).
Proof.
  intros Hq m C O HI. unfold releaseUniqueCmd. wps_steps.
  case_bool_decide; wps_steps; [untouched m|done].
Qed.

Lemma renewUniqueCmd_inv q suf ms :
  brace_free q → Keeps (renewUniqueCmd (UniqueKey K q suf) ms).
Proof.
  intros Hq m C O HI. unfold renewUniqueCmd. wps_steps.
  case_bool_decide; wps_steps; [untouched m|done].
Qed.

Lemma acquireOrRenewCmd_inv id ttl : Keeps (acquireOrRenewCmd (LeaderKey K) id ttl).
Proof.
  intros m C O HI. unfold acquireOrRenewCmd. wps_steps.
  destruct (k_str m !! LeaderKey K); [case_bool_decide|]; wps_steps; [untouched m|done|untouched m].
Qed.

Lemma resignCmd_inv id : Keeps (resignCmd (LeaderKey K) id).
Proof.
  intros m C O HI. unfold resignCmd. wps_steps. case_bool_decide; wps_steps; [untouched m|done].
Qed.

Lemma createGroupTx_inv q g ids : brace_free q → Keeps (createGroupTx (GroupKey K q g) ids).
Proof. intros Hq m C O HI. unfold createGroupTx. wps_steps. untouched m. Qed.

Lemma foreach_inv {A} (l : list A) (f : A → script ()) :
  (∀ x, x ∈ l → Keeps (f x)) → Keeps (foreach l f).
Proof.
  intros Hf m C O HI. apply (wps_foreach_inv (λ _ m', Inv K G m' C O)); [done| |done].
  intros l1 x l2 m' -> HI'. apply Hf; [set_solver|done].
Qed.

Lemma createGroupIfAbsentCmd_inv q g cb ttl ids :
  brace_free q →
  Keeps (createGroupIfAbsentCmd (GroupKey K q g) (TaskKey K q cb) (GroupResultKey K q g) ttl ids).
Proof.
  intros Hq m C O HI. unfold createGroupIfAbsentCmd, expire. wps_steps.
  destruct (key_exists _ _); [by wps_steps|]. wps_steps.
  destruct (key_exists _ _); wps_steps; [untouched m|].
  eapply wps_mono; [apply foreach_inv; [|exact HI]|].
  - intros x _ m1 C1 O1 HI1. wps_steps. untouched m1.
  - intros [] m1 HI1. wps_steps. untouched m1.
Qed.

(** The forwarder moves each due task from its ZSET to the stream. *)
Lemma forwardCmd_inv q z cutoff max st :
  brace_free q →
  Keeps (forwardCmd (zkey K q z) (StreamKey K q) cutoff max (TaskKeyPrefix K q) st).
Proof.
  intros Hq m C O HI. unfold forwardCmd. wps_steps.
  eapply wps_mono; [apply foreach_inv; [|exact HI]|].
  - intros T _ m1 C1 O1 HI1. wps_steps. rewrite TaskKey_concat.
    apply (Inv_touch K G q T m1); [done|peel_later|peel_touch|].
    kept m1 HI1. intros _. found_appended m1.
  - intros [] m1 HI1. by wps_steps.
Qed.

Lemma removeAll_inv q z ids :
  brace_free q → Keeps (removeAll (zkey K q z) (TaskKeyPrefix K q) ids).
Proof.
  intros Hq. apply foreach_inv. intros T _ m C O HI. wps_steps. rewrite TaskKey_concat.
  apply (Inv_touch K G q T m); [done|peel_later|peel_touch|].
  intros b Hb. exfalso.
  change (body K (del_key (TaskKey K q T) m) q T = Some b) in Hb. by rewrite body_del in Hb.
Qed.

Lemma trimArchivedCmd_inv q z cutoff batch maxSize :
  brace_free q →
  Keeps (trimArchivedCmd (zkey K q z) cutoff batch (TaskKeyPrefix K q) maxSize).
Proof.
  intros Hq m C O HI. unfold trimArchivedCmd. wps_steps.
  eapply wps_mono; [by apply removeAll_inv|]. intros [] m1 HI1.
  case_bool_decide; [|by wps_steps]. wps_steps. case_bool_decide; [|by wps_steps].
  wps_steps. eapply wps_mono; [by apply removeAll_inv|]. intros [] m2 HI2. by wps_steps.
Qed.

Lemma deleteTx_inv q T : brace_free q → Keeps (deleteTx K q T).
Proof.
  intros Hq m C O HI. unfold deleteTx. wps_steps.
  apply (Inv_touch K G q T m); [done|peel_later|peel_touch|]. intros b. by rewrite body_del.
Qed.

(** [RunTask] drops the task from the ZSETs only when it goes to the stream,
    or has no body. *)
Lemma runTaskCmd_inv q T st :
  brace_free q →
  Keeps (runTaskCmd (ScheduledKey K q) (RetryKey K q) (ArchivedKey K q) (CompletedKey K q)
           (StreamKey K q) (TaskKey K q T) T st).
Proof.
  intros Hq m C O HI. unfold runTaskCmd. wps_steps.
  set (m1 := do_zrem (ScheduledKey K q) T m). set (m2 := do_zrem (RetryKey K q) T m1).
  set (m3 := do_zrem (ArchivedKey K q) T m2). set (m4 := do_zrem (CompletedKey K q) T m3).
  case_bool_decide as Hsum; wps_steps.
  - apply (Inv_touch K G q T m); [done|subst m1 m2 m3 m4; peel_later|subst m1 m2 m3 m4; peel_touch|].
    intros b Hb. change (body K m q T = Some b) in Hb. split; [by eapply inv_bodies|].
    destruct (inv_found _ _ _ _ _ HI q T Hq ltac:(congruence)) as [(e & He & Ho)|[z Hz]]; [left; by exists e|].
    exfalso. destruct z.
    + rewrite (decide_True (P := is_Some (zset_at m (ScheduledKey K q) !! T))) in Hsum by done.
      repeat case_decide; lia.
    + rewrite (decide_True (P := is_Some (zset_at m1 (RetryKey K q) !! T))) in Hsum.
      * repeat case_decide; lia.
      * by apply (in_zset_zrem K HK m q ZRetry ZScheduled).
    + rewrite (decide_True (P := is_Some (zset_at m2 (ArchivedKey K q) !! T))) in Hsum.
      * repeat case_decide; lia.
      * by apply (in_zset_zrem K HK m1 q ZArchived ZRetry),
          (in_zset_zrem K HK m q ZArchived ZScheduled).
    + rewrite (decide_True (P := is_Some (zset_at m3 (CompletedKey K q) !! T))) in Hsum.
      * repeat case_decide; lia.
      * by apply (in_zset_zrem K HK m2 q ZCompleted ZArchived),
          (in_zset_zrem K HK m1 q ZCompleted ZRetry),
          (in_zset_zrem K HK m q ZCompleted ZScheduled).
  - destruct (key_exists m4 _) eqn:Hex; simpl; wps_steps; subst m1 m2 m3 m4.
    + apply (Inv_touch K G q T m); [done|peel_later|peel_touch|].
      kept m HI. intros _. found_appended m.
    + apply (Inv_touch K G q T m); [done|peel_later|peel_touch|].
      intros b. by rewrite (not_exists_body K _ _ _ Hex).
Qed.

Lemma readResults_pure key i n m (Q : list (option string) → keyspace → Prop) :
  (∀ rs, length rs = n → Q rs m) → wps (readResults key i n) Q m.
Proof.
  revert i Q. induction n as [|n IH]; intros i Q HQ; simpl; wps_steps; [by apply HQ|].
  apply IH. intros rs Hrs. wps_steps. apply HQ. simpl. by rewrite Hrs.
Qed.

(** The last report of a group creates the callback task and places it. *)
Lemma callback_inv q cb encoded st mode m1 C O :
  brace_free q → G q cb encoded → Inv K G m1 C O →
  wps (call (HSET (TaskKey K q cb) [("msg", encoded); ("state", itoa st)]);;
       (match mode with
        | ToStream => call (XADD (StreamKey K q) cb);; mret ()
        | ToZSet sc => call (ZADD (ScheduledKey K q) sc cb)
        end);; mret 1%Z) (λ _ m', Inv K G m' C O) m1.
Proof.
  intros Hq HG HI. destruct mode as [|sc]; wps_steps.
  - apply (Inv_touch K G q cb m1); [done|peel_later|peel_touch|].
    written. found_appended m1.
  - apply (Inv_touch K G q cb m1); [done|peel_later|peel_touch|].
    written. right. exists ZScheduled. apply (in_zset_zadd K _ _ ZScheduled).
Qed.

Definition destKey (q : string) (mode : dest) : string :=
  match mode with ToStream => StreamKey K q | ToZSet _ => ScheduledKey K q end.

Lemma groupCompleteCmd_inv q g cb mem encoded st mode ttl res idx size :
  brace_free q → G q cb encoded →
  (∀ rs, rs ≠ [] → G q cb (cjsonSetGroupResults encoded rs)) →
  Keeps (groupCompleteCmd (GroupKey K q g) (TaskKey K q cb) (destKey q mode)
           (GroupResultKey K q g) mem encoded st cb mode ttl res idx size).
Proof.
  intros Hq HG HGr m C O HI. unfold groupCompleteCmd, expire. wps_steps.
  destruct (key_exists _ _); simpl; wps_steps; [|done].
  set (m1 := do_srem _ _ _). assert (Inv K G m1 C O) as HI1 by (subst m1; untouched m).
  clearbody m1. apply (wps_mono _ (λ _ m', Inv K G m' C O)).
  { case_bool_decide; wps_steps; [done|]. untouched m1. }
  intros [] m2 HI2. wps_steps. case_bool_decide; wps_steps.
  { destruct (key_exists _ _); wps_steps; untouched m2. }
  apply (wps_mono _ (λ x m', G q cb x ∧ Inv K G m' C O)).
  { destruct (_ && _) eqn:Hsz; wps_steps; [|done]. apply readResults_pure. intros rs Hrs.
    wps_steps. split; [|done]. apply HGr. intros ->.
    apply andb_true_iff in Hsz as [_ Hsz%bool_decide_eq_true]. simpl in Hrs. lia. }
  intros cbmsg m3 [HGx HI3]. wps_steps. set (m4 := del_key _ _).
  assert (Inv K G m4 C O) as HI4 by (subst m4; untouched m3). clearbody m4.
  destruct (key_exists _ _); [by wps_steps|].
  destruct mode as [|sc]; [exact (callback_inv q cb cbmsg st ToStream m4 C O Hq HGx HI4)|].
  exact (callback_inv q cb cbmsg st (ToZSet sc) m4 C O Hq HGx HI4).
Qed.

(** Marking a task active. *)
Lemma markActive_inv q T : brace_free q →
  Keeps (call (HSET (TaskKey K q T) [("state", itoa StateActive)])).
Proof.
  intros Hq m C O HI. wps_steps. apply (Inv_touch K G q T m); [done|peel_later|peel_touch|].
  kept m HI. by apply (inv_found _ _ _ _ _ HI).
Qed.

(** *** Knowledge gained and orphans dropped *)

Lemma entry_unique st e T T' :
  stream_wf st → (e, T) ∈ st_entries st → (e, T') ∈ st_entries st → T = T'.
Proof.
  intros [Hnd _] H1 H2. revert H1 H2 Hnd.
  induction (st_entries st) as [|[e0 T0] l IH]; [by intros ?%elem_of_nil|].
  simpl. intros H1 H2 Hnd. apply NoDup_cons in Hnd as [Hni Hnd].
  assert (∀ T1, (e0, T1) ∉ l) as Hno.
  { intros T1 Hin. apply Hni. by apply (list_elem_of_fmap_2 fst _ (e0, T1)). }
  apply elem_of_cons in H1 as [[= -> ->]|H1], H2 as [H2|H2]; simplify_eq; [done| | |auto].
  - by destruct (Hno T').
  - by destruct (Hno T).
Qed.

(** Entries read from the stream become claims. *)
Lemma Inv_claim m C O q (es : list (sid * string)) :
  brace_free q → Inv K G m C O → (∀ x, x ∈ es → x ∈ entries K m q) →
  Inv K G m (list_to_set (map (λ x, (q, x.1, x.2)) es) ∪ C) O.
Proof.
  intros Hq [Hs Hc Ho Hd Hf Hbd] Hes. constructor; [done| |set_solver|done..].
  intros q' e T [Hin|Hin]%elem_of_union; [|by apply Hc].
  apply elem_of_list_to_set, list_elem_of_fmap in Hin as ([e' T'] & [= -> -> ->] & Hin).
  apply Hes in Hin. pose proof (Hs q Hq) as Hw. split_and!; [done| |].
  - destruct Hw as [_ Hle]. rewrite Forall_forall in Hle. by apply (Hle (e', T')).
  - intros T'' Hin'. by apply (entry_unique (queue_stream K m q) e').
Qed.

(** Seeing that a claimed task has no body. *)
Lemma Inv_orphan m C O q e T :
  Inv K G m C O → (q, e, T) ∈ C → body K m q T = None → Inv K G m C ({[(q, e, T)]} ∪ O).
Proof.
  intros [Hs Hc Ho Hd Hf Hbd] Hin Hb. constructor; [done|done|set_solver|done| |done].
  intros q' T' Hq Hb'. destruct (Hf q' T' Hq Hb') as [(e' & He & Hno)|Hz]; [left|by right].
  exists e'. split; [done|]. rewrite not_elem_of_union, not_elem_of_singleton.
  split; [|done]. intros [= -> -> ->]. done.
Qed.

Lemma ackDelete_inv q ids m C O :
  brace_free q → Inv K G m C O → (∀ e, e ∈ ids → ∃ T, (q, e, T) ∈ O) →
  wps (ackDelete (StreamKey K q) ids) (λ _ m', Inv K G m' C O) m.
Proof.
  intros Hq HI Hids. unfold ackDelete. wps_steps.
  set (m1 := do_xack _ _ _ _). assert (Inv K G m1 C O) as HI1 by (subst m1; untouched m).
  clearbody m1. assert (later K m1 (do_xdel (StreamKey K q) ids m1)) as Hl by peel_later.
  destruct HI1 as [Hs Hc Ho Hd Hf Hbd], Hl as [Hls Hle]. constructor.
  - intros q' Hq'. destruct (Hls q' Hq') as (_ & Hw & _). auto.
  - intros q' e T Hin. destruct (Hc q' e T Hin) as (Hq' & Hel & Hu).
    destruct (Hls q' Hq') as (? & _ & Hent). split_and!; [done|lia|].
    intros T' [?|]%Hent; [auto|lia].
  - done.
  - auto.
  - intros q' T Hq' Hb. destruct (Hf q' T Hq' Hb) as [(e & He & Hno)|Hz]; [left|by right].
    exists e. split; [|done]. revert He. unfold entries, queue_stream, stream_at; simpl.
    rewrite x_at_del. case_decide as E; [|done]. rewrite <- E. simpl. intros He.
    apply (queueKey_eq K HK q q' KStream KStream) in E as [<- _]; [|done..].
    apply list_elem_of_filter. split; [|done]. simpl. intros Hin.
    destruct (Hids e Hin) as [T' Ho']. destruct (Hc q e T') as (_ & _ & Hu); [by apply Ho|].
    apply Hno. by rewrite (Hu T He).
  - exact Hbd.
Qed.

(** Time passes: nothing durable expires. *)
Lemma elapse_inv dt m C O : Inv K G m C O → Inv K G (elapse dt m) C O.
Proof.
  intros [Hs Hc Ho Hd Hf Hbd].
  assert (∀ q x, brace_free q → durable x = true →
            live_at (k_now m + dt) m (queueKey K q x) = true) as Hlive.
  { intros q x Hq Hx. unfold live_at. by rewrite Hd. }
  assert (∀ (V : Type) (f : gmap string V) q x, brace_free q → durable x = true →
            filter (λ p : string * V, live_at (k_now m + dt) m p.1 = true) f !! queueKey K q x
            = f !! queueKey K q x) as Hfilter.
  { intros V f q x Hq Hx. rewrite map_lookup_filter.
    destruct (f !! queueKey K q x); simpl; [|done].
    by rewrite option_guard_True by (by apply Hlive). }
  assert (∀ q, brace_free q → queue_stream K (elapse dt m) q = queue_stream K m q) as Es.
  { intros q Hq. unfold queue_stream, stream_at, x_at; simpl.
    by rewrite (Hfilter _ _ q KStream). }
  assert (∀ q T, brace_free q → body K (elapse dt m) q T = body K m q T) as Eb.
  { intros q T Hq. unfold body, hget, hash_at, h_at; simpl.
    by rewrite (Hfilter _ _ q (KTask T)). }
  constructor.
  - intros q Hq. rewrite Es by done. auto.
  - intros q e T Hin. destruct (Hc q e T Hin) as (Hq & ? & ?).
    unfold entries. rewrite Es by done. done.
  - done.
  - intros q x Hq Hx. simpl. rewrite Hfilter by done. auto.
  - intros q T Hq. rewrite Eb by done. intros Hb. unfold findable, entries.
    rewrite Es by done. destruct (Hf q T Hq Hb) as [?|[z Hz]]; [by left|right].
    exists z. revert Hz. unfold in_zset, zset_at, z_at, zkey; simpl.
    rewrite Hfilter; [done|done|by destruct z].
  - intros q T b Hq. rewrite Eb by done. auto.
Qed.

(** ** The system *)

(** The atomic scripts and transactions the Go code sends, with the keys it
    builds; [C] is what the sender knows.  Queue names are free of closing
    braces. *)
Inductive atomic (C : gset claim_t) : ∀ A, script A → Prop :=
  | at_enqueue q T encoded st : brace_free q → G q T encoded →
      atomic C _ (enqueueCmd (TaskKey K q T) (StreamKey K q) (CompletedKey K q)
                    (ArchivedKey K q) encoded st T)
  | at_schedule q T encoded st sc : brace_free q → G q T encoded →
      atomic C _ (scheduleCmd (TaskKey K q T) (ScheduledKey K q) (CompletedKey K q)
                    (ArchivedKey K q) encoded st sc T)
  | at_enqueueUnique q T suf ttl encoded st : brace_free q → G q T encoded →
      atomic C _ (enqueueUniqueCmd (UniqueKey K q suf) (TaskKey K q T) (StreamKey K q)
                    (CompletedKey K q) (ArchivedKey K q) T ttl encoded st)
  | at_scheduleUnique q T suf ttl encoded st sc : brace_free q → G q T encoded →
      atomic C _ (scheduleUniqueCmd (UniqueKey K q suf) (TaskKey K q T) (ScheduledKey K q)
                    (CompletedKey K q) (ArchivedKey K q) T ttl encoded st sc)
  | at_periodic q T trig ttl encoded st : brace_free q → G q T encoded →
      atomic C _ (enqueuePeriodicCmd (PeriodicDedupKey K q trig) (TaskKey K q T)
                    (StreamKey K q) (CompletedKey K q) (ArchivedKey K q) T ttl encoded st)
  | at_chainEnqueue q T encoded st : brace_free q → G q T encoded →
      atomic C _ (chainEnqueueCmd (TaskKey K q T) (StreamKey K q) encoded st T)
  | at_chainSchedule q T encoded st sc : brace_free q → G q T encoded →
      atomic C _ (chainScheduleCmd (TaskKey K q T) (ScheduledKey K q) encoded st sc T)
  | at_createGroup q g ids : brace_free q → atomic C _ (createGroupTx (GroupKey K q g) ids)
  | at_createGroupIfAbsent q g cb ttl ids : brace_free q →
      atomic C _ (createGroupIfAbsentCmd (GroupKey K q g) (TaskKey K q cb)
                    (GroupResultKey K q g) ttl ids)
  | at_groupComplete q g cb mem encoded st mode ttl res idx size : brace_free q →
      G q cb encoded → (∀ rs, rs ≠ [] → G q cb (cjsonSetGroupResults encoded rs)) →
      atomic C _ (groupCompleteCmd (GroupKey K q g) (TaskKey K q cb) (destKey q mode)
                    (GroupResultKey K q g) mem encoded st cb mode ttl res idx size)
  | at_markActive q T : brace_free q →
      atomic C _ (call (HSET (TaskKey K q T) [("state", itoa StateActive)]))
  | at_move q e T z g encoded st sc : brace_free q → (q, e, T) ∈ C →
      G q T encoded →
      atomic C _ (moveToZSetCmd (StreamKey K q) (TaskKey K q T) (zkey K q z) g e
                    encoded st sc T)
  | at_done q e T : brace_free q → (q, e, T) ∈ C →
      atomic C _ (doneTx (StreamKey K q) (TaskKey K q T) e)
  | at_requeue q e T g st : brace_free q → (q, e, T) ∈ C →
      atomic C _ (requeueCmd (StreamKey K q) (TaskKey K q T) g e T st)
  | at_releaseUnique q suf T : brace_free q → atomic C _ (releaseUniqueCmd (UniqueKey K q suf) T)
  | at_renewUnique q suf ms : brace_free q → atomic C _ (renewUniqueCmd (UniqueKey K q suf) ms)
  | at_forward q z cutoff max st : brace_free q →
      atomic C _ (forwardCmd (zkey K q z) (StreamKey K q) cutoff max (TaskKeyPrefix K q) st)
  | at_trim q z cutoff batch maxSize : brace_free q →
      atomic C _ (trimArchivedCmd (zkey K q z) cutoff batch (TaskKeyPrefix K q) maxSize)
  | at_runTask q T st : brace_free q →
      atomic C _ (runTaskCmd (ScheduledKey K q) (RetryKey K q) (ArchivedKey K q)
                    (CompletedKey K q) (StreamKey K q) (TaskKey K q T) T st)
  | at_delete q T : brace_free q → atomic C _ (deleteTx K q T)
  | at_leader id ttl : atomic C _ (acquireOrRenewCmd (LeaderKey K) id ttl)
  | at_resign id : atomic C _ (resignCmd (LeaderKey K) id)
  | at_ensureGroup q g : brace_free q → atomic C _ (call (XGROUPCREATE (StreamKey K q) g))
  | at_lease q g c ids : brace_free q → atomic C _ (call (XCLAIMJUSTID (StreamKey K q) g c ids))
  | at_read A (p : script A) : (∀ s, ks (p s).1 = ks s) → atomic C A p
  | at_registerQueue x : atomic C _ (call (SADD (QueuesKey K) x))
  | at_pause x : atomic C _ (call (SADD (PausedKey K) x))
  | at_resume x : atomic C _ (call (SREM (PausedKey K) x))
  | at_lastFired i v : atomic C _ (call (SET (ScheduleLastFiredKey K i) v))
  | at_dropLastFired i : atomic C _ (call (DEL [ScheduleLastFiredKey K i]))
  | at_register fvs : atomic C _ (call (HSET (SchedulesKey K) fvs))
  | at_unregister fs : atomic C _ (call (HDEL (SchedulesKey K) fs)).

(** One step of the system: a process runs an atomic script, reads entries
    of a stream, looks a body up in vain, drops entries it knows to be
    orphans, changes nothing observable, or time passes. *)
Inductive step : sys → sys → Prop :=
  | step_atomic A (p : script A) s C O :
      atomic C A p → step (MkSys s C O) (MkSys (p s).1 C O)
  | step_read q g c n es s C O :
      brace_free q → (exec (XREADGROUP (StreamKey K q) g c n) s).2 = Some es →
      step (MkSys s C O)
        (MkSys (exec (XREADGROUP (StreamKey K q) g c n) s).1
           (list_to_set (map (λ x, (q, x.1, x.2)) es) ∪ C) O)
  | step_reclaim q g c idle n es s C O :
      brace_free q → (exec (XAUTOCLAIM (StreamKey K q) g c idle n) s).2 = Some es →
      step (MkSys s C O)
        (MkSys (exec (XAUTOCLAIM (StreamKey K q) g c idle n) s).1
           (list_to_set (map (λ x, (q, x.1, x.2)) es) ∪ C) O)
  | step_look q e T s C O :
      (q, e, T) ∈ C → hget (ks s) (TaskKey K q T) "msg" = None →
      step (MkSys s C O) (MkSys s C ({[(q, e, T)]} ∪ O))
  | step_dropOrphans q ids s C O :
      brace_free q → (∀ e, e ∈ ids → ∃ T, (q, e, T) ∈ O) →
      step (MkSys s C O) (MkSys (ackDelete (StreamKey K q) ids s).1 C O)
  | step_same s s' C O :
      ks s' = ks s → step (MkSys s C O) (MkSys s' C O)
  | step_time dt s C O :
      (0 ≤ dt)%Z → step (MkSys s C O) (MkSys (elapse_store dt s) C O).

Lemma atomic_inv C A (p : script A) m O :
  atomic C A p → Inv K G m C O → wps p (λ _ m', Inv K G m' C O) m.
Proof.
  destruct 1; intros HI;
    eauto using enqueueCmd_inv, scheduleCmd_inv, enqueueUniqueCmd_inv, scheduleUniqueCmd_inv,
      enqueuePeriodicCmd_inv, chainEnqueueCmd_inv, chainScheduleCmd_inv, createGroupTx_inv,
      createGroupIfAbsentCmd_inv, groupCompleteCmd_inv, markActive_inv, moveToZSetCmd_inv,
      doneTx_inv, requeueCmd_inv, releaseUniqueCmd_inv, renewUniqueCmd_inv, forwardCmd_inv,
      trimArchivedCmd_inv, runTaskCmd_inv, deleteTx_inv, acquireOrRenewCmd_inv, resignCmd_inv;
    try (wps_steps; try case_bool_decide; first [by untouched m|done]).
  by intros s <-; rewrite H.
Qed.

(** More knowledge permits more. *)
Lemma atomic_mono C C' A (p : script A) : C ⊆ C' → atomic C A p → atomic C' A p.
Proof. intros HC. destruct 1; constructor; done || by apply HC. Qed.

Lemma elem_of_undelivered st gr x n : x ∈ take n (undelivered st gr) → x ∈ st_entries st.
Proof.
  intros Hx. eapply elem_of_submseteq in Hx; [|apply sublist_submseteq, sublist_take].
  by apply list_elem_of_filter in Hx as [_ ?].
Qed.

Lemma elem_of_autoclaimed now idle n ok st gr x :
  x ∈ autoclaimed now idle n ok st gr → x ∈ st_entries st.
Proof.
  unfold autoclaimed. intros (i & _ & Hi)%list_elem_of_omap. unfold entry_of in Hi.
  destruct (list_find _ _) as [[j y]|] eqn:E; [|done]. simplify_eq/=.
  apply list_find_Some in E as (E & _). by apply list_elem_of_lookup_2 in E.
Qed.

(** Every step keeps the invariant. *)
Lemma step_inv σ σ' :
  step σ σ' → Inv K G (ks (s_store σ)) (s_claims σ) (s_orphans σ) →
  Inv K G (ks (s_store σ')) (s_claims σ') (s_orphans σ').
Proof.
  destruct 1 as [A p s C O Hp|q g c n es s C O Hq Hes|q g c idle n es s C O Hq Hes
                |q e T s C O Hin Hb|q ids s C O Hq Hids|s s' C O Hs|dt s C O Hdt]; simpl; intros HI.
  - by apply (atomic_inv C A p (ks s) O Hp HI s).
  - pose proof (exec_reply _ (XREADGROUP (StreamKey K q) g c n) s) as Hr.
    rewrite exec_effect. rewrite Hes in *. cbn [cmd_reply cmd_effect] in *.
    apply Inv_claim; [done|untouched (ks s)|]. intros x Hx. rewrite entries_set_group.
    destruct (group_at _ _ _); simplify_eq/=. by eapply elem_of_undelivered.
  - pose proof (exec_reply _ (XAUTOCLAIM (StreamKey K q) g c idle n) s) as Hr.
    rewrite exec_effect. rewrite Hes in *. cbn [cmd_reply cmd_effect] in *.
    apply Inv_claim; [done|untouched (ks s)|]. intros x Hx. rewrite entries_set_group.
    destruct Hr as (ok & _ & Hr). destruct (group_at _ _ _); simplify_eq/=.
    by eapply elem_of_autoclaimed.
  - by apply Inv_orphan.
  - by apply (ackDelete_inv q ids (ks s) C O Hq HI Hids s).
  - by rewrite Hs.
  - rewrite elapse_effect by done. by apply elapse_inv.
Qed.

(** The system starts on an empty server, with nobody knowing anything. *)
Definition initial (σ : sys) : Prop :=
  ks (s_store σ) = empty_keyspace ∧ s_claims σ = ∅ ∧ s_orphans σ = ∅.

Definition reachable (σ : sys) : Prop := ∃ σ0, initial σ0 ∧ rtc step σ0 σ.

Lemma initial_inv σ : initial σ → Inv K G (ks (s_store σ)) (s_claims σ) (s_orphans σ).
Proof.
  intros (-> & -> & ->). constructor; [|set_solver|done..].
  intros q _. split; simpl; [apply NoDup_nil_2|constructor].
Qed.

Lemma reachable_inv σ : reachable σ → Inv K G (ks (s_store σ)) (s_claims σ) (s_orphans σ).
Proof.
  intros (σ0 & H0 & Hsteps). apply initial_inv in H0.
  induction Hsteps; [done|]. eauto using step_inv.
Qed.

(** C4: no accepted task is lost.  Whatever the interleaving of clients,
    workers, forwarders, recoverers, janitors and schedulers, including
    workers that act on entries taken from them, failures between any two
    scripts and the passage of time, a task whose body is stored is in the
    stream of its queue or in one of its state ZSETs. *)
Theorem no_task_lost σ q T :
  reachable σ → brace_free q → hget (ks (s_store σ)) (TaskKey K q T) "msg" ≠ None →
  (∃ e, (e, T) ∈ st_entries (stream_at (ks (s_store σ)) (StreamKey K q))) ∨
  (∃ z, is_Some (zset_at (ks (s_store σ)) (zkey K q z) !! T)).
Proof.
  intros Hr Hq Hb. apply reachable_inv in Hr.
  destruct (inv_found _ _ _ _ _ Hr q T Hq Hb) as [(e & He & _)|[z Hz]]; [left|right]; eauto.
Qed.

End scripts.

(** No demand on stored bodies. *)
Definition any_body : string → string → string → Prop := λ _ _ _, True.

(** A task enqueued, read by a worker and moved to the retry ZSET. *)
Definition demo : RefRedis.RefRedis.(store) → list (RefRedis.RefRedis.(store)) := λ s0,
  let s1 := (enqueueCmd (TaskKey DefaultKeys "q" "t") (StreamKey DefaultKeys "q")
               (CompletedKey DefaultKeys "q") (ArchivedKey DefaultKeys "q") "body" 1 "t" s0).1 in
  let s2 := (call (XGROUPCREATE (StreamKey DefaultKeys "q") ConsumerGroup) s1).1 in
  let s3 := (exec (XREADGROUP (StreamKey DefaultKeys "q") ConsumerGroup "w1" 1) s2).1 in
  let s4 := (moveToZSetCmd (StreamKey DefaultKeys "q") (TaskKey DefaultKeys "q" "t")
               (zkey DefaultKeys "q" ZRetry) ConsumerGroup 1 "body" 4 0 "t" s3).1 in
  [s1; s2; s3; s4].

Lemma no_task_lost_witness :
  ∃ σ, reachable DefaultKeys any_body σ
       ∧ hget (ks (s_store σ)) (TaskKey DefaultKeys "q" "t") "msg" = Some "body"
       ∧ ((∃ e, (e, "t") ∈ st_entries (stream_at (ks (s_store σ)) (StreamKey DefaultKeys "q"))) ∨
          (∃ z, is_Some (zset_at (ks (s_store σ)) (zkey DefaultKeys "q" z) !! "t"))).
Proof.
  assert (valid_keys DefaultKeys) as HK by (by exists "chronos").
  assert (brace_free "q") as Hq by (by apply (bool_decide_unpack (brace_free "q"))).
  pose (s0 := empty_keyspace : store).
  pose (nth n := default s0 (demo s0 !! n)).
  pose (C := list_to_set (map (λ x : Z * string, ("q", x.1, x.2)) [(1%Z, "t")]) ∪ ∅
             : gset claim_t).
  assert (reachable DefaultKeys any_body (MkSys (nth 3) C ∅)) as Hr.
  { exists (MkSys s0 ∅ ∅). split; [done|].
    eapply rtc_l; [exact (step_atomic DefaultKeys any_body _ _ s0 ∅ ∅
                            (at_enqueue DefaultKeys any_body ∅ "q" "t" "body" 1 Hq I))|].
    eapply rtc_l; [exact (step_atomic DefaultKeys any_body _ _ (nth 0) ∅ ∅
                            (at_ensureGroup DefaultKeys any_body ∅ "q" ConsumerGroup Hq))|].
    eapply rtc_l; [apply (step_read DefaultKeys any_body "q" ConsumerGroup "w1" 1 [(1%Z, "t")] (nth 1));
                   [done|by vm_compute]|].
    eapply rtc_l; [|apply rtc_refl].
    refine (step_atomic DefaultKeys any_body _ _ (nth 2) C ∅
              (at_move DefaultKeys any_body C "q" 1 "t" ZRetry ConsumerGroup "body" 4 0 Hq _ I)).
    set_solver. }
  exists (MkSys (nth 3) C ∅). split; [done|]. split; [by vm_compute|].
  apply (no_task_lost DefaultKeys HK any_body); [done..|]. by vm_compute.
Defined.

End Lifecycle.
