(* ===== verification/Retry.v ===== *)
(** * retry.go: retry delays and non-retryable errors

    [rand.Int63n] is a parameter with its documented contract.  Errors are
    trees, as [errors.As] sees them through [Unwrap]. *)

From S2P Require Import Prelude GoLib.

Module Retry.
Import GoTime.

(** A Go error: a leaf, a wrapper with a message, several joined errors, or
    the marker [SkipRetry] puts around an error. *)
Inductive error :=
  | ErrLeaf (text : string)
  | ErrWrap (text : string) (inner : error)
  | ErrJoin (inner : list error)
  | skipRetryError (inner : error).

Definition SkipRetry (e : error) : error := skipRetryError e.

(** [errors.As(err, &se)]: depth first through the tree. *)
Fixpoint asSkipRetry (e : error) : bool :=
  match e with
  | ErrLeaf _ => false
  | ErrWrap _ e => asSkipRetry e
  | ErrJoin es => (fix go es := match es with [] => false | e :: es => asSkipRetry e || go es end) es
  | skipRetryError _ => true
  end.

Definition retryBaseDelay : Z := 5 * Second.
Definition retryMaxDelay : Z := 15 * Minute.

(** [int64(min(base * 2^retried, max))].  The product is a double: the base
    times a power of two is exact, and an infinite one exceeds the maximum.
    A negative exponent divides, and the conversion truncates. *)
Definition retryCeiling (retried : Z) : Z :=
  let ceiling := if bool_decide (0 ≤ retried)%Z then (retryBaseDelay * 2 ^ retried)%Z
                 else (retryBaseDelay `div` 2 ^ (- retried))%Z in
  if bool_decide (retryMaxDelay < ceiling)%Z then retryMaxDelay else ceiling.

(** [rnd n] is the draw of [rand.Int63n(n)]. *)
Definition DefaultRetryDelay (rnd : Z → Z) (retried : Z) : Z := rnd (retryCeiling retried + 1)%Z.

(** ** Properties *)

Lemma retryCeiling_range retried : (0 ≤ retryCeiling retried ≤ retryMaxDelay)%Z.
Proof.
  unfold retryCeiling.
  assert (0 ≤ if bool_decide (0 ≤ retried) then retryBaseDelay * 2 ^ retried
              else retryBaseDelay `div` 2 ^ - retried)%Z as H0.
  { case_bool_decide.
    - apply Z.mul_nonneg_nonneg; [done|]. apply Z.pow_nonneg. lia.
    - apply Z.div_pos; [done|]. apply Z.pow_pos_nonneg; lia. }
  set (c := if bool_decide (0 ≤ retried)%Z then _ else _) in *. clearbody c.
  case_bool_decide; [unfold retryMaxDelay, Minute, Second; lia|lia].
Qed.

(** C39: the default backoff: the call of the random generator is legal, the
    delay lies between zero and fifteen minutes whatever the retry count (it
    does not overflow), it stays below the exponential ceiling
    [5s * 2^retried], and from the eighth retry on the ceiling is the cap. *)
Theorem retry_delay_bounds (rnd : Z → Z) retried :
  (∀ n, 0 < n → 0 ≤ rnd n < n)%Z →
  (0 < retryCeiling retried + 1 ≤ int64_max ∧
   0 ≤ DefaultRetryDelay rnd retried ≤ retryMaxDelay ∧
   (0 ≤ retried → DefaultRetryDelay rnd retried ≤ retryBaseDelay * 2 ^ retried) ∧
   (8 ≤ retried → retryCeiling retried = retryMaxDelay))%Z.
Proof.
  intros Hrnd. pose proof (retryCeiling_range retried) as Hc.
  assert (retryMaxDelay + 1 ≤ int64_max)%Z by done.
  specialize (Hrnd (retryCeiling retried + 1)%Z ltac:(lia)).
  unfold DefaultRetryDelay. split_and!; [lia..| |].
  - intros Hr. transitivity (retryCeiling retried); [lia|].
    unfold retryCeiling. rewrite (bool_decide_true (0 ≤ retried)%Z) by done.
    case_bool_decide; lia.
  - intros Hr. unfold retryCeiling. rewrite (bool_decide_true (0 ≤ retried)%Z) by lia.
    rewrite bool_decide_true; [done|].
    assert (2 ^ 8 ≤ 2 ^ retried)%Z by (apply Z.pow_le_mono_r; lia).
    unfold retryMaxDelay, retryBaseDelay, Minute, Second. lia.
Qed.

Lemma retry_delay_bounds_witness :
  (DefaultRetryDelay (λ n, n - 1) 2 = 20 * Second ∧
   DefaultRetryDelay (λ n, n - 1) 2 ≤ retryBaseDelay * 2 ^ 2)%Z.
Proof.
  split; [done|].
  pose proof (retry_delay_bounds (λ n, n - 1)%Z 2 ltac:(intros; lia)) as (_ & _ & H & _).
  by apply H.
Defined.

(** [SkipRetry] was applied somewhere inside the error. *)
Inductive marked : error → Prop :=
  | marked_skip e : marked (SkipRetry e)
  | marked_wrap s e : marked e → marked (ErrWrap s e)
  | marked_join es e : e ∈ es → marked e → marked (ErrJoin es).

Lemma asSkipRetry_join es : asSkipRetry (ErrJoin es) = true ↔ ∃ e, e ∈ es ∧ asSkipRetry e = true.
Proof.
  simpl. induction es as [|e es IH]; [set_solver|].
  rewrite orb_true_iff, IH. set_solver.
Qed.

Lemma asSkipRetry_marked : ∀ e, asSkipRetry e = true → marked e.
Proof.
  fix IH 1. intros [s|s e|es|e].
  - done.
  - intros H. apply marked_wrap, IH, H.
  - simpl. induction es as [|e es IHes]; [done|].
    intros [H|H]%orb_true_iff.
    + apply (marked_join _ e); [left|]. apply IH, H.
    + apply IHes in H. inversion H. eapply marked_join; [right|]; eauto.
  - intros _. apply marked_skip.
Qed.

(** An error is treated as non-retryable exactly when [SkipRetry] was
    applied somewhere inside it: wrapping keeps the marker, joining keeps the
    marker of any member, and an error built without it never has it. *)
Theorem asSkipRetry_correct e : asSkipRetry e = true ↔ marked e.
Proof.
  split; [apply asSkipRetry_marked|].
  induction 1 as [e|s e _ IH|es e He _ IH]; [done|done|].
  apply asSkipRetry_join. eauto.
Qed.

End Retry.
