(* ===== verification/Schedule.v ===== *)
(** * schedule.go: which triggers of a schedule to fire

    [computeFires] decides, from the time a schedule last fired, which of
    the triggers up to now to enqueue.  The schedule's [Next] (robfig/cron)
    is a parameter. *)

From S2P Require Import Prelude GoLib.

Module Schedule.
Import GoTime.

Inductive MisfirePolicy := MisfireSkip | MisfireFireOnce.

#[global] Instance MisfirePolicy_eq_dec : EqDecision MisfirePolicy.
Proof. solve_decision. Defined.

Definition maxScan : nat := N.to_nat 100000.

Lemma maxScan_pos : 0 < maxScan.
Proof. unfold maxScan. lia. Qed.

#[global] Opaque maxScan.

Section fires.
Context (Next : Z → Z).

(** The loop: [for i := 0; i < maxScan; i++]. *)
Fixpoint scan (fuel : nat) (now latest : Z) : Z :=
  match fuel with
  | 0 => latest
  | S fuel => if bool_decide (now < Next latest)%Z then latest else scan fuel now (Next latest)
  end.

Definition computeFires (lastFired now : Z) (policy : MisfirePolicy) : list Z * Z :=
  let next := Next lastFired in
  if bool_decide (now < next)%Z then ([], lastFired) else
  let latest := scan maxScan now next in
  let gap := bool_decide (next < latest)%Z in
  if negb gap then ([next], next)
  else if decide (policy = MisfireFireOnce) then ([latest], latest)
  else ([], latest).

(** The triggers after [t]: [Next t], [Next (Next t)], ... *)
Fixpoint trigger (n : nat) (t : Z) : Z :=
  match n with 0 => Next t | S n => trigger n (Next t) end.

Lemma trigger_S n t : trigger (S n) t = Next (trigger n t).
Proof. revert t. induction n as [|n IH]; intros t; [done|]. apply (IH (Next t)). Qed.

(** ** Properties *)

(** The contract of [Next] for a schedule that always has a next trigger. *)
Hypothesis Next_later : ∀ t, (t < Next t)%Z.

Lemma trigger_gt n t : (t < trigger n t)%Z.
Proof.
  revert t. induction n as [|n IH]; intros t; simpl; [done|].
  specialize (IH (Next t)). specialize (Next_later t). lia.
Qed.

Lemma trigger_mono n k t : n < k → (trigger n t < trigger k t)%Z.
Proof.
  induction 1 as [|k Hk IH]; rewrite trigger_S; [done|].
  specialize (Next_later (trigger k t)). lia.
Qed.

(** The scan returns the last trigger that is due, or the one where it gave
    up. *)
Lemma scan_spec fuel now t :
  (t ≤ now)%Z →
  ∃ n, n ≤ fuel ∧ scan fuel now t = (match n with 0 => t | S n => trigger n t end)
       ∧ (scan fuel now t ≤ now)%Z
       ∧ (n < fuel → (now < Next (scan fuel now t))%Z).
Proof.
  revert t. induction fuel as [|fuel IH]; intros t Ht; simpl; [exists 0; split_and!; auto; lia|].
  case_bool_decide as Hn; [exists 0; split_and!; auto; lia|].
  destruct (IH (Next t) ltac:(lia)) as (n & Hle & E & Hnow & Hlt).
  exists (S n). split_and!; [lia|by rewrite E; destruct n|done|].
  intros. apply Hlt. lia.
Qed.

(** C37: at most one trigger is fired, it is a trigger of the schedule that
    lies after the recorded last firing and not in the future, and the record
    moves to it: a trigger is never fired twice and never early, and the
    record never moves backwards or past the present. *)
Theorem computeFires_safe lastFired now policy :
  let (fires, last') := computeFires lastFired now policy in
  length fires ≤ 1 ∧ (lastFired ≤ last')%Z ∧
  (last' = lastFired ∨ ∃ n, last' = trigger n lastFired ∧ last' ≤ now)%Z ∧
  ∀ f, f ∈ fires → f = last' ∧ (lastFired < f ≤ now)%Z ∧ ∃ n, f = trigger n lastFired.
Proof.
  unfold computeFires. case_bool_decide as Hdue;
    [split_and!; [simpl; lia|lia|by left|by intros f ?%elem_of_nil]|].
  destruct (scan_spec maxScan now (Next lastFired) ltac:(lia)) as (n & Hn & E & Hle & _).
  set (latest := scan _ _ _) in *. clearbody latest.
  assert (latest = trigger n lastFired) as Et by (by rewrite E; destruct n).
  pose proof (trigger_gt n lastFired). pose proof (Next_later lastFired).
  destruct (bool_decide (Next lastFired < latest)%Z) eqn:Hgap; simpl.
  - destruct policy; simpl; (split_and!; [lia|lia|right; exists n; lia|]).
    + by intros f ?%elem_of_nil.
    + intros f ->%list_elem_of_singleton. split_and!; [done|lia|lia|eauto].
  - split_and!; [lia|lia|right; exists 0; split; [done|lia]|].
    intros f ->%list_elem_of_singleton. split_and!; [done|lia|lia|by exists 0].
Qed.


End fires.

Lemma computeFires_safe_witness :
  computeFires (λ t, t + 10)%Z 0 35 MisfireFireOnce = ([30%Z], 30%Z) ∧
  let (fires, last') := computeFires (λ t, t + 10)%Z 0 35 MisfireFireOnce in
  length fires ≤ 1 ∧ (0 ≤ last')%Z ∧
  (last' = 0 ∨ ∃ n, last' = trigger (λ t, t + 10)%Z n 0 ∧ last' ≤ 35)%Z ∧
  ∀ f, f ∈ fires → f = last' ∧ (0 < f ≤ 35)%Z ∧ ∃ n, f = trigger (λ t, t + 10)%Z n 0.
Proof.
  split; [by vm_compute|]. apply (computeFires_safe (λ t, t + 10)%Z). intros; lia.
Defined.


(** A schedule that has no next trigger, for which [Next] answers the
    zero time, is treated as due: every tick fires a trigger dated year 1 and
    moves the record back to it. *)
Theorem computeFires_unsatisfiable lastFired now policy :
  (zeroTime ≤ now)%Z →
  computeFires (λ _, zeroTime) lastFired now policy = ([zeroTime], zeroTime).
Proof.
  intros Hnow. unfold computeFires. rewrite bool_decide_false by lia.
  assert (∀ fuel, scan (λ _, zeroTime) fuel now zeroTime = zeroTime) as ->.
  { induction fuel as [|fuel IH]; simpl; [done|]. by rewrite bool_decide_false by lia. }
  by rewrite bool_decide_false by lia.
Qed.

Lemma computeFires_unsatisfiable_witness :
  computeFires (λ _, zeroTime) 0 (1700000000 * Second) MisfireSkip = ([zeroTime], zeroTime).
Proof. by apply computeFires_unsatisfiable. Defined.

End Schedule.
