(* ===== verification/ScoreSpec.v ===== *)
(** * schedule.go of internal/rdb: the score of a delayed task

    [scheduleScore] computes with doubles.  The forwarder promotes a task
    when the score of the current time reaches the score of the task. *)

From S2P Require Import Prelude GoLib Redis Client RdbCore.

Module ScoreSpec.
Import GoTime GoFloat RdbCore.

(** The quotient with its sticky bit, before rounding. *)
Definition sticky (ns : Z) : Z :=
  let q := ((ns * score_unit) `div` Second)%Z in
  if bool_decide ((ns * score_unit) `mod` Second = 0)%Z then q
  else if Z.odd q then q else (q + 1)%Z.

Lemma nsFraction_sticky ns : nsFraction ns = f64 (sticky ns).
Proof. done. Qed.

Lemma sticky_bounds ns :
  (ns * score_unit ≤ Second * (sticky ns + 1) ∧ Second * (sticky ns - 1) ≤ ns * score_unit)%Z.
Proof.
  unfold sticky. pose proof (Z.div_mod (ns * score_unit) Second).
  pose proof (Z.mod_pos_bound (ns * score_unit) Second eq_refl).
  assert (0 < Second)%Z by done. repeat case_match; nia.
Qed.

Lemma sticky_mono a b : (a ≤ b)%Z → (sticky a ≤ sticky b)%Z.
Proof.
  intros Hab. destruct (decide (a = b)) as [->|]; [done|].
  assert (a * score_unit + 2 * Second ≤ b * score_unit)%Z.
  { assert (2 * Second ≤ score_unit)%Z by (vm_compute; discriminate).
    assert ((a + 1) * score_unit ≤ b * score_unit)%Z
      by (apply Z.mul_le_mono_nonneg_r; [by vm_compute|lia]). lia. }
  unfold sticky. pose proof (Z.div_mod (a * score_unit) Second).
  pose proof (Z.mod_pos_bound (a * score_unit) Second eq_refl).
  pose proof (Z.div_mod (b * score_unit) Second).
  pose proof (Z.mod_pos_bound (b * score_unit) Second eq_refl).
  assert (0 < Second)%Z by done. repeat case_match; nia.
Qed.

Lemma sticky_range ns : (0 ≤ ns < Second)%Z → (0 ≤ sticky ns ≤ score_unit)%Z.
Proof.
  intros Hns. split.
  - transitivity (sticky 0); [by vm_compute|]. apply sticky_mono; lia.
  - transitivity (sticky Second); [apply sticky_mono; lia|]. by vm_compute.
Qed.

Lemma nsFraction_range ns : (0 ≤ ns < Second)%Z → (0 ≤ nsFraction ns ≤ score_unit)%Z.
Proof.
  intros Hns. pose proof (sticky_range ns Hns). rewrite nsFraction_sticky. split.
  - apply f64_nonneg; lia.
  - transitivity (f64 score_unit); [apply f64_mono; lia|by vm_compute].
Qed.

Lemma ofInt_mono a b : (0 ≤ a ≤ b)%Z → (ofInt a ≤ ofInt b)%Z.
Proof. intros H. unfold ofInt, score_unit. apply f64_mono; lia. Qed.

Lemma ofInt_nonneg a : (0 ≤ a)%Z → (0 ≤ ofInt a)%Z.
Proof. intros H. apply (ofInt_mono 0). lia. Qed.

(** The time values for which whole seconds are exact doubles. *)
Definition in_range (t : Z) : Prop := (0 ≤ t ∧ Unix t < 2 ^ 53 - 1)%Z.

(** Rounding is off by at most half a unit in the last place. *)
Lemma rne_error x e : (0 ≤ e)%Z → (2 * Z.abs (rne x e - x) ≤ 2 ^ e)%Z.
Proof.
  intros He. pose proof (Z.pow_pos_nonneg 2 e ltac:(lia) He). unfold rne.
  pose proof (Z.div_mod x (2 ^ e)). pose proof (Z.mod_pos_bound x (2 ^ e)).
  destruct (Z.compare_spec (2 * (x `mod` 2 ^ e)) (2 ^ e)); repeat case_match; nia.
Qed.

Lemma f64_error x k : (0 ≤ x < 2 ^ k)%Z → (53 ≤ k)%Z → (2 * Z.abs (f64 x - x) ≤ 2 ^ (k - 53))%Z.
Proof.
  intros Hx Hk. unfold f64. etrans; [apply rne_error; lia|].
  apply Z.pow_le_mono_r; [lia|]. destruct (decide (x = 0)%Z) as [->|]; [simpl; lia|].
  rewrite Z.abs_eq by lia. assert (Z.log2 x < k)%Z by (apply Z.log2_lt_pow2; lia). lia.
Qed.

Lemma scheduleScore_mono t t' :
  in_range t → in_range t' → (t ≤ t' → scheduleScore t ≤ scheduleScore t')%Z.
Proof.
  intros [Ht Hu] [Ht' Hu'] Htt. unfold scheduleScore, fadd.
  pose proof (Nanosecond_range t) as Hn. pose proof (Nanosecond_range t') as Hn'.
  pose proof (nsFraction_range _ Hn). pose proof (nsFraction_range _ Hn').
  pose proof (Unix_Nanosecond t). pose proof (Unix_Nanosecond t').
  assert (0 ≤ Unix t)%Z by (apply Z.div_pos; done).
  assert (Unix t ≤ Unix t')%Z by (apply Z.div_le_mono; done).
  rewrite !ofInt_exact by lia.
  apply f64_mono; [unfold score_unit in *; lia|].
  destruct (decide (Unix t = Unix t')) as [E|].
  - rewrite E in *. apply Z.add_le_mono_l. rewrite !nsFraction_sticky.
    apply f64_mono; [by apply sticky_range|]. apply sticky_mono. lia.
  - assert (Unix t + 1 ≤ Unix t')%Z by lia.
    assert ((Unix t + 1) * score_unit ≤ Unix t' * score_unit)%Z
      by (apply Z.mul_le_mono_nonneg_r; [by vm_compute|done]).
    lia.
Qed.

Lemma scheduleScore_error t :
  (0 ≤ t → Unix t < 2 ^ 33 →
   Z.abs (scheduleScore t * Second - t * score_unit) * 1000000 ≤ Second * score_unit)%Z.
Proof.
  intros Ht Hu. unfold scheduleScore, fadd.
  pose proof (Nanosecond_range t) as Hn. pose proof (Unix_Nanosecond t) as Et.
  assert (0 ≤ Unix t)%Z by (apply Z.div_pos; done).
  rewrite ofInt_exact by lia. set (s := Unix t) in *. set (ns := Nanosecond t) in *.
  pose proof (nsFraction_range _ Hn). pose proof (sticky_range _ Hn).
  pose proof (sticky_bounds ns).
  assert (2 * Z.abs (nsFraction ns - sticky ns) ≤ 2 ^ (91 - 53))%Z as E1.
  { rewrite nsFraction_sticky. apply f64_error; unfold score_unit in *; lia. }
  assert (2 * Z.abs (f64 (s * score_unit + nsFraction ns) - (s * score_unit + nsFraction ns))
          ≤ 2 ^ (124 - 53))%Z as E2.
  { apply f64_error; unfold score_unit in *; lia. }
  set (f := f64 _) in *. rewrite Et. unfold score_unit, Second in *. lia.
Qed.

(** An order of scores is one of times, but for their rounding. *)
Lemma scheduleScore_order t t' :
  (0 ≤ t → Unix t < 2 ^ 33 → 0 ≤ t' → Unix t' < 2 ^ 33 →
   scheduleScore t ≤ scheduleScore t' → t ≤ t' + 2000)%Z.
Proof.
  intros H1 H2 H3 H4 Hle. pose proof (scheduleScore_error t H1 H2). pose proof (scheduleScore_error t' H3 H4).
  unfold score_unit, Second in *. lia.
Qed.

(** C36: a delayed task is never promoted late because of its score: the
    score is monotone, so once the forwarder's clock has reached the task's
    time the task is due; and it is early by less than two microseconds: up
    to the year 2242 the score is within one microsecond of the time. *)
Theorem scheduleScore_faithful :
  (∀ t t', in_range t → in_range t' → t ≤ t' → scheduleScore t ≤ scheduleScore t')%Z ∧
  (∀ t, 0 ≤ t → Unix t < 2 ^ 33 →
     Z.abs (scheduleScore t * Second - t * score_unit) * 1000000 ≤ Second * score_unit)%Z.
Proof. split; [exact scheduleScore_mono|exact scheduleScore_error]. Qed.

(** The comment's claim about the score of an instant. *)
Definition truncates (t : Z) : Prop := toInt64 (scheduleScore t) = Unix t.

(** The score does not always truncate to [t.Unix()]: a nanosecond before
    a full second the addition rounds up to the second. *)
Theorem scheduleScore_rounds_up :
  ¬ truncates (1700000000 * Second + 999999999) ∧
  toInt64 (scheduleScore (1700000000 * Second + 999999999)) = 1700000001%Z ∧
  Unix (1700000000 * Second + 999999999) = 1700000000%Z.
Proof. split_and!; by vm_compute. Qed.

End ScoreSpec.
