(* ===== verification/CoreSpec.v ===== *)
(** * The task operations do what they promise

    Round trips and functional specifications of [RdbCore]. *)

From S2P Require Import Prelude GoLib Base Redis RedisFacts Client RdbCore Instances.

Module CoreSpec.
Import GoFloat GoStr Keys Task Redis RedisFacts Client RdbCore.

#[local] Arguments mbind {_ _ _ _} _ _ : simpl never.

Section core.
Context `{R : Redis} `{J : Json} (K : Keys).

(** Registering a queue touches the index only. *)
Lemma registerQueue_quiet q (Q : result () → world → Prop) w :
  quiet w →
  (∀ w', quiet w' → w_clock w' = w_clock w →
     (wks w' = wks w ∨ wks w' = do_sadd (QueuesKey K) [q] (wks w)) → Q (Ok ()) w') →
  wpm (registerQueue K q) Q w.
Proof.
  intros Hw HQ. unfold registerQueue. apply wpm_bind, wpm_knows.
  case_bool_decide; [by apply wpm_ret, HQ; auto|]. apply wpm_bind, wpm_run_quiet; [done|].
  wps_steps. intros s' Hs. apply wpm_learn, HQ; [done|done|]. right. done.
Qed.

(** The queue is ready for a consumer that has seen everything in it. *)
Definition drained (m : keyspace) (q : string) (gr : group) : Prop :=
  group_at m (StreamKey K q) ConsumerGroup = Some gr ∧
  undelivered (stream_at m (StreamKey K q)) gr = [] ∧
  (g_last gr ≤ st_last (stream_at m (StreamKey K q)))%Z.

Lemma undelivered_add st gr id T :
  undelivered st gr = [] → (g_last gr ≤ st_last st)%Z → (st_last st < id)%Z →
  undelivered (MkStream (st_entries st ++ [(id, T)]) id (st_groups st)) gr = [(id, T)].
Proof.
  unfold undelivered; simpl. intros E ? ?. rewrite filter_app, E. simpl.
  by rewrite filter_cons_True by (simpl; lia).
Qed.

(** What enqueueing leaves behind. *)
Lemma Enqueue_quiet msg (Q : result () → world → Prop) w :
  quiet w →
  (∀ w' id, quiet w' →
     (st_last (stream_at (wks w) (StreamKey K (m_Queue msg))) < id)%Z →
     stream_at (wks w') (StreamKey K (m_Queue msg))
     = MkStream (st_entries (stream_at (wks w) (StreamKey K (m_Queue msg))) ++ [(id, m_ID msg)])
         id (st_groups (stream_at (wks w) (StreamKey K (m_Queue msg)))) →
     hget (wks w') (TaskKey K (m_Queue msg) (m_ID msg)) "msg"
     = Some (EncodeMessage (with_State StatePending msg)) →
     hget (wks w') (TaskKey K (m_Queue msg) (m_ID msg)) "state" = Some (itoa StatePending) →
     Q (Ok ()) w') →
  wpm (Enqueue K msg) Q w.
Proof.
  intros Hw HQ. unfold Enqueue. apply wpm_bind, registerQueue_quiet; [done|].
  intros w1 Hw1 _ Hm1. apply wpm_bind, wpm_run_quiet; [done|].
  unfold enqueueCmd. wps_steps. intros s' Hs.
  assert (k_stream (wks w1) = k_stream (wks w)) as Est by (destruct Hm1 as [-> | ->]; done).
  match goal with H : (st_last _ < ?id)%Z |- _ => rename H into Hid; rename id into id0 end.
  unfold stream_at in Hid; simpl in Hid. rewrite Est in Hid.
  apply (HQ (set_store s' w1) id0); [done|done| | |]; rewrite wks_set_store, Hs.
  - unfold stream_at; simpl. by rewrite x_at_add, decide_True, Est by done.
  - unfold hget, hash_at; simpl. rewrite h_at_set, decide_True by done. simpl.
    by rewrite lookup_insert_ne, lookup_insert_eq by done.
  - unfold hget, hash_at; simpl. rewrite h_at_set, decide_True by done. simpl.
    by rewrite lookup_insert_eq.
Qed.

(** A consumer's batch when one entry waits. *)
Lemma DequeueBatch_one q msg st consumer n gr id (Q : result (list Dequeued) → world → Prop) w :
  quiet w → utf8_msg msg = true → group_at (wks w) (StreamKey K q) ConsumerGroup = Some gr →
  undelivered (stream_at (wks w) (StreamKey K q)) gr = [(id, m_ID msg)] →
  hget (wks w) (TaskKey K q (m_ID msg)) "msg" = Some (EncodeMessage (with_State st msg)) →
  (∀ w', quiet w' →
     wks w' = do_hset (TaskKey K q (m_ID msg)) [("state", itoa StateActive)]
                (set_group (StreamKey K q) ConsumerGroup
                   (deliver consumer (k_now (wks w)) [(id, m_ID msg)]) (wks w)) →
     Q (Ok [MkDequeued (with_State StateActive msg) id]) w') →
  wpm (DequeueBatch K consumer q n) Q w.
Proof.
  intros Hw Hutf Hg Hun Hb HQ. unfold DequeueBatch.
  set (count := if bool_decide (n < 1)%Z then 1%Z else n).
  assert (1 ≤ count)%Z as Hcount by (subst count; zlia). clearbody count.
  apply wpm_bind. unfold readGroup. apply wpm_round_trip_quiet; [done|].
  apply wps_bind, wps_call. cbn [cmd_reply cmd_effect]. intros es Hes.
  rewrite Hg in Hes. simpl in Hes. rewrite Hun in Hes. destruct (Z.to_nat count) as [|cn] eqn:Ecn; [lia|].
  simpl in Hes. rewrite take_nil in Hes. subst es. wps_steps. intros s2 Hs2. simpl.
  apply wpm_bind, wpm_pipeline_quiet; [done|]. simpl. rewrite wks_set_store, Hs2.
  wps_steps. intros s3 Hs3. simpl.
  assert (hget (set_group (StreamKey K q) ConsumerGroup
                  (deliver consumer (k_now (wks w)) [(id, m_ID msg)]) (wks w))
            (TaskKey K q (m_ID msg)) "msg"
          = Some (EncodeMessage (with_State st msg))) as -> by done.
  unfold DecodeMessage, EncodeMessage. rewrite Unmarshal_Marshal, sanitize_msg_valid by done. simpl.
  apply wpm_bind, wpm_ret, wpm_bind, wpm_pipeline_quiet; [done|]. simpl.
  rewrite wks_set_store, Hs3. wps_steps. intros s4 Hs4. simpl.
  apply wpm_ret, HQ; [done|]. by rewrite wks_set_store, Hs4.
Qed.

(** C12: a task comes out as it went in.  Enqueueing a message and then
    reading the queue with any consumer and batch size hands out exactly that
    message, marked active, with the claim recorded for the consumer and the
    stored body and authoritative state in step. *)
Theorem enqueue_dequeue_roundtrip msg consumer n gr w :
  quiet w → utf8_msg msg = true → drained (wks w) (m_Queue msg) gr →
  let q := m_Queue msg in
  let r := (Enqueue K msg;; DequeueBatch K consumer q n) w in
  let m' := wks r.1 in
  ∃ e, r.2 = Ok [MkDequeued (with_State StateActive msg) e] ∧
    hget m' (TaskKey K q (m_ID msg)) "state" = Some (itoa StateActive) ∧
    hget m' (TaskKey K q (m_ID msg)) "msg"
      = Some (EncodeMessage (with_State StatePending msg)) ∧
    (e, m_ID msg) ∈ st_entries (stream_at m' (StreamKey K q)) ∧
    ∃ gr', group_at m' (StreamKey K q) ConsumerGroup = Some gr' ∧
           g_pel gr' !! e = Some (MkPending consumer (k_now m') 1).
Proof.
  intros Hw Hutf (Hg & Hun & Hlast) q r. subst r.
  change (wpm (Enqueue K msg;; DequeueBatch K consumer q n) (λ res w', ∃ e,
    res = Ok [MkDequeued (with_State StateActive msg) e] ∧
    hget (wks w') (TaskKey K q (m_ID msg)) "state" = Some (itoa StateActive) ∧
    hget (wks w') (TaskKey K q (m_ID msg)) "msg"
      = Some (EncodeMessage (with_State StatePending msg)) ∧
    (e, m_ID msg) ∈ st_entries (stream_at (wks w') (StreamKey K q)) ∧
    ∃ gr', group_at (wks w') (StreamKey K q) ConsumerGroup = Some gr' ∧
           g_pel gr' !! e = Some (MkPending consumer (k_now (wks w')) 1)) w).
  apply wpm_bind, Enqueue_quiet; [done|]. intros w1 id Hw1 Hid Est Hb _. fold q in Est, Hb, Hid.
  assert (group_at (wks w1) (StreamKey K q) ConsumerGroup = Some gr) as Hg1
    by (unfold group_at in *; by rewrite Est).
  apply (DequeueBatch_one q msg StatePending consumer n gr id); [done|done|done|rewrite Est; by apply undelivered_add|done|].
  intros w' _ E. exists id. rewrite E. split_and!; [done|..].
  - unfold hget, hash_at; simpl. rewrite h_at_set, decide_True by done. simpl. by rewrite lookup_insert_eq.
  - rewrite <- Hb. unfold hget, hash_at; simpl. rewrite h_at_set, decide_True by done. simpl.
    by rewrite lookup_insert_ne.
  - unfold stream_at; simpl. rewrite x_at_group, decide_True by done. simpl.
    change (x_at (k_stream (wks w1)) (StreamKey K q)) with (stream_at (wks w1) (StreamKey K q)).
    rewrite Est. simpl. set_solver.
  - unfold group_at, stream_at in *; simpl. rewrite x_at_group, decide_True by done.
    simpl. rewrite lookup_alter, decide_True, Hg1 by done. simpl.
    eexists. split; [done|]. simpl. by rewrite lookup_insert_eq.
Qed.

(** ** The forwarder *)

(** The body of the forwarder's loop, for one id. *)
Definition forwarded (z stream prefix : string) (ids : list string) (m m' : keyspace) : Prop :=
  (∃ new, st_entries (stream_at m' stream) = st_entries (stream_at m stream) ++ new
          ∧ map snd new = ids
          ∧ Forall (λ e, st_last (stream_at m stream) < e.1)%Z new) ∧
  (st_last (stream_at m stream) ≤ st_last (stream_at m' stream))%Z ∧
  (∀ x, zset_at m' z !! x = if decide (x ∈ ids) then None else zset_at m z !! x) ∧
  (∀ x, hget m' (prefix +:+ x) "msg" = hget m (prefix +:+ x) "msg") ∧
  (∀ x, hget m' (prefix +:+ x) "state"
        = if decide (x ∈ ids) then Some (itoa StatePending) else hget m (prefix +:+ x) "state").

Lemma forwarded_step z stream prefix ids x m m' id :
  forwarded z stream prefix ids m m' → (st_last (stream_at m' stream) < id)%Z →
  forwarded z stream prefix (ids ++ [x]) m
    (do_zrem z x (do_hset (prefix +:+ x) [("state", itoa StatePending)]
       (do_xadd stream id x m'))).
Proof.
  intros ((new & He & Hids & Hnew) & Hl & Hz & Hm & Hst) Hid. unfold forwarded.
  unfold hget, hash_at, zset_at, stream_at in *; simpl.
  rewrite x_at_add, decide_True by done. simpl. split_and!.
  - exists (new ++ [(id, x)]). rewrite He, <- app_assoc, map_app, Hids. split_and!; [done..|].
    apply Forall_app. split; [done|]. repeat constructor. simpl. lia.
  - lia.
  - intros y. rewrite z_at_rem, decide_True, lookup_delete, Hz, decide_elem_snoc by done.
    by repeat case_decide.
  - intros y. rewrite h_at_set. case_decide as E; [|by apply Hm]. simpl.
    rewrite lookup_insert_ne by done. rewrite E. apply Hm.
  - intros y. rewrite h_at_set, decide_elem_snoc. destruct (decide (x = y)) as [->|Hne].
    + rewrite decide_True by done. simpl. by rewrite lookup_insert_eq.
    + rewrite decide_False by (intros E; by apply (inj _) in E). apply Hst.
Qed.

Lemma forwardCmd_spec z stream cutoff max prefix m :
  wps (forwardCmd z stream cutoff max prefix StatePending)
    (λ n m', let ids := zrangebyscore (zset_at m z) cutoff max in
             n = len ids ∧ forwarded z stream prefix ids m m') m.
Proof.
  unfold forwardCmd. wps_steps. set (ids := zrangebyscore _ _ _).
  apply (wps_foreach_inv (λ l m', forwarded z stream prefix l m m')).
  - unfold forwarded. split_and!; [exists []; by rewrite app_nil_r|done|done|done|done].
  - intros l1 x l2 m' _ Hf. wps_steps. by apply forwarded_step.
  - intros m' Hf. by wps_steps.
Qed.

(** One tick of the forwarder promotes due tasks only, earliest first, no
    more than asked; the promoted tasks are appended to the stream in that
    order with fresh ids, marked pending with their bodies unchanged, and
    removed from the ZSET, and nothing else leaves it; when fewer than the
    maximum were promoted, no due task remains. *)
Theorem forward_due_only z q cutoff max w :
  quiet w → (0 ≤ max)%Z →
  let r := run (forwardCmd z (StreamKey K q) cutoff max (TaskKeyPrefix K q) StatePending) w in
  let ids := zrangebyscore (zset_at (wks w) z) cutoff max in
  r.2 = Ok (len ids) ∧ (len ids ≤ max)%Z ∧
  forwarded z (StreamKey K q) (TaskKeyPrefix K q) ids (wks w) (wks r.1) ∧
  (∀ x, x ∈ ids → ∃ sc, zset_at (wks w) z !! x = Some sc ∧ (sc ≤ cutoff)%Z) ∧
  (∃ l, ids = map fst l ∧ StronglySorted zle l) ∧
  ((len ids < max)%Z → ∀ x sc, zset_at (wks r.1) z !! x = Some sc → (cutoff < sc)%Z).
Proof.
  intros Hw Hmax r ids.
  assert (r.2 = Ok (len ids) ∧
          forwarded z (StreamKey K q) (TaskKeyPrefix K q) ids (wks w) (wks r.1)) as [Hr Hf].
  { change (wpm (run (forwardCmd z (StreamKey K q) cutoff max (TaskKeyPrefix K q) StatePending))
              (λ res w', res = Ok (len ids) ∧
                 forwarded z (StreamKey K q) (TaskKeyPrefix K q) ids (wks w) (wks w')) w).
    apply wpm_run_quiet; [done|]. eapply wps_mono; [apply forwardCmd_spec|].
    intros n m' [-> Hf] s' Hs'. by rewrite wks_set_store, Hs'. }
  split_and!; [done| |done| | |].
  - unfold ids, zrangebyscore. rewrite take_limit_length by done. lia.
  - intros x Hx. by apply elem_of_zrangebyscore in Hx.
  - unfold ids, zrangebyscore.
    exists (take_limit max (filter (λ p, p.2 ≤ cutoff)%Z (zsorted (zset_at (wks w) z)))).
    split; [unfold take_limit; case_bool_decide; by rewrite ?firstn_map|].
    apply take_limit_sorted, StronglySorted_filter', zsorted_sorted.
  - intros Hlt x sc Hx. destruct Hf as (_ & _ & Hz & _). rewrite Hz in Hx.
    case_decide as Hin; [done|]. destruct (decide (sc ≤ cutoff)%Z); [|lia].
    exfalso. apply Hin. unfold ids in *.
    apply elem_of_zrangebyscore_all with sc; done.
Qed.

End core.

(** A quiet world on the reference server. *)
Definition demo_world (m : keyspace) : world (R := RefRedis.RefRedis) :=
  MkWorld (m : RefRedis.RefRedis.(store)) [] (1700000000 * GoTime.Second)%Z ∅.

Definition demo_msg : TaskMessage := newMessage "t1" "email" "hi" "q" 3 false 0.

Definition demo_grouped : keyspace :=
  do_xgroup (StreamKey DefaultKeys "q") ConsumerGroup empty_keyspace.

Lemma enqueue_dequeue_roundtrip_witness :
  let r := (Enqueue DefaultKeys demo_msg;; DequeueBatch DefaultKeys "w1" "q" 5)
             (demo_world demo_grouped) in
  ∃ e, r.2 = Ok [MkDequeued (with_State StateActive demo_msg) e].
Proof.
  edestruct (enqueue_dequeue_roundtrip DefaultKeys demo_msg "w1" 5 (MkGroup 0 ∅)
               (demo_world demo_grouped)) as (e & He & _).
  - done.
  - by vm_compute.
  - split_and!; by vm_compute.
  - by exists e.
Defined.

Definition demo_retry : keyspace :=
  do_zadd (RetryKey DefaultKeys "q") 10 "a"
    (do_zadd (RetryKey DefaultKeys "q") 5 "b"
       (do_zadd (RetryKey DefaultKeys "q") 99 "c" empty_keyspace)).

Lemma forward_due_only_witness :
  let r := run (forwardCmd (RetryKey DefaultKeys "q") (StreamKey DefaultKeys "q") 20 1
                  (TaskKeyPrefix DefaultKeys "q") StatePending) (demo_world demo_retry) in
  zrangebyscore (zset_at demo_retry (RetryKey DefaultKeys "q")) 20 1 = ["b"] ∧ r.2 = Ok 1%Z.
Proof.
  split; [by vm_compute|].
  destruct (forward_due_only DefaultKeys (RetryKey DefaultKeys "q") "q" 20 1
              (demo_world demo_retry)) as (H & _); [done|lia|].
  rewrite H. by vm_compute.
Defined.

End CoreSpec.
