(* ===== verification/Handler.v ===== *)
(** * handler.go: routing a message to its handler

    A user handler is a function of the decoded arguments and the workflow
    inputs; JSON at the user's types ([encoding/json] behind [decodeArgs] and
    the result encoding) and [strconv.Quote] (the verb [%q]) are parameters.
    A handler may panic. *)

From S2P Require Import Prelude GoLib Base Retry.

Module Handler.
Import GoStr Task Retry.

(** What a call did: it returned, or it panicked with a value. *)
Inductive outcome (A : Type) :=
  | Returned (a : A)
  | Panicked (v : string).
Arguments Returned {A} a.
Arguments Panicked {A} v.

(** [err.Error()]. *)
Fixpoint errorText (e : error) : string :=
  match e with
  | ErrLeaf s => s
  | ErrWrap s _ => s
  | ErrJoin es =>
      (fix go es := match es with
                    | [] => ""
                    | [e] => errorText e
                    | e :: es => errorText e +:+ String (Ascii.ascii_of_nat 10) (go es)
                    end) es
  | skipRetryError e => errorText e
  end.

(** The typed task handed to a handler ([newTask]). *)
Record TypedTask (T : Type) := MkTask {
  t_Args : T;
  t_id : string;
  t_queue : string;
  t_prevResult : bytes;
  t_groupResults : list bytes;
}.
Arguments MkTask {T} _ _ _ _ _.

Definition newTask {T} (args : T) (msg : TaskMessage) : TypedTask T :=
  MkTask args (m_ID msg) (m_Queue msg) (m_PrevResult msg) (m_GroupResults msg).

(** ** Workflow inputs: [chronos.go]

    [unmarshal] is [json.Unmarshal] at the result's type.  A list of results
    that is absent ([nil]) is the empty one; a member without a result has an
    empty entry. *)

Definition ErrNoResult : error := ErrLeaf "chronos: no result".

Definition PrevResult {T Res} (unmarshal : bytes → Res + error) (t : TypedTask T) : Res + error :=
  if bool_decide (t_prevResult _ t = "") then inr ErrNoResult
  else match unmarshal (t_prevResult _ t) with
       | inl out => inl out
       | inr err => inr (ErrWrap ("chronos: decode prev result: " +:+ errorText err) err)
       end.

Fixpoint decodeMembers {Res} (unmarshal : bytes → Res + error) (i : nat) (l : list bytes)
    : list Res + error :=
  match l with
  | [] => inl []
  | raw :: l =>
      if bool_decide (raw = "") then
        inr (ErrWrap ("chronos: group member " +:+ itoa (Z.of_nat i) +:+ ": "
                      +:+ errorText ErrNoResult) ErrNoResult)
      else
        match unmarshal raw with
        | inr err => inr (ErrWrap ("chronos: decode group member " +:+ itoa (Z.of_nat i)
                                   +:+ " result: " +:+ errorText err) err)
        | inl out =>
            match decodeMembers unmarshal (S i) l with
            | inr err => inr err
            | inl outs => inl (out :: outs)
            end
        end
  end.

Definition GroupResults {T Res} (unmarshal : bytes → Res + error) (t : TypedTask T)
    : list Res + error :=
  if bool_decide (t_groupResults _ t = []) then inr ErrNoResult
  else decodeMembers unmarshal 0 (t_groupResults _ t).

(** All members' results, or an error about the first one that has none. *)
Lemma decodeMembers_spec {Res} (unmarshal : bytes → Res + error) i l :
  match decodeMembers unmarshal i l with
  | inl outs => Forall2 (λ raw out, raw ≠ "" ∧ unmarshal raw = inl out) l outs
  | inr _ => ∃ raw, raw ∈ l ∧ (raw = "" ∨ ∃ err, unmarshal raw = inr err)
  end.
Proof.
  revert i. induction l as [|raw l IH]; intros i; simpl; [constructor|].
  case_bool_decide as E; [exists raw; set_solver|].
  destruct (unmarshal raw) as [out|err] eqn:Eu; [|exists raw; split; [set_solver|eauto]].
  specialize (IH (S i)). destruct (decodeMembers unmarshal (S i) l).
  - by constructor.
  - destruct IH as (raw' & Hin & H). exists raw'. split; [by right|done].
Qed.

(** The type-erased handler; it may set the message's result. *)
Definition internalHandler : Type := TaskMessage → TaskMessage * outcome (option error).

Definition Mux : Type := gmap string internalHandler.
Definition NewMux : Mux := ∅.

Definition MaxResultSize : Z := 2 ^ 20.
Definition ErrResultTooLarge : error := ErrLeaf "chronos: result exceeds MaxResultSize".

Section handler.
Context (quote : string → string).

(** [fmt.Errorf("...: %w", kind, err)]. *)
Definition decodeError (kind : string) (err : error) : error :=
  ErrWrap ("chronos: decode payload for kind " +:+ quote kind +:+ ": " +:+ errorText err) err.

(** Registering a Kind twice panics. *)
Definition AddHandler {T} (kind : string) (decodeArgs : bytes → T + error)
    (fn : TypedTask T → outcome (option error)) (mux : Mux) : outcome Mux :=
  if bool_decide (is_Some (mux !! kind)) then
    Panicked ("chronos: handler already registered for kind " +:+ quote kind)
  else
    let h : internalHandler := λ msg,
      match decodeArgs (m_Payload msg) with
      | inr err => (msg, Returned (Some (decodeError kind err)))
      | inl args => (msg, fn (newTask args msg))
      end in
    Returned (<[kind := h]> mux).

Definition AddHandlerR {T Res} (kind : string) (decodeArgs : bytes → T + error)
    (marshal : Res → bytes + error)
    (fn : TypedTask T → outcome (Res + error)) (mux : Mux) : outcome Mux :=
  if bool_decide (is_Some (mux !! kind)) then
    Panicked ("chronos: handler already registered for kind " +:+ quote kind)
  else
    let h : internalHandler := λ msg,
      match decodeArgs (m_Payload msg) with
      | inr err => (msg, Returned (Some (decodeError kind err)))
      | inl args =>
          match fn (newTask args msg) with
          | Panicked v => (msg, Panicked v)
          | Returned (inr err) => (msg, Returned (Some err))
          | Returned (inl res) =>
              match marshal res with
              | inr err =>
                  (msg, Returned (Some (SkipRetry (ErrWrap
                     ("chronos: marshal result for kind " +:+ quote kind +:+ ": " +:+ errorText err) err))))
              | inl b =>
                  if bool_decide (MaxResultSize < Z.of_nat (String.length b))%Z then
                    (msg, Returned (Some (SkipRetry (ErrWrap
                       ("chronos: kind " +:+ quote kind +:+ " result is "
                        +:+ itoa (Z.of_nat (String.length b)) +:+ " bytes: "
                        +:+ errorText ErrResultTooLarge) ErrResultTooLarge))))
                  else (with_Result b msg, Returned None)
              end
          end
      end in
    Returned (<[kind := h]> mux).

Definition dispatch (mux : Mux) : internalHandler := λ msg,
  match mux !! m_Kind msg with
  | None => (msg, Returned (Some (ErrLeaf
               ("chronos: no handler registered for kind " +:+ quote (m_Kind msg)))))
  | Some h => h msg
  end.

(** [Server.dispatchSafely]: a panic becomes an error. *)
Definition dispatchSafely (mux : Mux) (msg : TaskMessage) : TaskMessage * option error :=
  match dispatch mux msg with
  | (msg, Returned err) => (msg, err)
  | (msg, Panicked v) => (msg, Some (ErrLeaf ("chronos: handler panic: " +:+ v)))
  end.

End handler.
End Handler.
