(* ===== verification/Server.v ===== *)
(** * server.go: the worker process

    The configuration's defaults, one round of the fetch loop, the
    processing of one task with its chain and group hand-over, and the
    bodies of the maintenance loops (one tick each).  A goroutine's round
    trips fail according to the plan of its world; the deadline of an
    operation context shows as such a failure.  Log lines are not modelled;
    the hook and metric calls a step makes are returned as a list. *)

From S2P Require Import Prelude GoLib Wrr Base Redis Client.
From S2P Require Import RdbCore RdbLocks RdbFlow RdbAdmin Retry Handler.

Module Server.
Import GoTime GoStr Keys Task Redis Client RdbCore RdbLocks RdbFlow RdbAdmin Retry Handler.

Definition pollBlock : Z := Second.
Definition pauseCheckInterval : Z := Second.
Definition maxFetchBatch : Z := 128.
Definition forwardBatchSize : Z := 100.
Definition recoverBatchSize : Z := 100.
Definition janitorBatchSize : Z := 100.

Definition errRecoveredExhausted : error := ErrLeaf "chronos: retries exhausted after recovery".

(** Which observation interfaces the configured [Metrics] implements. *)
Inductive metrics := NoMetrics | TaskMetrics | TaskAndRecoveryMetrics.

Record ServerConfig := MkServerConfig {
  Queues : gmap string Z;
  StrictPriority : bool;
  Concurrency : Z;
  RetryDelayFunc : option (Z → error → Z);
  OnDeadLetter : bool;               (* a hook is set *)
  Metrics : metrics;
  ForwardInterval : Z;
  RecoverInterval : Z;
  RecoverMinIdle : Z;
  HeartbeatInterval : Z;
  ArchivedRetention : Z;
  MaxArchived : Z;
  MaxCompleted : Z;
  JanitorInterval : Z;
}.

(** [newServer]: the defaults.  [rnd] is the random source of the default
    backoff. *)
Definition orDefault (v d : Z) : Z := if bool_decide (v ≤ 0)%Z then d else v.
Definition zeroDefault (v d : Z) : Z := if bool_decide (v = 0)%Z then d else v.

Definition heartbeatInterval (minIdle hb : Z) : Z :=
  let hb := if bool_decide (hb ≤ 0 ∨ minIdle ≤ hb)%Z then (minIdle `quot` 3)%Z else hb in
  if bool_decide (hb < Millisecond)%Z then Millisecond else hb.

Definition newServer (rnd : Z → Z) (cfg : ServerConfig) : ServerConfig :=
  let minIdle := orDefault (RecoverMinIdle cfg) (30 * Second) in
  MkServerConfig (Queues cfg) (StrictPriority cfg) (orDefault (Concurrency cfg) 1)
    (match RetryDelayFunc cfg with
     | None => Some (λ retried _, DefaultRetryDelay rnd retried)
     | f => f
     end)
    (OnDeadLetter cfg) (Metrics cfg)
    (orDefault (ForwardInterval cfg) (1 * Second))
    (orDefault (RecoverInterval cfg) (15 * Second))
    minIdle
    (heartbeatInterval minIdle (HeartbeatInterval cfg))
    (orDefault (ArchivedRetention cfg) (7 * 24 * Hour))
    (zeroDefault (MaxArchived cfg) 10000)
    (zeroDefault (MaxCompleted cfg) 10000)
    (orDefault (JanitorInterval cfg) (1 * Minute)).

Definition queueNames (cfg : ServerConfig) : list string := map fst (map_to_list (Queues cfg)).

(** Weight descending, then name ascending. *)
Definition weightOf (cfg : ServerConfig) (q : string) : Z :=
  Wrr.normalizeWeight (default 0%Z (Queues cfg !! q)).

Definition heavier (cfg : ServerConfig) (a b : string) : Prop :=
  (weightOf cfg b < weightOf cfg a)%Z ∨ (weightOf cfg a = weightOf cfg b ∧ String.le a b).

#[global] Instance heavier_dec cfg : RelDecision (heavier cfg).
Proof. intros a b. unfold heavier. apply _. Defined.

Definition queuesByWeight (cfg : ServerConfig) : list string :=
  merge_sort (heavier cfg) (queueNames cfg).

(** What a step reports to the outside. *)
Inductive TaskOutcome := OutcomeSuccess | OutcomeRetry | OutcomeDeadLetter.

Inductive report :=
  | ObserveTask (queue kind : string) (outcome : TaskOutcome)
  | ObserveRecovered (queue : string) (recovered deadLettered : Z)
  | CallOnDeadLetter (id kind queue : string) (cause : error).

Section server.
Context `{R : Redis} `{J : Json} (K : Keys) (quote : string → string).
Context (cfg : ServerConfig) (consumer : string) (mux : Mux).

Definition observe (msg : TaskMessage) (o : TaskOutcome) : list report :=
  match Metrics cfg with
  | NoMetrics => []
  | _ => [ObserveTask (m_Queue msg) (m_Kind msg) o]
  end.

Definition observeRecovered (queue : string) (recovered deadLettered : Z) : list report :=
  match Metrics cfg with
  | TaskAndRecoveryMetrics => [ObserveRecovered queue recovered deadLettered]
  | _ => []
  end.

(** ** Chain and group hand-over *)

Definition drainCompletedStageMember (qname taskID : string) : M () :=
  state ← try (TaskState K qname taskID);
  match state with
  | Err ErrNil => mret ()
  | Err e => fail e
  | Ok state =>
      if negb (bool_decide (state = StateCompleted)) then mret () else
      stored ← try (GetTask K qname taskID);
      match stored with
      | Err ErrNil => mret ()
      | Err e => fail e
      | Ok stored => CompleteGroupMember K stored;; mret ()
      end
  end.

(** The message of member [j] of a parallel stage. *)
Definition stageMember (msg : TaskMessage) (link : ChainLink) (rest : list ChainLink)
    (groupID : string) (j : nat) (m : GroupMemberLink) : TaskMessage :=
  let cbLink := MkChainLink (cl_Kind link) (cl_Payload link) (cl_Queue link) (cl_MaxRetry link)
                  (cl_NoArchive link) (cl_Retention link) (cl_Delay link) [] in
  let base := newMessage (groupID +:+ ":m" +:+ itoa (Z.of_nat j)) (gm_Kind m) (gm_Payload m)
                (gm_Queue m) (gm_MaxRetry m) false (gm_Retention m) in
  with_GroupID groupID (with_GroupQueue (cl_Queue link) (with_GroupCallback (Some cbLink)
  (with_GroupIndex (Z.of_nat j) (with_GroupSize (len (cl_Group link))
  (with_GroupCallbackChain rest (with_ChainID (m_ChainID msg)
  (with_ChainIndex (m_ChainIndex msg + 1) (with_PrevResult (m_Result msg) base)))))))).

(** The loop over the members of the stage. *)
Fixpoint enqueueMembers (msg : TaskMessage) (link : ChainLink) (rest : list ChainLink)
    (groupID : string) (pending : option (list string)) (j : nat) (ms : list GroupMemberLink)
    : M () :=
  match ms with
  | [] => mret ()
  | m :: ms =>
      let member := stageMember msg link rest groupID j m in
      (if match pending with Some ids => bool_decide (m_ID member ∉ ids) | None => false end
       then mret ()
       else
         created ← wrap_err ("stage member " +:+ m_ID member)
                     (EnqueueChainLink K member (wrap64 (gm_Delay m * Second)));
         if created : bool then mret ()
         else wrap_err ("stage member " +:+ m_ID member +:+ " drain")
                (drainCompletedStageMember (m_Queue member) (m_ID member)));;
      enqueueMembers msg link rest groupID pending (S j) ms
  end.

Definition enqueueNextGroup (msg : TaskMessage) (link : ChainLink) (rest : list ChainLink) : M () :=
  let groupID := m_ChainID msg +:+ ":" +:+ itoa (m_ChainIndex msg + 1) in
  let cbTaskID := groupID +:+ ":cb" in
  let memberIDs := imap (λ j _, groupID +:+ ":m" +:+ itoa (Z.of_nat j)) (cl_Group link) in
  state ← CreateGroupIfAbsent K (cl_Queue link) groupID memberIDs cbTaskID;
  if bool_decide (state = GroupStageDone) then mret () else
  pending ← (if bool_decide (state = GroupStageExists) then
               ids ← GroupMembers K (cl_Queue link) groupID;
               mret (Some ids)
             else mret None);
  enqueueMembers msg link rest groupID pending 0 (cl_Group link).

(** The successor of a chained task. *)
Definition nextMessage (msg : TaskMessage) (link : ChainLink) (rest : list ChainLink) : TaskMessage :=
  let base := newMessage (m_ChainID msg +:+ ":" +:+ itoa (m_ChainIndex msg + 1)) (cl_Kind link)
                (cl_Payload link) (cl_Queue link) (cl_MaxRetry link) (cl_NoArchive link)
                (cl_Retention link) in
  with_Chain rest (with_ChainID (m_ChainID msg) (with_ChainIndex (m_ChainIndex msg + 1)
  (with_PrevResult (m_Result msg) (with_GroupID (m_GroupID msg)
  (with_GroupQueue (m_GroupQueue msg) (with_GroupCallback (m_GroupCallback msg)
  (with_GroupIndex (m_GroupIndex msg) (with_GroupSize (m_GroupSize msg)
  (with_GroupMemberID (m_GroupMemberID msg) base))))))))).

(** Called with a non-empty chain only. *)
Definition enqueueNext (msg : TaskMessage) : M () :=
  match m_Chain msg with
  | [] => fail (ErrText "index out of range")   (* a panic in Go *)
  | link :: rest =>
      if bool_decide (cl_Group link ≠ []) then enqueueNextGroup msg link rest
      else EnqueueChainLink K (nextMessage msg link rest) (wrap64 (cl_Delay link * Second));; mret ()
  end.

(** Three attempts, sleeping 50, 200 and 800 milliseconds after a failure. *)
Fixpoint withRetry {A} (attempts : nat) (backoff : N) (last : err) (p : M A) : M () :=
  match attempts with
  | 0 => fail last
  | S attempts =>
      r ← try p;
      match r with
      | Ok _ => mret ()
      | Err e => sleep backoff;; withRetry attempts (backoff * 4) e p
      end
  end.

Definition enqueueNextWithRetry (msg : TaskMessage) : M () :=
  withRetry 3 50 ErrNil (enqueueNext msg).
Definition completeGroupWithRetry (msg : TaskMessage) : M () :=
  withRetry 3 50 ErrNil (CompleteGroupMember K msg).

(** ** One task *)

(** A failing operation is logged and otherwise ignored. *)
Definition logged {A} (p : M A) : M () := try p;; mret ().

Definition deadLetter (qname : string) (streamID : sid) (msg : TaskMessage) (cause : error)
    : M (list report) :=
  let msg := with_CompletedAt 0 (with_LastErr (errorText cause) msg) in
  (if m_NoArchive msg then logged (Done K qname streamID (with_Retention 0 msg))
   else t ← now; logged (Archive K qname streamID msg t));;
  mret (if OnDeadLetter cfg
        then [CallOnDeadLetter (m_ID msg) (m_Kind msg) (m_Queue msg) cause] else []).

(** The handler succeeded. *)
Definition processSuccess (qname : string) (streamID : sid) (msg : TaskMessage)
    : M (list report) :=
  let hadSuccessor := bool_decide (m_Chain msg ≠ []) in
  handed ← (if hadSuccessor then try (enqueueNextWithRetry msg) else mret (Ok ()));
  match handed with
  | Err _ => mret []                       (* left unacknowledged, for redelivery *)
  | Ok _ =>
      let msg := if hadSuccessor then with_Chain [] msg else msg in
      reported ← (if bool_decide (m_GroupID msg ≠ "") && negb hadSuccessor
                  then try (completeGroupWithRetry msg) else mret (Ok ()));
      match reported with
      | Err _ => mret []
      | Ok _ =>
          logged (Done K qname streamID msg);;
          mret (observe msg OutcomeSuccess)
      end
  end.

(** The handler failed. *)
Definition processFailure (qname : string) (streamID : sid) (msg : TaskMessage) (cause : error)
    : M (list report) :=
  if asSkipRetry cause || bool_decide (m_MaxRetry msg ≤ m_Retried msg)%Z then
    l ← deadLetter qname streamID msg cause;
    mret (l ++ observe msg OutcomeDeadLetter)
  else
    let msg := with_CompletedAt 0 (with_LastErr (errorText cause)
                 (with_Retried (m_Retried msg + 1) msg)) in
    t ← now;
    let delay := match RetryDelayFunc cfg with
                 | Some f => f (m_Retried msg) cause
                 | None => 0%Z                   (* replaced by [newServer] *)
                 end in
    logged (Retry K qname streamID msg (t + delay)%Z);;
    mret (observe msg OutcomeRetry).

Definition process (qname : string) (streamID : sid) (msg : TaskMessage) : M (list report) :=
  let (msg, err) := dispatchSafely quote mux msg in
  match err with
  | None => processSuccess qname streamID msg
  | Some cause => processFailure qname streamID msg cause
  end.

(** ** In-flight tasks and the heartbeat *)

Record inflightEntry := MkInflight {
  if_streamID : sid;
  if_queue : string;
  if_uniqueKey : string;
}.

Definition trackInflight (id : string) (e : inflightEntry) (f : gmap string inflightEntry) :=
  <[id := e]> f.
Definition untrackInflight (id : string) (f : gmap string inflightEntry) := delete id f.

Definition byQueue (f : gmap string inflightEntry) : gmap string (list sid) :=
  foldr (λ e acc, <[if_queue e.2 := if_streamID e.2 :: default [] (acc !! if_queue e.2)]> acc)
    ∅ (map_to_list f).

Definition beat (f : gmap string inflightEntry) (renewTTL : Z) : M () :=
  go_foldl (λ _ qe, logged (ExtendLease K qe.1 consumer qe.2)) () (map_to_list (byQueue f));;
  let uniqueKeys := filter (λ k, k ≠ "") (map (λ e, if_uniqueKey e.2) (map_to_list f)) in
  if bool_decide (uniqueKeys = []) then mret ()
  else logged (RenewUnique uniqueKeys renewTTL).

(** ** The maintenance loops, one tick *)

Definition forwarderTick : M () :=
  go_foldl (λ _ q,
    t ← now; logged (ForwardRetry K q t forwardBatchSize);;
    t ← now; logged (ForwardScheduled K q t forwardBatchSize)) () (queueNames cfg).

Definition deadLetterReports (archived : list TaskMessage) : list report :=
  if OnDeadLetter cfg
  then map (λ m, CallOnDeadLetter (m_ID m) (m_Kind m) (m_Queue m) errRecoveredExhausted) archived
  else [].

Definition recoverQueue (acc : list report) (q : string) : M (list report) :=
  r ← Recover K q consumer (RecoverMinIdle cfg) recoverBatchSize;
  match rc_err r with
  | Some _ => mret acc                      (* logged; [continue] *)
  | None => mret (acc ++ deadLetterReports (rc_archived r)
                  ++ observeRecovered q (rc_recovered r) (len (rc_archived r)))
  end.

Definition recovererTick : M (list report) := go_foldl recoverQueue [] (queueNames cfg).

Definition janitorQueue (cutoff : Z) (_ : ()) (q : string) : M () :=
  n ← try (TrimArchived K q cutoff (MaxArchived cfg) janitorBatchSize);
  match n with
  | Err _ => mret ()                        (* logged; [continue] *)
  | Ok _ => t ← now; logged (TrimCompleted K q t (MaxCompleted cfg) janitorBatchSize)
  end.

Definition janitorTick : M () :=
  t ← now;
  go_foldl (janitorQueue (t - ArchivedRetention cfg)%Z) () (queueNames cfg).

(** ** The fetch loop *)

(** [Start] up to launching the loops. *)
Definition Start : M () :=
  if bool_decide (queueNames cfg = []) then
    fail (ErrText "chronos: server requires at least one queue")
  else go_foldl (λ _ q, EnsureGroup K q) () (queueNames cfg).

Record fetchState := MkFetch {
  fs_picker : Wrr.wrrPicker;
  fs_paused : gset string;
  fs_pausedChecked : Z;
}.

(** The order in which a round visits the queues. *)
Definition roundOrder (p : Wrr.wrrPicker) : Wrr.wrrPicker * list string :=
  let byWeight := queuesByWeight cfg in
  if StrictPriority cfg then (p, byWeight)
  else let (p', primary) := Wrr.pick p in
       (p', primary :: filter (λ q, q ≠ primary) byWeight).

Definition refreshPaused (st : fetchState) : M fetchState :=
  t ← now;
  if bool_decide (t - fs_pausedChecked st < pauseCheckInterval)%Z then mret st else
  names ← try (PausedQueues K);
  match names with
  | Err _ => mret (MkFetch (fs_picker st) (fs_paused st) t)
  | Ok names => mret (MkFetch (fs_picker st) (list_to_set names) t)
  end.

(** [busy] slots of the semaphore are held, the fetcher's own included. *)
Definition batchSize (busy : Z) : Z :=
  let batch := (1 + (Concurrency cfg - busy))%Z in
  let batch := if bool_decide (batch < 1)%Z then 1%Z else batch in
  if bool_decide (maxFetchBatch < batch)%Z then maxFetchBatch else batch.

Lemma batchSize_bounds busy :
  (1 ≤ batchSize busy ≤ maxFetchBatch)%Z ∧
  (busy ≤ Concurrency cfg → batchSize busy ≤ 1 + (Concurrency cfg - busy))%Z.
Proof. unfold batchSize, maxFetchBatch. repeat case_bool_decide; lia. Qed.

(** The non-blocking sweep: the first queue with tasks; errors are logged. *)
Fixpoint sweep (batch : Z) (order : list string) : M (list Dequeued) :=
  match order with
  | [] => mret []
  | q :: order =>
      r ← try (DequeueBatch K consumer q batch);
      match r with
      | Err _ => sweep batch order
      | Ok ts => mret ts
      end
  end.

(** One round: the tasks to hand to workers.  A round in which every queue
    is paused, or nothing arrives, yields none. *)
Definition fetchRound (busy : Z) (st : fetchState) : M (fetchState * list Dequeued) :=
  let (picker, order) := roundOrder (fs_picker st) in
  st ← refreshPaused (MkFetch picker (fs_paused st) (fs_pausedChecked st));
  let order := filter (λ q, q ∉ fs_paused st) order in
  match order with
  | [] => mret (st, [])
  | q0 :: _ =>
      let batch := batchSize busy in
      tasks ← sweep batch order;
      if bool_decide (tasks ≠ []) then mret (st, tasks) else
      if bool_decide (q0 = "") then mret (st, []) else
      r ← try (DequeueBatch K consumer q0 batch);        (* blocks up to [pollBlock] *)
      match r with
      | Err _ => mret (st, [])
      | Ok ts => mret (st, ts)
      end
  end.

(** Shutdown in the middle of a batch: the rest goes back to the stream. *)
Definition requeueRest (rest : list Dequeued) : M () :=
  go_foldl (λ _ d, logged (Requeue K (m_Queue (dq_Msg d)) (dq_StreamID d) (dq_Msg d))) () rest.

End server.
End Server.
