(* ===== verification/Runtime.v ===== *)
(** * server.go: goroutines, slots and shutdown

    [Start] launches the fetch loop and four maintenance loops; the fetch
    loop takes a slot of the semaphore [sem], reads a batch and launches a
    worker per task; [Shutdown] cancels the context and waits on [wg].  This
    file models that as a step relation on the state the goroutines share:
    the semaphore, the wait group, the in-flight map and the program counters.
    What the goroutines do to Redis is [Server] ([fetchRound], [process],
    [beat], ...); here a round returns any batch of the size it asked for
    ([FetchSpec] proves the bound), and a worker's processing ends at any
    time. *)

From S2P Require Import Prelude GoLib Base Redis Client RdbCore Server.

Module Runtime.
Import GoStr Task Redis Client RdbCore Server.

(** Where the fetch loop is. *)
Inductive fetcher :=
  | Top                                (* the head of the loop *)
  | Select                             (* waiting for a slot *)
  | Round                              (* a slot is held; choosing the queues *)
  | Reading (batch : Z)                (* reading up to [batch] tasks *)
  | Idle                               (* every queue is paused; no slot held *)
  | Sleeping                           (* after a failed read; no slot held *)
  | Dispatch (first : bool) (rest : list Dequeued)
  | Blocked (rest : list Dequeued)     (* no slot is free for the next task *)
  | Returning (rest : list Dequeued)   (* shutdown: requeueing the rest *)
  | Exited.

(** Where a worker is; its deferred calls run in this order. *)
Inductive phase :=
  | Launched
  | Handling        (* in the in-flight map, inside [process] *)
  | Handled         (* removed from the map *)
  | Freed.          (* its slot is free again, [wg.Done] is to come *)

#[global] Instance phase_eq_dec : EqDecision phase.
Proof. solve_decision. Defined.

Record worker := MkWorker { wk_task : Dequeued; wk_phase : phase }.

Inductive loop := Forwarder | Recoverer | Heartbeater | Janitor.

Record runtime := MkRuntime {
  rt_cancelled : bool;
  rt_sem : Z;                          (* [len(s.sem)] *)
  rt_wg : Z;
  rt_fetcher : fetcher;
  rt_workers : list worker;
  rt_loops : list loop;
  rt_inflight : gmap string inflightEntry;
  (* what happened so far *)
  rt_fetched : list Dequeued;
  rt_processed : list Dequeued;
  rt_returned : list Dequeued;
}.

(** ** What a goroutine does to the shared state *)

Definition at_fetch (f : fetcher) (r : runtime) : runtime :=
  MkRuntime (rt_cancelled r) (rt_sem r) (rt_wg r) f (rt_workers r) (rt_loops r) (rt_inflight r)
    (rt_fetched r) (rt_processed r) (rt_returned r).

(** [s.sem <- struct{}{}] and [<-s.sem]. *)
Definition move_sem (d : Z) (r : runtime) : runtime :=
  MkRuntime (rt_cancelled r) (rt_sem r + d) (rt_wg r) (rt_fetcher r) (rt_workers r) (rt_loops r)
    (rt_inflight r) (rt_fetched r) (rt_processed r) (rt_returned r).
Definition acquire (r : runtime) : runtime := move_sem 1 r.
Definition release (r : runtime) : runtime := move_sem (-1) r.

Definition move_wg (d : Z) (r : runtime) : runtime :=
  MkRuntime (rt_cancelled r) (rt_sem r) (rt_wg r + d) (rt_fetcher r) (rt_workers r) (rt_loops r)
    (rt_inflight r) (rt_fetched r) (rt_processed r) (rt_returned r).

Definition at_work (l : list worker) (r : runtime) : runtime :=
  MkRuntime (rt_cancelled r) (rt_sem r) (rt_wg r) (rt_fetcher r) l (rt_loops r) (rt_inflight r)
    (rt_fetched r) (rt_processed r) (rt_returned r).

Definition in_flight (f : gmap string inflightEntry → gmap string inflightEntry) (r : runtime)
    : runtime :=
  MkRuntime (rt_cancelled r) (rt_sem r) (rt_wg r) (rt_fetcher r) (rt_workers r) (rt_loops r)
    (f (rt_inflight r)) (rt_fetched r) (rt_processed r) (rt_returned r).

Definition stop_loops (l : list loop) (r : runtime) : runtime :=
  MkRuntime (rt_cancelled r) (rt_sem r) (rt_wg r) (rt_fetcher r) (rt_workers r) l (rt_inflight r)
    (rt_fetched r) (rt_processed r) (rt_returned r).

Definition record_fetched (ts : list Dequeued) (r : runtime) : runtime :=
  MkRuntime (rt_cancelled r) (rt_sem r) (rt_wg r) (rt_fetcher r) (rt_workers r) (rt_loops r)
    (rt_inflight r) (rt_fetched r ++ ts) (rt_processed r) (rt_returned r).
Definition record_processed (d : Dequeued) (r : runtime) : runtime :=
  MkRuntime (rt_cancelled r) (rt_sem r) (rt_wg r) (rt_fetcher r) (rt_workers r) (rt_loops r)
    (rt_inflight r) (rt_fetched r) (d :: rt_processed r) (rt_returned r).
Definition record_returned (d : Dequeued) (r : runtime) : runtime :=
  MkRuntime (rt_cancelled r) (rt_sem r) (rt_wg r) (rt_fetcher r) (rt_workers r) (rt_loops r)
    (rt_inflight r) (rt_fetched r) (rt_processed r) (d :: rt_returned r).

(** [s.cancel()]. *)
Definition cancel (r : runtime) : runtime :=
  MkRuntime true (rt_sem r) (rt_wg r) (rt_fetcher r) (rt_workers r) (rt_loops r) (rt_inflight r)
    (rt_fetched r) (rt_processed r) (rt_returned r).

(** The fetch loop returns: [defer s.wg.Done()]. *)
Definition leave (r : runtime) : runtime := at_fetch Exited (move_wg (-1) r).

(** [s.wg.Add(1); go func(...) {...}(...)]. *)
Definition launch (d : Dequeued) (r : runtime) : runtime :=
  at_work (MkWorker d Launched :: rt_workers r) (move_wg 1 r).

Definition taskID (d : Dequeued) : string := m_ID (dq_Msg d).

Definition entryOf (d : Dequeued) : inflightEntry :=
  MkInflight (dq_StreamID d) (m_Queue (dq_Msg d)) (m_UniqueKey (dq_Msg d)).

(** [Start], once the groups exist. *)
Definition started : runtime :=
  MkRuntime false 0 5 Top [] [Forwarder; Recoverer; Heartbeater; Janitor] ∅ [] [] [].

Section runtime.
Context (cfg : ServerConfig).

(** A slot of the semaphore is free. *)
Definition free_slot (r : runtime) : Prop := (rt_sem r < Concurrency cfg)%Z.

(** One step of [fetchLoop]. *)
Inductive fetch_step (r : runtime) : fetcher → runtime → Prop :=
  | fl_stop : rt_cancelled r = true → fetch_step r Top (leave r)
  | fl_go : rt_cancelled r = false → fetch_step r Top (at_fetch Select r)
  | fl_take : free_slot r → fetch_step r Select (at_fetch Round (acquire r))
  | fl_select_stop : rt_cancelled r = true → fetch_step r Select (leave r)
  | fl_all_paused : fetch_step r Round (at_fetch Idle (release r))
  | fl_resume : fetch_step r Idle (at_fetch Top r)
  | fl_idle_stop : rt_cancelled r = true → fetch_step r Idle (leave r)
  | fl_size : fetch_step r Round (at_fetch (Reading (batchSize cfg (rt_sem r))) r)
  | fl_empty n : fetch_step r (Reading n) (at_fetch Top (release r))
  | fl_failed n : fetch_step r (Reading n) (at_fetch Sleeping (release r))
  | fl_awake : fetch_step r Sleeping (at_fetch Top r)
  | fl_read_stop n : rt_cancelled r = true → fetch_step r (Reading n) (leave (release r))
  | fl_unnamed n :                           (* [order[0] == ""] *)
      "" ∈ queueNames cfg → fetch_step r (Reading n) (leave (release r))
  | fl_batch n ts : ts ≠ [] → (len ts ≤ n)%Z →
      fetch_step r (Reading n) (at_fetch (Dispatch true ts) (record_fetched ts r))
  | fl_first d ts : fetch_step r (Dispatch true (d :: ts)) (at_fetch (Dispatch false ts) (launch d r))
  | fl_next d ts : free_slot r →
      fetch_step r (Dispatch false (d :: ts)) (at_fetch (Dispatch false ts) (launch d (acquire r)))
  | fl_full d ts : ¬ free_slot r →
      fetch_step r (Dispatch false (d :: ts)) (at_fetch (Blocked (d :: ts)) r)
  | fl_unblocked d ts : free_slot r →
      fetch_step r (Blocked (d :: ts)) (at_fetch (Dispatch false ts) (launch d (acquire r)))
  | fl_blocked_stop ts : rt_cancelled r = true →
      fetch_step r (Blocked ts) (at_fetch (Returning ts) r)
  | fl_return d ts :
      fetch_step r (Returning (d :: ts)) (at_fetch (Returning ts) (record_returned d r))
  | fl_returned : fetch_step r (Returning []) (leave r)
  | fl_dispatched : fetch_step r (Dispatch false []) (at_fetch Top r).

(** One step of a worker: its new phase, [None] when it is over. *)
Inductive work_step (r : runtime) (d : Dequeued) : phase → option phase → runtime → Prop :=
  | wk_track : work_step r d Launched (Some Handling)
      (in_flight (trackInflight (taskID d) (entryOf d)) r)
  | wk_handled : work_step r d Handling (Some Handled)
      (in_flight (untrackInflight (taskID d)) (record_processed d r))
  | wk_free : work_step r d Handled (Some Freed) (release r)
  | wk_done : work_step r d Freed None (move_wg (-1) r).

Definition worker_at (d : Dequeued) (p : option phase) : list worker :=
  match p with Some p => [MkWorker d p] | None => [] end.

Inductive rt_step : runtime → runtime → Prop :=
  | rt_fetch r r' : fetch_step r (rt_fetcher r) r' → rt_step r r'
  | rt_work l1 d p p' l2 r r' :
      rt_workers r = l1 ++ MkWorker d p :: l2 → work_step r d p p' r' →
      rt_step r (at_work (l1 ++ worker_at d p' ++ l2) r')
  | rt_loop_stop l1 x l2 r :
      rt_loops r = l1 ++ x :: l2 → rt_cancelled r = true →
      rt_step r (stop_loops (l1 ++ l2) (move_wg (-1) r))
  | rt_cancel r : rt_cancelled r = false → rt_step r (cancel r).

(** [Shutdown] returns nil when [wg.Wait()] does, or the error of its context
    when that expires first. *)
Inductive Shutdown_returns (expired : bool) (r : runtime) : result () → Prop :=
  | sd_done : rt_wg r = 0%Z → Shutdown_returns expired r (Ok ())
  | sd_expired : expired = true → Shutdown_returns expired r (Err ErrNet).

(** ** The accounts *)

Definition holds_slot (w : worker) : bool := bool_decide (wk_phase w ≠ Freed).
Definition unprocessed (w : worker) : bool :=
  match wk_phase w with Launched | Handling => true | Handled | Freed => false end.

(** Tasks some worker still has to process. *)
Definition in_work (l : list worker) : list Dequeued :=
  map wk_task (filter (λ w, unprocessed w = true) l).

Definition slots (l : list worker) : Z := len (filter (λ w, holds_slot w = true) l).

(** The slot of the fetch loop itself. *)
Definition own_slot (f : fetcher) : Z :=
  match f with Round | Reading _ | Dispatch true _ => 1 | _ => 0 end.

Definition alive (f : fetcher) : Z := match f with Exited => 0 | _ => 1 end.

Definition in_hand (f : fetcher) : list Dequeued :=
  match f with Dispatch _ ts | Blocked ts | Returning ts => ts | _ => [] end.

(** What the fetch loop still dispatches fits the free slots. *)
Definition fits (r : runtime) : Prop :=
  let free := (Concurrency cfg - rt_sem r)%Z in
  match rt_fetcher r with
  | Reading n => (n ≤ maxFetchBatch ∧ n ≤ 1 + free)%Z
  | Dispatch true ts => ts ≠ [] ∧ (len ts ≤ 1 + free)%Z
  | Dispatch false ts => (len ts ≤ free)%Z
  | Blocked _ | Returning _ => False
  | _ => True
  end.

Record balanced (r : runtime) : Prop := MkBalanced {
  bal_sem : rt_sem r = (own_slot (rt_fetcher r) + slots (rt_workers r))%Z;
  bal_cap : (rt_sem r ≤ Concurrency cfg)%Z;
  bal_wg : rt_wg r = (alive (rt_fetcher r) + len (rt_workers r) + len (rt_loops r))%Z;
  bal_fits : fits r;
  bal_tasks : rt_fetched r
              ≡ₚ rt_processed r ++ in_work (rt_workers r) ++ in_hand (rt_fetcher r);
  bal_returned : rt_returned r = [];
}.

Lemma slots_held_app l1 l2 : slots (l1 ++ l2) = (slots l1 + slots l2)%Z.
Proof. unfold slots. rewrite filter_app, length_app. lia. Qed.

Lemma in_work_app l1 l2 : in_work (l1 ++ l2) = in_work l1 ++ in_work l2.
Proof. unfold in_work. by rewrite filter_app, map_app. Qed.

Lemma slots_held_cons w l : slots (w :: l) = ((if holds_slot w then 1 else 0) + slots l)%Z.
Proof. unfold slots. rewrite filter_cons. destruct (holds_slot w); simpl; lia. Qed.

Lemma in_work_cons w l : in_work (w :: l) = (if unprocessed w then [wk_task w] else []) ++ in_work l.
Proof. unfold in_work. rewrite filter_cons. by destruct (unprocessed w). Qed.

Lemma started_balanced : (1 ≤ Concurrency cfg)%Z → balanced started.
Proof. intros H. constructor; simpl; try done; unfold slots; simpl; lia. Qed.

(** The bookkeeping of one step, from the equations of the state. *)
Ltac account :=
  unfold fits, leave, launch, acquire, release, free_slot in *; simpl in *;
  rewrite ?slots_held_cons, ?in_work_cons in *; simpl in *; rewrite ?app_nil_r in *.

Lemma fetch_balanced r r' :
  (1 ≤ Concurrency cfg)%Z →
  balanced r → fetch_step r (rt_fetcher r) r' → balanced r'.
Proof.
  intros HC [Hs Hc Hw Hf Ht Hr] Hst. pose proof (batchSize_bounds cfg (rt_sem r)) as [? ?].
  unfold fits in Hf. 
  remember (rt_fetcher r) as f eqn:E. destruct Hst; symmetry in E; constructor; account;
    rewrite ?E in *; simpl in *; try done; try lia.
  - destruct Hf. split; [done|lia].
  - by rewrite Ht, <- app_assoc.
  - rewrite Ht. fold (in_work (rt_workers r)). solve_Permutation.
  - rewrite Ht. fold (in_work (rt_workers r)). solve_Permutation.
Qed.

Lemma work_balanced l1 d p p' l2 r r' :
  rt_workers r = l1 ++ MkWorker d p :: l2 → balanced r → work_step r d p p' r' →
  balanced (at_work (l1 ++ worker_at d p' ++ l2) r').
Proof.
  intros El [Hs Hc Hw Hf Ht Hr] Hst. unfold fits in Hf. rewrite El in *.
  rewrite slots_held_app, in_work_app, length_app in *. 
  destruct Hst; constructor; account; rewrite ?slots_held_app, ?in_work_app, ?length_app in *; account; try done; try lia.
  - rewrite Ht. solve_Permutation.
  - repeat case_match; try done; try lia. destruct Hf. split; [done|lia].
Qed.

Lemma step_balanced r r' :
  (1 ≤ Concurrency cfg)%Z → rt_step r r' → balanced r → balanced r'.
Proof.
  intros HC Hst Hb. destruct Hst as [r r' Hst|l1 d p p' l2 r r' El Hst|l1 x l2 r El Hc|r Hc].
  - by eapply fetch_balanced.
  - by eapply work_balanced.
  - destruct Hb as [Hs Hcap Hw Hf Ht Hr]. constructor; simpl; try done.
    rewrite Hw, El, !length_app. simpl. lia.
  - by destruct Hb.
Qed.

(** ** After the cancellation *)

(** The steps the fetch loop and the workers can still make once the context
    is cancelled. *)
Definition fetch_weight (f : fetcher) : nat :=
  match f with
  | Exited => 0
  | Top => 1
  | Idle | Sleeping => 2
  | Dispatch _ ts => 2 + 6 * length ts
  | Blocked ts => 1 + 6 * length ts
  | Returning ts => 1 + length ts
  | Reading n => 3 + 6 * Z.to_nat n
  | Round => 4 + 6 * Z.to_nat maxFetchBatch
  | Select => 5 + 6 * Z.to_nat maxFetchBatch
  end.

Definition phase_weight (p : phase) : nat :=
  match p with Launched => 4 | Handling => 3 | Handled => 2 | Freed => 1 end.

Definition work_weight (l : list worker) : nat :=
  sum_list_with (λ w, phase_weight (wk_phase w)) l.

Definition weight (r : runtime) : nat :=
  fetch_weight (rt_fetcher r) + work_weight (rt_workers r) + length (rt_loops r).

Lemma work_weight_app l1 l2 : work_weight (l1 ++ l2) = work_weight l1 + work_weight l2.
Proof. apply sum_list_with_app. Qed.

#[local] Opaque maxFetchBatch.
#[local] Arguments Nat.mul : simpl never.

Lemma step_decreases r r' :
  rt_step r r' → rt_cancelled r = true → fits r →
  weight r' < weight r ∧ rt_cancelled r' = true.
Proof.
  intros Hst Hcan Hf. pose proof (batchSize_bounds cfg (rt_sem r)) as [Hb _].
  destruct Hst as [r r' Hst|l1 d p p' l2 r r' El Hst|l1 x l2 r El Hc|r Hc]; [| | |congruence].
  - unfold weight, fits in *. remember (rt_fetcher r) as f eqn:E.
    destruct Hst; simpl; split; try done; try congruence; try lia.
  - unfold weight. rewrite El, work_weight_app.
    destruct Hst; simpl; rewrite ?work_weight_app; simpl; split; try done; lia.
  - unfold weight. simpl. rewrite El, !length_app. simpl. split; [lia|done].
Qed.

(** As long as something runs, something can move. *)
Lemma step_possible r :
  rt_cancelled r = true → balanced r → rt_wg r ≠ 0%Z → ∃ r', rt_step r r'.
Proof.
  intros Hcan [Hs Hc Hw Hf Ht Hr] Hn.
  destruct (rt_loops r) as [|x l] eqn:El; [|eexists; by eapply (rt_loop_stop [])].
  destruct (rt_workers r) as [|[d p] l] eqn:Ew.
  2:{ destruct p; eexists; eapply (rt_work [] d _ _ l r _ Ew); constructor. }
  assert (∃ r', fetch_step r (rt_fetcher r) r') as [r' Hst]; [|by exists r'; apply rt_fetch].
  unfold fits in Hf. simpl in *.
  destruct (rt_fetcher r) as [| | |n| | |[] ts|ts|ts|] eqn:E; simpl in *;
    try (eexists; by constructor); try done.
  - destruct ts; [by destruct Hf|]. eexists. constructor.
  - destruct ts; eexists; constructor. unfold free_slot. simpl in Hf. lia.
Qed.

(** [P] holds at some point of every run from [r]. *)
Inductive inevitable (P : runtime → Prop) (r : runtime) : Prop :=
  | inev_now : P r → inevitable P r
  | inev_later : (∃ r', rt_step r r') → (∀ r', rt_step r r' → inevitable P r') → inevitable P r.

Definition reachable (r : runtime) : Prop := rtc rt_step started r.

Lemma reachable_balanced r : (1 ≤ Concurrency cfg)%Z → reachable r → balanced r.
Proof.
  intros HC Hr. pose proof (started_balanced HC) as Hb. revert Hb.
  unfold reachable in Hr. induction Hr as [|r1 r2 r3 Hst _ IH]; [done|].
  intros Hb. eapply IH, step_balanced; done.
Qed.

Lemma counts_zero (r : runtime) :
  balanced r → rt_wg r = 0%Z → rt_fetcher r = Exited ∧ rt_workers r = [] ∧ rt_loops r = [].
Proof.
  intros [_ _ Hw _ _ _] H0. rewrite H0 in Hw.
  assert (0 ≤ alive (rt_fetcher r))%Z by (by destruct (rt_fetcher r)).
  assert (length (rt_workers r) = 0 ∧ length (rt_loops r) = 0) as [->%nil_length_inv ->%nil_length_inv]
    by lia.
  split_and!; [|done|done]. destruct (rt_fetcher r); simpl in *; done || lia.
Qed.

(** Everything fetched has been processed, and nothing is held. *)
Definition drained (r : runtime) : Prop :=
  rt_processed r ≡ₚ rt_fetched r ∧ rt_returned r = [] ∧ rt_sem r = 0%Z ∧
  rt_fetcher r = Exited ∧ rt_workers r = [] ∧ rt_loops r = [].

Lemma finished_drained r : balanced r → rt_wg r = 0%Z → drained r.
Proof.
  intros Hb H0. pose proof (counts_zero r Hb H0) as (Ef & Ew & El). destruct Hb as [Hs _ _ _ Ht Hr].
  rewrite Ef, Ew in *. simpl in *. rewrite app_nil_r in Ht. by split_and!.
Qed.

(** ** The in-flight map *)

(** No two live workers have tasks with the same ID. *)
Definition distinct (r : runtime) : Prop := NoDup (map (λ w, taskID (wk_task w)) (rt_workers r)).

(** The map holds the tasks inside [process]. *)
Definition tracked (r : runtime) : Prop :=
  ∀ id e, rt_inflight r !! id = Some e ↔
    ∃ d, MkWorker d Handling ∈ rt_workers r ∧ taskID d = id ∧ entryOf d = e.

Lemma fetch_keeps_work r f r' :
  fetch_step r f r' →
  rt_inflight r' = rt_inflight r ∧
  (rt_workers r' = rt_workers r ∨ ∃ d, rt_workers r' = MkWorker d Launched :: rt_workers r).
Proof. destruct 1; simpl; eauto. Qed.

Lemma id_unique l1 d p l2 d' p' :
  NoDup (map (λ w, taskID (wk_task w)) (l1 ++ MkWorker d p :: l2)) →
  MkWorker d' p' ∈ l1 ++ l2 → taskID d' ≠ taskID d.
Proof.
  rewrite map_app. simpl. intros (_ & H1 & [H2 _]%NoDup_cons)%NoDup_app Hin E.
  apply elem_of_app in Hin as [Hin|Hin];
    apply (list_elem_of_fmap_2 (λ w, taskID (wk_task w))) in Hin; simpl in Hin; rewrite E in Hin.
  - apply (H1 _ Hin). left.
  - by apply H2.
Qed.

Lemma elem_of_worker_at w l1 d p l2 :
  w ∈ l1 ++ worker_at d p ++ l2 ↔ (∃ p', p = Some p' ∧ w = MkWorker d p') ∨ w ∈ l1 ++ l2.
Proof. rewrite !elem_of_app. destruct p; simpl; set_solver. Qed.

Lemma step_tracked r r' : rt_step r r' → distinct r → tracked r → tracked r'.
Proof.
  intros Hst Hd Ht. destruct Hst as [r r' Hst|l1 d p p' l2 r r' El Hst|l1 x l2 r El Hc|r Hc];
    [| |exact Ht|exact Ht].
  - apply fetch_keeps_work in Hst as [Ei Ew]. intros id e. rewrite Ei, (Ht id e).
    destruct Ew as [->|[d ->]]; [done|]. set_solver.
  - unfold distinct in Hd. rewrite El in Hd. intros id e. simpl.
    setoid_rewrite elem_of_worker_at.
    assert (∀ d', MkWorker d' Handling ∈ rt_workers r ↔
              (d' = d ∧ p = Handling) ∨ MkWorker d' Handling ∈ l1 ++ l2) as Hin
      by (intros d'; rewrite El; set_solver).
    assert (∀ d', MkWorker d' Handling ∈ l1 ++ l2 → taskID d' ≠ taskID d) as Hne
      by (intros d'; by eapply id_unique).
    specialize (Ht id e). setoid_rewrite Hin in Ht.
    destruct Hst; simpl; unfold trackInflight, untrackInflight;
      rewrite ?lookup_insert, ?lookup_delete; try case_decide; naive_solver.
Qed.

(** The leases [beat] refreshes. *)
Lemma byQueue_spec f q e :
  e ∈ default [] (byQueue f !! q) ↔
  ∃ id x, f !! id = Some x ∧ if_queue x = q ∧ if_streamID x = e.
Proof.
  unfold byQueue. setoid_rewrite <- elem_of_map_to_list.
  induction (map_to_list f) as [|[id x] l IH]; simpl.
  { rewrite lookup_empty. simpl. set_solver. }
  rewrite lookup_insert. case_decide as E; simpl.
  - subst. rewrite elem_of_cons, IH. set_solver.
  - rewrite IH. set_solver.
Qed.

Lemma run_tracked r :
  rtc (λ r1 r2, rt_step r1 r2 ∧ distinct r2) started r → distinct r ∧ tracked r.
Proof.
  assert (distinct started ∧ tracked started) as H0.
  { split; [apply NoDup_nil_2|]. intros id e. simpl. rewrite lookup_empty. set_solver. }
  intros Hr. induction Hr as [|r1 r2 r3 [Hst Hd] _ IH]; [exact H0|].
  apply IH. split; [done|]. destruct H0. by eapply step_tracked.
Qed.

(** ** Properties *)

(** C16: the server keeps its accounts.  In every state the running server can
    reach, at most [Concurrency] slots are held and each is held by a worker
    or by the fetch loop, so no more handlers run at once; the wait group
    counts the goroutines that are alive; every task fetched is processed, in
    a worker's hands or waiting for its dispatch, once; and the dispatch never
    finds the semaphore full, so no batch is ever cut short. *)
Theorem server_capacity r :
  (1 ≤ Concurrency cfg)%Z → reachable r →
  (len (filter (λ w, wk_phase w ≠ Freed) (rt_workers r)) ≤ rt_sem r ≤ Concurrency cfg)%Z ∧
  rt_wg r = (alive (rt_fetcher r) + len (rt_workers r) + len (rt_loops r))%Z ∧
  rt_fetched r ≡ₚ rt_processed r ++ in_work (rt_workers r) ++ in_hand (rt_fetcher r) ∧
  (∀ ts, rt_fetcher r ≠ Blocked ts) ∧ rt_returned r = [].
Proof.
  intros HC Hr. destruct (reachable_balanced r HC Hr) as [Hs Hc Hw Hf Ht Hret].
  split_and!; [| |done|done|intros ts E; unfold fits in Hf; by rewrite E in Hf|done].
  - rewrite Hs. unfold slots, holds_slot.
    assert (0 ≤ own_slot (rt_fetcher r))%Z by (destruct (rt_fetcher r) as [| | | | | |[]| | |]; done).
    rewrite (list_filter_iff (λ w, wk_phase w ≠ Freed) (λ w, bool_decide (wk_phase w ≠ Freed) = true));
      [lia|]. intros w. by rewrite bool_decide_eq_true.
  - done.
Qed.

(** C17: shutdown is graceful.  Once the context is cancelled, every run of
    the server comes to the point where [Shutdown] returns nil, provided the
    handlers return; and when it does, every task that was fetched has been
    processed, none was thrown away or put back, and no goroutine is left. *)
Theorem shutdown_drains r :
  (1 ≤ Concurrency cfg)%Z → reachable r →
  (rt_cancelled r = true → inevitable (λ r', Shutdown_returns false r' (Ok ()) ∧ drained r') r) ∧
  (∀ expired, Shutdown_returns expired r (Ok ()) → drained r).
Proof.
  intros HC Hr. pose proof (reachable_balanced r HC Hr) as Hb. clear Hr. split.
  - remember (weight r) as n eqn:En. revert r Hb En. induction n as [n IH] using lt_wf_ind.
    intros r Hb -> Hcan. destruct (decide (rt_wg r = 0%Z)) as [H0|H0].
    { apply inev_now. split; [by constructor|by apply finished_drained]. }
    apply inev_later; [by apply step_possible|]. intros r' Hst.
    destruct (step_decreases r r' Hst Hcan) as [Hlt Hcan']; [by destruct Hb|].
    eapply IH; [exact Hlt|by eapply step_balanced|done|done].
  - intros expired Hret. apply finished_drained; [done|]. by inversion Hret.
Qed.

(** C18: the heartbeat covers what is being processed.  As long as no two
    tasks with one ID are in work at a time, [beat] refreshes the lease of
    exactly the stream entries whose tasks are inside [process]. *)
Theorem beat_covers_running r q e :
  rtc (λ r1 r2, rt_step r1 r2 ∧ distinct r2) started r →
  e ∈ default [] (byQueue (rt_inflight r) !! q) ↔
  ∃ d, MkWorker d Handling ∈ rt_workers r ∧ m_Queue (dq_Msg d) = q ∧ dq_StreamID d = e.
Proof.
  intros [_ Ht]%run_tracked. rewrite byQueue_spec. split.
  - intros (id & x & (d & Hin & <- & <-)%Ht & <- & <-). by exists d.
  - intros (d & Hin & <- & <-). exists (taskID d), (entryOf d). split_and!; [|done|done].
    apply Ht. by exists d.
Qed.

End runtime.

(** ** A run *)

Definition demo_cfg : ServerConfig :=
  newServer (λ _, 0%Z) (MkServerConfig {["a" := 2%Z; "b" := 1%Z]} false 2 None false NoMetrics
                          0 0 0 0 0 0 0 0).

Definition demo_task (id queue : string) (e : sid) : Dequeued :=
  MkDequeued (newMessage id "k" "{}" queue 3 false 0) e.

(** The server reads two tasks, starts both workers, and both call their
    handlers. *)
Definition demo_batch (d1 d2 : Dequeued) : runtime :=
  let s1 := at_fetch Round (acquire (at_fetch Select started)) in
  let s2 := at_fetch (Reading (batchSize demo_cfg (rt_sem s1))) s1 in
  at_fetch (Dispatch true [d1; d2]) (record_fetched [d1; d2] s2).

Definition demo_launched (d1 d2 : Dequeued) : runtime :=
  at_fetch (Dispatch false []) (launch d2 (acquire
    (at_fetch (Dispatch false [d2]) (launch d1 (demo_batch d1 d2))))).

Definition demo_busy (d1 d2 : Dequeued) : runtime :=
  let track d := in_flight (trackInflight (taskID d) (entryOf d)) in
  at_work [MkWorker d2 Handling; MkWorker d1 Handling]
    (track d2 (at_work [MkWorker d2 Launched; MkWorker d1 Handling] (track d1 (demo_launched d1 d2)))).

Lemma demo_busy_run (P : runtime → Prop) d1 d2 :
  (∀ r, rt_workers r = [] → P r) →
  (∀ r p, rt_workers r = [MkWorker d1 p] → P r) →
  (∀ r p1 p2, rt_workers r = [MkWorker d2 p2; MkWorker d1 p1] → P r) →
  rtc (λ r1 r2, rt_step demo_cfg r1 r2 ∧ P r2) started (demo_busy d1 d2).
Proof.
  intros H0 H1 H2.
  eapply rtc_l; [split; [by apply rt_fetch, fl_go|by apply H0]|].
  eapply rtc_l; [split; [by apply rt_fetch, fl_take|by apply H0]|].
  eapply rtc_l; [split; [by apply rt_fetch, fl_size|by apply H0]|].
  eapply rtc_l; [split; [by apply rt_fetch, (fl_batch _ _ _ [d1; d2])|by apply H0]|].
  eapply rtc_l; [split; [by apply rt_fetch, fl_first|by eapply H1]|].
  eapply rtc_l; [split; [by apply rt_fetch, fl_next|by eapply H2]|].
  eapply rtc_l; [split; [by eapply (rt_work _ [_] d1 _ _ []), wk_track|by eapply H2]|].
  eapply rtc_l; [split; [by eapply (rt_work _ [] d2 _ _ [_]), wk_track|by eapply H2]|].
  reflexivity.
Qed.

(** Two tasks with one ID, from two queues: the lease of the one that was
    tracked first is not refreshed while its handler runs. *)
Lemma same_id_loses_lease :
  let r := demo_busy (demo_task "t" "a" 1) (demo_task "t" "b" 1) in
  reachable demo_cfg r ∧
  MkWorker (demo_task "t" "a" 1) Handling ∈ rt_workers r ∧
  byQueue (rt_inflight r) !! "a" = None.
Proof.
  split_and!; [|right; left|by vm_compute].
  eapply rtc_subrel; [|by apply (demo_busy_run (λ _, True))]. by intros ? ? [].
Qed.

Lemma demo_reachable d1 d2 : reachable demo_cfg (demo_busy d1 d2).
Proof. eapply rtc_subrel; [|by apply (demo_busy_run (λ _, True))]. by intros ? ? []. Qed.

Lemma server_capacity_witness :
  let r := demo_busy (demo_task "t1" "a" 1) (demo_task "t2" "b" 1) in
  rt_sem r = 2%Z ∧ (rt_sem r ≤ Concurrency demo_cfg)%Z ∧
  rt_fetched r ≡ₚ rt_processed r ++ in_work (rt_workers r) ++ in_hand (rt_fetcher r).
Proof.
  intros r.
  destruct (server_capacity demo_cfg r) as ([_ H] & _ & Ht & _); [done|apply demo_reachable|].
  by split_and!.
Defined.

Lemma shutdown_drains_witness :
  let r := cancel (demo_busy (demo_task "t1" "a" 1) (demo_task "t2" "b" 1)) in
  inevitable demo_cfg (λ r', Shutdown_returns false r' (Ok ()) ∧ drained r') r.
Proof.
  intros r. apply (shutdown_drains demo_cfg r); [done| |done].
  eapply rtc_r; [apply demo_reachable|by apply rt_cancel].
Defined.

Lemma beat_covers_running_witness :
  let r := demo_busy (demo_task "t1" "a" 1) (demo_task "t2" "b" 7) in
  7%Z ∈ default [] (byQueue (rt_inflight r) !! "b").
Proof.
  intros r. apply (beat_covers_running demo_cfg r "b" 7).
  - apply demo_busy_run; unfold distinct; intros r' *; intros ->; simpl;
      by apply (bool_decide_unpack (NoDup _)).
  - exists (demo_task "t2" "b" 7). split_and!; [left|done|done].
Defined.

End Runtime.
