(* ===== verification/Options.v ===== *)
(** * chronos.go: enqueueing with options

    The options of [Enqueue], how they are resolved, and the routing of an
    assembled message to one of the four enqueue paths.  A task's arguments
    are its Kind and the result of encoding them ([encoding/json] at the
    user's type); [uuid.NewString] is a parameter. *)

From S2P Require Import Prelude GoLib Base Redis Client RdbCore RdbLocks Schedule.

Module Options.
Import GoTime GoStr Keys Task Redis Client RdbCore RdbLocks Schedule.

Definition DefaultQueue : string := "default".
Definition DefaultMaxRetry : Z := 25.

(** An argument value: its Kind, and its encoding unless that fails. *)
Record TaskArgs := MkArgs { Kind : string; encoded : option bytes }.

Definition encodeArgs `{R : Redis} (args : TaskArgs) : M bytes :=
  match encoded args with Some b => mret b | None => fail ErrDecode end.

Record enqueueOptions := MkOptions {
  o_queue : string;
  o_taskID : string;
  o_maxRetry : Z;
  o_noArchive : bool;
  o_processAt : Z;                 (* the zero time: immediate *)
  o_processAtAbsolute : bool;
  o_uniqueTTL : Z;
  o_misfire : MisfirePolicy;
  o_retention : Z;
}.

Definition defaultOptions : enqueueOptions :=
  MkOptions DefaultQueue "" DefaultMaxRetry false zeroTime false 0 MisfireSkip 0.

(** The options, with their arguments. *)
Inductive Option :=
  | WithQueue (name : string)
  | WithTaskID (id : string)
  | WithMaxRetry (n : Z)
  | WithDeadLetterDiscard
  | WithProcessAt (t : Z)
  | WithProcessIn (d : Z)
  | WithUnique (ttl : Z)
  | WithRetention (d : Z)
  | WithMisfirePolicy (p : MisfirePolicy).

(** [now] is the time at which the option is applied. *)
Definition apply (now : Z) (o : enqueueOptions) (opt : Option) : enqueueOptions :=
  let '(MkOptions q id mr na pa abs u mf ret) := o in
  match opt with
  | WithQueue name => MkOptions name id mr na pa abs u mf ret
  | WithTaskID id => MkOptions q id mr na pa abs u mf ret
  | WithMaxRetry n =>
      MkOptions q id (if bool_decide (n < 0)%Z then 0%Z else n) na pa abs u mf ret
  | WithDeadLetterDiscard => MkOptions q id mr true pa abs u mf ret
  | WithProcessAt t => MkOptions q id mr na t true u mf ret
  | WithProcessIn d => MkOptions q id mr na (now + d)%Z abs u mf ret
  | WithUnique ttl =>
      MkOptions q id mr na pa abs (if bool_decide (0 < ttl)%Z then ttl else u) mf ret
  | WithRetention d =>
      MkOptions q id mr na pa abs u mf
        (if bool_decide (d ≤ 0)%Z then 0%Z
         else if bool_decide (d < Second)%Z then Second else d)
  | WithMisfirePolicy p => MkOptions q id mr na pa abs u p ret
  end.

Definition resolve (now : Z) (opts : list Option) : enqueueOptions :=
  foldl (apply now) defaultOptions opts.

(** What [Enqueue] returns of a [TaskInfo]. *)
Record EnqueuedInfo := MkEnqueuedInfo {
  ei_ID : string;
  ei_Kind : string;
  ei_Queue : string;
  ei_ChainPending : Z;
}.

Section enqueue.
Context `{R : Redis} `{J : Json} (K : Keys) (sha256hex : bytes → string).

Definition dispatchMessage (msg : TaskMessage) (o : enqueueOptions) : M () :=
  t ← now;
  let scheduled := negb (IsZero (o_processAt o)) && bool_decide (t < o_processAt o)%Z in
  let unique := bool_decide (0 < o_uniqueTTL o)%Z in
  match unique, scheduled with
  | true, true =>
      t ← now;
      ScheduleUnique K sha256hex msg (o_processAt o)
        (wrap64 (o_uniqueTTL o + sat64 (o_processAt o - t)))
  | true, false => EnqueueUnique K sha256hex msg (o_uniqueTTL o)
  | false, true => Schedule K msg (o_processAt o)
  | false, false => Enqueue K msg
  end.

(** The retention in whole seconds, as the message carries it. *)
Definition retentionSeconds (o : enqueueOptions) : Z := (o_retention o `quot` Second)%Z.

Definition EnqueueTask (uuid : string) (args : TaskArgs) (opts : list Option) : M EnqueuedInfo :=
  t ← now;
  let o := resolve t opts in
  let id := if bool_decide (o_taskID o = "") then uuid else o_taskID o in
  payload ← encodeArgs args;
  let msg := newMessage id (Kind args) payload (o_queue o) (o_maxRetry o) (o_noArchive o)
               (retentionSeconds o) in
  dispatchMessage msg o;;
  mret (MkEnqueuedInfo id (Kind args) (o_queue o) 0).

End enqueue.
End Options.
