(* ===== verification/Scheduler.v ===== *)
(** * scheduler.go: the elected scheduler

    Registration, the leader election, and the handling of the run loop's
    events.  [crypto/sha256] and the schedules' [Next] are parameters. *)

From S2P Require Import Prelude GoLib Base Redis Client RdbCore RdbLocks RdbAdmin Schedule Options.

Module Scheduler.
Import GoTime GoStr Keys Task Redis Client RdbCore RdbLocks RdbAdmin Schedule Options.

(** [staleAfter] of inspector.go. *)
Definition staleAfter : Z := Minute.

Record scheduleEntry := MkEntry {
  e_id : string;
  e_kind : string;
  e_spec : string;
  e_payload : bytes;
  e_queue : string;
  e_maxRetry : Z;
  e_noArch : bool;
  e_misfire : MisfirePolicy;
  e_retention : Z;
  e_schedule : Z → Z;              (* Next *)
}.

Record Scheduler := MkScheduler {
  s_leaderTTL : Z;
  s_instance : string;
  s_entries : list scheduleEntry;
  s_isLeader : bool;
}.

Definition set_leader (b : bool) (s : Scheduler) : Scheduler :=
  MkScheduler (s_leaderTTL s) (s_instance s) (s_entries s) b.

Definition newScheduler (instance : string) (leaderTTL : Z) : Scheduler :=
  MkScheduler (if bool_decide (leaderTTL ≤ 0)%Z then (5 * Second)%Z else leaderTTL)
    instance [] false.

(** [sha8] is the hex of the first eight bytes of the SHA-256 digest. *)
Definition register (sha8 : bytes → string) (now : Z) (spec : string) (sched : Z → Z)
    (kind : string) (payload : bytes) (opts : list Option) (s : Scheduler) : Scheduler :=
  let o := resolve now opts in
  let sum := sha8 (o_queue o +:+ String (Ascii.ascii_of_nat 0) payload) in
  let id := kind +:+ ":" +:+ spec +:+ "#" +:+ sum in
  MkScheduler (s_leaderTTL s) (s_instance s)
    (s_entries s ++ [MkEntry id kind spec payload (o_queue o) (o_maxRetry o) (o_noArchive o)
                       (o_misfire o) (o_retention o) sched])
    (s_isLeader s).

(** [RegisterInterval]: [every] is [cron.Every], [show] is
    [Duration.String]. *)
Definition RegisterInterval (sha8 : bytes → string) (every : Z → Z → Z) (show : Z → string)
    (now interval : Z) (args : TaskArgs) (opts : list Option) (s : Scheduler)
    : result Scheduler :=
  if bool_decide (interval < Second)%Z then
    Err (ErrText "chronos: interval must be >= 1s (sub-second schedules cannot survive leader failover)")
  else match encoded args with
       | None => Err ErrDecode
       | Some payload =>
           Ok (register sha8 now ("@every " +:+ show interval) (every interval) (Kind args)
                 payload opts s)
       end.

(** [RegisterCron]: [parse] is [cron.ParseStandard] evaluated in the
    configured location, [quote] is [strconv.Quote]. *)
Definition RegisterCron (sha8 : bytes → string) (quote : string → string)
    (parse : string → result (Z → Z)) (now : Z) (spec : string) (args : TaskArgs)
    (opts : list Option) (s : Scheduler)
    : result Scheduler :=
  match parse spec with
  | Err e => Err (ErrWrapped ("chronos: invalid cron spec " +:+ quote spec) e)
  | Ok sched =>
      match encoded args with
      | None => Err ErrDecode
      | Some payload => Ok (register sha8 now spec sched (Kind args) payload opts s)
      end
  end.

Definition scheduleMetas (s : Scheduler) : list ScheduleMeta :=
  map (λ e, MkScheduleMeta (e_id e) (e_kind e) (e_queue e) (e_spec e) 0 0) (s_entries s).

Definition scheduleIDs (s : Scheduler) : list string := map e_id (s_entries s).

(** Half the term, at most 20 seconds. *)
Definition renewEvery (s : Scheduler) : Z :=
  let d := (s_leaderTTL s `quot` 2)%Z in
  if bool_decide (20 * Second < d)%Z then (20 * Second)%Z else d.

Section scheduler.
Context `{R : Redis} `{J : Json} `{MJ : MetaJson} (K : Keys).

Definition pruneRegistry (s : Scheduler) : M () :=
  t ← now;
  try (PruneSchedules K (scheduleIDs s) (t - staleAfter)%Z);;
  mret ().

(** The part of [Start] before the loop. *)
Definition Start (s : Scheduler) : M () :=
  try (RegisterSchedules K (scheduleMetas s));;
  pruneRegistry s.

(** A failed round trip leaves [isLeader] as it was. *)
Definition tryElect (s : Scheduler) : M Scheduler :=
  r ← try (AcquireOrRenewLeadership K (s_instance s) (s_leaderTTL s));
  mret match r with
       | Err _ => s
       | Ok ok => set_leader ok s
       end.

Definition lastFiredOrInit (e : scheduleEntry) (now : Z) : M Z :=
  r ← try (GetLastFired K (e_id e));
  match r with
  | Ok (Some last) => mret last
  | _ => try (SetLastFired K (e_id e) now);; mret now
  end.

Definition enqueueTrigger (s : Scheduler) (e : scheduleEntry) (trigger : Z) : M () :=
  let triggerID := e_id e +:+ ":" +:+ itoa (Unix trigger) in
  let msg := newMessage triggerID (e_kind e) (e_payload e) (e_queue e) (e_maxRetry e)
               (e_noArch e) (e_retention e `quot` Second)%Z in
  EnqueuePeriodic K msg triggerID (wrap64 (10 * s_leaderTTL s)).

(** Whether a trigger could not be enqueued; a duplicate is no failure. *)
Definition fireTrigger (s : Scheduler) (e : scheduleEntry) (failed : bool) (trigger : Z) : M bool :=
  r ← try (enqueueTrigger s e trigger);
  mret match r with
       | Ok _ => failed
       | Err ErrDuplicateTask => failed
       | Err _ => true
       end.

Definition fireEntry (s : Scheduler) (now : Z) (_ : ()) (e : scheduleEntry) : M () :=
  last ← lastFiredOrInit e now;
  let (fires, newLast) := computeFires (e_schedule e) last now (e_misfire e) in
  failed ← go_foldl (fireTrigger s e) false fires;
  if failed : bool then mret () else
  if bool_decide (newLast = last) then mret ()
  else try (SetLastFired K (e_id e) newLast);; mret ().

Definition fireDue (s : Scheduler) : M () :=
  t ← now;
  go_foldl (fireEntry s t) () (s_entries s).

(** The events of the run loop. *)
Inductive event := RenewTick | ResignNotice | SecondTick.

Definition handle (s : Scheduler) (ev : event) : M Scheduler :=
  match ev with
  | RenewTick =>
      s ← tryElect s;
      try (TouchSchedules K (scheduleIDs s));;
      pruneRegistry s;;
      mret s
  | ResignNotice => tryElect s
  | SecondTick => (if s_isLeader s then fireDue s else mret ());; mret s
  end.

(** [run] over a sequence of events. *)
Definition run_events (s : Scheduler) (evs : list event) : M Scheduler :=
  s ← tryElect s;
  go_foldl handle s evs.

Definition Shutdown (s : Scheduler) : M () :=
  if s_isLeader s then try (ResignLeadership K (s_instance s));; mret () else mret ().

End scheduler.
End Scheduler.
