(* ===== verification/Builder.v ===== *)
(** * chain.go and group.go: building workflows

    A chain freezes its later stages into the first link's message; a group
    freezes its callback into every member's message.  The builders reject
    what the workflow rules cannot honour before any Redis state exists.
    [now] is the clock during the builder call. *)

From S2P Require Import Prelude GoLib Base Redis Client RdbCore RdbFlow Schedule Options.

Module Builder.
Import GoTime GoStr Keys Task Redis Client RdbCore RdbFlow Schedule Options.

(** Nil pointers are [None]. *)
Inductive Chain :=
  | MkChain (stages : list chainStage)
with chainStage :=
  | Link (args : TaskArgs) (opts : list Option)
  | Parallel (g : option Group)
with Group :=
  | MkGroup (members : list groupMember) (callback : option (TaskArgs * list Option))
with groupMember :=
  | Member (args : TaskArgs) (opts : list Option)
  | ChainMember (ch : option Chain).

Definition stages (ch : Chain) : list chainStage := let '(MkChain l) := ch in l.
Definition members (g : Group) : list groupMember := let '(MkGroup l _) := g in l.
Definition callback (g : Group) : option (TaskArgs * list Option) := let '(MkGroup _ c) := g in c.

Definition NewChain : Chain := MkChain [].
Definition Then (ch : Chain) (args : TaskArgs) (opts : list Option) : Chain :=
  MkChain (stages ch ++ [Link args opts]).
Definition ThenGroup (ch : Chain) (g : option Group) : Chain :=
  MkChain (stages ch ++ [Parallel g]).
Definition NewGroup : Group := MkGroup [] None.
Definition Add (g : Group) (args : TaskArgs) (opts : list Option) : Group :=
  MkGroup (members g ++ [Member args opts]) (callback g).
Definition AddChain (g : Group) (ch : option Chain) : Group :=
  MkGroup (members g ++ [ChainMember ch]) (callback g).
Definition OnComplete (g : Group) (args : TaskArgs) (opts : list Option) : Group :=
  MkGroup (members g) (Some (args, opts)).

(** Results in sequence. *)
Definition rbind {A B} (r : result A) (f : A → result B) : result B :=
  match r with Ok a => f a | Err e => Err e end.
Definition rwrap {A} (prefix : string) (r : result A) : result A :=
  match r with Ok a => Ok a | Err e => Err (ErrWrapped prefix e) end.

Notation "'let?' x ':=' r 'in' k" := (rbind r (λ x, k))
  (at level 200, x name, r at level 100, k at level 200) : chronos_scope.
Notation "'guard?' b 'else' e 'in' k" := (if (b : bool) then k else Err e)
  (at level 200, b at level 100, e at level 100, k at level 200) : chronos_scope.

Definition encode (args : TaskArgs) : result bytes :=
  match encoded args with Some b => Ok b | None => Err ErrDecode end.

Definition errNoArchiveMidChain : err :=
  ErrText "chronos: WithDeadLetterDiscard is only allowed on the last chain link (discarding a mid-link would delete the chain's remaining tail)".

Definition resolveChainOptions (now : Z) (opts : list Option) : result enqueueOptions :=
  let o := resolve now opts in
  if negb (bool_decide (o_taskID o = "")) then
    Err (ErrText "chronos: WithTaskID cannot be used inside a chain (the chain owns task IDs)")
  else if bool_decide (0 < o_uniqueTTL o)%Z then
    Err (ErrText "chronos: WithUnique is not supported inside a chain")
  else Ok o.

(** [time.Until]. *)
Definition until (now t : Z) : Z := sat64 (t - now).

Definition captureRelativeDelay (now : Z) (o : enqueueOptions) : Z :=
  if IsZero (o_processAt o) then 0%Z else
  let d := until now (o_processAt o) in
  if bool_decide (d ≤ 0)%Z then 0%Z else
  let delay := (wrap64 (d + Second `quot` 2) `quot` Second)%Z in
  if bool_decide (delay = 0)%Z then 1%Z else delay.

Definition snapshotChainLink (now : Z) (args : TaskArgs) (opts : list Option) (isLast : bool)
    : result ChainLink :=
  let? o := resolveChainOptions now opts in
  guard? negb (o_processAtAbsolute o)
    else ErrText "chronos: WithProcessAt cannot be used on a chain link after the first (its delay is relative to the predecessor; use WithProcessIn)" in
  guard? negb (o_noArchive o && negb isLast) else errNoArchiveMidChain in
  let? payload := encode args in
  Ok (MkChainLink (Kind args) payload (o_queue o) (o_maxRetry o) (o_noArchive o)
        (retentionSeconds o) (captureRelativeDelay now o) []).

(** One member of a parallel stage, the [j]-th. *)
Definition snapshotStageMember (now : Z) (i j : nat) (m : groupMember) : result GroupMemberLink :=
  let at_ := "chain stage " +:+ itoa (Z.of_nat i) +:+ " member " +:+ itoa (Z.of_nat j) in
  match m with
  | ChainMember _ =>
      Err (ErrText (at_ +:+ ": a group used as a chain stage cannot have chain members yet"))
  | Member args opts =>
      let? o := rwrap at_ (resolveChainOptions now opts) in
      guard? negb (o_noArchive o)
        else ErrText (at_ +:+ ": WithDeadLetterDiscard would strand the group (no dead-letter left to re-run)") in
      guard? negb (o_processAtAbsolute o)
        else ErrText (at_ +:+ ": WithProcessAt cannot be used on a group member (its delay is relative; use WithProcessIn)") in
      let? payload := rwrap at_ (encode args) in
      let delay := captureRelativeDelay now o in
      guard? bool_decide (delay ≤ groupTTLSeconds)%Z
        else ErrText (at_ +:+ ": WithProcessIn exceeds the group TTL (168h0m0s)") in
      Ok (MkGroupMemberLink (Kind args) payload (o_queue o) (o_maxRetry o) (retentionSeconds o)
            delay)
  end.

Fixpoint snapshotStageMembers (now : Z) (i j : nat) (ms : list groupMember)
    : result (list GroupMemberLink) :=
  match ms with
  | [] => Ok []
  | m :: ms =>
      let? l := snapshotStageMember now i j m in
      let? ls := snapshotStageMembers now i (S j) ms in
      Ok (l :: ls)
  end.

Definition with_Group (ms : list GroupMemberLink) (l : ChainLink) : ChainLink :=
  MkChainLink (cl_Kind l) (cl_Payload l) (cl_Queue l) (cl_MaxRetry l) (cl_NoArchive l)
    (cl_Retention l) (cl_Delay l) ms.

Definition snapshotGroupStage (now : Z) (g : option Group) (i : nat) (isLast : bool)
    : result ChainLink :=
  let at_ := "chain stage " +:+ itoa (Z.of_nat i) in
  match g with
  | None => Err (ErrText (at_ +:+ ": nil group"))
  | Some g =>
      guard? bool_decide (members g ≠ [])
        else ErrText (at_ +:+ ": group needs at least one member") in
      match callback g with
      | None => Err (ErrText (at_ +:+ ": group needs a callback (OnComplete)"))
      | Some (cb, cbOpts) =>
          let? link := rwrap (at_ +:+ " callback") (snapshotChainLink now cb cbOpts isLast) in
          let? ms := snapshotStageMembers now i 0 (members g) in
          Ok (with_Group ms link)
      end
  end.

Definition snapshotStage (now : Z) (i : nat) (st : chainStage) (isLast : bool) : result ChainLink :=
  match st with
  | Link args opts =>
      rwrap ("chain link " +:+ itoa (Z.of_nat i)) (snapshotChainLink now args opts isLast)
  | Parallel g => snapshotGroupStage now g i isLast
  end.

(** The stages after the first, [i] being the index of the head. *)
Fixpoint snapshotStages (now : Z) (i : nat) (l : list chainStage) : result (list ChainLink) :=
  match l with
  | [] => Ok []
  | st :: l =>
      let? link := snapshotStage now i st (bool_decide (l = [])) in
      let? links := snapshotStages now (S i) l in
      Ok (link :: links)
  end.

Definition snapshotTail (now : Z) (ch : Chain) : result (list ChainLink) :=
  snapshotStages now 1 (tail (stages ch)).

Definition hasGroupStage (ch : Chain) : bool :=
  existsb (λ st, match st with Parallel _ => true | Link _ _ => false end) (stages ch).

(** The message of a chain's first link. *)
Definition firstMessage (chainID : string) (args : TaskArgs) (payload : bytes)
    (o : enqueueOptions) (noArchive : bool) (tl : list ChainLink) : TaskMessage :=
  with_Chain tl (with_ChainID chainID
    (newMessage (chainID +:+ ":0") (Kind args) payload (o_queue o) (o_maxRetry o) noArchive
       (retentionSeconds o))).

Definition discardMember : err :=
  ErrText "chronos: a group member chain link cannot discard (WithDeadLetterDiscard) — it would strand the group".

Definition snapshotForMember (now : Z) (ch : option Chain) (chainID : string)
    : result (TaskMessage * enqueueOptions) :=
  match ch with
  | None => Err (ErrText "chronos: nil chain member")
  | Some ch =>
      match stages ch with
      | [] => Err (ErrText "chronos: empty chain member")
      | first :: _ =>
          guard? negb (hasGroupStage ch)
            else ErrText "chronos: a group member chain cannot contain a parallel stage (ThenGroup) — recursive nesting beyond one level is not supported" in
          let? tl := snapshotTail now ch in
          match first with
          | Parallel _ => Err (ErrText "unreachable")
          | Link args opts =>
              let? o := rwrap "chain member link 0" (resolveChainOptions now opts) in
              guard? negb (o_noArchive o) else discardMember in
              guard? negb (existsb cl_NoArchive tl) else discardMember in
              let? payload := rwrap "chain member link 0" (encode args) in
              Ok (firstMessage chainID args payload o false tl, o)
          end
      end
  end.

(** [Chain.Enqueue] up to the dispatch. *)
Definition buildChain (now : Z) (chainID : string) (ch : Chain)
    : result (TaskMessage * enqueueOptions) :=
  match stages ch with
  | [] => Err (ErrText "chronos: empty chain")
  | Parallel _ :: _ => Err (ErrText "chronos: a group cannot be the chain's first stage — start with Then, or use NewGroup directly")
  | Link args opts :: rest =>
      let? tl := snapshotTail now ch in
      let? o := rwrap "chain link 0" (resolveChainOptions now opts) in
      guard? negb (bool_decide (rest ≠ []) && o_noArchive o)
        else ErrWrapped "chain link 0" errNoArchiveMidChain in
      let? payload := rwrap "chain link 0" (encode args) in
      Ok (firstMessage chainID args payload o (o_noArchive o) tl, o)
  end.

(** The fields by which a member reports to its group. *)
Definition asMember (groupID : string) (cbLink : ChainLink) (i n : nat) (msg : TaskMessage)
    : TaskMessage :=
  with_GroupID groupID (with_GroupQueue (cl_Queue cbLink) (with_GroupCallback (Some cbLink)
    (with_GroupIndex (Z.of_nat i) (with_GroupSize (Z.of_nat n) msg)))).

(** The largest delay before a chain member can report: its first link's and
    those of all later links. *)
Definition memberDelay (now : Z) (o : enqueueOptions) (msg : TaskMessage) : Z :=
  foldl (λ d l, if bool_decide (0 < cl_Delay l)%Z
                then wrap64 (d + wrap64 (cl_Delay l * Second)) else d)
    (if IsZero (o_processAt o) then 0%Z else until now (o_processAt o)) (m_Chain msg).

Definition buildMember (now : Z) (groupID : string) (cbLink : ChainLink) (n i : nat)
    (m : groupMember) : result (TaskMessage * enqueueOptions) :=
  let slot := groupID +:+ ":m" +:+ itoa (Z.of_nat i) in
  let at_ := "group member " +:+ itoa (Z.of_nat i) in
  match m with
  | ChainMember ch =>
      let? p := rwrap at_ (snapshotForMember now ch slot) in
      guard? bool_decide (memberDelay now p.2 p.1 ≤ GroupTTL)%Z
        else ErrText (at_ +:+ ": chain link delays exceed the group TTL (168h0m0s)") in
      Ok (with_GroupMemberID slot (asMember groupID cbLink i n p.1), p.2)
  | Member args opts =>
      let? o := rwrap at_ (resolveChainOptions now opts) in
      guard? negb (o_noArchive o)
        else ErrText (at_ +:+ ": WithDeadLetterDiscard would strand the group (no dead-letter left to re-run)") in
      guard? IsZero (o_processAt o) || bool_decide (until now (o_processAt o) ≤ GroupTTL)%Z
        else ErrText (at_ +:+ ": WithProcessIn/WithProcessAt exceeds the group TTL (168h0m0s)") in
      let? payload := rwrap at_ (encode args) in
      Ok (asMember groupID cbLink i n
            (newMessage slot (Kind args) payload (o_queue o) (o_maxRetry o) false
               (retentionSeconds o)), o)
  end.

Fixpoint buildMembers (now : Z) (groupID : string) (cbLink : ChainLink) (n i : nat)
    (ms : list groupMember) : result (list (TaskMessage * enqueueOptions)) :=
  match ms with
  | [] => Ok []
  | m :: ms =>
      let? p := buildMember now groupID cbLink n i m in
      let? ps := buildMembers now groupID cbLink n (S i) ms in
      Ok (p :: ps)
  end.

Record GroupInfo := MkGroupInfo {
  gi_GroupID : string;
  gi_MemberIDs : list string;
  gi_CallbackID : string;
}.

(** The callback link and the members, before any Redis state is created. *)
Definition buildGroup (now : Z) (groupID : string) (g : Group)
    : result (ChainLink * list (TaskMessage * enqueueOptions)) :=
  guard? bool_decide (members g ≠ []) else ErrText "chronos: group needs at least one member" in
  match callback g with
  | None => Err (ErrText "chronos: group needs a callback (OnComplete)")
  | Some (cb, cbOpts) =>
      let? cbLink := rwrap "group callback" (snapshotChainLink now cb cbOpts true) in
      let? pending := buildMembers now groupID cbLink (length (members g)) 0 (members g) in
      Ok (cbLink, pending)
  end.

Section enqueue.
Context `{R : Redis} `{J : Json} (K : Keys) (sha256hex : bytes → string).

Definition ChainEnqueue (uuid : string) (ch : Chain) : M EnqueuedInfo :=
  t ← now;
  '(msg, o) ← lift_result (buildChain t uuid ch);
  dispatchMessage K sha256hex msg o;;
  mret (MkEnqueuedInfo (m_ID msg) (m_Kind msg) (m_Queue msg) (len (m_Chain msg))).

Fixpoint dispatchMembers (i : nat) (pending : list (TaskMessage * enqueueOptions)) : M () :=
  match pending with
  | [] => mret ()
  | (msg, o) :: pending =>
      wrap_err ("group member " +:+ itoa (Z.of_nat i)) (dispatchMessage K sha256hex msg o);;
      dispatchMembers (S i) pending
  end.

Definition memberIDs (groupID : string) (g : Group) : list string :=
  imap (λ i _, groupID +:+ ":m" +:+ itoa (Z.of_nat i)) (members g).

Definition GroupEnqueue (uuid : string) (g : Group) : M GroupInfo :=
  t ← now;
  '(cbLink, pending) ← lift_result (buildGroup t uuid g);
  CreateGroup K (cl_Queue cbLink) uuid (memberIDs uuid g);;
  dispatchMembers 0 pending;;
  mret (MkGroupInfo uuid (memberIDs uuid g) (uuid +:+ ":cb")).

End enqueue.
End Builder.
