(* ===== verification/Inspector.v ===== *)
(** * inspector.go: reading and administering queues

    The public view of stored tasks and schedules. *)

From S2P Require Import Prelude GoLib Base Redis Client RdbCore RdbLocks RdbFlow RdbAdmin.
From S2P Require Import Scheduler.

Module Inspector.
Import GoTime GoFloat GoStr Keys Task Redis Client RdbCore RdbLocks RdbFlow RdbAdmin.

Definition ErrTaskNotFound : err := ErrText "chronos: task not found".
Definition ErrInvalidState : err := ErrText "chronos: invalid task state".

Record QueueInfo := MkQueueInfo {
  qi_stats : QueueStats;
  qi_Paused : bool;
}.

(** The fields of [TaskInfo] the Inspector fills; times are [None] when the
    field keeps its zero value. *)
Record TaskInfo := MkTaskInfo {
  ti_ID : string;
  ti_Kind : string;
  ti_Queue : string;
  ti_State : string;
  ti_Payload : bytes;
  ti_Retried : Z;
  ti_MaxRetry : Z;
  ti_LastErr : string;
  ti_NextProcessAt : option Z;
  ti_CompletedAt : option Z;
  ti_ChainPending : Z;
  ti_ChainIndex : Z;
  ti_ChainNext : list string;
  ti_GroupID : string;
  ti_GroupPending : Z;
  ti_GroupQueue : string;
  ti_HasResult : bool;
  ti_ResultSize : Z;
}.

Definition with_NextProcessAt (v : Z) (t : TaskInfo) : TaskInfo :=
  MkTaskInfo (ti_ID t) (ti_Kind t) (ti_Queue t) (ti_State t) (ti_Payload t) (ti_Retried t)
    (ti_MaxRetry t) (ti_LastErr t) (Some v) (ti_CompletedAt t) (ti_ChainPending t)
    (ti_ChainIndex t) (ti_ChainNext t) (ti_GroupID t) (ti_GroupPending t) (ti_GroupQueue t)
    (ti_HasResult t) (ti_ResultSize t).

Definition with_GroupPending (v : Z) (t : TaskInfo) : TaskInfo :=
  MkTaskInfo (ti_ID t) (ti_Kind t) (ti_Queue t) (ti_State t) (ti_Payload t) (ti_Retried t)
    (ti_MaxRetry t) (ti_LastErr t) (ti_NextProcessAt t) (ti_CompletedAt t) (ti_ChainPending t)
    (ti_ChainIndex t) (ti_ChainNext t) (ti_GroupID t) v (ti_GroupQueue t) (ti_HasResult t)
    (ti_ResultSize t).

(** A waiting link: its kind, or the size and callback of a stage (the
    source puts an arrow between them). *)
Definition linkName (l : ChainLink) : string :=
  match cl_Group l with
  | [] => cl_Kind l
  | ms => "group[" +:+ itoa (len ms) +:+ "]→" +:+ cl_Kind l
  end.

Definition taskInfoFromMsg (m : TaskMessage) : TaskInfo :=
  MkTaskInfo (m_ID m) (m_Kind m) (m_Queue m) (StateString (m_State m)) (m_Payload m)
    (m_Retried m) (m_MaxRetry m) (m_LastErr m) None
    (if bool_decide (0 < m_CompletedAt m)%Z then Some (m_CompletedAt m * Second)%Z else None)
    (len (m_Chain m)) (m_ChainIndex m) (map linkName (m_Chain m)) (m_GroupID m) 0 (m_GroupQueue m)
    (bool_decide (m_Result m ≠ "")) (Z.of_nat (String.length (m_Result m))).

Record ScheduleInfo := MkScheduleInfo {
  si_ID : string;
  si_Kind : string;
  si_Queue : string;
  si_Spec : string;
  si_LastFired : option Z;
  si_LastSeen : option Z;
  si_Stale : bool;
}.

Section inspector.
Context `{R : Redis} `{J : Json} `{MJ : MetaJson} (K : Keys).
Context (quote : string → string).     (* strconv.Quote, the verb %q *)

Definition queueInfo (paused : list string) (acc : list QueueInfo) (name : string)
    : M (list QueueInfo) :=
  st ← queueStats K name;
  mret (acc ++ [MkQueueInfo st (bool_decide (qs_Queue st ∈ paused))]).

Definition InspectQueues : M (list QueueInfo) :=
  names ← Queues K;
  paused ← PausedQueues K;
  go_foldl (queueInfo paused) [] names.

(** [time.Unix(int64(score), 0)]. *)
Definition scoreTime (s : score) : Z := (toInt64 s * Second)%Z.

Definition ListTasks (qname state : string) (limit : Z) : M (list TaskInfo) :=
  match ZSetKeyForState K qname state with
  | None => fail (ErrSuffixed ErrInvalidState
                    (" " +:+ quote state +:+ " (want scheduled|retry|archived|completed)"))
  | Some zsetKey =>
      entries ← ListZSetTasks K qname zsetKey limit;
      mret (map (λ e, with_NextProcessAt (scoreTime (zt_Score e)) (taskInfoFromMsg (zt_Msg e)))
              entries)
  end.

Definition InspectTask (qname taskID : string) : M TaskInfo :=
  r ← try (GetTask K qname taskID);
  match r with
  | Err ErrNil => fail (ErrSuffixed ErrTaskNotFound
                    (": " +:+ quote taskID +:+ " in queue " +:+ quote qname))
  | Err e => fail e
  | Ok msg =>
      let ti := taskInfoFromMsg msg in
      ti ← (match ZSetKeyForState K qname (ti_State ti) with
            | None => mret ti
            | Some zsetKey =>
                s ← try (ZScore zsetKey taskID);
                mret match s with
                     | Ok (Some s) => with_NextProcessAt (scoreTime s) ti
                     | _ => ti
                     end
            end);
      if bool_decide (m_GroupID msg ≠ "" ∧ m_GroupQueue msg ≠ "") then
        n ← try (GroupPending K (m_GroupQueue msg) (m_GroupID msg));
        mret match n with Ok n => with_GroupPending n ti | Err _ => ti end
      else mret ti
  end.

(** [firedAt]: of several entries with one ID the last counts. *)
Definition firedAt (fired : list ScheduleFireInfo) (id : string) : option Z :=
  foldl (λ acc f, if decide (sf_ID f = id) then Some (sf_LastFired f) else acc) None fired.

Definition registryInfo (now : Z) (fired : list ScheduleFireInfo) (m : ScheduleMeta) : ScheduleInfo :=
  MkScheduleInfo (sm_ID m) (sm_Kind m) (sm_Queue m) (sm_Spec m)
    ((λ ts, (ts * Second)%Z) <$> firedAt fired (sm_ID m))
    (Some (sm_LastSeen m * Second)%Z)
    (bool_decide (Scheduler.staleAfter < sat64 (now - sm_LastSeen m * Second))%Z).

Definition leftoverInfo (f : ScheduleFireInfo) : ScheduleInfo :=
  MkScheduleInfo (sf_ID f) "" "" "" (Some (sf_LastFired f * Second)%Z) None false.

Definition mergeSchedules (now : Z) (registry : list ScheduleMeta) (fired : list ScheduleFireInfo)
    : list ScheduleInfo :=
  map (registryInfo now fired) registry
  ++ map leftoverInfo (filter (λ f, sf_ID f ∉ map sm_ID registry) fired).

Definition SchedulerStatus : M (string * list ScheduleInfo) :=
  leader ← LeaderID K;
  registry ← ListSchedules K;
  fired ← ScanSchedules K;
  t ← now;
  mret (leader, mergeSchedules t registry fired).

End inspector.
End Inspector.
