(* ===== verification/GoText.v ===== *)
(** * Text for people: the parts of Go's library the front ends use

    [strings.TrimSpace], [strings.Split] at a character, [url.QueryEscape],
    [text/tabwriter] for rectangular tables, and the texts of errors. *)

From S2P Require Import Prelude GoLib Redis Client.
From Stdlib Require Import Ascii.

Module GoText.
Import GoStr Utf8 Client.

(** ** Runes with their bytes *)

Definition rune_width (r : option Z) : nat :=
  match r with
  | None => 1
  | Some r => if bool_decide (r < 128)%Z then 1 else if bool_decide (r < 2048)%Z then 2
              else if bool_decide (r < 65536)%Z then 3 else 4
  end.

Fixpoint segment (rs : list (option Z)) (l : list ascii) : list (Z * list ascii) :=
  match rs with
  | [] => []
  | r :: rs => (default RuneError r, take (rune_width r) l) :: segment rs (drop (rune_width r) l)
  end.

Definition segments (s : string) : list (Z * list ascii) := segment (decode_runes (codes s)) (chars s).

Definition RuneCount (s : string) : Z := len (decode_runes (codes s)).

Fixpoint dropSpace (l : list (Z * list ascii)) : list (Z * list ascii) :=
  match l with
  | [] => []
  | x :: l' => if IsSpace x.1 then dropSpace l' else l
  end.

Definition TrimSpace (s : string) : string :=
  ofChars (concat (map snd (reverse (dropSpace (reverse (dropSpace (segments s))))))).

(** ASCII characters that are not space. *)
Definition ink (c : ascii) : bool := bool_decide (code c < 128)%Z && negb (IsSpace (code c)).

Lemma segments_ascii s :
  Forall (λ c, code c < 128)%Z (chars s) → segments s = map (λ c, (code c, [c])) (chars s).
Proof.
  unfold segments, codes. induction 1 as [|c l Hc Hl IH]; [done|].
  simpl. rewrite bool_decide_true by done. simpl. rewrite bool_decide_true by done. simpl.
  rewrite take_0, drop_0. by f_equal.
Qed.

(** What starts and ends with ink loses only the blank behind it. *)
Lemma TrimSpace_blank s c d l :
  Forall (λ c, code c < 128)%Z (chars s) → ink c = true → ink d = true →
  chars s = c :: l → last (chars s) = Some d → TrimSpace (s +:+ " ") = s.
Proof.
  intros Ha [_ Hc]%andb_true_iff [_ Hd]%andb_true_iff Hl Hlast.
  apply negb_true_iff in Hc, Hd.
  assert (segments (s +:+ " ") = map (λ c, (code c, [c])) (chars s ++ [" "%char])) as Hs.
  { rewrite segments_ascii; [by rewrite chars_app|]. rewrite chars_app. apply Forall_app. split; [done|].
    by repeat constructor. }
  unfold TrimSpace. rewrite Hs.
  assert (dropSpace (map (λ c, (code c, [c])) (chars s ++ [" "%char]))
          = map (λ c, (code c, [c])) (chars s ++ [" "%char])) as ->.
  { rewrite Hl. simpl. by rewrite Hc. }
  rewrite map_app, reverse_app. simpl.
  assert (dropSpace (reverse (map (λ c, (code c, [c])) (chars s)))
          = reverse (map (λ c, (code c, [c])) (chars s))) as ->.
  { apply last_Some in Hlast as [l' ->]. rewrite map_app, reverse_app. simpl. by rewrite Hd. }
  rewrite reverse_involutive, map_map. simpl.
  assert (concat (map (λ c, [c]) (chars s)) = chars s) as ->; [|apply ofChars_chars].
  clear. induction (chars s) as [|c l IH]; [done|]. simpl. by rewrite IH.
Qed.

(** [strings.Split(s, sep)] at a one-character separator. *)
Fixpoint splitChars (sep : ascii) (l : list ascii) : list (list ascii) :=
  match l with
  | [] => [[]]
  | c :: l =>
      if decide (c = sep) then [] :: splitChars sep l
      else match splitChars sep l with
           | [] => [[c]]
           | w :: ws => (c :: w) :: ws
           end
  end.

Definition Split (sep : ascii) (s : string) : list string := map ofChars (splitChars sep (chars s)).

(** [strings.Join(l, sep)]. *)
Fixpoint Join (sep : string) (l : list string) : string :=
  match l with
  | [] => ""
  | [s] => s
  | s :: l => s +:+ sep +:+ Join sep l
  end.

(** Words with a blank behind each, trimmed, are the words joined. *)
Lemma TrimSpace_words ws :
  Forall (λ w, w ≠ "" ∧ Forall (λ c, ink c = true) (chars w)) ws →
  TrimSpace (foldr String.append "" (map (λ w, w +:+ " ") ws)) = Join " " ws.
Proof.
  intros Hws. destruct (decide (ws = [])) as [->|Hne]; [done|].
  assert (foldr String.append "" (map (λ w, w +:+ " ") ws) = Join " " ws +:+ " ") as ->.
  { clear Hws. induction ws as [|w ws IH]; [done|]. simpl. destruct ws as [|w' ws]; [by rewrite string_app_nil_r|].
    rewrite IH by done. by rewrite !string_app_assoc. }
  assert (∃ c d l, ink c = true ∧ ink d = true ∧ chars (Join " " ws) = c :: l
            ∧ last (chars (Join " " ws)) = Some d ∧ Forall (λ c, code c < 128)%Z (chars (Join " " ws)))
    as (c & d & l & Hc & Hd & Hl & Hlast & Ha); [|exact (TrimSpace_blank _ c d l Ha Hc Hd Hl Hlast)].
  induction Hws as [|w ws [Hw Hink] Hws IH]; [done|]. clear Hne.
  destruct (chars w) as [|c l] eqn:E; [destruct w; done|].
  assert (Forall (λ c, code c < 128)%Z (c :: l)) as Ha.
  { eapply Forall_impl; [exact Hink|]. intros x Hx. unfold ink in Hx. case_bool_decide; done. }
  destruct ws as [|w' ws].
  - simpl. rewrite E. destruct (last (c :: l)) as [d|] eqn:Hlast; [|by apply last_None in Hlast].
    pose proof Hlast as [l' E']%last_Some.
    exists c, d, l. split_and!; try done.
    + by apply Forall_cons in Hink as [? _].
    + rewrite E' in Hink. apply Forall_app in Hink as [_ Hink]. by apply Forall_cons in Hink as [? _].
  - destruct IH as (c' & d & l' & Hc' & Hd & Hl' & Hlast & Ha'); [done|].
    exists c, d, (l ++ " "%char :: c' :: l'). 
    change (Join " " (w :: w' :: ws)) with (w +:+ " " +:+ Join " " (w' :: ws)).
    rewrite !chars_app, E, Hl'. split_and!; try done.
    + by apply Forall_cons in Hink as [? _].
    + rewrite Hl' in Hlast. change (last ((c :: l) ++ [" "%char] ++ (c' :: l')) = Some d).
      by rewrite !last_app, Hlast.
    + rewrite Hl' in Ha'. apply Forall_app. split; [done|]. by constructor.
Qed.

(** ** [url.QueryEscape] *)

Definition unreserved (c : ascii) : bool :=
  let n := code c in
  bool_decide (48 ≤ n ≤ 57)%Z || bool_decide (65 ≤ n ≤ 90)%Z || bool_decide (97 ≤ n ≤ 122)%Z
  || bool_decide (c ∈ ["-"; "_"; "."; "~"]%char).

Definition hexDigit (n : Z) : ascii :=
  ofCode (if bool_decide (n < 10)%Z then n + 48 else n + 55)%Z.

Definition escapeChar (c : ascii) : list ascii :=
  if unreserved c then [c]
  else if decide (c = " "%char) then ["+"%char]
  else ["%"%char; hexDigit (code c `div` 16); hexDigit (code c `mod` 16)].

Definition QueryEscape (s : string) : string := ofChars (concat (map escapeChar (chars s))).

(** ** [text/tabwriter]

    [NewWriter(out, 0, 4, 2, ' ', 0)] on lines of equally many cells, without
    control characters in them: every cell but a line's last is padded with
    blanks to two more than the widest of its column. *)

Definition nl : string := String (ascii_of_nat 10) "".

Definition pad (w : Z) (s : string) : string :=
  s +:+ ofChars (replicate (Z.to_nat (w - RuneCount s)) " "%char).

Fixpoint widths (rows : list (list string)) (n : nat) : list Z :=
  match n with
  | 0 => []
  | S n =>
      (2 + foldr Z.max 0 (map (λ r, RuneCount (default "" (head r))) rows))%Z
      :: widths (map tail rows) n
  end.

Fixpoint line (ws : list Z) (cells : list string) : string :=
  match cells, ws with
  | [], _ => nl
  | [c], _ => c +:+ nl
  | c :: cells, w :: ws => pad w c +:+ line ws cells
  | c :: cells, [] => c +:+ line [] cells
  end.

Definition tabulate (n : nat) (rows : list (list string)) : string :=
  Join "" (map (line (widths rows n)) rows).

(** ** Texts of errors

    [err.Error()]; [lib] gives the texts of errors that libraries create. *)
Fixpoint Error (lib : err → string) (e : err) : string :=
  match e with
  | ErrNoTask => "chronos: no task available"
  | ErrDuplicateTask => "chronos: duplicate task"
  | ErrText s => s
  | ErrWrapped p e => p +:+ ": " +:+ Error lib e
  | ErrSuffixed e s => Error lib e +:+ s
  | e => lib e
  end.

(** [errors.Is]. *)
Fixpoint Is (e target : err) : bool :=
  bool_decide (e = target) ||
  match e with
  | ErrWrapped _ e => Is e target
  | ErrSuffixed e _ => Is e target
  | _ => false
  end.

Example trim_demo : TrimSpace "  a b	 " = "a b".
Proof. by vm_compute. Qed.

Example split_demo : Split "," "a,,b" = ["a"; ""; "b"].
Proof. by vm_compute. Qed.

Example escape_demo : QueryEscape "a b/ü" = "a+b%2F%C3%BC".
Proof. by vm_compute. Qed.

Example tab_demo :
  tabulate 2 [["ID"; "KIND"]; ["abc"; "x"]] = "ID   KIND" +:+ nl +:+ "abc  x" +:+ nl.
Proof. by vm_compute. Qed.

End GoText.
