(* ===== verification/Cli.v ===== *)
(** * cmd/chronos: the command line

    The arguments after the flags, the commands they select, what is printed
    and the exit code.  The console's command [contrib/webui/cmd/webui] has
    the same choice of the Redis client.  [quote] is [strconv.Quote]. *)

From S2P Require Import Prelude GoLib Base Redis Client RdbLocks RdbAdmin Inspector GoText.
From Stdlib Require Import Ascii.

Module Cli.
Import GoStr Keys Task Redis Client RdbLocks RdbAdmin Inspector GoText.

(** A connection: [redis.NewClient] or [redis.NewClusterClient]. *)
Inductive connection :=
  | Standalone (addr : string) (db : Z)
  | Cluster (addrs : list string).

Definition splitAddrs (s : string) : list string :=
  filter (λ p, p ≠ "") (map TrimSpace (Split ","%char s)).

Definition buildClient (standalone cluster : bool) (addr : string) (db : Z) : result connection :=
  if standalone && cluster then
    Err (ErrText "--standalone and --cluster are mutually exclusive")
  else if cluster then
    if negb (bool_decide (db = 0)%Z) then
      Err (ErrText "--db is not supported with --cluster: Redis Cluster has only database 0")
    else
      let addrs := splitAddrs addr in
      if bool_decide (addrs = []) then
        Err (ErrText "--cluster requires at least one seed address in --redis")
      else Ok (Cluster addrs)
  else Ok (Standalone addr db).

(** [envOr]: the value of a variable, if it is set and not empty. *)
Definition envOr (env : string → string) (key def : string) : string :=
  if bool_decide (env key = "") then def else env key.

(** The label the console shows ([main] of [contrib/webui/cmd/webui]). *)
Definition connLabel (cluster : bool) (addr : string) (db : Z) : string :=
  if cluster then "cluster (" +:+ itoa (len (splitAddrs addr)) +:+ " seed)"
  else "standalone " +:+ addr +:+ " db" +:+ itoa db.

Section cli.
Context `{R : Redis} `{J : Json} (quote : string → string) (lib : err → string).

(** [chronos.NewInspector] uses the default prefix, [DefaultKeys]. *)
Context (K : Keys).

(** What a command prints, and its exit code. *)
Definition printed : Type := string * Z.

Definition failed (e : err) : printed := ("error: " +:+ Error lib e +:+ nl, 1%Z).

Definition queueRow (q : QueueInfo) : list string :=
  let st := qi_stats q in
  [qs_Queue st; itoa (qs_Pending st); itoa (qs_Active st); itoa (qs_Scheduled st);
   itoa (qs_Retry st); itoa (qs_Archived st); itoa (qs_Completed st);
   if qi_Paused q then "yes" else "-"].

Definition queueLs : M printed :=
  r ← try (InspectQueues K);
  mret match r with
       | Err e => failed e
       | Ok queues =>
           (tabulate 8 (["QUEUE"; "PENDING"; "ACTIVE"; "SCHEDULED"; "RETRY"; "ARCHIVED"; "COMPLETED";
                         "PAUSED"] :: map queueRow queues), 0%Z)
       end.

Definition taskLs (queue state : string) : M printed :=
  r ← try (ListTasks K quote queue state 100);
  mret match r with
       | Err e => failed e
       | Ok tasks =>
           (tabulate 3 (["ID"; "KIND"; "QUEUE"]
                        :: map (λ t, [ti_ID t; ti_Kind t; ti_Queue t]) tasks), 0%Z)
       end.

Definition taskAction (verb : string) (fn : M ()) : M printed :=
  r ← try fn;
  mret match r with
       | Err e => failed e
       | Ok _ => (verb +:+ ": ok" +:+ nl, 0%Z)
       end.

Definition queueAction (verb queue : string) (fn : M ()) : M printed :=
  r ← try fn;
  mret match r with
       | Err e => failed e
       | Ok _ => (verb +:+ "d " +:+ queue +:+ nl, 0%Z)
       end.

(** [case "queue"], given [args[1:]]; [None] falls through to the end. *)
Definition queueCommand (args : list string) : option (M printed) :=
  match args with
  | [] => None
  | verb :: rest =>
      if decide (verb = "ls") then Some queueLs
      else if decide (verb = "pause" ∨ verb = "resume") then
        Some (match rest with
              | [] => mret ("usage: chronos queue " +:+ verb +:+ " <queue>" +:+ nl, 2%Z)
              | q :: _ =>
                  queueAction verb q
                    (if decide (verb = "pause") then PauseQueue K q else ResumeQueue K q)
              end)
      else None
  end.

(** [case "task"]. *)
Definition taskCommand (args : list string) : option (M printed) :=
  match args with
  | [verb; q; x] =>
      if decide (verb = "ls") then Some (taskLs q x)
      else if decide (verb = "run") then Some (taskAction "run" (RunTask K q x))
      else if decide (verb = "rm") then Some (taskAction "rm" (DeleteTask K q x))
      else None
  | _ => None
  end.

Definition run (args : list string) : M printed :=
  match args with
  | [] => mret ("usage: chronos <queue|task> ..." +:+ nl, 2%Z)
  | cmd :: rest =>
      let command := if decide (cmd = "queue") then queueCommand rest
                     else if decide (cmd = "task") then taskCommand rest else None in
      match command with
      | Some p => p
      | None => mret ("unknown or malformed command: [" +:+ Join " " args +:+ "]" +:+ nl, 2%Z)
      end
  end.

End cli.
End Cli.
