(* ===== verification/Sparkline.v ===== *)
(** * contrib/webui/sparkline.go: the samples behind the console's sparklines

    A ring of the last samples of a queue, and the store of the rings with
    its rate limit.  The ring is shown to be the list of the last samples.
    Svg.v has the drawing of the samples. *)

From S2P Require Import Prelude GoLib.

Module Sparkline.
Import GoTime GoFloat.

Record ring := MkRing {
  buf : list score;
  next : nat;
  full : bool;
}.

Definition newRing (size : nat) : ring := MkRing (replicate size 0%Z) 0 false.

Definition push (v : score) (r : ring) : ring :=
  let next' := S (next r) `mod` length (buf r) in
  MkRing (<[next r := v]> (buf r)) next' (full r || bool_decide (next' = 0)).

(** Oldest first. *)
Definition values (r : ring) : list score :=
  if full r then drop (next r) (buf r) ++ take (next r) (buf r) else take (next r) (buf r).

Record sparkStore := MkSparkStore {
  rings : gmap string ring;
  lastPush : gmap string Z;
  ringSize : nat;
}.

Definition newSparkStore (size : nat) : sparkStore := MkSparkStore ∅ ∅ size.

Definition minPushInterval : Z := Second.

(** [now] is the clock at the call. *)
Definition pushSample (now : Z) (queue : string) (v : score) (s : sparkStore) : sparkStore :=
  if match lastPush s !! queue with
     | Some last => bool_decide (now - last < minPushInterval)%Z
     | None => false
     end then s
  else
    let r := default (newRing (ringSize s)) (rings s !! queue) in
    MkSparkStore (<[queue := push v r]> (rings s)) (<[queue := now]> (lastPush s)) (ringSize s).

(** ** The ring is the list of the last samples *)

(** The last [n] elements of a list. *)
Definition lastn {A} (n : nat) (l : list A) : list A := drop (length l - n) l.

(** What the fields say after [l] was pushed on a ring of [n] places. *)
Definition represents (n : nat) (r : ring) (l : list score) : Prop :=
  length (buf r) = n ∧ values r = lastn n l ∧ next r < n ∧
  if full r then n ≤ length l else next r = length l.

Lemma lastn_snoc {A} n (l : list A) x :
  0 < n → lastn n (l ++ [x]) = lastn (n - 1) l ++ [x].
Proof.
  intros Hn. unfold lastn. rewrite length_app; simpl.
  rewrite drop_app_le by lia. f_equal. f_equal. lia.
Qed.

Lemma drop_S_tail {A} (l : list A) k : drop (S k) l = tail (drop k l).
Proof. revert l. induction k as [|k IH]; intros [|x l]; [done..|]. apply IH. Qed.

Lemma lastn_tail {A} n (l : list A) : n ≤ length l → tail (lastn n l) = lastn (n - 1) l.
Proof.
  intros Hn. unfold lastn. destruct n as [|n].
  - replace (length l - 0) with (length l) by lia. simpl. rewrite Nat.sub_0_r. by rewrite drop_all.
  - replace (length l - (S n - 1)) with (S (length l - S n)) by lia.
    by rewrite drop_S_tail.
Qed.

Lemma newRing_represents n : 0 < n → represents n (newRing n) [].
Proof.
  intros Hn. unfold represents, values; simpl. by rewrite length_replicate.
Qed.

(** Where the write goes. *)
Lemma insert_split (l : list score) k v :
  k < length l → <[k := v]> l = take k l ++ v :: drop (S k) l.
Proof. intros Hk. by rewrite insert_take_drop. Qed.

(** After a write the ring starts one place further on. *)
Lemma values_push v r n :
  length (buf r) = n → next r < n →
  values (push v r) =
  if full r then tail (drop (next r) (buf r)) ++ take (next r) (buf r) ++ [v]
  else take (next r) (buf r) ++ [v].
Proof.
  intros Hlen Hlt. unfold values, push; simpl. rewrite Hlen, insert_split by lia.
  assert (length (take (next r) (buf r)) = next r) as Htake by (rewrite length_take; lia).
  destruct (decide (S (next r) = n)) as [E|Hne].
  - rewrite E, Nat.Div0.mod_same, bool_decide_true, orb_true_r by done. simpl.
    rewrite take_0, app_nil_r, drop_0, (drop_ge (buf r)) by lia.
    destruct (full r); [|done]. rewrite <- drop_S_tail, (drop_ge (buf r)) by lia. done.
  - rewrite Nat.mod_small, bool_decide_false, orb_false_r by lia.
    rewrite (take_app_ge), Htake by lia. replace (S (next r) - next r) with 1 by lia.
    destruct (full r); [|done].
    rewrite (drop_app_ge), Htake by lia. replace (S (next r) - next r) with 1 by lia. simpl.
    rewrite drop_0, <- drop_S_tail. done.
Qed.

Lemma push_represents n r l v :
  0 < n → represents n r l → represents n (push v r) (l ++ [v]).
Proof.
  intros Hn (Hlen & Hval & Hlt & Hfull).
  pose proof (values_push v r n Hlen Hlt) as Hpush.
  split_and!; [by simpl; rewrite length_insert| |simpl; rewrite Hlen; apply Nat.mod_upper_bound; lia|].
  - rewrite Hpush, lastn_snoc by done. unfold values in Hval. destruct (full r).
    + rewrite app_assoc. f_equal. rewrite <- lastn_tail, <- Hval by done.
      destruct (drop (next r) (buf r)) eqn:E; [|done].
      apply (f_equal length) in E. rewrite length_drop in E. simpl in E. lia.
    + rewrite Hval. unfold lastn. do 2 f_equal. lia.
  - simpl. rewrite Hlen, length_app. simpl.
    destruct (decide (S (next r) = n)) as [E|Hne].
    + rewrite E, Nat.Div0.mod_same, bool_decide_true, orb_true_r by done. destruct (full r); lia.
    + rewrite Nat.mod_small, bool_decide_false, orb_false_r by lia. destruct (full r); lia.
Qed.

(** A queue's ring is the list of its last samples.  After any samples
    were pushed on a ring of [n] places, reading it yields the last [n] of
    them (all of them while there are fewer), oldest first, whatever the
    position at which the buffer wraps around. *)
Theorem ring_keeps_last n l :
  0 < n → values (foldl (λ r v, push v r) (newRing n) l) = lastn n l.
Proof.
  intros Hn. assert (represents n (foldl (λ r v, push v r) (newRing n) l) l) as H; [|apply H].
  induction l as [|v l IH] using rev_ind; [by apply newRing_represents|].
  rewrite foldl_app. by apply push_represents.
Qed.

Lemma ring_keeps_last_witness :
  values (foldl (λ r v, push v r) (newRing 3) [1; 2; 3; 4; 5]%Z) = [3; 4; 5]%Z.
Proof. apply (ring_keeps_last 3 [1; 2; 3; 4; 5]%Z). lia. Defined.

End Sparkline.
