(* ===== verification/Svg.v ===== *)
(** * contrib/webui/sparkline.go: the drawing

    [sparklineSVG] draws a queue's samples as a polyline.  The coordinates
    are doubles, computed in the order of the source without fused
    operations, and printed with one decimal.  The samples are counts, so a
    quotient of two of them is zero or large enough to be formed exactly (up
    to its rounding) as long as they are below [2^37]. *)

From S2P Require Import Prelude GoLib GoText Sparkline.
From Stdlib Require Import Ascii.

Module Svg.
Import GoFloat GoStr Utf8 GoText Sparkline.

(** ** [%.1f]

    The nearest tenth of the exact value, ties to even. *)
Definition tenths (x : score) : Z := (rne (10 * Z.abs x) 90 `div` score_unit)%Z.

Definition fixed1 (x : score) : string :=
  let t := tenths x in
  (if bool_decide (x < 0)%Z then "-" else "") +:+ itoa (t `div` 10) +:+ "." +:+ itoa (t `mod` 10).

(** ** The points *)

(** The loop over the samples, from the first one as minimum and maximum. *)
Definition extrema (v0 : score) (vals : list score) : score * score :=
  foldl (λ m v, (if bool_decide (v < m.1)%Z then v else m.1,
                 if bool_decide (m.2 < v)%Z then v else m.2)) (v0, v0) vals.

Definition padding : score := ofInt 2.

Section point.
Context (n : nat) (w h : Z) (min span : score).

(** [pad + (float64(w)-2*pad)*float64(i)/float64(len(vals)-1)] *)
Definition pointX (i : nat) : score :=
  fadd padding
    (fdiv (fmul (fsub (ofInt w) (fmul (ofInt 2) padding)) (ofInt (Z.of_nat i))) (ofInt (Z.of_nat n - 1))).

(** [pad + (float64(h)-2*pad)*(1-(v-min)/span)] *)
Definition pointY (v : score) : score :=
  fadd padding
    (fmul (fsub (ofInt h) (fmul (ofInt 2) padding)) (fsub (ofInt 1) (fdiv (fsub v min) span))).

End point.

(** A single sample is drawn twice. *)
Definition doubled (vals : list score) : list score :=
  match vals with [v] => [v; v] | _ => vals end.

Definition points (vals : list score) (w h : Z) : list (score * score) :=
  match vals with
  | [] => []
  | v0 :: _ =>
      let m := extrema v0 vals in
      let span := fsub m.2 m.1 in
      let span := if bool_decide (span = 0)%Z then ofInt 1 else span in
      imap (λ i v, (pointX (length vals) w i, pointY h m.1 span v)) vals
  end.

Definition pointText (p : score * score) : string := fixed1 p.1 +:+ "," +:+ fixed1 p.2.

(** ** The element *)

Definition dq : string := String (ascii_of_nat 34) "".
Definition quoted (s : string) : string := dq +:+ s +:+ dq.

Definition element (w h : Z) (pts : string) : string :=
  "<svg viewBox=" +:+ quoted ("0 0 " +:+ itoa w +:+ " " +:+ itoa h)
  +:+ " width=" +:+ quoted (itoa w) +:+ " height=" +:+ quoted (itoa h)
  +:+ " preserveAspectRatio=" +:+ quoted "none"
  +:+ "><polyline points=" +:+ quoted pts
  +:+ " fill=" +:+ quoted "none" +:+ " stroke=" +:+ quoted "currentColor"
  +:+ " stroke-width=" +:+ quoted "1.5" +:+ "/></svg>".

Definition sparklineSVG (vals : list score) (w h : Z) : string :=
  if bool_decide (vals = []) then ""
  else element w h
         (TrimSpace (foldr String.append "" (map (λ p, pointText p +:+ " ") (points (doubled vals) w h)))).

(** [sparkStore.svg]. *)
Definition svg (s : sparkStore) (queue : string) (w h : Z) : string :=
  match rings s !! queue with
  | None => ""
  | Some r => sparklineSVG (values r) w h
  end.

(** ** Properties *)

(** Characters of a printed coordinate. *)
Lemma fixed1_ink x : Forall (λ c, ink c = true) (chars (fixed1 x)).
Proof.
  unfold fixed1. rewrite !chars_app. rewrite !Forall_app. split_and!.
  - case_bool_decide; by repeat constructor.
  - apply itoa_chars. by repeat constructor.
  - by repeat constructor.
  - apply itoa_chars. by repeat constructor.
Qed.

(** The characters the drawing is made of. *)
Definition plain (c : ascii) : Prop := c ∈ chars "-0123456789.,".

Lemma pointText_plain p : Forall plain (chars (pointText p)).
Proof.
  assert (∀ x, Forall plain (chars (fixed1 x))) as Hf.
  { intros x. unfold fixed1. rewrite !chars_app, !Forall_app.
    assert (∀ z, Forall plain (chars (itoa z))) as Hi.
    { intros z. apply itoa_chars. by apply (bool_decide_unpack _). }
    split_and!; [|apply Hi|by apply (bool_decide_unpack _)|apply Hi].
    case_bool_decide; by apply (bool_decide_unpack _). }
  unfold pointText. rewrite !chars_app, !Forall_app. split_and!; [apply Hf|by apply (bool_decide_unpack _)|apply Hf].
Qed.

Lemma pointText_ink p :
  pointText p ≠ "" ∧ Forall (λ c, ink c = true) (chars (pointText p)).
Proof.
  unfold pointText. split.
  - intros E%(f_equal chars). rewrite !chars_app in E. apply app_eq_nil in E as [_ E]. done.
  - rewrite !chars_app, !Forall_app. split_and!; [apply fixed1_ink|by repeat constructor|apply fixed1_ink].
Qed.

(** A number between two integers is printed as one between them. *)
Lemma tenths_bounds x a b :
  (0 ≤ a)%Z → (a * score_unit ≤ x ≤ b * score_unit)%Z → (10 * a ≤ tenths x ≤ 10 * b)%Z.
Proof.
  intros Ha Hx. pose proof score_unit_pos. unfold tenths. rewrite Z.abs_eq by nia.
  destruct (rne_bounds (10 * x) 90 (10 * a) (10 * b)) as [H1 H2]; [done|fold score_unit; nia|].
  change (2 ^ 90)%Z with score_unit in H1, H2. split.
  - apply Z.div_le_lower_bound; [done|]. by rewrite (Z.mul_comm score_unit).
  - apply Z.div_le_upper_bound; [done|by rewrite (Z.mul_comm score_unit)].
Qed.

Lemma padding_eq : padding = (2 * score_unit)%Z.
Proof. by apply ofInt_exact. Qed.

(** [w - 2*pad]. *)
Lemma inner_eq w : (4 ≤ w < 2 ^ 20)%Z →
  fsub (ofInt w) (fmul (ofInt 2) padding) = ((w - 4) * score_unit)%Z.
Proof.
  intros Hw. unfold fsub. rewrite padding_eq, (ofInt_exact w), (ofInt_exact 2), fmul_ints by lia.
  replace (w * score_unit - 2 * 2 * score_unit)%Z with ((w - 4) * score_unit)%Z by ring.
  apply ofInt_exact. lia.
Qed.

(** Adding the padding keeps an order and a bound. *)
Lemma pad_bounds a k :
  (0 ≤ k < 2 ^ 20)%Z → (0 ≤ a ≤ k * score_unit)%Z →
  (2 * score_unit ≤ fadd padding a ≤ (k + 2) * score_unit)%Z.
Proof.
  intros Hk Ha. rewrite padding_eq. unfold fadd.
  rewrite <- (ofInt_exact 2), <- (ofInt_exact (k + 2)) at 1 by lia. unfold ofInt.
  pose proof score_unit_pos. split; apply f64_mono; lia.
Qed.

Lemma pad_mono a b : (0 ≤ a ≤ b)%Z → (fadd padding a ≤ fadd padding b)%Z.
Proof. intros Hab. rewrite padding_eq. unfold fadd. pose proof score_unit_pos. apply f64_mono; lia. Qed.

Lemma pad_exact k : (0 ≤ k < 2 ^ 20)%Z → fadd padding (k * score_unit) = ((k + 2) * score_unit)%Z.
Proof.
  intros Hk. rewrite padding_eq. unfold fadd.
  replace (2 * score_unit + k * score_unit)%Z with ((k + 2) * score_unit)%Z by ring. apply ofInt_exact. lia.
Qed.

(** The extrema bound all samples and are samples. *)
Lemma extrema_spec v0 vals :
  (∀ v, v ∈ v0 :: vals → (extrema v0 vals).1 ≤ v ≤ (extrema v0 vals).2)%Z.
Proof.
  induction vals as [|x vals IH] using rev_ind; intros v Hv.
  - by apply list_elem_of_singleton in Hv as ->.
  - unfold extrema in *. rewrite foldl_app. simpl. rewrite app_comm_cons in Hv.
    apply elem_of_app in Hv as [Hv%IH| ->%list_elem_of_singleton]; repeat case_bool_decide; simpl in *; lia.
Qed.

Lemma pad_0 : fadd padding 0 = (2 * score_unit)%Z.
Proof. by apply (pad_exact 0). Qed.

Lemma extrema_in v0 vals :
  (extrema v0 vals).1 ∈ v0 :: vals ∧ (extrema v0 vals).2 ∈ v0 :: vals.
Proof.
  induction vals as [|x vals [IH1 IH2]] using rev_ind; [split; by left|].
  unfold extrema in *. rewrite foldl_app. simpl. rewrite app_comm_cons.
  split; case_bool_decide; apply elem_of_app; first [by left|right; by left].
Qed.

Section axis.
Context (n : nat) (w : Z) (Hn : 2 ≤ n) (Hn' : (Z.of_nat n < 2 ^ 20)%Z) (Hw : (4 ≤ w < 2 ^ 20)%Z).

Lemma pointX_eq i :
  i < n → pointX n w i = fadd padding (fdiv ((w - 4) * Z.of_nat i * score_unit) (Z.of_nat (n - 1) * score_unit)).
Proof.
  intros Hi. unfold pointX. rewrite inner_eq, (ofInt_exact (Z.of_nat i)), (ofInt_exact (Z.of_nat n - 1)) by lia.
  rewrite fmul_ints by nia. by replace (Z.of_nat n - 1)%Z with (Z.of_nat (n - 1)) by lia.
Qed.

Lemma pointX_mono i j : i ≤ j → j < n → (2 * score_unit ≤ pointX n w i ≤ pointX n w j)%Z.
Proof.
  intros Hij Hj. rewrite !pointX_eq by lia. pose proof score_unit_pos.
  assert (0 ≤ fdiv ((w - 4) * Z.of_nat i * score_unit) (Z.of_nat (n - 1) * score_unit)
          ≤ fdiv ((w - 4) * Z.of_nat j * score_unit) (Z.of_nat (n - 1) * score_unit))%Z as Hd.
  { apply fdiv_mono; [nia|]. split; [nia|]. apply Z.mul_le_mono_nonneg_r; [lia|nia]. }
  split; [|by apply pad_mono]. rewrite <- pad_0. apply pad_mono. lia.
Qed.

Lemma pointX_first : pointX n w 0 = (2 * score_unit)%Z.
Proof.
  rewrite pointX_eq by lia. rewrite Z.mul_0_r, Z.mul_0_l, fdiv_0 by (pose proof score_unit_pos; nia).
  by rewrite <- pad_0.
Qed.

Lemma pointX_last : pointX n w (n - 1) = ((w - 2) * score_unit)%Z.
Proof.
  rewrite pointX_eq by lia. rewrite fdiv_ints, pad_exact by lia. f_equal. lia.
Qed.

End axis.

(** The height of a sample: [q] is its share of the span. *)
Lemma pointY_mono h min span v u :
  (4 ≤ h < 2 ^ 20)%Z → (0 < span)%Z → (min ≤ v ≤ u)%Z → (fsub u min ≤ span)%Z →
  (2 * score_unit ≤ pointY h min span u ≤ pointY h min span v
   ∧ pointY h min span v ≤ (h - 2) * score_unit)%Z.
Proof.
  intros Hh Hs Hv Hu. unfold pointY. rewrite inner_eq by done. rewrite (ofInt_exact 1) by lia. rewrite Z.mul_1_l.
  assert (0 ≤ fsub v min ≤ fsub u min)%Z as Hd.
  { unfold fsub. split; [apply f64_nonneg; lia|apply f64_mono; lia]. }
  pose proof (fdiv_mono _ _ span Hs Hd) as Hq.
  assert (fdiv (fsub u min) span ≤ score_unit)%Z as H1.
  { rewrite <- (fdiv_self span) by done. apply fdiv_mono; [done|lia]. }
  set (qv := fdiv (fsub v min) span) in *. set (qu := fdiv (fsub u min) span) in *.
  assert (0 ≤ fsub score_unit qu ≤ fsub score_unit qv)%Z as Hr.
  { unfold fsub. split; [apply f64_nonneg; lia|apply f64_mono; lia]. }
  assert (fsub score_unit qv ≤ score_unit)%Z as Hr'.
  { rewrite <- (ofInt_exact 1) at 2 by lia. unfold fsub, ofInt. apply f64_mono; lia. }
  pose proof score_unit_pos.
  pose proof (fmul_mono ((h - 4) * score_unit) _ _ ltac:(nia) Hr) as Hm.
  pose proof (fmul_mono ((h - 4) * score_unit) (fsub score_unit qv) score_unit ltac:(nia) ltac:(lia)) as Hm'.
  assert (fmul ((h - 4) * score_unit) score_unit = ((h - 4) * score_unit)%Z) as E.
  { rewrite <- (Z.mul_1_l score_unit) at 2. rewrite fmul_ints by lia. by rewrite Z.mul_1_r. }
  rewrite E in Hm'. split_and!.
  - rewrite <- pad_0. apply pad_mono. lia.
  - apply pad_mono. lia.
  - replace (h - 2)%Z with (h - 4 + 2)%Z by ring. apply pad_bounds; lia.
Qed.

(** The sample at the top of the span, and the one at its foot. *)
Lemma pointY_top h min span u :
  (4 ≤ h < 2 ^ 20)%Z → (0 < span)%Z → fsub u min = span → pointY h min span u = (2 * score_unit)%Z.
Proof.
  intros Hh Hs Hu. unfold pointY. rewrite Hu, fdiv_self, inner_eq by done.
  rewrite (ofInt_exact 1) by lia. rewrite Z.mul_1_l. unfold fsub. rewrite Z.sub_diag.
  assert (fmul ((h - 4) * score_unit) (f64 0) = 0%Z) as ->; [|by rewrite <- pad_0].
  unfold fmul. by rewrite Z.mul_0_r.
Qed.

Lemma pointY_foot h min span :
  (4 ≤ h < 2 ^ 20)%Z → (0 < span)%Z → pointY h min span min = ((h - 2) * score_unit)%Z.
Proof.
  intros Hh Hs. unfold pointY. assert (fsub min min = 0%Z) as -> by (unfold fsub; by rewrite Z.sub_diag).
  rewrite fdiv_0, inner_eq by done. unfold fsub. rewrite Z.sub_0_r, (ofInt_exact 1) by lia.
  change (f64 (1 * score_unit)) with (1 * score_unit)%Z.
  rewrite fmul_ints, Z.mul_1_r, pad_exact by lia. f_equal. lia.
Qed.


(** The span the points are computed with is that of the samples, or one. *)
Lemma doubled_length vals : vals ≠ [] → length (doubled vals) = Nat.max 2 (length vals).
Proof. by destruct vals as [|v [|u vals]]. Qed.

Lemma points_lookup vals w h :
  vals ≠ [] → ∃ min span, (0 < span)%Z ∧ min ∈ vals ∧ (∀ v, v ∈ vals → min ≤ v ∧ fsub v min ≤ span)%Z ∧
    (∀ v, v ∈ vals → (∀ u, u ∈ vals → u ≤ v)%Z → (min < v)%Z → fsub v min = span) ∧
    points vals w h = imap (λ i v, (pointX (length vals) w i, pointY h min span v)) vals.
Proof.
  destruct vals as [|v0 vals]; [done|]. intros _.
  pose proof (extrema_spec v0 (v0 :: vals)) as Hm. unfold points.
  pose proof (extrema_in v0 (v0 :: vals)) as [H1 H2].
  set (m := extrema v0 (v0 :: vals)) in *.
  assert (∀ v, v ∈ v0 :: v0 :: vals → v ∈ v0 :: vals) as Hdup by set_solver.
  assert (∀ v, v ∈ v0 :: vals → m.1 ≤ v ∧ fsub v m.1 ≤ fsub m.2 m.1)%Z as Hv.
  { intros v Hv. assert (v ∈ v0 :: v0 :: vals) as Hv'%Hm by (by right). split; [lia|].
    apply f64_mono; lia. }
  assert (m.1 ≤ m.2)%Z as Hle by (by apply Hm).
  assert (0 ≤ fsub m.2 m.1)%Z as Hs by (apply f64_nonneg; lia).
  assert (∀ v, v ∈ v0 :: vals → (∀ u, u ∈ v0 :: vals → u ≤ v)%Z → v = m.2) as Hmax.
  { intros v Hv1 Hv2. assert (v ∈ v0 :: v0 :: vals) as Hv'%Hm by (by right).
    pose proof (Hv2 _ (Hdup _ H2)). lia. }
  exists m.1. case_bool_decide as E.
  - exists (ofInt 1). split_and!; [done|by apply Hdup| | |done].
    + intros v [? ?]%Hv. split; [done|]. rewrite ofInt_exact by lia. pose proof score_unit_pos. lia.
    + intros v Hv1 Hv2 Hlt. rewrite (Hmax v Hv1 Hv2) in Hlt. exfalso. assert (f64 1 ≤ fsub m.2 m.1)%Z as H; [apply f64_mono; lia|]. by rewrite E in H.
  - exists (fsub m.2 m.1). split_and!; [lia|by apply Hdup|done| |done]. intros v Hv1 Hv2 _. by rewrite (Hmax v).
Qed.

Lemma trimmed_points ps :
  TrimSpace (foldr String.append "" (map (λ p, pointText p +:+ " ") ps)) = Join " " (map pointText ps).
Proof.
  rewrite <- (map_map pointText (λ t, t +:+ " ")). apply TrimSpace_words.
  apply Forall_map, Forall_true. intros p. apply pointText_ink.
Qed.

(** The page may embed the drawing unescaped: whatever the samples and the
    box, all that is put into the fixed element are digits, signs, points,
    commas and blanks. *)
Theorem sparkline_no_markup vals w h :
  sparklineSVG vals w h = "" ∨
  ∃ pts, sparklineSVG vals w h = element w h pts ∧ Forall (λ c, plain c ∨ c = " "%char) (chars pts).
Proof.
  unfold sparklineSVG. case_bool_decide; [by left|right]. rewrite trimmed_points.
  eexists. split; [done|]. generalize (points (doubled vals) w h). intros ps.
  assert (∀ p, Forall (λ c, plain c ∨ c = " "%char) (chars (pointText p))) as Hp.
  { intros p. eapply Forall_impl; [apply pointText_plain|]. intros c Hc. by left. }
  induction ps as [|p ps IH]; [constructor|]. destruct ps as [|p' ps]; [apply Hp|].
  change (Join " " (map pointText (p :: p' :: ps)))
    with (pointText p +:+ " " +:+ Join " " (map pointText (p' :: ps))).
  rewrite !chars_app, !Forall_app. split_and!; [apply Hp| |done]. constructor; [by right|constructor].
Qed.

(** The drawing shows the samples.  For any samples and any box of at
    least four by four, the polyline is written with one blank between its
    points; it has a point per sample (two for a single one); all of them,
    as printed, lie two units inside the box; they go from its left edge to
    its right one, in the order of the samples; a larger sample is never
    drawn below a smaller one; the smallest samples lie on the floor and,
    unless all are equal, the largest under the ceiling. *)
Theorem sparkline_drawn vals w h :
  vals ≠ [] → (len vals < 2 ^ 20)%Z → (4 ≤ w < 2 ^ 20)%Z → (4 ≤ h < 2 ^ 20)%Z →
  let vs := doubled vals in let ps := points vs w h in
  sparklineSVG vals w h = element w h (Join " " (map pointText ps)) ∧
  length ps = Nat.max 2 (length vals) ∧
  Forall (λ p, 20 ≤ tenths p.1 ≤ 10 * (w - 2) ∧ 20 ≤ tenths p.2 ≤ 10 * (h - 2))%Z ps ∧
  (fst <$> head ps = Some (2 * score_unit) ∧ fst <$> last ps = Some ((w - 2) * score_unit))%Z ∧
  (∀ i j p q, ps !! i = Some p → ps !! j = Some q → i ≤ j → (p.1 ≤ q.1)%Z) ∧
  (∀ i j p q v u, ps !! i = Some p → ps !! j = Some q → vs !! i = Some v → vs !! j = Some u →
     (v ≤ u → q.2 ≤ p.2)%Z) ∧
  (∀ i p v, ps !! i = Some p → vs !! i = Some v →
     ((∀ u, u ∈ vs → v ≤ u) → p.2 = (h - 2) * score_unit)%Z ∧
     ((∀ u, u ∈ vs → u ≤ v) → (∃ u, u ∈ vs ∧ u < v) → p.2 = 2 * score_unit)%Z).
Proof.
  intros Hne Hlen Hw Hh vs ps.
  assert (length vs = Nat.max 2 (length vals)) as Hvs by (by apply doubled_length).
  assert (vs ≠ []) as Hne' by (intros E; rewrite E in Hvs; simpl in Hvs; lia).
  destruct (points_lookup vs w h Hne') as (min & span & Hs & Hin & Hb & Htop & Hps). fold ps in Hps.
  set (n := length vs) in *.
  assert (∀ i p, ps !! i = Some p → ∃ v, vs !! i = Some v ∧ i < n ∧ p = (pointX n w i, pointY h min span v)) as Hl.
  { intros i p Hp. rewrite Hps, list_lookup_imap in Hp. destruct (vs !! i) as [v|] eqn:E; [|done].
    injection Hp as <-. exists v. split_and!; [done| |done]. by apply lookup_lt_Some in E. }
  assert (∀ i v, vs !! i = Some v → min ≤ v ∧ fsub v min ≤ span)%Z as Hv.
  { intros i v Hv%list_elem_of_lookup_2. by apply Hb. }
  assert (length ps = n) as Hn by (by rewrite Hps, length_imap).
  split_and!.
  - unfold sparklineSVG. rewrite bool_decide_false by done. f_equal.
    apply trimmed_points.
  - lia.
  - apply Forall_lookup. intros i p Hp. destruct (Hl i p Hp) as (v & Hvi & Hi & ->). simpl.
    split; apply (tenths_bounds _ 2); try lia.
    + destruct (pointX_mono n w ltac:(lia) ltac:(lia) Hw i (n - 1) ltac:(lia) ltac:(lia)) as [? Hx].
      rewrite pointX_last in Hx by lia. lia.
    + destruct (Hv i v Hvi). destruct (pointY_mono h min span v v Hh Hs) as [[? ?] ?]; lia.
  - rewrite head_lookup, Hps, list_lookup_imap. destruct (vs !! 0) as [v|] eqn:E; simpl.
    + by rewrite pointX_first by lia.
    + apply lookup_ge_None in E. lia.
  - rewrite last_lookup, Hn, Hps, list_lookup_imap. destruct (vs !! pred n) as [v|] eqn:E; simpl.
    + replace (pred n) with (n - 1) by lia. by rewrite pointX_last by lia.
    + apply lookup_ge_None in E. lia.
  - intros i j p q Hp Hq Hij. destruct (Hl i p Hp) as (v & Hvi & Hi & ->). destruct (Hl j q Hq) as (u & Hui & Hj & ->).
    simpl. apply (pointX_mono n w); lia.
  - intros i j p q v u Hp Hq Hvi Hui Hvu. destruct (Hl i p Hp) as (v' & Hvi' & _ & ->).
    destruct (Hl j q Hq) as (u' & Hui' & _ & ->). simplify_eq. simpl.
    destruct (Hv i v Hvi), (Hv j u Hui). apply (pointY_mono h min span v u); lia.
  - intros i p v Hp Hvi. destruct (Hl i p Hp) as (v' & Hvi' & _ & ->). simplify_eq. simpl.
    destruct (Hv i v Hvi) as [Hmin _]. pose proof (list_elem_of_lookup_2 _ _ _ Hvi) as Hvin. split.
    + intros Hu. assert (v = min) as -> by (pose proof (Hu min Hin); lia). by apply pointY_foot.
    + intros Hu (u & Hu1 & Hu2). apply pointY_top; [done..|]. apply Htop; [done..|].
      pose proof (proj1 (Hb u Hu1)). lia.
Qed.

Lemma sparkline_drawn_witness :
  let vals := map ofInt [3; 1; 4; 1; 5]%Z in
  sparklineSVG vals 80 20 = element 80 20 "2.0,10.0 21.0,18.0 40.0,6.0 59.0,18.0 78.0,2.0" ∧
  Forall (λ p, 20 ≤ tenths p.1 ≤ 780 ∧ 20 ≤ tenths p.2 ≤ 180)%Z (points (doubled vals) 80 20).
Proof.
  intros vals. destruct (sparkline_drawn vals 80 20) as (E & _ & Hb & _); [done|vm_compute; done|lia|lia|].
  split; [|exact Hb]. by vm_compute.
Defined.

End Svg.
