(* ===== verification/Console.v ===== *)
(** * contrib/webui: the browser console

    The routes of [webui.go] and the handlers of [handlers.go], from a
    request to the response.  A redirect carries the argument of
    [http.Redirect]; a page carries the data given to its template.
    [jsonIndent] is [json.Indent] on valid JSON, [None] on other bytes. *)

From S2P Require Import Prelude GoLib Base Redis Client RdbLocks RdbAdmin Inspector GoText Sparkline Svg.

Module Console.
Import GoStr GoFloat Keys Task Redis Client RdbLocks RdbAdmin Inspector GoText Sparkline Svg.

Definition listLimit : Z := 100.
Definition bulkLimit : Z := 10000.
Definition listStates : list string := ["scheduled"; "retry"; "archived"; "completed"].

Definition sparkW : Z := 80.
Definition sparkH : Z := 20.

(** A request: the segments of its cleaned path (none is empty, as
    [http.ServeMux] matches them), its headers and its query. *)
Record request := MkRequest {
  rq_method : string;
  rq_path : list string;
  rq_host : string;
  rq_origin : string;
  rq_query : string → string;
}.

Record statsQueue := MkStatsQueue {
  sq_info : QueueInfo;
  sq_spark : string;          (* the SVG element *)
}.

Inductive page :=
  | DashboardPage (queues : list statsQueue) (sched : option (string * list ScheduleInfo))
      (msg : string)
  | QueuePage (queue state : string) (tasks : list TaskInfo) (msg kindFilter : string)
      (paused : bool)
  | TaskPage (task : TaskInfo) (payload : string) (members : list string) (groupLookupOK : bool)
  | SchedulerPage (sched : string * list ScheduleInfo).

Inductive response :=
  | HttpError (code : Z) (text : string)
  | SeeOther (url : string)
  | Render (p : page)
  | Stats (l : list statsQueue)
  | Unrouted.                     (* the answer of [http.ServeMux] itself *)

(** The guard of every action: the [Origin] header, if there is one, must
    name the host. *)
Definition foreign (r : request) : bool :=
  let o := rq_origin r in
  negb (bool_decide (o = "")) && negb (bool_decide (o = "http://" +:+ rq_host r))
  && negb (bool_decide (o = "https://" +:+ rq_host r)).

Definition crossOrigin : response := HttpError 403 "cross-origin request rejected".

Section console.
Context `{R : Redis} `{J : Json} `{MJ : MetaJson} (K : Keys).
Context (quote : string → string) (lib : err → string) (jsonIndent : bytes → option string).

Definition internalError (e : err) : response := HttpError 500 (Error lib e).

(** One queue's sample; the loop of [dashboard] and of [apiStats]. *)
Definition sampleQueue (acc : sparkStore * list statsQueue) (q : QueueInfo)
    : M (sparkStore * list statsQueue) :=
  let name := qs_Queue (qi_stats q) in
  t ← now;
  let st := pushSample t name (ofInt (qs_Pending (qi_stats q) + qs_Active (qi_stats q))) acc.1 in
  mret (st, acc.2 ++ [MkStatsQueue q (svg st name sparkW sparkH)]).

Definition dashboard (st : sparkStore) (r : request) : M (sparkStore * response) :=
  queues ← try (InspectQueues K);
  match queues with
  | Err e => mret (st, internalError e)
  | Ok queues =>
      sched ← try (SchedulerStatus K);
      '(st, qs) ← go_foldl sampleQueue (st, []) queues;
      mret (st, Render (DashboardPage qs (match sched with Ok s => Some s | Err _ => None end)
                          (rq_query r "msg")))
  end.

Definition apiStats (st : sparkStore) : M (sparkStore * response) :=
  queues ← try (InspectQueues K);
  match queues with
  | Err e => mret (st, internalError e)
  | Ok queues =>
      '(st, qs) ← go_foldl sampleQueue (st, []) queues;
      mret (st, Stats qs)
  end.

(** The state asked for, [archived] by default. *)
Definition stateParam (r : request) : string :=
  if bool_decide (rq_query r "state" = "") then "archived" else rq_query r "state".

Definition queueDetail (queue : string) (r : request) : M response :=
  let state := stateParam r in
  tasks ← try (ListTasks K quote queue state listLimit);
  match tasks with
  | Err e => mret (if Is e ErrInvalidState then HttpError 400 (Error lib e) else internalError e)
  | Ok tasks =>
      let kf := rq_query r "kind" in
      let tasks := if bool_decide (kf = "") then tasks else filter (λ t, ti_Kind t = kf) tasks in
      names ← try (PausedQueues K);
      let paused := match names with Ok names => bool_decide (queue ∈ names) | Err _ => false end in
      mret (Render (QueuePage queue state tasks (rq_query r "msg") kf paused))
  end.

Definition formatPayload (p : bytes) : string := default p (jsonIndent p).

Definition taskDetail (queue id : string) : M response :=
  task ← try (InspectTask K quote queue id);
  match task with
  | Err e => mret (if Is e ErrTaskNotFound then HttpError 404 (Error lib e) else internalError e)
  | Ok task =>
      members ← (if bool_decide (ti_GroupID task ≠ "") && bool_decide (ti_GroupQueue task ≠ "")
                 then try (GroupMemberIDs K (ti_GroupQueue task) (ti_GroupID task))
                 else mret (Ok []));
      mret (Render (TaskPage task (formatPayload (ti_Payload task))
                      (match members with Ok l => l | Err _ => [] end)
                      (match members with Ok _ => true | Err _ => false end)))
  end.

(** The page a queue's action leads back to. *)
Definition backTo (queue : string) (query : list (string * string)) : response :=
  SeeOther ("/queues/" +:+ queue +:+ "?"
            +:+ Join "&" (map (λ p, p.1 +:+ "=" +:+ QueryEscape p.2) query)).

Definition outcomeMsg (okMsg : string) (r : result ()) : string :=
  match r with Ok _ => okMsg | Err e => "error: " +:+ Error lib e end.

Definition action (r : request) (queue id : string) (fn : string → string → M ()) (okMsg : string)
    : M response :=
  if foreign r then mret crossOrigin else
  res ← try (fn queue id);
  mret (backTo queue [("msg", outcomeMsg okMsg res)]).

Definition queueAction (r : request) (queue : string) (fn : string → M ()) (okMsg : string)
    : M response :=
  if foreign r then mret crossOrigin else
  res ← try (fn queue);
  mret (backTo queue [("msg", outcomeMsg okMsg res)]).

(** ** Bulk actions *)

Record bulkState := MkBulk {
  okCount : Z;
  failCount : Z;
  failedIDs : gset string;
  progressed : bool;
}.

Definition done_count (b : bulkState) : Z := okCount b + failCount b.

(** One task of a pass; once the limit is reached the rest is skipped. *)
Definition bulkOne (queue : string) (fn : string → string → M ()) (b : bulkState) (t : TaskInfo)
    : M bulkState :=
  if bool_decide (bulkLimit ≤ done_count b)%Z then mret b
  else if bool_decide (ti_ID t ∈ failedIDs b) then mret b
  else
    res ← try (fn queue (ti_ID t));
    mret match res with
         | Err _ => MkBulk (okCount b) (failCount b + 1) ({[ti_ID t]} ∪ failedIDs b) (progressed b)
         | Ok _ => MkBulk (okCount b + 1) (failCount b) (failedIDs b) true
         end.

(** The passes; [None]: out of fuel. *)
Fixpoint bulkLoop (fuel : nat) (queue state : string) (fn : string → string → M ())
    (b : bulkState) : M (option (result bulkState)) :=
  match fuel with
  | 0 => mret None
  | S fuel =>
      if negb (bool_decide (done_count b < bulkLimit)%Z) then mret (Some (Ok b)) else
      tasks ← try (ListTasks K quote queue state listLimit);
      match tasks with
      | Err e => mret (Some (Err e))
      | Ok tasks =>
          b ← go_foldl (bulkOne queue fn)
                (MkBulk (okCount b) (failCount b) (failedIDs b) false) tasks;
          if progressed b then bulkLoop fuel queue state fn b else mret (Some (Ok b))
      end
  end.

(** Every pass but the last makes one more task succeed. *)
Definition bulkFuel : nat := S (Z.to_nat bulkLimit).

Lemma bulkFuel_enough : (bulkLimit - 0 < Z.of_nat bulkFuel)%Z.
Proof. unfold bulkFuel, bulkLimit. lia. Qed.

#[global] Opaque bulkFuel.

Definition bulkMsg (verb : string) (b : bulkState) : string :=
  itoa (okCount b) +:+ " task(s) " +:+ verb +:+
  (if bool_decide (0 < failCount b)%Z then ", " +:+ itoa (failCount b) +:+ " failed" else "").

Definition bulk (r : request) (queue : string) (fn : string → string → M ()) (verb : string)
    : M response :=
  if foreign r then mret crossOrigin else
  let state := stateParam r in
  if negb (bool_decide (state = "archived")) && negb (bool_decide (state = "retry")) then
    mret (HttpError 400 "bulk actions are limited to archived|retry")
  else
    res ← bulkLoop bulkFuel queue state fn (MkBulk 0 0 ∅ false);
    mret match res with
         | Some (Ok b) => backTo queue [("state", state); ("msg", bulkMsg verb b)]
         | Some (Err e) => backTo queue [("state", state); ("msg", "bulk failed: " +:+ Error lib e)]
         | None => Unrouted        (* never: [ConsoleSpec.bulk_terminates] *)
         end.

(** ** Search and the scheduler's page *)

(** The first queue that knows the task. *)
Fixpoint findTask (id : string) (queues : list QueueInfo) : M (option string) :=
  match queues with
  | [] => mret None
  | q :: queues =>
      res ← try (InspectTask K quote (qs_Queue (qi_stats q)) id);
      match res with
      | Ok _ => mret (Some (qs_Queue (qi_stats q)))
      | Err _ => findTask id queues
      end
  end.

Definition search (r : request) : M response :=
  let id := TrimSpace (rq_query r "id") in
  if bool_decide (id = "") then mret (SeeOther "/") else
  queues ← try (InspectQueues K);
  found ← (match queues with Ok queues => findTask id queues | Err _ => mret None end);
  mret match found with
       | Some q => SeeOther ("/queues/" +:+ q +:+ "/tasks/" +:+ id)
       | None => SeeOther ("/?msg=" +:+ QueryEscape ("task not found: " +:+ id))
       end.

Definition schedulerPage : M response :=
  st ← try (SchedulerStatus K);
  mret match st with Err e => internalError e | Ok st => Render (SchedulerPage st) end.

(** ** The routes *)

Definition stateless (st : sparkStore) (p : M response) : M (sparkStore * response) :=
  r ← p; mret (st, r).

(** A pattern for [GET] also takes [HEAD]. *)
Definition serveGet (st : sparkStore) (r : request) : M (sparkStore * response) :=
  match rq_path r with
  | [] => dashboard st r
  | [a] => if decide (a = "search") then stateless st (search r)
           else if decide (a = "scheduler") then stateless st schedulerPage
           else mret (st, Unrouted)
  | [a; b] => if decide (a = "api" ∧ b = "stats") then apiStats st
              else if decide (a = "queues") then stateless st (queueDetail b r)
              else mret (st, Unrouted)
  | [a; q; b; id] => if decide (a = "queues" ∧ b = "tasks") then stateless st (taskDetail q id)
                     else mret (st, Unrouted)
  | _ => mret (st, Unrouted)
  end.

Definition servePost (r : request) : M response :=
  match rq_path r with
  | [a; q; c] =>
      if decide (a = "queues" ∧ c = "pause") then
        queueAction r q (PauseQueue K) "paused (takes effect within ~1s)"
      else if decide (a = "queues" ∧ c = "resume") then queueAction r q (ResumeQueue K) "resumed"
      else mret Unrouted
  | [a; q; b; c] =>
      if decide (a = "queues" ∧ b = "bulk" ∧ c = "run") then bulk r q (RunTask K) "re-ran"
      else if decide (a = "queues" ∧ b = "bulk" ∧ c = "delete") then bulk r q (DeleteTask K) "deleted"
      else mret Unrouted
  | [a; q; b; id; c] =>
      if decide (a = "queues" ∧ b = "tasks" ∧ c = "run") then
        action r q id (RunTask K) "queued for immediate run"
      else if decide (a = "queues" ∧ b = "tasks" ∧ c = "delete") then
        action r q id (DeleteTask K) "deleted"
      else mret Unrouted
  | _ => mret Unrouted
  end.

Definition serve (st : sparkStore) (r : request) : M (sparkStore * response) :=
  if decide (rq_method r = "GET" ∨ rq_method r = "HEAD") then serveGet st r
  else if decide (rq_method r = "POST") then stateless st (servePost r)
  else mret (st, Unrouted).

End console.
End Console.
