(* ===== verification/Pages.v ===== *)
(** * contrib/webui: from a handler's answer to the bytes sent

    The helpers of the templates and the writing of pages (render.go), and
    the console as a handler of requests (webui.go).  A page is
    executed into a buffer and sent only when that succeeded.  [execute] is
    [html/template] on the embedded templates, [encodeStats] is
    [encoding/json] on the list of queues. *)

From S2P Require Import Prelude GoLib Base Redis Client RdbAdmin Inspector GoText Sparkline Svg Console.
From Stdlib Require Import Ascii.

Module Pages.
Import GoStr Utf8 Keys Task Redis Client RdbAdmin Inspector GoText Sparkline Console.

(** ** tmplFuncs *)

Definition add (a b : Z) : Z := wrap64 (a + b).

(** [make([]int, n)] panics for a negative [n]; the template then fails. *)
Definition seq (n : Z) : option (list Z) :=
  if bool_decide (n < 0)%Z then None else Some (map Z.of_nat (List.seq 0 (Z.to_nat n))).

(** A rune written back: an invalid byte was read as U+FFFD. *)
Definition runeBytes (x : Z * list ascii) : list ascii :=
  if decide (x.1 = RuneError) then map ofCode [239; 191; 189]%Z else x.2.

(** [len(r) <= n] fails for every negative [n], which the templates never
    pass ([r[:n]] would panic). *)
Definition trunc (s : string) (n : nat) : string :=
  let r := segments s in
  if bool_decide (length r ≤ n) then s
  else ofChars (concat (map runeBytes (take n r))) +:+ "…".

(** ** render *)

Record httpResponse := MkHttp {
  hr_status : Z;
  hr_type : string;
  hr_location : option string;
  hr_body : string;
}.

(** [http.Error]. *)
Definition httpError (code : Z) (text : string) : httpResponse :=
  MkHttp code "text/plain; charset=utf-8" None (text +:+ nl).

(** [mustPage]: each content page is parsed with the layout. *)
Definition pages : list string := ["dashboard"; "queue"; "task"; "scheduler"].

(** The fields every page has. *)
Record pageData := MkPageData { Title : string; Conn : string }.

(** The page a handler names, and its title. *)
Definition pageName (p : page) : string :=
  match p with
  | DashboardPage _ _ _ => "dashboard"
  | QueuePage _ _ _ _ _ _ => "queue"
  | TaskPage _ _ _ _ => "task"
  | SchedulerPage _ => "scheduler"
  end.

Definition pageTitle (r : request) (p : page) : string :=
  match p with
  | DashboardPage _ _ _ => "queues"
  | QueuePage queue _ _ _ _ _ => queue
  | TaskPage _ _ _ _ => default "" (rq_path r !! 3)
  | SchedulerPage _ => "scheduler"
  end.

Section render.
Context (lib : err → string) (execute : string → pageData → page → result string).
Context (encodeStats : list statsQueue → result string).

Definition render (name : string) (pd : pageData) (data : page) : httpResponse :=
  if decide (name ∈ pages) then
    match execute name pd data with
    | Err e => httpError 500 (Error lib e)
    | Ok html => MkHttp 200 "text/html; charset=utf-8" None html
    end
  else httpError 500 ("unknown page: " +:+ name).

(** What is sent for a handler's answer; [None]: the mux answers, and sends
    the static files. *)
Definition respond (conn : string) (rq : request) (r : response) : option httpResponse :=
  match r with
  | HttpError code text => Some (httpError code text)
  | SeeOther url => Some (MkHttp 303 "text/html; charset=utf-8" (Some url) "")
  | Render p => Some (render (pageName p) (MkPageData (pageTitle rq p) conn) p)
  | Stats l =>
      Some match encodeStats l with
           | Err e => httpError 500 (Error lib e)
           | Ok json => MkHttp 200 "application/json; charset=utf-8" None (json +:+ nl)
           end
  | Unrouted => None
  end.

(** ** webui.go *)

Record server := MkServer { conn : string; sparks : sparkStore }.

Definition WithConnInfo (label : string) (s : server) : server := MkServer label (sparks s).

Definition Handler (opts : list (server → server)) : server :=
  foldl (λ s opt, opt s) (MkServer "" (newSparkStore 20)) opts.

Context `{R : Redis} `{J : Json} `{MJ : MetaJson} (K : Keys).
Context (quote : string → string) (jsonIndent : bytes → option string).

Definition ServeHTTP (s : server) (r : request) : M (server * option httpResponse) :=
  '(st, resp) ← serve K quote lib jsonIndent (sparks s) r;
  mret (MkServer (conn s) st, respond (conn s) r resp).

(** A page is sent whole or not at all, and no handler names a page that
    does not exist. *)
Lemma page_whole conn rq p :
  respond conn rq (Render p) =
  Some match execute (pageName p) (MkPageData (pageTitle rq p) conn) p with
       | Ok html => MkHttp 200 "text/html; charset=utf-8" None html
       | Err e => httpError 500 (Error lib e)
       end.
Proof. unfold respond, render. rewrite decide_True; [done|]. destruct p; set_solver. Qed.

End render.

(** ** Truncation *)

Lemma codes_app a b : codes (a +:+ b) = codes a ++ codes b.
Proof. unfold codes. by rewrite chars_app, map_app. Qed.

(** How many bytes a rune takes. *)
Lemma rune_width_2 r : (128 ≤ r < 2048)%Z → rune_width (Some r) = 2.
Proof. intros Hr. unfold rune_width. rewrite bool_decide_false, bool_decide_true by lia. done. Qed.

Lemma rune_width_3 r : (2048 ≤ r < 65536)%Z → rune_width (Some r) = 3.
Proof. intros Hr. unfold rune_width. rewrite !bool_decide_false, bool_decide_true by lia. done. Qed.

Lemma rune_width_4 r : (65536 ≤ r)%Z → rune_width (Some r) = 4.
Proof. intros Hr. unfold rune_width. by rewrite !bool_decide_false by lia. Qed.

(** Reading the bytes of one rune gives that rune. *)
Definition rereads (x : Z * list ascii) : Prop := decode_runes (map code (runeBytes x)) = [Some x.1].

Lemma rereads_error b : rereads (RuneError, b).
Proof. done. Qed.

Lemma rereads_bytes r b : decode_runes (map code b) = [Some r] → rereads (r, b).
Proof. unfold rereads, runeBytes; simpl. intros Hb. case_decide as E; [by rewrite E|done]. Qed.

Ltac booleans := repeat match goal with
  | H : _ && _ = true |- _ => apply andb_true_iff in H as [? H]
  | H : bool_decide _ = true |- _ => apply bool_decide_eq_true in H
  | H : cont _ = true |- _ => unfold cont in H
  end.

Lemma segment_rereads l : Forall rereads (segment (decode_runes (map code l)) l).
Proof.
  induction l as [l IH] using (induction_ltof1 _ length). unfold ltof in IH.
  destruct l as [|c0 l1]; [constructor|].
  assert (∀ k, Forall rereads (segment (decode_runes (map code (drop k l1))) (drop k l1))) as IH'.
  { intros k. apply IH. rewrite length_drop. simpl. lia. }
  clear IH. pose proof (code_range c0) as Hc. cbn [map decode_runes].
  case_bool_decide as H0.
  { cbn [segment default]. unfold rune_width. rewrite bool_decide_true by done. constructor; [|apply (IH' 0)].
    apply rereads_bytes. simpl. by rewrite bool_decide_true. }
  assert (Forall rereads (segment (None :: decode_runes (map code l1)) (c0 :: l1))) as Hnone.
  { constructor; [apply rereads_error|apply (IH' 0)]. }
  destruct l1 as [|c1 l2]; [exact Hnone|]. cbn [map].
  destruct (bool_decide (194 ≤ code c0 ≤ 223)%Z && cont (code c1)) eqn:E1.
  { cbn [segment default]. rewrite rune_width_2 by (booleans; lia).
    constructor; [|apply (IH' 1)]. apply rereads_bytes. cbn [firstn map decode_runes].
    by rewrite (bool_decide_false (code c0 < 128)%Z), E1. }
  destruct l2 as [|c2 l3]; [exact Hnone|]. cbn [map].
  match goal with |- context [if ?b then Some _ :: _ else _] => destruct b eqn:E2 end.
  { cbn [segment default]. rewrite rune_width_3.
    - constructor; [|apply (IH' 2)]. apply rereads_bytes. cbn [firstn map decode_runes].
      by rewrite (bool_decide_false (code c0 < 128)%Z), E1, E2.
    - clear - E2. destruct (decide (code c0 = 224)%Z) as [E0|];
        [rewrite (bool_decide_true (code c0 = 224)%Z) in E2 by done; simpl in E2|]; booleans; lia. }
  destruct l3 as [|c3 l4]; [exact Hnone|]. cbn [map].
  match goal with |- context [if ?b then Some _ :: _ else _] => destruct b eqn:E3 end; [|exact Hnone].
  cbn [segment default]. rewrite rune_width_4.
  - constructor; [|apply (IH' 3)]. apply rereads_bytes. cbn [firstn map decode_runes].
    by rewrite (bool_decide_false (code c0 < 128)%Z), E1, E2, E3.
  - clear - E3. destruct (decide (code c0 = 240)%Z) as [E0|];
      [rewrite (bool_decide_true (code c0 = 240)%Z) in E3 by done; simpl in E3|]; booleans; lia.
Qed.

(** So the runes of written-back pieces are the pieces' runes. *)
Lemma decode_pieces ps :
  Forall rereads ps → decode_runes (map code (concat (map runeBytes ps))) = map (λ x, Some x.1) ps.
Proof.
  induction 1 as [|x ps Hx Hps IH]; [done|]. simpl. rewrite map_app, decode_runes_app, Hx, IH; [done|].
  unfold valid_bytes. by rewrite Hx.
Qed.

Lemma segment_fst rs l : map fst (segment rs l) = map (default RuneError) rs.
Proof. revert l. induction rs as [|r rs IH]; intros l; [done|]. simpl. by rewrite IH. Qed.

(** A text is never cut inside a rune.  A text of at most [n] runes is left
    alone; of a longer one, whatever its bytes, the first [n] runes are kept
    and an ellipsis is put behind them, and the result is valid UTF-8. *)
Theorem trunc_keeps_runes s n :
  (RuneCount s ≤ Z.of_nat n → trunc s n = s)%Z ∧
  (Z.of_nat n < RuneCount s →
     runes (trunc s n) = take n (runes s) ++ [8230] ∧ valid (trunc s n) = true)%Z.
Proof.
  assert (length (segments s) = length (decode_runes (codes s))) as Hlen.
  { unfold segments. rewrite <- (length_map fst), segment_fst. by rewrite length_map. }
  unfold RuneCount, trunc. rewrite <- Hlen. split; intros Hn; [by rewrite bool_decide_true by lia|].
  rewrite bool_decide_false by lia.
  assert (decode_runes (codes (ofChars (concat (map runeBytes (take n (segments s)))) +:+ "…"))
          = map (λ x, Some x.1) (take n (segments s)) ++ [Some 8230%Z]) as E.
  { rewrite codes_app. unfold codes at 1. rewrite chars_ofChars.
    assert (Forall rereads (take n (segments s))) as Hr by (apply Forall_take, segment_rereads).
    rewrite decode_runes_app; [by rewrite decode_pieces|].
    unfold valid_bytes. rewrite decode_pieces by done. apply forallb_forall.
    intros r (x & <- & _)%in_map_iff. done. }
  unfold runes at 1, valid. rewrite E. split.
  - rewrite map_app, map_map. unfold runes.
    rewrite <- (segment_fst (decode_runes (codes s)) (chars s)), firstn_map. done.
  - apply forallb_forall. intros r Hr%in_app_iff. destruct Hr as [(x & <- & _)%in_map_iff|[<-|[]]]; done.
Qed.

Lemma trunc_keeps_runes_witness :
  valid (trunc "작업이 실패했다" 3) = true ∧ trunc "작업이 실패했다" 3 = "작업이…".
Proof. split; [apply (trunc_keeps_runes "작업이 실패했다" 3); by vm_compute|by vm_compute]. Defined.

End Pages.
