(* ===== verification/LockSpec.v ===== *)
(** * Locks, fences and leadership

    What the locking scripts guarantee over any sequence of uses by any
    processes, with time passing in between. *)

From S2P Require Import Prelude GoLib Base Redis RedisFacts Client RdbCore RdbLocks Instances.
From Stdlib Require Import Ascii.

Module LockSpec.
Import GoTime GoFloat GoStr Keys Task Redis RedisFacts Client RdbCore RdbLocks.

(** ** Deadlines *)

(** [k] holds [v] at least until [d]. *)
Definition holds (m : keyspace) (k v : string) (d : Z) : Prop :=
  k_str m !! k = Some v ∧ ∃ e, k_exp m !! k = Some e ∧ (d ≤ e)%Z.

Lemma holds_exists m k v d : holds m k v d → key_exists m k = true.
Proof. intros [H _]. by eapply key_exists_str. Qed.

Lemma holds_elapse m k v d dt :
  holds m k v d → (k_now m + dt < d)%Z → holds (elapse dt m) k v d.
Proof.
  intros (Hv & e & He & Hd) Hdt.
  assert (live_at (k_now m + dt) m k = true) as Hlive.
  { unfold live_at. rewrite He. apply bool_decide_eq_true. lia. }
  split; simpl.
  - rewrite map_lookup_filter, Hv. simpl. by rewrite option_guard_True.
  - exists e. rewrite map_lookup_filter, He. simpl. by rewrite option_guard_True.
Qed.

Lemma holds_setpx m k v ms : holds (do_setpx k v ms m) k v (k_now m + ms).
Proof.
  split; simpl; [by rewrite lookup_insert_eq|].
  eexists. rewrite lookup_insert_eq. split; [done|lia].
Qed.

(** ** Decimal numbers read back *)

Lemma parseDigits_go (x : N) s acc :
  acc = 0%Z →
  parseDigits acc (chars (pretty_N_go x s)) = parseDigits (Z.of_N x) (chars s).
Proof.
  intros ->. revert s. induction (N.lt_wf_0 x) as [x _ IH]; intros s.
  destruct (decide (x = 0%N)) as [->|Hx]; [by rewrite pretty_N_go_0|].
  rewrite pretty_N_go_step by lia. rewrite IH by (apply N.div_lt; lia). simpl.
  assert (x `mod` 10 < 10)%N as Hm by (apply N.mod_lt; lia).
  assert (code (pretty_N_char (x `mod` 10)) - 48 = Z.of_N (x `mod` 10))%Z as ->.
  { generalize dependent (x `mod` 10)%N. intros y Hy.
    assert (y = 0 ∨ y = 1 ∨ y = 2 ∨ y = 3 ∨ y = 4 ∨ y = 5 ∨ y = 6 ∨ y = 7 ∨ y = 8 ∨ y = 9)%N
      as H by lia.
    by repeat destruct H as [->|H]; [..|subst]. }
  rewrite bool_decide_true by (generalize dependent (x `mod` 10)%N; lia).
  f_equal. rewrite N2Z.inj_div, N2Z.inj_mod. pose proof (Z.div_mod (Z.of_N x) 10). lia.
Qed.

Lemma chars_pretty_N (x : N) :
  (0 < x)%N → ∃ c l, chars (pretty x) = c :: l ∧ c ≠ "-"%char ∧ c ≠ "+"%char.
Proof.
  intros Hx. unfold pretty, pretty_N. rewrite decide_False by lia.
  assert (∀ s, (∃ c l, chars s = c :: l ∧ c ≠ "-"%char ∧ c ≠ "+"%char) ∨ (0 < x)%N →
    ∃ c l, chars (pretty_N_go x s) = c :: l ∧ c ≠ "-"%char ∧ c ≠ "+"%char) as H; [|by apply H; right].
  clear Hx. induction (N.lt_wf_0 x) as [x _ IH]; intros s Hs.
  destruct (decide (x = 0%N)) as [->|Hx].
  { rewrite pretty_N_go_0. destruct Hs; [done|lia]. }
  rewrite pretty_N_go_step by lia. apply IH; [apply N.div_lt; lia|]. left.
  exists (pretty_N_char (x `mod` 10)), (chars s). split; [done|].
  unfold pretty_N_char. by repeat case_match.
Qed.

Lemma parseDigits_pretty (p : positive) :
  parseDigits 0 (chars (pretty (N.pos p))) = Some (Z.pos p).
Proof.
  unfold pretty, pretty_N. rewrite decide_False by lia. by rewrite parseDigits_go.
Qed.

Lemma ParseInt_itoa z : in_int64 z → ParseInt (itoa z) = Some z.
Proof.
  intros Hz. destruct z as [|p|p]; [done| |].
  - unfold ParseInt. change (itoa (Z.pos p)) with (pretty (N.pos p)).
    destruct (chars_pretty_N (N.pos p)) as (c & l & E & Hm & Hp); [lia|].
    pose proof (parseDigits_pretty p) as HP. rewrite E in *.
    assert ((v ← parseDigits 0 (c :: l); if decide (in_int64 v) then Some v else None)
            = Some (Z.pos p)) as <- by (rewrite HP; simpl; by rewrite decide_True).
    by destruct c as [[] [] [] [] [] [] [] []].
  - unfold ParseInt. change (itoa (Z.neg p)) with (String "-" (pretty (N.pos p))).
    change (chars (String "-" (pretty (N.pos p)))) with ("-"%char :: chars (pretty (N.pos p))).
    destruct (chars_pretty_N (N.pos p)) as (c & l & E & _); [lia|].
    pose proof (parseDigits_pretty p) as HP. rewrite E in *. cbn [mbind option_bind]. rewrite HP. simpl. by rewrite decide_True.
Qed.

Section locks.
Context `{R : Redis} `{J : Json} (K : Keys).

(** ** The unique lock *)

(** What processes do to the lock of one content: acquire it for a task,
    release it as a task's owner, renew it, or wait. *)
Inductive lock_op :=
  | Acquire (q T : string) (ttl : Z) (encoded : string)
  | Release (T : string)
  | Renew (ms : Z)
  | Wait (dt : Z).

Definition lock_do (lock : string) (op : lock_op) (s : store) : store * Z :=
  match op with
  | Acquire q T ttl encoded =>
      enqueueUniqueCmd lock (TaskKey K q T) (StreamKey K q) (CompletedKey K q)
        (ArchivedKey K q) T ttl encoded StatePending s
  | Release T => releaseUniqueCmd lock T s
  | Renew ms => renewUniqueCmd lock ms s
  | Wait dt => (elapse_store dt s, 0%Z)
  end.

(** Run a sequence, collecting what each acquisition answered. *)
Fixpoint lock_run (lock : string) (ops : list lock_op) (s : store) : store * list Z :=
  match ops with
  | [] => (s, [])
  | op :: ops =>
      let (s1, r) := lock_do lock op s in
      let (s2, rs) := lock_run lock ops s1 in
      (s2, match op with Acquire _ _ _ _ => r :: rs | _ => rs end)
  end.

Fixpoint waited (ops : list lock_op) : Z :=
  match ops with [] => 0 | Wait dt :: ops => dt + waited ops | _ :: ops => waited ops end.

Lemma waited_nonneg ops : Forall (λ op, match op with Wait dt => 0 ≤ dt | _ => True end)%Z ops →
  (0 ≤ waited ops)%Z.
Proof. induction 1 as [|[] ops]; simpl; lia. Qed.

(** A lock held by another task survives every operation that is not its
    owner's release, until its deadline. *)
Lemma lock_do_foreign lock T d op s :
  holds (ks s) lock T d →
  match op with Release T' => T' ≠ T | Wait dt => (0 ≤ dt ∧ k_now (ks s) + dt < d)%Z | _ => True end →
  holds (ks (lock_do lock op s).1) lock T d ∧
  k_now (ks (lock_do lock op s).1)
    = (k_now (ks s) + match op with Wait dt => dt | _ => 0 end)%Z ∧
  match op with Acquire _ _ _ _ => (lock_do lock op s).2 = (-1)%Z | _ => True end.
Proof.
  intros Hh Hop. pose proof (holds_exists _ _ _ _ Hh) as Hex. destruct Hh as (Hv & e & He & Hd).
  assert (holds (ks s) lock T d) as Hh by (split; [done|eauto]).
  destruct op as [q T' ttl enc|T'|ms|dt]; simpl in *.
  - assert (wps (enqueueUniqueCmd lock (TaskKey K q T') (StreamKey K q) (CompletedKey K q)
              (ArchivedKey K q) T' ttl enc StatePending)
              (λ r m', m' = ks s ∧ r = (-1)%Z) (ks s)) as Hw.
    { unfold enqueueUniqueCmd. wps_steps. rewrite Hex. simpl. by wps_steps. }
    destruct (Hw s eq_refl) as [-> ->]. split_and!; [done|lia|done].
  - assert (wps (releaseUniqueCmd lock T') (λ _ m', m' = ks s) (ks s)) as Hw.
    { unfold releaseUniqueCmd. wps_steps. rewrite Hv.
      rewrite bool_decide_false by congruence. by wps_steps. }
    rewrite (Hw s eq_refl). split_and!; [done|lia|done].
  - assert (wps (renewUniqueCmd lock ms) (λ _ m', holds m' lock T d ∧ k_now m' = k_now (ks s)) (ks s))
      as Hw.
    { unfold renewUniqueCmd. wps_steps. rewrite Hex, He. case_bool_decide as Hlt; wps_steps; [|done].
      split; [|done]. split; [done|]. unfold do_pexpire. rewrite Hex. simpl.
      rewrite lookup_insert_eq. eexists. split; [done|]. lia. }
    destruct (Hw s eq_refl) as [? ->]. split_and!; [done|lia|done].
  - destruct Hop as [? ?]. rewrite elapse_effect by done.
    split_and!; [by apply holds_elapse|done|done].
Qed.

Lemma lock_run_foreign lock T d ops s :
  holds (ks s) lock T d →
  Forall (λ op, match op with Release T' => T' ≠ T | Wait dt => (0 ≤ dt)%Z | _ => True end) ops →
  (k_now (ks s) + waited ops < d)%Z →
  holds (ks (lock_run lock ops s).1) lock T d ∧
  Forall (λ r, r = (-1)%Z) (lock_run lock ops s).2.
Proof.
  revert s. induction ops as [|op ops IH]; intros s Hh Hops Hd; simpl; [done|].
  apply Forall_cons in Hops as [Hop Hops].
  assert (0 ≤ waited ops)%Z.
  { apply waited_nonneg. eapply Forall_impl; [exact Hops|]. by intros []. }
  destruct (lock_do_foreign lock T d op s Hh) as (Hh' & Hnow & Hr).
  { destruct op; simpl in *; [done|done|done|lia]. }
  destruct (lock_do lock op s) as [s1 r] eqn:E; simpl in *.
  destruct (IH s1 Hh' Hops) as [Hh2 Hrs].
  { rewrite Hnow. destruct op; simpl in *; lia. }
  destruct (lock_run lock ops s1) as [s2 rs] eqn:E2; simpl in *.
  split; [done|]. destruct op; simpl; [by constructor|done..].
Qed.

(** C19: mutual exclusion of the unique lock.  Once a task acquired a free
    lock, then whatever acquisitions, renewals and releases by other tasks
    follow, in any order and number, until the lifetime has passed, every
    acquisition is refused as a duplicate and the lock stays the task's; and
    the owner's release frees it, so that the next acquisition succeeds. *)
Theorem unique_lock_exclusive lock q T ttl encoded ops s :
  key_exists (ks s) lock = false →
  (∀ x, queueKey K q x = lock → ∃ suf, x = KUnique suf) →
  Forall (λ op, match op with Release T' => T' ≠ T | Wait dt => (0 ≤ dt)%Z | _ => True end) ops →
  (waited ops < ttl)%Z →
  let (s1, r1) := lock_do lock (Acquire q T ttl encoded) s in
  let (s2, rs) := lock_run lock ops s1 in
  r1 = 1%Z ∧ Forall (λ r, r = (-1)%Z) rs ∧ k_str (ks s2) !! lock = Some T ∧
  k_str (ks (lock_do lock (Release T) s2).1) !! lock = None.
Proof.
  intros Hfree Hlock Hops Hw. simpl.
  assert (wps (enqueueUniqueCmd lock (TaskKey K q T) (StreamKey K q) (CompletedKey K q)
            (ArchivedKey K q) T ttl encoded StatePending)
            (λ r m', r = 1%Z ∧ k_now m' = k_now (ks s) ∧ holds m' lock T (k_now (ks s) + ttl))
            (ks s)) as Hacq.
  { unfold enqueueUniqueCmd. wps_steps. rewrite Hfree. simpl. wps_steps.
    split_and!; [done|done|]. split; [simpl; by rewrite lookup_insert_eq|].
    exists (k_now (ks s) + ttl)%Z. split; [|lia]. simpl.
    assert (CompletedKey K q ≠ lock) by (intros E; by destruct (Hlock KCompleted E)).
    assert (ArchivedKey K q ≠ lock) by (intros E; by destruct (Hlock KArchived E)).
    repeat case_decide; simpl; rewrite ?lookup_delete_ne by done; by rewrite lookup_insert_eq. }
  destruct (Hacq s eq_refl) as (Hr1 & Hnow & Hh).
  destruct (enqueueUniqueCmd _ _ _ _ _ _ _ _ _ s) as [s1 r1]; simpl in *.
  destruct (lock_run_foreign lock T (k_now (ks s) + ttl) ops s1 Hh Hops) as [Hh2 Hrs]; [lia|].
  destruct (lock_run lock ops s1) as [s2 rs]; simpl in *.
  split_and!; [done|done|by destruct Hh2|].
  assert (wps (releaseUniqueCmd lock T) (λ _ m', k_str m' !! lock = None) (ks s2)) as Hrel.
  { unfold releaseUniqueCmd. wps_steps. destruct Hh2 as [Hv _].
    rewrite Hv, bool_decide_true by done. wps_steps. simpl. by rewrite lookup_delete_eq. }
  by apply (Hrel s2).
Qed.

(** The heartbeat never shortens a lock.  Renewing keeps the holder, never
    moves the deadline backwards, leaves at least the requested time on a
    lock that expires, gives a lock without deadline none, and never
    resurrects a lock that is gone. *)
Theorem renew_never_shortens lock ms m :
  (∀ e, k_exp m !! lock = Some e → k_now m < e)%Z →
  wps (renewUniqueCmd lock ms)
    (λ _ m', k_str m' !! lock = k_str m !! lock ∧
       (key_exists m lock = false → m' = m) ∧
       (key_exists m lock = true → k_exp m !! lock = None → k_exp m' !! lock = None) ∧
       ∀ e, key_exists m lock = true → k_exp m !! lock = Some e →
         ∃ e', k_exp m' !! lock = Some e' ∧ (e ≤ e' ∧ k_now m + ms ≤ e')%Z) m.
Proof.
  intros Hlive. unfold renewUniqueCmd. wps_steps.
  destruct (key_exists m lock) eqn:Hex; [|by rewrite bool_decide_false by lia; wps_steps].
  destruct (k_exp m !! lock) as [e|] eqn:He.
  - specialize (Hlive e eq_refl). case_bool_decide as Hlt; wps_steps.
    + split_and!; [done|done|done|]. intros e' _ [= <-]. unfold do_pexpire. rewrite Hex. simpl.
      rewrite lookup_insert_eq. eexists. split; [done|lia].
    + split_and!; [done|done|done|]. intros e' _ [= <-]. exists e. split; [done|lia].
  - rewrite bool_decide_false by lia. wps_steps. split_and!; [done|done|done|]. by intros.
Qed.

(** ** The per-trigger fence *)

(** Attempts to enqueue one trigger, by any instances, with time passing. *)
Inductive fire_op :=
  | Fire (encoded : string)
  | Pass (dt : Z).

Definition fire_do (dedup q T : string) (ttl : Z) (op : fire_op) (s : store) : store * Z :=
  match op with
  | Fire encoded =>
      enqueuePeriodicCmd dedup (TaskKey K q T) (StreamKey K q) (CompletedKey K q)
        (ArchivedKey K q) T ttl encoded StatePending s
  | Pass dt => (elapse_store dt s, 0%Z)
  end.

Fixpoint fire_run (dedup q T : string) (ttl : Z) (ops : list fire_op) (s : store)
    : store * list Z :=
  match ops with
  | [] => (s, [])
  | op :: ops =>
      let (s1, r) := fire_do dedup q T ttl op s in
      let (s2, rs) := fire_run dedup q T ttl ops s1 in
      (s2, match op with Fire _ => r :: rs | Pass _ => rs end)
  end.

Fixpoint passed (ops : list fire_op) : Z :=
  match ops with [] => 0 | Pass dt :: ops => dt + passed ops | _ :: ops => passed ops end.

Definition fire_ok (op : fire_op) : Prop := match op with Pass dt => (0 ≤ dt)%Z | _ => True end.

Lemma passed_nonneg ops : Forall fire_ok ops → (0 ≤ passed ops)%Z.
Proof. induction 1 as [|[] ops]; simpl in *; lia. Qed.

Lemma enqueuePeriodicCmd_spec dedup q T ttl encoded m :
  (∀ x, queueKey K q x = dedup → ∃ i, x = KPeriodic i) →
  wps (enqueuePeriodicCmd dedup (TaskKey K q T) (StreamKey K q) (CompletedKey K q)
         (ArchivedKey K q) T ttl encoded StatePending)
    (λ r m', k_now m' = k_now m ∧
       if key_exists m dedup then r = (-1)%Z ∧ m' = m
       else r = 1%Z ∧ holds m' dedup "1" (k_now m + ttl)) m.
Proof.
  intros Hk. unfold enqueuePeriodicCmd. wps_steps.
  destruct (key_exists m dedup) eqn:Hex; simpl; wps_steps; [done|].
  split_and!; [done|done|]. split; [simpl; by rewrite lookup_insert_eq|].
  exists (k_now m + ttl)%Z. split; [|lia]. simpl.
  assert (CompletedKey K q ≠ dedup) by (intros E; by destruct (Hk KCompleted E)).
  assert (ArchivedKey K q ≠ dedup) by (intros E; by destruct (Hk KArchived E)).
  repeat case_decide; simpl; rewrite ?lookup_delete_ne by done; by rewrite lookup_insert_eq.
Qed.

Lemma fire_run_fenced dedup q T ttl d ops s :
  (∀ x, queueKey K q x = dedup → ∃ i, x = KPeriodic i) →
  holds (ks s) dedup "1" d → Forall fire_ok ops → (k_now (ks s) + passed ops < d)%Z →
  Forall (λ r, r = (-1)%Z) (fire_run dedup q T ttl ops s).2.
Proof.
  intros Hk. revert s. induction ops as [|op ops IH]; intros s Hh Hops Hd; simpl; [done|].
  apply Forall_cons in Hops as [Hop Hops]. pose proof (passed_nonneg ops Hops).
  destruct op as [encoded|dt]; simpl in *.
  - destruct (enqueuePeriodicCmd_spec dedup q T ttl encoded (ks s) Hk s eq_refl) as [Hnow Hr].
    rewrite (holds_exists _ _ _ _ Hh) in Hr. destruct Hr as [Hr Hm].
    destruct (enqueuePeriodicCmd _ _ _ _ _ _ _ _ _ s) as [s1 r]; simpl in *.
    specialize (IH s1). rewrite Hm in IH.
    destruct (fire_run dedup q T ttl ops s1) as [s2 rs]; simpl in *.
    constructor; [done|]. by apply IH.
  - specialize (IH (elapse_store dt s)). rewrite elapse_effect in IH by done.
    destruct (fire_run dedup q T ttl ops (elapse_store dt s)) as [s2 rs]; simpl in *.
    apply IH; [|done|]; [apply holds_elapse; [done|lia]|simpl; lia].
Qed.

Lemma key_exists_elapse dt m k : key_exists m k = false → key_exists (elapse dt m) k = false.
Proof.
  unfold key_exists. rewrite !orb_false_iff, !bool_decide_eq_false.
  intros [[[[H1 H2] H3] H4] H5]. split_and!; simpl; intros [x Hx];
    apply map_lookup_filter_Some in Hx as [Hx _]; eauto.
Qed.

(** C20: a trigger is enqueued exactly once.  However many instances attempt
    it, leaders or not, and however the attempts are spread over time, the
    first attempt succeeds and every later one is refused as a duplicate, as
    long as the whole takes less than the fence's lifetime. *)
Theorem trigger_fires_once trig q T ttl ops s :
  valid_keys K → brace_free q →
  let dedup := PeriodicDedupKey K q trig in
  Forall fire_ok ops → (passed ops < ttl)%Z → key_exists (ks s) dedup = false →
  match (fire_run dedup q T ttl ops s).2 with
  | [] => True
  | r :: rs => r = 1%Z ∧ Forall (λ r, r = (-1)%Z) rs
  end.
Proof.
  intros HK Hq dedup Hops Hd Hfree.
  assert (∀ x, queueKey K q x = dedup → ∃ i, x = KPeriodic i) as Hk.
  { intros x E. apply (queueKey_inj K q x (KPeriodic trig)) in E. eauto. }
  revert s Hfree Hd. induction Hops as [|op ops Hop Hops IH]; intros s Hfree Hd; [done|].
  destruct op as [encoded|dt]; simpl in *.
  - destruct (enqueuePeriodicCmd_spec dedup q T ttl encoded (ks s) Hk s eq_refl) as [Hnow Hr].
    rewrite Hfree in Hr. destruct Hr as [Hr Hh].
    destruct (enqueuePeriodicCmd _ _ _ _ _ _ _ _ _ s) as [s1 r]; simpl in *.
    pose proof (fire_run_fenced dedup q T ttl _ ops s1 Hk Hh Hops) as Hrest.
    destruct (fire_run dedup q T ttl ops s1) as [s2 rs]; simpl in *.
    split; [done|]. apply Hrest. lia.
  - specialize (IH (elapse_store dt s)). rewrite elapse_effect in IH by done.
    destruct (fire_run dedup q T ttl ops (elapse_store dt s)) as [s2 rs]; simpl in *.
    apply IH; [by apply key_exists_elapse|lia].
Qed.

(** ** Leadership *)

(** The server and, per instance that won an election and did not lose one
    since, the end of the term it was granted. *)
Record leaders := MkLeaders {
  l_store : store;
  l_term : gmap string Z;
}.

Definition l_now (st : leaders) : Z := k_now (ks (l_store st)).

(** Elections and resignations by any instance, each with its own term; the
    reply of an election may be lost. *)
Inductive leader_step (key : string) (ttl : string → Z) : leaders → leaders → Prop :=
  | step_elect i s s' b r :
      acquireOrRenewCmd key i (ttl i) s = (s', r) →
      leader_step key ttl (MkLeaders s b)
        (MkLeaders s' (if bool_decide (r = 1%Z) then <[i := (k_now (ks s) + ttl i)%Z]> b
                       else delete i b))
  | step_elect_lost i s s' b r :
      acquireOrRenewCmd key i (ttl i) s = (s', r) →
      leader_step key ttl (MkLeaders s b) (MkLeaders s' b)
  | step_resign i s s' b r :
      resignCmd key i s = (s', r) →
      leader_step key ttl (MkLeaders s b) (MkLeaders s' (delete i b))
  | step_wait dt s b :
      (0 ≤ dt)%Z → leader_step key ttl (MkLeaders s b) (MkLeaders (elapse_store dt s) b).

(** A term that has not ended is backed by the lock. *)
Definition backed (key : string) (ttl : string → Z) (st : leaders) : Prop :=
  ∀ i d, l_term st !! i = Some d → (d ≤ l_now st + ttl i)%Z ∧
    ((l_now st < d)%Z → holds (ks (l_store st)) key i d).

Lemma acquireOrRenewCmd_spec key i ttl m :
  wps (acquireOrRenewCmd key i ttl)
    (λ r m', k_now m' = k_now m ∧
       if decide (k_str m !! key = None ∨ k_str m !! key = Some i)
       then r = 1%Z ∧ holds m' key i (k_now m + ttl)
       else r = 0%Z ∧ m' = m) m.
Proof.
  unfold acquireOrRenewCmd. wps_steps. destruct (k_str m !! key) as [v|] eqn:E; wps_steps.
  - case_bool_decide as Hv; wps_steps.
    + rewrite decide_True by (right; congruence). split_and!; [done|done|].
      split; [done|]. unfold do_pexpire. rewrite (key_exists_str _ _ _ E). simpl.
      rewrite lookup_insert_eq. eexists. split; [done|lia].
    + by rewrite decide_False by naive_solver.
  - rewrite decide_True by auto. split_and!; [done|done|]. by apply holds_setpx.
Qed.

Lemma resignCmd_spec key i m :
  wps (resignCmd key i)
    (λ _ m', k_now m' = k_now m ∧ (k_str m !! key ≠ Some i → m' = m)) m.
Proof. unfold resignCmd. wps_steps. case_bool_decide; by wps_steps. Qed.

(** An election leaves the locks of the other instances alone. *)
Lemma elected_backed key ttl i s s' b r :
  acquireOrRenewCmd key i (ttl i) s = (s', r) → backed key ttl (MkLeaders s b) →
  k_now (ks s') = k_now (ks s) ∧
  (r = 1%Z → holds (ks s') key i (k_now (ks s) + ttl i)) ∧
  backed key ttl (MkLeaders s' b).
Proof.
  intros E Hb. pose proof (acquireOrRenewCmd_spec key i (ttl i) (ks s) s eq_refl) as [Hn Hc].
  rewrite E in Hn, Hc; simpl in *.
  split_and!; [done|by case_decide; destruct Hc as [-> Hc]|].
  intros j d Hj. destruct (Hb j d Hj) as [Hd Hh]. unfold l_now in *; simpl in *.
  rewrite Hn. split; [done|]. intros Hlt. specialize (Hh Hlt) as Hh'.
  case_decide as Hk; [|by destruct Hc as [_ ->]].
  destruct Hc as [_ [Hv (e & He & Hle)]]. destruct Hh' as [Hv' _].
  assert (i = j) as -> by (destruct Hk; congruence).
  split; [done|]. exists e. split; [done|lia].
Qed.

Lemma leader_step_backed key ttl st st' :
  leader_step key ttl st st' → backed key ttl st → backed key ttl st'.
Proof.
  intros Hs Hb. destruct Hs as [i s s' b r E|i s s' b r E|i s s' b r E|dt s b Hdt].
  - destruct (elected_backed key ttl i s s' b r E Hb) as (Hn & Hi & Hb').
    intros j d. simpl. case_bool_decide as Hr.
    + rewrite lookup_insert. case_decide; [|apply Hb']. subst j. intros [= <-].
      unfold l_now; simpl. rewrite Hn. split; [lia|auto].
    + rewrite lookup_delete. case_decide; [done|apply Hb'].
  - by destruct (elected_backed key ttl i s s' b r E Hb) as (_ & _ & Hb').
  - pose proof (resignCmd_spec key i (ks s) s eq_refl) as [Hn Hm]. rewrite E in Hn, Hm.
    intros j d. simpl in *. rewrite lookup_delete. case_decide as Hij; [done|]. intros Hj.
    destruct (Hb j d Hj) as [Hd Hh]. unfold l_now in *; simpl in *. rewrite Hn.
    split; [done|]. intros Hlt. specialize (Hh Hlt). rewrite Hm; [done|].
    destruct Hh as [-> _]. congruence.
  - intros j d Hj. destruct (Hb j d Hj) as [Hd Hh]. unfold l_now in *; simpl in *.
    rewrite elapse_effect by done. simpl. split; [lia|]. intros Hlt.
    apply holds_elapse; [apply Hh; lia|lia].
Qed.

(** C21: at most one leader.  Whatever sequence of elections, resignations and
    waits the instances go through, with replies lost or not, two instances
    whose terms have not ended are the same instance, and the lock names it. *)
Theorem leader_exclusive key ttl s st i j d d' :
  rtc (leader_step key ttl) (MkLeaders s ∅) st →
  l_term st !! i = Some d → l_term st !! j = Some d' → (l_now st < d)%Z → (l_now st < d')%Z →
  i = j ∧ k_str (ks (l_store st)) !! key = Some i.
Proof.
  intros Hr Hi Hj Hd Hd'.
  assert (backed key ttl st) as Hb.
  { assert (backed key ttl (MkLeaders s ∅)) as H0 by done. revert H0.
    induction Hr as [|? ? ? Hs _ IH]; intros Hb; [done|].
    apply IH; [done..|]. by eapply leader_step_backed. }
  destruct (Hb i d Hi) as [_ [Hk _]]; [done|]. destruct (Hb j d' Hj) as [_ [Hk' _]]; [done|].
  split; [congruence|done].
Qed.

(** ** The last-fired record *)

#[local] Arguments mbind {_ _ _ _} _ _ : simpl never.

(** The record of the last firing reads back as written, to the second:
    a schedule's state survives a change of leader. *)
Theorem last_fired_roundtrip id t w :
  quiet w → in_int64 (Unix t) →
  let r := (SetLastFired K id t;; GetLastFired K id) w in
  r.2 = Ok (Some (Unix t * Second)%Z) ∧
  (Unix t * Second ≤ t < Unix t * Second + Second)%Z.
Proof.
  intros Hw Ht r. split.
  - subst r. change (wpm (SetLastFired K id t;; GetLastFired K id)
                       (λ r _, r = Ok (Some (Unix t * Second)%Z)) w).
    unfold SetLastFired, GetLastFired. apply wpm_bind, wpm_run_quiet; [done|].
    wps_steps. intros s' Hs'. apply wpm_bind, wpm_run_quiet; [done|].
    wps_steps. intros s'' _. rewrite wks_set_store, Hs'. simpl.
    rewrite lookup_insert_eq, ParseInt_itoa by done. by apply wpm_ret.
  - unfold Unix, Second. pose proof (Z.div_mod t 1000000000). pose proof (Z.mod_pos_bound t 1000000000). lia.
Qed.

End locks.

(** ** Concrete uses *)

Notation demo_store := (empty_keyspace : RefRedis.RefRedis.(store)).

Definition demo_lock : string := UniqueKey DefaultKeys "q" "d".

Definition demo_ops : list lock_op :=
  [Wait 5; Acquire "q" "t2" 10 "m"; Renew 20; Release "t2"; Acquire "p" "t3" 10 "m"].

Lemma unique_lock_exclusive_witness :
  let (s1, r1) := lock_do (R := RefRedis.RefRedis) DefaultKeys demo_lock
                    (Acquire "q" "t1" 10 "m") demo_store in
  let (s2, rs) := lock_run (R := RefRedis.RefRedis) DefaultKeys demo_lock demo_ops s1 in
  r1 = 1%Z ∧ Forall (λ r, r = (-1)%Z) rs ∧ k_str (ks s2) !! demo_lock = Some "t1" ∧
  k_str (ks (lock_do (R := RefRedis.RefRedis) DefaultKeys demo_lock (Release "t1") s2).1)
    !! demo_lock = None.
Proof.
  apply (unique_lock_exclusive (R := RefRedis.RefRedis) DefaultKeys demo_lock "q" "t1" 10 "m"
           demo_ops demo_store).
  - by vm_compute.
  - intros x Hx. apply (queueKey_inj DefaultKeys "q" x (KUnique "d")) in Hx. by exists "d".
  - by repeat constructor.
  - by vm_compute.
Defined.

Lemma renew_never_shortens_witness :
  wps (R := RefRedis.RefRedis) (renewUniqueCmd demo_lock 3)
    (λ _ m', k_str m' !! demo_lock = Some "t1" ∧
       ∃ e', k_exp m' !! demo_lock = Some e' ∧ (10 ≤ e')%Z)
    (do_setpx demo_lock "t1" 10 empty_keyspace).
Proof.
  eapply wps_mono.
  - apply (renew_never_shortens (R := RefRedis.RefRedis) demo_lock 3
             (do_setpx demo_lock "t1" 10 empty_keyspace)).
    intros e. vm_compute. by intros [= <-].
  - intros r m' (-> & _ & _ & He). split; [by vm_compute|].
    destruct (He 10%Z) as (e' & ? & ? & _); [by vm_compute..|]. eauto.
Defined.

Lemma trigger_fires_once_witness :
  match (fire_run (R := RefRedis.RefRedis) DefaultKeys
           (PeriodicDedupKey DefaultKeys "q" "e:1") "q" "e:1" 10
           [Pass 3; Fire "m"; Pass 2; Fire "m"; Fire "m"] demo_store).2 with
  | [] => True
  | r :: rs => r = 1%Z ∧ Forall (λ r, r = (-1)%Z) rs
  end.
Proof.
  apply (trigger_fires_once (R := RefRedis.RefRedis) DefaultKeys "e:1" "q" "e:1" 10).
  - by exists "chronos".
  - by apply (bool_decide_unpack (brace_free "q")).
  - by repeat constructor.
  - by vm_compute.
  - by vm_compute.
Defined.

Lemma leader_exclusive_witness :
  let st := MkLeaders (do_setpx "l" "a" 10 empty_keyspace : RefRedis.RefRedis.(store))
              {["a" := 10%Z]} in
  "a" = "a" ∧ k_str (ks (l_store st)) !! "l" = Some "a".
Proof.
  apply (leader_exclusive (R := RefRedis.RefRedis) "l" (λ _, 10%Z) demo_store
           (MkLeaders (do_setpx "l" "a" 10 empty_keyspace : RefRedis.RefRedis.(store))
              {["a" := 10%Z]}) "a" "a" 10%Z 10%Z).
  - apply rtc_once.
    apply (step_elect (R := RefRedis.RefRedis) "l" (λ _, 10%Z) "a" demo_store
             (do_setpx "l" "a" 10 empty_keyspace) ∅ 1%Z).
    by vm_compute.
  - by vm_compute.
  - by vm_compute.
  - by vm_compute.
  - by vm_compute.
Defined.

Lemma last_fired_roundtrip_witness :
  ((SetLastFired (R := RefRedis.RefRedis) DefaultKeys "s" 1500000000;;
   GetLastFired (R := RefRedis.RefRedis) DefaultKeys "s")
    (MkWorld demo_store [] 0 ∅)).2 = Ok (Some 1000000000%Z) ∧
  (1000000000 ≤ 1500000000 < 1000000000 + Second)%Z.
Proof.
  apply (last_fired_roundtrip (R := RefRedis.RefRedis) DefaultKeys "s" 1500000000
           (MkWorld demo_store [] 0 ∅)); [done|]. by vm_compute.
Defined.

End LockSpec.
