(* ===== verification/FlowSpec.v ===== *)
(** * Chains and groups: continuations are created exactly once

    A chain's next link is created if absent, so a redelivered predecessor
    creates nothing; a group's callback is created by the report that empties
    the SET of members not yet done, carrying the members' results in index
    order, whatever the order of the reports and however often they repeat. *)

From S2P Require Import Prelude GoLib Base Redis RedisFacts Client RdbCore RdbFlow Instances.
From S2P Require Import CoreSpec.
From Stdlib Require Import Ascii.

Module FlowSpec.
Import GoTime GoFloat GoStr Keys Task Redis RedisFacts Client RdbCore RdbFlow CoreSpec.

(** ** The group barrier *)

(** A report of a member: its slot in the SET, its index and its encoded
    result (empty: none). *)
Record report := MkReport {
  rp_slot : string;
  rp_index : Z;
  rp_result : string;
}.

(** The fixed arguments of a group's completion script. *)
Record group_args := MkGroupArgs {
  ga_group : string;
  ga_cbTask : string;
  ga_dest : string;
  ga_result : string;
  ga_encoded : string;
  ga_state : Z;
  ga_cbID : string;
  ga_mode : dest;
  ga_ttl : Z;
  ga_size : Z;
}.

Definition slots (l : list report) : gset string := list_to_set (map rp_slot l).

(** The results reported so far, by index as decimal digits. *)
Definition add_result (f : gmap string string) (r : report) : gmap string string :=
  if bool_decide (rp_result r = "") then f else <[itoa (rp_index r) := rp_result r]> f.

Definition results_of (l : list report) : gmap string string := foldl add_result ∅ l.

Lemma slots_app l l' : slots (l ++ l') = slots l ∪ slots l'.
Proof. unfold slots. by rewrite map_app, list_to_set_app_L. Qed.

Lemma slots_snoc l r : slots (l ++ [r]) = slots l ∪ {[rp_slot r]}.
Proof. rewrite slots_app. unfold slots at 2. simpl. by rewrite (right_id_L ∅ (∪)). Qed.

Lemma results_of_snoc l r : results_of (l ++ [r]) = add_result (results_of l) r.
Proof. apply foldl_snoc. Qed.

Section flow.
Context `{R : Redis} `{J : Json} (K : Keys).

Definition report_cmd (a : group_args) (r : report) : script Z :=
  groupCompleteCmd (ga_group a) (ga_cbTask a) (ga_dest a) (ga_result a) (rp_slot r)
    (ga_encoded a) (ga_state a) (ga_cbID a) (ga_mode a) (ga_ttl a)
    (rp_result r) (rp_index r) (ga_size a).

(** Reports of any members in any order, one after the other. *)
Fixpoint group_run (a : group_args) (l : list report) : script (list Z) :=
  match l with
  | [] => mret []
  | r :: l => x ← report_cmd a r; xs ← group_run a l; mret (x :: xs)
  end.

(** What the callback's body is once the members in [l] have reported. *)
Definition callback_body (a : group_args) (l : list report) : string :=
  if bool_decide (results_of l = ∅ ∨ ga_size a ≤ 0)%Z then ga_encoded a
  else cjsonSetGroupResults (ga_encoded a)
         (map (λ i, results_of l !! itoa (Z.of_nat i)) (seq 0 (Z.to_nat (ga_size a)))).

(** The barrier's state: who is missing, and the results so far. *)
Record gathered (a : group_args) (members : gset string) (l : list report) (m : keyspace)
    : Prop := MkGathered {
  gt_set : set_at m (ga_group a) = members ∖ slots l;
  gt_results : k_hash m !! ga_result a
               = if decide (results_of l = ∅) then None else Some (results_of l);
  gt_only : k_str m !! ga_result a = None ∧ k_set m !! ga_result a = None
            ∧ k_zset m !! ga_result a = None ∧ k_stream m !! ga_result a = None;
  gt_absent : key_exists m (ga_cbTask a) = false;
  gt_group : k_str m !! ga_group a = None ∧ k_hash m !! ga_group a = None
             ∧ k_zset m !! ga_group a = None ∧ k_stream m !! ga_group a = None;
}.

(** The barrier after it fired: the callback is stored and placed. *)
Record fired (a : group_args) (l : list report) (m : keyspace) : Prop := MkFired {
  fd_body : hget m (ga_cbTask a) "msg" = Some (callback_body a l);
  fd_state : hget m (ga_cbTask a) "state" = Some (itoa (ga_state a));
  fd_placed : match ga_mode a with
              | ToStream => ∃ e, (e, ga_cbID a) ∈ st_entries (stream_at m (ga_dest a))
              | ToZSet sc => zset_at m (ga_dest a) !! ga_cbID a = Some sc
              end;
  fd_gone : key_exists m (ga_group a) = false;
}.

(** The keys are those of one group on one queue. *)
Record args_ok (a : group_args) : Prop := MkArgsOk {
  ok_group_result : ga_group a ≠ ga_result a;
  ok_group_cb : ga_group a ≠ ga_cbTask a;
  ok_group_dest : ga_group a ≠ ga_dest a;
  ok_result_cb : ga_result a ≠ ga_cbTask a;
  ok_result_dest : ga_result a ≠ ga_dest a;
}.

Lemma key_exists_pexpire k ms m k' : key_exists (do_pexpire k ms m) k' = key_exists m k'.
Proof. done. Qed.

Lemma key_exists_of_set m k s : k_set m !! k = Some s → key_exists m k = true.
Proof. unfold key_exists. intros ->. by rewrite !orb_true_r. Qed.

Lemma add_result_nonempty f r :
  rp_result r ≠ "" → add_result f r ≠ ∅.
Proof. unfold add_result. intros ?. rewrite bool_decide_false by done. apply insert_non_empty. Qed.

(** Reading the results back, one index after the other. *)
Lemma readResults_spec key i n m :
  wps (readResults key i n)
    (λ l m', m' = m ∧ l = map (λ j, hget m key (itoa (i + Z.of_nat j))) (seq 0 n)) m.
Proof.
  revert i. induction n as [|n IH]; intros i; simpl; [by apply wps_ret|].
  apply wps_bind, wps_call. cbn [cmd_reply cmd_effect]. intros v ->.
  apply wps_bind. eapply wps_mono; [apply IH|]. intros vs m' [-> ->]. apply wps_ret.
  split; [done|]. rewrite Z.add_0_r. f_equal. rewrite <- seq_shift, map_map.
  apply map_ext. intros j. do 2 f_equal. lia.
Qed.

Lemma s_rem_ne k x s k' : k ≠ k' → s_rem k x s !! k' = s !! k'.
Proof.
  intros Hk. unfold s_rem. case_decide; [by rewrite lookup_delete_ne|by rewrite lookup_insert_ne].
Qed.

(** Whether a key exists depends on its own entries only. *)
Lemma key_exists_ext m m' k :
  k_str m' !! k = k_str m !! k → k_hash m' !! k = k_hash m !! k → k_set m' !! k = k_set m !! k →
  k_zset m' !! k = k_zset m !! k → k_stream m' !! k = k_stream m !! k →
  key_exists m' k = key_exists m k.
Proof. unfold key_exists. by intros -> -> -> -> ->. Qed.

Lemma key_exists_hset_ne k fvs m k' :
  k ≠ k' → key_exists (do_hset k fvs m) k' = key_exists m k'.
Proof. intros. apply key_exists_ext; [done|simpl|done..]. unfold h_set. by rewrite lookup_insert_ne. Qed.

Lemma key_exists_del k m k' :
  key_exists (del_key k m) k' = if decide (k = k') then false else key_exists m k'.
Proof.
  unfold key_exists; simpl. case_decide as E; [subst; by rewrite !lookup_delete_eq|].
  by rewrite !lookup_delete_ne by done.
Qed.

(** The first half of the script: the member leaves the SET and its result is
    kept. *)
Lemma gathered_srem a members l r m :
  args_ok a → gathered a members l m →
  gathered a members (l ++ [r])
    (if bool_decide (rp_result r = "") then do_srem (ga_group a) (rp_slot r) m
     else do_pexpire (ga_result a) (1000 * ga_ttl a)
            (do_hset (ga_result a) [(itoa (rp_index r), rp_result r)]
               (do_srem (ga_group a) (rp_slot r) m))).
Proof.
  intros [] [Hs Hr (H1 & H2 & H3 & H4) Ha (G1 & G2 & G3 & G4)].
  assert (set_at (do_srem (ga_group a) (rp_slot r) m) (ga_group a) = members ∖ slots (l ++ [r]))
    as Hset.
  { unfold set_at; simpl. rewrite s_at_rem, decide_True by done.
    change (set_at m (ga_group a) ∖ {[rp_slot r]} = members ∖ slots (l ++ [r])).
    rewrite Hs, slots_snoc. set_solver. }
  assert (key_exists (do_srem (ga_group a) (rp_slot r) m) (ga_cbTask a) = false) as Habs.
  { rewrite <- Ha. apply key_exists_ext; [done|done| |done|done]. by apply s_rem_ne. }
  destruct (bool_decide (rp_result r = "")) eqn:Hres.
  - assert (results_of (l ++ [r]) = results_of l) as E.
    { rewrite results_of_snoc. unfold add_result. by rewrite Hres. }
    constructor; rewrite ?E; [done|done| |done|done]. split_and!; [done| |done..].
    simpl. by rewrite s_rem_ne.
  - assert (results_of (l ++ [r]) = <[itoa (rp_index r) := rp_result r]> (results_of l)) as E.
    { rewrite results_of_snoc. unfold add_result. by rewrite Hres. }
    constructor; [done| | | |].
    + simpl. unfold h_set. rewrite lookup_insert_eq, E, decide_False by apply insert_non_empty.
      simpl. unfold h_at. rewrite Hr. by case_decide as E0; [rewrite E0|].
    + split_and!; [done| |done..]. simpl. by rewrite s_rem_ne.
    + rewrite key_exists_pexpire, key_exists_hset_ne by done. done.
    + split_and!; [done| |done..]. simpl. unfold h_set. by rewrite lookup_insert_ne.
Qed.

Lemma gathered_exists a members l m :
  gathered a members l m → members ⊈ slots l → key_exists m (ga_group a) = true.
Proof.
  intros [Hs _ _ _ _] Hm. unfold set_at, s_at in Hs.
  destruct (k_set m !! ga_group a) as [s|] eqn:E; [by eapply key_exists_of_set|].
  exfalso. by apply Hm, empty_difference_subseteq_L.
Qed.

Lemma gathered_left a members l m :
  gathered a members l m →
  (0 < Z.of_nat (size (set_at m (ga_group a))))%Z ↔ members ⊈ slots l.
Proof.
  intros [Hs _ _ _ _]. rewrite Hs. split.
  - intros Hlt Hsub. assert (members ∖ slots l = ∅) as E by set_solver.
    rewrite E, size_empty in Hlt. lia.
  - intros Hm. assert (size (members ∖ slots l) ≠ 0); [|lia].
    intros E%size_empty_inv%leibniz_equiv. by apply Hm, empty_difference_subseteq_L.
Qed.

Lemma gathered_result_exists a members l m :
  gathered a members l m →
  key_exists m (ga_result a) = negb (bool_decide (results_of l = ∅)) ∧
  ∀ f, hget m (ga_result a) f = results_of l !! f.
Proof.
  intros [_ Hr (H1 & H2 & H3 & H4) _ _]. split.
  - unfold key_exists. rewrite H1, H2, H3, H4, Hr.
    by destruct (decide (results_of l = ∅)) as [E|E];
      [rewrite (bool_decide_true (_ = _))|rewrite (bool_decide_false (_ = _))].
  - intros f. unfold hget, hash_at, h_at. rewrite Hr. by case_decide as E; [rewrite E|].
Qed.

Lemma gathered_exp a members l m f : gathered a members l m → gathered a members l (set_exp f m).
Proof. by intros [? ? ? ? ?]. Qed.

(** Creating the callback at its destination. *)
Lemma created_fired a l m :
  args_ok a → key_exists m (ga_group a) = false →
  let m1 := do_hset (ga_cbTask a) [("msg", callback_body a l); ("state", itoa (ga_state a))] m in
  match ga_mode a with
  | ToStream => ∀ e, fired a l (do_xadd (ga_dest a) e (ga_cbID a) m1)
  | ToZSet sc => fired a l (do_zadd (ga_dest a) sc (ga_cbID a) m1)
  end.
Proof.
  intros [_ O2 O3 _ _] Hgone m1.
  assert (∀ m', k_hash m' = k_hash m1 →
    hget m' (ga_cbTask a) "msg" = Some (callback_body a l) ∧
    hget m' (ga_cbTask a) "state" = Some (itoa (ga_state a))) as Hcb.
  { intros m' E. unfold hget, hash_at. rewrite E. subst m1. simpl.
    rewrite h_at_set, decide_True by done. simpl. by rewrite lookup_insert_ne, !lookup_insert_eq by done. }
  assert (key_exists m1 (ga_group a) = false) as Hgone1 by (by unfold m1; rewrite key_exists_hset_ne).
  destruct (ga_mode a) as [|sc] eqn:Emode; [intros e|]; (constructor; [by apply Hcb|by apply Hcb| |]);
    rewrite ?Emode.
  - exists e. unfold stream_at; simpl. rewrite x_at_add, decide_True by done. simpl. set_solver.
  - rewrite <- Hgone1. apply key_exists_ext; [done..|]. simpl. unfold x_add.
    by rewrite lookup_insert_ne by done.
  - unfold zset_at; simpl. rewrite z_at_add, decide_True by done. by rewrite lookup_insert_eq.
  - rewrite <- Hgone1. apply key_exists_ext; [done..| |done]. simpl. unfold z_add.
    by rewrite lookup_insert_ne by done.
Qed.

(** One report while somebody is missing. *)
Lemma report_cmd_spec a members l r m :
  args_ok a → gathered a members l m → members ⊈ slots l →
  wps (report_cmd a r)
    (λ x m', if decide (members ⊆ slots (l ++ [r]))
             then x = 1%Z ∧ fired a (l ++ [r]) m'
             else x = 0%Z ∧ gathered a members (l ++ [r]) m') m.
Proof.
  intros Hok Hg Hm. unfold report_cmd, groupCompleteCmd. wps_steps.
  rewrite (gathered_exists a members l m) by done. simpl. wps_steps.
  pose proof (gathered_srem a members l r m Hok Hg) as Hg1.
  eapply (wps_mono _ (λ _, gathered a members (l ++ [r]))).
  { case_bool_decide; wps_steps; [done|]. unfold expire. by wps_steps. }
  clear Hg. intros _ m1 Hg. clear Hg1 m.
  pose proof (gathered_left _ _ _ _ Hg) as Hleft.
  destruct (gathered_result_exists _ _ _ _ Hg) as [Hex Hget].
  wps_steps. destruct (decide (members ⊆ slots (l ++ [r]))) as [Hall|Hmiss].
  - rewrite bool_decide_false by (rewrite Hleft; auto). wps_steps. rewrite Hex.
    apply (wps_mono _ (λ cb m', m' = m1 ∧ cb = callback_body a (l ++ [r]))).
    { unfold callback_body. destruct (decide (results_of (l ++ [r]) = ∅)) as [E|E].
      - rewrite (bool_decide_true (results_of _ = _)) by done. simpl. wps_steps.
        by rewrite bool_decide_true by auto.
      - rewrite (bool_decide_false (results_of _ = _)) by done. simpl.
        destruct (decide (0 < ga_size a)%Z) as [Hsz|Hsz];
          [rewrite bool_decide_true by done|rewrite bool_decide_false by done].
        + wps_steps. eapply wps_mono; [apply readResults_spec|]. intros rs m' [-> ->].
          wps_steps. split; [done|]. rewrite bool_decide_false by (intros [?|?]; [done|lia]).
          f_equal. apply map_ext. intros j. rewrite Hget. do 2 f_equal. 
        + wps_steps. by rewrite bool_decide_true by (right; lia). }
    intros cb m' [-> ->]. wps_steps. destruct Hg as [_ _ _ Habs _], Hok as [O1 O2 O3 O4 O5].
    assert (key_exists (del_key (ga_result a) (del_key (ga_group a) m1)) (ga_cbTask a) = false)
      as Habs'.
    { rewrite !key_exists_del. by repeat case_decide. }
    rewrite Habs'. wps_steps.
    pose proof (created_fired a (l ++ [r]) (del_key (ga_result a) (del_key (ga_group a) m1))
                  (MkArgsOk a O1 O2 O3 O4 O5)) as Hcr.
    assert (key_exists (del_key (ga_result a) (del_key (ga_group a) m1)) (ga_group a) = false)
      as Hgone.
    { rewrite !key_exists_del. by repeat case_decide. }
    specialize (Hcr Hgone).
    destruct (ga_mode a) as [|sc]; wps_steps; rewrite ?decide_True by done; auto.
  - rewrite bool_decide_true by (by apply Hleft). unfold expire. wps_steps.
    case_match; wps_steps; (split; [done|]); by repeat apply gathered_exp.
Qed.

(** Once the callback exists and the SET is gone, a report changes nothing. *)
Lemma report_cmd_late a l r m :
  fired a l m → wps (report_cmd a r) (λ x m', x = 0%Z ∧ m' = m) m.
Proof.
  intros Hf. unfold report_cmd, groupCompleteCmd. wps_steps.
  rewrite (fd_gone _ _ _ Hf). by wps_steps.
Qed.

Lemma group_run_late a l l' m :
  fired a l m → wps (group_run a l') (λ xs m', xs = replicate (length l') 0%Z ∧ m' = m) m.
Proof.
  intros Hf. induction l' as [|r l' IH]; simpl; [by apply wps_ret|].
  apply wps_bind. eapply wps_mono; [by eapply report_cmd_late|]. intros x m' [-> ->].
  apply wps_bind. eapply wps_mono; [apply IH|]. intros xs m' [-> ->]. by apply wps_ret.
Qed.

(** The reports [l'], after [l] have been received. *)
Lemma group_run_spec a members l l' m :
  args_ok a → gathered a members l m → members ⊈ slots l →
  wps (group_run a l')
    (λ xs m',
      (members ⊈ slots (l ++ l') → xs = replicate (length l') 0%Z
         ∧ gathered a members (l ++ l') m') ∧
      (∀ l1 r l2, l' = l1 ++ r :: l2 → members ⊈ slots (l ++ l1) →
         members ⊆ slots (l ++ l1 ++ [r]) →
         xs = replicate (length l1) 0%Z ++ 1%Z :: replicate (length l2) 0%Z
         ∧ fired a (l ++ l1 ++ [r]) m')) m.
Proof.
  intros Hok. revert l m. induction l' as [|r l' IH]; intros l m Hg Hm; simpl.
  { apply wps_ret. rewrite app_nil_r. split; [done|]. by intros []. }
  apply wps_bind. eapply wps_mono; [by eapply report_cmd_spec|]. intros x m1 Hx.
  assert (∀ k, l ++ r :: k = (l ++ [r]) ++ k) as Happ by (intros; by rewrite <- app_assoc).
  case_decide as Hall; destruct Hx as [-> Hx]; apply wps_bind.
  - eapply wps_mono; [by eapply group_run_late|]. intros xs m' [-> ->]. apply wps_ret. split.
    + intros Hmiss. exfalso. apply Hmiss. rewrite Happ. etrans; [exact Hall|].
      rewrite (slots_app (l ++ [r])). apply union_subseteq_l.
    + intros [|r1 l1] r' l2 [= -> ->]; simpl; [done|]. intros Hmiss. exfalso. apply Hmiss.
      rewrite Happ. etrans; [exact Hall|].
      rewrite (slots_app (l ++ [r1])). apply union_subseteq_l.
  - eapply wps_mono; [by apply (IH (l ++ [r]))|]. intros xs m' [H1 H2]. apply wps_ret. split.
    + rewrite Happ. intros Hmiss. destruct (H1 Hmiss) as [-> ?]. done.
    + intros [|r1 l1] r' l2 [= -> ->]; simpl; [done|]. rewrite (Happ l1), (Happ (l1 ++ [r'])).
      intros Hmiss Hc.
      by destruct (H2 l1 r' l2 eq_refl Hmiss Hc) as [-> ?].
Qed.

(** C22: the fan-in barrier.  Starting from the SET of a group's members, let
    the members report in any order, any number of times.  While somebody is
    missing no callback is created.  The report that completes the set
    creates the callback, and exactly that one: it answers 1 and all others
    0; the callback is stored with its state, carries the results in index
    order, is placed in the stream or, delayed, in the ZSET, and the group's
    SET is gone. *)
Theorem group_callback_once a members reports m :
  args_ok a → members ≠ ∅ → gathered a members [] m →
  wps (group_run a reports)
    (λ xs m',
      (members ⊈ slots reports → xs = replicate (length reports) 0%Z
         ∧ set_at m' (ga_group a) = members ∖ slots reports
         ∧ key_exists m' (ga_cbTask a) = false) ∧
      (∀ l1 r l2, reports = l1 ++ r :: l2 → members ⊈ slots l1 → members ⊆ slots (l1 ++ [r]) →
         xs = replicate (length l1) 0%Z ++ 1%Z :: replicate (length l2) 0%Z
         ∧ fired a (l1 ++ [r]) m')) m.
Proof.
  intros Hok Hne Hg. eapply wps_mono.
  { apply (group_run_spec a members []); [done|done|]. unfold slots. simpl. set_solver. }
  intros xs m' [H1 H2]. split; [|done]. intros Hm. destruct (H1 Hm) as [-> [? _ _ ? _]]. done.
Qed.

(** ** Chains *)

#[local] Arguments mbind {_ _ _ _} _ _ : simpl never.

(** Nothing but the given keys has changed, as far as hashes, SETs and the
    existence of keys go. *)
Definition untouched (keys : list string) (m m' : keyspace) : Prop :=
  ∀ k, k ∉ keys →
    hash_at m' k = hash_at m k ∧ set_at m' k = set_at m k ∧ key_exists m' k = key_exists m k.

Lemma untouched_trans keys m1 m2 m3 :
  untouched keys m1 m2 → untouched keys m2 m3 → untouched keys m1 m3.
Proof.
  intros H1 H2 k Hk. destruct (H1 k Hk) as (<- & <- & <-). by apply H2.
Qed.

Lemma untouched_weaken keys keys' m m' : keys ⊆ keys' → untouched keys m m' → untouched keys' m m'.
Proof. intros Hs H k Hk. apply H. set_solver. Qed.

Lemma untouched_hset k fvs m : untouched [k] m (do_hset k fvs m).
Proof.
  intros k' Hk'. assert (k ≠ k') by set_solver. split_and!; [|done|by apply key_exists_hset_ne].
  unfold hash_at. cbn [do_hset set_hash k_hash]. by rewrite h_at_set, decide_False.
Qed.

Lemma untouched_xadd k e x m : untouched [k] m (do_xadd k e x m).
Proof.
  intros k' Hk'. split_and!; [done..|]. apply key_exists_ext; try done. simpl. unfold x_add.
  rewrite lookup_insert_ne by set_solver. done.
Qed.

Lemma untouched_zadd k sc x m : untouched [k] m (do_zadd k sc x m).
Proof.
  intros k' Hk'. split_and!; [done..|]. apply key_exists_ext; try done. simpl. unfold z_add.
  rewrite lookup_insert_ne by set_solver. done.
Qed.

Lemma untouched_sadd k xs m : untouched [k] m (do_sadd k xs m).
Proof.
  intros k' Hk'. assert (k ≠ k') by set_solver. split_and!; [done| |].
  - unfold set_at. cbn [do_sadd set_set k_set]. by rewrite s_at_add, decide_False.
  - apply key_exists_ext; try done. simpl. unfold s_add. by rewrite lookup_insert_ne.
Qed.

(** The keys the creation of a task may touch. *)
Definition task_keys (q T : string) : list string :=
  [TaskKey K q T; StreamKey K q; ScheduledKey K q; QueuesKey K].

(** The body and the place of a stored link. *)
Definition link_created (q T : string) (encoded : string) (state : Z) (sc : option score)
    (m m' : keyspace) : Prop :=
  untouched (task_keys q T) m m' ∧
  hget m' (TaskKey K q T) "msg" = Some encoded ∧
  hget m' (TaskKey K q T) "state" = Some (itoa state) ∧
  match sc with
  | None => ∃ e, st_entries (stream_at m' (StreamKey K q))
                 = st_entries (stream_at m (StreamKey K q)) ++ [(e, T)]
  | Some sc => zset_at m' (ScheduledKey K q) !! T = Some sc
  end.

Lemma chainEnqueueCmd_spec q T encoded state m :
  wps (chainEnqueueCmd (TaskKey K q T) (StreamKey K q) encoded state T)
    (λ r m', if key_exists m (TaskKey K q T) then r = 0%Z ∧ m' = m
             else r = 1%Z ∧ link_created q T encoded state None m m') m.
Proof.
  unfold chainEnqueueCmd. wps_steps. destruct (key_exists m (TaskKey K q T)); wps_steps; [done|].
  split; [done|]. split.
  { eapply untouched_trans; eapply untouched_weaken, untouched_hset || eapply untouched_weaken, untouched_xadd;
      set_solver. }
  unfold hget, hash_at, stream_at. cbn [do_xadd do_hset set_stream set_hash k_hash k_stream].
  rewrite h_at_set, decide_True, x_at_add, decide_True by done. simpl.
  rewrite lookup_insert_ne, !lookup_insert_eq by done. eauto.
Qed.

Lemma chainScheduleCmd_spec q T encoded state sc m :
  wps (chainScheduleCmd (TaskKey K q T) (ScheduledKey K q) encoded state sc T)
    (λ r m', if key_exists m (TaskKey K q T) then r = 0%Z ∧ m' = m
             else r = 1%Z ∧ link_created q T encoded state (Some sc) m m') m.
Proof.
  unfold chainScheduleCmd. wps_steps. destruct (key_exists m (TaskKey K q T)); wps_steps; [done|].
  split; [done|]. split.
  { eapply untouched_trans; eapply untouched_weaken, untouched_hset || eapply untouched_weaken, untouched_zadd;
      set_solver. }
  unfold hget, hash_at, zset_at. cbn [do_zadd do_hset set_zset set_hash k_hash k_zset].
  rewrite h_at_set, decide_True, z_at_add, decide_True by done. simpl.
  rewrite lookup_insert_ne, !lookup_insert_eq by done. eauto.
Qed.

(** The link as [EnqueueChainLink] stores it. *)
Definition link_state (delay : Z) : Z :=
  if bool_decide (0 < delay)%Z then StateScheduled else StatePending.
Definition link_score (now delay : Z) : option score :=
  if bool_decide (0 < delay)%Z then Some (ofInt (Unix (now + delay))) else None.

(** A link is the same before and after its queue is registered. *)
Lemma link_created_index q T encoded state sc m1 m m' ks :
  (m1 = m ∨ m1 = do_sadd (QueuesKey K) ks m) →
  link_created q T encoded state sc m1 m' → link_created q T encoded state sc m m'.
Proof.
  intros [-> | ->]; [done|]. intros [Hf H]. split; [|done].
  eapply untouched_trans; [|exact Hf]. eapply untouched_weaken, untouched_sadd. set_solver.
Qed.

Lemma task_exists_index q T ks m m1 :
  valid_keys K → (m1 = m ∨ m1 = do_sadd (QueuesKey K) ks m) →
  key_exists m1 (TaskKey K q T) = key_exists m (TaskKey K q T).
Proof.
  intros HK [-> | ->]; [done|]. apply key_exists_ext; try done. simpl. unfold s_add.
  rewrite lookup_insert_ne; [done|]. intros E. symmetry in E.
  by apply (queueKey_not_global K q (KTask T) "queues") in E.
Qed.

Lemma EnqueueChainLink_quiet msg delay (Q : result bool → world → Prop) w :
  valid_keys K → quiet w →
  let q := m_Queue msg in let T := m_ID msg in
  let ex := key_exists (wks w) (TaskKey K q T) in
  (∀ w', quiet w' →
     (if ex then wks w' = wks w ∨ wks w' = do_sadd (QueuesKey K) [q] (wks w)
      else link_created q T (EncodeMessage (with_State (link_state delay) msg))
             (link_state delay) (link_score (w_clock w) delay) (wks w) (wks w')) →
     Q (Ok (negb ex)) w') →
  wpm (EnqueueChainLink K msg delay) Q w.
Proof.
  intros HK Hw q T ex HQ. unfold EnqueueChainLink. apply wpm_bind, registerQueue_quiet; [done|].
  intros w1 Hw1 Hclk Hm1. pose proof (task_exists_index q T _ _ _ HK Hm1) as Eex.
  unfold link_state, link_score in HQ.
  case_bool_decide as Hd.
  - apply wpm_bind, wpm_now, wpm_bind, wpm_run_quiet; [done|].
    eapply wps_mono; [apply chainScheduleCmd_spec|]. intros r m' Hr s' Hs'. apply wpm_ret.
    cbv beta in Hr. match type of Hr with if ?b then _ else _ =>
      change b with (key_exists (wks w1) (TaskKey K q T)) in Hr end. rewrite Eex in Hr. fold ex in Hr. rewrite Hclk in Hr.
    destruct ex; destruct Hr as [-> Hr]; apply (HQ (set_store s' w1)); try done;
      rewrite wks_set_store, Hs'; [by rewrite Hr|]. by eapply link_created_index.
  - apply wpm_bind, wpm_run_quiet; [done|].
    eapply wps_mono; [apply chainEnqueueCmd_spec|]. intros r m' Hr s' Hs'. apply wpm_ret.
    cbv beta in Hr. match type of Hr with if ?b then _ else _ =>
      change b with (key_exists (wks w1) (TaskKey K q T)) in Hr end. rewrite Eex in Hr. fold ex in Hr.
    destruct ex; destruct Hr as [-> Hr]; apply (HQ (set_store s' w1)); try done;
      rewrite wks_set_store, Hs'; [by rewrite Hr|]. by eapply link_created_index.
Qed.

(** C23: a chain's next link is created exactly once.  If it does not exist,
    the call creates it (body, state, and its place: the stream, or for a
    delayed link the ZSET with the delay counted from now) and says so; any
    further call, whatever its delay, says it exists and changes nothing of
    the queue's data. *)
Theorem chain_link_once msg delay delay' w :
  valid_keys K → quiet w →
  let q := m_Queue msg in let T := m_ID msg in
  key_exists (wks w) (TaskKey K q T) = false →
  let r1 := EnqueueChainLink K msg delay w in
  let r2 := EnqueueChainLink K msg delay' r1.1 in
  r1.2 = Ok true ∧
  link_created q T (EncodeMessage (with_State (link_state delay) msg))
    (link_state delay) (link_score (w_clock w) delay) (wks w) (wks r1.1) ∧
  r2.2 = Ok false ∧
  (wks r2.1 = wks r1.1 ∨ wks r2.1 = do_sadd (QueuesKey K) [q] (wks r1.1)).
Proof.
  intros HK Hw q T Hfree r1 r2.
  assert (quiet r1.1 ∧ r1.2 = Ok true ∧
    link_created q T (EncodeMessage (with_State (link_state delay) msg))
      (link_state delay) (link_score (w_clock w) delay) (wks w) (wks r1.1)) as (Hq1 & H1 & H2).
  { apply (EnqueueChainLink_quiet msg delay (λ r w', quiet w' ∧ r = Ok true ∧
      link_created q T (EncodeMessage (with_State (link_state delay) msg))
        (link_state delay) (link_score (w_clock w) delay) (wks w) (wks w'))); [done..|].
    fold q T. rewrite Hfree. by intros w' Hw' Hc. }
  split; [done|]. split; [done|].
  assert (key_exists (wks r1.1) (TaskKey K q T) = true) as Hex
    by (destruct H2 as (_ & Hb & _); by eapply key_exists_hget).
  apply (EnqueueChainLink_quiet msg delay' (λ r w', r = Ok false ∧
    (wks w' = wks r1.1 ∨ wks w' = do_sadd (QueuesKey K) [q] (wks r1.1)))); [done..|].
  fold q T. rewrite Hex. by intros w' Hw' Hc.
Qed.

End flow.

Definition demo_args : group_args :=
  MkGroupArgs (GroupKey DefaultKeys "q" "g") (TaskKey DefaultKeys "q" "g:cb")
    (StreamKey DefaultKeys "q") (GroupResultKey DefaultKeys "q" "g")
    "cb" StatePending "g:cb" ToStream 60 2.

Definition demo_members : keyspace :=
  do_sadd (GroupKey DefaultKeys "q" "g") ["a"; "b"] empty_keyspace.

Definition demo_reports : list report :=
  [MkReport "b" 1 "Qg=="; MkReport "b" 1 "Qg=="; MkReport "a" 0 ""; MkReport "a" 0 ""].

Lemma group_callback_once_witness :
  wps (R := RefRedis.RefRedis) (group_run (J := RefJson.RefJson) demo_args demo_reports)
    (λ xs _, xs = [0; 0; 1; 0]%Z) demo_members.
Proof.
  eapply wps_mono.
  - apply (group_callback_once (R := RefRedis.RefRedis) (J := RefJson.RefJson)
             demo_args {["a"; "b"]} demo_reports demo_members).
    + by split; intros E; vm_compute in E.
    + by refine (bool_decide_unpack _ _); vm_compute.
    + by split; vm_compute.
  - intros xs m' [_ H].
    destruct (H (take 2 demo_reports) (MkReport "a" 0 "") [MkReport "a" 0 ""]) as [-> _];
      [done|by refine (bool_decide_unpack _ _); vm_compute..|done].
Defined.

Lemma chain_link_once_witness :
  let w := MkWorld (R := RefRedis.RefRedis) empty_keyspace [] 0 ∅ in
  let r1 := EnqueueChainLink (J := RefJson.RefJson) DefaultKeys demo_msg 5000000000 w in
  let r2 := EnqueueChainLink (J := RefJson.RefJson) DefaultKeys demo_msg 0 r1.1 in
  r1.2 = Ok true ∧ r2.2 = Ok false.
Proof.
  destruct (chain_link_once (R := RefRedis.RefRedis) (J := RefJson.RefJson)
              DefaultKeys demo_msg 5000000000 0
              (MkWorld (R := RefRedis.RefRedis) empty_keyspace [] 0 ∅)) as (H1 & _ & H2 & _).
  - by exists "chronos".
  - done.
  - by vm_compute.
  - done.
Defined.

End FlowSpec.
