(* ===== verification/Processes.v ===== *)
(** * When Go code is safe beside other processes

    [safe], or [fine] when nothing is said of the result, means that a
    program, whatever happens between its commands and whatever its round
    trips answer, makes only steps of the abstract system of [Lifecycle].
    The file defines it, with what a process knows (the entries it was
    handed) and what stored bodies must satisfy, and proves its composition
    rules; [Programs] applies them to every operation, and [Concurrent]
    concludes for the system of many goroutines. *)

From S2P Require Import Prelude GoLib Base Redis RedisFacts Client.
From S2P Require Import RdbCore RdbLocks RdbFlow RdbAdmin Instances Lifecycle.
From S2P Require Import Handler Server Options Builder.
From Stdlib Require Import Ascii.

Module Processes.
Import GoTime GoFloat GoStr Utf8 Keys Task Redis RedisFacts Client.
Import RdbCore RdbLocks RdbFlow RdbAdmin Lifecycle Handler.

#[local] Arguments mbind {_ _ _ _} _ _ : simpl never.

Section processes.
Context `{R : Redis} `{J : Json} (K : Keys).

(** ** Well-addressed messages

    The program finds a task's keys from the queue and the ID inside its
    message, so a stored body must name the queue and the ID it is stored
    under.  The names must survive JSON and keep the hash tag intact. *)

Definition ok_link (l : ChainLink) : Prop :=
  brace_free (cl_Queue l) ∧ Forall (λ g, brace_free (gm_Queue g)) (cl_Group l).

Definition ok_lock (s : string) : Prop :=
  s = "" ∨ ∃ q suf, brace_free q ∧ s = UniqueKey K q suf.

Record ok_msg (m : TaskMessage) : Prop := MkOkMsg {
  ok_utf8 : utf8_msg (with_LastErr "" m) = true;
  ok_queue : brace_free (m_Queue m);
  ok_unique : ok_lock (m_UniqueKey m);
  ok_chain : Forall ok_link (m_Chain m);
  ok_callback : ∀ l, m_GroupCallback m = Some l → ok_link l;
  ok_cbchain : Forall ok_link (m_GroupCallbackChain m);
}.

(** The demand on stored bodies. *)
Definition addressed (q T b : string) : Prop :=
  ∀ m, DecodeMessage b = Some m → m_Queue m = q ∧ m_ID m = T ∧ ok_msg m.

(** Only the text of the last error may change in JSON. *)
Lemma ok_sanitize m : ok_msg m → sanitize_msg m = with_LastErr (sanitize (m_LastErr m)) m.
Proof.
  intros [Hu _ _ _ _ _]. apply sanitize_msg_valid in Hu.
  transitivity (with_LastErr (sanitize (m_LastErr m)) (sanitize_msg (with_LastErr "" m))).
  - done.
  - by rewrite Hu.
Qed.

Lemma ok_LastErr v m : ok_msg m → ok_msg (with_LastErr v m).
Proof. by intros []. Qed.

Lemma addressed_encode m : ok_msg m → addressed (m_Queue m) (m_ID m) (EncodeMessage m).
Proof.
  intros Hm m'. unfold DecodeMessage, EncodeMessage. rewrite Unmarshal_Marshal, ok_sanitize by done.
  intros [= <-]. split_and!; [done|done|by apply ok_LastErr].
Qed.

Lemma addressed_results m rs :
  ok_msg m → rs ≠ [] → addressed (m_Queue m) (m_ID m) (cjsonSetGroupResults (EncodeMessage m) rs).
Proof.
  intros Hm Hrs m' Hd. apply Unmarshal_cjson_inv in Hd as [l ->]; [|done].
  rewrite ok_sanitize by done. split_and!; [done|done|]. by destruct Hm.
Qed.

(** Fields that do not matter. *)
Lemma ok_State v m : ok_msg m → ok_msg (with_State v m).
Proof. by intros []. Qed.
Lemma ok_Retried v m : ok_msg m → ok_msg (with_Retried v m).
Proof. by intros []. Qed.
Lemma ok_CompletedAt v m : ok_msg m → ok_msg (with_CompletedAt v m).
Proof. by intros []. Qed.
Lemma ok_Retention v m : ok_msg m → ok_msg (with_Retention v m).
Proof. by intros []. Qed.
Lemma ok_Result v m : ok_msg m → ok_msg (with_Result v m).
Proof. by intros []. Qed.

(** ** Safe programs

    [safe p Φ C O]: run from any point at which the system knows at least
    the claims [C] and the orphans [O], interleaved with anything the system
    can do, [p] makes only steps of the system, and what it returns satisfies
    [Φ] for what is known by then. *)

Abbreviation knowledge := (gset claim_t).
Abbreviation post X := (X → knowledge → knowledge → Prop).
Abbreviation Inv' := (Inv K addressed).
Abbreviation step' := (step K addressed).

Definition does {X} (p : script X) (Φ : post X) (C O : knowledge) : Prop :=
  ∀ s C0 O0, C ⊆ C0 → O ⊆ O0 → Inv' (ks s) C0 O0 →
    ∃ C1 O1, rtc step' (MkSys s C0 O0) (MkSys (p s).1 C1 O1) ∧ C0 ⊆ C1 ∧ O0 ⊆ O1
             ∧ Φ (p s).2 C1 O1.

Fixpoint does_all {X} (ps : list (script X)) (Φ : post (list X)) (C O : knowledge) : Prop :=
  match ps with
  | [] => ∀ C1 O1, C ⊆ C1 → O ⊆ O1 → Φ [] C1 O1
  | p :: ps => does p (λ x, does_all ps (λ l, Φ (x :: l))) C O
  end.

Definition always {X} (x : X) (Φ : post X) (C O : knowledge) : Prop :=
  ∀ C1 O1, C ⊆ C1 → O ⊆ O1 → Φ x C1 O1.

Definition safe_op {X} (o : op X) : post X → knowledge → knowledge → Prop :=
  match o in op X return post X → knowledge → knowledge → Prop with
  | Trip p => λ Φ C O, does p Φ C O ∧ always (Err ErrNet) Φ C O
  | Pipe ps => λ Φ C O, does_all ps (λ l, Φ (Ok l)) C O ∧ always (Err ErrNet) Φ C O
  | Clock => λ Φ C O, ∀ t, always t Φ C O
  | Knows q => λ Φ C O, ∀ b, always b Φ C O
  | Learn q => λ Φ C O, always () Φ C O
  | Sleep ms => λ Φ C O, always () Φ C O
  end.

Fixpoint safe {A} (p : M A) (Φ : post (result A)) : knowledge → knowledge → Prop :=
  match p with
  | Return r => always r Φ
  | Do o k => safe_op o (λ x, safe (k x) Φ)
  end.

(** *** Structural rules *)

Definition grows {X : Type} (C O : knowledge) (Φ Φ' : post X) : Prop :=
  ∀ x C1 O1, C ⊆ C1 → O ⊆ O1 → Φ x C1 O1 → Φ' x C1 O1.

Lemma does_mono {X} (p : script X) Φ Φ' C O C' O' :
  does p Φ C O → C ⊆ C' → O ⊆ O' → grows C' O' Φ Φ' → does p Φ' C' O'.
Proof.
  intros Hp HC HO HΦ s C0 O0 HC0 HO0 HI.
  destruct (Hp s C0 O0) as (C1 & O1 & Hs & ? & ? & ?); [set_solver|set_solver|done|].
  exists C1, O1. split_and!; [done..|]. apply HΦ; [set_solver|set_solver|done].
Qed.

Lemma always_mono {X} (x : X) Φ Φ' C O C' O' :
  always x Φ C O → C ⊆ C' → O ⊆ O' → grows C' O' Φ Φ' → always x Φ' C' O'.
Proof.
  intros Hx HC HO HΦ C1 O1 HC1 HO1. apply HΦ; [done|done|].
  apply Hx; by etrans.
Qed.

Lemma does_all_mono {X} (ps : list (script X)) Φ Φ' C O C' O' :
  does_all ps Φ C O → C ⊆ C' → O ⊆ O' → grows C' O' Φ Φ' → does_all ps Φ' C' O'.
Proof.
  revert Φ Φ' C O C' O'. induction ps as [|p ps IH]; intros Φ Φ' C O C' O' Hp HC HO HΦ.
  - by eapply (always_mono [] Φ Φ').
  - eapply does_mono; [exact Hp|done|done|]. intros x C1 O1 HC1 HO1 H1. simpl in *.
    eapply IH; [exact H1|done|done|]. intros l C2 O2 HC2 HO2. apply HΦ; by etrans.
Qed.

Lemma safe_op_mono {X} (o : op X) Φ Φ' C O C' O' :
  safe_op o Φ C O → C ⊆ C' → O ⊆ O' → grows C' O' Φ Φ' → safe_op o Φ' C' O'.
Proof.
  destruct o; simpl; intros Ho HC HO HΦ.
  - destruct Ho. split; [by eapply does_mono|by eapply always_mono].
  - destruct Ho. split; [|by eapply always_mono].
    eapply does_all_mono; [done..|]. intros l C1 O1. apply HΦ.
  - intros t. by eapply always_mono.
  - intros b. by eapply always_mono.
  - by eapply always_mono.
  - by eapply always_mono.
Qed.

Lemma safe_mono {A} (p : M A) Φ Φ' C O C' O' :
  safe p Φ C O → C ⊆ C' → O ⊆ O' → grows C' O' Φ Φ' → safe p Φ' C' O'.
Proof.
  revert C O C' O'. induction p as [r|X o k IH]; simpl; intros C O C' O' Hp HC HO HΦ.
  - by eapply always_mono.
  - eapply safe_op_mono; [done..|]. intros x C1 O1 HC1 HO1 H1.
    eapply IH; [exact H1|done|done|]. intros r C2 O2 HC2 HO2. apply HΦ; by etrans.
Qed.

Lemma safe_ret {A} (a : A) (Φ : post (result A)) C O :
  always (Ok a) Φ C O → safe (mret a) Φ C O.
Proof. done. Qed.

Lemma safe_bind {A B} (p : M A) (f : A → M B) Φ C O :
  safe p (λ r, match r with Ok a => safe (f a) Φ | Err e => always (Err e) Φ end) C O →
  safe (p ≫= f) Φ C O.
Proof.
  revert C O. induction p as [[a|e]|X o k IH]; intros C O.
  - intros H. by apply (H C O).
  - intros H C1 O1 HC HO. by apply (H C O).
  - intros H. change (safe_op o (λ x, safe (k x ≫= f) Φ) C O).
    eapply safe_op_mono; [exact H|done|done|]. intros x C1 O1 _ _. apply IH.
Qed.

Lemma safe_try {A} (p : M A) Φ C O :
  safe p (λ r, Φ (Ok r)) C O → safe (try p) Φ C O.
Proof.
  revert C O. induction p as [r|X o k IH]; intros C O; [done|].
  intros H. change (safe_op o (λ x, safe (try (k x)) Φ) C O).
  eapply safe_op_mono; [exact H|done|done|]. intros x C1 O1 _ _. apply IH.
Qed.

Lemma safe_wrap_err {A} prefix (p : M A) Φ C O :
  safe p (λ r, Φ (match r with Ok a => Ok a | Err e => Err (ErrWrapped prefix e) end)) C O →
  safe (wrap_err prefix p) Φ C O.
Proof.
  revert C O. induction p as [[a|e]|X o k IH]; intros C O; [done|done|].
  intros H. change (safe_op o (λ x, safe (wrap_err prefix (k x)) Φ) C O).
  eapply safe_op_mono; [exact H|done|done|]. intros x C1 O1 _ _. apply IH.
Qed.

(** *** Programs with nothing to say about their result *)

Definition anything {X : Type} : post X := λ _ _ _, True.

Definition fine {A} (p : M A) (C O : knowledge) : Prop := safe p anything C O.

Lemma safe_weaken {A} (p : M A) Φ Φ' C O :
  safe p Φ C O → grows C O Φ Φ' → safe p Φ' C O.
Proof. intros Hp HΦ. by eapply safe_mono. Qed.

Lemma safe_more {A} (p : M A) Φ C O C' O' : safe p Φ C O → C ⊆ C' → O ⊆ O' → safe p Φ C' O'.
Proof. intros Hp HC HO. eapply safe_mono; [done..|]. by intros x C1 O1. Qed.

Lemma safe_fine {A} (p : M A) Φ C O : safe p Φ C O → fine p C O.
Proof. intros Hp. eapply safe_weaken; [exact Hp|]. repeat intro. exact I. Qed.

Lemma fine_ret {A} (a : A) C O : fine (mret a) C O.
Proof. done. Qed.
Lemma fine_fail {A} e C O : fine (fail (A := A) e) C O.
Proof. done. Qed.
Lemma fine_lift {A} (r : result A) C O : fine (lift_result r) C O.
Proof. done. Qed.
Lemma fine_now C O : fine now C O.
Proof. repeat intro. exact I. Qed.
Lemma fine_knows q C O : fine (knows q) C O.
Proof. repeat intro. exact I. Qed.
Lemma fine_learn q C O : fine (learn q) C O.
Proof. repeat intro. exact I. Qed.
Lemma fine_sleep ms C O : fine (sleep ms) C O.
Proof. repeat intro. exact I. Qed.

(** The first part says something. *)
Lemma safe_seq {A B} (p : M A) (f : A → M B) Ψ Φ C O :
  safe p Ψ C O →
  (∀ a C1 O1, C ⊆ C1 → O ⊆ O1 → Ψ (Ok a) C1 O1 → safe (f a) Φ C1 O1) →
  (∀ e, always (Err e) Φ C O) → safe (p ≫= f) Φ C O.
Proof.
  intros Hp Hf He. apply safe_bind. eapply safe_weaken; [exact Hp|].
  intros [a|e] C1 O1 HC HO H1; [by apply Hf|].
  eapply always_mono; [apply He|done|done|]. by intros x C2 O2.
Qed.

(** The first part says nothing. *)
Lemma safe_then {A B} (p : M A) (f : A → M B) Φ C O :
  fine p C O → (∀ a, safe (f a) Φ C O) → (∀ e, always (Err e) Φ C O) → safe (p ≫= f) Φ C O.
Proof.
  intros Hp Hf He. eapply safe_seq; [exact Hp| |done].
  intros a C1 O1 HC HO _. by eapply safe_more.
Qed.

Lemma fine_seq {A B} (p : M A) (f : A → M B) Ψ C O :
  safe p Ψ C O →
  (∀ a C1 O1, C ⊆ C1 → O ⊆ O1 → Ψ (Ok a) C1 O1 → fine (f a) C1 O1) → fine (p ≫= f) C O.
Proof. intros Hp Hf. by eapply safe_seq. Qed.

Lemma fine_bind {A B} (p : M A) (f : A → M B) C O :
  fine p C O → (∀ a, fine (f a) C O) → fine (p ≫= f) C O.
Proof. intros Hp Hf. by apply safe_then. Qed.

Lemma fine_try {A} (p : M A) C O : fine p C O → fine (try p) C O.
Proof. intros Hp. by apply safe_try. Qed.

Lemma fine_wrap_err {A} prefix (p : M A) C O : fine p C O → fine (wrap_err prefix p) C O.
Proof. intros Hp. by apply safe_wrap_err. Qed.

Lemma fine_foldl {A B} (f : B → A → M B) l C O :
  (∀ acc x, x ∈ l → fine (f acc x) C O) → ∀ acc, fine (go_foldl f acc l) C O.
Proof.
  induction l as [|x l IH]; intros Hf acc; simpl; [apply fine_ret|].
  apply fine_bind; [apply Hf; left|]. intros acc'. apply IH. intros acc'' y Hy. apply Hf. by right.
Qed.

(** *** Round trips *)

Lemma does_atomic {A} (p : script A) (Φ : post A) C O :
  atomic K addressed C A p → (∀ a, always a Φ C O) → does p Φ C O.
Proof.
  intros Hp HΦ s C0 O0 HC HO HI. exists C0, O0. split_and!; [|done|done|by apply HΦ].
  apply rtc_once, step_atomic. by eapply atomic_mono.
Qed.

Lemma does_fmap {A B} (f : A → B) (p : script A) (Φ : post B) C O :
  does p (λ a, Φ (f a)) C O → does (f <$> p) Φ C O.
Proof.
  intros Hp s C0 O0 HC HO HI. destruct (Hp s C0 O0) as (C1 & O1 & H); [done..|].
  exists C1, O1. unfold fmap, script_fmap. by destruct (p s).
Qed.

Lemma safe_run {A} (p : script A) Φ C O :
  does p (λ a, always (Ok a) Φ) C O → always (Err ErrNet) Φ C O → safe (run p) Φ C O.
Proof.
  intros Hp He. split; [by apply does_fmap|].
  intros C1 O1 HC HO. eapply always_mono; [exact He|done|done|]. by intros x C2 O2.
Qed.

Lemma fine_run {A} (p : script A) C O : atomic K addressed C A p → fine (run p) C O.
Proof. intros Hp. apply safe_run; [|done]. by apply does_atomic. Qed.

Lemma does_all_atomic {A} (ps : list (script A)) (Φ : post (list A)) C O :
  Forall (atomic K addressed C A) ps → (∀ l, always l Φ C O) → does_all ps Φ C O.
Proof.
  intros Hps. revert Φ. induction Hps as [|p ps Hp Hps IH]; intros Φ HΦ; simpl; [exact (HΦ [])|].
  apply does_atomic; [done|]. intros a C1 O1 HC HO.
  eapply (does_all_mono _ (λ l, Φ (a :: l)));
    [apply IH; intros l; exact (HΦ (a :: l))|done|done|]. by intros x C2 O2.
Qed.

Lemma fine_pipeline {A} (ps : list (script A)) C O :
  Forall (atomic K addressed C A) ps → fine (pipeline ps) C O.
Proof. intros Hps. split; [by apply does_all_atomic|done]. Qed.

Lemma at_read_call {A} (c : cmd A) C :
  (∀ r m, cmd_effect c r m = m) → atomic K addressed C A (call c).
Proof. intros Hc. apply at_read. intros s. unfold call. by rewrite exec_effect. Qed.

(** *** What reading tells *)

(** A body read is well addressed; if there is none, an entry that carries
    the task is an orphan. *)
Definition body_read (q : string) (e : sid) (T : string) : post (option string) :=
  λ r C O, match r with
           | Some b => addressed q T b
           | None => (q, e, T) ∈ C → (q, e, T) ∈ O
           end.

Lemma body_read_mono (q T : string) (e : sid) (r : option string) (C O C' O' : knowledge) :
  C ⊆ C' → O ⊆ O' → (q, e, T) ∈ C → body_read q e T r C O →
  body_read q e T r C' O'.
Proof. intros HC HO HeC. destruct r; simpl; [done|]. intros H _. by apply HO, H. Qed.

Lemma does_body (q : string) (e : sid) (T : string) (Φ : post (option string)) (C O : knowledge) :
  brace_free q → (q, e, T) ∈ C →
  (∀ (r : option string) (C1 O1 : knowledge), C ⊆ C1 → O ⊆ O1 → body_read q e T r C1 O1 → Φ r C1 O1) →
  does (call (HGET (TaskKey K q T) "msg")) Φ C O.
Proof.
  intros Hq Hin HΦ s C0 O0 HC HO HI.
  assert (ks (call (HGET (TaskKey K q T) "msg") s).1 = ks s) as Hs
    by (unfold call; by rewrite exec_effect).
  assert ((call (HGET (TaskKey K q T) "msg") s).2 = body K (ks s) q T) as Hr
    by exact (exec_reply _ (HGET (TaskKey K q T) "msg") s).
  destruct (call _ s) as [s' r]; simpl in *. subst r.
  destruct (body K (ks s) q T) as [b|] eqn:Hb.
  - exists C0, O0. split_and!; [by apply rtc_once, step_same|done|done|].
    apply HΦ; [done|done|]. exact (inv_bodies _ _ _ _ _ HI q T b Hq Hb).
  - exists C0, ({[(q, e, T)]} ∪ O0). split_and!; [|done|set_solver|].
    + eapply rtc_l; [exact (step_look K addressed q e T s C0 O0 (HC _ Hin) Hb)|].
      by apply rtc_once, step_same.
    + apply HΦ; [done|set_solver|]. intros _. set_solver.
Qed.

(** Without an entry in hand only the address is learnt. *)
Lemma does_address (q T : string) (Φ : post (option string)) (C O : knowledge) :
  brace_free q →
  (∀ (r : option string) (C1 O1 : knowledge), C ⊆ C1 → O ⊆ O1 → (∀ b, r = Some b → addressed q T b) → Φ r C1 O1) →
  does (call (HGET (TaskKey K q T) "msg")) Φ C O.
Proof.
  intros Hq HΦ s C0 O0 HC HO HI. exists C0, O0.
  assert (ks (call (HGET (TaskKey K q T) "msg") s).1 = ks s) as Hs
    by (unfold call; by rewrite exec_effect).
  assert ((call (HGET (TaskKey K q T) "msg") s).2 = body K (ks s) q T) as Hr
    by exact (exec_reply _ (HGET (TaskKey K q T) "msg") s).
  destruct (call _ s) as [s' r]; simpl in *.
  split_and!; [by apply rtc_once, step_same|done|done|]. apply HΦ; [done|done|].
  intros b ->. by apply (inv_bodies _ _ _ _ _ HI q T b Hq).
Qed.

(** Entries handed out by the server are claimed. *)
Definition claimed (q : string) (es : list (sid * string)) (C : knowledge) : Prop :=
  ∀ x, x ∈ es → (q, x.1, x.2) ∈ C.

Lemma claimed_more (q : string) (es : list (sid * string)) (C C' : knowledge) : C ⊆ C' → claimed q es C → claimed q es C'.
Proof. intros HC Hes x Hx. by apply HC, Hes. Qed.

Lemma claimed_gain (q : string) (es : list (sid * string)) (C : knowledge) :
  claimed q es (list_to_set (map (λ x, (q, x.1, x.2)) es) ∪ C).
Proof.
  intros x Hx. apply elem_of_union_l, elem_of_list_to_set.
  apply (list_elem_of_fmap_2 (λ x, (q, x.1, x.2)) _ _ Hx).
Qed.

(** Both ways of obtaining entries: a reply of the server, turned into an
    error when there is no consumer group. *)
Lemma safe_obtain (q : string) (c : cmd (option (list (sid * string))))
    (Φ : post (result (list (sid * string)))) (C O : knowledge) :
  (∀ s, (exec c s).2 = None → ks (exec c s).1 = ks s) →
  (∀ s (C0 O0 : knowledge) es, (exec c s).2 = Some es →
     step' (MkSys s C0 O0)
       (MkSys (exec c s).1 (list_to_set (map (λ x, (q, x.1, x.2)) es) ∪ C0) O0)) →
  (∀ (es : list (sid * string)) (C1 O1 : knowledge), C ⊆ C1 → O ⊆ O1 → claimed q es C1 → Φ (Ok es) C1 O1) →
  (∀ e, always (Err e) Φ C O) →
  safe (round_trip (r ← call c; mret match r with None => Err ErrNoGroup | Some es => Ok es end))
    Φ C O.
Proof.
  intros Hnone Hsome HΦ He. split.
  - intros s C0 O0 HC HO HI. specialize (Hnone s). specialize (Hsome s C0 O0).
    unfold mbind, script_bind, mret, script_ret, call.
    destruct (exec c s) as [s' [es|]]; simpl in *.
    + eexists _, O0. split_and!; [by apply rtc_once, Hsome|set_solver|done|].
      intros C2 O2 HC2 HO2. apply HΦ; [set_solver|set_solver|].
      eapply claimed_more; [exact HC2|]. apply claimed_gain.
    + exists C0, O0. split_and!; [by apply rtc_once, step_same, Hnone|done|done|].
      intros C2 O2 HC2 HO2. apply He; by etrans.
  - intros C1 O1 HC HO C2 O2 HC2 HO2. apply He; by etrans.
Qed.

Lemma safe_readGroup (q consumer : string) (n : Z) (Φ : post (result (list (sid * string)))) (C O : knowledge) :
  brace_free q →
  (∀ (es : list (sid * string)) (C1 O1 : knowledge), C ⊆ C1 → O ⊆ O1 → claimed q es C1 → Φ (Ok es) C1 O1) →
  (∀ e, always (Err e) Φ C O) →
  safe (readGroup (StreamKey K q) consumer n) Φ C O.
Proof.
  intros Hq. apply safe_obtain.
  - intros s Hs. by rewrite exec_effect, Hs.
  - intros s C0 O0 es Hs. by apply step_read.
Qed.

Lemma safe_autoClaim (q consumer : string) (idle n : Z) (Φ : post (result (list (sid * string)))) (C O : knowledge) :
  brace_free q →
  (∀ (es : list (sid * string)) (C1 O1 : knowledge), C ⊆ C1 → O ⊆ O1 → claimed q es C1 → Φ (Ok es) C1 O1) →
  (∀ e, always (Err e) Φ C O) →
  safe (autoClaim (StreamKey K q) consumer idle n) Φ C O.
Proof.
  intros Hq. apply safe_obtain.
  - intros s Hs. by rewrite exec_effect, Hs.
  - intros s C0 O0 es Hs. by apply step_reclaim.
Qed.

(** Dropping orphans. *)
Lemma does_orphans (q : string) (ids : list sid) (Φ : post ()) (C O : knowledge) :
  brace_free q → (∀ e, e ∈ ids → ∃ T, (q, e, T) ∈ O) → always () Φ C O →
  does (ackDelete (StreamKey K q) ids) Φ C O.
Proof.
  intros Hq Hids HΦ s C0 O0 HC HO HI. exists C0, O0. split_and!; [|done|done|].
  - apply rtc_once, step_dropOrphans; [done|]. intros e He. destruct (Hids e He) as [T HT]. eauto.
  - destruct (ackDelete (StreamKey K q) ids s) as [s' []]. by apply HΦ.
Qed.

Lemma fine_orphans (q : string) (ids : list sid) (C O : knowledge) :
  brace_free q → (∀ e, e ∈ ids → ∃ T, (q, e, T) ∈ O) →
  fine (run (ackDelete (StreamKey K q) ids)) C O.
Proof. intros Hq Hids. apply safe_run; [by apply does_orphans|done]. Qed.

End processes.
End Processes.
