(* ===== verification/Programs.v ===== *)
(** * The Go code is safe

    For every operation of the components: run by any process, with any
    failures, interleaved with anything, it makes only steps of the abstract
    system ([Processes.fine]), provided the messages it is given are well
    addressed and it acts on entries it was handed. *)

From S2P Require Import Prelude GoLib Wrr Base Redis RedisFacts Client.
From S2P Require Import RdbCore RdbLocks RdbFlow RdbAdmin Instances Lifecycle Processes.
From S2P Require Import Retry Schedule Handler Server Options Builder Scheduler Inspector.
From Stdlib Require Import Ascii.

Module Programs.
Import GoTime GoFloat GoStr Utf8 Keys Task Redis RedisFacts Client.
Import RdbCore RdbLocks RdbFlow RdbAdmin Lifecycle Processes Handler.

#[local] Arguments mbind {_ _ _ _} _ _ : simpl never.

(** Atomic scripts, by the shape of the script. *)
Ltac atomic_step :=
  match goal with
  | |- atomic _ _ _ _ (call (GET _)) => by apply at_read_call
  | |- atomic _ _ _ _ (call (HGET _ _)) => by apply at_read_call
  | |- atomic _ _ _ _ (call (HMGET _ _)) => by apply at_read_call
  | |- atomic _ _ _ _ (call (HGETALL _)) => by apply at_read_call
  | |- atomic _ _ _ _ (call (SMEMBERS _)) => by apply at_read_call
  | |- atomic _ _ _ _ (call (SCARD _)) => by apply at_read_call
  | |- atomic _ _ _ _ (call (ZCARD _)) => by apply at_read_call
  | |- atomic _ _ _ _ (call (ZSCORE _ _)) => by apply at_read_call
  | |- atomic _ _ _ _ (call (ZRANGE _ _ _)) => by apply at_read_call
  | |- atomic _ _ _ _ (call (XLEN _)) => by apply at_read_call
  | |- atomic _ _ _ _ (call (XPENDING _ _)) => by apply at_read_call
  | |- atomic _ _ _ _ (call (SCAN _)) => by apply at_read_call
  | |- atomic _ _ _ _ (call (PUBLISH _ _)) => by apply at_read_call
  | |- atomic _ _ _ _ (call _) => econstructor; done
  | |- atomic _ _ _ _ (acquireOrRenewCmd _ _ _) => apply at_leader
  | |- atomic _ _ _ _ (resignCmd _ _) => apply at_resign
  | |- atomic _ _ _ _ (createGroupTx _ _) => by apply at_createGroup
  | |- atomic _ _ _ _ (createGroupIfAbsentCmd _ _ _ _ _) => by apply at_createGroupIfAbsent
  | |- atomic _ _ _ _ (requeueCmd _ _ _ _ _ _) => by apply at_requeue
  | |- atomic _ _ _ _ (runTaskCmd _ _ _ _ _ _ _ _) => by apply at_runTask
  | |- atomic _ _ _ _ (deleteTx _ _ _) => by apply at_delete
  end.

(** Programs, by their structure; what is left are the named parts. *)
Ltac fine_step :=
  match goal with
  | |- ∀ _, fine _ _ _ _ => intros ?
  | |- fine _ (mret _) _ _ => apply fine_ret
  | |- fine _ (fail _) _ _ => apply fine_fail
  | |- fine _ (lift_result _) _ _ => apply fine_lift
  | |- fine _ now _ _ => apply fine_now
  | |- fine _ (knows _) _ _ => apply fine_knows
  | |- fine _ (learn _) _ _ => apply fine_learn
  | |- fine _ (sleep _) _ _ => apply fine_sleep
  | |- fine _ (_ ≫= _) _ _ => apply fine_bind
  | |- fine _ (try _) _ _ => apply fine_try
  | |- fine _ (wrap_err _ _) _ _ => apply fine_wrap_err
  | |- fine _ (run _) _ _ => apply fine_run; try atomic_step
  | |- fine _ (if ?b then _ else _) _ _ => destruct b
  | |- fine _ (match ?x with Ok _ => _ | Err _ => _ end) _ _ => destruct x
  | |- fine _ (match ?x with Some _ => _ | None => _ end) _ _ => destruct x
  | |- fine _ (match ?x with (_, _) => _ end) _ _ => destruct x
  end.
Ltac fine_steps := repeat fine_step; try (by eauto with fine).

Create HintDb fine discriminated.

Section programs.
Context `{R : Redis} `{J : Json} (K : Keys).

Abbreviation knowledge := (gset claim_t).
Abbreviation fine' := (fine K).
Abbreviation claim C q e T := ((q : string, e : sid, T : string) ∈ (C : knowledge)).

(** ** rdb.go, retry.go, schedule.go, forward.go *)

Lemma fine_registerQueue q C O : fine' (registerQueue K q) C O.
Proof. unfold registerQueue. fine_steps. Qed.
Hint Resolve fine_registerQueue : fine.

Lemma fine_Enqueue msg C O : ok_msg K msg → fine' (Enqueue K msg) C O.
Proof.
  intros Hm. unfold Enqueue. fine_steps.
  apply (at_enqueue K _ C (m_Queue msg) (m_ID msg)); [by destruct Hm|].
  by apply (addressed_encode K (with_State StatePending msg)), ok_State.
Qed.

Lemma fine_Schedule msg t C O : ok_msg K msg → fine' (Schedule K msg t) C O.
Proof.
  intros Hm. unfold Schedule. fine_steps.
  apply (at_schedule K _ C (m_Queue msg) (m_ID msg)); [by destruct Hm|].
  by apply (addressed_encode K (with_State StateScheduled msg)), ok_State.
Qed.

Lemma fine_EnsureGroup q C O : brace_free q → fine' (EnsureGroup K q) C O.
Proof. intros Hq. unfold EnsureGroup. fine_steps. Qed.

Lemma fine_releaseUnique msg C O : ok_lock K (m_UniqueKey msg) → fine' (releaseUnique msg) C O.
Proof.
  intros Hl. unfold releaseUnique. case_bool_decide as H0; fine_steps.
  destruct Hl as [|(q & suf & Hq & ->)]; [done|]. by apply at_releaseUnique.
Qed.

Lemma fine_moveToZSet q e msg z st sc C O :
  ok_msg K msg → q = m_Queue msg → claim C q e (m_ID msg) →
  fine' (moveToZSet K q e msg (zkey K q z) st sc) C O.
Proof.
  intros Hm -> Hc. unfold moveToZSet. fine_steps.
  apply at_move; [by destruct Hm|done|].
  by apply (addressed_encode K (with_State st msg)), ok_State.
Qed.

Lemma fine_Retry q e msg t C O :
  ok_msg K msg → q = m_Queue msg → claim C q e (m_ID msg) → fine' (Retry K q e msg t) C O.
Proof. intros Hm Hq Hc. by apply (fine_moveToZSet q e msg ZRetry). Qed.

Lemma fine_Archive q e msg t C O :
  ok_msg K msg → q = m_Queue msg → claim C q e (m_ID msg) → fine' (Archive K q e msg t) C O.
Proof.
  intros Hm Hq Hc. unfold Archive. apply fine_bind; [by apply (fine_moveToZSet q e msg ZArchived)|].
  intros _. apply fine_releaseUnique. by destruct Hm.
Qed.

Lemma fine_Done q e msg C O :
  ok_msg K msg → q = m_Queue msg → claim C q e (m_ID msg) → fine' (Done K q e msg) C O.
Proof.
  intros Hm Hq Hc. unfold Done. case_bool_decide; fine_steps.
  - apply (fine_moveToZSet q e (with_CompletedAt _ msg) ZCompleted); [by apply ok_CompletedAt|done..].
  - apply fine_releaseUnique. by destruct Hm.
  - apply at_done; [|done]. subst. by destruct Hm.
  - apply fine_releaseUnique. by destruct Hm.
Qed.

Lemma fine_Requeue q e msg C O :
  brace_free q → claim C q e (m_ID msg) → fine' (Requeue K q e msg) C O.
Proof. intros Hq Hc. unfold Requeue. fine_steps. Qed.

Lemma fine_ForwardRetry q t n C O : brace_free q → fine' (ForwardRetry K q t n) C O.
Proof. intros Hq. unfold ForwardRetry. fine_steps. by apply (at_forward K _ C q ZRetry). Qed.
Lemma fine_ForwardScheduled q t n C O : brace_free q → fine' (ForwardScheduled K q t n) C O.
Proof. intros Hq. unfold ForwardScheduled. fine_steps. by apply (at_forward K _ C q ZScheduled). Qed.

Hint Resolve fine_Enqueue fine_Schedule fine_EnsureGroup fine_Retry fine_Archive fine_Done
  fine_Requeue fine_ForwardRetry fine_ForwardScheduled : fine.

(** A task in hand: its message is well addressed and its entry claimed. *)
Definition in_hand (C : knowledge) (d : Dequeued) : Prop :=
  ok_msg K (dq_Msg d) ∧ claim C (m_Queue (dq_Msg d)) (dq_StreamID d) (m_ID (dq_Msg d)).

Lemma in_hand_more (C C' : knowledge) d : C ⊆ C' → in_hand C d → in_hand C' d.
Proof. intros HC [Hm Hc]. split; [done|by apply HC]. Qed.

(** The bodies of a batch. *)
Definition bodies_read (q : string) (es : list (sid * string)) (bs : list (option string))
    (C O : knowledge) : Prop :=
  Forall2 (λ e r, match r with
                  | Some b => addressed K q e.2 b
                  | None => (q, e.1, e.2) ∈ O
                  end) es bs.

Lemma does_bodies (q : string) (es : list (sid * string)) (Φ : list (option string) → knowledge → knowledge → Prop)
    (C O : knowledge) :
  brace_free q → claimed q es C →
  (∀ (bs : list (option string)) (C1 O1 : knowledge), C ⊆ C1 → O ⊆ O1 →
     bodies_read q es bs C1 O1 → Φ bs C1 O1) →
  does_all K (map (λ e : sid * string, call (HGET (TaskKey K q e.2) "msg")) es) Φ C O.
Proof.
  intros Hq. revert Φ C O. induction es as [|[e T] es IH]; intros Φ C O Hes HΦ; simpl.
  - intros C1 O1 HC HO. apply HΦ; [done|done|constructor].
  - apply (does_body K q e T); [done|apply (Hes (e, T)); left|].
    intros r C1 O1 HC HO Hr.
    assert (claim C1 q e T) as Hin by (apply HC, (Hes (e, T)); left).
    apply IH; [intros x Hx; apply HC, Hes; by right|].
    intros bs C2 O2 HC2 HO2 Hbs. apply HΦ; [by etrans|by etrans|].
    constructor; [|done]. destruct r; simpl in *; [done|]. by apply HO2, Hr.
Qed.

Lemma classify_spec q es bs C O tasks orphans :
  claimed q es C → bodies_read q es bs C O → classify es bs = (tasks, orphans) →
  (∀ d, d ∈ tasks → m_Queue (dq_Msg d) = q ∧ in_hand C d) ∧
  (∀ e, e ∈ orphans → ∃ T : string, (q, e, T) ∈ O).
Proof.
  intros Hes Hbs. revert tasks orphans Hes.
  induction Hbs as [|[e T] r es bs Hr Hbs IH]; simpl; intros tasks orphans Hes.
  { intros [= <- <-]. by split; intros ? ?%elem_of_nil. }
  destruct (classify es bs) as [ts os]. destruct (IH ts os) as [Ht Ho]; [|done|].
  { intros x Hx. apply Hes. by right. }
  assert (claim C q e T) as Hin by (apply (Hes (e, T)); left).
  destruct r as [b|].
  - destruct (DecodeMessage b) as [msg|] eqn:Hd; intros [= <- <-]; [|by split].
    split; [|done]. intros d [->|Hd']%elem_of_cons; [|by apply Ht].
    destruct (Hr msg Hd) as (Eq & ET & Hok). simpl. split; [done|]. split; simpl.
    + by apply ok_State.
    + by rewrite Eq, ET.
  - intros [= <- <-]. split; [done|]. intros e' [->|He]%elem_of_cons; [by exists T|by apply Ho].
Qed.

(** Reading a batch yields tasks in hand. *)
Definition batch_in_hand (r : result (list Dequeued)) (C O : knowledge) : Prop :=
  ∀ ts, r = Ok ts → ∀ d, d ∈ ts → in_hand C d.

Lemma batch_more r C O C' O' : C ⊆ C' → batch_in_hand r C O → batch_in_hand r C' O'.
Proof. intros HC Hr ts -> d Hd. eapply in_hand_more; [done|]. by eapply Hr. Qed.

Lemma batch_err e C O : always (Err e) batch_in_hand C O.
Proof. by intros C1 O1 _ _ ts [=]. Qed.

Lemma safe_DequeueBatch (consumer q : string) (n : Z) (C O : knowledge) :
  brace_free q → safe K (DequeueBatch K consumer q n) batch_in_hand C O.
Proof.
  intros Hq. unfold DequeueBatch. set (count := if bool_decide (n < 1)%Z then _ else _).
  apply safe_bind, safe_readGroup; [done| |intros e; repeat intro; done].
  intros es C1 O1 HC HO Hes. case_bool_decide; [by apply batch_err|].
  apply safe_bind. split; [|repeat intro; done].
  eapply does_bodies; [done|done|]. intros bs C2 O2 HC2 HO2 Hbs C3 O3 HC3 HO3.
  destruct (classify es bs) as [tasks orphans] eqn:Hcl.
  destruct (classify_spec q es bs C2 O2 tasks orphans) as [Ht Ho];
    [by eapply claimed_more|done|done|].
  apply safe_then; [|intros _|intros e; apply batch_err].
  { case_bool_decide; [fine_steps|].
    apply fine_bind; [apply fine_try, fine_orphans; [done|]|fine_steps].
    intros e He. destruct (Ho e He) as [T HT]. exists T. by apply HO3. }
  case_bool_decide; [by apply batch_err|].
  apply safe_then; [|intros _|intros e; apply batch_err].
  - apply fine_pipeline, Forall_fmap, Forall_forall. intros d Hd. simpl.
    destruct (Ht d Hd) as [Eq _]. by apply at_markActive.
  - intros C4 O4 HC4 HO4 ts [= <-] d Hd. destruct (Ht d Hd) as [_ Hh].
    eapply in_hand_more; [|exact Hh]. by etrans.
Qed.

(** A task looked up by its keys. *)
Definition looked_up (q T : string) (r : result TaskMessage) (C O : knowledge) : Prop :=
  ∀ m, r = Ok m → m_Queue m = q ∧ m_ID m = T ∧ ok_msg K m.

Lemma safe_GetTask (q T : string) (C O : knowledge) :
  brace_free q → safe K (GetTask K q T) (looked_up q T) C O.
Proof.
  intros Hq. unfold GetTask. apply safe_bind, safe_run; [|repeat intro; done].
  apply does_address; [done|]. intros r C1 O1 HC HO Hr C2 O2 HC2 HO2.
  destruct r as [b|]; [|by repeat intro].
  destruct (DecodeMessage b) as [m|] eqn:Hd; [|by repeat intro].
  intros C3 O3 _ _ m' [= <-]. by apply (Hr b).
Qed.

(** ** unique.go, periodic.go, leader.go, heartbeat.go, pause.go *)

Lemma fine_EnqueueUnique sha msg ttl C O :
  ok_msg K (with_UniqueKey (lockKey K sha msg) msg) → fine' (EnqueueUnique K sha msg ttl) C O.
Proof.
  intros Hm. unfold EnqueueUnique. fine_steps.
  apply (at_enqueueUnique K _ C (m_Queue msg) (m_ID msg)); [by destruct Hm|].
  by apply (addressed_encode K (with_State StatePending (with_UniqueKey (lockKey K sha msg) msg))),
    ok_State.
Qed.

Lemma fine_ScheduleUnique sha msg t ttl C O :
  ok_msg K (with_UniqueKey (lockKey K sha msg) msg) → fine' (ScheduleUnique K sha msg t ttl) C O.
Proof.
  intros Hm. unfold ScheduleUnique. fine_steps.
  apply (at_scheduleUnique K _ C (m_Queue msg) (m_ID msg)); [by destruct Hm|].
  by apply (addressed_encode K (with_State StateScheduled (with_UniqueKey (lockKey K sha msg) msg))),
    ok_State.
Qed.

Lemma fine_EnqueuePeriodic msg trig ttl C O :
  ok_msg K msg → fine' (EnqueuePeriodic K msg trig ttl) C O.
Proof.
  intros Hm. unfold EnqueuePeriodic. fine_steps.
  all: apply (at_periodic K _ C (m_Queue msg) (m_ID msg)); [by destruct Hm|];
    by apply (addressed_encode K (with_State StatePending msg)), ok_State.
Qed.

Lemma fine_SetLastFired id t C O : fine' (SetLastFired K id t) C O.
Proof. unfold SetLastFired. fine_steps. Qed.
Lemma fine_GetLastFired id C O : fine' (GetLastFired K id) C O.
Proof. unfold GetLastFired. fine_steps. Qed.
Lemma fine_AcquireOrRenewLeadership id ttl C O : fine' (AcquireOrRenewLeadership K id ttl) C O.
Proof. unfold AcquireOrRenewLeadership. fine_steps. Qed.
Lemma fine_ResignLeadership id C O : fine' (ResignLeadership K id) C O.
Proof. unfold ResignLeadership. fine_steps. Qed.
Lemma fine_ExtendLease q c ids C O : brace_free q → fine' (ExtendLease K q c ids) C O.
Proof. intros Hq. unfold ExtendLease. fine_steps. Qed.

Lemma fine_RenewUnique keys ttl C O :
  (∀ k, k ∈ keys → k ≠ "" ∧ ok_lock K k) → fine' (RenewUnique keys ttl) C O.
Proof.
  intros Hk. unfold RenewUnique. case_bool_decide; fine_steps.
  apply fine_pipeline, Forall_fmap, Forall_forall. intros k Hin. simpl.
  destruct (Hk k Hin) as [Hne [|(q & suf & Hq & ->)]]; [done|]. by apply at_renewUnique.
Qed.

Lemma fine_PauseQueue q C O : fine' (PauseQueue K q) C O.
Proof. unfold PauseQueue. fine_steps. Qed.
Lemma fine_ResumeQueue q C O : fine' (ResumeQueue K q) C O.
Proof. unfold ResumeQueue. fine_steps. Qed.
Lemma fine_PausedQueues C O : fine' (PausedQueues K) C O.
Proof. unfold PausedQueues. fine_steps. Qed.

Hint Resolve fine_EnqueueUnique fine_ScheduleUnique fine_EnqueuePeriodic fine_SetLastFired
  fine_GetLastFired fine_AcquireOrRenewLeadership fine_ResignLeadership fine_ExtendLease
  fine_PauseQueue fine_ResumeQueue fine_PausedQueues : fine.

(** ** chain.go, group.go *)

Lemma fine_EnqueueChainLink msg d C O : ok_msg K msg → fine' (EnqueueChainLink K msg d) C O.
Proof.
  intros Hm. unfold EnqueueChainLink. fine_steps.
  - apply (at_chainSchedule K _ C (m_Queue msg) (m_ID msg)); [by destruct Hm|].
    by apply (addressed_encode K (with_State StateScheduled msg)), ok_State.
  - apply (at_chainEnqueue K _ C (m_Queue msg) (m_ID msg)); [by destruct Hm|].
    by apply (addressed_encode K (with_State StatePending msg)), ok_State.
Qed.

Lemma fine_CreateGroup q g ids C O : brace_free q → fine' (CreateGroup K q g ids) C O.
Proof. intros Hq. unfold CreateGroup. fine_steps. Qed.
Lemma fine_CreateGroupIfAbsent q g ids cb C O :
  brace_free q → fine' (CreateGroupIfAbsent K q g ids cb) C O.
Proof. intros Hq. unfold CreateGroupIfAbsent. fine_steps. Qed.
Lemma fine_GroupMembers q g C O : fine' (GroupMembers K q g) C O.
Proof. unfold GroupMembers. fine_steps. Qed.
Lemma fine_GroupPending q g C O : fine' (GroupPending K q g) C O.
Proof. unfold GroupPending. fine_steps. Qed.

(** The strings of a well-addressed message, one by one. *)
Record utf8_fields (m : TaskMessage) : Prop := MkUtf8Fields {
  uf_ID : valid (m_ID m) = true;
  uf_Kind : valid (m_Kind m) = true;
  uf_Queue : valid (m_Queue m) = true;
  uf_Unique : valid (m_UniqueKey m) = true;
  uf_Chain : forallb utf8_link (m_Chain m) = true;
  uf_ChainID : valid (m_ChainID m) = true;
  uf_GroupID : valid (m_GroupID m) = true;
  uf_GroupQueue : valid (m_GroupQueue m) = true;
  uf_Callback : match m_GroupCallback m with Some l => utf8_link l | None => true end = true;
  uf_MemberID : valid (m_GroupMemberID m) = true;
  uf_CbChain : forallb utf8_link (m_GroupCallbackChain m) = true;
}.

Lemma utf8_fields_iff m : utf8_msg (with_LastErr "" m) = true ↔ utf8_fields m.
Proof.
  unfold utf8_msg; simpl. rewrite !andb_true_iff. split.
  - intros [[[[[[[[[[[? ?] ?] ?] ?] ?] ?] ?] ?] ?] ?] ?]. by constructor.
  - intros []. by split_and!.
Qed.

Lemma utf8_link_fields l :
  utf8_link l = true ↔ valid (cl_Kind l) = true ∧ valid (cl_Queue l) = true
                      ∧ forallb utf8_member (cl_Group l) = true.
Proof. unfold utf8_link. rewrite !andb_true_iff. tauto. Qed.

Lemma ok_callbackMessage member link :
  ok_msg K member → m_GroupCallback member = Some link → ok_msg K (callbackMessage member link).
Proof.
  intros [Hu Hq Hl Hch Hcb Hcc] E. apply utf8_fields_iff in Hu as []. rewrite E in *.
  apply utf8_link_fields in uf_Callback0 as (? & ? & ?). destruct (Hcb link eq_refl) as [? ?].
  assert (valid (m_GroupID member +:+ ":cb") = true) by (by apply valid_append).
  unfold callbackMessage. case_bool_decide; constructor; simpl;
    rewrite ?utf8_fields_iff; try done; try (by left).
  all: by constructor.
Qed.

Lemma fine_CompleteGroupMember member C O :
  ok_msg K member → fine' (CompleteGroupMember K member) C O.
Proof.
  intros Hm. unfold CompleteGroupMember.
  destruct (m_GroupCallback member) as [link|] eqn:Ecb; [|fine_steps].
  case_bool_decide as Hq; simpl; [|fine_steps].
  pose proof (ok_callbackMessage member link Hm Ecb) as Hcb.
  assert (m_Queue (callbackMessage member link) = cl_Queue link) as Eq.
  { unfold callbackMessage. by case_bool_decide. }
  fine_steps. rewrite Hq, Eq.
  set (st := if bool_decide (0 < cl_Delay link)%Z then StateScheduled else StatePending).
  set (cb := callbackMessage member link) in *.
  pose proof (addressed_encode K (with_State st cb) (ok_State K _ _ Hcb)) as Ha.
  pose proof (λ rs, addressed_results K (with_State st cb) rs (ok_State K _ _ Hcb)) as Hr.
  simpl in Ha, Hr. rewrite Eq in Ha, Hr.
  assert (brace_free (cl_Queue link)) by (rewrite <- Eq; by destruct Hcb).
  subst st. case_bool_decide.
  - by apply (at_groupComplete K _ C _ _ _ _ _ _ (ToZSet _)).
  - by apply (at_groupComplete K _ C _ _ _ _ _ _ ToStream).
Qed.

Hint Resolve fine_EnqueueChainLink fine_CreateGroup fine_CreateGroupIfAbsent fine_GroupMembers
  fine_GroupPending fine_CompleteGroupMember : fine.

(** ** janitor.go, recover.go, inspect.go, registry.go *)

Lemma fine_TrimArchived q t n b C O : brace_free q → fine' (TrimArchived K q t n b) C O.
Proof. intros Hq. unfold TrimArchived. fine_steps. by apply (at_trim K _ C q ZArchived). Qed.
Lemma fine_TrimCompleted q t n b C O : brace_free q → fine' (TrimCompleted K q t n b) C O.
Proof. intros Hq. unfold TrimCompleted. fine_steps. by apply (at_trim K _ C q ZCompleted). Qed.

Lemma fine_recoverEntry q t acc e T C O :
  brace_free q → claim C q e T → fine' (recoverEntry K q t acc (e, T)) C O.
Proof.
  intros Hq Hc. unfold recoverEntry.
  apply fine_seq with (Ψ := λ r C1 O1, ∀ x, r = Ok (Ok x) → body_read K q e T x C1 O1).
  { apply safe_try, safe_run; [|repeat intro; done].
    apply (does_body K q e T); [done|done|]. intros r C1 O1 HC HO Hr C2 O2 HC2 HO2 x [= <-].
    exact (body_read_mono K q T e r C1 O1 C2 O2 HC2 HO2 (HC _ Hc) Hr). }
  intros r C1 O1 HC HO Hr. destruct r as [[b|]|err]; [| |fine_steps].
  - specialize (Hr _ eq_refl). simpl in Hr. destruct (DecodeMessage b) as [msg|] eqn:Hd; [|fine_steps].
    destruct (Hr msg Hd) as (Eq & ET & Hok).
    assert (claim C1 q e (m_ID msg)) by (rewrite ET; by apply HC).
    case_bool_decide.
    + apply fine_bind; [|fine_steps]. by apply fine_try, fine_Archive.
    + apply fine_bind; [|fine_steps]. apply fine_try, fine_Retry; [by apply ok_Retried|done|done].
  - apply fine_bind; [|fine_steps]. apply fine_try, fine_orphans; [done|].
    intros e' ->%list_elem_of_singleton. exists T. apply (Hr None); [done|by apply HC].
Qed.

Lemma fine_Recover q consumer idle n C O : brace_free q → fine' (Recover K q consumer idle n) C O.
Proof.
  intros Hq. unfold Recover.
  apply fine_seq with (Ψ := λ r C1 O1, ∀ es, r = Ok (Ok es) → claimed q es C1).
  { apply safe_try, safe_autoClaim; [done| |]; [|repeat intro; done].
    by intros es C1 O1 HC HO Hes es' [= <-]. }
  intros r C1 O1 HC HO Hes. destruct r as [es|err]; [|fine_steps].
  apply fine_bind; [apply fine_now|]. intros t. apply fine_foldl.
  intros acc [e T] Hin. apply fine_recoverEntry; [done|]. by apply (Hes es eq_refl (e, T)).
Qed.

Lemma fine_queueStats q C O : fine' (queueStats K q) C O.
Proof. unfold queueStats. fine_steps. Qed.
Lemma fine_Queues C O : fine' (Queues K) C O.
Proof. unfold Queues. fine_steps. Qed.
Lemma fine_LeaderID C O : fine' (LeaderID K) C O.
Proof. unfold LeaderID. fine_steps. Qed.
Lemma fine_TaskState q T C O : fine' (TaskState K q T) C O.
Proof. unfold TaskState. fine_steps. Qed.
Lemma fine_ZScore k T C O : fine' (ZScore k T) C O.
Proof. unfold ZScore. fine_steps. Qed.
Lemma fine_GetTask q T C O : fine' (GetTask K q T) C O.
Proof. unfold GetTask. fine_steps. Qed.

Lemma fine_ScanSchedules C O : fine' (ScanSchedules K) C O.
Proof.
  unfold ScanSchedules. destruct (cutStar _) as [pre suf]. fine_steps.
  apply fine_foldl. intros acc key _. unfold scanStep. fine_steps.
Qed.

Lemma fine_ListZSetTasks q k n C O : fine' (ListZSetTasks K q k n) C O.
Proof.
  unfold ListZSetTasks. fine_steps. apply fine_foldl. intros acc z _. unfold listStep.
  fine_steps; [apply fine_GetTask|]. repeat case_match; fine_steps.
Qed.

Lemma fine_RunTask q T C O : brace_free q → fine' (RunTask K q T) C O.
Proof. intros Hq. unfold RunTask. fine_steps. Qed.

Lemma fine_DeleteTask q T C O : brace_free q → fine' (DeleteTask K q T) C O.
Proof.
  intros Hq. unfold DeleteTask.
  apply fine_seq with (Ψ := λ r C1 O1, ∀ m, r = Ok (Ok m) → ok_msg K m).
  { apply safe_try. eapply safe_weaken; [by apply safe_GetTask|].
    intros r C1 O1 _ _ Hr m [= ->]. by destruct (Hr m eq_refl) as (_ & _ & ?). }
  intros [m|e] C1 O1 _ _ Hm; [|destruct e; fine_steps].
  fine_steps. apply fine_releaseUnique. by destruct (Hm m eq_refl).
Qed.

Hint Resolve fine_TrimArchived fine_TrimCompleted fine_Recover fine_queueStats fine_Queues
  fine_LeaderID fine_TaskState fine_ZScore fine_GetTask fine_ScanSchedules fine_ListZSetTasks
  fine_RunTask fine_DeleteTask : fine.

Section registry.
Context `{MJ : MetaJson}.

Lemma fine_RegisterSchedules ms C O : fine' (RegisterSchedules K ms) C O.
Proof. unfold RegisterSchedules. fine_steps. Qed.
Lemma fine_TouchSchedules ids C O : fine' (TouchSchedules K ids) C O.
Proof. unfold TouchSchedules. fine_steps. Qed.
Lemma fine_ListSchedules C O : fine' (ListSchedules K) C O.
Proof. unfold ListSchedules. fine_steps. Qed.
Lemma fine_PruneSchedules ids t C O : fine' (PruneSchedules K ids t) C O.
Proof.
  unfold PruneSchedules. fine_steps. apply fine_foldl. intros acc f _. unfold dropLastFired.
  fine_steps.
Qed.

End registry.

Hint Resolve fine_RegisterSchedules fine_TouchSchedules fine_ListSchedules fine_PruneSchedules
  : fine.

(** ** inspector.go *)

Lemma fine_InspectQueues C O : fine' (Inspector.InspectQueues K) C O.
Proof.
  unfold Inspector.InspectQueues. fine_steps. apply fine_foldl. intros acc q _. unfold Inspector.queueInfo. fine_steps.
Qed.
Lemma fine_ListTasks quote q st n C O : fine' (Inspector.ListTasks K quote q st n) C O.
Proof. unfold Inspector.ListTasks. fine_steps. Qed.
Lemma fine_InspectTask quote q T C O : fine' (Inspector.InspectTask K quote q T) C O.
Proof.
  unfold Inspector.InspectTask. apply fine_bind; [fine_steps|].
  intros [m|e]; [|destruct e; fine_steps].
  apply fine_bind; [case_match; fine_steps|]. intros ti. fine_steps.
Qed.
Lemma fine_SchedulerStatus `{MJ : MetaJson} C O : fine' (Inspector.SchedulerStatus K) C O.
Proof. unfold Inspector.SchedulerStatus. fine_steps. Qed.

(** ** server.go *)

(** What the generic handlers may do to a message. *)
Inductive registered : Mux → Prop :=
  | reg_new : registered NewMux
  | reg_AddHandler {T} quote kind decodeArgs (fn : TypedTask T → _) mux mux' :
      registered mux → AddHandler quote kind decodeArgs fn mux = Returned mux' → registered mux'
  | reg_AddHandlerR {T Res} quote kind decodeArgs marshal (fn : TypedTask T → outcome (Res + Retry.error))
      mux mux' :
      registered mux → AddHandlerR quote kind decodeArgs marshal fn mux = Returned mux' →
      registered mux'.

(** A handler returns its message, at most with a result set. *)
Definition sets_result (h : internalHandler) : Prop :=
  ∀ msg, (h msg).1 = msg ∨ ∃ b, (h msg).1 = with_Result b msg.

Lemma registered_sets mux kind h : registered mux → mux !! kind = Some h → sets_result h.
Proof.
  intros Hreg. revert kind h. induction Hreg as
    [|T quote k dec fn mux mux' _ IH E|T Res quote k dec mar fn mux mux' _ IH E]; intros kind h.
  - done.
  - unfold AddHandler in E. case_bool_decide; [done|]. injection E as <-.
    intros [[_ <-]|[_ Hh]]%lookup_insert_Some msg; [|by eapply IH].
    destruct (dec _); by left.
  - unfold AddHandlerR in E. case_bool_decide; [done|]. injection E as <-.
    intros [[_ <-]|[_ Hh]]%lookup_insert_Some msg; [|by eapply IH].
    destruct (dec _); [|by left]. destruct (fn _) as [[res|]|]; [|by left|by left].
    destruct (mar res); [|by left]. case_bool_decide; [by left|]. simpl. eauto.
Qed.

Lemma dispatchSafely_sets quote mux msg :
  registered mux →
  (dispatchSafely quote mux msg).1 = msg ∨
  ∃ b, (dispatchSafely quote mux msg).1 = with_Result b msg.
Proof.
  intros Hreg. unfold dispatchSafely, dispatch.
  destruct (mux !! m_Kind msg) as [h|] eqn:E; [|by left].
  specialize (registered_sets mux _ h Hreg E msg).
  destruct (h msg) as [m [err|v]]; simpl; done.
Qed.

(** *** Successors *)

Lemma ok_nextMessage msg link rest :
  ok_msg K msg → m_Chain msg = link :: rest → ok_msg K (Server.nextMessage msg link rest).
Proof.
  intros [Hu Hq Hl Hch Hcb Hcc] E. apply utf8_fields_iff in Hu as []. rewrite E in *.
  apply Forall_cons in Hch as [[? ?] ?]. simpl in uf_Chain0.
  apply andb_true_iff in uf_Chain0 as [(? & ? & ?)%utf8_link_fields ?].
  constructor; simpl; rewrite ?utf8_fields_iff; try done; try (by left).
  constructor; simpl; try done.
  apply valid_append; [done|]. apply valid_append; [done|]. apply valid_itoa.
Qed.

Lemma ok_stageMember msg link rest j m :
  ok_msg K msg → m_Chain msg = link :: rest → m ∈ cl_Group link →
  ok_msg K (Server.stageMember msg link rest
              (m_ChainID msg +:+ ":" +:+ itoa (m_ChainIndex msg + 1)) j m).
Proof.
  intros [Hu Hq Hl Hch Hcb Hcc] E Hm. apply utf8_fields_iff in Hu as []. rewrite E in *.
  apply Forall_cons in Hch as [[? Hg] ?]. simpl in uf_Chain0.
  apply andb_true_iff in uf_Chain0 as [(? & ? & Hgu)%utf8_link_fields ?].
  rewrite Forall_forall in Hg. specialize (Hg m Hm).
  rewrite forallb_forall in Hgu. specialize (Hgu m (proj1 (list_elem_of_In _ _) Hm)).
  apply andb_true_iff in Hgu as [? ?].
  assert (valid (m_ChainID msg +:+ ":" +:+ itoa (m_ChainIndex msg + 1)) = true) as Hid.
  { apply valid_append; [done|]. apply valid_append; [done|]. apply valid_itoa. }
  constructor; simpl; rewrite ?utf8_fields_iff; try done; try (by left).
  - constructor; simpl; try done.
    + apply valid_append; [done|]. apply valid_append; [done|]. apply valid_itoa.
    + apply utf8_link_fields. simpl. done.
  - intros l [= <-]. split; [done|]. simpl. constructor.
Qed.

Lemma fine_drain q T C O : brace_free q → fine' (Server.drainCompletedStageMember K q T) C O.
Proof.
  intros Hq. unfold Server.drainCompletedStageMember.
  apply fine_bind; [fine_steps|]. intros [st|e]; [|destruct e; fine_steps].
  destruct (negb _); [fine_steps|].
  apply fine_seq with (Ψ := λ r C1 O1, ∀ m, r = Ok (Ok m) → ok_msg K m).
  { apply safe_try. eapply safe_weaken; [by apply safe_GetTask|].
    intros r C1 O1 _ _ Hr m [= ->]. by destruct (Hr m eq_refl) as (_ & _ & ?). }
  intros [m|e] C1 O1 _ _ Hm; [|destruct e; fine_steps].
  apply fine_bind; [|fine_steps]. apply fine_CompleteGroupMember. by apply Hm.
Qed.

Lemma fine_enqueueMembers msg link rest pending j ms C O :
  ok_msg K msg → m_Chain msg = link :: rest → (∀ m, m ∈ ms → m ∈ cl_Group link) →
  fine' (Server.enqueueMembers K msg link rest
           (m_ChainID msg +:+ ":" +:+ itoa (m_ChainIndex msg + 1)) pending j ms) C O.
Proof.
  intros Hm E. revert j. induction ms as [|m ms IH]; intros j Hms; [apply fine_ret|].
  cbn [Server.enqueueMembers]. cbv zeta.
  pose proof (ok_stageMember msg link rest j m Hm E (Hms m (list_elem_of_here _ _))) as Hok.
  apply fine_bind.
  - case_match; [fine_steps|]. apply fine_bind.
    + by apply fine_wrap_err, fine_EnqueueChainLink.
    + intros [|]; [fine_steps|]. apply fine_wrap_err, fine_drain. by destruct Hok.
  - intros _. apply IH. intros x Hx. apply Hms. by right.
Qed.

Lemma fine_enqueueNext msg C O : ok_msg K msg → fine' (Server.enqueueNext K msg) C O.
Proof.
  intros Hm. unfold Server.enqueueNext. destruct (m_Chain msg) as [|link rest] eqn:E; [fine_steps|].
  case_bool_decide.
  - unfold Server.enqueueNextGroup.
    assert (brace_free (cl_Queue link)) as Hq.
    { destruct Hm as [_ _ _ Hch _ _]. rewrite E in Hch. by apply Forall_cons in Hch as [[? _] _]. }
    apply fine_bind; [by apply fine_CreateGroupIfAbsent|]. intros st.
    case_bool_decide; [fine_steps|]. apply fine_bind; [fine_steps|].
    intros pending. by apply fine_enqueueMembers.
  - apply fine_bind; [|fine_steps]. by apply fine_EnqueueChainLink, ok_nextMessage.
Qed.

Lemma fine_withRetry {A} n backoff last (p : M A) C O :
  fine' p C O → fine' (Server.withRetry n backoff last p) C O.
Proof.
  intros Hp. revert backoff last. induction n as [|n IH]; intros backoff last; [apply fine_fail|].
  cbn [Server.withRetry]. apply fine_bind; [by apply fine_try|].
  intros [a|e]; [fine_steps|]. apply fine_bind; [fine_steps|]. intros _. apply IH.
Qed.

Lemma fine_logged {A} (p : M A) C O : fine' p C O → fine' (Server.logged p) C O.
Proof. intros Hp. unfold Server.logged. apply fine_bind; [by apply fine_try|fine_steps]. Qed.
Hint Resolve fine_logged : fine.

Section server.
Context (quote : string → string) (cfg : Server.ServerConfig) (consumer : string) (mux : Mux).

Lemma fine_deadLetter q e msg cause C O :
  ok_msg K msg → q = m_Queue msg → claim C q e (m_ID msg) →
  fine' (Server.deadLetter K cfg q e msg cause) C O.
Proof.
  intros Hm Hq Hc. unfold Server.deadLetter.
  assert (ok_msg K (with_CompletedAt 0 (with_LastErr (errorText cause) msg))) as Hm'
    by by apply ok_CompletedAt, ok_LastErr.
  apply fine_bind; [|fine_steps]. destruct (m_NoArchive _).
  - by apply fine_logged, fine_Done; [apply ok_Retention|..].
  - apply fine_bind; [fine_steps|]. intros t. by apply fine_logged, fine_Archive.
Qed.

Lemma fine_processSuccess q e msg C O :
  ok_msg K msg → q = m_Queue msg → claim C q e (m_ID msg) →
  fine' (Server.processSuccess K cfg q e msg) C O.
Proof.
  intros Hm Hq Hc. unfold Server.processSuccess. set (had := bool_decide (m_Chain msg ≠ [])).
  apply fine_bind.
  { destruct had; [|fine_steps]. by apply fine_try, fine_withRetry, fine_enqueueNext. }
  intros [_|err]; [|fine_steps].
  set (msg' := if had then with_Chain [] msg else msg).
  assert (ok_msg K msg' ∧ m_Queue msg' = m_Queue msg ∧ m_ID msg' = m_ID msg) as (Hm' & Eq & EID).
  { subst msg'. destruct had; [|done]. split; [|done]. destruct Hm as [Hu ? ? ? ? ?].
    apply utf8_fields_iff in Hu as []. constructor; rewrite ?utf8_fields_iff; try done.
    all: by constructor. }
  apply fine_bind.
  { destruct (_ && _); [|fine_steps]. by apply fine_try, fine_withRetry, fine_CompleteGroupMember. }
  intros [_|err]; [|fine_steps]. apply fine_bind; [|fine_steps].
  apply fine_logged, fine_Done; [done|congruence|by rewrite EID].
Qed.

Lemma fine_processFailure q e msg cause C O :
  ok_msg K msg → q = m_Queue msg → claim C q e (m_ID msg) →
  fine' (Server.processFailure K cfg q e msg cause) C O.
Proof.
  intros Hm Hq Hc. unfold Server.processFailure. destruct (_ || _).
  - apply fine_bind; [by apply fine_deadLetter|fine_steps].
  - apply fine_bind; [fine_steps|]. intros t. apply fine_bind; [|fine_steps].
    apply fine_logged, fine_Retry; [|done|done].
    by apply ok_CompletedAt, ok_LastErr, ok_Retried.
Qed.

(** One task, processed by the worker it was handed to. *)
Lemma fine_process d C O :
  registered mux → in_hand C d →
  fine' (Server.process K quote cfg mux (m_Queue (dq_Msg d)) (dq_StreamID d) (dq_Msg d)) C O.
Proof.
  intros Hreg [Hm Hc]. unfold Server.process.
  pose proof (dispatchSafely_sets quote mux (dq_Msg d) Hreg) as Hset.
  destruct (dispatchSafely quote mux (dq_Msg d)) as [msg err]; simpl in *.
  assert (ok_msg K msg ∧ m_Queue msg = m_Queue (dq_Msg d) ∧ m_ID msg = m_ID (dq_Msg d))
    as (Hm' & Eq & EID).
  { destruct Hset as [->|[b ->]]; [done|]. split; [by apply ok_Result|done]. }
  rewrite <- EID in Hc.
  destruct err; [by apply fine_processFailure|by apply fine_processSuccess].
Qed.

Lemma fine_requeueRest rest C O :
  (∀ d, d ∈ rest → in_hand C d) → fine' (Server.requeueRest K rest) C O.
Proof.
  intros Hr. unfold Server.requeueRest. apply fine_foldl. intros _ d Hd.
  destruct (Hr d Hd) as [Hm Hc]. apply fine_logged, fine_Requeue; [by destruct Hm|done].
Qed.

(** *** Heartbeats *)

Lemma byQueue_queues f q ids :
  (q, ids) ∈ map_to_list (Server.byQueue f) →
  ∃ id e, f !! id = Some e ∧ Server.if_queue e = q.
Proof.
  intros Hin%elem_of_map_to_list. revert Hin. unfold Server.byQueue.
  assert (∀ x, x ∈ map_to_list f → f !! x.1 = Some x.2) as Hf.
  { intros [id e] Hx. by apply elem_of_map_to_list. }
  revert ids Hf. induction (map_to_list f) as [|[id e] l IH]; intros ids Hf; simpl; [done|].
  intros [[Eq _]|[_ Hrest]]%lookup_insert_Some.
  - exists id, e. split; [by apply (Hf (id, e)); left|done].
  - apply (IH ids); [|done]. intros x Hx. apply Hf. by right.
Qed.

Lemma fine_beat f ttl C O :
  (∀ id e, f !! id = Some e → brace_free (Server.if_queue e) ∧ ok_lock K (Server.if_uniqueKey e)) →
  fine' (Server.beat K consumer f ttl) C O.
Proof.
  intros Hf. unfold Server.beat. apply fine_bind.
  - apply fine_foldl. intros _ [q ids] (id & e & He & Eq)%byQueue_queues.
    apply fine_logged, fine_ExtendLease. simpl. rewrite <- Eq. by destruct (Hf id e He).
  - intros _. case_bool_decide; [fine_steps|]. apply fine_logged, fine_RenewUnique.
    intros k [Hk Hin]%list_elem_of_filter. split; [done|].
    apply list_elem_of_fmap in Hin as ([id e] & -> & Hin). apply elem_of_map_to_list in Hin.
    by destruct (Hf id e Hin).
Qed.

(** *** Maintenance and fetching *)

Context (Hqueues : ∀ q, q ∈ Server.queueNames cfg → brace_free q).

Lemma fine_forwarderTick C O : fine' (Server.forwarderTick K cfg) C O.
Proof.
  unfold Server.forwarderTick. apply fine_foldl. intros _ q Hq. pose proof (Hqueues q Hq).
  fine_steps; apply fine_logged; eauto with fine.
Qed.

Lemma fine_recovererTick C O : fine' (Server.recovererTick K cfg consumer) C O.
Proof.
  unfold Server.recovererTick. apply fine_foldl. intros acc q Hq. pose proof (Hqueues q Hq).
  unfold Server.recoverQueue. fine_steps.
Qed.

Lemma fine_janitorTick C O : fine' (Server.janitorTick K cfg) C O.
Proof.
  unfold Server.janitorTick. apply fine_bind; [fine_steps|]. intros t. apply fine_foldl.
  intros acc q Hq. pose proof (Hqueues q Hq). unfold Server.janitorQueue.
  fine_steps.
Qed.

Lemma fine_Start C O : fine' (Server.Start K cfg) C O.
Proof.
  unfold Server.Start. case_bool_decide; [fine_steps|]. apply fine_foldl. intros _ q Hq.
  by apply fine_EnsureGroup, Hqueues.
Qed.

Lemma roundOrder_queues p q :
  Forall brace_free (Wrr.names p) → q ∈ (Server.roundOrder cfg p).2 → brace_free q.
Proof.
  intros Hp. assert (∀ x, x ∈ Server.queuesByWeight cfg → brace_free x) as Hw.
  { intros x Hx. apply Hqueues. unfold Server.queuesByWeight in Hx.
    by rewrite merge_sort_Permutation in Hx. }
  unfold Server.roundOrder. destruct (Server.StrictPriority cfg); [apply Hw|].
  destruct (Wrr.pick p) as [p' primary] eqn:E; simpl.
  intros [->|[_ Hx]%list_elem_of_filter]%elem_of_cons; [|by apply Hw].
  assert (primary = (Wrr.pick p).2) as -> by by rewrite E. clear E.
  unfold Wrr.pick. destruct (Wrr.names p) as [|n ns] eqn:En; simpl; [by inversion 1|].
  destruct (Wrr.pick_loop p) as [cur best]. simpl.
  change (brace_free ((n :: ns) !!! best)). rewrite list_lookup_total_alt.
  destruct ((n :: ns) !! best) as [x|] eqn:Ex; simpl; [|by inversion 1].
  eapply Forall_lookup_1 in Hp; eauto.
Qed.

(** A round hands out tasks in hand. *)
Definition round_in_hand (r : result (Server.fetchState * list Dequeued)) (C O : knowledge) : Prop :=
  ∀ st ts, r = Ok (st, ts) → ∀ d, d ∈ ts → in_hand C d.

Lemma safe_sweep (n : Z) (order : list string) (C O : knowledge) :
  (∀ q, q ∈ order → brace_free q) → safe K (Server.sweep K consumer n order) batch_in_hand C O.
Proof.
  revert C O. induction order as [|q order IH]; intros C O Hq.
  { intros C1 O1 _ _ ts [= <-] d Hd. by apply elem_of_nil in Hd. }
  cbn [Server.sweep].
  apply safe_seq with (Ψ := λ r C O, ∀ y, r = Ok y → batch_in_hand y C O);
    [| |intros e; apply batch_err].
  - apply safe_try. eapply safe_weaken; [apply safe_DequeueBatch, Hq; left|].
    intros r C1 O1 _ _ Hr y [= ->]. exact Hr.
  - intros [ts|e] C1 O1 _ _ Hr.
    + intros C2 O2 HC HO. eapply batch_more; [exact HC|]. by apply Hr.
    + apply IH. intros x Hx. apply Hq. by right.
Qed.

Lemma fine_refreshPaused st C O : fine' (Server.refreshPaused K st) C O.
Proof. unfold Server.refreshPaused. fine_steps. Qed.

Lemma round_none st C O : always (Ok (st, [])) round_in_hand C O.
Proof. intros C1 O1 _ _ st' ts [= <- <-] d Hd. by apply elem_of_nil in Hd. Qed.

Lemma round_err e C O : always (Err e) round_in_hand C O.
Proof. by intros C1 O1 _ _ st ts [=]. Qed.

Lemma safe_fetchRound (busy : Z) (st : Server.fetchState) (C O : knowledge) :
  Forall brace_free (Wrr.names (Server.fs_picker st)) →
  safe K (Server.fetchRound K cfg consumer busy st) round_in_hand C O.
Proof.
  intros Hp. unfold Server.fetchRound.
  destruct (Server.roundOrder cfg (Server.fs_picker st)) as [picker order] eqn:Eo.
  assert (∀ q, q ∈ order → brace_free q) as Ho.
  { intros q Hq. eapply roundOrder_queues; [exact Hp|]. by rewrite Eo. }
  apply safe_then; [apply fine_refreshPaused|intros st'|intros e; apply round_err].
  assert (∀ q, q ∈ filter (λ q, q ∉ Server.fs_paused st') order → brace_free q) as Hf
    by by intros q [_ ?%Ho]%list_elem_of_filter.
  destruct (filter _ order) as [|q0 rest]; [apply round_none|].
  eapply safe_seq; [by apply safe_sweep| |intros e; apply round_err].
  intros ts C1 O1 _ _ Hts. case_bool_decide.
  { intros C2 O2 HC _ st1 ts1 [= <- <-] d Hd. eapply in_hand_more; [exact HC|]. by eapply Hts. }
  case_bool_decide; [apply round_none|].
  apply safe_seq with (Ψ := λ r C O, ∀ y, r = Ok y → batch_in_hand y C O);
    [| |intros e; apply round_err].
  - apply safe_try. eapply safe_weaken; [apply safe_DequeueBatch, Hf; left|].
    intros r C2 O2 _ _ Hr y [= ->]. exact Hr.
  - intros [ts'|e] C2 O2 _ _ Hr; [|apply round_none].
    intros C3 O3 HC _ st1 ts1 [= <- <-] d Hd. eapply in_hand_more; [exact HC|]. by eapply Hr.
Qed.

End server.

(** ** chronos.go, chain.go, group.go: the client's calls *)

Section clients.
Context (sha256hex : bytes → string).

(** A message a client may dispatch, with or without a lock. *)
Definition dispatchable (m : TaskMessage) : Prop :=
  ok_msg K m ∧ ok_msg K (with_UniqueKey (lockKey K sha256hex m) m).

Lemma fine_dispatchMessage msg o C O :
  dispatchable msg → fine' (Options.dispatchMessage K sha256hex msg o) C O.
Proof.
  intros [Hm Hu]. unfold Options.dispatchMessage. apply fine_bind; [fine_steps|]. intros t.
  destruct (bool_decide _), (_ && _); fine_steps; eauto with fine.
Qed.

(** A call of [Enqueue] with names that survive JSON. *)
Lemma fine_EnqueueTask uuid args opts C O :
  (∀ t payload,
     let o := Options.resolve t opts in
     dispatchable (newMessage
       (if bool_decide (Options.o_taskID o = "") then uuid else Options.o_taskID o)
       (Options.Kind args) payload (Options.o_queue o) (Options.o_maxRetry o)
       (Options.o_noArchive o) (Options.retentionSeconds o))) →
  fine' (Options.EnqueueTask K sha256hex uuid args opts) C O.
Proof.
  intros Hd. unfold Options.EnqueueTask. apply fine_bind; [fine_steps|]. intros t.
  apply fine_bind; [unfold Options.encodeArgs; fine_steps|]. intros payload.
  apply fine_bind; [|fine_steps]. apply fine_dispatchMessage, Hd.
Qed.

Lemma fine_ChainEnqueue uuid ch C O :
  (∀ t p, Builder.buildChain t uuid ch = Ok p → dispatchable p.1) →
  fine' (Builder.ChainEnqueue K sha256hex uuid ch) C O.
Proof.
  intros Hd. unfold Builder.ChainEnqueue. apply fine_bind; [fine_steps|]. intros t.
  destruct (Builder.buildChain t uuid ch) as [[msg o]|e] eqn:E; [|apply fine_fail].
  change (fine' (Options.dispatchMessage K sha256hex msg o;; mret (Options.MkEnqueuedInfo
    (m_ID msg) (m_Kind msg) (m_Queue msg) (len (m_Chain msg)))) C O).
  apply fine_bind; [|fine_steps]. apply fine_dispatchMessage, (Hd t _ E).
Qed.

Lemma fine_dispatchMembers i pending C O :
  (∀ p, p ∈ pending → dispatchable p.1) →
  fine' (Builder.dispatchMembers K sha256hex i pending) C O.
Proof.
  revert i. induction pending as [|[msg o] pending IH]; intros i Hp; [apply fine_ret|].
  cbn [Builder.dispatchMembers]. apply fine_bind.
  - apply fine_wrap_err, fine_dispatchMessage, (Hp (msg, o)). left.
  - intros _. apply IH. intros p Hin. apply Hp. by right.
Qed.

Lemma fine_GroupEnqueue uuid g C O :
  (∀ t cb ps, Builder.buildGroup t uuid g = Ok (cb, ps) →
     brace_free (cl_Queue cb) ∧ ∀ p, p ∈ ps → dispatchable p.1) →
  fine' (Builder.GroupEnqueue K sha256hex uuid g) C O.
Proof.
  intros Hd. unfold Builder.GroupEnqueue. apply fine_bind; [fine_steps|]. intros t.
  destruct (Builder.buildGroup t uuid g) as [[cb ps]|e] eqn:E; [|apply fine_fail].
  destruct (Hd t cb ps E) as [Hq Hps].
  change (fine' (CreateGroup K (cl_Queue cb) uuid (Builder.memberIDs uuid g);;
    Builder.dispatchMembers K sha256hex 0 ps;;
    mret (Builder.MkGroupInfo uuid (Builder.memberIDs uuid g) (uuid +:+ ":cb"))) C O).
  apply fine_bind; [by apply fine_CreateGroup|]. intros _.
  apply fine_bind; [by apply fine_dispatchMembers|]. intros _. apply fine_ret.
Qed.

End clients.

(** ** scheduler.go *)

Section scheduler.
Context `{MJ : MetaJson}.

(** An entry whose names survive JSON and keep the hash tag. *)
Record ok_entry (e : Scheduler.scheduleEntry) : Prop := MkOkEntry {
  oe_id : valid (Scheduler.e_id e) = true;
  oe_kind : valid (Scheduler.e_kind e) = true;
  oe_queue : valid (Scheduler.e_queue e) = true;
  oe_brace : brace_free (Scheduler.e_queue e);
}.

Definition ok_scheduler (s : Scheduler.Scheduler) : Prop := Forall ok_entry (Scheduler.s_entries s).

Lemma fine_lastFiredOrInit e t C O : fine' (Scheduler.lastFiredOrInit K e t) C O.
Proof. unfold Scheduler.lastFiredOrInit. fine_steps. Qed.

Lemma fine_fireTrigger s e b t C O : ok_entry e → fine' (Scheduler.fireTrigger K s e b t) C O.
Proof.
  intros [Hi Hk Hq Hb]. unfold Scheduler.fireTrigger, Scheduler.enqueueTrigger.
  apply fine_bind; [|fine_steps]. apply fine_try, fine_EnqueuePeriodic.
  constructor; simpl; rewrite ?utf8_fields_iff; try done; try (by left); try constructor; try done.
  simpl. apply valid_append; [done|]. apply valid_append; [done|]. apply valid_itoa.
Qed.

Lemma fine_fireDue s C O : ok_scheduler s → fine' (Scheduler.fireDue K s) C O.
Proof.
  intros Hs. unfold Scheduler.fireDue. apply fine_bind; [fine_steps|]. intros t.
  apply fine_foldl. intros acc e He.
  assert (ok_entry e) as Hoe by (unfold ok_scheduler in Hs; rewrite Forall_forall in Hs; auto).
  unfold Scheduler.fireEntry. apply fine_bind; [apply fine_lastFiredOrInit|]. intros last.
  destruct (Schedule.computeFires _ _ _ _) as [fires newLast]. apply fine_bind.
  - apply fine_foldl. intros b t' _. by apply fine_fireTrigger.
  - intros b. fine_steps.
Qed.

Lemma fine_tryElect s C O : fine' (Scheduler.tryElect K s) C O.
Proof. unfold Scheduler.tryElect. fine_steps. Qed.

Lemma fine_pruneRegistry s C O : fine' (Scheduler.pruneRegistry K s) C O.
Proof. unfold Scheduler.pruneRegistry. fine_steps. Qed.

(** Electing keeps the entries. *)
Lemma tryElect_entries (s : Scheduler.Scheduler) (C O : knowledge) :
  safe K (Scheduler.tryElect K s)
    (λ r _ _, ∀ s', r = Ok s' → Scheduler.s_entries s' = Scheduler.s_entries s) C O.
Proof.
  unfold Scheduler.tryElect. apply safe_then; [fine_steps| |done].
  intros [ok|e] C1 O1 _ _ s' [= <-]; done.
Qed.

(** One event of the loop; the entries stay. *)
Lemma safe_handle (s : Scheduler.Scheduler) (ev : Scheduler.event) (C O : knowledge) :
  ok_scheduler s →
  safe K (Scheduler.handle K s ev) (λ r _ _, ∀ s', r = Ok s' → ok_scheduler s') C O.
Proof.
  intros Hs. destruct ev; cbn [Scheduler.handle].
  - eapply safe_seq; [apply tryElect_entries| |done]. intros s1 C1 O1 _ _ He.
    assert (ok_scheduler s1) by (unfold ok_scheduler; by rewrite He).
    apply safe_then; [fine_steps|intros _|done].
    apply safe_then; [apply fine_pruneRegistry|intros _|done].
    by intros C2 O2 _ _ s' [= <-].
  - eapply safe_weaken; [apply tryElect_entries|]. intros r C1 O1 _ _ He s' Hr.
    unfold ok_scheduler. by rewrite (He s' Hr).
  - apply safe_then; [destruct (Scheduler.s_isLeader s); [by apply fine_fireDue|fine_steps]| |done].
    intros _ C1 O1 _ _ s' [= <-]. done.
Qed.

(** Any number of events. *)
Lemma fine_run_events s evs C O : ok_scheduler s → fine' (Scheduler.run_events K s evs) C O.
Proof.
  intros Hs. unfold Scheduler.run_events.
  eapply fine_seq; [apply tryElect_entries|]. intros s1 C1 O1 _ _ He.
  assert (ok_scheduler s1) as Hs1 by (unfold ok_scheduler; by rewrite He).
  clear He Hs s C O. revert s1 C1 O1 Hs1.
  induction evs as [|ev evs IH]; intros s C O Hs; [apply fine_ret|].
  cbn [go_foldl]. eapply fine_seq; [by apply safe_handle|]. intros s' C1 O1 _ _ Hs'.
  by apply IH, Hs'.
Qed.

Lemma fine_scheduler_Start s C O : fine' (Scheduler.Start K s) C O.
Proof. unfold Scheduler.Start. fine_steps. apply fine_pruneRegistry. Qed.
Lemma fine_scheduler_Shutdown s C O : fine' (Scheduler.Shutdown K s) C O.
Proof. unfold Scheduler.Shutdown. fine_steps. Qed.

End scheduler.

End programs.
End Programs.
