(* ===== verification/FrontEnds.v ===== *)
(** * The front ends are safe

    The console's handlers and the commands of the command line make only
    steps of the abstract system, like the other programs of [Programs]. *)

From S2P Require Import Prelude GoLib Base Redis Client RdbLocks RdbAdmin Inspector GoText Sparkline.
From S2P Require Import Cli Console Lifecycle Processes Programs.

Module FrontEnds.
Import Keys Task Redis Client RdbLocks RdbAdmin Inspector Sparkline.
Import Lifecycle Processes Programs.

#[local] Arguments mbind {_ _ _ _} _ _ : simpl never.

Section frontends.
Context `{R : Redis} `{J : Json} `{MJ : MetaJson} (K : Keys).
Context (quote : string → string) (lib : err → string) (jsonIndent : GoStr.bytes → option string).

Abbreviation fine' := (fine K).

#[local] Hint Resolve fine_PauseQueue fine_ResumeQueue fine_PausedQueues fine_RunTask fine_DeleteTask
  fine_InspectQueues fine_ListTasks fine_InspectTask fine_SchedulerStatus : fine.

(** ** The command line *)

Lemma fine_cli args C O : Forall brace_free args → fine' (Cli.run quote lib K args) C O.
Proof.
  intros Ha. unfold Cli.run. destruct args as [|cmd rest]; [fine_steps|].
  apply Forall_cons in Ha as [_ Ha]. case_decide; [|case_decide; [|fine_steps]].
  - unfold Cli.queueCommand. destruct rest as [|verb rest]; [fine_steps|].
    case_decide; [unfold Cli.queueLs; fine_steps|]. case_decide; [|fine_steps].
    destruct rest; [fine_steps|]. unfold Cli.queueAction. fine_steps.
  - unfold Cli.taskCommand. destruct rest as [|verb [|q [|x []]]]; try (by fine_steps).
    apply Forall_cons in Ha as [_ Ha]. apply Forall_cons in Ha as [Hq _].
    unfold Cli.taskLs, Cli.taskAction. repeat case_decide; fine_steps.
Qed.

(** ** The console *)

Lemma fine_sampleQueue acc q C O : fine' (Console.sampleQueue acc q) C O.
Proof. unfold Console.sampleQueue. fine_steps. Qed.

Lemma fine_bulkLoop fuel q state fn b C O :
  (∀ id C O, fine' (fn q id) C O) → fine' (Console.bulkLoop K quote fuel q state fn b) C O.
Proof.
  intros Hfn. revert b C O. induction fuel as [|fuel IH]; intros b C O; simpl; [fine_steps|].
  case_match; [fine_steps|]. apply fine_bind; [fine_steps|]. intros [tasks|e]; [|fine_steps].
  apply fine_bind; [|intros b'; case_match; [apply IH|fine_steps]].
  apply fine_foldl. intros b' t _. unfold Console.bulkOne. fine_steps.
Qed.

Lemma fine_bulk r q fn verb C O :
  (∀ id C O, fine' (fn q id) C O) → fine' (Console.bulk K quote lib r q fn verb) C O.
Proof.
  intros Hfn. unfold Console.bulk. case_match; [fine_steps|]. simpl. case_match; [fine_steps|].
  apply fine_bind; [by apply fine_bulkLoop|fine_steps].
Qed.

Lemma fine_action r q id fn msg C O :
  fine' (fn q id) C O → fine' (Console.action lib r q id fn msg) C O.
Proof. intros Hfn. unfold Console.action. fine_steps. Qed.

Lemma fine_queueAction r q fn msg C O :
  fine' (fn q) C O → fine' (Console.queueAction lib r q fn msg) C O.
Proof. intros Hfn. unfold Console.queueAction. fine_steps. Qed.

Lemma fine_servePost r C O :
  Forall brace_free (Console.rq_path r) → fine' (Console.servePost K quote lib r) C O.
Proof.
  intros Hp. unfold Console.servePost.
  destruct (Console.rq_path r) as [|a [|q [|b [|c [|d []]]]]]; try (by fine_steps);
    apply Forall_cons in Hp as [_ Hp]; apply Forall_cons in Hp as [Hq _];
    repeat case_decide; eauto using fine_queueAction, fine_action, fine_bulk with fine; fine_steps.
Qed.

Lemma fine_findTask id qs C O : fine' (Console.findTask K quote id qs) C O.
Proof.
  revert C O. induction qs as [|q qs IH]; intros C O; simpl; [fine_steps|].
  apply fine_bind; [fine_steps|]. intros [t|e]; [fine_steps|]. apply IH.
Qed.

Lemma fine_search r C O : fine' (Console.search K quote r) C O.
Proof.
  unfold Console.search. pose proof fine_findTask. simpl. case_match; [fine_steps|].
  apply fine_bind; [fine_steps|]. intros [qs|e]; fine_steps.
Qed.

Lemma fine_dashboard st r C O : fine' (Console.dashboard K lib st r) C O.
Proof.
  unfold Console.dashboard. fine_steps. apply fine_foldl. intros. apply fine_sampleQueue.
Qed.

Lemma fine_apiStats st C O : fine' (Console.apiStats K lib st) C O.
Proof.
  unfold Console.apiStats. fine_steps. apply fine_foldl. intros. apply fine_sampleQueue.
Qed.

Lemma fine_queueDetail q r C O : fine' (Console.queueDetail K quote lib q r) C O.
Proof. unfold Console.queueDetail. fine_steps. Qed.

Lemma fine_taskDetail q id C O : fine' (Console.taskDetail K quote lib jsonIndent q id) C O.
Proof.
  unfold Console.taskDetail. fine_steps. unfold GroupMemberIDs. fine_steps.
Qed.

Lemma fine_schedulerPage C O : fine' (Console.schedulerPage K lib) C O.
Proof. unfold Console.schedulerPage. fine_steps. Qed.

Lemma fine_stateless st p C O : fine' p C O → fine' (Console.stateless st p) C O.
Proof. intros Hp. unfold Console.stateless. fine_steps. Qed.

Lemma fine_serve st r C O :
  Forall brace_free (Console.rq_path r) → fine' (Console.serve K quote lib jsonIndent st r) C O.
Proof.
  intros Hp. unfold Console.serve, Console.serveGet. case_decide; [|case_decide; [|fine_steps]].
  - repeat case_match; eauto using fine_stateless, fine_search, fine_dashboard, fine_apiStats,
      fine_queueDetail, fine_taskDetail, fine_schedulerPage; fine_steps.
  - by apply fine_stateless, fine_servePost.
Qed.

End frontends.
End FrontEnds.
