(* ===== verification/Concurrent.v ===== *)
(** * The concurrent system

    Any number of goroutines of any number of processes run the Go code
    against one server.  A step runs one command, script or transaction of
    one goroutine; so goroutines interleave at every round trip, and inside a
    pipeline at every command.  A round trip may fail for its caller and
    still reach the server at any later time.  Goroutines start and crash at
    any time, clocks read anything, and time passes.

    The main theorems: every run of this system is a run of the abstract
    system of [Lifecycle] (a forward simulation), hence no task is lost, and
    the body stored under a task's key leads back to that key. *)

From S2P Require Import Prelude GoLib Wrr Base Redis RedisFacts Client.
From S2P Require Import RdbCore RdbLocks RdbFlow RdbAdmin Instances Lifecycle Processes Programs.
From S2P Require Import Retry Schedule Handler Server Options Builder Scheduler Inspector.
From S2P Require Import Cli Console FrontEnds.
From Stdlib Require Import Ascii.

Module Concurrent.
Import GoStr Keys Task Redis Client RdbCore RdbLocks RdbFlow RdbAdmin Lifecycle Processes Programs.
Import Handler.

Section concurrent.
Context `{R : Redis} `{J : Json} `{MJ : MetaJson} (K : Keys).
Context (sha256hex : bytes → string).

(** ** Goroutines *)

(** A fetcher hands what it fetched to workers; the result of any other
    goroutine is of no interest. *)
Inductive thread :=
  | Fetching (p : M (Server.fetchState * list Dequeued))
  | Working {A} (p : M A).

(** The answer of a pipeline's first command joins the others. *)
Definition rcons {X} (x : X) (r : result (list X)) : result (list X) :=
  match r with Ok l => Ok (x :: l) | Err e => Err e end.

(** One step of a program: its next command runs, or its round trip fails
    and what it sent is left on the way. *)
Inductive mstep {A} : M A → store → M A → store → list thread → Prop :=
  | m_trip X (p : script (result X)) k s :
      mstep (Do (Trip p) k) s (k (p s).2) (p s).1 []
  | m_trip_lost X (p : script (result X)) k s :
      mstep (Do (Trip p) k) s (k (Err ErrNet)) s [Working (Do (Trip p) Return)]
  | m_pipe_done X k s : mstep (Do (Pipe (X := X) []) k) s (k (Ok [])) s []
  | m_pipe_next X (p : script X) ps k s :
      mstep (Do (Pipe (p :: ps)) k) s (Do (Pipe ps) (λ r, k (rcons (p s).2 r))) (p s).1 []
  | m_pipe_lost X (ps : list (script X)) k s :
      mstep (Do (Pipe ps) k) s (k (Err ErrNet)) s [Working (Do (Pipe ps) Return)]
  | m_clock k s t : mstep (Do Clock k) s (k t) s []
  | m_knows q k s b : mstep (Do (Knows q) k) s (k b) s []
  | m_learn q k s : mstep (Do (Learn q) k) s (k ()) s []
  | m_sleep ms k s : mstep (Do (Sleep ms) k) s (k ()) s [].

Inductive tstep : thread → store → thread → store → list thread → Prop :=
  | t_fetch p s p' s' late : mstep p s p' s' late → tstep (Fetching p) s (Fetching p') s' late
  | t_work A (p p' : M A) s s' late :
      mstep p s p' s' late → tstep (Working p) s (Working p') s' late.

(** A server's configuration: its queues keep the hash tag. *)
Definition ok_config (cfg : Server.ServerConfig) : Prop :=
  ∀ q, q ∈ Server.queueNames cfg → brace_free q.

(** What the processes start: the calls of clients, the loops of servers
    (one tick or round each), the scheduler's loop, the administrator, the
    console's requests and the command line. *)
Inductive goroutine : thread → Prop :=
  | go_dispatch msg o :
      dispatchable K sha256hex msg →
      goroutine (Working (Options.dispatchMessage K sha256hex msg o))
  | go_enqueue uuid args opts :
      (∀ t payload,
         let o := Options.resolve t opts in
         dispatchable K sha256hex (newMessage
           (if bool_decide (Options.o_taskID o = "") then uuid else Options.o_taskID o)
           (Options.Kind args) payload (Options.o_queue o) (Options.o_maxRetry o)
           (Options.o_noArchive o) (Options.retentionSeconds o))) →
      goroutine (Working (Options.EnqueueTask K sha256hex uuid args opts))
  | go_chain uuid ch :
      (∀ t p, Builder.buildChain t uuid ch = Ok p → dispatchable K sha256hex p.1) →
      goroutine (Working (Builder.ChainEnqueue K sha256hex uuid ch))
  | go_group uuid g :
      (∀ t cb ps, Builder.buildGroup t uuid g = Ok (cb, ps) →
         brace_free (cl_Queue cb) ∧ ∀ p, p ∈ ps → dispatchable K sha256hex p.1) →
      goroutine (Working (Builder.GroupEnqueue K sha256hex uuid g))
  | go_serve cfg : ok_config cfg → goroutine (Working (Server.Start K cfg))
  | go_fetch cfg consumer busy st :
      ok_config cfg → Forall brace_free (Wrr.names (Server.fs_picker st)) →
      goroutine (Fetching (Server.fetchRound K cfg consumer busy st))
  | go_beat consumer f ttl :
      (∀ id e, f !! id = Some e →
         brace_free (Server.if_queue e) ∧ ok_lock K (Server.if_uniqueKey e)) →
      goroutine (Working (Server.beat K consumer f ttl))
  | go_forward cfg : ok_config cfg → goroutine (Working (Server.forwarderTick K cfg))
  | go_recover cfg consumer :
      ok_config cfg → goroutine (Working (Server.recovererTick K cfg consumer))
  | go_janitor cfg : ok_config cfg → goroutine (Working (Server.janitorTick K cfg))
  | go_schedule s evs :
      ok_scheduler s → goroutine (Working (Scheduler.run_events K s evs))
  | go_schedStart s : goroutine (Working (Scheduler.Start K s))
  | go_schedStop s : goroutine (Working (Scheduler.Shutdown K s))
  | go_pause q : goroutine (Working (PauseQueue K q))
  | go_resume q : goroutine (Working (ResumeQueue K q))
  | go_runTask q T : brace_free q → goroutine (Working (RunTask K q T))
  | go_deleteTask q T : brace_free q → goroutine (Working (DeleteTask K q T))
  | go_queues : goroutine (Working (Inspector.InspectQueues K))
  | go_list quote q st n : goroutine (Working (Inspector.ListTasks K quote q st n))
  | go_inspect quote q T : goroutine (Working (Inspector.InspectTask K quote q T))
  | go_status : goroutine (Working (Inspector.SchedulerStatus K))
  | go_console quote lib jsonIndent st r :
      Forall brace_free (Console.rq_path r) →
      goroutine (Working (Console.serve K quote lib jsonIndent st r))
  | go_cli quote lib args :
      Forall brace_free args → goroutine (Working (Cli.run quote lib K args)).

(** ** The system *)

Record conf := MkConf {
  c_store : store;
  c_pool : list thread;
}.

(** The worker of one task. *)
Definition worker (quote : string → string) (cfg : Server.ServerConfig) (mux : Mux) (d : Dequeued)
    : thread :=
  Working (Server.process K quote cfg mux (m_Queue (dq_Msg d)) (dq_StreamID d) (dq_Msg d)).

Inductive conc_step : conf → conf → Prop :=
  | conc_run th th' s s' late l1 l2 :
      tstep th s th' s' late →
      conc_step (MkConf s (l1 ++ th :: l2)) (MkConf s' (l1 ++ th' :: late ++ l2))
  | conc_go th s l : goroutine th → conc_step (MkConf s l) (MkConf s (th :: l))
  | conc_handover quote cfg mux st run rest s l1 l2 :
      registered mux →
      conc_step (MkConf s (l1 ++ Fetching (Return (Ok (st, run ++ rest))) :: l2))
        (MkConf s (l1 ++ map (worker quote cfg mux) run
                   ++ Working (Server.requeueRest K rest) :: l2))
  | conc_crash th s l1 l2 : conc_step (MkConf s (l1 ++ th :: l2)) (MkConf s (l1 ++ l2))
  | conc_time dt s l : (0 ≤ dt)%Z → conc_step (MkConf s l) (MkConf (elapse_store dt s) l).

(** ** The simulation *)

Abbreviation knowledge := (gset claim_t).
Abbreviation step' := (step K (addressed K)).
Abbreviation Inv' := (Inv K (addressed K)).

Definition thread_safe (C O : knowledge) (th : thread) : Prop :=
  match th with
  | Fetching p => safe K p (round_in_hand K) C O
  | Working p => fine K p C O
  end.

Lemma thread_safe_more (C O C' O' : knowledge) (th : thread) :
  C ⊆ C' → O ⊆ O' → thread_safe C O th → thread_safe C' O' th.
Proof. intros HC HO. destruct th; simpl; intros H; by eapply safe_more. Qed.

(** What a lost round trip left on the way is harmless. *)
Lemma late_safe {X Y} (o : op (result X)) (Φ : result Y → knowledge → knowledge → Prop) (k : result X → M Y) (C O : knowledge) :
  safe_op K o (λ x, safe K (k x) Φ) C O → fine K (Do o Return) C O.
Proof.
  intros Ho. eapply (safe_op_mono K o _ (λ x, always x anything)); [exact Ho|done|done|].
  repeat intro. exact I.
Qed.

(** One step of a program is simulated. *)
Lemma mstep_safe {A} (p p' : M A) (s s' : store) (late : list thread)
    (Φ : result A → knowledge → knowledge → Prop) (C O : knowledge) :
  mstep p s p' s' late → safe K p Φ C O → Inv' (ks s) C O →
  ∃ C1 O1 : knowledge, rtc step' (MkSys s C O) (MkSys s' C1 O1) ∧ C ⊆ C1 ∧ O ⊆ O1 ∧
           safe K p' Φ C1 O1 ∧ Forall (thread_safe C1 O1) late.
Proof.
  destruct 1; intros Hp HI.
  - destruct Hp as [Hp _]. destruct (Hp s C O) as (C1 & O1 & ? & ? & ? & ?); [done..|].
    by exists C1, O1.
  - pose proof (late_safe _ _ _ _ _ Hp) as Hl. destruct Hp as [_ Hp].
    exists C, O. split_and!; [done|done|done|by apply Hp|by apply Forall_singleton].
  - destruct Hp as [Hp _]. exists C, O. split_and!; [done|done|done|by apply Hp|done].
  - destruct Hp as [Hp He]. destruct (Hp s C O) as (C1 & O1 & ? & ? & ? & Hps); [done..|].
    exists C1, O1. split_and!; [done..| |done]. split; [exact Hps|].
    intros C2 O2 HC2 HO2. simpl. apply He; by etrans.
  - pose proof (late_safe _ _ _ _ _ Hp) as Hl. destruct Hp as [_ Hp].
    exists C, O. split_and!; [done|done|done|by apply Hp|by apply Forall_singleton].
  - exists C, O. split_and!; [done|done|done|by apply Hp|done].
  - exists C, O. split_and!; [done|done|done|by apply Hp|done].
  - exists C, O. split_and!; [done|done|done|by apply Hp|done].
  - exists C, O. split_and!; [done|done|done|by apply Hp|done].
Qed.

Lemma tstep_safe (th th' : thread) (s s' : store) (late : list thread) (C O : knowledge) :
  tstep th s th' s' late → thread_safe C O th → Inv' (ks s) C O →
  ∃ C1 O1 : knowledge, rtc step' (MkSys s C O) (MkSys s' C1 O1) ∧ C ⊆ C1 ∧ O ⊆ O1 ∧
           thread_safe C1 O1 th' ∧ Forall (thread_safe C1 O1) late.
Proof. destruct 1; simpl; intros; by eapply mstep_safe. Qed.

(** Whatever is started is safe. *)
Lemma goroutine_safe (th : thread) (C O : knowledge) : goroutine th → thread_safe C O th.
Proof.
  destruct 1; simpl;
    eauto using fine_dispatchMessage, fine_EnqueueTask, fine_ChainEnqueue, fine_GroupEnqueue, fine_Start,
      safe_fetchRound, fine_beat, fine_forwarderTick, fine_recovererTick, fine_janitorTick,
      fine_run_events, fine_scheduler_Start, fine_scheduler_Shutdown, fine_PauseQueue,
      fine_ResumeQueue, fine_RunTask, fine_DeleteTask, fine_InspectQueues, fine_ListTasks,
      fine_InspectTask, fine_SchedulerStatus, FrontEnds.fine_serve, FrontEnds.fine_cli.
Qed.

Context (HK : valid_keys K).

Lemma rtc_step_inv σ σ' :
  rtc step' σ σ' → Inv' (ks (s_store σ)) (s_claims σ) (s_orphans σ) →
  Inv' (ks (s_store σ')) (s_claims σ') (s_orphans σ').
Proof. induction 1; [done|]. eauto using step_inv. Qed.

(** Configurations and states of the abstract system that correspond. *)
Record simulates (c : conf) (σ : sys) : Prop := MkSimulates {
  sim_store : s_store σ = c_store c;
  sim_inv : Inv' (ks (s_store σ)) (s_claims σ) (s_orphans σ);
  sim_pool : Forall (thread_safe (s_claims σ) (s_orphans σ)) (c_pool c);
}.

(** A step of the concurrent system is matched by steps of the abstract one. *)
Lemma conc_step_simulated c c' σ :
  conc_step c c' → simulates c σ → ∃ σ', rtc step' σ σ' ∧ simulates c' σ'.
Proof.
  destruct σ as [s0 C O]. destruct 1 as [th th' s s' late l1 l2 Ht|th s l Hg
    |quote cfg mux st run rest s l1 l2 Hreg|th s l1 l2|dt s l Hdt];
    intros [Hs HI Hp]; simpl in *; subst s0.
  - apply Forall_app in Hp as [Hp1 [Hth Hp2]%Forall_cons].
    destruct (tstep_safe th th' s s' late C O) as (C1 & O1 & Hst & HC & HO & Hth' & Hlate); [done..|].
    exists (MkSys s' C1 O1). split; [done|]. constructor; simpl; [done|by apply rtc_step_inv in Hst|].
    rewrite Forall_app, Forall_cons, Forall_app.
    split_and!; [|done|done|]; eapply Forall_impl; try done; intros; by eapply thread_safe_more.
  - exists (MkSys s C O). split; [done|]. constructor; simpl; [done|done|].
    constructor; [by apply goroutine_safe|done].
  - exists (MkSys s C O). split; [done|]. constructor; simpl; [done|done|].
    apply Forall_app in Hp as [Hp1 [Hth Hp2]%Forall_cons]. simpl in Hth.
    specialize (Hth C O ltac:(done) ltac:(done) st _ eq_refl).
    rewrite !Forall_app, Forall_cons. split_and!; [done| | |done].
    + apply Forall_fmap, Forall_forall. intros d Hd. simpl. apply fine_process; [done|].
      apply Hth. apply elem_of_app. by left.
    + simpl. apply fine_requeueRest. intros d Hd. apply Hth. apply elem_of_app. by right.
  - exists (MkSys s C O). split; [done|]. constructor; simpl; [done|done|].
    apply Forall_app in Hp as [Hp1 [_ Hp2]%Forall_cons]. by apply Forall_app.
  - exists (MkSys (elapse_store dt s) C O). split; [by apply rtc_once, step_time|].
    constructor; simpl; [done| |done]. by apply (step_inv K HK _ (MkSys s C O)
      (MkSys (elapse_store dt s) C O) (step_time _ _ dt s C O Hdt)).
Qed.

Lemma rtc_simulated c c' σ :
  rtc conc_step c c' → simulates c σ → ∃ σ', rtc step' σ σ' ∧ simulates c' σ'.
Proof.
  intros Hr. revert σ. induction Hr as [c|c c1 c' Hs _ IH]; intros σ Hσ; [by exists σ|].
  destruct (conc_step_simulated c c1 σ Hs Hσ) as (σ1 & Hσ1 & Hsim).
  destruct (IH σ1 Hsim) as (σ' & Hσ' & Hsim'). exists σ'. split; [by etrans|done].
Qed.

(** Nothing runs, and the server is empty. *)
Definition start (s : store) : conf := MkConf s [].

Lemma start_simulated s :
  ks s = empty_keyspace → simulates (start s) (MkSys s ∅ ∅).
Proof.
  intros Hs. constructor; simpl; [done| |done].
  exact (initial_inv K HK (addressed K) (MkSys s ∅ ∅) (conj Hs (conj eq_refl eq_refl))).
Qed.

(** ** A program that runs alone

    The semantics of one process ([exec_M]) is one of the interleavings. *)

Lemma conc_head th th' s s' l :
  tstep th s th' s' [] → conc_step (MkConf s (th :: l)) (MkConf s' (th' :: l)).
Proof. intros H. exact (conc_run th th' s s' [] [] l H). Qed.

Lemma pipe_alone {X A} (ps : list (script X)) (k : result (list X) → M A) s l :
  rtc conc_step (MkConf s (Working (Do (Pipe ps) k) :: l))
    (MkConf (pipe_all ps s).1 (Working (k (Ok (pipe_all ps s).2)) :: l)).
Proof.
  revert k s. induction ps as [|p ps IH]; intros k s.
  - by apply rtc_once, conc_head, t_work, m_pipe_done.
  - eapply rtc_l; [by apply conc_head, t_work, m_pipe_next|].
    assert (pipe_all (p :: ps) s
            = ((pipe_all ps (p s).1).1, (p s).2 :: (pipe_all ps (p s).1).2)) as ->
      by (simpl; destruct (p s) as [s1 x]; simpl; by destruct (pipe_all ps s1)).
    apply IH.
Qed.

Lemma run_alone {A} (p : M A) w l :
  quiet w →
  rtc conc_step (MkConf (w_store w) (Working p :: l))
    (MkConf (w_store (p w).1) (Working (A := A) (Return (p w).2) :: l)).
Proof.
  revert w. induction p as [r|X o k IH]; intros w Hw; [done|].
  change (exec_M (Do o k) w) with (let (w', x) := do_op o w in exec_M (k x) w').
  assert (quiet (do_op o w).1 ∧
          rtc conc_step (MkConf (w_store w) (Working (Do o k) :: l))
            (MkConf (w_store (do_op o w).1) (Working (k (do_op o w).2) :: l))) as [Hq Hr].
  { unfold quiet in *. destruct o as [X p|X ps| | | |ms]; simpl; unfold next; rewrite ?Hw; simpl.
    - destruct (p (w_store w)) as [s r] eqn:E. split; [done|]. simpl.
      pose proof (m_trip X p k (w_store w)) as Hm. rewrite E in Hm.
      by apply rtc_once, conc_head, t_work.
    - pose proof (pipe_alone ps k (w_store w) l) as Hp.
      destruct (pipe_all ps (w_store w)). by split.
    - split; [done|]. by apply rtc_once, conc_head, t_work, m_clock.
    - split; [done|]. by apply rtc_once, conc_head, t_work, m_knows.
    - split; [done|]. by apply rtc_once, conc_head, t_work, m_learn.
    - split; [done|]. eapply rtc_l; [apply conc_head, t_work, m_sleep|].
      apply rtc_once, conc_time. lia. }
  etrans; [exact Hr|]. destruct (do_op o w) as [w' x]. by apply IH.
Qed.

(** C2: the Go code refines the abstract system.  Any number of clients,
    workers, fetchers, forwarders, recoverers, janitors, schedulers and
    administrators, interleaved at every command they send, losing any of
    their round trips (which may still take effect later), started and
    crashing at any time, drive the server only through steps of the abstract
    system of [Lifecycle]. *)
Theorem processes_refine s c :
  ks s = empty_keyspace → rtc conc_step (start s) c →
  ∃ C O : knowledge, rtc (step K (addressed K)) (MkSys s ∅ ∅) (MkSys (c_store c) C O).
Proof.
  intros Hs Hr. destruct (rtc_simulated _ _ _ Hr (start_simulated s Hs)) as ([s' C O] & H & Hsim).
  exists C, O. by rewrite <- (sim_store _ _ Hsim).
Qed.

(** C1: the Go code loses no task.  In every run of the concurrent system, a
    task whose body the server holds is in the stream of its queue or in one
    of its state ZSETs, and its body decodes, if at all, to a message that
    names the queue and the ID under which it is stored. *)
Theorem concurrent_no_task_lost s c q T b :
  ks s = empty_keyspace → rtc conc_step (start s) c → brace_free q →
  hget (ks (c_store c)) (TaskKey K q T) "msg" = Some b →
  ((∃ e, (e, T) ∈ st_entries (stream_at (ks (c_store c)) (StreamKey K q))) ∨
   (∃ z, is_Some (zset_at (ks (c_store c)) (zkey K q z) !! T))) ∧
  (∀ msg, DecodeMessage b = Some msg → m_Queue msg = q ∧ m_ID msg = T).
Proof.
  intros Hs Hr Hq Hb.
  destruct (rtc_simulated _ _ _ Hr (start_simulated s Hs)) as (σ & _ & [Hst HI _]).
  rewrite Hst in HI. split.
  - destruct (inv_found _ _ _ _ _ HI q T Hq) as [(e & He & _)|[z Hz]];
      [by unfold body; rewrite Hb|left|right]; eauto.
  - intros msg Hd. by destruct (inv_bodies _ _ _ _ _ HI q T b Hq Hb msg Hd) as (? & ? & _).
Qed.

End concurrent.

(** A client enqueues a task while an administrator pauses the queue. *)
Definition demo_task : TaskMessage := newMessage "t1" "email" "hi" "q" 3 false 0.

Definition no_options : Options.enqueueOptions := Options.resolve 0 [].

Definition demo_client : M (R := RefRedis.RefRedis) () :=
  Options.dispatchMessage DefaultKeys (λ _, "00") demo_task no_options.

Definition demo_empty : world (R := RefRedis.RefRedis) :=
  MkWorld (empty_keyspace : RefRedis.RefRedis.(store)) [] 0 ∅.

Definition demo_end : conf (R := RefRedis.RefRedis) :=
  MkConf (w_store (demo_client demo_empty).1)
    [Working (Return (demo_client demo_empty).2); Working (PauseQueue DefaultKeys "q")].

Lemma demo_dispatchable : dispatchable DefaultKeys (λ _, "00") demo_task.
Proof.
  assert (brace_free "q") as Hq by (by apply (bool_decide_unpack (brace_free "q"))).
  split; (constructor; [by vm_compute|done| |by constructor|done|by constructor]).
  - by left.
  - right. by eexists "q", _.
Qed.

Lemma demo_run :
  rtc (conc_step DefaultKeys (λ _, "00")) (start (w_store demo_empty)) demo_end.
Proof.
  eapply rtc_l; [apply conc_go, go_pause|].
  eapply rtc_l; [apply conc_go, go_dispatch, demo_dispatchable|].
  by apply run_alone.
Qed.

Lemma processes_refine_witness :
  ∃ C O : gset claim_t,
    rtc (step DefaultKeys (addressed DefaultKeys)) (MkSys (w_store demo_empty) ∅ ∅)
      (MkSys (c_store demo_end) C O).
Proof.
  assert (valid_keys DefaultKeys) as HK by (by exists "chronos").
  apply (processes_refine DefaultKeys (λ _, "00") HK); [done|apply demo_run].
Defined.

Lemma concurrent_no_task_lost_witness :
  ∃ b, hget (ks (c_store demo_end)) (TaskKey DefaultKeys "q" "t1") "msg" = Some b ∧
       ((∃ e, (e, "t1") ∈ st_entries (stream_at (ks (c_store demo_end)) (StreamKey DefaultKeys "q"))) ∨
        (∃ z, is_Some (zset_at (ks (c_store demo_end)) (zkey DefaultKeys "q" z) !! "t1"))).
Proof.
  assert (valid_keys DefaultKeys) as HK by (by exists "chronos").
  assert (brace_free "q") as Hq by (by apply (bool_decide_unpack (brace_free "q"))).
  eexists. split; [by vm_compute|].
  eapply (concurrent_no_task_lost DefaultKeys (λ _, "00") HK);
    [|apply demo_run|done|by vm_compute]. done.
Defined.

End Concurrent.
