(* ===== verification/Typing.v ===== *)
(** * Every key holds one type of value

    A Redis key holds a string, a hash, a set, a sorted set or a stream, and
    a command for another type is refused ([WRONGTYPE]).  The data model of
    [Redis] keeps a map per type instead.  This file gives every key the
    program builds its type, shows that no key gets two, and that in every
    run of the concurrent system the server holds each key under its type
    only: the model never hides a refused command. *)

From S2P Require Import Prelude GoLib Base Redis RedisFacts Client.
From S2P Require Import RdbCore RdbLocks RdbFlow RdbAdmin Instances Lifecycle Concurrent.
From Stdlib Require Import Ascii.

Module Typing.
Import GoStr Keys Task Redis RedisFacts Client RdbCore RdbLocks RdbFlow RdbAdmin Lifecycle Concurrent.

Inductive kind := TString | THash | TSet | TZset | TStream.

(** The keyspace holds a value of this type under the key. *)
Definition holds (t : kind) (m : keyspace) (k : string) : Prop :=
  match t with
  | TString => is_Some (k_str m !! k)
  | THash => is_Some (k_hash m !! k)
  | TSet => is_Some (k_set m !! k)
  | TZset => is_Some (k_zset m !! k)
  | TStream => is_Some (k_stream m !! k)
  end.

(** The type of a queue's key. *)
Definition queue_kind (x : queue_key) : kind :=
  match x with
  | KStream => TStream
  | KRetry | KArchived | KCompleted | KScheduled => TZset
  | KTask _ | KGroupResult _ => THash
  | KGroup _ => TSet
  | KUnique _ | KPeriodic _ => TString
  end.

(** The keys of no queue, with their types. *)
Inductive global_key := GQueues | GPaused | GSchedules | GLeader | GLastFired (i : string).

Definition globalKey (K : Keys) (g : global_key) : string :=
  match g with
  | GQueues => QueuesKey K | GPaused => PausedKey K | GSchedules => SchedulesKey K
  | GLeader => LeaderKey K | GLastFired i => ScheduleLastFiredKey K i
  end.

Definition global_name (g : global_key) : string :=
  match g with
  | GQueues => "queues" | GPaused => "paused" | GSchedules => "schedules" | GLeader => "leader"
  | GLastFired i => "sched:" +:+ i +:+ ":last"
  end.

Definition global_kind (g : global_key) : kind :=
  match g with
  | GQueues | GPaused => TSet
  | GSchedules => THash
  | GLeader | GLastFired _ => TString
  end.

Lemma globalKey_name K g : globalKey K g = prefix K +:+ (":" +:+ global_name g).
Proof. by destruct g. Qed.

Section typing.
Context (K : Keys).

(** The type of a key the program builds. *)
Inductive key_of : kind → string → Prop :=
  | ko_queue q x : brace_free q → key_of (queue_kind x) (queueKey K q x)
  | ko_global g : key_of (global_kind g) (globalKey K g).

Definition typed (m : keyspace) : Prop := ∀ t k, holds t m k → key_of t k.

(** A key the program builds. *)
Definition owned (k : string) : Prop := ∃ t, key_of t k.

Lemma typed_empty : typed empty_keyspace.
Proof. intros [] k [v Hv]; simpl in Hv; by rewrite lookup_empty in Hv. Qed.

(** *** What a command acts on *)

(** The value under the key is the same. *)
Definition same_at (t : kind) (m m' : keyspace) (k : string) : Prop :=
  match t with
  | TString => k_str m' !! k = k_str m !! k
  | THash => k_hash m' !! k = k_hash m !! k
  | TSet => k_set m' !! k = k_set m !! k
  | TZset => k_zset m' !! k = k_zset m !! k
  | TStream => k_stream m' !! k = k_stream m !! k
  end.

(** From [m] to [m'] only keys of the program changed, and each holds at most
    a value of its type if it did. *)
Record acts (m m' : keyspace) : Prop := MkActs {
  acts_now : k_now m' = k_now m;
  acts_val : ∀ t k, same_at t m m' k ∨ (owned k ∧ (holds t m' k → key_of t k));
  acts_exp : ∀ k, k_exp m' !! k = k_exp m !! k ∨ owned k;
}.

Lemma same_holds t m m' k : same_at t m m' k → holds t m' k → holds t m k.
Proof. by destruct t; simpl; intros ->. Qed.

#[global] Instance acts_preorder : PreOrder acts.
Proof.
  split.
  - intros m. constructor; [done|intros []; by left|by left].
  - intros m1 m2 m3 [Hn Hv He] [Hn' Hv' He']. constructor; [congruence| |].
    + intros t k. destruct (Hv' t k) as [Hs'|?]; [|by right].
      destruct (Hv t k) as [Hs|[Ho Hk]]; [left|right].
      * destruct t; simpl in *; congruence.
      * split; [done|]. intros H. by eapply Hk, same_holds.
    + intros k. destruct (He' k) as [->|?]; [apply He|by right].
Qed.

Lemma typed_acts m m' : typed m → acts m m' → typed m'.
Proof.
  intros Hm [_ Hv _] t k Hk. destruct (Hv t k) as [Hs|[_ Ht]]; [|by apply Ht].
  by eapply Hm, same_holds.
Qed.

(** A command on one key of one type. *)
Record local (t : kind) (k : string) (m m' : keyspace) : Prop := MkLocal {
  local_now : k_now m' = k_now m;
  local_val : ∀ t' k', t' ≠ t ∨ k' ≠ k → same_at t' m m' k';
  local_exp : ∀ k', k' ≠ k → k_exp m' !! k' = k_exp m !! k';
}.

#[local] Instance kind_eq_dec : EqDecision kind.
Proof. solve_decision. Defined.

Lemma acts_local m0 m m' t k : acts m0 m → key_of t k → local t k m m' → acts m0 m'.
Proof.
  intros H Hk [Hn Hv He]. etrans; [exact H|]. constructor; [done| |].
  - intros t' k'. destruct (decide (k' = k)) as [->|]; [|left; apply Hv; by right].
    destruct (decide (t' = t)) as [->|]; [|left; apply Hv; by left].
    right. split; [by exists t|done].
  - intros k'. destruct (decide (k' = k)) as [->|]; [right; by exists t|left; by apply He].
Qed.

Ltac local_one :=
  constructor; [done| |intros k' Hk; simpl; try done];
  [intros [] k' Hk; simpl; try done; destruct Hk as [Hk|Hk]; [done|]|..];
  unfold h_set, h_del, s_add, s_rem, z_add, z_rem, x_add, x_del, x_mkgroup, x_group;
  repeat case_match; simpl; rewrite ?lookup_insert_ne, ?lookup_delete_ne by done; try done.

Lemma local_hset m k fvs : local THash k m (do_hset k fvs m).
Proof. local_one. Qed.
Lemma local_hdel m k fs : local THash k m (do_hdel k fs m).
Proof. local_one. Qed.
Lemma local_sadd m k xs : local TSet k m (do_sadd k xs m).
Proof. local_one. Qed.
Lemma local_srem m k x : local TSet k m (do_srem k x m).
Proof. local_one. Qed.
Lemma local_zadd m k sc x : local TZset k m (do_zadd k sc x m).
Proof. local_one. Qed.
Lemma local_zrem m k x : local TZset k m (do_zrem k x m).
Proof. local_one. Qed.
Lemma local_xadd m k i x : local TStream k m (do_xadd k i x m).
Proof. local_one. Qed.
Lemma local_xdel m k ids : local TStream k m (do_xdel k ids m).
Proof. local_one. Qed.
Lemma local_xgroup m k g : local TStream k m (do_xgroup k g m).
Proof. local_one. Qed.
Lemma local_group m k g f : local TStream k m (set_group k g f m).
Proof. local_one. Qed.
Lemma local_set m k v : local TString k m (do_set k v m).
Proof. local_one. Qed.
Lemma local_setpx m k v ms : local TString k m (do_setpx k v ms m).
Proof. local_one. Qed.
Lemma local_pexpire m t k ms : local t k m (do_pexpire k ms m).
Proof.
  constructor; [done|by intros []|]. intros k' Hk. simpl. case_match; [|done].
  by rewrite lookup_insert_ne by done.
Qed.

Lemma acts_del m0 m k : acts m0 m → owned k → acts m0 (del_key k m).
Proof.
  intros H Ho. etrans; [exact H|]. constructor; [done| |].
  - intros t k'. destruct (decide (k' = k)) as [->|]; [right; split; [done|]|left].
    + destruct t; simpl; rewrite lookup_delete_eq; by intros [].
    + destruct t; simpl; by rewrite lookup_delete_ne by done.
  - intros k'. simpl. destruct (decide (k' = k)) as [->|]; [by right|left].
    by rewrite lookup_delete_ne by done.
Qed.

Lemma acts_dels m0 m l :
  acts m0 m → Forall owned l → acts m0 (foldl (λ m k, del_key k m) m l).
Proof. intros H Hl. revert m H. induction Hl; intros m H1; [done|]. by apply IHHl, acts_del. Qed.

Lemma typed_elapse m dt : typed m → typed (elapse dt m).
Proof.
  intros Hm [] k; simpl; intros [v [Hv _]%map_lookup_filter_Some];
    eapply (Hm _ k); by eexists.
Qed.

(** *** The scripts *)

Lemma zkey_kind q z : brace_free q → key_of TZset (zkey K q z).
Proof. intros Hq. destruct z; [by apply (ko_queue q KScheduled)|by apply (ko_queue q KRetry)
  |by apply (ko_queue q KArchived)|by apply (ko_queue q KCompleted)]. Qed.

(** *** A key has one type *)

Lemma globalKey_not_queue g q x : valid_keys K → queueKey K q x ≠ globalKey K g.
Proof. intros HK. rewrite globalKey_name. apply queueKey_not_global; [done|by destruct g]. Qed.

Lemma globalKey_kind g g' : globalKey K g = globalKey K g' → global_kind g = global_kind g'.
Proof.
  rewrite !globalKey_name. intros H. apply (inj (String.append (prefix K))) in H.
  by destruct g, g'.
Qed.

Lemma key_of_unique t t' k : valid_keys K → key_of t k → key_of t' k → t = t'.
Proof.
  intros HK Hk Hk'. destruct Hk as [q x Hq|g]; inversion Hk' as [q' x' Hq' E' E|g' E' E].
  - by apply queueKey_iff in E as (_ & -> & ->).
  - by apply eq_sym, globalKey_not_queue in E.
  - by apply globalKey_not_queue in E.
  - by apply globalKey_kind.
Qed.

End typing.

(** The type of the key at hand. *)
Ltac key_kind :=
  lazymatch goal with
  | |- key_of _ _ (TaskKey _ ?q ?T) => by apply (ko_queue _ q (KTask T))
  | |- key_of _ _ (StreamKey _ ?q) => by apply (ko_queue _ q KStream)
  | |- key_of _ _ (ScheduledKey _ ?q) => by apply (ko_queue _ q KScheduled)
  | |- key_of _ _ (RetryKey _ ?q) => by apply (ko_queue _ q KRetry)
  | |- key_of _ _ (ArchivedKey _ ?q) => by apply (ko_queue _ q KArchived)
  | |- key_of _ _ (CompletedKey _ ?q) => by apply (ko_queue _ q KCompleted)
  | |- key_of _ _ (GroupKey _ ?q ?g) => by apply (ko_queue _ q (KGroup g))
  | |- key_of _ _ (GroupResultKey _ ?q ?g) => by apply (ko_queue _ q (KGroupResult g))
  | |- key_of _ _ (UniqueKey _ ?q ?s) => by apply (ko_queue _ q (KUnique s))
  | |- key_of _ _ (PeriodicDedupKey _ ?q ?s) => by apply (ko_queue _ q (KPeriodic s))
  | |- key_of _ _ (zkey _ _ _) => by apply zkey_kind
  | |- key_of _ _ (QueuesKey _) => apply (ko_global _ GQueues)
  | |- key_of _ _ (PausedKey _) => apply (ko_global _ GPaused)
  | |- key_of _ _ (SchedulesKey _) => apply (ko_global _ GSchedules)
  | |- key_of _ _ (LeaderKey _) => apply (ko_global _ GLeader)
  | |- key_of _ _ (ScheduleLastFiredKey _ ?i) => apply (ko_global _ (GLastFired i))
  end.

Ltac owned_key := eexists; key_kind.

Ltac acts_steps :=
  repeat lazymatch goal with
  | |- acts _ _ (do_hset _ _ _) => eapply acts_local; [| |apply local_hset]; [|key_kind]
  | |- acts _ _ (do_hdel _ _ _) => eapply acts_local; [| |apply local_hdel]; [|key_kind]
  | |- acts _ _ (do_sadd _ _ _) => eapply acts_local; [| |apply local_sadd]; [|key_kind]
  | |- acts _ _ (do_srem _ _ _) => eapply acts_local; [| |apply local_srem]; [|key_kind]
  | |- acts _ _ (do_zadd _ _ _ _) => eapply acts_local; [| |apply local_zadd]; [|key_kind]
  | |- acts _ _ (do_zrem _ _ _) => eapply acts_local; [| |apply local_zrem]; [|key_kind]
  | |- acts _ _ (do_xadd _ _ _ _) => eapply acts_local; [| |apply local_xadd]; [|key_kind]
  | |- acts _ _ (do_xdel _ _ _) => eapply acts_local; [| |apply local_xdel]; [|key_kind]
  | |- acts _ _ (do_xgroup _ _ _) => eapply acts_local; [| |apply local_xgroup]; [|key_kind]
  | |- acts _ _ (do_xack _ _ _ _) => eapply acts_local; [| |apply local_group]; [|key_kind]
  | |- acts _ _ (set_group _ _ _ _) => eapply acts_local; [| |apply local_group]; [|key_kind]
  | |- acts _ _ (do_set _ _ _) => eapply acts_local; [| |apply local_set]; [|key_kind]
  | |- acts _ _ (do_setpx _ _ _ _) => eapply acts_local; [| |apply local_setpx]; [|key_kind]
  | |- acts _ _ (do_pexpire _ _ _) => eapply acts_local; [| |apply local_pexpire]; [|key_kind]
  | |- acts _ _ (del_key _ _) => apply acts_del; [|owned_key]
  | |- acts _ _ (foldl _ _ _) => apply acts_dels; [|repeat constructor; owned_key]
  | |- acts _ _ (id _) => unfold id
  | |- acts _ _ ((if ?b then _ else _) _) => destruct b
  end; try done.

(** Run a script to its end, whatever the branch. *)
Ltac acts_script :=
  wps_steps;
  repeat (lazymatch goal with
    | |- wps (match ?b with _ => _ end) _ _ => destruct b
    | |- wps ((match ?b with _ => _ end) ≫= _) _ _ => destruct b
    end; wps_steps);
  cbn [cmd_effect]; try acts_steps.

Section scripts.
Context `{R : Redis} `{J : Json} (K : Keys).

Abbreviation Acts p := (∀ m0 m, acts K m0 m → wps p (λ _ m', acts K m0 m') m).

Lemma foreach_acts {A} (l : list A) (f : A → script ()) :
  (∀ x, x ∈ l → Acts (f x)) → Acts (foreach l f).
Proof.
  intros Hf m0 m Hm. apply (wps_foreach_inv (λ _ m', acts K m0 m')); [done| |done].
  intros l1 x l2 m' -> Hm'. apply Hf; [|done]. set_solver.
Qed.

Lemma removeAll_acts q z ids : brace_free q → Acts (removeAll (zkey K q z) (TaskKeyPrefix K q) ids).
Proof.
  intros Hq. apply foreach_acts. intros x _ m0 m Hm. rewrite TaskKey_concat. acts_script.
Qed.

Lemma trim_acts q z cutoff batch maxSize : brace_free q →
  Acts (trimArchivedCmd (zkey K q z) cutoff batch (TaskKeyPrefix K q) maxSize).
Proof.
  intros Hq m0 m Hm. unfold trimArchivedCmd. wps_steps. eapply wps_mono; [by apply removeAll_acts|].
  intros [] m1 Hm1. cbn beta. repeat case_bool_decide; acts_script; [|done..].
  eapply wps_mono; [by apply removeAll_acts|]. intros [] m2 Hm2. by wps_steps.
Qed.

Lemma forward_acts q z cutoff max st : brace_free q →
  Acts (forwardCmd (zkey K q z) (StreamKey K q) cutoff max (TaskKeyPrefix K q) st).
Proof.
  intros Hq m0 m Hm. unfold forwardCmd. wps_steps. eapply wps_mono; [apply foreach_acts; [|done]|].
  - intros x _ m1 m2 Hm1. rewrite TaskKey_concat. acts_script.
  - intros [] m1 Hm1. by wps_steps.
Qed.

Lemma readResults_acts key i n : Acts (readResults key i n).
Proof.
  revert i. induction n as [|n IH]; intros i m0 m Hm; simpl; [by wps_steps|]. wps_steps.
  eapply wps_mono; [by apply IH|]. intros l m1 Hm1. by wps_steps.
Qed.

Lemma groupComplete_acts q g cb mem encoded st mode ttl res idx size : brace_free q →
  Acts (groupCompleteCmd (GroupKey K q g) (TaskKey K q cb) (destKey K q mode)
          (GroupResultKey K q g) mem encoded st cb mode ttl res idx size).
Proof.
  intros Hq m0 m Hm. unfold groupCompleteCmd, expire. wps_steps.
  destruct (key_exists _ _); simpl; wps_steps; [|done].
  apply (wps_mono _ (λ _ m', acts K m0 m')); [acts_script|]. intros [] m1 Hm1.
  wps_steps. case_bool_decide; [acts_script|].
  wps_steps. apply (wps_mono _ (λ _ m', acts K m0 m')).
  { destruct (_ && _); [|by wps_steps]. wps_steps.
    eapply wps_mono; [by apply readResults_acts|]. intros l m2 Hm2. by wps_steps. }
  intros x m2 Hm2. destruct mode; unfold destKey; acts_script.
Qed.

Lemma createGroupIfAbsent_acts q g cb ttl ids : brace_free q →
  Acts (createGroupIfAbsentCmd (GroupKey K q g) (TaskKey K q cb) (GroupResultKey K q g) ttl ids).
Proof.
  intros Hq m0 m Hm. unfold createGroupIfAbsentCmd, expire. wps_steps.
  destruct (key_exists _ _); [by wps_steps|]. wps_steps. destruct (key_exists _ _); [acts_script|].
  wps_steps. eapply wps_mono; [apply foreach_acts; [|done]|].
  - intros x _ m1 m2 Hm1. acts_script.
  - intros [] m1 Hm1. acts_script.
Qed.

Lemma atomic_acts G C A (p : script A) : atomic K G C A p → Acts p.
Proof.
  destruct 1; intros m0 m1 Hm1;
    lazymatch goal with
    | |- wps (forwardCmd _ _ _ _ _ _) _ _ => by apply forward_acts
    | |- wps (trimArchivedCmd _ _ _ _ _) _ _ => by apply trim_acts
    | |- wps (groupCompleteCmd _ _ _ _ _ _ _ _ _ _ _ _ _) _ _ => by apply groupComplete_acts
    | |- wps (createGroupIfAbsentCmd _ _ _ _ _) _ _ => by apply createGroupIfAbsent_acts
    | |- wps (call _) _ _ => acts_script; try (case_match; acts_steps)
    | |- _ =>
        try (unfold enqueueCmd, scheduleCmd, enqueueUniqueCmd, scheduleUniqueCmd,
               enqueuePeriodicCmd, chainEnqueueCmd, chainScheduleCmd, createGroupTx, moveToZSetCmd,
               doneTx, requeueCmd, releaseUniqueCmd, renewUniqueCmd, runTaskCmd, deleteTx,
               acquireOrRenewCmd, resignCmd; acts_script; done)
    end.
  by intros s <-; rewrite H.
Qed.

(** A step of the abstract system acts on the program's keys, or is the
    passage of time. *)
Lemma step_acts G σ σ' :
  step K G σ σ' →
  acts K (ks (s_store σ)) (ks (s_store σ')) ∨
  ∃ dt, (0 ≤ dt)%Z ∧ ks (s_store σ') = elapse dt (ks (s_store σ)).
Proof.
  destruct 1 as [A p s C O Hp|q g c n es s C O Hq _|q g c idle n es s C O Hq _
                |q e T s C O _ _|q ids s C O Hq _|s s' C O Hs|dt s C O Hdt]; simpl; [left..|right].
  - by apply (atomic_acts G C A p Hp (ks s) (ks s) (reflexivity _) s).
  - rewrite exec_effect. cbn [cmd_effect]. case_match; acts_steps.
  - rewrite exec_effect. cbn [cmd_effect]. case_match; acts_steps.
  - done.
  - assert (wps (ackDelete (StreamKey K q) ids) (λ _ m', acts K (ks s) m') (ks s)) as Hw
      by (unfold ackDelete; acts_script).
    exact (Hw s eq_refl).
  - by rewrite Hs.
  - exists dt. by rewrite elapse_effect.
Qed.

Lemma rtc_typed G σ σ' :
  rtc (step K G) σ σ' → typed K (ks (s_store σ)) → typed K (ks (s_store σ')).
Proof.
  induction 1 as [|σ1 σ2 σ3 Hs _ IH]; [done|]. intros Ht. apply IH.
  destruct (step_acts G _ _ Hs) as [Ha|(dt & _ & ->)]; [by eapply typed_acts|by apply typed_elapse].
Qed.


End scripts.


End Typing.
