(* ===== verification/Namespaces.v ===== *)
(** * namespace.go: deployments that share a database

    A namespace is its key builder; the constructors of [namespace.go] hand
    it to the clients, servers, schedulers and inspectors of a deployment,
    and the package-level constructors use the default one.  This file says
    when two namespaces are independent, and proves what the package promises
    for them: any number of deployments of two namespaces, run side by side
    on one server, do not disturb each other. *)

From S2P Require Import Prelude GoLib Base Redis RedisFacts Client.
From S2P Require Import RdbCore RdbLocks RdbFlow RdbAdmin Instances Lifecycle Processes Concurrent Typing.
From Stdlib Require Import Ascii.

Module Namespaces.
Import GoStr Prefix Keys Task Redis RedisFacts Client RdbCore RdbAdmin Lifecycle Processes Concurrent Typing.

(** [NewNamespace]: the keys, or the panic of an invalid prefix. *)
Definition NewNamespace (prefix : string) : Keys + prefix_panic := NewKeys prefix.

(** ** When two namespaces share no key *)

Definition sched : list ascii := chars ":sched:".

(** The keys of [K2] may lie among the last-fired keys of [K1]. *)
Definition shadows (K1 K2 : Keys) : Prop :=
  chars (prefix K1) ++ sched `prefix_of` chars (prefix K2) ++ [":"%char].

Definition independent (K1 K2 : Keys) : Prop := K1 ≠ K2 ∧ ¬ shadows K1 K2 ∧ ¬ shadows K2 K1.

#[global] Instance Keys_eq_dec : EqDecision Keys.
Proof. solve_decision. Defined.

#[global] Instance independent_dec K1 K2 : Decision (independent K1 K2).
Proof. unfold independent, shadows. apply _. Defined.

Lemma independent_sym K1 K2 : independent K1 K2 → independent K2 K1.
Proof. intros (? & ? & ?). by split_and!. Qed.

Lemma sched_no_brace : "{"%char ∉ sched.
Proof. by apply (bool_decide_unpack ("{"%char ∉ sched)). Qed.

Lemma globalKey_chars K g :
  chars (globalKey K g) = chars (prefix K) ++ ":"%char :: chars (global_name g).
Proof. rewrite globalKey_name, !chars_app. done. Qed.

Lemma last_fired_chars i :
  chars (global_name (GLastFired i))
  = ["s"; "c"; "h"; "e"; "d"; ":"]%char ++ chars i ++ [":"; "l"; "a"; "s"; "t"]%char.
Proof. unfold global_name. by rewrite !chars_app. Qed.

(** A key of a queue is no other namespace's schedule's, unless shadowed. *)
Lemma queue_not_global K1 K2 q x g :
  valid_keys K1 → valid_keys K2 → ¬ shadows K2 K1 → queueKey K1 q x ≠ globalKey K2 g.
Proof.
  intros H1 H2 Hs E. apply (f_equal chars) in E.
  rewrite queueKey_suffix, QueueKeyPrefix_chars, globalKey_chars in E.
  set (l1 := chars (prefix K1) ++ [":"%char]) in E.
  set (r := chars q ++ _) in E. clearbody r.
  pose proof (valid_keys_no_brace K2 H2) as [Hb _].
  assert ("{"%char ∈ chars (prefix K2) ++ ":"%char :: chars (global_name g)) as Hin
    by (rewrite <- E; set_solver).
  rewrite elem_of_app, elem_of_cons in Hin.
  destruct g as [| | | |i]; try (destruct Hin as [?|[?|Hin]]; [done|done|];
    revert Hin; apply (bool_decide_unpack (¬ _)); reflexivity).
  rewrite last_fired_chars in E. clear Hin.
  assert (l1 ++ ["{"%char] `prefix_of` l1 ++ "{"%char :: r) as P1
    by (exists r; by rewrite <- app_assoc).
  assert (chars (prefix K2) ++ sched `prefix_of` l1 ++ "{"%char :: r) as P2
    by (rewrite E; exists (chars i ++ [":"; "l"; "a"; "s"; "t"]%char); by rewrite <- app_assoc).
  pose proof sched_no_brace as Hsb.
  destruct (prefix_weak_total _ _ _ P1 P2) as [[k Hk]|[k Hk]].
  - assert ("{"%char ∈ chars (prefix K2) ++ sched) as Hin by (rewrite Hk; set_solver).
    set_solver.
  - destruct k as [|c k _] using rev_ind.
    + rewrite app_nil_r in Hk. assert ("{"%char ∈ chars (prefix K2) ++ sched) as Hin
        by (rewrite <- Hk; set_solver). set_solver.
    + rewrite app_assoc in Hk. apply app_inj_tail in Hk as [Hk _]. apply Hs. by exists k.
Qed.

(** *** Two keys of no queue *)

Lemma prefix_chars_inj K1 K2 : chars (prefix K1) = chars (prefix K2) → K1 = K2.
Proof. intros E%chars_inj. destruct K1, K2. simpl in *. by subst. Qed.

(** Two last-fired keys: the shorter prefix with [":sched:"] begins both. *)
Lemma last_fired_shadow K1 K2 k :
  chars (prefix K2) ++ sched = (chars (prefix K1) ++ sched) ++ k → K1 ≠ K2 → shadows K1 K2.
Proof.
  intros E Hne.
  assert (chars (prefix K1) ++ sched `prefix_of` chars (prefix K2) ++ sched) as P1 by (by exists k).
  assert (chars (prefix K2) ++ [":"%char] `prefix_of` chars (prefix K2) ++ sched) as P2
    by (exists (chars "sched:"); by rewrite <- app_assoc).
  destruct (prefix_weak_total _ _ _ P1 P2) as [?|[z Hz]]; [done|].
  rewrite Hz in E. rewrite <- !app_assoc in E. apply app_inv_head in E. injection E as E.
  assert (z = [] ∨ k = []) as [->| ->].
  { apply (f_equal (@List.rev ascii)) in Hz. rewrite !rev_app_distr in Hz. simpl in Hz.
    do 6 (destruct z as [|? z]; [first [by left|simpl in Hz; discriminate]|injection E as <- E]).
    right. destruct z; [by destruct k|done]. }
  - exists []. by rewrite !app_nil_r in *.
  - rewrite app_nil_r in E. subst z. rewrite <- app_assoc in Hz. apply app_inv_tail in Hz.
    by apply prefix_chars_inj in Hz.
Qed.

Lemma globals_disjoint K1 K2 g1 g2 :
  independent K1 K2 → globalKey K1 g1 ≠ globalKey K2 g2.
Proof.
  intros (Hne & H12 & H21) E. apply (f_equal chars) in E. rewrite !globalKey_chars in E.
  assert (∀ K i, chars (prefix K) ++ ":"%char :: chars (global_name (GLastFired i))
            = (chars (prefix K) ++ sched) ++ chars i ++ [":"; "l"; "a"; "s"; "t"]%char) as Hlf
    by (intros K i; rewrite last_fired_chars; by rewrite <- app_assoc).
  destruct g1 as [| | | |i1], g2 as [| | | |i2].
  25: { rewrite !Hlf in E.
    destruct (prefix_weak_total (chars (prefix K1) ++ sched) (chars (prefix K2) ++ sched)
      ((chars (prefix K2) ++ sched) ++ chars i2 ++ [":"; "l"; "a"; "s"; "t"]%char)) as [[k Hk]|[k Hk]].
    - rewrite <- E. by eexists.
    - by eexists.
    - apply H12. by eapply last_fired_shadow.
    - apply H21. by eapply last_fired_shadow. }
  all: rewrite ?last_fired_chars in E; apply (f_equal (@List.rev ascii)) in E;
    rewrite ?rev_app_distr in E; simpl in E; rewrite ?rev_app_distr in E; simpl in E;
    try discriminate; simplify_eq/=.
  all: by apply (f_equal (@List.rev ascii)) in E; rewrite !rev_involutive in E;
    apply prefix_chars_inj in E.
Qed.

(** Two independent namespaces share no key. *)
Lemma owned_disjoint K1 K2 k :
  valid_keys K1 → valid_keys K2 → independent K1 K2 → owned K1 k → owned K2 k → False.
Proof.
  intros HK1 HK2 Hi [t1 H1] [t2 H2]. pose proof Hi as (Hne & H12 & H21).
  destruct H1 as [q1 x1 Hq1|g1]; inversion H2 as [q2 x2 Hq2 E2 E|g2 E2 E].
  - by apply eq_sym, queueKey_iff in E as (? & _).
  - by apply eq_sym, queue_not_global in E.
  - by apply queue_not_global in E.
  - by apply eq_sym, globals_disjoint in E.
Qed.

(** ** What one deployment does leaves the other's data alone *)

Section tenants.
Context `{R : Redis} `{J : Json} `{MJ : MetaJson}.

(** The data of [K] is the same. *)
Definition untouched (K : Keys) (m m' : keyspace) : Prop :=
  ∀ k, owned K k → k_exp m' !! k = k_exp m !! k ∧ ∀ t, same_at t m m' k.

Lemma acts_elsewhere K1 K2 m m' :
  valid_keys K1 → valid_keys K2 → independent K1 K2 → acts K1 m m' → untouched K2 m m'.
Proof.
  intros H1 H2 Hi [_ Hv He] k Ho. pose proof (owned_disjoint K1 K2 k H1 H2 Hi) as Hd. split.
  - destruct (He k) as [?|Ho']; [done|]. by destruct (Hd Ho' Ho).
  - intros t. destruct (Hv t k) as [?|[Ho' _]]; [done|]. by destruct (Hd Ho' Ho).
Qed.

(** The invariant speaks of the namespace's own keys only. *)
Lemma Inv_untouched_keys K G m m' C O :
  untouched K m m' → Inv K G m C O → Inv K G m' C O.
Proof.
  intros Hu [Hs Hc Ho Hd Hf Hb].
  assert (∀ q x, brace_free q → owned K (queueKey K q x)) as Hown
    by (intros q x Hq; eexists; by apply ko_queue).
  assert (∀ q, brace_free q → queue_stream K m' q = queue_stream K m q) as Es.
  { intros q Hq. destruct (Hu _ (Hown q KStream Hq)) as [_ H]. specialize (H TStream).
    unfold queue_stream, stream_at, x_at. simpl in H. by rewrite H. }
  assert (∀ q T, brace_free q → body K m' q T = body K m q T) as Eb.
  { intros q T Hq. destruct (Hu _ (Hown q (KTask T) Hq)) as [_ H]. specialize (H THash).
    unfold body, hget, hash_at, h_at. simpl in H. by rewrite H. }
  assert (∀ q z T, brace_free q → in_zset K m' q z T ↔ in_zset K m q z T) as Ez.
  { intros q z T Hq. destruct (Hu _ (Hown q (zslot z) Hq)) as [_ H]. specialize (H TZset).
    unfold in_zset, zset_at, z_at, zkey. simpl in H. by rewrite H. }
  constructor.
  - intros q Hq. rewrite Es by done. auto.
  - intros q e T Hin. destruct (Hc q e T Hin) as (Hq & ? & ?). unfold entries.
    by rewrite Es by done.
  - done.
  - intros q x Hq Hx. destruct (Hu _ (Hown q x Hq)) as [-> _]. auto.
  - intros q T Hq. rewrite Eb by done. intros Hbd. unfold findable, entries.
    rewrite Es by done. setoid_rewrite Ez; [by apply Hf|done].
  - intros q T b Hq. rewrite Eb by done. auto.
Qed.

(** A step of [K1]'s abstract system, seen by [K2]. *)
Lemma step_elsewhere K1 K2 G1 G2 σ σ' C O :
  valid_keys K1 → valid_keys K2 → independent K1 K2 → step K1 G1 σ σ' →
  Inv K2 G2 (ks (s_store σ)) C O → Inv K2 G2 (ks (s_store σ')) C O.
Proof.
  intros H1 H2 Hi Hst HI. destruct (step_acts (J := J) K1 G1 _ _ Hst) as [Ha|(dt & Hdt & ->)].
  - eapply Inv_untouched_keys; [exact (acts_elsewhere K1 K2 _ _ H1 H2 Hi Ha)|exact HI].
  - by apply (elapse_inv K2).
Qed.

Lemma rtc_elsewhere K1 K2 G1 G2 σ σ' C O :
  valid_keys K1 → valid_keys K2 → independent K1 K2 → rtc (step K1 G1) σ σ' →
  Inv K2 G2 (ks (s_store σ)) C O → Inv K2 G2 (ks (s_store σ')) C O.
Proof. intros H1 H2 Hi. induction 1; [done|]. eauto using step_elsewhere. Qed.

(** ** Deployments side by side *)

(** [untouched] up to the passage of time. *)
Definition spared (K : Keys) : relation keyspace :=
  rtc (λ m m', untouched K m m' ∨ ∃ dt, (0 ≤ dt)%Z ∧ m' = elapse dt m).

Lemma rtc_spared K1 K2 G σ σ' :
  valid_keys K1 → valid_keys K2 → independent K1 K2 → rtc (step K1 G) σ σ' →
  spared K2 (ks (s_store σ)) (ks (s_store σ')).
Proof.
  intros H1 H2 Hi. induction 1 as [|σ1 σ2 σ3 Hst _ IH]; [done|]. eapply rtc_l; [|exact IH].
  destruct (step_acts (J := J) K1 G _ _ Hst) as [Ha|?]; [left|by right].
  exact (acts_elsewhere K1 K2 _ _ H1 H2 Hi Ha).
Qed.

Context (sha256hex : bytes → string) (Ks : list Keys).

(** A server and, for each namespace, the goroutines of its deployment. *)
Record site := MkSite {
  st_store : store;
  st_pools : Keys → list thread;
}.

(** A step of the deployment of [K]. *)
Inductive site_step (K : Keys) : site → site → Prop :=
  | site_run c s P :
      conc_step K sha256hex (MkConf s (P K)) c →
      site_step K (MkSite s P) (MkSite (c_store c) (λ K', if decide (K' = K) then c_pool c else P K')).

Definition any_step (a b : site) : Prop := ∃ K, K ∈ Ks ∧ site_step K a b.

Definition opening (s : store) : site := MkSite s (λ _, []).

Context (Hns : ∀ K, K ∈ Ks → ∃ p, NewNamespace p = inl K).
Context (Hind : ∀ K1 K2, K1 ∈ Ks → K2 ∈ Ks → K1 ≠ K2 → independent K1 K2).

(** Each deployment is in a state its own abstract system explains. *)
Definition explained (a : site) : Prop :=
  ∀ K, K ∈ Ks → ∃ C O : gset claim_t,
    simulates K (MkConf (st_store a) (st_pools a K)) (MkSys (st_store a) C O).

Lemma opening_explained s : ks s = empty_keyspace → explained (opening s).
Proof. intros Hs K HK. exists ∅, ∅. apply start_simulated; [by apply Hns|done]. Qed.

Lemma site_step_explained K a b :
  K ∈ Ks → site_step K a b → explained a →
  explained b ∧ ∀ K', K' ∈ Ks → K' ≠ K → spared K' (ks (st_store a)) (ks (st_store b)).
Proof.
  intros HK [c s P Hc] Ha. destruct (Ha K HK) as (C & O & Hsim).
  destruct (conc_step_simulated K sha256hex (Hns K HK) _ _ _ Hc Hsim) as ([s' C' O'] & Hst & Hsim').
  pose proof (sim_store _ _ _ Hsim') as Es. simpl in Es. subst s'. split.
  - intros K' HK'. simpl. destruct (decide (K' = K)) as [->|Hne].
    { exists C', O'. by destruct c. }
    destruct (Ha K' HK') as (C2 & O2 & [Es2 HI Hp]). exists C2, O2.
    constructor; [done| |exact Hp]. simpl in *.
    exact (rtc_elsewhere K K' (addressed K) (addressed K') _ _ C2 O2 (Hns K HK) (Hns K' HK')
             (Hind K K' HK HK' (not_eq_sym Hne)) Hst HI).
  - intros K' HK' Hne. apply (rtc_spared K K' _ _ _ (Hns K HK) (Hns K' HK')
      (Hind K K' HK HK' (not_eq_sym Hne)) Hst).
Qed.

Lemma reachable_explained s a :
  ks s = empty_keyspace → rtc any_step (opening s) a → explained a.
Proof.
  intros Hs Hr. pose proof (opening_explained s Hs) as H0.
  induction Hr as [|a1 a2 a3 (K & HK & Hst) _ IH]; [done|]. by eapply IH, site_step_explained.
Qed.

(** C3: namespaces are isolated.  Deployments of independent namespaces run
    side by side on one server, in any interleaving and with any failures:
    what one does to the server leaves every key of the others as it was, up
    to the passage of time, and none of them loses a task. *)
Theorem namespaces_isolated s a K :
  ks s = empty_keyspace → rtc any_step (opening s) a → K ∈ Ks →
  (∀ K' b, K' ∈ Ks → K' ≠ K → site_step K' a b →
     spared K (ks (st_store a)) (ks (st_store b))) ∧
  ∀ q T, brace_free q → hget (ks (st_store a)) (TaskKey K q T) "msg" ≠ None →
    (∃ e, (e, T) ∈ st_entries (stream_at (ks (st_store a)) (StreamKey K q))) ∨
    (∃ z, is_Some (zset_at (ks (st_store a)) (zkey K q z) !! T)).
Proof.
  intros Hs Hr HK. pose proof (reachable_explained s a Hs Hr) as Ha. split.
  - intros K' b HK' Hne Hst. by apply (site_step_explained K' a b HK' Hst Ha).
  - intros q T Hq Hb. destruct (Ha K HK) as (C & O & [_ HI _]).
    destruct (inv_found _ _ _ _ _ HI q T Hq Hb) as [(e & He & _)|[z Hz]]; [left|right]; eauto.
Qed.

End tenants.

(** ** Two deployments *)

(** A run of one deployment is a run of the site. *)
Lemma site_runs `{R : Redis} `{J : Json} `{MJ : MetaJson} sha256hex Ks K c c' P :
  K ∈ Ks → rtc (conc_step K sha256hex) c c' → P K = c_pool c →
  ∃ P', rtc (any_step sha256hex Ks) (MkSite (c_store c) P) (MkSite (c_store c') P') ∧
        P' K = c_pool c'.
Proof.
  intros HK Hr. revert P. induction Hr as [c|c1 c2 c3 Hst _ IH]; intros P HP; [by exists P|].
  destruct (IH (λ K', if decide (K' = K) then c_pool c2 else P K')) as (P' & Hr' & HP').
  { by rewrite decide_True. }
  exists P'. split; [|done]. eapply rtc_l; [|exact Hr']. exists K. split; [done|].
  apply site_run. rewrite HP. by destruct c1.
Qed.

Definition demo_tenants : list Keys := [DefaultKeys; MkKeys "app"].

Lemma demo_namespaces K : K ∈ demo_tenants → ∃ p, NewNamespace p = inl K.
Proof.
  unfold demo_tenants. rewrite !elem_of_cons, elem_of_nil.
  intros [->|[->|[]]]; [by exists "chronos"|by exists "app"].
Qed.

Lemma demo_independent K1 K2 :
  K1 ∈ demo_tenants → K2 ∈ demo_tenants → K1 ≠ K2 → independent K1 K2.
Proof.
  unfold demo_tenants. rewrite !elem_of_cons, !elem_of_nil.
  intros [->|[->|[]]] [->|[->|[]]] Hne; try done;
    [apply (bool_decide_unpack (independent DefaultKeys (MkKeys "app")))
    |apply (bool_decide_unpack (independent (MkKeys "app") DefaultKeys))]; by vm_compute.
Qed.

(** The default namespace enqueued a task; then the other one pauses its
    queue of the same name. *)
Lemma namespaces_isolated_witness :
  ∃ a b, rtc (any_step (λ _, "00") demo_tenants) (opening (w_store demo_empty)) a ∧
    site_step (λ _, "00") (MkKeys "app") a b ∧
    ks (st_store b) ≠ ks (st_store a) ∧
    spared DefaultKeys (ks (st_store a)) (ks (st_store b)) ∧
    ((∃ e, (e, "t1") ∈ st_entries (stream_at (ks (st_store a)) (StreamKey DefaultKeys "q"))) ∨
     (∃ z, is_Some (zset_at (ks (st_store a)) (zkey DefaultKeys "q" z) !! "t1"))).
Proof.
  assert (DefaultKeys ∈ demo_tenants) as HD by left.
  assert (MkKeys "app" ∈ demo_tenants) as HA by (right; left).
  assert (brace_free "q") as Hq by (by apply (bool_decide_unpack (brace_free "q"))).
  destruct (site_runs (λ _, "00") demo_tenants DefaultKeys _ _ (λ _, []) HD demo_run eq_refl)
    as (P & Hr & _).
  set (a := MkSite (c_store demo_end)
        (λ K', if decide (K' = MkKeys "app") then Working (RdbLocks.PauseQueue (MkKeys "app") "q") :: P (MkKeys "app")
               else P K')).
  assert (rtc (any_step (λ _, "00") demo_tenants) (opening (w_store demo_empty)) a) as Ha.
  { eapply rtc_r; [exact Hr|]. exists (MkKeys "app"). split; [done|].
    apply (site_run (λ _, "00") (MkKeys "app")
             (MkConf (c_store demo_end) (Working (RdbLocks.PauseQueue (MkKeys "app") "q") :: P (MkKeys "app")))).
    apply conc_go, go_pause. }
  assert (∃ b, site_step (λ _, "00") (MkKeys "app") a b ∧ ks (st_store b) ≠ ks (st_store a)) as (b & Hb & Hne).
  { eexists. split.
    - eapply site_run. simpl. apply conc_head, t_work, m_trip.
    - vm_compute. discriminate. }
  destruct (namespaces_isolated (λ _, "00") demo_tenants demo_namespaces demo_independent
              (w_store demo_empty) a DefaultKeys) as [Hsp Hf]; [done|done|done|].
  exists a, b. split_and!; [done|done|done|by apply (Hsp (MkKeys "app"))|].
  apply (Hf "q" "t1" Hq). by vm_compute.
Defined.

End Namespaces.
