(* ===== verification/Advance.v ===== *)
(** * What holds whatever fails

    Rules to prove that a program, run alone in a world with any plan of
    delays and failures, changes the data only along a given preorder, and
    what its result then satisfies.  The preorder must allow the passage of
    time. *)

From S2P Require Import Prelude GoLib Redis Client.

Module Advance.
Import Redis Client.

(** [advances Rl p Φ w]: run in [w], whatever its plan, the program changes
    the data only along [Rl], and its result satisfies [Φ]. *)

Section advances.
Context `{R : Redis} (Rl : relation keyspace) `{!PreOrder Rl}.
Context (Rl_elapse : ∀ dt m, (0 ≤ dt)%Z → Rl m (elapse dt m)).

Definition advances {A} (p : M A) (Φ : result A → keyspace → Prop) (w : world) : Prop :=
  wpm p (λ r w', Rl (wks w) (wks w') ∧ Φ r (wks w')) w.

Lemma lapse_Rl w w1 : lapse w w1 → Rl (wks w) (wks w1).
Proof. intros (_ & _ & [-> |(dt & Hdt & ->)]); [done|]. by apply Rl_elapse. Qed.

Lemma adv_ret {A} (a : A) Φ w : Φ (Ok a) (wks w) → advances (mret a) Φ w.
Proof. intros H. by apply wpm_ret. Qed.

Lemma adv_fail {A} e (Φ : result A → keyspace → Prop) w :
  Φ (Err e) (wks w) → advances (fail e) Φ w.
Proof. intros H. by apply wpm_fail. Qed.

Lemma adv_bind {A B} (p : M A) (f : A → M B) (Ψ : result A → keyspace → Prop) Φ w :
  advances p Ψ w →
  (∀ a w', Rl (wks w) (wks w') → Ψ (Ok a) (wks w') → advances (f a) Φ w') →
  (∀ e m', Rl (wks w) m' → Ψ (Err e) m' → Φ (Err e) m') →
  advances (p ≫= f) Φ w.
Proof.
  unfold advances. intros Hp Hf He. apply wpm_bind. eapply wpm_mono; [exact Hp|]. intros [a|e] w' [Hr HΨ].
  - eapply wpm_mono; [by apply Hf|]. intros r w2 [Hr2 HΦ]. split; [by etrans|done].
  - split; [done|]. by apply He.
Qed.

Lemma adv_mono {A} (p : M A) (Ψ Φ : result A → keyspace → Prop) w :
  advances p Ψ w → (∀ r m', Rl (wks w) m' → Ψ r m' → Φ r m') → advances p Φ w.
Proof. unfold advances. intros Hp HΨ. eapply wpm_mono; [exact Hp|]. intros r w' [? ?]. eauto. Qed.

Lemma adv_try {A} (p : M A) (Φ : result (result A) → keyspace → Prop) w :
  advances p (λ r, Φ (Ok r)) w → advances (try p) Φ w.
Proof. intros Hp. by apply wpm_try. Qed.

Lemma adv_now (Φ : result Z → keyspace → Prop) w : Φ (Ok (w_clock w)) (wks w) → advances now Φ w.
Proof. intros H. by apply wpm_now. Qed.

Lemma adv_knows q (Φ : result bool → keyspace → Prop) w :
  (∀ b, Φ (Ok b) (wks w)) → advances (knows q) Φ w.
Proof. intros H. by apply wpm_knows. Qed.

Lemma adv_learn q (Φ : result () → keyspace → Prop) w : Φ (Ok ()) (wks w) → advances (learn q) Φ w.
Proof. intros H. by apply wpm_learn. Qed.

Lemma adv_sleep ms (Φ : result () → keyspace → Prop) w :
  (∀ m', Rl (wks w) m' → Φ (Ok ()) m') → advances (sleep ms) Φ w.
Proof.
  intros H. apply wpm_sleep. assert (Rl (wks w) (wks (pass ms w))).
  { unfold wks, pass; simpl. rewrite elapse_effect by lia. apply Rl_elapse. lia. }
  split; [done|]. by apply H.
Qed.

Lemma adv_run {A} (p : script A) (Φ : result A → keyspace → Prop) w :
  (∀ m, Rl (wks w) m → wps p (λ a m', Rl m m' ∧ Φ (Ok a) m') m) →
  (∀ e m, Rl (wks w) m → Φ (Err e) m) → advances (run p) Φ w.
Proof.
  intros Hp He. apply wpm_run. intros w1 Hl _. pose proof (lapse_Rl _ _ Hl) as Hr.
  split; [intros _; split; [done|by apply He]|].
  eapply wps_mono; [by apply Hp|]. intros a m' [Hr2 HΦ] s' <-. rewrite wks_set_store.
  assert (Rl (wks w) (ks s')) by (by etrans).
  split; [done|]. intros _. split; [done|]. by apply He.
Qed.

Lemma adv_round_trip {A} (p : script (result A)) (Φ : result A → keyspace → Prop) w :
  (∀ m, Rl (wks w) m → wps p (λ r m', Rl m m' ∧ Φ r m') m) →
  (∀ e m, Rl (wks w) m → Φ (Err e) m) → advances (round_trip p) Φ w.
Proof.
  intros Hp He. apply wpm_round_trip. intros w1 Hl _. pose proof (lapse_Rl _ _ Hl) as Hr.
  split; [intros _; split; [done|by apply He]|].
  eapply wps_mono; [by apply Hp|]. intros a m' [Hr2 HΦ] s' <-. rewrite wks_set_store.
  assert (Rl (wks w) (ks s')) by (by etrans).
  split; [done|]. intros _. split; [done|]. by apply He.
Qed.

(** A pipeline answers once per command, or fails after a prefix. *)
Lemma pipe_all_Rl {A} (ps : list (script A)) s :
  (∀ p m, p ∈ ps → wps p (λ _ m', Rl m m') m) →
  Rl (ks s) (ks (pipe_all ps s).1) ∧ length (pipe_all ps s).2 = length ps.
Proof.
  revert s. induction ps as [|p ps IH]; intros s Hp; [done|]. simpl.
  assert (Rl (ks s) (ks (p s).1)) as H1 by (exact (Hp p (ks s) (list_elem_of_here _ _) s eq_refl)).
  destruct (p s) as [s1 a]. destruct (IH s1) as [H2 Hl];
    [by intros p' m Hin; apply Hp, list_elem_of_further|].
  destruct (pipe_all ps s1) as [s2 l]. simpl in *. split; [by etrans|by f_equal].
Qed.

Lemma adv_pipeline {A} (ps : list (script A)) (Φ : result (list A) → keyspace → Prop) w :
  (∀ p m, p ∈ ps → wps p (λ _ m', Rl m m') m) →
  (∀ l m, length l = length ps → Rl (wks w) m → Φ (Ok l) m) →
  (∀ e m, Rl (wks w) m → Φ (Err e) m) → advances (pipeline ps) Φ w.
Proof.
  intros Hp Hok He. unfold advances, wpm, pipeline.
  assert (exec_M (Do (Pipe ps) Return) w = do_op (Pipe ps) w) as ->
    by (unfold exec_M; by destruct (do_op (Pipe ps) w)).
  unfold do_op.
  destruct (next_spec w) as (Hl%lapse_Rl & _ & _). destruct (next w) as [w1 [n|]]; simpl in *.
  - destruct (pipe_all_Rl (take n ps) (w_store w1)) as [H1 _].
    { intros p m (i & Hin & _)%elem_of_take. by apply Hp, (list_elem_of_lookup_2 _ i). }
    assert (Rl (wks w) (ks (pipe_all (take n ps) (w_store w1)).1)) as H2 by (by etrans).
    split; [exact H2|exact (He _ _ H2)].
  - destruct (pipe_all_Rl ps (w_store w1) Hp) as [H1 Hlen].
    destruct (pipe_all ps (w_store w1)) as [s2 l]. simpl in *.
    assert (Rl (wks w) (ks s2)) as H2 by (by etrans). split; [exact H2|exact (Hok _ _ Hlen H2)].
Qed.

End advances.
End Advance.
