(* ===== verification/ServerSpec.v ===== *)
(** * The worker acknowledges only what it has handed over

    A worker that finishes a chained task creates the next task, and one that
    finishes a group member reports to the group, before it removes its own
    entry from the stream; so a crash or a failure at any point leaves
    either the entry, to be processed again, or the successor.  The file
    proves this for every plan of failures and delays, and the routing of a
    failed task for a server that answers. *)

From S2P Require Import Prelude GoLib Wrr Base Redis RedisFacts Client Advance.
From S2P Require Import RdbCore RdbLocks RdbFlow Instances Lifecycle Processes Typing.
From S2P Require Import Retry Handler Server.
From Stdlib Require Import Ascii.

Module ServerSpec.
Import GoTime GoFloat GoStr Keys Task Redis RedisFacts Client Advance RdbCore RdbLocks RdbFlow.
Import Lifecycle Processes Typing Retry Handler Server.

#[local] Arguments mbind {_ _ _ _} _ _ : simpl never.

Section retry.
Context `{R : Redis} (Rl : relation keyspace) `{!PreOrder Rl}.
Context (Rl_elapse : ∀ dt m, (0 ≤ dt)%Z → Rl m (elapse dt m)).

Abbreviation advances := (advances Rl).

(** A retry loop: the first success counts. *)
Lemma adv_withRetry {A} n b last (p : M A) (Φ : result () → keyspace → Prop) w :
  (∀ w', Rl (wks w) (wks w') → advances p (λ r m', match r with Ok _ => Φ (Ok ()) m' | _ => True end) w') →
  (∀ e m, Rl (wks w) m → Φ (Err e) m) → advances (withRetry n b last p) Φ w.
Proof.
  revert b last w. induction n as [|n IH]; intros b last w Hp He; simpl; [by apply adv_fail, He|].
  eapply (adv_bind Rl _ _ (λ r m', match r with Ok (Ok _) => Φ (Ok ()) m' | _ => True end));
    [apply adv_try; eapply adv_mono; [by apply Hp|by intros [] ? _]| |by intros e m' ? _; apply He].
  intros [a|e] w' Hr H'; [by apply adv_ret|].
  eapply adv_bind; [exact _|by apply (adv_sleep Rl Rl_elapse b (λ _ _, True))| |].
  - intros [] w2 Hr2 _. assert (Rl (wks w) (wks w2)) by (by etrans).
    apply IH; [intros w3 Hr3; apply Hp; by etrans|]. intros e2 m Hm. apply He. by etrans.
  - intros e2 m' Hr2 _. apply He. by etrans.
Qed.

End retry.

(** ** What a worker must not undo *)

Section handover.
Context `{R : Redis} `{J : Json} (K : Keys) (HK : valid_keys K).

(** The worker's own task. *)
Context (q0 T0 : string) (Hq0 : brace_free q0).

(** The durable keys other than the worker's own task hash. *)
Definition spared (k : string) : Prop :=
  k ≠ TaskKey K q0 T0 ∧ ∃ q x, brace_free q ∧ durable x = true ∧ k = queueKey K q x.

(** From [m] to [m'] no durable key went or got a deadline, groups only got
    smaller, and, with [b], no stream lost an entry. *)
Record onward (b : bool) (m m' : keyspace) : Prop := MkOnward {
  on_deadline k : spared k → k_exp m !! k = None → k_exp m' !! k = None;
  on_exists t k : spared k → k_exp m !! k = None → holds t m k → holds t m' k;
  on_groups q g x : brace_free q → x ∈ set_at m' (GroupKey K q g) → x ∈ set_at m (GroupKey K q g);
  on_entries q x : b = true → brace_free q → k_exp m !! StreamKey K q = None →
    x ∈ entries K m q → x ∈ entries K m' q;
}.

Lemma spared_queue q x :
  brace_free q → durable x = true → (q = q0 → x ≠ KTask T0) → spared (queueKey K q x).
Proof.
  intros Hq Hx Hne. split; [|by exists q, x]. intros E.
  apply (queueKey_iff K K q q0 x (KTask T0)) in E as (_ & -> & ->); [|done..]. by apply Hne.
Qed.

Lemma spared_stream q : brace_free q → spared (StreamKey K q).
Proof. intros Hq. by apply (spared_queue q KStream). Qed.

#[global] Instance onward_preorder b : PreOrder (onward b).
Proof.
  split; [by constructor|]. intros m1 m2 m3 [D1 X1 G1 E1] [D2 X2 G2 E2]. constructor; [auto|auto|auto|].
  intros q x Hb Hq Hd Hx. apply E2; [done|done| |by apply E1].
  apply D1; [by apply spared_stream|done].
Qed.

#[local] Hint Resolve onward_preorder : core.

Lemma onward_weaken m m' : onward true m m' → onward false m m'.
Proof. by intros []. Qed.

Lemma onward_elapse b dt m : (0 ≤ dt)%Z → onward b m (elapse dt m).
Proof.
  intros Hdt. assert (∀ k, k_exp m !! k = None → live_at (k_now m + dt) m k = true) as Hlive
    by (intros k Hk; unfold live_at; by rewrite Hk).
  constructor.
  - intros k _ Hk. simpl. apply map_lookup_filter_None. by left.
  - intros [] k _ Hk [v Hv]; exists v; simpl; by apply map_lookup_filter_Some_2, Hlive.
  - intros q g x _. unfold set_at, s_at; simpl. rewrite map_lookup_filter.
    destruct (k_set m !! _); simpl; [|done]. case_guard; [done|]. by intros ?%elem_of_empty.
  - intros q x _ _ Hk. unfold entries, queue_stream, stream_at, x_at; simpl.
    rewrite map_lookup_filter. destruct (k_stream m !! _); simpl; [|done].
    case_guard as Hg; [done|]. by destruct Hg; apply Hlive.
Qed.

(** *** Commands *)

Lemma onward_hset b k fvs m : onward b m (do_hset k fvs m).
Proof.
  constructor; [done| |done|done]. intros [] k' _ _; try done. simpl. unfold h_set.
  rewrite is_Some_insert. by right.
Qed.

Lemma onward_zadd b k sc x m : onward b m (do_zadd k sc x m).
Proof.
  constructor; [done| |done|done]. intros [] k' _ _; try done. simpl. unfold z_add.
  rewrite is_Some_insert. by right.
Qed.

Lemma onward_xadd b k i x m : onward b m (do_xadd k i x m).
Proof.
  constructor; [done| |done|].
  - intros [] k' _ _; try done. simpl. unfold x_add. rewrite is_Some_insert. by right.
  - intros q y _ _ _. unfold entries, queue_stream, stream_at; simpl. rewrite x_at_add.
    case_decide as E; [|done]. rewrite <- E. simpl. intros ?. apply elem_of_app. by left.
Qed.

Lemma onward_sadd_global b g xs m : onward b m (do_sadd (globalKey K g) xs m).
Proof.
  constructor; [done| | |done].
  - intros [] k' _ _; try done. simpl. unfold s_add. rewrite is_Some_insert. by right.
  - intros q g' x Hq. unfold set_at; simpl. rewrite s_at_add, decide_False; [done|].
    intros E. by apply eq_sym, (globalKey_not_queue K g q (KGroup g')) in E.
Qed.

Lemma onward_group b k g f m : onward b m (set_group k g f m).
Proof.
  constructor; [done| |done|].
  - intros [] k' _ _; try done. simpl. unfold x_group. case_match; [|done].
    rewrite is_Some_insert. by right.
  - intros q y _ _ _. unfold entries, queue_stream, stream_at; simpl. rewrite x_at_group.
    case_decide as E; [|done]. by rewrite <- E.
Qed.

Lemma onward_xdel k ids m : onward false m (do_xdel k ids m).
Proof.
  constructor; [done| |done|done]. intros [] k' _ _; try done. simpl. unfold x_del.
  case_match; [|done]. rewrite is_Some_insert. by right.
Qed.

Lemma onward_pexpire b k ms m : ¬ spared k → onward b m (do_pexpire k ms m).
Proof.
  intros Hk. constructor; [|by intros []|done|done]. intros k' Hk'. simpl.
  case_match; [|done]. rewrite lookup_insert_ne; [done|]. by intros ->.
Qed.

Lemma onward_del b k m : ¬ spared k → onward b m (del_key k m).
Proof.
  intros Hk. assert (∀ k', spared k' → k ≠ k') as Hne by (by intros k' ? ->). constructor.
  - intros k' Hk'. simpl. by rewrite lookup_delete_ne by auto.
  - intros [] k' Hk' _; simpl; by rewrite lookup_delete_ne by auto.
  - intros q g x _. unfold set_at; simpl. rewrite s_at_delete. case_decide; [|done].
    by intros ?%elem_of_empty.
  - intros q x _ Hq _. unfold entries, queue_stream, stream_at; simpl.
    rewrite x_at_delete, decide_False; [done|]. by apply Hne, spared_stream.
Qed.

Lemma onward_srem b k x m : ¬ spared k → onward b m (do_srem k x m).
Proof.
  intros Hk. assert (∀ k', spared k' → k ≠ k') as Hne by (by intros k' ? ->). constructor.
  - intros k' Hk'. simpl. case_decide; [|done]. by rewrite lookup_delete_ne by auto.
  - intros [] k' Hk' _; simpl; try done. unfold s_rem. case_decide.
    + by rewrite lookup_delete_ne by auto.
    + rewrite is_Some_insert. by right.
  - intros q g y _. unfold set_at; simpl. rewrite s_at_rem. case_decide as E; [|done].
    rewrite <- E. set_solver.
  - done.
Qed.

(** *** Scripts *)

Lemma not_spared_own : ¬ spared (TaskKey K q0 T0).
Proof. by intros []. Qed.

Lemma not_spared_queue q x : brace_free q → durable x = false → ¬ spared (queueKey K q x).
Proof.
  intros Hq Hx (_ & q' & x' & Hq' & Hx' & E). apply queueKey_iff in E as (_ & _ & ->); [|done..].
  congruence.
Qed.

Ltac not_spared :=
  lazymatch goal with
  | |- ¬ spared (TaskKey _ _ _) => apply not_spared_own
  | |- ¬ spared (GroupKey _ ?q ?g) => by apply (not_spared_queue q (KGroup g))
  | |- ¬ spared (GroupResultKey _ ?q ?g) => by apply (not_spared_queue q (KGroupResult g))
  | |- ¬ spared (UniqueKey _ ?q ?s) => by apply (not_spared_queue q (KUnique s))
  end.

Ltac peel_onward :=
  repeat lazymatch goal with
  | |- onward _ ?m ?m => reflexivity
  | |- onward _ _ (do_hset _ _ _) => etrans; [|apply onward_hset]
  | |- onward _ _ (do_zadd _ _ _ _) => etrans; [|apply onward_zadd]
  | |- onward _ _ (do_xadd _ _ _ _) => etrans; [|apply onward_xadd]
  | |- onward _ _ (do_xack _ _ _ _) => etrans; [|apply onward_group]
  | |- onward _ _ (do_xdel _ _ _) => etrans; [|apply onward_xdel]
  | |- onward _ _ (do_pexpire _ _ _) => etrans; [|apply onward_pexpire; not_spared]
  | |- onward _ _ (del_key _ _) => etrans; [|apply onward_del; not_spared]
  | |- onward _ _ (do_srem _ _ _) => etrans; [|apply onward_srem; not_spared]
  end; try done.

(** The branch a script takes. *)
Ltac wps_case :=
  lazymatch goal with
  | |- wps (match ?b with _ => _ end) _ _ => destruct b eqn:?
  end.

Lemma exists_holds m k : key_exists m k = true ↔ ∃ t, holds t m k.
Proof.
  unfold key_exists. rewrite !orb_true_iff, !bool_decide_eq_true. split.
  - intros [[[[H|H]|H]|H]|H];
      [by exists TString|by exists THash|by exists TSet|by exists TZset|by exists TStream].
  - intros [[] H]; simpl in H; tauto.
Qed.

Lemma exists_hset m k fvs : key_exists (do_hset k fvs m) k = true.
Proof. apply exists_holds. exists THash. simpl. unfold h_set. rewrite is_Some_insert. by left. Qed.

Lemma onward_key b m m' k :
  onward b m m' → spared k → k_exp m !! k = None → key_exists m k = true → key_exists m' k = true.
Proof.
  intros Ho Hk Hd. rewrite !exists_holds. intros [t Ht]. exists t.
  by apply (on_exists _ _ _ Ho t k).
Qed.

Lemma chainEnqueue_onward k sk encoded st T m :
  wps (chainEnqueueCmd k sk encoded st T) (λ _ m', onward true m m' ∧ key_exists m' k = true) m.
Proof.
  unfold chainEnqueueCmd. wps_steps. destruct (key_exists m k) eqn:E; wps_steps; [done|].
  split; [peel_onward|]. apply exists_holds. exists THash. simpl. unfold h_set.
  rewrite is_Some_insert. by left.
Qed.

Lemma chainSchedule_onward k zk encoded st sc T m :
  wps (chainScheduleCmd k zk encoded st sc T)
    (λ _ m', onward true m m' ∧ key_exists m' k = true) m.
Proof.
  unfold chainScheduleCmd. wps_steps. destruct (key_exists m k) eqn:E; wps_steps; [done|].
  split; [peel_onward|]. apply exists_holds. exists THash. simpl. unfold h_set.
  rewrite is_Some_insert. by left.
Qed.

Lemma readResults_same key i n m : wps (readResults key i n) (λ _ m', m' = m) m.
Proof.
  revert i. induction n as [|n IH]; intros i; simpl; [by wps_steps|]. wps_steps.
  eapply wps_mono; [apply IH|]. intros l m' ->. by wps_steps.
Qed.

Lemma groupComplete_onward q g cbk dk mem encoded st cb mode ttl res idx size m :
  brace_free q →
  wps (groupCompleteCmd (GroupKey K q g) cbk dk (GroupResultKey K q g) mem encoded st cb mode
         ttl res idx size)
    (λ _ m', onward true m m' ∧ mem ∉ set_at m' (GroupKey K q g)) m.
Proof.
  intros Hq. unfold groupCompleteCmd, expire. wps_steps.
  destruct (key_exists m _) eqn:E; simpl; wps_steps;
    [|split; [done|]; rewrite (key_exists_set _ _ E); set_solver].
  set (m1 := do_srem _ _ _). assert (onward true m m1) as H1 by (subst m1; peel_onward).
  assert (mem ∉ set_at m1 (GroupKey K q g)) as Hmem.
  { subst m1. unfold set_at; simpl. rewrite s_at_rem, decide_True by done. set_solver. }
  clearbody m1.
  assert (∀ m', onward true m1 m' → onward true m m' ∧ mem ∉ set_at m' (GroupKey K q g)) as Hfin.
  { intros m' H'. split; [etrans; [exact H1|exact H']|]. intros Hin.
    by apply Hmem, (on_groups _ _ _ H' q g). }
  apply (wps_mono _ (λ _ m', onward true m1 m')).
  { case_bool_decide; wps_steps; peel_onward. }
  intros [] m2 H2. wps_steps. case_bool_decide; wps_steps.
  { wps_case; wps_steps; apply Hfin; peel_onward. }
  apply (wps_mono _ (λ _ m', m' = m2)).
  { wps_case; wps_steps; [|done]. eapply wps_mono; [apply readResults_same|].
    intros l m' ->. by wps_steps. }
  intros x m3 ->. wps_steps. wps_case; wps_steps; [apply Hfin; peel_onward|].
  destruct mode; wps_steps; apply Hfin; peel_onward.
Qed.

(** *** Go code *)

Notation adv b := (advances (onward b)).
Notation ok_then P := (λ r m', match r with Ok _ => P m' | Err _ => True end).

Lemma adv_skip {A B} b (p : M A) (f : A → M B) Φ w :
  adv b p (λ _ _, True) w → (∀ a w', onward b (wks w) (wks w') → adv b (f a) Φ w') →
  (∀ e m', onward b (wks w) m' → Φ (Err e) m') → adv b (p ≫= f) Φ w.
Proof. intros Hp Hf He. eapply adv_bind; [exact _|exact Hp|intros a w' Hr _; by apply Hf|eauto]. Qed.

Lemma adv_script {A} b (p : script A) (P : keyspace → Prop) w :
  (∀ m, wps p (λ _ m', onward b m m' ∧ P m') m) → adv b (run p) (ok_then P) w.
Proof. intros Hp. apply adv_run; [exact _|apply onward_elapse|intros m _; apply Hp|done]. Qed.

Lemma adv_script' {A} b (p : script A) w :
  (∀ m, wps p (λ _ m', onward b m m') m) → adv b (run p) (λ _ _, True) w.
Proof.
  intros Hp. apply adv_run; [exact _|apply onward_elapse| |done].
  intros m _. eapply wps_mono; [apply Hp|]. done.
Qed.

Lemma registerQueue_adv q w : adv true (registerQueue K q) (λ _ _, True) w.
Proof.
  unfold registerQueue. apply adv_skip; [by apply adv_knows| |done]. intros known w1 _.
  destruct known; [by apply adv_ret|]. apply adv_skip; [|intros _ w2 _; by apply adv_learn|done].
  apply adv_script'. intros m. wps_steps. apply (onward_sadd_global true GQueues).
Qed.

Lemma EnqueueChainLink_adv msg delay w :
  adv true (EnqueueChainLink K msg delay)
    (ok_then (λ m', key_exists m' (TaskKey K (m_Queue msg) (m_ID msg)) = true)) w.
Proof.
  unfold EnqueueChainLink. apply adv_skip; [apply registerQueue_adv| |done].
  intros [] w1 _. case_bool_decide.
  - apply adv_skip; [by apply adv_now| |done]. intros t w2 _.
    eapply adv_bind; [exact _|apply adv_script; intros m; apply chainSchedule_onward| |done].
    intros n w3 _ Hn. by apply adv_ret.
  - eapply adv_bind; [exact _|apply adv_script; intros m; apply chainEnqueue_onward| |done].
    intros n w3 _ Hn. by apply adv_ret.
Qed.

Lemma CompleteGroupMember_adv msg w :
  (∀ l, m_GroupCallback msg = Some l → ok_link l) →
  adv true (CompleteGroupMember K msg)
    (ok_then (λ m', memberSlot msg ∉ set_at m' (GroupKey K (m_GroupQueue msg) (m_GroupID msg)))) w.
Proof.
  intros Hl. unfold CompleteGroupMember. destruct (m_GroupCallback msg) as [l|]; [|by apply adv_fail].
  destruct (Hl l eq_refl) as [Hq _]. case_bool_decide as E; simpl; [|by apply adv_fail].
  apply adv_skip; [apply registerQueue_adv| |done]. intros [] w1 _.
  apply adv_skip; [by apply adv_now| |done]. intros t w2 _.
  eapply adv_bind; [exact _|apply adv_script; intros m; apply groupComplete_onward; by rewrite E| |done].
  intros n w3 _ Hn. by apply adv_ret.
Qed.

(** The acknowledgement. *)
Lemma releaseUnique_adv msg w :
  ok_lock K (m_UniqueKey msg) → adv false (releaseUnique msg) (λ _ _, True) w.
Proof.
  intros Hlock. unfold releaseUnique. case_bool_decide as E; [by apply adv_ret|].
  destruct Hlock as [|(q & suf & Hq & Es)]; [done|]. rewrite Es.
  apply adv_skip; [|by intros; apply adv_ret|done]. apply adv_script'. intros m.
  unfold releaseUniqueCmd. wps_steps. wps_case; wps_steps; simpl; peel_onward.
Qed.

Lemma Done_adv q e msg w :
  q = q0 → m_ID msg = T0 → ok_lock K (m_UniqueKey msg) → adv false (Done K q e msg) (λ _ _, True) w.
Proof.
  intros -> Hid Hlock. unfold Done. case_bool_decide.
  - apply adv_skip; [by apply adv_now| |done]. intros t w1 _.
    apply adv_skip; [|intros _ w2 _; by apply releaseUnique_adv|done].
    unfold moveToZSet. apply adv_skip; [|by intros; apply adv_ret|done].
    apply adv_script'. intros m. unfold moveToZSetCmd. wps_steps. peel_onward.
  - apply adv_skip; [|intros _ w2 _; by apply releaseUnique_adv|done].
    apply adv_script'. intros m. unfold doneTx. wps_steps. simpl. rewrite Hid. peel_onward.
Qed.

End handover.

(** ** The order of hand-over and acknowledgement *)

Section process.
Context `{R : Redis} `{J : Json} (K : Keys) (HK : valid_keys K).

(** What must come before the acknowledgement: the next task of the chain
    exists; the group no longer waits for the member. *)
Definition handed_over (msg : TaskMessage) (m : keyspace) : Prop :=
  match m_Chain msg with
  | link :: rest => key_exists m (TaskKey K (cl_Queue link) (m_ID (nextMessage msg link rest))) = true
  | [] => m_GroupID msg = "" ∨
          memberSlot msg ∉ set_at m (GroupKey K (m_GroupQueue msg) (m_GroupID msg))
  end.

(** The next link is a single task, with an ID other than the task's own. *)
Definition single_next (msg : TaskMessage) : Prop :=
  ∀ link rest, m_Chain msg = link :: rest →
    cl_Group link = [] ∧ m_ID (nextMessage msg link rest) ≠ m_ID msg.

(** Streams, state ZSETs and task hashes have no deadline
    ([Lifecycle.inv_durable], in every reachable state). *)
Definition no_deadlines (m : keyspace) : Prop :=
  ∀ q x, brace_free q → durable x = true → k_exp m !! queueKey K q x = None.

Lemma no_deadlines_spared q T m k : no_deadlines m → spared K q T k → k_exp m !! k = None.
Proof. intros Hm (_ & q' & x & Hq' & Hx & ->). by apply Hm. Qed.

(** The group's queue is that of its callback. *)
Definition group_addressed (msg : TaskMessage) : Prop :=
  m_GroupID msg = "" ∨ brace_free (m_GroupQueue msg).

Lemma handed_over_onward q b msg m m' :
  brace_free q → ok_msg K msg → single_next msg → group_addressed msg →
  (∀ k, spared K q (m_ID msg) k → k_exp m !! k = None) →
  onward K q (m_ID msg) b m m' → handed_over msg m → handed_over msg m'.
Proof.
  intros Hqq Hm Hs Hg Hd Ho. unfold handed_over. destruct (m_Chain msg) as [|link rest] eqn:E.
  - intros [?|Hni]; [by left|]. destruct Hg as [?|Hg]; [by left|right].
    intros Hin. by apply Hni, (on_groups _ _ _ _ _ _ Ho).
  - destruct (Hs link rest E) as [_ Hne]. destruct Hm as [_ _ _ Hch _ _]. rewrite E in Hch.
    apply Forall_cons in Hch as [[Hq _] _]. intros Hk.
    assert (spared K q (m_ID msg) (TaskKey K (cl_Queue link) (m_ID (nextMessage msg link rest)))).
    { apply (spared_queue K HK q (m_ID msg) Hqq (cl_Queue link)
               (KTask (m_ID (nextMessage msg link rest)))); [done|done|].
      by intros _ [= ?]. }
    apply (onward_key K q (m_ID msg) b m); auto.
Qed.

Lemma enqueueNextWithRetry_adv q msg w :
  ok_msg K msg → single_next msg → m_Chain msg ≠ [] → brace_free q →
  advances (onward K q (m_ID msg) true) (enqueueNextWithRetry K msg) (λ r m', match r with Ok _ => handed_over msg m' | Err _ => True end) w.
Proof.
  intros Hm Hs Hc Hq. pose proof (onward_preorder K HK q (m_ID msg) Hq true) as Hpre.
  apply adv_withRetry; [done|by apply onward_elapse| |done]. intros w' _.
  unfold enqueueNext, handed_over. destruct (m_Chain msg) as [|link rest] eqn:E; [done|].
  destruct (Hs link rest E) as [-> _]. rewrite bool_decide_false by naive_solver.
  eapply adv_bind; [done|by apply EnqueueChainLink_adv| |done].
  intros n w1 _ Hn. by apply adv_ret.
Qed.

Lemma completeGroupWithRetry_adv q msg w :
  ok_msg K msg → m_Chain msg = [] → brace_free q →
  advances (onward K q (m_ID msg) true) (completeGroupWithRetry K msg) (λ r m', match r with Ok _ => handed_over msg m' | Err _ => True end) w.
Proof.
  intros Hm Hc Hq. pose proof (onward_preorder K HK q (m_ID msg) Hq true) as Hpre.
  apply adv_withRetry; [done|by apply onward_elapse| |done]. intros w' _.
  unfold handed_over. rewrite Hc. eapply adv_mono; [apply CompleteGroupMember_adv; try done|].
  - by destruct Hm.
  - intros [n|e] m' _ H; [by right|done].
Qed.


(** ** Where a failed task goes *)

(** The entry is acknowledged and deleted. *)
Definition acked (q : string) (e : sid) (m m' : keyspace) : Prop :=
  st_entries (stream_at m' (StreamKey K q))
  = filter (λ x, x.1 ∉ [e]) (st_entries (stream_at m (StreamKey K q))) ∧
  ∀ gr, group_at m (StreamKey K q) ConsumerGroup = Some gr →
    ∃ gr', group_at m' (StreamKey K q) ConsumerGroup = Some gr' ∧ g_pel gr' = delete e (g_pel gr).

(** The task waits in a state ZSET, its body and state in step. *)
Definition parked (q : string) (msg : TaskMessage) (zset : string) (st sc : Z) (m m' : keyspace)
    : Prop :=
  hget m' (TaskKey K q (m_ID msg)) "msg" = Some (EncodeMessage (with_State st msg)) ∧
  hget m' (TaskKey K q (m_ID msg)) "state" = Some (itoa st) ∧
  zset_at m' zset = <[m_ID msg := sc]> (zset_at m zset).

(** The lock, if the task has one, is not the task's any more. *)
Definition unlocked (msg : TaskMessage) (m : keyspace) : Prop :=
  m_UniqueKey msg = "" ∨ k_str m !! m_UniqueKey msg ≠ Some (m_ID msg).

Lemma acked_ackdel q e m :
  acked q e m (do_xdel (StreamKey K q) [e] (do_xack (StreamKey K q) ConsumerGroup [e] m)).
Proof.
  split.
  - unfold stream_at; simpl. rewrite x_at_del, decide_True by done. simpl.
    rewrite x_at_group, decide_True by done. done.
  - intros gr Hgr. unfold group_at, stream_at in *; simpl.
    rewrite x_at_del, decide_True by done. simpl. rewrite x_at_group, decide_True by done. simpl.
    rewrite lookup_alter, decide_True, Hgr by done. by eexists.
Qed.

Lemma acked_later q e m m1 m2 :
  acked q e m m1 → k_stream m2 = k_stream m1 → acked q e m m2.
Proof. unfold acked, group_at, stream_at. by intros ? ->. Qed.

Lemma moveToZSetCmd_spec q e msg zset st sc m :
  wps (moveToZSetCmd (StreamKey K q) (TaskKey K q (m_ID msg)) zset ConsumerGroup e
         (EncodeMessage (with_State st msg)) st sc (m_ID msg))
    (λ _ m', acked q e m m' ∧ parked q msg zset st sc m m') m.
Proof.
  unfold moveToZSetCmd. wps_steps. split; [by eapply acked_later; [apply acked_ackdel|]|].
  unfold parked, hget, hash_at, zset_at; simpl. rewrite h_at_set, decide_True by done. simpl.
  rewrite lookup_insert_ne, !lookup_insert_eq, z_at_add, decide_True by done. done.
Qed.

Lemma moveToZSet_quiet q e msg zset st sc (Q : result () → world → Prop) w :
  quiet w →
  (∀ w', quiet w' → w_clock w' = w_clock w → acked q e (wks w) (wks w') →
     parked q msg zset st (ofInt sc) (wks w) (wks w') → Q (Ok ()) w') →
  wpm (moveToZSet K q e msg zset st sc) Q w.
Proof.
  intros Hw HQ. unfold moveToZSet. apply wpm_bind, wpm_run_quiet; [done|].
  eapply wps_mono; [exact (moveToZSetCmd_spec q e msg zset st (ofInt sc) _)|].
  intros _ m' [Ha Hp] s' <-.
  by apply wpm_ret, HQ.
Qed.

(** Releasing a lock leaves the queue's data alone. *)
Lemma releaseUnique_quiet msg (Q : result () → world → Prop) w :
  quiet w →
  (∀ w', quiet w' → unlocked msg (wks w') →
     (wks w' = wks w ∨ m_UniqueKey msg ≠ "" ∧ wks w' = del_key (m_UniqueKey msg) (wks w)) →
     Q (Ok ()) w') →
  wpm (releaseUnique msg) Q w.
Proof.
  intros Hw HQ. unfold releaseUnique. case_bool_decide as E; [apply wpm_ret, HQ; [done|by left|by left]|].
  apply wpm_bind, wpm_run_quiet; [done|]. unfold releaseUniqueCmd. wps_steps.
  case_bool_decide as Ec; wps_steps; intros s' Hs; apply wpm_ret, HQ; try done.
  - right. rewrite wks_set_store, Hs. simpl. by rewrite lookup_delete_eq.
  - right. by rewrite wks_set_store, Hs.
  - right. by rewrite wks_set_store, Hs.
  - left. by rewrite wks_set_store, Hs.
Qed.

Lemma lock_neq q x msg :
  brace_free q → ok_lock K (m_UniqueKey msg) → m_UniqueKey msg ≠ "" →
  (∀ suf, x ≠ KUnique suf) → m_UniqueKey msg ≠ queueKey K q x.
Proof.
  intros Hq [?|(q' & suf & Hq' & Es)] Hne Hx; [done|]. rewrite Es. intros E.
  apply (queueKey_iff K K q' q (KUnique suf) x) in E as (_ & _ & E); [|done..]. by apply (Hx suf).
Qed.

Lemma unlocked_acked q e msg m m1 m2 :
  brace_free q → ok_lock K (m_UniqueKey msg) → acked q e m m1 →
  (m2 = m1 ∨ m_UniqueKey msg ≠ "" ∧ m2 = del_key (m_UniqueKey msg) m1) → acked q e m m2.
Proof.
  intros Hq Hl Ha [-> |[Hne ->]]; [done|]. pose proof (lock_neq q KStream msg Hq Hl Hne) as Hk.
  unfold acked, group_at, stream_at in *; simpl.
  rewrite x_at_delete, decide_False; [done|]. by apply Hk.
Qed.

Lemma unlocked_parked q msg st sc m m1 m2 :
  brace_free q → ok_lock K (m_UniqueKey msg) → parked q msg (ArchivedKey K q) st sc m m1 →
  (m2 = m1 ∨ m_UniqueKey msg ≠ "" ∧ m2 = del_key (m_UniqueKey msg) m1) →
  parked q msg (ArchivedKey K q) st sc m m2.
Proof.
  intros Hq Hl Ha [-> |[Hne ->]]; [done|].
  assert (m_UniqueKey msg ≠ TaskKey K q (m_ID msg)) 
    by exact (lock_neq q (KTask (m_ID msg)) msg Hq Hl Hne ltac:(done)).
  assert (m_UniqueKey msg ≠ ArchivedKey K q) 
    by exact (lock_neq q KArchived msg Hq Hl Hne ltac:(done)).
  unfold parked, hget, hash_at, zset_at in *; simpl.
  rewrite h_at_delete, z_at_delete, !decide_False by done. done.
Qed.

Lemma Archive_quiet q e msg t (Q : result () → world → Prop) w :
  quiet w → brace_free q → ok_lock K (m_UniqueKey msg) →
  (∀ w', unlocked msg (wks w') → acked q e (wks w) (wks w') →
     parked q msg (ArchivedKey K q) StateArchived (ofInt (Unix t)) (wks w) (wks w') → Q (Ok ()) w') →
  wpm (Archive K q e msg t) Q w.
Proof.
  intros Hw Hq Hl HQ. unfold Archive. apply wpm_bind, moveToZSet_quiet; [done|].
  intros w1 Hw1 _ Ha Hp. apply releaseUnique_quiet; [done|]. intros w2 _ Hu Hm.
  apply HQ; [exact Hu| |].
  - exact (unlocked_acked q e msg _ _ _ Hq Hl Ha Hm).
  - exact (unlocked_parked q msg _ _ _ _ _ Hq Hl Hp Hm).
Qed.

(** Without retention the task is deleted. *)
Lemma Done_quiet q e msg (Q : result () → world → Prop) w :
  quiet w → brace_free q → ok_lock K (m_UniqueKey msg) → (m_Retention msg ≤ 0)%Z →
  (∀ w', unlocked msg (wks w') → acked q e (wks w) (wks w') →
     key_exists (wks w') (TaskKey K q (m_ID msg)) = false → Q (Ok ()) w') →
  wpm (Done K q e msg) Q w.
Proof.
  intros Hw Hq Hl Hret HQ. unfold Done. rewrite bool_decide_false by lia.
  apply wpm_bind, wpm_run_quiet; [done|]. unfold doneTx. wps_steps. intros s1 Hs1. simpl in Hs1.
  apply releaseUnique_quiet; [done|]. intros w2 _ Hu Hm. rewrite wks_set_store in Hm.
  assert (acked q e (wks w) (ks s1)) as Ha.
  { rewrite Hs1. destruct (acked_ackdel q e (wks w)) as [Ha1 Ha2].
    unfold acked, group_at, stream_at in *; simpl in *.
    rewrite x_at_delete, decide_False; [done|].
    intros E. by apply (queueKey_inj K q (KTask (m_ID msg)) KStream) in E. }
  apply HQ; [done|exact (unlocked_acked q e msg _ _ _ Hq Hl Ha Hm)|].
  assert (key_exists (ks s1) (TaskKey K q (m_ID msg)) = false) as Hk.
  { rewrite Hs1. unfold key_exists; simpl. by rewrite !lookup_delete_eq. }
  destruct Hm as [-> |[Hne ->]]; [done|]. apply not_true_iff_false. rewrite exists_holds.
  intros [t Ht]. apply not_true_iff_false in Hk. apply Hk, exists_holds. exists t.
  destruct t; simpl in *; by eapply is_Some_delete.
Qed.

(** Whether a failure is the task's last. *)
Definition final (msg : TaskMessage) (cause : error) : bool :=
  asSkipRetry cause || bool_decide (m_MaxRetry msg ≤ m_Retried msg)%Z.

(** The message a failure leaves. *)
Definition failed (msg : TaskMessage) (cause : error) : TaskMessage :=
  with_CompletedAt 0 (with_LastErr (errorText cause) msg).

(** What a failure must lead to, for a task that failed at time [t]. *)
Definition routed (cfg : ServerConfig) (q : string) (e : sid) (msg : TaskMessage) (cause : error)
    (delay : Z → error → Z) (t : Z) (m : keyspace) (r : result (list report)) (m' : keyspace) : Prop :=
  acked q e m m' ∧
  if final msg cause then
    r = Ok ((if OnDeadLetter cfg
             then [CallOnDeadLetter (m_ID msg) (m_Kind msg) (m_Queue msg) cause] else [])
            ++ observe cfg msg OutcomeDeadLetter) ∧
    unlocked msg m' ∧
    if m_NoArchive msg then key_exists m' (TaskKey K q (m_ID msg)) = false
    else parked q (failed msg cause) (ArchivedKey K q) StateArchived (ofInt (Unix t)) m m'
  else
    r = Ok (observe cfg msg OutcomeRetry) ∧
    parked q (with_Retried (m_Retried msg + 1) (failed msg cause)) (RetryKey K q) StateRetry
      (ofInt (Unix (t + delay (m_Retried msg + 1)%Z cause))) m m'.

(** C24: the routing of a failed task.  Its entry is acknowledged and deleted.
    While the budget lasts and the error is retryable, the task waits in the
    retry ZSET until the backoff asked for after its incremented count has
    passed.  Otherwise its lock is given back, and it waits in the archive
    with its last error, or is deleted when it opted out of the archive; the
    dead-letter hook and the metrics hear of it. *)
Theorem failure_routing cfg q e msg cause delay w :
  quiet w → brace_free q → ok_lock K (m_UniqueKey msg) → RetryDelayFunc cfg = Some delay →
  let r := processFailure K cfg q e msg cause w in
  routed cfg q e msg cause delay (w_clock w) (wks w) r.2 (wks r.1).
Proof.
  intros Hw Hq Hl Hdelay.
  change (wpm (processFailure K cfg q e msg cause)
    (λ res w', routed cfg q e msg cause delay (w_clock w) (wks w) res (wks w')) w).
  unfold processFailure, routed. fold (final msg cause). destruct (final msg cause).
  - unfold deadLetter. apply wpm_bind, wpm_bind. destruct (m_NoArchive msg) eqn:En; simpl; rewrite En.
    + unfold logged. apply wpm_bind, wpm_try, Done_quiet; [done|done|done|done|].
      intros w' Hu Ha Hk. apply wpm_ret, wpm_ret, wpm_ret. done.
    + apply wpm_bind, wpm_now. unfold logged. apply wpm_bind, wpm_try, Archive_quiet; [done|done|done|].
      intros w' Hu Ha Hp. apply wpm_ret, wpm_ret, wpm_ret. done.
  - apply wpm_bind, wpm_now. rewrite Hdelay. unfold logged, Retry.
    apply wpm_bind, wpm_bind, wpm_try, moveToZSet_quiet; [done|].
    intros w' _ _ Ha Hp. apply wpm_ret, wpm_ret. done.
Qed.

End process.

(** A chained task is processed while round trips are lost. *)
Definition demo_link : ChainLink := MkChainLink "next" "p" "q" 3 false 0 0 [].

Definition demo_chained : TaskMessage :=
  with_Chain [demo_link] (with_ChainID "c" (newMessage "c" "email" "hi" "q" 3 false 0)).

Definition demo_mux : Mux := {["email" := λ m, (m, Returned None)]}.

Definition demo_cfg : ServerConfig :=
  newServer (λ z, z) (MkServerConfig {["q" := 1%Z]} false 2 (Some (λ n _, n * 5 * Second)%Z) true
                        NoMetrics 0 0 0 0 0 0 0 0).

Definition demo_queue (id : string) : keyspace :=
  do_xadd (StreamKey DefaultKeys "q") 1 id (do_xgroup (StreamKey DefaultKeys "q") ConsumerGroup empty_keyspace).

Definition demo_flaky (plan : list event) (id : string) : world (R := RefRedis.RefRedis) :=
  MkWorld (demo_queue id : RefRedis.RefRedis.(store)) plan (1700000000 * Second)%Z ∅.

Lemma demo_deadlines plan id : no_deadlines DefaultKeys (wks (demo_flaky plan id)).
Proof. by intros q x _ _. Qed.


Lemma failure_routing_witness :
  let w := demo_flaky [] "t" in
  let msg := newMessage "t" "email" "hi" "q" 3 false 0 in
  let r := processFailure DefaultKeys demo_cfg "q" 1 msg (ErrLeaf "boom") w in
  routed DefaultKeys demo_cfg "q" 1 msg (ErrLeaf "boom") (λ n _, n * 5 * Second)%Z (w_clock w) (wks w)
    r.2 (wks r.1).
Proof.
  apply (failure_routing DefaultKeys); [by exists "chronos"|done| |by left|done].
  by apply (bool_decide_unpack (brace_free "q")).
Defined.

End ServerSpec.
