(* ===== verification/FetchSpec.v ===== *)
(** * The fetch loop

    Every round visits every queue once, in the order the configuration asks
    for; what a round fetches fits the free workers; and a round leaves the
    queues it saw paused alone. *)

From S2P Require Import Prelude GoLib Wrr Base Redis RedisFacts Client Advance.
From S2P Require Import RdbCore RdbLocks Instances Lifecycle Handler Server.
From Stdlib Require Import Ascii.

Module FetchSpec.
Import GoTime GoFloat GoStr Keys Task Redis RedisFacts Client Advance RdbCore RdbLocks.
Import Lifecycle Handler Server.

#[local] Arguments mbind {_ _ _ _} _ _ : simpl never.

(** ** The order of a round *)

#[global] Instance heavier_total cfg : Total (heavier cfg).
Proof.
  intros a b. unfold heavier.
  destruct (Z.lt_trichotomy (weightOf cfg a) (weightOf cfg b)) as [?|[E|?]];
    [by right; left| |by left; left].
  destruct (total String.le a b); [left|right]; by right.
Qed.

#[global] Instance heavier_trans cfg : Transitive (heavier cfg).
Proof.
  intros a b c. unfold heavier. intros [?|[E ?]] [?|[E' ?]]; [left; lia|left; lia|left; lia|right].
  split; [lia|]. by etrans.
Qed.

Lemma queuesByWeight_perm cfg : queuesByWeight cfg ≡ₚ queueNames cfg.
Proof. apply merge_sort_Permutation. Qed.

Lemma queuesByWeight_sorted cfg : StronglySorted (heavier cfg) (queuesByWeight cfg).
Proof. apply StronglySorted_merge_sort; apply _. Qed.

Lemma queueNames_NoDup cfg : NoDup (queueNames cfg).
Proof. apply NoDup_fst_map_to_list. Qed.

(** The picker belongs to the server's queues. *)
Definition picks_for (cfg : ServerConfig) (p : Wrr.wrrPicker) : Prop :=
  Wrr.wrr_ok p ∧ Wrr.names p = Wrr.names (Wrr.newWRRPicker (Queues cfg)).

Lemma pick_names p :
  Wrr.wrr_ok p → Wrr.names p ≠ [] →
  (Wrr.pick p).2 ∈ Wrr.names p ∧ Wrr.names (Wrr.pick p).1 = Wrr.names p.
Proof.
  intros Hok Hne. destruct (Wrr.pick_spec p Hok Hne) as (b & p' & -> & Hb & Hn & _).
  split; [|done]. by apply list_elem_of_lookup_total_2.
Qed.

(** The first queue moved to the front. *)
Lemma promote_perm (x : string) (l : list string) :
  NoDup l → x ∈ l → x :: filter (λ q, q ≠ x) l ≡ₚ l.
Proof.
  induction 1 as [|y l Hy Hl IH]; [by intros ?%elem_of_nil|]. intros [->|Hx]%elem_of_cons.
  - rewrite filter_cons_False by naive_solver. f_equiv.
    clear -Hy. induction l as [|z l IH]; [done|]. apply not_elem_of_cons in Hy as [? ?].
    rewrite filter_cons_True by done. f_equiv. by apply IH.
  - assert (y ≠ x) by (by intros ->). rewrite filter_cons_True by done.
    rewrite Permutation_swap. f_equiv. by apply IH.
Qed.

(** A round visits every queue exactly once.  With strict priority the
    heaviest come first (ties by name); otherwise the picker's choice comes
    first and the others follow, heaviest first.  The picker stays one of the
    server's, so this holds of every round. *)
Lemma round_visits_all cfg p :
  Queues cfg ≠ ∅ → picks_for cfg p →
  let r := roundOrder cfg p in
  r.2 ≡ₚ queueNames cfg ∧ picks_for cfg r.1 ∧
  if StrictPriority cfg then StronglySorted (heavier cfg) r.2
  else ∃ rest, r.2 = (Wrr.pick p).2 :: rest ∧ StronglySorted (heavier cfg) rest.
Proof.
  intros Hq [Hok Hn]. unfold roundOrder. destruct (StrictPriority cfg); simpl.
  { split_and!; [apply queuesByWeight_perm|done|apply queuesByWeight_sorted]. }
  assert (Wrr.names p ≡ₚ queueNames cfg) as Hperm
    by (rewrite Hn; apply Wrr.newWRRPicker_names).
  assert (Wrr.names p ≠ []) as Hne.
  { rewrite Hn. intros E. apply Hq, map_size_empty_inv. by rewrite <- Wrr.newWRRPicker_length, E. }
  destruct (pick_names p Hok Hne) as [Hin Hn']. pose proof (Wrr.pick_ok p Hok) as Hok'.
  destruct (Wrr.pick p) as [p' primary]. simpl in *. split_and!.
  - rewrite <- queuesByWeight_perm. apply promote_perm.
    + rewrite queuesByWeight_perm. apply queueNames_NoDup.
    + by rewrite queuesByWeight_perm, <- Hperm.
  - split; [done|by rewrite Hn'].
  - eexists. split; [done|]. apply StronglySorted_filter', queuesByWeight_sorted.
Qed.

(** ** What a round fetches *)

Section fetch.
Context `{R : Redis} `{J : Json} (K : Keys) (HK : valid_keys K).

(** The streams of the queues in [P] are as they were. *)
Definition untouched_streams (P : string → Prop) (m m' : keyspace) : Prop :=
  ∀ q, P q → brace_free q → k_exp m !! StreamKey K q = None →
    k_exp m' !! StreamKey K q = None ∧
    stream_at m' (StreamKey K q) = stream_at m (StreamKey K q).

#[local] Instance untouched_preorder P : PreOrder (untouched_streams P).
Proof.
  split; [by intros m q|]. intros m1 m2 m3 H1 H2 q HP Hq Hd.
  destruct (H1 q HP Hq Hd) as [Hd2 <-]. by apply H2.
Qed.

#[local] Hint Resolve untouched_preorder : core.

Lemma untouched_elapse P dt m : (0 ≤ dt)%Z → untouched_streams P m (elapse dt m).
Proof.
  intros Hdt q HP Hq Hd. split; [simpl; apply map_lookup_filter_None; by left|].
  unfold stream_at, x_at; simpl. rewrite map_lookup_filter.
  destruct (k_stream m !! _); simpl; [|done]. case_guard as Hg; [done|].
  destruct Hg. unfold live_at. by rewrite Hd.
Qed.

Lemma untouched_same P m m' :
  k_exp m' = k_exp m → k_stream m' = k_stream m → untouched_streams P m m'.
Proof. intros He Hs q HP Hq Hd. unfold stream_at. by rewrite He, Hs. Qed.

Lemma stream_key_neq (P : string → Prop) q q' :
  brace_free q → brace_free q' → ¬ P q → P q' → StreamKey K q ≠ StreamKey K q'.
Proof.
  intros Hq Hq' Hn HP E. apply (queueKey_iff K K q q' KStream KStream) in E as (_ & -> & _); done.
Qed.

Lemma untouched_group P q g f m :
  brace_free q → ¬ P q → untouched_streams P m (set_group (StreamKey K q) g f m).
Proof.
  intros Hq Hn q' HP Hq' Hd. split; [done|]. unfold stream_at; simpl.
  rewrite x_at_group, decide_False; [done|]. by apply (stream_key_neq P).
Qed.

Lemma untouched_xdel P q ids m :
  brace_free q → ¬ P q → untouched_streams P m (do_xdel (StreamKey K q) ids m).
Proof.
  intros Hq Hn q' HP Hq' Hd. split; [done|]. unfold stream_at; simpl.
  rewrite x_at_del, decide_False; [done|]. by apply (stream_key_neq P).
Qed.

Abbreviation adv P := (advances (untouched_streams P)).
Abbreviation within n := (λ r (_ : keyspace), match r with Ok l => len l ≤ n | Err _ => True end%Z).

Lemma classify_length es bs : length (classify es bs).1 ≤ length es.
Proof.
  revert bs. induction es as [|[e T] es IH]; intros [|b bs]; simpl; try lia.
  specialize (IH bs). destruct (classify es bs) as [ts os]. simpl in *.
  destruct b as [b|]; simpl; [|lia]. destruct (DecodeMessage b); simpl; lia.
Qed.

Lemma readGroup_adv P q consumer n w :
  brace_free q → ¬ P q → (1 ≤ n)%Z →
  adv P (readGroup (StreamKey K q) consumer n) (within n) w.
Proof.
  intros Hq HP Hn. unfold readGroup. apply adv_round_trip; [exact _|apply untouched_elapse| |done].
  intros m _. apply wps_bind, wps_call. cbn [cmd_reply cmd_effect]. intros r ->. apply wps_ret.
  destruct (group_at m (StreamKey K q) ConsumerGroup) as [gr|]; simpl; [|done].
  split; [by apply untouched_group|]. rewrite length_take. lia.
Qed.

Lemma DequeueBatch_adv P q consumer n w :
  brace_free q → ¬ P q → (1 ≤ n)%Z → adv P (DequeueBatch K consumer q n) (within n) w.
Proof.
  intros Hq HP Hn. unfold DequeueBatch. rewrite (bool_decide_false (n < 1)%Z) by lia.
  eapply adv_bind; [exact _|by apply readGroup_adv| |done]. intros es w1 _ Hes.
  case_bool_decide; [by apply adv_fail|].
  eapply (adv_bind _ _ _ (λ _ _, True)); [ | |done].
  { apply adv_pipeline; [exact _|apply untouched_elapse| |done|done].
    intros p m (x & -> & _)%list_elem_of_fmap. by wps_steps. }
  intros bs w2 _ _. pose proof (classify_length es bs) as Hc.
  destruct (classify es bs) as [ts os]. simpl in Hc.
  eapply (adv_bind _ _ _ (λ _ _, True)); [ | |done].
  { case_bool_decide; [by apply adv_ret|].
    eapply (adv_bind _ _ _ (λ _ _, True)); [ |by intros; apply adv_ret|done].
    apply adv_try, adv_run; [exact _|apply untouched_elapse| |done]. intros m _.
    unfold ackDelete. wps_steps. split; [|done].
    etrans; [|by apply untouched_xdel]. by apply untouched_group. }
  intros [] w3 _ _. case_bool_decide; [by apply adv_fail|].
  eapply (adv_bind _ _ _ (λ _ _, True)); [ | |done].
  { apply adv_pipeline; [exact _|apply untouched_elapse| |done|done].
    intros p m (x & -> & _)%list_elem_of_fmap. wps_steps. by apply untouched_same. }
  intros l w4 _ _. apply adv_ret; [exact _|].
  simpl in *. lia.
Qed.

Lemma sweep_adv P consumer n order w :
  Forall brace_free order → (∀ q, q ∈ order → ¬ P q) → (1 ≤ n)%Z →
  adv P (sweep K consumer n order) (within n) w.
Proof.
  intros Hb HP Hn. revert w. induction Hb as [|q order Hq Hb IH]; intros w; simpl.
  { apply adv_ret; [exact _|]. simpl. lia. }
  eapply (adv_bind _ _ _ (λ r (_ : keyspace),
    match r with Ok (Ok l) => (len l ≤ n)%Z | _ => True end)); [ | |done].
  - apply adv_try. eapply adv_mono; [apply DequeueBatch_adv; [done|apply HP; left|done]|].
    by intros [] m.
  - intros [ts|e] w1 _ H; [by apply adv_ret|]. apply IH. intros q' Hin. apply HP. by right.
Qed.

Lemma refreshPaused_adv P st w : adv P (refreshPaused K st) (λ _ _, True) w.
Proof.
  unfold refreshPaused. eapply (adv_bind _ _ _ (λ _ _, True)); [by apply adv_now| |done].
  intros t w1 _ _. case_bool_decide; [by apply adv_ret|].
  eapply (adv_bind _ _ _ (λ _ _, True)); [|by intros [ns|e] w2 _ _; apply adv_ret|done].
  apply adv_try, adv_run; [exact _|apply untouched_elapse| |done].
  intros m _. wps_steps. split; [by apply untouched_same|done].
Qed.

(** After the refresh: at most a batch, and nothing from the paused queues. *)
Definition round_result (cfg : ServerConfig) (busy : Z) (m : keyspace)
    (r : result (fetchState * list Dequeued)) (m' : keyspace) : Prop :=
  ∀ st' tasks, r = Ok (st', tasks) →
    (len tasks ≤ batchSize cfg busy)%Z ∧ untouched_streams (λ q, q ∈ fs_paused st') m m'.

(** The workers that are free when [busy] slots are held, with the one the
    fetcher holds a slot for. *)
Definition free_workers (cfg : ServerConfig) (busy : Z) : Z := 1 + (Concurrency cfg - busy).

(** C29: a fetch round stays within bounds.  Whatever fails, a round hands out
    at most as many tasks as there are free workers, the fetcher's own slot
    included, and at most the batch limit; and the streams of the queues it
    saw paused are left as they were, their entries and their deliveries. *)
Theorem fetch_within_capacity cfg consumer busy st w st' tasks :
  Forall brace_free (roundOrder cfg (fs_picker st)).2 →
  (∀ q, brace_free q → k_exp (wks w) !! StreamKey K q = None) →
  (busy ≤ Concurrency cfg)%Z →
  (fetchRound K cfg consumer busy st w).2 = Ok (st', tasks) →
  (len tasks ≤ free_workers cfg busy)%Z ∧ (len tasks ≤ maxFetchBatch)%Z ∧
  ∀ q, q ∈ fs_paused st' → brace_free q →
    stream_at (wks (fetchRound K cfg consumer busy st w).1) (StreamKey K q)
    = stream_at (wks w) (StreamKey K q).
Proof.
  intros Hb Hd Hbusy Hr. destruct (batchSize_bounds cfg busy) as [Hbs Hfree].
  assert (wpm (fetchRound K cfg consumer busy st)
            (λ r w', round_result cfg busy (wks w) r (wks w')) w) as H.
  2:{ destruct (H st' tasks Hr) as [Hlen Hu]. unfold free_workers. split_and!; [lia|lia|].
      intros q Hp Hq. by apply (Hu q Hp Hq), Hd. }
  unfold fetchRound. destruct (roundOrder cfg (fs_picker st)) as [p order]. simpl in Hb.
  pose proof (refreshPaused_adv (λ _, True)
    (MkFetch p (fs_paused st) (fs_pausedChecked st)) w) as Href. unfold advances in Href.
  apply wpm_bind. eapply wpm_mono; [exact Href|].
  intros [st1|e] w1 [H1 _]; [|done].
  assert (∀ P, untouched_streams P (wks w) (wks w1)) as H1' by (intros P q _; by apply H1).
  assert (∀ ts, len ts ≤ batchSize cfg busy → round_result cfg busy (wks w) (Ok (st1, ts)) (wks w1))%Z
    as Hdone by (by intros ts Hts ? ? [= <- <-]).
  set (order' := filter _ order).
  assert (Forall brace_free order' ∧ ∀ q, q ∈ order' → q ∉ fs_paused st1) as [Hb' Hp'].
  { split; [|by intros q [? _]%list_elem_of_filter]. apply Forall_forall.
    intros q [_ Hin]%list_elem_of_filter. rewrite Forall_forall in Hb. by apply Hb. }
  clearbody order'. destruct order' as [|q0 order']; [apply wpm_ret, Hdone; simpl; lia|].
  apply wpm_bind. eapply wpm_mono;
    [apply (sweep_adv (λ q, q ∈ fs_paused st1)); [exact Hb'|exact Hp'|lia]|].
  intros [ts|e] w2 [H2 Hts]; [|done].
  assert (untouched_streams (λ q, q ∈ fs_paused st1) (wks w) (wks w2)) as H02
    by (etrans; [apply H1'|exact H2]).
  case_bool_decide; [apply wpm_ret; by intros ? ? [= <- <-]|].
  case_bool_decide; [apply wpm_ret; intros ? ? [= <- <-]; split; [simpl; lia|done]|].
  apply wpm_bind, wpm_try. eapply wpm_mono; [apply (DequeueBatch_adv (λ q, q ∈ fs_paused st1))|].
  - by apply Forall_cons in Hb' as [? _].
  - apply Hp'. left.
  - lia.
  - intros r w3 [H3 Hr3].
    assert (untouched_streams (λ q, q ∈ fs_paused st1) (wks w) (wks w3)) as H03
      by (etrans; [exact H02|exact H3]).
    destruct r as [ts3|e3]; apply wpm_ret; intros ? ? [= <- <-]; split; try done. simpl. lia.
Qed.

End fetch.

(** The queue "a" is paused, "b" is not; the reply to a command is lost. *)
Definition demo_paused : world (R := RefRedis.RefRedis) :=
  MkWorld (do_sadd (PausedKey DefaultKeys) ["a"]
             (do_xadd (StreamKey DefaultKeys "a") 1 "t1"
                (do_xgroup (StreamKey DefaultKeys "a") ConsumerGroup empty_keyspace))
           : RefRedis.RefRedis.(store))
    [MkEvent 1 None; MkEvent 1 (Some 0)] (1700000000 * Second)%Z ∅.

Definition demo_cfg : ServerConfig :=
  newServer (λ z, z) (MkServerConfig {["a" := 3%Z; "b" := 1%Z]} false 4 None false NoMetrics
                        0 0 0 0 0 0 0 0).

Definition demo_state : fetchState := MkFetch (Wrr.newWRRPicker (Queues demo_cfg)) ∅ 0.

Lemma round_visits_all_witness :
  let r := roundOrder demo_cfg (fs_picker demo_state) in
  r.2 ≡ₚ queueNames demo_cfg ∧ picks_for demo_cfg r.1 ∧
  if StrictPriority demo_cfg then StronglySorted (heavier demo_cfg) r.2
  else ∃ rest, r.2 = (Wrr.pick (fs_picker demo_state)).2 :: rest
               ∧ StronglySorted (heavier demo_cfg) rest.
Proof.
  apply round_visits_all; [by apply (bool_decide_unpack (Queues demo_cfg ≠ ∅))|].
  split; [|done]. apply Wrr.newWRRPicker_ok. by vm_compute.
Defined.

Lemma fetch_within_capacity_witness :
  ∃ st' tasks, (fetchRound DefaultKeys demo_cfg "w" 1 demo_state demo_paused).2 = Ok (st', tasks) ∧
    (len tasks ≤ 1 + (4 - 1))%Z.
Proof.
  assert (valid_keys DefaultKeys) as HK by (by exists "chronos").
  destruct (fetchRound DefaultKeys demo_cfg "w" 1 demo_state demo_paused).2 as [[st' tasks]|e] eqn:E;
    [|by vm_compute in E].
  exists st', tasks. split; [done|].
  apply (fetch_within_capacity DefaultKeys HK demo_cfg "w" 1 demo_state demo_paused st' tasks);
    [|done|by vm_compute|done].
  refine (bool_decide_unpack _ _). by vm_compute.
Defined.

End FetchSpec.
