(* ===== verification/MaintSpec.v ===== *)
(** * The maintenance loops

    The forwarder empties the delayed ZSETs of what is due, the janitor
    brings the archive under its bounds, an administrator's "run now" moves a
    task once: what repeated ticks amount to, on a server that answers. *)

From S2P Require Import Prelude GoLib Base Redis RedisFacts Client.
From S2P Require Import RdbCore RdbLocks RdbAdmin Instances Lifecycle CoreSpec.
From Stdlib Require Import Ascii.

Module MaintSpec.
Import GoTime GoFloat GoStr Keys Task Redis RedisFacts Client RdbCore RdbLocks RdbAdmin.
Import Lifecycle CoreSpec.

#[local] Arguments mbind {_ _ _ _} _ _ : simpl never.

#[global] Instance zkind_eq_dec : EqDecision zkind.
Proof. solve_decision. Defined.

Section maint.
Context `{R : Redis} `{J : Json} (K : Keys).

(** [n] ticks of a loop, one after the other. *)
Fixpoint ticks {A} (n : nat) (p : M A) : M () :=
  match n with
  | 0 => mret ()
  | S n => p;; ticks n p
  end.

(** ** The forwarder *)

(** The members due at the cutoff. *)
Definition due (z : gmap string score) (cutoff : score) : gmap string score :=
  filter (λ p, p.2 ≤ cutoff)%Z z.

Lemma due_lookup z cutoff x sc :
  due z cutoff !! x = Some sc ↔ z !! x = Some sc ∧ (sc ≤ cutoff)%Z.
Proof. unfold due. by rewrite map_lookup_filter_Some. Qed.

Lemma due_size z cutoff :
  length (filter (λ p, p.2 ≤ cutoff)%Z (zsorted z)) = size (due z cutoff).
Proof.
  unfold due. rewrite <- length_map_to_list. apply Permutation_length.
  rewrite map_filter_alt, map_to_list_to_map.
  - by rewrite zsorted_perm.
  - eapply sublist_NoDup; [apply (NoDup_fst_map_to_list z)|].
    apply (fmap_sublist fst), sublist_filter.
Qed.

Lemma zrangebyscore_due z cutoff max :
  (0 ≤ max)%Z →
  len (zrangebyscore z cutoff max) = Z.min max (Z.of_nat (size (due z cutoff))).
Proof.
  intros Hmax. unfold zrangebyscore. rewrite take_limit_length by done.
  by rewrite length_map, due_size.
Qed.

(** Dropping some of a map's keys. *)
Lemma dropped_size {V} (ids : list string) (d d' : gmap string V) :
  (∀ x, d' !! x = if decide (x ∈ ids) then None else d !! x) →
  NoDup ids → (∀ x, x ∈ ids → is_Some (d !! x)) → size d' + length ids = size d.
Proof.
  revert d. induction ids as [|x ids IH]; intros d Hd Hnd Hin.
  - rewrite Nat.add_0_r. f_equal. apply map_eq. intros x. by rewrite Hd, decide_False by set_solver.
  - apply NoDup_cons in Hnd as [Hx Hnd]. destruct (Hin x (list_elem_of_here _ _)) as [v Hv].
    rewrite <- (insert_delete_id d x v Hv) at 1. rewrite map_size_insert_None by apply lookup_delete_eq.
    rewrite <- (IH (delete x d)); [simpl; lia| |done|].
    + intros y. rewrite Hd, lookup_delete. repeat case_decide; set_solver.
    + intros y Hy. rewrite lookup_delete_ne by (by intros ->). apply Hin. by right.
Qed.

(** What a tick leaves due: all but what it promoted. *)
Lemma forwarded_due z stream prefix cutoff max m m' :
  (0 ≤ max)%Z →
  forwarded z stream prefix (zrangebyscore (zset_at m z) cutoff max) m m' →
  Z.of_nat (size (due (zset_at m' z) cutoff))
  = Z.max 0 (Z.of_nat (size (due (zset_at m z) cutoff)) - max).
Proof.
  intros Hmax (_ & _ & Hz & _).
  pose proof (zrangebyscore_due (zset_at m z) cutoff max Hmax) as Hlen.
  assert (size (due (zset_at m' z) cutoff) + length (zrangebyscore (zset_at m z) cutoff max)
          = size (due (zset_at m z) cutoff)) as Hsz; [|lia].
  apply dropped_size; [|apply zrangebyscore_NoDup|].
  - intros x. apply option_eq. intros sc. rewrite due_lookup, Hz.
    case_decide; [naive_solver|by rewrite due_lookup].
  - intros x (sc & Hx & Hsc)%elem_of_zrangebyscore. exists sc. by apply due_lookup.
Qed.

(** What was due has been promoted, the rest is where it was. *)
Definition drained_to (q z : string) (cutoff : score) (m m' : keyspace) : Prop :=
  (∀ x sc, zset_at m z !! x = Some sc →
     if decide (sc ≤ cutoff)%Z
     then zset_at m' z !! x = None ∧ (∃ e, (e, x) ∈ entries K m' q) ∧
          hget m' (TaskKey K q x) "state" = Some (itoa StatePending)
     else zset_at m' z !! x = Some sc) ∧
  (∀ x, zset_at m z !! x = None → zset_at m' z !! x = None) ∧
  (∀ e x, (e, x) ∈ entries K m q → (e, x) ∈ entries K m' q) ∧
  (∀ x, hget m (TaskKey K q x) "state" = Some (itoa StatePending) →
        hget m' (TaskKey K q x) "state" = Some (itoa StatePending)).

Lemma forwarded_drains q z cutoff max m m1 m' :
  forwarded z (StreamKey K q) (TaskKeyPrefix K q) (zrangebyscore (zset_at m z) cutoff max) m m1 →
  drained_to q z cutoff m1 m' → drained_to q z cutoff m m'.
Proof.
  intros ((new & He & Hids & _) & _ & Hz & _ & Hst) (H1 & H2 & H3 & H4).
  set (ids := zrangebyscore _ _ _) in *. split_and!.
  - intros x sc Hx. specialize (Hz x).
    destruct (decide (x ∈ ids)) as [Hin|Hin].
    + destruct (elem_of_zrangebyscore _ _ _ _ Hin) as (sc' & Hx' & Hsc'). simplify_eq.
      rewrite decide_True by done. split_and!; [by apply H2| |].
      * rewrite <- Hids in Hin. apply list_elem_of_fmap in Hin as ([e x'] & -> & Hin).
        exists e. apply H3. unfold entries, queue_stream. rewrite He. apply elem_of_app. by right.
      * apply H4. rewrite <- TaskKey_concat, Hst. by rewrite decide_True.
    + rewrite Hx in Hz. by apply H1.
  - intros x Hx. apply H2. rewrite Hz. by case_decide.
  - intros e x Hin. apply H3. unfold entries, queue_stream in *. rewrite He.
    apply elem_of_app. by left.
  - intros x Hx. apply H4. rewrite <- TaskKey_concat, Hst in *. by case_decide.
Qed.

Lemma ticks_drain q z cutoff max n w :
  quiet w → (0 < max)%Z → (Z.of_nat (size (due (zset_at (wks w) z) cutoff)) ≤ Z.of_nat n * max)%Z →
  wpm (ticks n (run (forwardCmd z (StreamKey K q) cutoff max (TaskKeyPrefix K q) StatePending)))
    (λ r w', r = Ok () ∧ drained_to q z cutoff (wks w) (wks w')) w.
Proof.
  intros Hw Hmax. revert w Hw. induction n as [|n IH]; intros w Hw Hn; simpl.
  - apply wpm_ret. split; [done|]. split_and!; [|done..]. intros x sc Hx. case_decide; [|done].
    assert (due (zset_at (wks w) z) cutoff !! x = Some sc) as Hd by (by apply due_lookup).
    assert (size (due (zset_at (wks w) z) cutoff) = 0) as E%map_size_empty_inv by lia.
    by rewrite E, lookup_empty in Hd.
  - apply wpm_bind, wpm_run_quiet; [done|]. eapply wps_mono; [apply forwardCmd_spec|].
    intros k m1 [_ Hf] s' Hs'. cbn beta in Hf.
    pose proof (forwarded_due _ _ _ _ _ _ _ (Z.lt_le_incl _ _ Hmax) Hf) as Hdue.
    assert (wks (set_store s' w) = m1) as Em by (by rewrite wks_set_store).
    eapply wpm_mono; [apply (IH (set_store s' w)); [done|]|].
    + rewrite Em. lia.
    + intros r w' [-> Hd]. rewrite Em in Hd. split; [done|]. by eapply forwarded_drains.
Qed.

(** C26: every delayed task that is due gets promoted.  If [n] ticks have
    together the capacity for what is due, then after [n] ticks of the
    forwarder every task due in the retry (or the scheduled) ZSET has left it,
    is in the stream and pending; what is not due has not moved; no entry of
    the stream was lost on the way. *)
Theorem forwarder_drains q t max n w :
  quiet w → (0 < max)%Z →
  (Z.of_nat (size (due (zset_at (wks w) (RetryKey K q)) (ofInt (Unix t)))) ≤ Z.of_nat n * max →
   let r := ticks n (ForwardRetry K q t max) w in
   r.2 = Ok () ∧ drained_to q (RetryKey K q) (ofInt (Unix t)) (wks w) (wks r.1))%Z ∧
  (Z.of_nat (size (due (zset_at (wks w) (ScheduledKey K q)) (scheduleScore t))) ≤ Z.of_nat n * max →
   let r := ticks n (ForwardScheduled K q t max) w in
   r.2 = Ok () ∧ drained_to q (ScheduledKey K q) (scheduleScore t) (wks w) (wks r.1))%Z.
Proof.
  intros Hw Hmax. split; intros Hn.
  - exact (ticks_drain q (RetryKey K q) (ofInt (Unix t)) max n w Hw Hmax Hn).
  - exact (ticks_drain q (ScheduledKey K q) (scheduleScore t) max n w Hw Hmax Hn).
Qed.

(** ** Run now *)

(** The task waits in a state ZSET. *)
Definition waiting (m : keyspace) (q T : string) : Prop := ∃ z, in_zset K m q z T.

(** The task was moved from wherever it waited to the end of the stream. *)
Definition moved (m m' : keyspace) (q T : string) : Prop :=
  ∃ id, (st_last (queue_stream K m q) < id)%Z ∧ entries K m' q = entries K m q ++ [(id, T)] ∧
        hget m' (TaskKey K q T) "state" = Some (itoa StatePending) ∧
        hget m' (TaskKey K q T) "msg" = hget m (TaskKey K q T) "msg".

Definition no_zset (T : string) (m m' : keyspace) (q : string) : Prop :=
  ∀ z, zset_at m' (zkey K q z) = delete T (zset_at m (zkey K q z)).

Lemma zkey_inj q z z' : zkey K q z = zkey K q z' → z = z'.
Proof. intros E. apply queueKey_inj in E. by destruct z, z'. Qed.

Lemma key_exists_zrem_task m q z x T :
  key_exists (do_zrem (zkey K q z) x m) (TaskKey K q T) = key_exists m (TaskKey K q T).
Proof.
  assert (zkey K q z ≠ TaskKey K q T) as Hne
    by (intros E; apply (queueKey_inj K q (zslot z) (KTask T)) in E; by destruct z).
  unfold key_exists; simpl. do 2 f_equal. apply bool_decide_ext.
  unfold z_rem. case_decide; [by rewrite lookup_delete_ne|by rewrite lookup_insert_ne].
Qed.

Lemma zset_at_zrem m q z z' x :
  zset_at (do_zrem (zkey K q z) x m) (zkey K q z')
  = if decide (z = z') then delete x (zset_at m (zkey K q z')) else zset_at m (zkey K q z').
Proof.
  unfold zset_at; simpl. rewrite z_at_rem. destruct (decide (z = z')) as [->|Hne].
  - by rewrite decide_True.
  - rewrite decide_False; [done|]. by intros E%zkey_inj.
Qed.

(** The script removes the task from the four ZSETs. *)
Definition zrem_all (q T : string) (m : keyspace) : keyspace :=
  do_zrem (zkey K q ZCompleted) T (do_zrem (zkey K q ZArchived) T
    (do_zrem (zkey K q ZRetry) T (do_zrem (zkey K q ZScheduled) T m))).

Lemma zrem_all_zset m q T : no_zset T m (zrem_all q T m) q.
Proof. intros z. unfold zrem_all. rewrite !zset_at_zrem. by destruct z. Qed.

Lemma zrem_all_exists m q T T' :
  key_exists (zrem_all q T m) (TaskKey K q T') = key_exists m (TaskKey K q T').
Proof. unfold zrem_all. by rewrite !key_exists_zrem_task. Qed.

(** How many of the sets held the task. *)
Definition zrem_reply (m : keyspace) (q T : string) (z : zkind) : Z :=
  if decide (is_Some (zset_at m (zkey K q z) !! T)) then 1%Z else 0%Z.

Lemma zrem_replies m q T :
  (zrem_reply m q T ZScheduled + zrem_reply m q T ZRetry + zrem_reply m q T ZArchived
   + zrem_reply m q T ZCompleted = 0)%Z ↔ ¬ waiting m q T.
Proof.
  unfold zrem_reply, waiting, in_zset. split.
  - intros Hs [z Hz]. destruct z; repeat case_decide; try done; lia.
  - intros Hn. rewrite !decide_False; [done|..]; intros H; apply Hn; eauto.
Qed.

Lemma runTaskCmd_spec q T m :
  wps (runTaskCmd (ScheduledKey K q) (RetryKey K q) (ArchivedKey K q) (CompletedKey K q)
         (StreamKey K q) (TaskKey K q T) T StatePending)
    (λ _ m', no_zset T m m' q ∧
       (waiting m q T → key_exists m (TaskKey K q T) = true → moved m m' q T) ∧
       (¬ waiting m q T ∨ key_exists m (TaskKey K q T) = false →
        queue_stream K m' q = queue_stream K m q ∧
        hash_at m' (TaskKey K q T) = hash_at m (TaskKey K q T))) m.
Proof.
  unfold runTaskCmd.
  change (ScheduledKey K q) with (zkey K q ZScheduled). change (RetryKey K q) with (zkey K q ZRetry).
  change (ArchivedKey K q) with (zkey K q ZArchived). change (CompletedKey K q) with (zkey K q ZCompleted).
  wps_steps. rewrite !zset_at_zrem. rewrite !(decide_False (P := _ = _)) by done.
  fold (zrem_reply m q T ZScheduled) (zrem_reply m q T ZRetry) (zrem_reply m q T ZArchived)
    (zrem_reply m q T ZCompleted) (zrem_all q T m).
  case_bool_decide as Hs; wps_steps.
  - apply zrem_replies in Hs. split_and!; [apply zrem_all_zset|done|done].
  - assert (¬ ¬ waiting m q T) as Hw by (by rewrite <- zrem_replies).
    rewrite zrem_all_exists. destruct (key_exists m (TaskKey K q T)) eqn:E; simpl; wps_steps.
    + split_and!.
      * intros z. rewrite <- zrem_all_zset. done.
      * intros _ _. eexists. split; [eassumption|]. split_and!.
        { unfold entries, queue_stream, stream_at; simpl. by rewrite x_at_add, decide_True. }
        { unfold hget, hash_at; simpl. rewrite h_at_set, decide_True by done. simpl.
          by rewrite lookup_insert_eq. }
        { unfold hget, hash_at; simpl. rewrite h_at_set, decide_True by done. simpl.
          by rewrite lookup_insert_ne. }
      * intros [?|?]; [done|congruence].
    + split_and!; [apply zrem_all_zset|done|done].
Qed.

(** "run now" moves a task once.  Wherever the task waits, it leaves every
    state ZSET, no other task does, and if it still has a body exactly one
    entry for it is appended to the stream and it becomes pending; a task
    that waits nowhere is left alone; so a second call adds nothing. *)
Lemma RunTask_moves_once q T w :
  quiet w →
  let w1 := (RunTask K q T w).1 in
  let w2 := (RunTask K q T w1).1 in
  (RunTask K q T w).2 = Ok () ∧ no_zset T (wks w) (wks w1) q ∧
  (waiting (wks w) q T → key_exists (wks w) (TaskKey K q T) = true →
   moved (wks w) (wks w1) q T) ∧
  (¬ waiting (wks w) q T ∨ key_exists (wks w) (TaskKey K q T) = false →
   queue_stream K (wks w1) q = queue_stream K (wks w) q) ∧
  queue_stream K (wks w2) q = queue_stream K (wks w1) q.
Proof.
  intros Hw w1 w2.
  assert (∀ w, quiet w → wpm (RunTask K q T) (λ r w', quiet w' ∧ r = Ok () ∧
    no_zset T (wks w) (wks w') q ∧
    (waiting (wks w) q T → key_exists (wks w) (TaskKey K q T) = true → moved (wks w) (wks w') q T) ∧
    (¬ waiting (wks w) q T ∨ key_exists (wks w) (TaskKey K q T) = false →
     queue_stream K (wks w') q = queue_stream K (wks w) q)) w) as H.
  { intros w' Hw'. unfold RunTask. apply wpm_bind, wpm_run_quiet; [done|].
    eapply wps_mono; [apply runTaskCmd_spec|]. intros _ m' (Hz & Hm & Hn) s' <-.
    apply wpm_ret. split_and!; [done|done|done|done|]. intros Ho. by apply Hn. }
  destruct (H w Hw) as (Hw1 & Hr & Hz & Hm & Hn). destruct (H w1 Hw1) as (_ & _ & _ & _ & Hn2).
  split_and!; [done..|]. apply Hn2. left. intros [z [sc Hin]].
  fold w1 in Hz. by rewrite Hz, lookup_delete_eq in Hin.
Qed.

End maint.

(** An archived task is run again. *)
Definition demo_dead : world (R := RefRedis.RefRedis) :=
  demo_world (do_hset (TaskKey DefaultKeys "q" "a") [("msg", "body"); ("state", itoa StateArchived)]
    (do_zadd (ArchivedKey DefaultKeys "q") 10 "a" empty_keyspace)).

Lemma RunTask_moves_once_witness :
  moved DefaultKeys (wks demo_dead) (wks (RunTask DefaultKeys "q" "a" demo_dead).1) "q" "a".
Proof.
  destruct (RunTask_moves_once DefaultKeys "q" "a" demo_dead) as (_ & _ & Hm & _); [done|].
  apply Hm; [|by vm_compute]. exists ZArchived, 10%Z. by vm_compute.
Defined.

Lemma forwarder_drains_witness :
  let w := demo_world demo_retry in
  let r := ticks 2 (ForwardRetry DefaultKeys "q" (60 * Second) 2) w in
  r.2 = Ok () ∧ drained_to DefaultKeys "q" (RetryKey DefaultKeys "q") (ofInt (Unix (60 * Second))) (wks w) (wks r.1).
Proof.
  apply (forwarder_drains DefaultKeys "q" (60 * Second) 2 2 (demo_world demo_retry)); [done|lia|by vm_compute].
Defined.

End MaintSpec.
