(* ===== verification/JanitorSpec.v ===== *)
(** * The janitor evicts the oldest first, and converges

    [trimArchivedCmd] works on a sorted set with range queries; seen as the
    sorted list of its members it drops a prefix.  Repeated ticks bring the
    set under its bound and leave nothing expired, and they terminate. *)

From S2P Require Import Prelude GoLib Base Redis RedisFacts Client.
From S2P Require Import RdbCore RdbLocks RdbAdmin Instances Lifecycle CoreSpec MaintSpec.
From Stdlib Require Import Ascii.

Module JanitorSpec.
Import GoTime GoFloat GoStr Keys Task Redis RedisFacts Client RdbCore RdbLocks RdbAdmin.
Import Lifecycle CoreSpec MaintSpec.

#[local] Arguments mbind {_ _ _ _} _ _ : simpl never.

(** ** Sorted sets as sorted lists *)

#[global] Instance zle_antisymm : AntiSymm (=) zle.
Proof.
  intros [a x] [b y]. unfold zle; simpl. intros [?|[-> ?]] [?|[? ?]]; [lia|lia|lia|].
  f_equal. by apply (anti_symm String.le).
Qed.

(** In a list sorted by score the members up to a score are a prefix. *)
Lemma filter_prefix cutoff l :
  StronglySorted zle l →
  filter (λ p, p.2 ≤ cutoff)%Z l = take (length (filter (λ p, p.2 ≤ cutoff)%Z l)) l.
Proof.
  induction 1 as [|x l Hl IH Hx]; [done|]. destruct (decide (x.2 ≤ cutoff)%Z).
  - rewrite !filter_cons_True by done. simpl. by f_equal.
  - rewrite !filter_cons_False by done. rewrite filter_none; [done|].
    intros y Hy. rewrite Forall_forall in Hx. specialize (Hx y Hy). unfold zle in Hx. lia.
Qed.

Lemma fst_zsorted_split z k x sc :
  (x, sc) ∈ drop k (zsorted z) ↔ (x, sc) ∈ zsorted z ∧ x ∉ map fst (take k (zsorted z)).
Proof.
  pose proof (zsorted_NoDup z) as Hnd. rewrite <- (take_drop k (zsorted z)) in Hnd at 1.
  rewrite map_app in Hnd. apply NoDup_app in Hnd as (_ & Hdis & _).
  rewrite <- (take_drop k (zsorted z)) at 2. rewrite elem_of_app. split.
  - intros Hin. split; [by right|]. intros Hx. apply (Hdis x Hx).
    by apply (list_elem_of_fmap_2 fst _ (x, sc)).
  - intros [[Hin|?] Hni]; [|done]. destruct Hni. by apply (list_elem_of_fmap_2 fst _ (x, sc)).
Qed.

Lemma zsorted_remove z z' k :
  (∀ x, z' !! x = if decide (x ∈ map fst (take k (zsorted z))) then None else z !! x) →
  zsorted z' = drop k (zsorted z).
Proof.
  intros Hz. apply (StronglySorted_unique zle).
  - apply zsorted_sorted.
  - apply StronglySorted_drop, zsorted_sorted.
  - apply NoDup_Permutation.
    + apply (NoDup_fmap_1 fst), zsorted_NoDup.
    + eapply sublist_NoDup; [|apply sublist_drop]. apply (NoDup_fmap_1 fst), zsorted_NoDup.
    + intros [x sc]. rewrite elem_of_zsorted, fst_zsorted_split, Hz, elem_of_zsorted.
      case_decide; naive_solver.
Qed.

Lemma zsorted_length z : length (zsorted z) = size z.
Proof. rewrite zsorted_perm. apply length_map_to_list. Qed.

Lemma zrange_prefix {A} n (l : list A) : (1 ≤ n)%Z → zrange 0 (n - 1) l = take (Z.to_nat n) l.
Proof.
  intros Hn. unfold zrange. rewrite (bool_decide_false (0 < 0)%Z), (bool_decide_false (n - 1 < 0)%Z) by lia.
  rewrite Z.max_id, drop_0. f_equal. lia.
Qed.

Section janitor.
Context `{R : Redis} `{J : Json} (K : Keys).

(** The members went, with their task hashes; nothing else changed. *)
Definition removed (q z : string) (ids : list string) (m m' : keyspace) : Prop :=
  (∀ x, zset_at m' z !! x = if decide (x ∈ ids) then None else zset_at m z !! x) ∧
  (∀ x, x ∈ ids → key_exists m' (TaskKey K q x) = false) ∧
  (∀ x, key_exists m (TaskKey K q x) = false → key_exists m' (TaskKey K q x) = false) ∧
  (∀ x, x ∉ ids → hash_at m' (TaskKey K q x) = hash_at m (TaskKey K q x)).

Lemma key_exists_zrem m k x k' :
  k ≠ k' → key_exists (do_zrem k x m) k' = key_exists m k'.
Proof.
  intros Hk. unfold key_exists; simpl. do 2 f_equal. apply bool_decide_ext.
  unfold z_rem. case_decide; [by rewrite lookup_delete_ne|by rewrite lookup_insert_ne].
Qed.

Lemma key_exists_del_same m k : key_exists (del_key k m) k = false.
Proof. unfold key_exists; simpl. by rewrite !lookup_delete_eq. Qed.

Lemma key_exists_dels m k k' :
  key_exists m k' = false → key_exists (del_key k m) k' = false.
Proof.
  intros H. destruct (decide (k = k')) as [->|Hne]; [apply key_exists_del_same|].
  revert H. unfold key_exists; simpl. by rewrite !lookup_delete_ne.
Qed.

Lemma removeAll_spec q z ids m :
  (∀ x, z ≠ TaskKey K q x) →
  wps (removeAll z (TaskKeyPrefix K q) ids) (λ _ m', removed q z ids m m') m.
Proof.
  intros Hz. apply (wps_foreach_inv (λ l m', removed q z l m m')).
  - split_and!; [done|by intros x ?%elem_of_nil|done|done].
  - intros l1 x l2 m' _ (H1 & H2 & H0 & H3). wps_steps. simpl. rewrite TaskKey_concat. split_and!.
    + intros y. unfold zset_at in *; simpl.
      rewrite z_at_rem, decide_True, lookup_delete, z_at_delete by done.
      rewrite (decide_False (P := TaskKey K q x = z)) by (intros E; by apply (Hz x)).
      by rewrite H1, decide_elem_snoc.
    + intros y Hy. rewrite key_exists_zrem by apply Hz.
      apply elem_of_app in Hy as [Hy| ->%list_elem_of_singleton];
        [by apply key_exists_dels, H2|apply key_exists_del_same].
    + intros y Hy. rewrite key_exists_zrem by apply Hz. by apply key_exists_dels, H0.
    + intros y Hy. rewrite <- H3 by set_solver. unfold hash_at; simpl. rewrite h_at_delete.
      apply decide_False. intros E%(inj _). set_solver.
  - done.
Qed.

Lemma removed_app q z ids1 ids2 m m1 m2 :
  removed q z ids1 m m1 → removed q z ids2 m1 m2 → removed q z (ids1 ++ ids2) m m2.
Proof.
  intros (Z1 & D1 & E1 & H1) (Z2 & D2 & E2 & H2). split_and!.
  - intros x. rewrite Z2, Z1. repeat case_decide; set_solver.
  - intros x [Hx|Hx]%elem_of_app; [by apply E2, D1|by apply D2].
  - intros x Hx. by apply E2, E1.
  - intros x [? ?]%not_elem_of_app. rewrite H2 by done. by apply H1.
Qed.

(** How many members one run of the script evicts: those expired, then those
    in excess of the bound, each kind at most [batch]. *)
Definition expired_count (cutoff : score) (batch : Z) (z : gmap string score) : nat :=
  Z.to_nat batch `min` size (due z cutoff).

Definition trim_count (cutoff : score) (batch maxSize : Z) (z : gmap string score) : nat :=
  let e := expired_count cutoff batch z in
  e + if bool_decide (0 ≤ maxSize)%Z
      then Z.to_nat (Z.min batch (Z.of_nat (size z) - Z.of_nat e - maxSize)) else 0.

Lemma expired_prefix z cutoff batch :
  (0 ≤ batch)%Z →
  zrangebyscore z cutoff batch = map fst (take (expired_count cutoff batch z) (zsorted z)).
Proof.
  intros Hb. unfold zrangebyscore, take_limit, expired_count. rewrite bool_decide_false by lia.
  rewrite filter_prefix by apply zsorted_sorted. rewrite due_size.
  rewrite <- firstn_map, take_take, firstn_map. done.
Qed.

Lemma trimArchivedCmd_spec q z cutoff batch maxSize m :
  (∀ x, z ≠ TaskKey K q x) → (0 < batch)%Z →
  wps (trimArchivedCmd z cutoff batch (TaskKeyPrefix K q) maxSize)
    (λ r m', let k := trim_count cutoff batch maxSize (zset_at m z) in
             r = Z.of_nat k ∧ removed q z (map fst (take k (zsorted (zset_at m z)))) m m') m.
Proof.
  intros Hz Hb. unfold trimArchivedCmd, trim_count. wps_steps.
  rewrite expired_prefix by lia. set (e := expired_count cutoff batch (zset_at m z)).
  assert (e ≤ size (zset_at m z)) as He.
  { subst e. unfold expired_count, due. pose proof (map_size_filter (λ p, p.2 ≤ cutoff)%Z (zset_at m z)). lia. }
  clearbody e. eapply wps_mono; [by apply removeAll_spec|]. intros [] m1 H1.
  assert (len (map fst (take e (zsorted (zset_at m z)))) = Z.of_nat e) as Hlen
    by (rewrite length_map, length_take, zsorted_length; lia).
  pose proof (zsorted_remove _ _ e (proj1 H1)) as Es.
  assert (size (zset_at m1 z) = size (zset_at m z) - e) as Esz
    by (rewrite <- !zsorted_length, Es, length_drop; done).
  case_bool_decide as Hmax; wps_steps; [|by rewrite !Nat.add_0_r, Hlen].
  rewrite Esz. case_bool_decide as Hover; wps_steps.
  2:{ replace (Z.to_nat _) with 0 by lia. by rewrite !Nat.add_0_r, Hlen. }
  rewrite zrange_prefix by zlia. rewrite Es. set (o := Z.to_nat _).
  assert (o = Z.to_nat (Z.min batch (Z.of_nat (size (zset_at m z)) - Z.of_nat e - maxSize))) as <-
    by (subst o; case_bool_decide; lia).
  eapply wps_mono; [by apply removeAll_spec|]. intros [] m2 H2. wps_steps.
  assert (len (take o (drop e (zsorted (zset_at m z)))) = Z.of_nat o) as Hlen2.
  { rewrite length_take, length_drop, zsorted_length.
    subst o. case_bool_decide; lia. }
  rewrite Hlen, Hlen2, <- take_take_drop, map_app. split; [lia|by eapply removed_app].
Qed.

(** ** One tick and many *)

(** The state after a tick, as a list: a prefix went. *)
Definition trimmed (q z : string) (k : nat) (m m' : keyspace) : Prop :=
  zsorted (zset_at m' z) = drop k (zsorted (zset_at m z)) ∧
  (∀ x, x ∈ map fst (take k (zsorted (zset_at m z))) → key_exists m' (TaskKey K q x) = false) ∧
  (∀ x, key_exists m (TaskKey K q x) = false → key_exists m' (TaskKey K q x) = false) ∧
  (∀ x, x ∉ map fst (take k (zsorted (zset_at m z))) →
     hash_at m' (TaskKey K q x) = hash_at m (TaskKey K q x)).

Lemma trim_quiet q z cutoff batch maxSize (Q : result Z → world → Prop) w :
  quiet w → (∀ x, z ≠ TaskKey K q x) → (0 < batch)%Z →
  (∀ w', quiet w' → let k := trim_count cutoff batch maxSize (zset_at (wks w) z) in
     trimmed q z k (wks w) (wks w') → Q (Ok (Z.of_nat k)) w') →
  wpm (run (trimArchivedCmd z cutoff batch (TaskKeyPrefix K q) maxSize)) Q w.
Proof.
  intros Hw Hz Hb HQ. apply wpm_run_quiet; [done|].
  eapply wps_mono; [by apply trimArchivedCmd_spec|]. intros r m' [-> (H1 & H2 & H3 & H4)] s' <-.
  apply HQ; [done|]. rewrite wks_set_store. split_and!; [by apply zsorted_remove|done|done|done].
Qed.

Lemma archived_not_task q x : ArchivedKey K q ≠ TaskKey K q x.
Proof. intros E. by apply (queueKey_inj K q KArchived (KTask x)) in E. Qed.

Lemma completed_not_task q x : CompletedKey K q ≠ TaskKey K q x.
Proof. intros E. by apply (queueKey_inj K q KCompleted (KTask x)) in E. Qed.

(** The janitor's script drops a prefix.  With the archive (or the set of
    completed tasks) seen as the list of its members from the oldest to the
    newest, a run of the script with its range queries is the function that
    drops the first [trim_count] elements: it reports their number, deletes
    their task hashes and touches no other task's. *)
Lemma trim_drops_prefix q t maxSize batch w :
  quiet w → (0 < batch)%Z →
  let r := TrimArchived K q t maxSize batch w in
  let c := TrimCompleted K q t maxSize batch w in
  let k z := trim_count (ofInt (Unix t)) batch maxSize (zset_at (wks w) z) in
  r.2 = Ok (Z.of_nat (k (ArchivedKey K q))) ∧
  trimmed q (ArchivedKey K q) (k (ArchivedKey K q)) (wks w) (wks r.1) ∧
  c.2 = Ok (Z.of_nat (k (CompletedKey K q))) ∧
  trimmed q (CompletedKey K q) (k (CompletedKey K q)) (wks w) (wks c.1).
Proof.
  intros Hw Hb r c k.
  assert (∀ z, (∀ x, z ≠ TaskKey K q x) →
    let p := run (trimArchivedCmd z (ofInt (Unix t)) batch (TaskKeyPrefix K q) maxSize) in
    (p w).2 = Ok (Z.of_nat (k z)) ∧ trimmed q z (k z) (wks w) (wks (p w).1)) as H.
  { intros z Hz p. change (wpm p (λ r w', r = Ok (Z.of_nat (k z)) ∧ trimmed q z (k z) (wks w) (wks w')) w).
    by apply trim_quiet. }
  destruct (H (ArchivedKey K q) (archived_not_task q)), (H (CompletedKey K q) (completed_not_task q)).
  done.
Qed.

Lemma trimmed_app q z k1 k2 m m1 m2 :
  trimmed q z k1 m m1 → trimmed q z k2 m1 m2 → trimmed q z (k1 + k2) m m2.
Proof.
  intros (L1 & D1 & E1 & H1) (L2 & D2 & E2 & H2). rewrite L1 in *. split_and!.
  - by rewrite L2, drop_drop.
  - rewrite <- take_take_drop, map_app. intros x [Hx|Hx]%elem_of_app; [by apply E2, D1|by apply D2].
  - intros x Hx. by apply E2, E1.
  - rewrite <- take_take_drop, map_app. intros x [? ?]%not_elem_of_app.
    rewrite H2 by done. by apply H1.
Qed.

(** The measures of the loop: the members, and the expired members. *)
Lemma trimmed_due q z k m m' cutoff :
  trimmed q z k m m' →
  size (due (zset_at m' z) cutoff) ≤ size (due (zset_at m z) cutoff) - k.
Proof.
  intros (L & _). rewrite <- !due_size, L. pose proof (zsorted_sorted (zset_at m z)) as Hs.
  revert L Hs. generalize (zsorted (zset_at m z)) as l. intros l _ Hs. revert k.
  induction Hs as [|x l Hl IH Hx]; intros [|k]; simpl; [lia|lia|lia|].
  destruct (decide (x.2 ≤ cutoff)%Z).
  - rewrite filter_cons_True by done. simpl. apply IH.
  - rewrite filter_cons_False by done. rewrite (filter_none _ l).
    + rewrite filter_none; [done|]. intros y Hy. rewrite Forall_forall in Hx.
      specialize (Hx y (subseteq_drop _ _ _ Hy)). unfold zle in Hx. lia.
    + intros y Hy. rewrite Forall_forall in Hx. specialize (Hx y Hy). unfold zle in Hx. lia.
Qed.

Lemma ticks_trim q z cutoff batch maxSize n w :
  quiet w → (∀ x, z ≠ TaskKey K q x) → (0 < batch)%Z → (0 ≤ maxSize)%Z →
  wpm (ticks n (run (trimArchivedCmd z cutoff batch (TaskKeyPrefix K q) maxSize)))
    (λ r w', r = Ok () ∧ ∃ k, trimmed q z k (wks w) (wks w') ∧
       (Z.of_nat (size (zset_at (wks w) z)) ≤ maxSize + Z.of_nat n * batch →
        Z.of_nat (size (zset_at (wks w') z)) ≤ maxSize)%Z ∧
       (Z.of_nat (size (due (zset_at (wks w) z) cutoff)) ≤ Z.of_nat n * batch →
        due (zset_at (wks w') z) cutoff = ∅)%Z) w.
Proof.
  intros Hw Hz Hb Hmax. revert w Hw. induction n as [|n IH]; intros w Hw; simpl.
  - apply wpm_ret. split; [done|]. exists 0. split_and!; [|lia|].
    + split_and!; [done|by intros x ?%elem_of_nil|done|done].
    + intros Hd. apply map_size_empty_inv. lia.
  - apply wpm_bind, trim_quiet; [done|done|done|]. intros w1 Hw1 k H1.
    eapply wpm_mono; [by apply IH|]. intros r w2 [-> (k2 & H2 & Hsz & Hdue)].
    split; [done|]. exists (k + k2). split_and!; [by eapply trimmed_app| |].
    + intros Hn. apply Hsz. destruct H1 as (L1 & _).
      rewrite <- zsorted_length, L1, length_drop, zsorted_length.
      subst k. unfold trim_count. rewrite bool_decide_true by done. lia.
    + intros Hn. apply Hdue. pose proof (trimmed_due q z k _ _ cutoff H1).
      subst k. unfold trim_count, expired_count in *. lia.
Qed.

(** C30: the janitor converges.  When [n] batches cover the excess over the
    configured bound, [n] ticks bring the archive (the completed tasks) under
    it; when they cover what is expired, nothing expired is left after them;
    what went is a prefix, the oldest, and has no task hash any more. *)
Theorem janitor_converges q t maxSize batch n w :
  quiet w → (0 < batch)%Z → (0 ≤ maxSize)%Z →
  let final p z := (ticks n p w).2 = Ok () ∧
    ∃ k, trimmed q z k (wks w) (wks (ticks n p w).1) ∧
    (Z.of_nat (size (zset_at (wks w) z)) ≤ maxSize + Z.of_nat n * batch →
     Z.of_nat (size (zset_at (wks (ticks n p w).1) z)) ≤ maxSize)%Z ∧
    (Z.of_nat (size (due (zset_at (wks w) z) (ofInt (Unix t)))) ≤ Z.of_nat n * batch →
     due (zset_at (wks (ticks n p w).1) z) (ofInt (Unix t)) = ∅)%Z in
  final (TrimArchived K q t maxSize batch) (ArchivedKey K q) ∧
  final (TrimCompleted K q t maxSize batch) (CompletedKey K q).
Proof.
  intros Hw Hb Hmax final. split.
  - exact (ticks_trim q _ (ofInt (Unix t)) batch maxSize n w Hw (archived_not_task q) Hb Hmax).
  - exact (ticks_trim q _ (ofInt (Unix t)) batch maxSize n w Hw (completed_not_task q) Hb Hmax).
Qed.

End janitor.

(** Three archived tasks, room for one. *)
Definition demo_archive : world (R := RefRedis.RefRedis) :=
  demo_world (do_zadd (ArchivedKey DefaultKeys "q") (ofInt 10) "a"
    (do_zadd (ArchivedKey DefaultKeys "q") (ofInt 50) "b"
       (do_zadd (ArchivedKey DefaultKeys "q") (ofInt 99) "c" empty_keyspace))).

Lemma trim_drops_prefix_witness :
  let r := TrimArchived DefaultKeys "q" (20 * Second) 1 5 demo_archive in
  r.2 = Ok 2%Z ∧ map fst (zsorted (zset_at (wks r.1) (ArchivedKey DefaultKeys "q"))) = ["c"].
Proof.
  destruct (trim_drops_prefix DefaultKeys "q" (20 * Second) 1 5 demo_archive)
    as (Hr & (Hl & _) & _); [done|lia|].
  split; [rewrite Hr; by vm_compute|]. rewrite Hl. by vm_compute.
Defined.

Lemma janitor_converges_witness :
  let p := TrimArchived DefaultKeys "q" 0 1 1 in
  (ticks 2 p demo_archive).2 = Ok () ∧
  (Z.of_nat (size (zset_at (wks (ticks 2 p demo_archive).1) (ArchivedKey DefaultKeys "q"))) ≤ 1)%Z.
Proof.
  destruct (janitor_converges DefaultKeys "q" 0 1 1 2 demo_archive)
    as ((Hr & k & _ & Hsz & _) & _); [done|lia|lia|].
  split; [exact Hr|]. apply Hsz. by vm_compute.
Defined.

End JanitorSpec.
