(* ===== verification/RecoverSpec.v ===== *)
(** * The recoverer takes over abandoned tasks

    A worker that died leaves entries pending.  One call of [Recover] on a
    server that answers moves every such task, idle for longer than the
    limit, to the retry ZSET or, its budget spent, to the archive, and drops
    entries whose task is gone. *)

From S2P Require Import Prelude GoLib Base Redis RedisFacts Client.
From S2P Require Import RdbCore RdbLocks RdbAdmin Instances Lifecycle Processes ServerSpec.
From Stdlib Require Import Ascii.

Module RecoverSpec.
Import GoTime GoFloat GoStr Keys Task Redis RedisFacts Client RdbCore RdbLocks RdbAdmin.
Import Lifecycle Processes ServerSpec.

#[local] Arguments mbind {_ _ _ _} _ _ : simpl never.

Section recover.
Context `{R : Redis} `{J : Json} (K : Keys) (HK : valid_keys K) (q : string) (Hq : brace_free q).

(** The task has a body that decodes. *)
Definition decodable (m : keyspace) (T : string) : Prop :=
  ∃ b msg, body K m q T = Some b ∧ DecodeMessage b = Some msg.

(** Bodies are stored under the address their message names
    ([Processes.addressed], in every reachable state). *)
Definition bodies_ok (m : keyspace) : Prop := ∀ T b, body K m q T = Some b → addressed K q T b.

(** The forwarder or an administrator will find the task. *)
Definition parked_at (m : keyspace) (T : string) : Prop :=
  in_zset K m q ZRetry T ∨ in_zset K m q ZArchived T.

Definition handled (m : keyspace) (x : sid * string) : Prop :=
  (∀ T, (x.1, T) ∉ entries K m q) ∧ parked_at m x.2.

(** What every step of the loop does, and undoes of the others'. *)
Record progress (m m' : keyspace) : Prop := MkProgress {
  pr_bodies : bodies_ok m → bodies_ok m';
  pr_decodable T : decodable m T → decodable m' T;
  pr_parked T : parked_at m T → parked_at m' T;
  pr_entries x : x ∈ entries K m' q → x ∈ entries K m q;
}.

#[local] Instance progress_preorder : PreOrder progress.
Proof. split; [by constructor|]. intros m1 m2 m3 [] []. constructor; auto. Qed.

Lemma handled_progress m m' x : handled m x → progress m m' → handled m' x.
Proof. intros [H1 H2] []. split; [|auto]. intros T Hin. by apply (H1 T), pr_entries0. Qed.

(** *** The scripts *)

Lemma entries_ackdel e g m x :
  x ∈ entries K (do_xdel (StreamKey K q) [e] (do_xack (StreamKey K q) g [e] m)) q →
  x ∈ entries K m q ∧ x.1 ≠ e.
Proof.
  unfold entries, queue_stream, stream_at; simpl. rewrite x_at_del, decide_True by done. simpl.
  rewrite x_at_group, decide_True by done. simpl. intros [? ?]%list_elem_of_filter. set_solver.
Qed.

Lemma progress_ackdel e g m :
  progress m (do_xdel (StreamKey K q) [e] (do_xack (StreamKey K q) g [e] m)).
Proof. constructor; try done. intros x Hx. by apply entries_ackdel in Hx as [? _]. Qed.

Lemma progress_zadd z sc x m : progress m (do_zadd (zkey K q z) sc x m).
Proof.
  constructor; try done. intros T.
  assert (∀ z', in_zset K m q z' T → in_zset K (do_zadd (zkey K q z) sc x m) q z' T) as H.
  { intros z'. unfold in_zset, zset_at; simpl. rewrite z_at_add. case_decide as E; [|done].
    rewrite <- E. intros Hs. rewrite lookup_insert. by case_decide. }
  intros [?|?]; [left|right]; auto.
Qed.

Lemma body_after_hset m T T' b st :
  body K (do_hset (TaskKey K q T) [("msg", b); ("state", st)] m) q T'
  = if decide (T = T') then Some b else body K m q T'.
Proof.
  unfold body, hget, hash_at; simpl. rewrite h_at_set. destruct (decide (T = T')) as [->|Hne].
  - rewrite decide_True by done. simpl. by rewrite lookup_insert_ne, lookup_insert_eq.
  - rewrite decide_False; [done|]. by intros [= ?]%(queueKey_inj K q (KTask T) (KTask T')).
Qed.

Lemma progress_hset msg st m :
  ok_msg K msg → m_Queue msg = q →
  progress m (do_hset (TaskKey K q (m_ID msg)) [("msg", EncodeMessage msg); ("state", st)] m).
Proof.
  intros Hm Eq. constructor; [| |done|done].
  - intros Hb T b. rewrite body_after_hset. case_decide; [|apply Hb]. intros [= <-]. subst T.
    rewrite <- Eq. by apply addressed_encode.
  - intros T (b & x & Hb & Hx). unfold decodable. rewrite body_after_hset.
    case_decide; [|by exists b, x]. eexists _, _. split; [done|].
    unfold DecodeMessage, EncodeMessage. apply Unmarshal_Marshal.
Qed.

Lemma progress_dellock m lock : ok_lock K lock → lock ≠ "" → progress m (del_key lock m).
Proof.
  intros [?|(q' & suf & Hq' & Es)] Hne; [done|]. assert (∀ x, (∀ s, x ≠ KUnique s) → lock ≠ queueKey K q x) as Hk.
  { intros x Hx. rewrite Es. intros E.
    apply (queueKey_iff K K q' q (KUnique suf) x) in E as (_ & _ & E); [|done..]. by apply (Hx suf). }
  assert (∀ T, body K (del_key lock m) q T = body K m q T) as Eb.
  { intros T. unfold body, hget, hash_at; simpl. rewrite h_at_delete, decide_False; [done|].
    by apply (Hk (KTask T)). }
  constructor.
  - intros Hb T b. rewrite Eb. apply Hb.
  - intros T. unfold decodable. by rewrite Eb.
  - intros T. unfold parked_at, in_zset, zset_at; simpl.
    rewrite !z_at_delete, !decide_False; [done|by apply (Hk KArchived)|by apply (Hk KRetry)].
  - intros x. unfold entries, queue_stream, stream_at; simpl.
    rewrite x_at_delete, decide_False; [done|]. by apply (Hk KStream).
Qed.

Lemma moveToZSet_handles z e msg st sc m :
  (z = ZRetry ∨ z = ZArchived) → ok_msg K msg → m_Queue msg = q →
  wps (moveToZSetCmd (StreamKey K q) (TaskKey K q (m_ID msg)) (zkey K q z) ConsumerGroup e
         (EncodeMessage (with_State st msg)) st sc (m_ID msg))
    (λ _ m', progress m m' ∧ handled m' (e, m_ID msg)) m.
Proof.
  intros Hz Hm Eq. unfold moveToZSetCmd. wps_steps. split.
  - etrans; [apply progress_ackdel|]. etrans; [|apply progress_zadd].
    exact (progress_hset (with_State st msg) (itoa st) _ (ok_State K st msg Hm) Eq).
  - split.
    + intros T Hin. simpl in Hin.
      assert ((e, T).1 ≠ e); [|done]. by eapply (entries_ackdel e ConsumerGroup m).
    + simpl. assert (∀ m0, in_zset K (do_zadd (zkey K q z) sc (m_ID msg) m0) q z (m_ID msg)) as Hadd.
      { intros m0. unfold in_zset, zset_at; simpl. rewrite z_at_add, decide_True by done.
        rewrite lookup_insert_eq. by eexists. }
      destruct Hz as [-> | ->]; [left|right]; apply Hadd.
Qed.

(** *** Go code *)

Definition moves (p : M ()) (w : world) (x : sid * string) : Prop :=
  wpm p (λ r w', r = Ok () ∧ quiet w' ∧ progress (wks w) (wks w') ∧ handled (wks w') x) w.

Lemma moveToZSet_moves z e msg st sc w :
  quiet w → (z = ZRetry ∨ z = ZArchived) → ok_msg K msg → m_Queue msg = q →
  moves (moveToZSet K q e msg (zkey K q z) st sc) w (e, m_ID msg).
Proof.
  intros Hw Hz Hm Eq. unfold moves, moveToZSet. apply wpm_bind, wpm_run_quiet; [done|].
  eapply wps_mono; [exact (moveToZSet_handles z e msg st (ofInt sc) _ Hz Hm Eq)|].
  intros _ m' [Hp Hh] s' <-. by apply wpm_ret.
Qed.

Lemma releaseUnique_progress msg w :
  quiet w → ok_lock K (m_UniqueKey msg) →
  wpm (releaseUnique msg) (λ r w', r = Ok () ∧ quiet w' ∧ progress (wks w) (wks w')) w.
Proof.
  intros Hw Hl. apply releaseUnique_quiet; [done|].
  intros w' Hw' _ [-> |[Hne ->]]; split_and!; [done|done|done|done|done|by apply progress_dellock].
Qed.

Lemma Archive_moves e msg t w :
  quiet w → ok_msg K msg → m_Queue msg = q → moves (Archive K q e msg t) w (e, m_ID msg).
Proof.
  intros Hw Hm Eq. unfold moves, Archive. apply wpm_bind.
  eapply wpm_mono; [apply (moveToZSet_moves ZArchived); auto|]. intros r w1 (-> & Hw1 & Hp & Hh).
  eapply wpm_mono; [apply releaseUnique_progress; [done|by destruct Hm]|].
  intros r w2 (-> & Hw2 & Hp2). split_and!; [done|done|by etrans|by eapply handled_progress].
Qed.

(** One entry of the loop. *)
Lemma recoverEntry_moves t acc e T w :
  quiet w → bodies_ok (wks w) →
  wpm (recoverEntry K q t acc (e, T)) (λ r w', (∃ a, r = Ok a) ∧ quiet w' ∧
    progress (wks w) (wks w') ∧ (decodable (wks w) T → handled (wks w') (e, T))) w.
Proof.
  intros Hw Hb. unfold recoverEntry.
  apply wpm_bind, wpm_try, wpm_run_quiet; [done|]. wps_steps. intros s1 Hs1.
  fold (body K (wks w) q T). assert (wks (set_store s1 w) = wks w) as E1 by (by rewrite wks_set_store).
  destruct (body K (wks w) q T) as [b|] eqn:Eb.
  2:{ apply wpm_bind, wpm_try, wpm_run_quiet; [done|]. unfold ackDelete. wps_steps. intros s2 Hs2.
      apply wpm_ret. rewrite wks_set_store, Hs2, E1. split_and!; [by eexists|done|apply progress_ackdel|].
      intros (b' & x & Hb' & _). congruence. }
  destruct (DecodeMessage b) as [msg|] eqn:Ed.
  2:{ apply wpm_ret. rewrite E1. split_and!; [by eexists|done|done|].
      intros (b' & x & Hb' & Hx). congruence. }
  destruct (Hb T b Eb msg Ed) as (Eq & EID & Hm). subst T.
  case_bool_decide; apply wpm_bind, wpm_try; rewrite <- E1.
  - eapply wpm_mono; [by apply Archive_moves|]. intros r w2 (-> & Hw2 & Hp & Hh).
    apply wpm_ret. split_and!; [by eexists|done..].
  - eapply wpm_mono;
      [apply (moveToZSet_moves ZRetry e (with_Retried (m_Retried msg + 1) msg)); [done|by left| |done]|].
    + by apply ok_Retried.
    + intros r w2 (-> & Hw2 & Hp & Hh). apply wpm_ret. split_and!; [by eexists|done..].
Qed.

(** The loop. *)
Lemma recover_loop t es acc w :
  quiet w → bodies_ok (wks w) →
  wpm (go_foldl (recoverEntry K q t) acc es) (λ r w', (∃ a, r = Ok a) ∧
    progress (wks w) (wks w') ∧
    ∀ x, x ∈ es → decodable (wks w) x.2 → handled (wks w') x) w.
Proof.
  intros Hw Hb. revert acc w Hw Hb. induction es as [|[e T] es IH]; intros acc w Hw Hb; simpl.
  { apply wpm_ret. split_and!; [by eexists|done|by intros x ?%elem_of_nil]. }
  apply wpm_bind. eapply wpm_mono; [by apply recoverEntry_moves|].
  intros r w1 ([a ->] & Hw1 & Hp & Hh).
  eapply wpm_mono; [apply IH; [done|by apply (pr_bodies _ _ Hp)]|]. intros r w2 (Hr & Hp2 & Hh2).
  split_and!; [done|by etrans|]. intros x [->|Hx]%elem_of_cons Hd.
  - eapply handled_progress; [by apply Hh|done].
  - apply Hh2; [done|by apply (pr_decodable _ _ Hp)].
Qed.

(** *** What is claimed *)

Lemma entry_of_unique st e T :
  stream_wf st → (e, T) ∈ st_entries st → entry_of st e = Some (e, T).
Proof.
  intros [Hnd _]. unfold entry_of. induction (st_entries st) as [|[e' T'] l IH];
    [by intros ?%elem_of_nil|]. simpl in Hnd. apply NoDup_cons in Hnd as [Hni Hnd].
  intros [[= <- <-]|Hin]%elem_of_cons; simpl; [by rewrite decide_True|].
  rewrite decide_False.
  - specialize (IH Hnd Hin). destruct (list_find _ l) as [[i y]|]; simpl in *; [|done]. by simplify_eq.
  - intros ->. apply Hni. by apply (list_elem_of_fmap_2 fst _ (e, T)).
Qed.

Lemma autoclaimed_all now minIdle max ok st gr e T p :
  stream_wf st → (Z.of_nat (size (g_pel gr)) ≤ max)%Z → idle_test now minIdle ok →
  (e, T) ∈ st_entries st → g_pel gr !! e = Some p → (minIdle < now - pe_since p)%Z →
  (e, T) ∈ autoclaimed now minIdle max ok st gr.
Proof.
  intros Hwf Hsz Hok Hin Hp Hidle. unfold autoclaimed. apply list_elem_of_omap.
  exists e. split; [|by apply entry_of_unique].
  assert (length (pel_sorted gr) = size (g_pel gr)) as Hlen
    by (unfold pel_sorted; by rewrite merge_sort_Permutation, length_map_to_list).
  rewrite (take_ge (pel_sorted gr)) by lia.
  pose proof (length_filter (λ p0, ok p0 = true) (pel_sorted gr)).
  rewrite take_ge by lia. apply list_elem_of_fmap. exists (e, p). split; [done|].
  apply list_elem_of_filter. split; [by apply (Hok (e, p))|].
  unfold pel_sorted. rewrite merge_sort_Permutation. by apply elem_of_map_to_list.
Qed.


End recover.

(** A worker took the task and died a minute ago. *)
Definition demo_abandoned : keyspace :=
  let m := do_xadd (StreamKey DefaultKeys "q") 1 "t" (do_xgroup (StreamKey DefaultKeys "q") ConsumerGroup
    (do_hset (TaskKey DefaultKeys "q" "t")
       [("msg", EncodeMessage (newMessage "t" "email" "hi" "q" 3 false 0)); ("state", itoa StateActive)]
       empty_keyspace)) in
  elapse 60000 (set_group (StreamKey DefaultKeys "q") ConsumerGroup (deliver "dead" 0 [(1%Z, "t")]) m).

Definition demo_recovery : world (R := RefRedis.RefRedis) :=
  MkWorld (demo_abandoned : RefRedis.RefRedis.(store)) [] (1700000000 * Second)%Z ∅.

Lemma hget_single m k k' h f : k_hash m = {[k := h]} → k ≠ k' → hget m k' f = None.
Proof. intros E Hk. unfold hget, hash_at, h_at. by rewrite E, lookup_singleton_ne. Qed.

Lemma demo_hashes :
  k_hash (wks demo_recovery) = {[TaskKey DefaultKeys "q" "t" :=
    hash_at (wks demo_recovery) (TaskKey DefaultKeys "q" "t")]}.
Proof. vm_compute. reflexivity. Qed.

Lemma demo_body b :
  body DefaultKeys (wks demo_recovery) "q" "t" = Some b →
  b = EncodeMessage (newMessage "t" "email" "hi" "q" 3 false 0).
Proof. vm_compute. intros [= <-]. reflexivity. Qed.

Lemma demo_bodies_ok : bodies_ok DefaultKeys "q" (wks demo_recovery).
Proof.
  intros T b Hb. destruct (decide (T = "t")) as [->|Hne].
  - apply demo_body in Hb as ->.
    apply addressed_encode. constructor; [by vm_compute| |by left|by constructor|done|by constructor].
    by apply (bool_decide_unpack (brace_free "q")).
  - exfalso.
    assert (TaskKey DefaultKeys "q" "t" ≠ TaskKey DefaultKeys "q" T) as Hk
      by (clear Hb; intros E; apply (queueKey_inj DefaultKeys "q" (KTask "t") (KTask T)) in E;
          congruence).
    unfold body in Hb. rewrite (hget_single _ _ _ _ _ demo_hashes Hk) in Hb. discriminate.
Qed.


End RecoverSpec.
