(* ===== verification/CrashSpec.v ===== *)
(** * A task whose workers die

    A worker that dies holding a task leaves the entry pending; the recoverer
    gives the task another try, the forwarder puts it back into the stream
    and the next worker reads it, and may die of it too.  Composing the
    operations of the four loops, this file follows one such task through
    any number of crashes. *)

From S2P Require Import Prelude GoLib Base Redis RedisFacts Client.
From S2P Require Import RdbCore RdbLocks RdbAdmin Instances Lifecycle Processes CoreSpec ScoreSpec ServerSpec Server.
From Stdlib Require Import Ascii.

Module CrashSpec.
Import GoTime GoFloat GoStr Keys Task Redis RedisFacts Client RdbCore RdbLocks RdbAdmin.
Import Lifecycle Processes CoreSpec ScoreSpec ServerSpec Server.

#[local] Arguments mbind {_ _ _ _} _ _ : simpl never.

Section crash.
Context `{R : Redis} `{J : Json} (K : Keys) (HK : valid_keys K) (q : string) (Hq : brace_free q).

(** ** A queue with one task *)

(** What the task's queue holds: the stream's entries, the consumer group,
    the retry ZSET and the task's body; nothing of it has a deadline. *)
Record lane (m : keyspace) (T : string) (es : list (sid * string)) (gr : group)
    (retry : gmap string score) (b : string) : Prop := MkLane {
  ln_entries : st_entries (stream_at m (StreamKey K q)) = es;
  ln_group : group_at m (StreamKey K q) ConsumerGroup = Some gr;
  ln_last : (g_last gr ≤ st_last (stream_at m (StreamKey K q)))%Z;
  ln_retry : zset_at m (RetryKey K q) = retry;
  ln_body : hget m (TaskKey K q T) "msg" = Some b;
  ln_lasting : Forall (λ k, k_exp m !! k = None) [StreamKey K q; TaskKey K q T; RetryKey K q; ArchivedKey K q];
}.

Lemma lane_hset m T es gr r b enc s :
  lane m T es gr r b → lane (do_hset (TaskKey K q T) [("msg", enc); ("state", s)] m) T es gr r enc.
Proof.
  intros []. constructor; try done. unfold hget, hash_at; simpl.
  rewrite h_at_set, decide_True by done. simpl. by rewrite lookup_insert_ne, lookup_insert_eq.
Qed.

Lemma lane_hset_state m T es gr r b s :
  lane m T es gr r b → lane (do_hset (TaskKey K q T) [("state", s)] m) T es gr r b.
Proof.
  intros []. constructor; try done. unfold hget, hash_at in *; simpl.
  rewrite h_at_set, decide_True by done. simpl. by rewrite lookup_insert_ne.
Qed.

Lemma lane_ackdel m T e l p r b :
  lane m T [(e, T)] (MkGroup l {[e := p]}) r b →
  lane (do_xdel (StreamKey K q) [e] (do_xack (StreamKey K q) ConsumerGroup [e] m)) T
    [] (MkGroup l ∅) r b.
Proof.
  intros []. constructor; try done; unfold group_at, stream_at in *; simpl;
    rewrite x_at_del, decide_True by done; simpl; rewrite x_at_group, decide_True by done; simpl.
  - rewrite ln_entries0. rewrite filter_cons_False by (simpl; set_solver). done.
  - rewrite lookup_alter, decide_True, ln_group0 by done. simpl. do 2 f_equal. apply delete_singleton_eq.
  - done.
Qed.

Lemma lane_zadd_retry m T es gr r b sc :
  lane m T es gr r b → lane (do_zadd (RetryKey K q) sc T m) T es gr (<[T := sc]> r) b.
Proof.
  intros []. constructor; try done. unfold zset_at in *; simpl. rewrite z_at_add, decide_True by done.
  by rewrite ln_retry0.
Qed.

Lemma lane_zadd_archived m T es gr r b sc :
  lane m T es gr r b → lane (do_zadd (ArchivedKey K q) sc T m) T es gr r b.
Proof.
  intros []. constructor; try done. unfold zset_at in *; simpl. rewrite z_at_add, decide_False; [done|].
  by intros E%(queueKey_inj K q KArchived KRetry).
Qed.

Lemma lane_zrem m T es gr b sc :
  lane m T es gr {[T := sc]} b → lane (do_zrem (RetryKey K q) T m) T es gr ∅ b.
Proof.
  intros []. constructor; try done.
  - unfold zset_at in *; simpl. rewrite z_at_rem, decide_True, ln_retry0 by done. apply delete_singleton_eq.
  - simpl. eapply Forall_impl; [exact ln_lasting0|]. intros k Hk. simpl.
    case_decide; [|done]. rewrite lookup_delete. by case_decide.
Qed.

Lemma lane_xadd m T gr r b id :
  lane m T [] gr r b → (st_last (stream_at m (StreamKey K q)) < id)%Z →
  lane (do_xadd (StreamKey K q) id T m) T [(id, T)] gr r b.
Proof.
  intros [] Hid. constructor; try done; unfold group_at, stream_at in *; simpl;
    rewrite x_at_add, decide_True by done; simpl; [by rewrite ln_entries0|done|lia].
Qed.

Lemma lane_set_group m T es gr r b f :
  lane m T es gr r b → (g_last (f gr) ≤ st_last (stream_at m (StreamKey K q)))%Z →
  lane (set_group (StreamKey K q) ConsumerGroup f m) T es (f gr) r b.
Proof.
  intros [] Hf. constructor; try done; unfold group_at, stream_at in *; simpl;
    rewrite x_at_group, decide_True by done; simpl; [done| |done].
  by rewrite lookup_alter, decide_True, ln_group0 by done.
Qed.

Lemma lane_unlock m T es gr r b msg :
  ok_lock K (m_UniqueKey msg) → lane m T es gr r b →
  m_UniqueKey msg ≠ "" → lane (del_key (m_UniqueKey msg) m) T es gr r b.
Proof.
  intros Hl [] Hne.
  pose proof (λ x, lock_neq K HK q x msg Hq Hl Hne) as Hk.
  constructor; unfold group_at, stream_at, zset_at, hget, hash_at in *; simpl;
    rewrite ?x_at_delete, ?z_at_delete, ?h_at_delete, ?decide_False; try done;
    try (apply (Hk KStream)); try (apply (Hk KRetry)); try (apply (Hk (KTask T))); try done.
  eapply Forall_impl; [exact ln_lasting0|]. intros k E. simpl. rewrite lookup_delete. by case_decide.
Qed.

Lemma elapse_lookup {V} (f : gmap string V) m dt k :
  k_exp m !! k = None →
  filter (λ p : string * V, live_at (k_now m + dt) m p.1 = true) f !! k = f !! k.
Proof.
  intros Hk. apply option_eq. intros v. rewrite map_lookup_filter_Some. simpl.
  unfold live_at. rewrite Hk. naive_solver.
Qed.

Lemma lane_elapse m T es gr r b dt :
  lane m T es gr r b → lane (elapse dt m) T es gr r b.
Proof.
  intros []. pose proof ln_lasting0 as [Hs [Ht [Hr [Ha _]%Forall_cons]%Forall_cons]%Forall_cons]%Forall_cons.
  constructor; unfold group_at, stream_at, x_at, zset_at, z_at, hget, hash_at, h_at in *; simpl;
    rewrite ?elapse_lookup by done; try done.
  repeat constructor; by rewrite elapse_lookup.
Qed.

(** ** One step each *)

Lemma decode_state st msg : utf8_msg msg = true → DecodeMessage (EncodeMessage (with_State st msg)) = Some (with_State st msg).
Proof.
  intros Hu. unfold DecodeMessage, EncodeMessage. by rewrite Unmarshal_Marshal, sanitize_msg_valid.
Qed.

(** The task as a crashed worker left it. *)
Definition held_at (m : keyspace) (msg : TaskMessage) (e : sid) : Prop :=
  ∃ st l p, lane m (m_ID msg) [(e, m_ID msg)] (MkGroup l {[e := p]}) ∅ (EncodeMessage (with_State st msg)) ∧
            (pe_since p ≤ k_now m)%Z.

Definition held (m : keyspace) (msg : TaskMessage) : Prop := ∃ e, held_at m msg e.

(** In the archive for good. *)
Definition buried (m : keyspace) (msg : TaskMessage) : Prop :=
  ∃ l b, lane m (m_ID msg) [] (MkGroup l ∅) ∅ b ∧ in_zset K m q ZArchived (m_ID msg).

Lemma autoclaimed_held now minIdle max ok st e T l p :
  st_entries st = [(e, T)] → idle_test now minIdle ok → (minIdle < now - pe_since p)%Z → (1 ≤ max)%Z →
  autoclaimed now minIdle max ok st (MkGroup l {[e := p]}) = [(e, T)].
Proof.
  intros Hst Hok Hp Hmax. unfold autoclaimed, pel_sorted. simpl.
  rewrite map_to_list_singleton. simpl.
  destruct (Z.to_nat (10 * max)) as [|n1] eqn:E1; [lia|].
  destruct (Z.to_nat max) as [|n2] eqn:E2; [lia|]. simpl. rewrite take_nil, filter_cons_True by by apply (Hok (e, p)).
  rewrite filter_nil. simpl. rewrite take_nil. simpl. unfold entry_of. rewrite Hst. simpl. by rewrite decide_True.
Qed.

(** The recoverer moves the task to the retry ZSET, or to the archive. *)
Definition rescheduled (m : keyspace) (msg : TaskMessage) (t : Z) : Prop :=
  ∃ l, lane m (m_ID msg) [] (MkGroup l ∅) {[m_ID msg := ofInt (Unix t)]}
         (EncodeMessage (with_State StateRetry msg)).

Lemma Retry_held msg e l p b t (Q : result () → world → Prop) w :
  quiet w → lane (wks w) (m_ID msg) [(e, m_ID msg)] (MkGroup l {[e := p]}) ∅ b →
  (∀ w', quiet w' → w_clock w' = w_clock w → rescheduled (wks w') msg t → Q (Ok ()) w') →
  wpm (Retry K q e msg t) Q w.
Proof.
  intros Hw Hl HQ. unfold Retry, moveToZSet. apply wpm_bind, wpm_run_quiet; [done|].
  unfold moveToZSetCmd. wps_steps. intros s' Hs'. apply wpm_ret, (HQ (set_store s' w)); [done..|].
  exists l. rewrite wks_set_store, Hs'. apply (lane_zadd_retry _ _ _ _ ∅).
  eapply lane_hset. by eapply lane_ackdel.
Qed.

Lemma Archive_held msg e l p b t (Q : result () → world → Prop) w :
  quiet w → ok_lock K (m_UniqueKey msg) →
  lane (wks w) (m_ID msg) [(e, m_ID msg)] (MkGroup l {[e := p]}) ∅ b →
  (∀ w', quiet w' → buried (wks w') msg → Q (Ok ()) w') →
  wpm (Archive K q e msg t) Q w.
Proof.
  intros Hw Hlock Hl HQ. unfold Archive. apply wpm_bind. unfold moveToZSet. apply wpm_bind, wpm_run_quiet; [done|].
  unfold moveToZSetCmd. wps_steps. intros s1 Hs1. apply wpm_ret.
  assert (buried (wks (set_store s1 w)) msg) as (l' & b' & Hl' & Ha).
  { rewrite wks_set_store, Hs1. eexists l, _. split.
    - apply lane_zadd_archived. eapply lane_hset. by eapply lane_ackdel.
    - unfold in_zset, zset_at; simpl. rewrite z_at_add, decide_True, lookup_insert_eq by done. by eexists. }
  apply releaseUnique_quiet; [done|]. intros w' Hw' _ [E|[Hne E]]; apply HQ; [done| |done|]; rewrite E.
  - by exists l', b'.
  - exists l', b'. split; [by apply (lane_unlock _ _ _ _ _ _ (with_State StateArchived msg))|].
    unfold in_zset, zset_at in *; simpl. rewrite z_at_delete, decide_False; [done|].
    by apply (lock_neq K HK q KArchived (with_State StateArchived msg)).
Qed.

Lemma autoClaim_lane worker minIdle max es l pel b msg (Q : result (list (sid * string)) → world → Prop) w :
  quiet w → lane (wks w) (m_ID msg) es (MkGroup l pel) ∅ b →
  (∀ w' ok, quiet w' → w_clock w' = w_clock w → idle_test (k_now (wks w)) (Milliseconds minIdle) ok →
     let got := autoclaimed (k_now (wks w)) (Milliseconds minIdle) max ok
                  (stream_at (wks w) (StreamKey K q)) (MkGroup l pel) in
     lane (wks w') (m_ID msg) es
       (claim worker (k_now (wks w)) 1 (map fst got) (MkGroup l pel)) ∅ b →
     (in_zset K (wks w) q ZArchived (m_ID msg) → in_zset K (wks w') q ZArchived (m_ID msg)) →
     Q (Ok got) w') →
  wpm (autoClaim (StreamKey K q) worker minIdle max) Q w.
Proof.
  intros Hw Hl HQ. unfold autoClaim. apply wpm_round_trip_quiet; [done|].
  apply wps_bind, wps_call. cbn [cmd_reply cmd_effect]. intros r (ok & Hok & ->).
  rewrite (ln_group _ _ _ _ _ _ Hl). simpl. apply wps_ret. intros s' Hs'.
  apply (HQ (set_store s' w) ok); [done|done|done| |]; rewrite wks_set_store, Hs'; [|done].
  apply lane_set_group; [done|]. apply (ln_last _ _ _ _ _ _ Hl).
Qed.

Lemma Recover_held worker minIdle max msg (Q : result recovery → world → Prop) w :
  quiet w → utf8_msg msg = true → ok_lock K (m_UniqueKey msg) → (1 ≤ max)%Z →
  (∃ st e l p, lane (wks w) (m_ID msg) [(e, m_ID msg)] (MkGroup l {[e := p]}) ∅
                 (EncodeMessage (with_State st msg)) ∧
               (Milliseconds minIdle < k_now (wks w) - pe_since p)%Z) →
  (∀ a w', quiet w' →
     (if bool_decide (m_MaxRetry msg ≤ m_Retried msg)%Z then buried (wks w') msg
      else w_clock w' = w_clock w ∧
           rescheduled (wks w') (with_Retried (m_Retried msg + 1) msg) (w_clock w)) →
     Q (Ok a) w') →
  wpm (Recover K q worker minIdle max) Q w.
Proof.
  intros Hw Hu Hlock Hmax (st & e & l & p & Hl & Hp) HQ. unfold Recover.
  apply wpm_bind, wpm_try. eapply autoClaim_lane; [done|exact Hl|].
  intros w1 ok Hw1 Hc1 Hok got Hl1 _. unfold got in *. clear got.
  rewrite (autoclaimed_held _ _ _ _ _ e (m_ID msg) l p) in *
    by first [done | exact (ln_entries _ _ _ _ _ _ Hl)].
  assert (claim worker (k_now (wks w)) 1 (map fst [(e, m_ID msg)]) (MkGroup l {[e := p]})
          = MkGroup l {[e := MkPending worker (k_now (wks w)) (pe_count p + 1)]}) as Eclaim
    by (unfold claim; simpl; by rewrite alter_singleton_eq).
  rewrite Eclaim in Hl1. apply wpm_bind, wpm_now. simpl. apply wpm_bind. unfold recoverEntry.
  apply wpm_bind, wpm_try, wpm_run_quiet; [done|]. wps_steps. intros s2 Hs2.
  rewrite (ln_body _ _ _ _ _ _ Hl1). cbv beta iota. rewrite decode_state by done. simpl.
  assert (lane (wks (set_store s2 w1)) (m_ID msg) [(e, m_ID msg)]
            (MkGroup l {[e := MkPending worker (k_now (wks w)) (pe_count p + 1)]}) ∅
            (EncodeMessage (with_State st msg))) as Hl2 by (by rewrite wks_set_store, Hs2).
  rewrite Hc1.
  case_bool_decide; apply wpm_bind, wpm_try.
  - eapply (Archive_held (with_State st msg)); [done|done|exact Hl2|]. intros w3 Hw3 Hb.
    by apply wpm_ret, wpm_ret, HQ.
  - set (m1 := with_Retried (m_Retried msg + 1) (with_State st msg)).
    eapply (Retry_held m1); [done|exact Hl2|]. intros w3 Hw3 Hc3 Hr.
    apply wpm_ret, wpm_ret, HQ; [done|]. split; [by etrans|exact Hr].
Qed.

(** The forwarder puts the task back into the stream. *)
Definition waiting (m : keyspace) (msg : TaskMessage) : Prop :=
  ∃ st e l, lane m (m_ID msg) [(e, m_ID msg)] (MkGroup l ∅) ∅ (EncodeMessage (with_State st msg)) ∧
    (l < e ≤ st_last (stream_at m (StreamKey K q)))%Z.

Lemma ForwardRetry_rescheduled msg t0 t max (Q : result Z → world → Prop) w :
  quiet w → (1 ≤ max)%Z → rescheduled (wks w) msg t0 → (ofInt (Unix t0) ≤ ofInt (Unix t))%Z →
  (∀ w', quiet w' → waiting (wks w') msg → Q (Ok 1%Z) w') →
  wpm (ForwardRetry K q t max) Q w.
Proof.
  intros Hw Hmax [l Hl] Ht HQ. unfold ForwardRetry. apply wpm_run_quiet; [done|].
  unfold forwardCmd. apply wps_bind, wps_call. cbn [cmd_reply cmd_effect]. intros ids ->.
  assert (zrangebyscore (zset_at (wks w) (RetryKey K q)) (ofInt (Unix t)) max = [m_ID msg]) as ->.
  { rewrite (ln_retry _ _ _ _ _ _ Hl). unfold zrangebyscore, zsorted. rewrite map_to_list_singleton.
    change (merge_sort zle [(m_ID msg, ofInt (Unix t0))]) with [(m_ID msg, ofInt (Unix t0))].
    rewrite filter_cons_True by (simpl; lia). rewrite filter_nil. simpl. unfold take_limit.
    rewrite bool_decide_false by lia. destruct (Z.to_nat max) eqn:E; [lia|]. simpl. by rewrite take_nil. }
  simpl foreach. wps_steps.
  match goal with H : (_ < ?id)%Z |- _ => rename H into Hid; rename id into e end.
  intros s' Hs'. apply (HQ (set_store s' w)); [done|]. rewrite wks_set_store, Hs'.
  eexists StateRetry, e, l. split.
  - rewrite TaskKey_concat. eapply lane_zrem, lane_hset_state, lane_xadd; [exact Hl|done].
  - pose proof (ln_last _ _ _ _ _ _ Hl). unfold stream_at in *. simpl in *.
    rewrite x_at_add, decide_True by done. simpl. lia.
Qed.

(** The next worker reads it. *)
Lemma undelivered_one st e x l :
  st_entries st = [(e, x)] → (l < e)%Z → undelivered st (MkGroup l ∅) = [(e, x)].
Proof. intros Hes Hle. unfold undelivered. by rewrite Hes, filter_cons_True. Qed.

Lemma DequeueBatch_waiting msg worker n (Q : result (list Dequeued) → world → Prop) w :
  quiet w → utf8_msg msg = true → waiting (wks w) msg →
  (∀ e w', quiet w' → held_at (wks w') msg e → Q (Ok [MkDequeued (with_State StateActive msg) e]) w') →
  wpm (DequeueBatch K worker q n) Q w.
Proof.
  intros Hw Hu (st & e & l & Hl & Hle & Hlast) HQ. pose proof Hl as [? ? ? ? ? ?].
  eapply (DequeueBatch_one K q msg); [done|done|done|by apply undelivered_one|done|]. intros w' Hw' E. apply (HQ e); [done|]. rewrite E.
  eexists st, _, _. split.
  - apply lane_hset_state.
    refine (lane_set_group _ _ _ _ _ _ (deliver worker (k_now (wks w)) [(e, m_ID msg)]) Hl _). exact Hlast.
  - simpl. lia.
Qed.

(** Nothing happens to a task in the archive. *)
Lemma Recover_buried worker minIdle max msg (Q : result recovery → world → Prop) w :
  quiet w → buried (wks w) msg →
  (∀ a w', quiet w' → buried (wks w') msg → Q (Ok a) w') →
  wpm (Recover K q worker minIdle max) Q w.
Proof.
  intros Hw (l & b & Hl & Ha) HQ. unfold Recover. apply wpm_bind, wpm_try.
  eapply autoClaim_lane; [done|exact Hl|]. intros w1 ok Hw1 _ Hok got Hl1 Ha1.
  assert (got = []) as Egot.
  { unfold got, autoclaimed, pel_sorted. simpl. rewrite map_to_list_empty. simpl.
    change (merge_sort pel_le []) with (@nil (Z * pending)). by rewrite take_nil, filter_nil, take_nil. }
  rewrite Egot in *. apply wpm_bind, wpm_now. apply wpm_ret, HQ; [done|].
  exists l, b. split; [exact Hl1|by apply Ha1].
Qed.

(** Nothing to forward, nothing to deliver. *)
Lemma ForwardRetry_empty t max (Q : result Z → world → Prop) w :
  quiet w → zset_at (wks w) (RetryKey K q) = ∅ →
  (∀ w', quiet w' → wks w' = wks w → Q (Ok 0%Z) w') →
  wpm (ForwardRetry K q t max) Q w.
Proof.
  intros Hw Hz HQ. unfold ForwardRetry. apply wpm_run_quiet; [done|].
  unfold forwardCmd. apply wps_bind, wps_call. cbn [cmd_reply cmd_effect]. intros ids ->.
  assert (zrangebyscore (zset_at (wks w) (RetryKey K q)) (ofInt (Unix t)) max = []) as ->.
  { rewrite Hz. unfold zrangebyscore, zsorted. rewrite map_to_list_empty.
    change (merge_sort zle []) with (@nil (string * score)). rewrite filter_nil. simpl.
    unfold take_limit. rewrite take_nil. by case_bool_decide. }
  simpl foreach. wps_steps. intros s' Hs'. apply (HQ (set_store s' w)); [done|]. by rewrite wks_set_store, Hs'.
Qed.

Lemma DequeueBatch_empty worker n gr (Q : result (list Dequeued) → world → Prop) w :
  quiet w → st_entries (stream_at (wks w) (StreamKey K q)) = [] →
  group_at (wks w) (StreamKey K q) ConsumerGroup = Some gr →
  (∀ w', quiet w' →
     wks w' = set_group (StreamKey K q) ConsumerGroup (deliver worker (k_now (wks w)) []) (wks w) →
     Q (Err ErrNoTask) w') →
  wpm (DequeueBatch K worker q n) Q w.
Proof.
  intros Hw He Hg HQ. unfold DequeueBatch. apply wpm_bind. unfold readGroup.
  apply wpm_round_trip_quiet; [done|]. apply wps_bind, wps_call. cbn [cmd_reply cmd_effect].
  intros es ->. rewrite Hg. simpl.
  assert (∀ i, take i (undelivered (stream_at (wks w) (StreamKey K q)) gr) = []) as ->.
  { intros i. unfold undelivered. by rewrite He, filter_nil, take_nil. }
  apply wps_ret. intros s' Hs'. apply wpm_fail, (HQ (set_store s' w)); [done|]. by rewrite wks_set_store, Hs'.
Qed.

Lemma ForwardRetry_buried msg t max (Q : result Z → world → Prop) w :
  quiet w → buried (wks w) msg →
  (∀ w', quiet w' → buried (wks w') msg → Q (Ok 0%Z) w') →
  wpm (ForwardRetry K q t max) Q w.
Proof.
  intros Hw Hb HQ. pose proof Hb as (l & b & Hl & _).
  apply ForwardRetry_empty; [done|apply Hl|]. intros w' Hw' E. apply HQ; [done|by rewrite E].
Qed.

Lemma DequeueBatch_buried msg worker n (Q : result (list Dequeued) → world → Prop) w :
  quiet w → buried (wks w) msg →
  (∀ w', quiet w' → buried (wks w') msg → Q (Err ErrNoTask) w') →
  wpm (DequeueBatch K worker q n) Q w.
Proof.
  intros Hw (l & b & Hl & Ha) HQ.
  apply (DequeueBatch_empty _ _ (MkGroup l ∅)); [done|apply Hl|apply Hl|]. intros w' Hw' E.
  apply HQ; [done|]. rewrite E. exists l, b. split; [|done].
  refine (lane_set_group _ _ _ _ _ _ (deliver worker (k_now (wks w)) []) Hl _).
  apply (ln_last _ _ _ _ _ _ Hl).
Qed.

(** ** Rounds of crashes *)

(** The next worker that dies of the task: how long until a recoverer runs,
    until the forwarder does, until the worker fetches. *)
Record crash := MkCrash { cr_idle : N; cr_backoff : N; cr_wait : N; cr_worker : string }.

Definition crash_round (minIdle n : Z) (c : crash) : M (list Dequeued) :=
  sleep (cr_idle c);;
  Recover K q (cr_worker c) minIdle recoverBatchSize;;
  sleep (cr_backoff c);;
  t ← now; ForwardRetry K q t forwardBatchSize;;
  sleep (cr_wait c);;
  r ← try (DequeueBatch K (cr_worker c) q n);
  mret (match r with Ok ts => ts | Err _ => [] end).

Fixpoint crash_rounds (minIdle n : Z) (cs : list crash) : M (list (list Dequeued)) :=
  match cs with
  | [] => mret []
  | c :: cs => ts ← crash_round minIdle n c; l ← crash_rounds minIdle n cs; mret (ts :: l)
  end.

(** A process's clock does not run backwards. *)
Lemma wpm_clock {A} (p : M A) (Q : result A → world → Prop) w :
  wpm p Q w → wpm p (λ r w', Q r w' ∧ (w_clock w ≤ w_clock w')%Z) w.
Proof.
  unfold wpm. intros H. split; [done|]. clear H. revert w. unfold exec_M.
  induction p as [r|X o k IH]; intros w; [done|].
  destruct (do_op o w) as [w' x] eqn:E. etrans; [|apply IH].
  assert (∀ w, (w_clock w ≤ w_clock (next w).1)%Z) as Hn by (intros w0; apply next_spec).
  specialize (Hn w). destruct o as [Y p'|Y ps| | | |]; simpl in E.
  - destruct (next w) as [w1 [[|f]|]]; [|destruct (p' (w_store w1))..]; by simplify_eq.
  - destruct (next w) as [w1 [f|]]; [|destruct (pipe_all ps (w_store w1))]; by simplify_eq.
  - by simplify_eq.
  - by simplify_eq.
  - by simplify_eq.
  - simplify_eq. simpl. unfold GoTime.Millisecond. lia.
Qed.

Lemma wpm_timed {A} (p : M A) (P Q : result A → world → Prop) w :
  wpm p P w → (∀ r w', P r w' → (w_clock w ≤ w_clock w')%Z → Q r w') → wpm p Q w.
Proof. intros Hp HQ. eapply wpm_mono; [by apply wpm_clock|]. intros r w' [? ?]. auto. Qed.

Lemma wks_pass ms w : wks (pass ms w) = elapse (Z.of_N ms) (wks w).
Proof. unfold wks, pass. simpl. rewrite elapse_effect by lia. done. Qed.

Lemma held_elapse m msg ms :
  held m msg → ∃ st e l p, lane (elapse (Z.of_N ms) m) (m_ID msg) [(e, m_ID msg)]
                  (MkGroup l {[e := p]}) ∅ (EncodeMessage (with_State st msg)) ∧
                (Z.of_N ms ≤ k_now (elapse (Z.of_N ms) m) - pe_since p)%Z.
Proof.
  intros (e & st & l & p & Hl & Hp). exists st, e, l, p. split; [by apply lane_elapse|]. simpl. lia.
Qed.

Lemma buried_elapse m msg dt : buried m msg → buried (elapse dt m) msg.
Proof.
  intros (l & b & Hl & Ha). exists l, b. split; [by apply lane_elapse|].
  pose proof (ln_lasting _ _ _ _ _ _ Hl) as [_ [_ [_ [Hk _]%Forall_cons]%Forall_cons]%Forall_cons]%Forall_cons.
  unfold in_zset, zset_at, z_at in *. simpl. by rewrite elapse_lookup.
Qed.

Lemma rescheduled_elapse m msg t dt : rescheduled m msg t → rescheduled (elapse dt m) msg t.
Proof. intros [l Hl]. exists l. by apply lane_elapse. Qed.

Lemma waiting_elapse m msg dt : (0 ≤ dt)%Z → waiting m msg → waiting (elapse dt m) msg.
Proof.
  intros Hdt (st & e & l & Hl & He). exists st, e, l. split; [by apply lane_elapse|].
  pose proof (ln_lasting _ _ _ _ _ _ Hl) as [Hk _]%Forall_cons.
  unfold stream_at, x_at in *. simpl. by rewrite elapse_lookup.
Qed.

Lemma buried_round minIdle n c msg (Q : result (list Dequeued) → world → Prop) w :
  quiet w → buried (wks w) msg →
  (∀ w', quiet w' → buried (wks w') msg → Q (Ok []) w') →
  wpm (crash_round minIdle n c) Q w.
Proof.
  intros Hw Hb HQ. unfold crash_round. apply wpm_bind, wpm_sleep.
  apply wpm_bind, (Recover_buried _ _ _ msg); [done|by rewrite wks_pass; apply buried_elapse|].
  intros _ w1 Hw1 Hb1. apply wpm_bind, wpm_sleep, wpm_bind, wpm_now, wpm_bind.
  apply (ForwardRetry_buried msg); [done|by rewrite wks_pass; apply buried_elapse|].
  intros w2 Hw2 Hb2. apply wpm_bind, wpm_sleep, wpm_bind, wpm_try.
  apply (DequeueBatch_buried msg); [done|by rewrite wks_pass; apply buried_elapse|].
  intros w3 Hw3 Hb3. by apply wpm_ret, HQ.
Qed.

(** One more crash: another try, or the archive. *)
Lemma held_round minIdle n c msg (Q : result (list Dequeued) → world → Prop) w :
  quiet w → (0 ≤ w_clock w)%Z → utf8_msg msg = true → ok_lock K (m_UniqueKey msg) →
  held (wks w) msg → (Milliseconds minIdle < Z.of_N (cr_idle c))%Z →
  (∀ e w', quiet w' → 
     (if bool_decide (m_MaxRetry msg ≤ m_Retried msg)%Z then buried (wks w') msg → Q (Ok []) w'
      else let msg' := with_Retried (m_Retried msg + 1) msg in
           held (wks w') msg' → Q (Ok [MkDequeued (with_State StateActive msg') e]) w')) →
  wpm (crash_round minIdle n c) Q w.
Proof.
  intros Hw Hc Hu Hlock Hh Hidle HQ. unfold crash_round. apply wpm_bind, wpm_sleep.
  apply wpm_bind, (Recover_held _ _ _ msg); [done..| |].
  { rewrite wks_pass. destruct (held_elapse _ _ (cr_idle c) Hh) as (st & e & l & p & Hl & Hp).
    exists st, e, l, p. split; [done|]. lia. }
  intros _ w1 Hw1 Hcase. apply wpm_bind, wpm_sleep, wpm_bind, wpm_now, wpm_bind.
  case_bool_decide as Hmax.
  - apply (ForwardRetry_buried msg); [done|by rewrite wks_pass; apply buried_elapse|].
    intros w2 Hw2 Hb2. apply wpm_bind, wpm_sleep, wpm_bind, wpm_try.
    apply (DequeueBatch_buried msg); [done|by rewrite wks_pass; apply buried_elapse|].
    intros w3 Hw3 Hb3. by apply wpm_ret, (HQ 0%Z).
  - destruct Hcase as [Hc1 Hr]. set (msg' := with_Retried _ msg) in *.
    eapply (ForwardRetry_rescheduled msg'); [done|done|rewrite wks_pass; by apply rescheduled_elapse| |].
    { apply ofInt_mono. simpl. rewrite Hc1. simpl. unfold Unix.
      split; [apply Z.div_pos; [|done]|apply Z.div_le_mono; [done|]]; unfold Millisecond; lia. }
    intros w2 Hw2 Hb2. apply wpm_bind, wpm_sleep, wpm_bind, wpm_try.
    apply (DequeueBatch_waiting msg'); [done|done|rewrite wks_pass; apply waiting_elapse; [lia|done]|].
    intros e w3 Hw3 Hh3. apply wpm_ret. apply (HQ e); [done|by eexists].
Qed.

(** What is delivered in round [k] of a task that has been tried [r] times. *)
Definition delivery (msg : TaskMessage) (r : Z) (ts : list Dequeued) : Prop :=
  if bool_decide (r ≤ m_MaxRetry msg)%Z
  then ∃ e, ts = [MkDequeued (with_State StateActive (with_Retried r msg)) e]
  else ts = [].

Lemma buried_rounds minIdle n cs msg w :
  quiet w → buried (wks w) msg →
  wpm (crash_rounds minIdle n cs)
    (λ res w', res = Ok (replicate (length cs) []) ∧ buried (wks w') msg) w.
Proof.
  revert w. induction cs as [|c cs IH]; intros w Hw Hb; [by apply wpm_ret|].
  simpl. apply wpm_bind, (buried_round _ _ _ msg); [done..|]. intros w1 Hw1 Hb1.
  apply wpm_bind. eapply wpm_mono; [by apply IH|]. intros r w2 [-> Hb2]. by apply wpm_ret.
Qed.

Lemma held_rounds minIdle n cs msg w :
  quiet w → (0 ≤ w_clock w)%Z → utf8_msg msg = true → ok_lock K (m_UniqueKey msg) →
  (m_Retried msg ≤ m_MaxRetry msg)%Z →
  Forall (λ c, Milliseconds minIdle < Z.of_N (cr_idle c))%Z cs → held (wks w) msg →
  wpm (crash_rounds minIdle n cs) (λ res w', ∃ out, res = Ok out ∧ length out = length cs ∧
    (∀ i ts, out !! i = Some ts → delivery msg (m_Retried msg + 1 + Z.of_nat i) ts) ∧
    (m_MaxRetry msg < m_Retried msg + len cs → buried (wks w') msg)%Z) w.
Proof.
  revert msg w. induction cs as [|c cs IH]; intros msg w Hw Hc Hu Hlock Hr Hcs Hh.
  { apply wpm_ret. exists []. split_and!; [done..|simpl; lia]. }
  apply Forall_cons in Hcs as [Hidle Hcs]. simpl. apply wpm_bind.
  apply (wpm_timed _ (λ res w', quiet w' ∧
      if bool_decide (m_MaxRetry msg ≤ m_Retried msg)%Z then res = Ok [] ∧ buried (wks w') msg
      else let msg' := with_Retried (m_Retried msg + 1) msg in
           held (wks w') msg' ∧ ∃ e, res = Ok [MkDequeued (with_State StateActive msg') e])).
  { apply (held_round _ _ _ msg _ _ Hw Hc Hu Hlock Hh Hidle). intros e w' Hw'.
    case_bool_decide; eauto. }
  intros res w1 [Hw1 Hcase] Hc1. case_bool_decide as Hmax.
  - destruct Hcase as [-> Hb]. apply wpm_bind. eapply wpm_mono; [by apply buried_rounds|].
    intros r w2 [-> Hb2]. apply wpm_ret. eexists. split; [done|]. split_and!; [|..|done].
    + simpl. by rewrite length_replicate.
    + intros i ts Hi. unfold delivery. rewrite bool_decide_false by lia.
      destruct i; simpl in Hi; [by injection Hi as <-|]. by apply lookup_replicate in Hi as [-> _].
  - destruct Hcase as [Hh1 [e ->]]. apply wpm_bind.
    eapply wpm_mono; [apply (IH (with_Retried (m_Retried msg + 1) msg)); try done; simpl; lia|].
    intros r w2 (out & -> & Hlen & Hout & Hb). apply wpm_ret. eexists. split; [done|]. split_and!.
    + simpl. by rewrite Hlen.
    + intros [|i] ts Hi; simpl in Hi.
      * injection Hi as <-. unfold delivery. rewrite bool_decide_true by lia. exists e. by rewrite Z.add_0_r.
      * apply Hout in Hi. unfold delivery in *. simpl in Hi.
        by replace (m_Retried msg + 1 + Z.of_nat (S i))%Z with (m_Retried msg + 1 + 1 + Z.of_nat i)%Z by lia.
    + intros Hlt. assert (buried (wks w2) (with_Retried (m_Retried msg + 1) msg)) as Hb2
        by (apply Hb; simpl in *; lia). exact Hb2.
Qed.

(** ** From the client to the archive *)

(** The queue before the task is enqueued: a consumer group, nothing in the
    stream and nothing to be retried. *)
Record vacant (m : keyspace) (T : string) : Prop := MkVacant {
  vc_entries : st_entries (stream_at m (StreamKey K q)) = [];
  vc_group : ∃ l, group_at m (StreamKey K q) ConsumerGroup = Some (MkGroup l ∅) ∧
                  (l ≤ st_last (stream_at m (StreamKey K q)))%Z;
  vc_retry : zset_at m (RetryKey K q) = ∅;
  vc_lasting : Forall (λ k, k_exp m !! k = None)
                 [StreamKey K q; TaskKey K q T; RetryKey K q; ArchivedKey K q];
}.

Lemma vacant_lane m T enc s :
  vacant m T →
  ∃ l, lane (do_hset (TaskKey K q T) [("msg", enc); ("state", s)] m) T [] (MkGroup l ∅) ∅ enc.
Proof.
  intros [He (l & Hg & Hl) Hr Hx]. exists l. constructor; try done. unfold hget, hash_at; simpl.
  rewrite h_at_set, decide_True by done. simpl. by rewrite lookup_insert_ne, lookup_insert_eq.
Qed.

Lemma lane_zrem_other m T T' es gr r b k :
  k ≠ RetryKey K q → lane m T es gr r b → lane (do_zrem k T' m) T es gr r b.
Proof.
  intros Hk []. constructor; try done.
  - unfold zset_at in *; simpl. by rewrite z_at_rem, decide_False.
  - simpl. eapply Forall_impl; [exact ln_lasting0|]. intros k' E. simpl.
    case_decide; [|done]. rewrite lookup_delete. by case_decide.
Qed.

Lemma Enqueue_vacant msg (Q : result () → world → Prop) w :
  quiet w → m_Queue msg = q → vacant (wks w) (m_ID msg) →
  (∀ w', quiet w' → waiting (wks w') msg → Q (Ok ()) w') →
  wpm (Enqueue K msg) Q w.
Proof.
  intros Hw Eq Hv HQ. unfold Enqueue. simpl. rewrite Eq. apply wpm_bind, registerQueue_quiet; [done|].
  intros w1 Hw1 _ Hm1.
  assert (vacant (wks w1) (m_ID msg)) as Hv1 by (by destruct Hm1 as [-> | ->]; [|destruct Hv]).
  destruct (vacant_lane _ _ (EncodeMessage (with_State StatePending msg)) (itoa StatePending) Hv1)
    as [l Hl].
  apply wpm_bind, wpm_run_quiet; [done|]. unfold enqueueCmd. wps_steps.
  match goal with H : (_ < ?id)%Z |- _ => rename H into Hid; rename id into e end.
  intros s' Hs'. apply wpm_ret, (HQ (set_store s' w1)); [done|]. rewrite wks_set_store, Hs'.
  exists StatePending, e, l. split.
  - apply lane_zrem_other; [by intros E%(queueKey_inj K q KArchived KRetry)|].
    apply lane_zrem_other; [by intros E%(queueKey_inj K q KCompleted KRetry)|].
    by apply lane_xadd.
  - pose proof (ln_last _ _ _ _ _ _ Hl). unfold stream_at in *. simpl in *.
    rewrite x_at_add, decide_True by done. simpl. lia.
Qed.


End crash.

(** Five more workers die of a task with three retries. *)
Definition demo_crashes : list crash := replicate 5 (MkCrash 60000 2000 1000 "w2").


End CrashSpec.
