(* ===== verification/RetrySpec.v ===== *)
(** * A task that fails is tried again

    Enqueueing, fetching, the handler's failure, the retry ZSET and the
    forwarder, composed: every attempt of one task, until its handler succeeds
    or its retries are spent. *)

From S2P Require Import Prelude GoLib Base Redis RedisFacts Client RdbCore RdbLocks RdbAdmin Instances Lifecycle.
From S2P Require Import Processes Retry Handler Server CoreSpec ScoreSpec ServerSpec CrashSpec.
From Stdlib Require Import Ascii.

Module RetrySpec.
Import GoTime GoFloat GoStr Keys Task Redis RedisFacts Client RdbCore RdbLocks RdbAdmin.
Import Lifecycle Processes Retry Handler Server CoreSpec ScoreSpec ServerSpec CrashSpec.

#[local] Arguments mbind {_ _ _ _} _ _ : simpl never.

Section retry.
Context `{R : Redis} `{J : Json} (K : Keys) (HK : valid_keys K) (q : string) (Hq : brace_free q).
Context (quote : string → string) (cfg : ServerConfig) (mux : Mux).
Context (delay : Z → error → Z) (Hdelay : RetryDelayFunc cfg = Some delay).

(** ** The attempts of a task *)

Definition active (msg : TaskMessage) : TaskMessage := with_State StateActive msg.

(** What a failure leaves of it. *)
Definition tried (cause : error) (msg : TaskMessage) : TaskMessage :=
  with_CompletedAt 0 (with_LastErr (errorText cause) (with_Retried (m_Retried msg + 1) (active msg))).

(** The deliveries when the handler fails with [causes], one after the other,
    and then succeeds. *)
Fixpoint attempts (causes : list error) (msg : TaskMessage) : list TaskMessage :=
  active msg :: match causes with
                | [] => []
                | cause :: causes => if final msg cause then [] else attempts causes (tried cause msg)
                end.

(** The handler answers them so, with the result [res] in the end. *)
Fixpoint answers (res : bytes) (causes : list error) (msg : TaskMessage) : Prop :=
  utf8_msg msg = true ∧
  match causes with
  | [] => dispatchSafely quote mux (active msg) = (with_Result res (active msg), None)
  | cause :: causes =>
      dispatchSafely quote mux (active msg) = (active msg, Some cause) ∧
      (final msg cause = false → answers res causes (tried cause msg))
  end.

(** Every failure was one too many. *)
Fixpoint given_up (causes : list error) (msg : TaskMessage) : bool :=
  match causes with
  | [] => false
  | cause :: causes => final msg cause || given_up causes (tried cause msg)
  end.

(** Neither in the queue nor stored. *)
Definition vanished (m : keyspace) (T : string) : Prop :=
  vacant K q m T ∧ ∀ f, hget m (TaskKey K q T) f = None.

Lemma vacant_del k m T :
  k ≠ StreamKey K q → k ≠ RetryKey K q → vacant K q m T → vacant K q (del_key k m) T.
Proof.
  intros Hs Hr [He (l & Hg & Hl) Hz Hx].
  constructor; unfold group_at, stream_at, zset_at in *; simpl;
    rewrite ?x_at_delete, ?z_at_delete, ?decide_False by done; eauto.
  eapply Forall_impl; [exact Hx|]. intros k' E. simpl. rewrite lookup_delete. by case_decide.
Qed.

Lemma vacant_deliver worker m T t :
  vacant K q m T → vacant K q (set_group (StreamKey K q) ConsumerGroup (deliver worker t []) m) T.
Proof.
  intros [He (l & Hg & Hl) Hz Hx]. constructor; [..|done|done].
  - unfold stream_at in *; simpl. by rewrite x_at_group, decide_True.
  - exists l. unfold group_at, stream_at in *; simpl. rewrite x_at_group, decide_True by done. simpl.
    by rewrite lookup_alter, decide_True, Hg by done.
Qed.

Lemma vanished_elapse m T dt : vanished m T → vanished (elapse dt m) T.
Proof.
  intros [[He (l & Hg & Hl) Hz Hx] Hb].
  pose proof Hx as [Hs [Ht [Hr [Ha _]%Forall_cons]%Forall_cons]%Forall_cons]%Forall_cons.
  split; [constructor|]; unfold group_at, stream_at, x_at, zset_at, z_at, hget, hash_at, h_at in *; simpl;
    rewrite ?elapse_lookup by done; eauto.
  repeat constructor; by rewrite elapse_lookup.
Qed.

(** How it ends: in the archive, or without a trace. *)
Definition over (kept : bool) (m : keyspace) (msg : TaskMessage) : Prop :=
  if kept then buried K q m msg else vanished m (m_ID msg).

(** ** One attempt *)

Lemma process_failed e msg cause w :
  quiet w → held_at K q (wks w) msg e → dispatchSafely quote mux (active msg) = (active msg, Some cause) →
  final msg cause = false →
  wpm (process K quote cfg mux q e (active msg))
    (λ r w', (∃ l, r = Ok l) ∧ quiet w' ∧ w_clock w' = w_clock w ∧
       rescheduled K q (wks w') (tried cause msg) (w_clock w + delay (m_Retried msg + 1) cause)) w.
Proof.
  intros Hw (st & l & p & Hl & _) Hd Hs. unfold process. rewrite Hd. unfold processFailure.
  unfold final in Hs. cbn [m_MaxRetry m_Retried active with_State]. rewrite Hs.
  apply wpm_bind, wpm_now, wpm_bind. rewrite Hdelay. unfold logged. apply wpm_bind, wpm_try.
  eapply (Retry_held K HK q Hq (tried cause msg)); [done|exact Hl|]. intros w' Hw' Hc Hr.
  apply wpm_ret, wpm_ret. split_and!; [by eexists|done|done|exact Hr].
Qed.

(** [Done] of a task that keeps nothing behind. *)
Lemma Done_vanishes e msg l p b (Q : result () → world → Prop) w :
  quiet w → ok_lock K (m_UniqueKey msg) → (m_Retention msg ≤ 0)%Z →
  lane K q (wks w) (m_ID msg) [(e, m_ID msg)] (MkGroup l {[e := p]}) ∅ b →
  (∀ w', quiet w' → vanished (wks w') (m_ID msg) → Q (Ok ()) w') →
  wpm (Done K q e msg) Q w.
Proof.
  intros Hw Hlock Hr Hl HQ. unfold Done. rewrite bool_decide_false by lia.
  apply wpm_bind, wpm_run_quiet; [done|]. unfold doneTx. wps_steps. intros s1 Hs1.
  set (m1 := del_key _ _) in Hs1.
  assert (∀ x, KTask (m_ID msg) ≠ x → TaskKey K q (m_ID msg) ≠ queueKey K q x) as Hne.
  { by intros x Hx E%(queueKey_inj K q (KTask _) x). }
  assert (vanished m1 (m_ID msg)) as Hv.
  { pose proof (lane_ackdel K HK q Hq _ _ _ _ _ _ _ Hl) as [He Hg' Hl' Hz _ Hx]. split.
    - apply vacant_del; [by apply (Hne KStream)|by apply (Hne KRetry)|]. constructor; eauto.
    - intros f. unfold m1, hget, hash_at; simpl. by rewrite h_at_delete, decide_True. }
  apply releaseUnique_quiet; [done|]. intros w2 Hw2 _ Hm2. apply HQ; [done|].
  rewrite wks_set_store, Hs1 in Hm2.
  destruct Hm2 as [-> |[Hu ->]]; [done|]. destruct Hv as [Hv Hh].
  pose proof (λ x, lock_neq K HK q x msg Hq Hlock Hu) as Hk. split.
  - apply vacant_del; [|..|done]; [apply (Hk KStream)|apply (Hk KRetry)]; by intros.
  - intros f. unfold hget, hash_at in *; simpl. rewrite h_at_delete, decide_False; [apply Hh|].
    apply (Hk (KTask (m_ID msg))). by intros.
Qed.


(** The last failure: the archive, or nothing when the task asks for it. *)
Lemma process_exhausted e msg cause w :
  quiet w → ok_lock K (m_UniqueKey msg) → held_at K q (wks w) msg e →
  dispatchSafely quote mux (active msg) = (active msg, Some cause) → final msg cause = true →
  wpm (process K quote cfg mux q e (active msg))
    (λ r w', (∃ l, r = Ok l) ∧ quiet w' ∧ over (negb (m_NoArchive msg)) (wks w') msg) w.
Proof.
  intros Hw Hlock (st & l & p & Hl & _) Hd Hs. unfold process. rewrite Hd. unfold processFailure.
  unfold final in Hs. cbn [m_MaxRetry m_Retried active with_State]. rewrite Hs.
  apply wpm_bind. unfold deadLetter. cbn [m_NoArchive with_CompletedAt with_LastErr active with_State].
  apply wpm_bind. set (m' := with_CompletedAt 0 _). destruct (m_NoArchive msg); simpl.
  - unfold logged. apply wpm_bind, wpm_try.
    eapply (Done_vanishes e (with_Retention 0 m')); [done..|exact Hl|]. intros w' Hw' Hv.
    apply wpm_ret, wpm_ret, wpm_ret. split_and!; [by eexists|done|exact Hv].
  - apply wpm_bind, wpm_now. unfold logged. apply wpm_bind, wpm_try.
    eapply (Archive_held K HK q Hq m'); [done|done|exact Hl|].
    intros w' Hw' Hb. apply wpm_ret, wpm_ret, wpm_ret. split_and!; [by eexists|done|exact Hb].
Qed.

Lemma process_succeeds e msg res w :
  quiet w → ok_lock K (m_UniqueKey msg) → held_at K q (wks w) msg e →
  dispatchSafely quote mux (active msg) = (with_Result res (active msg), None) →
  m_Chain msg = [] → m_GroupID msg = "" → (m_Retention msg ≤ 0)%Z →
  wpm (process K quote cfg mux q e (active msg))
    (λ r w', (∃ l, r = Ok l) ∧ quiet w' ∧ over false (wks w') msg) w.
Proof.
  intros Hw Hlock (st & l & p & Hl & _) Hd Hc Hg Hr. unfold process. rewrite Hd. unfold processSuccess.
  cbn [m_Chain with_Result active with_State]. rewrite Hc, bool_decide_false by auto.
  apply wpm_bind, wpm_ret. cbv beta iota. cbn [m_GroupID with_Result active with_State].
  rewrite Hg, bool_decide_false by auto. apply wpm_bind, wpm_ret, wpm_bind. unfold logged.
  apply wpm_bind, wpm_try. eapply (Done_vanishes e (with_Result res (active msg))); [done..|exact Hl|].
  intros w' Hw' Hv. apply wpm_ret, wpm_ret. split_and!; [by eexists|done|exact Hv].
Qed.

(** ** Rounds

    The worker sleeps, the forwarder runs, the worker fetches and processes
    what it gets. *)
Definition attempt_round (worker : string) (n : Z) (nap : N) : M (list TaskMessage) :=
  sleep nap;;
  t ← now; ForwardRetry K q t forwardBatchSize;;
  r ← try (DequeueBatch K worker q n);
  let ds := match r with Ok ds => ds | Err _ => [] end in
  go_foldl (λ _ d, process K quote cfg mux q (dq_StreamID d) (dq_Msg d);; mret ()) () ds;;
  mret (map dq_Msg ds).

Fixpoint attempt_rounds (worker : string) (n : Z) (naps : list N) : M (list (list TaskMessage)) :=
  match naps with
  | [] => mret []
  | nap :: naps => ts ← attempt_round worker n nap; l ← attempt_rounds worker n naps; mret (ts :: l)
  end.

(** A round on a queue where nothing waits. *)
Lemma over_round kept worker n nap msg (Q : result (list TaskMessage) → world → Prop) w :
  quiet w → over kept (wks w) msg →
  (∀ w', quiet w' → over kept (wks w') msg → Q (Ok []) w') →
  wpm (attempt_round worker n nap) Q w.
Proof.
  intros Hw Ho HQ. unfold attempt_round. apply wpm_bind, wpm_sleep, wpm_bind, wpm_now, wpm_bind.
  destruct kept; simpl in *.
  - apply (ForwardRetry_buried K q msg); [done|by rewrite wks_pass; apply buried_elapse|].
    intros w1 Hw1 H1. apply wpm_bind, wpm_try, (DequeueBatch_buried K q msg); [done..|].
    intros w2 Hw2 H2. apply wpm_bind, wpm_ret, wpm_ret. by apply HQ.
  - apply (vanished_elapse _ _ (Z.of_N nap)) in Ho. rewrite <- wks_pass in Ho.
    apply ForwardRetry_empty; [done|apply Ho|]. intros w1 Hw1 E1. rewrite <- E1 in Ho.
    destruct Ho as [Hv Hb]. pose proof Hv as [He (l & Hg & _) _ _].
    apply wpm_bind, wpm_try. eapply DequeueBatch_empty; [done..|]. intros w2 Hw2 E2.
    apply wpm_bind, wpm_ret, wpm_ret. apply HQ; [done|]. rewrite E2. split; [by apply vacant_deliver|done].
Qed.

(** The task waits in the stream, or for its next try. *)
Definition due (D : Z) (w : world) (msg : TaskMessage) : Prop :=
  (0 ≤ w_clock w)%Z ∧
  (waiting K q (wks w) msg ∨
   ∃ t, (0 ≤ t ≤ w_clock w + D)%Z ∧ rescheduled K q (wks w) msg t).

Lemma forward_due D t max msg (Q : result Z → world → Prop) w nap :
  quiet w → (1 ≤ max)%Z → due D w msg → (D ≤ Z.of_N nap * Millisecond)%Z →
  t = w_clock (pass nap w) →
  (∀ c w', quiet w' → waiting K q (wks w') msg → Q (Ok c) w') →
  wpm (ForwardRetry K q t max) Q (pass nap w).
Proof.
  intros Hw Hmax [Hc Hd] HD -> HQ. destruct Hd as [Hd|(t0 & Ht & Hd)].
  - apply (waiting_elapse K q _ _ (Z.of_N nap)) in Hd; [|lia]. rewrite <- wks_pass in Hd.
    apply ForwardRetry_empty; [done| |]; [by destruct Hd as (? & ? & ? & [] & _)|].
    intros w' Hw' E. apply HQ; [done|by rewrite E].
  - apply (ForwardRetry_rescheduled K q msg t0); [done|done| | |by eauto].
    + rewrite wks_pass. by apply rescheduled_elapse.
    + apply ofInt_mono. unfold pass. simpl. unfold Unix.
      split; [apply Z.div_pos; [lia|done]|apply Z.div_le_mono; [done|]]. lia.
Qed.

Lemma due_round worker n nap D msg (P : world → Prop) w :
  quiet w → utf8_msg msg = true → due D w msg → (D ≤ Z.of_N nap * Millisecond)%Z →
  (∀ e w', quiet w' → (0 ≤ w_clock w')%Z → held_at K q (wks w') msg e →
     wpm (process K quote cfg mux q e (active msg)) (λ r w', (∃ l, r = Ok l) ∧ P w') w') →
  wpm (attempt_round worker n nap) (λ r w', r = Ok [active msg] ∧ P w') w.
Proof.
  intros Hw Hu Hd HD HP. pose proof Hd as [Hc _]. unfold attempt_round.
  apply wpm_bind, wpm_sleep, wpm_bind, wpm_now, wpm_bind.
  apply (wpm_timed _ (λ r w', (∃ c, r = Ok c) ∧ quiet w' ∧ waiting K q (wks w') msg)).
  { eapply (forward_due D _ _ msg); try done. eauto. }
  intros r1 w1 ([c ->] & Hw1 & H1) Hc1. apply wpm_bind, wpm_try.
  apply (wpm_timed _ (λ r w', quiet w' ∧ ∃ e, r = Ok [MkDequeued (active msg) e] ∧ held_at K q (wks w') msg e)).
  { apply (DequeueBatch_waiting K q msg); eauto. }
  intros r2 w2 (Hw2 & e & -> & Hh) Hc2. apply wpm_bind. cbn [go_foldl dq_Msg dq_StreamID].
  apply wpm_bind, wpm_bind. eapply wpm_mono; [apply (HP e); [done| |done]|].
  - unfold pass in Hc1. simpl in Hc1. unfold Millisecond in *. lia.
  - intros r3 w3 ([l ->] & H3). by apply wpm_ret, wpm_ret, wpm_ret.
Qed.

Lemma over_rounds kept worker n naps msg w :
  quiet w → over kept (wks w) msg →
  wpm (attempt_rounds worker n naps)
    (λ r w', r = Ok (replicate (length naps) []) ∧ over kept (wks w') msg) w.
Proof.
  revert w. induction naps as [|nap naps IH]; intros w Hw Ho; [by apply wpm_ret|].
  simpl. apply wpm_bind, (over_round kept _ _ _ msg); [done..|]. intros w1 Hw1 H1.
  apply wpm_bind. eapply wpm_mono; [by apply IH|]. intros r w2 [-> H2]. by apply wpm_ret.
Qed.

(** The outcome: one delivery per attempt, and nothing afterwards. *)
Definition worked_off (causes : list error) (msg : TaskMessage) (rounds : nat)
    (r : result (list (list TaskMessage))) (m : keyspace) : Prop :=
  r = Ok (map (λ t, [t]) (attempts causes msg) ++ replicate (rounds - length (attempts causes msg)) []) ∧
  over (given_up causes msg && negb (m_NoArchive msg)) m msg.

(** The last attempt. *)
Lemma last_attempt kept worker n nap naps D msg w :
  quiet w → utf8_msg msg = true → due D w msg → (D ≤ Z.of_N nap * Millisecond)%Z →
  (∀ e w', quiet w' → held_at K q (wks w') msg e →
     wpm (process K quote cfg mux q e (active msg))
       (λ r w', (∃ l, r = Ok l) ∧ quiet w' ∧ over kept (wks w') msg) w') →
  wpm (attempt_rounds worker n (nap :: naps))
    (λ r w', r = Ok ([active msg] :: replicate (length naps) []) ∧ over kept (wks w') msg) w.
Proof.
  intros Hw Hu Hd HD HP. simpl. apply wpm_bind.
  eapply wpm_mono.
  { apply (due_round _ _ _ D msg (λ w', quiet w' ∧ over kept (wks w') msg)); [done..|]. intros. by eapply HP. }
  intros r1 w1 (-> & Hw1 & H1).
  apply wpm_bind. eapply wpm_mono; [by apply over_rounds|]. intros r2 w2 [-> H2]. by apply wpm_ret.
Qed.

Context (D : Z) (HD : ∀ r cause, (0 ≤ delay r cause ≤ D)%Z).

Lemma attempts_run worker n res causes naps msg w :
  quiet w → due D w msg → ok_lock K (m_UniqueKey msg) →
  m_Chain msg = [] → m_GroupID msg = "" → (m_Retention msg ≤ 0)%Z → answers res causes msg →
  Forall (λ nap, D ≤ Z.of_N nap * Millisecond)%Z naps → length (attempts causes msg) ≤ length naps →
  wpm (attempt_rounds worker n naps) (λ r w', worked_off causes msg (length naps) r (wks w')) w.
Proof.
  revert causes msg w. induction naps as [|nap naps IH]; intros causes msg w Hw Hd Hlock Hch Hg Hr Ha Hn Hlen.
  { destruct causes; simpl in Hlen; lia. }
  apply Forall_cons in Hn as [Hn Hns]. destruct causes as [|cause causes]; destruct Ha as [Hu Ha].
  - eapply wpm_mono; [apply (last_attempt false _ _ _ _ D msg); try done|].
    + intros e w1 Hw1 Hh. by apply (process_succeeds e msg res).
    + intros r w1 [-> Ho]. split; [|done]. simpl. by rewrite Nat.sub_0_r.
  - destruct Ha as [Hx Ha]. unfold worked_off in *. cbn [attempts given_up] in *.
    destruct (final msg cause) eqn:Hs.
    + eapply wpm_mono; [apply (last_attempt (negb (m_NoArchive msg)) _ _ _ _ D msg); try done|].
      * intros e w1 Hw1 Hh. by apply (process_exhausted e msg cause).
      * intros r w1 [-> Ho]. split; [|done]. simpl. by rewrite Nat.sub_0_r.
    + simpl. apply wpm_bind. eapply wpm_mono.
      { eapply (due_round _ _ _ D msg (λ w', quiet w' ∧ due D w' (tried cause msg))); try done.
        intros e w1 Hw1 Hc1 Hh. eapply wpm_mono; [by apply process_failed|].
        intros r w2 ([l ->] & Hw2 & Hc2 & Hres). split; [by eexists|]. split; [done|].
        split; [lia|]. right. eexists. split; [|exact Hres]. rewrite Hc2.
        specialize (HD (m_Retried msg + 1)%Z cause). lia. }
      intros r1 w1 (-> & Hw1 & Hd1). apply wpm_bind.
      eapply wpm_mono; [apply (IH causes (tried cause msg)); try done; simpl in *; auto; lia|].
      intros r2 w2 [-> Ho]. by apply wpm_ret.
Qed.

Lemma attempts_bounded causes msg :
  (m_Retried msg ≤ m_MaxRetry msg → len (attempts causes msg) ≤ m_MaxRetry msg - m_Retried msg + 1)%Z.
Proof.
  revert msg. induction causes as [|cause causes IH]; intros msg Hr; simpl; [lia|].
  destruct (final msg cause) eqn:Hs; simpl; [lia|].
  apply orb_false_iff in Hs as [_ Hlt%bool_decide_eq_false].
  specialize (IH (tried cause msg)). simpl in *. lia.
Qed.

(** C6: a task that fails is tried until it succeeds or its retries are spent.
    Enqueue a task on a queue without other work, and let a worker sleep,
    forward and fetch round after round, each time for at least as long as
    the backoff asks for.  It processes the task once per round, unchanged
    but for the count and the text of the last error, until the handler
    succeeds, refuses with [SkipRetry] or has failed [MaxRetry] times after
    the first; no attempt is skipped and none is added.  After that the queue
    is empty and no further round delivers anything.  A task that succeeded
    has left nothing behind; one that was given up lies in the archive, unless
    it opted out of that. *)
Theorem flaky_task worker n res causes naps msg w :
  quiet w → (0 ≤ w_clock w)%Z → ok_lock K (m_UniqueKey msg) → m_Queue msg = q →
  m_Chain msg = [] → m_GroupID msg = "" → (m_Retention msg ≤ 0)%Z → (m_Retried msg ≤ m_MaxRetry msg)%Z →
  vacant K q (wks w) (m_ID msg) → answers res causes msg →
  Forall (λ nap, D ≤ Z.of_N nap * Millisecond)%Z naps → length (attempts causes msg) ≤ length naps →
  let r := (Enqueue K msg;; attempt_rounds worker n naps) w in
  r.2 = Ok (map (λ t, [t]) (attempts causes msg)
            ++ replicate (length naps - length (attempts causes msg)) []) ∧
  (len (attempts causes msg) ≤ m_MaxRetry msg - m_Retried msg + 1)%Z ∧
  (if given_up causes msg && negb (m_NoArchive msg)
   then in_zset K (wks r.1) q ZArchived (m_ID msg)
   else ∀ f, hget (wks r.1) (TaskKey K q (m_ID msg)) f = None) ∧
  ∀ e T, (e, T) ∉ entries K (wks r.1) q.
Proof.
  intros Hw Hc Hlock Eq Hch Hg Hret Hr Hv Ha Hn Hlen r.
  assert (wpm (Enqueue K msg;; attempt_rounds worker n naps)
            (λ r w', worked_off causes msg (length naps) r (wks w')) w) as H.
  { apply wpm_bind, (wpm_timed _ (λ r w', r = Ok () ∧ quiet w' ∧ waiting K q (wks w') msg)).
    { by apply (Enqueue_vacant K q). }
    intros r1 w1 (-> & Hw1 & H1) Hc1. apply (attempts_run worker n res); [done| |done..].
    split; [lia|by left]. }
  destruct H as [E Ho]. split; [exact E|]. split; [by apply attempts_bounded|].
  fold r in Ho. destruct (given_up causes msg && negb (m_NoArchive msg)); simpl in Ho.
  - destruct Ho as (l & b & Hl & Hz). split; [done|]. intros e T. unfold entries, queue_stream.
    rewrite (ln_entries _ _ _ _ _ _ _ _ Hl). apply not_elem_of_nil.
  - destruct Ho as [[He _ _ _] Hb]. split; [done|]. intros e T. unfold entries, queue_stream.
    rewrite He. apply not_elem_of_nil.
Qed.

End retry.

(** A handler that fails twice, and one that never succeeds; a worker that
    waits a minute. *)
Definition down : error := ErrLeaf "connection refused".

Definition flaky_mux : Mux :=
  {["email" := λ m, if bool_decide (m_Retried m < 2)%Z then (m, Returned (Some down))
                    else (with_Result "sent" m, Returned None)]}.

Definition dead_mux : Mux := {["email" := λ m, (m, Returned (Some down))]}.

Definition flaky_cfg : ServerConfig :=
  newServer (λ z, z) (MkServerConfig {["q" := 1%Z]} false 1 (Some (λ _ _, 5 * Second)%Z)
                        false NoMetrics 0 0 0 0 0 0 0 0).

Definition demo_naps : list N := replicate 6 60000%N.

(** [answers], evaluated. *)
Ltac flaky_answers := repeat first
  [ match goal with |- answers _ _ _ _ _ => cbn [answers] end
  | match goal with |- _ ∧ _ => split end
  | match goal with |- _ = false → _ => intros Hf; vm_compute in Hf; first [discriminate Hf | clear Hf] end
  | match goal with |- _ = _ => vm_compute; reflexivity end ].

Lemma flaky_task_witness :
  let run mux := (Enqueue DefaultKeys demo_msg;;
                  attempt_rounds DefaultKeys "q" (λ s, s) flaky_cfg mux "w1" 1 demo_naps)
                   (demo_world demo_grouped) in
  let counts (r : result (list (list TaskMessage))) := match r with Ok l => Ok (map (map m_Retried) l) | Err e => Err e end in
  (counts (run flaky_mux).2 = Ok [[0%Z]; [1%Z]; [2%Z]; []; []; []] ∧
   ∀ f, hget (wks (run flaky_mux).1) (TaskKey DefaultKeys "q" "t1") f = None) ∧
  (counts (run dead_mux).2 = Ok [[0%Z]; [1%Z]; [2%Z]; [3%Z]; []; []] ∧
   in_zset DefaultKeys (wks (run dead_mux).1) "q" ZArchived "t1").
Proof.
  intros run counts.
  assert (brace_free "q") as Hq by (by apply (bool_decide_unpack (brace_free "q"))).
  assert (vacant DefaultKeys "q" (wks (demo_world demo_grouped)) "t1") as Hv.
  { constructor; [by vm_compute| |by vm_compute|by repeat constructor].
    exists 0%Z. split; by vm_compute. }
  pose proof (λ (mux : Mux) (causes : list error) (res : bytes)
    (Ha : answers (λ s, s) mux res causes demo_msg) (Hlen : length (attempts causes demo_msg) ≤ 6),
    flaky_task DefaultKeys ltac:(by exists "chronos") "q" Hq (λ s, s) flaky_cfg mux
      (λ _ _, 5 * Second)%Z eq_refl (5 * Second) ltac:(by split) "w1" 1 res causes demo_naps demo_msg
      (demo_world demo_grouped) eq_refl ltac:(by vm_compute) ltac:(by left) eq_refl eq_refl eq_refl
      ltac:(by vm_compute) ltac:(by vm_compute) Hv Ha ltac:(by repeat constructor) Hlen) as H.
  split.
  - destruct (H flaky_mux [down; down] "sent") as (E & _ & Hb & _).
    + flaky_answers.
    + vm_compute; lia.
    + split; [|exact Hb]. unfold counts, run. rewrite E. by vm_compute.
  - destruct (H dead_mux [down; down; down; down] "") as (E & _ & Hb & _).
    + flaky_answers.
    + vm_compute; lia.
    + split; [|exact Hb]. unfold counts, run. rewrite E. by vm_compute.
Defined.


End RetrySpec.
