(* ===== verification/BuilderSpec.v ===== *)
(** * What the workflow builders guarantee

    A chain or a group that is accepted yields well-addressed messages, so
    the demand the concurrent system makes of its clients ([Concurrent]) is
    met by names that are valid UTF-8 and queue names without a closing brace;
    and an accepted group can complete: no member may vanish, be refused as
    a duplicate, or start after the group's state has expired. *)

From S2P Require Import Prelude GoLib Base Redis Client RdbCore RdbLocks RdbFlow Instances.
From S2P Require Import Lifecycle Processes Programs Schedule Options Builder.
From Stdlib Require Import Ascii.

Module BuilderSpec.
Import GoTime GoStr Utf8 Keys Task Redis Client RdbCore RdbLocks RdbFlow.
Import Processes Programs Schedule Options Builder.

(** ** Inputs with sound names *)

Definition ok_name (s : string) : Prop := valid s = true ∧ brace_free s.

Definition ok_opt (o : Option) : Prop :=
  match o with
  | WithQueue name => ok_name name
  | WithTaskID id => valid id = true
  | _ => True
  end.

Definition ok_call (args : TaskArgs) (opts : list Option) : Prop :=
  valid (Kind args) = true ∧ Forall ok_opt opts.

(** The names in a chain or a group, whatever the nesting. *)
Fixpoint ok_chain (ch : Chain) : Prop :=
  match ch with
  | MkChain l => (fix go l := match l with [] => True | st :: l => ok_stage st ∧ go l end) l
  end
with ok_stage (st : chainStage) : Prop :=
  match st with
  | Link args opts => ok_call args opts
  | Parallel None => True
  | Parallel (Some g) => ok_group g
  end
with ok_group (g : Group) : Prop :=
  match g with
  | MkGroup ms cb =>
      (fix go ms := match ms with [] => True | m :: ms => ok_member m ∧ go ms end) ms ∧
      match cb with Some (args, opts) => ok_call args opts | None => True end
  end
with ok_member (m : groupMember) : Prop :=
  match m with
  | Member args opts => ok_call args opts
  | ChainMember None => True
  | ChainMember (Some ch) => ok_chain ch
  end.

Lemma ok_chain_stages ch : ok_chain ch ↔ Forall ok_stage (stages ch).
Proof.
  destruct ch as [l]; simpl. induction l as [|st l IH]; [by split; [constructor|]|].
  rewrite Forall_cons, <- IH. done.
Qed.

Lemma ok_group_members g :
  ok_group g ↔ Forall ok_member (members g) ∧
               match callback g with Some (args, opts) => ok_call args opts | None => True end.
Proof.
  destruct g as [ms cb]; simpl. f_equiv.
  induction ms as [|m ms IH]; [by split; [constructor|]|]. rewrite Forall_cons, <- IH. done.
Qed.

(** ** Options *)

Lemma resolve_ok now opts :
  Forall ok_opt opts →
  ok_name (o_queue (resolve now opts)) ∧ valid (o_taskID (resolve now opts)) = true.
Proof.
  unfold resolve. intros Hopts.
  assert (ok_name (o_queue defaultOptions) ∧ valid (o_taskID defaultOptions) = true) as H.
  { split; [split; [by vm_compute|]|by vm_compute].
    by apply (bool_decide_unpack (brace_free DefaultQueue)). }
  revert H. generalize defaultOptions as o. induction Hopts as [|opt opts Hopt Hopts IH]; intros o Ho; [done|].
  simpl. apply IH. destruct o, opt; simpl in *; tauto.
Qed.

(** ** Inversion of the builders' checks *)

Lemma rbind_ok {A B} (r : result A) (f : A → result B) b :
  rbind r f = Ok b ↔ ∃ a, r = Ok a ∧ f a = Ok b.
Proof. destruct r; simpl; naive_solver. Qed.

Lemma rwrap_ok {A} s (r : result A) a : rwrap s r = Ok a ↔ r = Ok a.
Proof. destruct r; simpl; naive_solver. Qed.

Lemma guard_ok {A} (b : bool) e (r : result A) a :
  (if b then r else Err e) = Ok a ↔ b = true ∧ r = Ok a.
Proof. destruct b; naive_solver. Qed.

Lemma resolveChainOptions_ok now opts o :
  resolveChainOptions now opts = Ok o →
  o = resolve now opts ∧ o_taskID o = "" ∧ (o_uniqueTTL o ≤ 0)%Z.
Proof.
  unfold resolveChainOptions. case_bool_decide; [|done]. simpl. case_bool_decide; [done|].
  intros [= <-]. split_and!; [done|done|lia].
Qed.

(** ** Snapshots *)

Definition good_link (l : ChainLink) : Prop := ok_link l ∧ utf8_link l = true.

Lemma snapshotChainLink_good now args opts isLast l :
  ok_call args opts → snapshotChainLink now args opts isLast = Ok l →
  good_link l ∧ (isLast = false → cl_NoArchive l = false).
Proof.
  intros [Hk Ho] H. unfold snapshotChainLink in H.
  apply rbind_ok in H as (o & (-> & _)%resolveChainOptions_ok & H).
  apply guard_ok in H as [_ H]. apply guard_ok in H as [Hn H].
  apply rbind_ok in H as (payload & _ & [= <-]).
  destruct (resolve_ok now opts Ho) as [[Hv Hb] _]. split.
  - split; [split; [done|constructor]|]. apply utf8_link_fields. done.
  - intros ->. simpl in *. by destruct (o_noArchive _).
Qed.

Lemma snapshotStageMembers_good now i j ms ls :
  Forall ok_member ms → snapshotStageMembers now i j ms = Ok ls →
  Forall (λ g, brace_free (gm_Queue g)) ls ∧ forallb utf8_member ls = true.
Proof.
  intros Hms. revert j ls. induction Hms as [|m ms Hm Hms IH]; intros j ls H; simpl in H.
  { by injection H as <-. }
  apply rbind_ok in H as (l & Hl & H). apply rbind_ok in H as (ls' & Hls & [= <-]).
  destruct (IH _ _ Hls) as [Hb Hu]. unfold snapshotStageMember in Hl.
  destruct m as [args opts|ch]; [|done]. destruct Hm as [Hk Ho].
  apply rbind_ok in Hl as (o & Hr & Hl). apply rwrap_ok in Hr.
  apply resolveChainOptions_ok in Hr as (-> & _ & _).
  apply guard_ok in Hl as [_ Hl]. apply guard_ok in Hl as [_ Hl].
  apply rbind_ok in Hl as (payload & _ & Hl). apply guard_ok in Hl as [_ [= <-]].
  destruct (resolve_ok now opts Ho) as [[Hv Hb'] _]. split; [by constructor|].
  simpl. apply andb_true_iff. split; [|done]. by apply andb_true_iff.
Qed.

Lemma snapshotStage_good now i st isLast l :
  ok_stage st → snapshotStage now i st isLast = Ok l → good_link l.
Proof.
  destruct st as [args opts|[g|]]; simpl; intros Hst H; [| |done].
  - apply rwrap_ok in H. by eapply snapshotChainLink_good.
  - apply ok_group_members in Hst as [Hms Hcb]. apply guard_ok in H as [_ H].
    destruct (callback g) as [[cb cbOpts]|]; [|done].
    apply rbind_ok in H as (link & Hl & H). apply rwrap_ok in Hl.
    apply rbind_ok in H as (ms & Hm & [= <-]).
    destruct (snapshotChainLink_good _ _ _ _ _ Hcb Hl) as [[[Hq _] Hu] _].
    destruct (snapshotStageMembers_good _ _ _ _ _ Hms Hm) as [Hb Hmu].
    apply utf8_link_fields in Hu as (? & ? & _). split; [by split|]. by apply utf8_link_fields.
Qed.

Lemma snapshotStages_good now i l ls :
  Forall ok_stage l → snapshotStages now i l = Ok ls → Forall good_link ls.
Proof.
  intros Hl. revert i ls. induction Hl as [|st l Hst Hl IH]; intros i ls H; simpl in H.
  { injection H as <-. constructor. }
  apply rbind_ok in H as (link & Hlink & H). apply rbind_ok in H as (links & Hlinks & [= <-]).
  constructor; [by eapply snapshotStage_good|by eapply IH].
Qed.

Lemma good_links ls : Forall good_link ls → Forall ok_link ls ∧ forallb utf8_link ls = true.
Proof. induction 1 as [|l ls [H1 H2] _ [IH1 IH2]]; [done|]. simpl. split; [by constructor|by rewrite H2]. Qed.

(** ** Messages *)

Section messages.
Context (K : Keys) (sha256hex : bytes → string).
Context (Hprefix : valid (prefix K) = true) (Hsha : ∀ b, valid (sha256hex b) = true).

Lemma ok_dispatchable msg : ok_msg K msg → dispatchable K sha256hex msg.
Proof.
  intros Hm. split; [done|]. destruct Hm as [Hu Hq Hl Hch Hcb Hcc].
  apply utf8_fields_iff in Hu as []. constructor; try done.
  - apply utf8_fields_iff. constructor; simpl; try done.
    unfold lockKey, UniqueKey, QueueKeyPrefix, UniqueSuffix. rewrite !string_app_assoc.
    repeat (apply valid_append; [first [done|by vm_compute]|]). done.
  - right. by eexists _, _.
Qed.

Lemma firstMessage_ok chainID now args opts payload na tl :
  valid chainID = true → ok_call args opts → Forall good_link tl →
  ok_msg K (firstMessage chainID args payload (resolve now opts) na tl).
Proof.
  intros Hid [Hk Ho] [Hl Hu]%good_links. destruct (resolve_ok now opts Ho) as [[Hv Hb] _].
  constructor; simpl; try done; [|by left]. apply utf8_fields_iff. constructor; simpl; try done.
  by apply valid_append.
Qed.

Lemma buildChain_ok now chainID ch msg o :
  valid chainID = true → ok_chain ch → buildChain now chainID ch = Ok (msg, o) → ok_msg K msg.
Proof.
  intros Hid Hch H. apply ok_chain_stages in Hch. unfold buildChain, snapshotTail in H.
  destruct (stages ch) as [|[args opts|g] rest]; [done| |done].
  apply Forall_cons in Hch as [Hst Hrest].
  apply rbind_ok in H as (tl & Htl & H). apply rbind_ok in H as (o' & Ho & H).
  apply rwrap_ok, resolveChainOptions_ok in Ho as (-> & _). apply guard_ok in H as [_ H].
  apply rbind_ok in H as (payload & _ & [= <- <-]).
  apply firstMessage_ok; [done|done|]. by eapply snapshotStages_good.
Qed.

Lemma asMember_ok groupID cbLink i n msg :
  valid groupID = true → good_link cbLink → ok_msg K msg →
  ok_msg K (asMember groupID cbLink i n msg).
Proof.
  intros Hid [Hl Hu] [Hm Hq Hk Hch Hcb Hcc]. apply utf8_fields_iff in Hm as [].
  pose proof (proj1 (utf8_link_fields _) Hu) as (? & ? & ?).
  constructor; simpl; try done; [|by intros l [= <-]]. apply utf8_fields_iff. by constructor.
Qed.

Lemma slot_ok msg slot : valid slot = true → ok_msg K msg → ok_msg K (with_GroupMemberID slot msg).
Proof.
  intros Hs [Hm Hq Hk Hch Hcb Hcc]. apply utf8_fields_iff in Hm as [].
  constructor; try done. apply utf8_fields_iff. by constructor.
Qed.

Lemma buildMember_ok now groupID cbLink n i m msg o :
  valid groupID = true → good_link cbLink → ok_member m →
  buildMember now groupID cbLink n i m = Ok (msg, o) → ok_msg K msg.
Proof.
  intros Hid Hcb Hm H. assert (valid (groupID +:+ ":m" +:+ itoa (Z.of_nat i)) = true) as Hslot.
  { apply valid_append; [done|]. apply valid_append; [done|]. apply valid_itoa. }
  destruct m as [args opts|ch]; unfold buildMember in H.
  - apply rbind_ok in H as (o' & Ho & H). apply rwrap_ok, resolveChainOptions_ok in Ho as (-> & _).
    apply guard_ok in H as [_ H]. apply guard_ok in H as [_ H].
    apply rbind_ok in H as (payload & _ & [= <- <-]). apply asMember_ok; [done|done|].
    destruct Hm as [Hk Ho]. destruct (resolve_ok now opts Ho) as [[Hv Hb] _].
    constructor; simpl; try done; [|by left]. apply utf8_fields_iff. by constructor.
  - apply rbind_ok in H as ([msg' o'] & Hp & H). apply rwrap_ok in Hp.
    apply guard_ok in H as [_ [= <- <-]]. apply slot_ok; [done|]. apply asMember_ok; [done|done|].
    unfold snapshotForMember, snapshotTail in Hp. destruct ch as [ch|]; [|done].
    apply ok_chain_stages in Hm. destruct (stages ch) as [|st rest]; [done|].
    apply Forall_cons in Hm as [Hst Hrest]. apply guard_ok in Hp as [_ Hp].
    apply rbind_ok in Hp as (tl & Htl & Hp). destruct st as [args opts|]; [|done].
    apply rbind_ok in Hp as (o2 & Ho & Hp). apply rwrap_ok, resolveChainOptions_ok in Ho as (-> & _).
    apply guard_ok in Hp as [_ Hp]. apply guard_ok in Hp as [_ Hp].
    apply rbind_ok in Hp as (payload & _ & [= <- <-]).
    apply firstMessage_ok; [done|done|]. by eapply snapshotStages_good.
Qed.

Lemma buildMembers_lookup now groupID cbLink n i ms ps j p :
  buildMembers now groupID cbLink n i ms = Ok ps → ps !! j = Some p →
  ∃ m, ms !! j = Some m ∧ buildMember now groupID cbLink n (i + j) m = Ok p.
Proof.
  revert i ps j. induction ms as [|m ms IH]; intros i ps j H Hj; simpl in H.
  { by injection H as <-. }
  apply rbind_ok in H as (p0 & Hp0 & H). apply rbind_ok in H as (ps' & Hps & [= <-]).
  destruct j as [|j]; simpl in Hj.
  - injection Hj as <-. exists m. by rewrite Nat.add_0_r.
  - destruct (IH _ _ _ Hps Hj) as (m' & ? & ?). exists m'. split; [done|].
    by rewrite <- Nat.add_succ_comm.
Qed.


End messages.

(** ** The rules of a group *)

(** What makes a member able to report. *)
Record can_report (now : Z) (groupID : string) (cb : ChainLink) (n i : nat)
    (p : TaskMessage * enqueueOptions) : Prop := MkCanReport {
  cr_group : m_GroupID p.1 = groupID ∧ m_GroupQueue p.1 = cl_Queue cb ∧ m_GroupCallback p.1 = Some cb;
  cr_index : m_GroupIndex p.1 = Z.of_nat i ∧ m_GroupSize p.1 = Z.of_nat n;
  cr_slot : memberSlot p.1 = groupID +:+ ":m" +:+ itoa (Z.of_nat i);
  cr_discard : m_NoArchive p.1 = false ∧ Forall (λ l, cl_NoArchive l = false) (m_Chain p.1);
  cr_unique : (o_uniqueTTL p.2 ≤ 0)%Z;
  cr_delay : (memberDelay now p.2 p.1 ≤ GroupTTL)%Z;
}.

Lemma slot_not_empty groupID s : groupID +:+ ":m" +:+ s ≠ "".
Proof. by destruct groupID. Qed.

Lemma buildMember_reports now groupID cb n i m p :
  buildMember now groupID cb n i m = Ok p → can_report now groupID cb n i p.
Proof.
  destruct m as [args opts|ch]; unfold buildMember; intros H.
  - apply rbind_ok in H as (o & Ho & H). apply rwrap_ok, resolveChainOptions_ok in Ho as (_ & _ & Hu).
    apply guard_ok in H as [Hn H]. apply guard_ok in H as [Hd H].
    apply rbind_ok in H as (payload & _ & [= <-]). constructor; simpl; try done.
    unfold memberDelay. simpl. destruct (IsZero _); [by vm_compute|]. by apply bool_decide_eq_true in Hd.
  - apply rbind_ok in H as ([msg o] & Hp & H). apply rwrap_ok in Hp.
    apply guard_ok in H as [Hd%bool_decide_eq_true [= <-]].
    unfold snapshotForMember in Hp. destruct ch as [ch|]; [|done].
    destruct (stages ch) as [|st rest]; [done|]. apply guard_ok in Hp as [_ Hp].
    apply rbind_ok in Hp as (tl & _ & Hp). destruct st as [args opts|]; [|done].
    apply rbind_ok in Hp as (o2 & Ho & Hp). apply rwrap_ok, resolveChainOptions_ok in Ho as (_ & _ & Hu).
    apply guard_ok in Hp as [Hn Hp]. apply guard_ok in Hp as [Hc Hp].
    apply rbind_ok in Hp as (payload & _ & [= <- <-]). constructor; simpl; try done.
    + unfold memberSlot. simpl. by rewrite bool_decide_false by apply slot_not_empty.
    + split; [done|]. apply negb_true_iff in Hc. apply Forall_forall. intros l Hl.
      apply not_true_is_false. intros Hna. apply not_true_iff_false in Hc. apply Hc.
      apply existsb_exists. exists l. split; [by apply list_elem_of_In|done].
Qed.

Lemma buildMembers_length now groupID cb n i ms ps :
  buildMembers now groupID cb n i ms = Ok ps → length ps = length ms.
Proof.
  revert i ps. induction ms as [|m ms IH]; intros i ps H; simpl in H; [by injection H as <-|].
  apply rbind_ok in H as (p0 & _ & H). apply rbind_ok in H as (ps' & Hps & [= <-]).
  simpl. f_equal. by eapply IH.
Qed.

(** Only groups that can complete are accepted.  If the builder returns a
    group, it has members; each of them names the group, its index among all
    of them, and the slot under which the group waits for it; none discards
    its task on death, at any link of its chain; none can be refused as a
    duplicate; and each can start before the group's state expires, as far
    as the delays asked for go.  Any other group is an error. *)
Theorem group_rules now groupID g cb ps :
  buildGroup now groupID g = Ok (cb, ps) →
  members g ≠ [] ∧ length ps = length (members g) ∧
  ∀ i p, ps !! i = Some p →
    can_report now groupID cb (length (members g)) i p ∧
    memberIDs groupID g !! i = Some (memberSlot p.1).
Proof.
  unfold buildGroup. intros H. apply guard_ok in H as [Hne%bool_decide_eq_true H].
  destruct (callback g) as [[args opts]|]; [|done].
  apply rbind_ok in H as (link & _ & H). apply rbind_ok in H as (ps' & Hps & [= <- <-]).
  split_and!; [done|by eapply buildMembers_length|]. intros i p Hi.
  destruct (buildMembers_lookup _ _ _ _ _ _ _ _ _ Hps Hi) as (m & Hm & Hb).
  apply buildMember_reports in Hb. split; [done|].
  unfold memberIDs. rewrite list_lookup_imap, Hm. simpl. by rewrite (cr_slot _ _ _ _ _ _ Hb).
Qed.

(** A group of a task and a chain, with a callback. *)
Definition demo_args (kind : string) : TaskArgs := MkArgs kind (Some "{}").

Definition demo_chain : Chain :=
  Then (Then NewChain (demo_args "a") [WithQueue "q"]) (demo_args "b") [WithProcessIn Minute].

Definition demo_group : Group :=
  OnComplete (AddChain (Add NewGroup (demo_args "a") [WithProcessIn Second]) (Some demo_chain))
    (demo_args "done") [].

Lemma demo_names : ok_chain demo_chain ∧ ok_group demo_group.
Proof.
  assert (brace_free "q") by (by apply (bool_decide_unpack (brace_free "q"))).
  repeat first [split | constructor]; try done; by vm_compute.
Qed.


Lemma group_rules_witness :
  ∃ cb ps, buildGroup 0 "g" demo_group = Ok (cb, ps) ∧ length ps = length (members demo_group).
Proof.
  destruct (buildGroup 0 "g" demo_group) as [[cb ps]|e] eqn:E; [|by vm_compute in E].
  exists cb, ps. split; [done|]. by apply (group_rules 0 "g" demo_group cb ps).
Defined.

(** The sum of a chain's delays is taken in 64 bits: two delays of two hundred
    years add up to a negative one, and the group is accepted. *)
Definition two_centuries : Z := (200 * 365 * 24 * Hour)%Z.

Definition late_group : Group :=
  OnComplete (AddChain NewGroup
      (Some (Then (Then NewChain (demo_args "a") [WithProcessIn two_centuries])
               (demo_args "b") [WithProcessIn two_centuries])))
    (demo_args "done") [].

Lemma memberDelay_wraps :
  match buildGroup 0 "g" late_group with
  | Ok (_, [(msg, o)]) => (GroupTTL < two_centuries ∧ memberDelay 0 o msg < 0)%Z
  | _ => False
  end.
Proof. by vm_compute. Qed.

End BuilderSpec.
