(* ===== verification/WorkflowSpec.v ===== *)
(** * Workflows run as they were built

    A chain is frozen by its builder into the first link's message; each
    success unrolls one stage of it.  This file says what tasks a chain's
    description asks for, what tasks a run creates, and proves that they are
    the same, in the same order, with every result passed to the next stage. *)

From S2P Require Import Prelude GoLib Base Redis RedisFacts Client RdbCore RdbFlow Schedule Options Builder.
From S2P Require Import Instances Retry Handler Server FlowSpec BuilderSpec.
From Stdlib Require Import Ascii.

Module WorkflowSpec.
Import GoTime GoStr Keys Task Redis RedisFacts Client RdbCore RdbFlow Schedule Options Builder Server FlowSpec BuilderSpec.

(** ** What the caller described *)

(** A task, whatever its place in the workflow. *)
Record description := MkDescription {
  d_kind : string;
  d_payload : bytes;
  d_queue : string;
  d_maxRetry : Z;
  d_noArchive : bool;
  d_retention : Z;
}.

Definition describe (now : Z) (args : TaskArgs) (opts : list Option) : option description :=
  let o := resolve now opts in
  (λ b, MkDescription (Kind args) b (o_queue o) (o_maxRetry o) (o_noArchive o) (retentionSeconds o))
    <$> encoded args.

(** A stage: its parallel members, none for a link, and the task the next
    stage continues from, the callback or the link itself. *)
Definition stage : Type := list description * description.

Definition describe_member (now : Z) (m : groupMember) : option description :=
  match m with Member args opts => describe now args opts | ChainMember _ => None end.

Definition describe_stage (now : Z) (st : chainStage) : option stage :=
  match st with
  | Link args opts => pair [] <$> describe now args opts
  | Parallel (Some (MkGroup ms (Some (cb, opts)))) =>
      ds ← mapM (describe_member now) ms; pair ds <$> describe now cb opts
  | Parallel _ => None
  end.

(** ** What a run creates *)

Definition description_of (msg : TaskMessage) : description :=
  MkDescription (m_Kind msg) (m_Payload msg) (m_Queue msg) (m_MaxRetry msg) (m_NoArchive msg)
    (m_Retention msg).

Definition stage_of (s : list TaskMessage * TaskMessage) : stage :=
  (map description_of s.1, description_of s.2).

(** The identity of a task of the chain. *)
Definition stage_id (msg : TaskMessage) : string :=
  m_ChainID msg +:+ ":" +:+ itoa (m_ChainIndex msg + 1).

(** The messages [enqueueNext] and [CompleteGroupMember] create once [msg]
    has succeeded: the members of a parallel stage with their callback, or
    the next link. *)
Definition next_stage (msg : TaskMessage) : option (list TaskMessage * TaskMessage) :=
  match m_Chain msg with
  | [] => None
  | link :: rest =>
      match cl_Group link with
      | [] => Some ([], nextMessage msg link rest)
      | m :: _ =>
          let ms := imap (stageMember msg link rest (stage_id msg)) (cl_Group link) in
          Some (ms, callbackMessage (stageMember msg link rest (stage_id msg) 0 m) link)
      end
  end.

(** The stages after [msg], when the tasks the chain continues from have the
    given results. *)
Fixpoint unroll (msg : TaskMessage) (results : list bytes) : list (list TaskMessage * TaskMessage) :=
  match results with
  | [] => []
  | r :: results =>
      match next_stage (with_Result r msg) with
      | None => []
      | Some s => s :: unroll s.2 results
      end
  end.

(** Every member of a stage would create the same callback. *)
Lemma callback_of_any_member msg link rest gid i j m m' :
  callbackMessage (stageMember msg link rest gid i m) link
  = callbackMessage (stageMember msg link rest gid j m') link.
Proof. done. Qed.

(** *** The frozen stages *)

Definition link_stage (l : ChainLink) : stage :=
  (map (λ m, MkDescription (gm_Kind m) (gm_Payload m) (gm_Queue m) (gm_MaxRetry m) false
               (gm_Retention m)) (cl_Group l),
   MkDescription (cl_Kind l) (cl_Payload l) (cl_Queue l) (cl_MaxRetry l) (cl_NoArchive l)
     (cl_Retention l)).

Lemma encode_ok args b : encode args = Ok b → encoded args = Some b.
Proof. unfold encode. by destruct (encoded args); intros [= ->]. Qed.

Lemma link_built now args opts last l :
  snapshotChainLink now args opts last = Ok l →
  cl_Group l = [] ∧ describe now args opts = Some (link_stage l).2.
Proof.
  unfold snapshotChainLink. intros H.
  apply rbind_ok in H as (o & (-> & _)%resolveChainOptions_ok & H).
  apply guard_ok in H as [_ H]. apply guard_ok in H as [_ H].
  apply rbind_ok in H as (b & Hb%encode_ok & [= <-]). split; [done|].
  unfold describe. by rewrite Hb.
Qed.

Lemma members_built now i j ms ls :
  snapshotStageMembers now i j ms = Ok ls →
  mapM (describe_member now) ms
  = Some (map (λ m, MkDescription (gm_Kind m) (gm_Payload m) (gm_Queue m) (gm_MaxRetry m) false
                      (gm_Retention m)) ls).
Proof.
  revert j ls. induction ms as [|m ms IH]; intros j ls H; simpl in H; [by injection H as <-|].
  apply rbind_ok in H as (l & Hl & H). apply rbind_ok in H as (ls' & Hls%IH & [= <-]).
  destruct m as [args opts|ch]; [|done]. unfold snapshotStageMember in Hl.
  apply rbind_ok in Hl as (o & Ho & Hl). apply rwrap_ok, resolveChainOptions_ok in Ho as (-> & _).
  apply guard_ok in Hl as [Hn Hl]. apply guard_ok in Hl as [_ Hl].
  apply rbind_ok in Hl as (b & Hb & Hl). apply rwrap_ok, encode_ok in Hb.
  apply guard_ok in Hl as [_ [= <-]]. apply negb_true_iff in Hn.
  simpl. unfold describe. by rewrite Hb, Hls; simpl; rewrite Hn.
Qed.

Lemma stage_built now i st last l :
  snapshotStage now i st last = Ok l → describe_stage now st = Some (link_stage l).
Proof.
  destruct st as [args opts|[[ms cb]|]]; simpl; intros H; [| |done].
  - apply rwrap_ok, link_built in H as [Hg Hd]. rewrite Hd. simpl.
    unfold link_stage. by rewrite Hg.
  - apply guard_ok in H as [_ H]. destruct cb as [[cb opts]|]; [|done].
    apply rbind_ok in H as (l' & Hl & H). apply rwrap_ok, link_built in Hl as [_ Hd].
    apply rbind_ok in H as (ms' & Hms%members_built & [= <-]).
    rewrite Hms. simpl. by rewrite Hd.
Qed.

Lemma stages_built now i l ls :
  snapshotStages now i l = Ok ls → mapM (describe_stage now) l = Some (map link_stage ls).
Proof.
  revert i ls. induction l as [|st l IH]; intros i ls H; simpl in H; [by injection H as <-|].
  apply rbind_ok in H as (link & Hlink%stage_built & H).
  apply rbind_ok in H as (links & Hls%IH & [= <-]). simpl. by rewrite Hlink, Hls.
Qed.

(** *** The unrolled stages *)

(** The tasks of stage [k] of chain [uuid], after a result [r]: the members
    and the link receive the result, and whichever member comes last creates
    the same callback. *)
Record runs_stage (uuid : string) (k : Z) (r : bytes) (s : list TaskMessage * TaskMessage) : Prop := {
  rs_id : m_ID s.2 = uuid +:+ ":" +:+ itoa k +:+ (if bool_decide (s.1 = []) then "" else ":cb");
  rs_members : map m_ID s.1
               = imap (λ j _, uuid +:+ ":" +:+ itoa k +:+ ":m" +:+ itoa (Z.of_nat j)) s.1;
  rs_prev : Forall (λ t, m_PrevResult t = r) s.1 ∧ (s.1 = [] → m_PrevResult s.2 = r);
  rs_callback : Forall (λ t, ∃ link, m_GroupCallback t = Some link ∧ callbackMessage t link = s.2) s.1;
}.

Lemma map_imap {A B C} (f : nat → A → B) (g : B → C) l : map g (imap f l) = imap (λ j, g ∘ f j) l.
Proof. apply (fmap_imap f g l). Qed.

Lemma imap_imap {A B C} (f : nat → A → B) (g : nat → C) l :
  imap (λ j _, g j) (imap f l) = imap (λ j _, g j) l.
Proof. revert f g. induction l as [|a l IH]; intros f g; [done|]. simpl. f_equal. apply (IH (f ∘ S) (g ∘ S)). Qed.

Lemma Forall_imap {A B} (P : B → Prop) (f : nat → A → B) l :
  (∀ j a, P (f j a)) → Forall P (imap f l).
Proof. intros H. revert f H. induction l; intros f H; simpl; constructor; [done|]. apply IHl. intros; apply H. Qed.

(** The members of the stage that follows [msg]. *)
Definition stage_members (msg : TaskMessage) (link : ChainLink) (rest : list ChainLink)
    : list TaskMessage :=
  imap (stageMember msg link rest (stage_id msg)) (cl_Group link).

Lemma stage_members_of msg link rest (s : TaskMessage) :
  description_of s = (link_stage link).2 → stage_of (stage_members msg link rest, s) = link_stage link.
Proof.
  intros Hs. unfold stage_of, link_stage, stage_members. simpl. f_equal; [|done].
  rewrite map_imap. etrans; [|apply imap_const]. by apply imap_ext.
Qed.

Lemma next_stage_runs uuid k msg link rest :
  m_Chain msg = link :: rest → m_ChainID msg = uuid → m_ChainIndex msg = k →
  ∃ s, next_stage msg = Some s ∧ stage_of s = link_stage link ∧
       runs_stage uuid (k + 1) (m_Result msg) s ∧
       m_Chain s.2 = rest ∧ (rest ≠ [] → m_ChainID s.2 = uuid ∧ m_ChainIndex s.2 = (k + 1)%Z).
Proof.
  intros Hc <- <-. unfold next_stage. rewrite Hc.
  destruct (cl_Group link) as [|m ms] eqn:Hg.
  - eexists. split; [done|]. split; [by unfold link_stage; rewrite Hg|].
    split; [|done]. constructor; simpl; try done. by rewrite string_app_nil_r.
  - rewrite <- Hg. change (imap _ (cl_Group link)) with (stage_members msg link rest).
    assert (stage_members msg link rest ≠ []) as Hne by (unfold stage_members; by rewrite Hg).
    eexists. split; [done|].
    set (cb := callbackMessage _ _).
    assert (m_Chain cb = rest ∧ (rest ≠ [] → m_ChainID cb = m_ChainID msg ∧
              m_ChainIndex cb = (m_ChainIndex msg + 1)%Z) ∧ m_ID cb = stage_id msg +:+ ":cb" ∧
            description_of cb = (link_stage link).2) as (Hchain & Hnext & Hid & Hd).
    { unfold cb, callbackMessage. simpl. case_bool_decide as Hr; [by subst|done]. }
    split_and!; [by apply stage_members_of| |done|done].
    constructor; simpl.
    + rewrite bool_decide_false by done. rewrite Hid. unfold stage_id. by rewrite !string_app_assoc.
    + unfold stage_members at 2. rewrite imap_imap. unfold stage_members. rewrite map_imap.
      apply imap_ext. intros j x _. simpl. unfold stage_id. by rewrite !string_app_assoc.
    + split; [by apply Forall_imap|done].
    + apply Forall_imap. intros j x. eexists. split; done.
Qed.

Lemma unroll_runs uuid k msg results :
  length results ≤ length (m_Chain msg) →
  (m_Chain msg ≠ [] → m_ChainID msg = uuid ∧ m_ChainIndex msg = k) →
  map stage_of (unroll msg results) = map link_stage (take (length results) (m_Chain msg)) ∧
  ∀ i s, unroll msg results !! i = Some s →
    ∃ r, results !! i = Some r ∧ runs_stage uuid (k + 1 + Z.of_nat i) r s.
Proof.
  revert k msg. induction results as [|r results IH]; intros k msg Hlen Hid; [done|].
  destruct (m_Chain msg) as [|link rest] eqn:Hc; simpl in Hlen; [lia|].
  destruct Hid as [Hu Hk]; [done|].
  destruct (next_stage_runs uuid k (with_Result r msg) link rest) as (s & Hs & Hst & Hr & Hc' & Hid');
    [done..|].
  destruct (IH (k + 1)%Z s.2) as [Hm Hi]; [rewrite Hc'; lia|by rewrite Hc'|].
  simpl unroll. rewrite Hs. split.
  - simpl. by rewrite Hst, Hm, Hc'.
  - intros [|i] s' Hl; simpl in Hl.
    + injection Hl as <-. exists r. split; [done|]. by rewrite Z.add_0_r.
    + destruct (Hi _ _ Hl) as (r' & ? & ?). exists r'. split; [done|].
      by replace (k + 1 + Z.of_nat (S i))%Z with (k + 1 + 1 + Z.of_nat i)%Z by lia.
Qed.

Lemma snapshotStages_length now i l ls : snapshotStages now i l = Ok ls → length ls = length l.
Proof.
  revert i ls. induction l as [|st l IH]; intros i ls H; simpl in H; [by injection H as <-|].
  apply rbind_ok in H as (link & _ & H). apply rbind_ok in H as (links & Hls%IH & [= <-]).
  simpl. by rewrite Hls.
Qed.


(** A link, a parallel stage of two with its callback, and a last link. *)
Definition demo_workflow : Chain :=
  Then
    (ThenGroup (Then NewChain (demo_args "fetch") [WithMaxRetry 3])
       (Some (OnComplete (Add (Add NewGroup (demo_args "left") []) (demo_args "right") [])
                (demo_args "join") [])))
    (demo_args "publish") [WithQueue "out"].


(** ** What the hand-over stores *)

#[local] Arguments mbind {_ _ _ _} _ _ : simpl never.

(** The tasks a success creates: the next link, or the members of the next
    stage; the callback is created by whoever completes the stage. *)
Definition stage_tasks (s : list TaskMessage * TaskMessage) : list TaskMessage :=
  match s.1 with [] => [s.2] | _ :: _ => s.1 end.

Definition stage_delays (msg : TaskMessage) : list Z :=
  match m_Chain msg with
  | [] => []
  | link :: _ =>
      match cl_Group link with
      | [] => [wrap64 (cl_Delay link * Second)]
      | ms => map (λ m, wrap64 (gm_Delay m * Second)) ms
      end
  end.

Section handover.
Context `{R : Redis} `{J : Json} (K : Keys) (HK : valid_keys K).

(** A task as it is first stored. *)
Definition stored (m : keyspace) (t : TaskMessage) (delay : Z) : Prop :=
  hget m (TaskKey K (m_Queue t) (m_ID t)) "msg" = Some (EncodeMessage (with_State (link_state delay) t)) ∧
  hget m (TaskKey K (m_Queue t) (m_ID t)) "state" = Some (itoa (link_state delay)).

(** Its key is new, and its queue can be told from its key. *)
Definition fresh (m : keyspace) (t : TaskMessage) : Prop :=
  brace_free (m_Queue t) ∧ key_exists m (TaskKey K (m_Queue t) (m_ID t)) = false.

Definition keys_of (t : TaskMessage) : list string := task_keys K (m_Queue t) (m_ID t).

(** A task's own key is none of those the creation of another one touches. *)
Lemma own_key_apart q T t :
  brace_free q → brace_free (m_Queue t) → T ≠ m_ID t → TaskKey K q T ∉ keys_of t.
Proof.
  intros Hq Ht Hne. unfold keys_of, task_keys.
  rewrite !not_elem_of_cons. split_and!; [..|apply not_elem_of_nil].
  - intros E. by apply (queueKey_iff K K _ _ (KTask T) (KTask (m_ID t)) HK HK Hq Ht) in E as (_ & _ & [= ?]).
  - intros E. by apply (queueKey_iff K K _ _ (KTask T) KStream HK HK Hq Ht) in E as (_ & _ & ?).
  - intros E. by apply (queueKey_iff K K _ _ (KTask T) KScheduled HK HK Hq Ht) in E as (_ & _ & ?).
  - intros E. by apply (queueKey_not_global K q (KTask T) "queues") in E.
Qed.

Lemma group_key_apart q g t :
  brace_free q → brace_free (m_Queue t) → GroupKey K q g ∉ keys_of t.
Proof.
  intros Hq Ht. unfold keys_of, task_keys.
  rewrite !not_elem_of_cons. split_and!; [..|apply not_elem_of_nil].
  - intros E. by apply (queueKey_iff K K _ _ (KGroup g) (KTask (m_ID t)) HK HK Hq Ht) in E as (_ & _ & ?).
  - intros E. by apply (queueKey_iff K K _ _ (KGroup g) KStream HK HK Hq Ht) in E as (_ & _ & ?).
  - intros E. by apply (queueKey_iff K K _ _ (KGroup g) KScheduled HK HK Hq Ht) in E as (_ & _ & ?).
  - intros E. by apply (queueKey_not_global K q (KGroup g) "queues") in E.
Qed.

Lemma stored_untouched keys m m' t delay :
  TaskKey K (m_Queue t) (m_ID t) ∉ keys → untouched keys m m' → stored m t delay → stored m' t delay.
Proof. intros Hk Hu [H1 H2]. destruct (Hu _ Hk) as (Hh & _). unfold stored, hget in *. by rewrite Hh. Qed.

Lemma fresh_untouched keys m m' t :
  TaskKey K (m_Queue t) (m_ID t) ∉ keys → untouched keys m m' → fresh m t → fresh m' t.
Proof. intros Hk Hu [H1 H2]. destruct (Hu _ Hk) as (_ & _ & He). split; [done|]. by rewrite He. Qed.

Lemma EnqueueChainLink_fresh t delay (Q : result bool → world → Prop) w :
  quiet w → fresh (wks w) t →
  (∀ w', quiet w' → stored (wks w') t delay → untouched (keys_of t) (wks w) (wks w') → Q (Ok true) w') →
  wpm (EnqueueChainLink K t delay) Q w.
Proof.
  intros Hw [Hq Hf] HQ. apply EnqueueChainLink_quiet; [done..|]. rewrite Hf.
  intros w' Hw' (Hu & Hm & Hs & _). by apply HQ.
Qed.

(** The loop over a new stage's members, from the [j]-th. *)
Definition members_from (msg : TaskMessage) (link : ChainLink) (rest : list ChainLink) (gid : string)
    (j : nat) (ms : list GroupMemberLink) : list TaskMessage :=
  imap (λ i, stageMember msg link rest gid (j + i)) ms.

Lemma members_from_cons msg link rest gid j m ms :
  members_from msg link rest gid j (m :: ms)
  = stageMember msg link rest gid j m :: members_from msg link rest gid (S j) ms.
Proof.
  unfold members_from. simpl. rewrite Nat.add_0_r. f_equal. apply imap_ext.
  intros i x _. simpl. by rewrite Nat.add_succ_r.
Qed.

Lemma members_from_later msg link rest gid j ms i t :
  i < j → t ∈ members_from msg link rest gid j ms → gid +:+ ":m" +:+ itoa (Z.of_nat i) ≠ m_ID t.
Proof.
  intros Hi [n Ht]%list_elem_of_lookup. unfold members_from in Ht.
  rewrite list_lookup_imap in Ht. destruct (ms !! n); [|done]. injection Ht as <-. simpl.
  intros E%(inj (String.append gid))%(inj (String.append ":m"))%(inj pretty). lia.
Qed.

Lemma enqueueMembers_fresh msg link rest gid j ms (Q : result () → world → Prop) w :
  let ts := members_from msg link rest gid j ms in
  quiet w → Forall (fresh (wks w)) ts →
  (∀ w', quiet w' → Forall2 (stored (wks w')) ts (map (λ m, wrap64 (gm_Delay m * Second)) ms) →
     untouched (concat (map keys_of ts)) (wks w) (wks w') → Q (Ok ()) w') →
  wpm (enqueueMembers K msg link rest gid None j ms) Q w.
Proof.
  revert j Q w. induction ms as [|m ms IH]; intros j Q w ts Hw Hf HQ; simpl.
  { apply wpm_ret, HQ; [done|constructor|by intros k]. }
  unfold ts in Hf, HQ. rewrite members_from_cons in Hf, HQ.
  apply Forall_cons in Hf as [Hf Hfs].
  apply wpm_bind, wpm_bind, wpm_wrap_err, EnqueueChainLink_fresh; [done..|].
  intros w1 Hw1 Hs1 Hu1. apply wpm_ret. apply IH; [done| |].
  { rewrite Forall_forall in Hfs |- *. intros t Ht. eapply fresh_untouched; [|exact Hu1|by apply Hfs].
    apply own_key_apart; [by apply Hfs|apply Hf|]. intros E. symmetry in E.
    by apply (members_from_later _ _ _ _ (S j) _ j) in Ht; [|lia]. }
  intros w2 Hw2 Hs2 Hu2. apply HQ; [done| |].
  - constructor; [|done]. eapply stored_untouched; [|exact Hu2|done].
    rewrite list_elem_of_In, in_concat. setoid_rewrite in_map_iff.
    intros (l & (t & <- & Ht) & Hl). apply list_elem_of_In in Ht, Hl.
    rewrite Forall_forall in Hfs. revert Hl. apply own_key_apart; [apply Hf|by apply Hfs|].
    apply (members_from_later msg link rest gid (S j) ms j); [lia|done].
  - eapply untouched_trans; eapply untouched_weaken; [|exact Hu1| |exact Hu2]; simpl; set_solver.
Qed.

Lemma createGroupIfAbsent_fresh q gid ids cb (Q : result Z → world → Prop) w :
  quiet w → ids ≠ [] →
  key_exists (wks w) (TaskKey K q cb) = false → key_exists (wks w) (GroupKey K q gid) = false →
  (∀ w', quiet w' → set_at (wks w') (GroupKey K q gid) = list_to_set ids →
     untouched [GroupKey K q gid; GroupResultKey K q gid] (wks w) (wks w') →
     Q (Ok GroupStageCreated) w') →
  wpm (CreateGroupIfAbsent K q gid ids cb) Q w.
Proof.
  intros Hw Hids Hcb Hg HQ. unfold CreateGroupIfAbsent. rewrite bool_decide_false by done.
  apply wpm_run_quiet; [done|]. unfold createGroupIfAbsentCmd. wps_steps. rewrite Hcb.
  wps_steps. rewrite Hg. wps_steps.
  assert (GroupResultKey K q gid ≠ GroupKey K q gid) as Hne
    by by intros E%(queueKey_inj K q (KGroupResult gid) (KGroup gid)).
  assert (set_at (wks w) (GroupKey K q gid) = ∅) as Hempty by (by apply key_exists_set).
  apply (wps_foreach_inv (λ l m, set_at m (GroupKey K q gid) = list_to_set l ∧
           untouched [GroupKey K q gid; GroupResultKey K q gid] (wks w) m)).
  - split; [done|]. by intros k _.
  - intros l1 x l2 m' _ [Hs Hu]. wps_steps. split.
    + unfold set_at. cbn [do_sadd set_set k_set]. rewrite s_at_add, decide_True by done.
      fold (set_at m' (GroupKey K q gid)). rewrite Hs, list_to_set_app_L. set_solver.
    + eapply untouched_trans; [exact Hu|]. eapply untouched_weaken, untouched_sadd. set_solver.
  - intros m' [Hs Hu]. wps_steps. intros s' Hs'.
    apply (HQ (set_store s' w)); [done| |]; rewrite wks_set_store, Hs'.
    + unfold set_at in *. simpl. rewrite s_at_delete, decide_False by done. done.
    + eapply untouched_trans; [exact Hu|]. intros k Hk.
      assert (GroupResultKey K q gid ≠ k) by set_solver.
      unfold hash_at, set_at. simpl. rewrite h_at_delete, s_at_delete, key_exists_del.
      by rewrite !decide_False by done.
Qed.

(** The names the group waits for are those of the members. *)
Lemma memberIDs_of_stage msg link rest gid ms :
  imap (λ j _, gid +:+ ":m" +:+ itoa (Z.of_nat j)) ms
  = map m_ID (imap (stageMember msg link rest gid) ms).
Proof. by rewrite map_imap. Qed.

Lemma callback_place msg link rest gid j m :
  m_Queue (callbackMessage (stageMember msg link rest gid j m) link) = cl_Queue link ∧
  m_ID (callbackMessage (stageMember msg link rest gid j m) link) = gid +:+ ":cb".
Proof. unfold callbackMessage. by case_bool_decide. Qed.

(** Creating the group leaves the tasks' keys alone. *)
Lemma fresh_group q gid m m' t :
  brace_free q → untouched [GroupKey K q gid; GroupResultKey K q gid] m m' → fresh m t → fresh m' t.
Proof.
  intros Hq Hu Ht. eapply fresh_untouched; [|exact Hu|done].
  rewrite !not_elem_of_cons. split_and!; [..|apply not_elem_of_nil].
  - intros E. by apply (queueKey_iff K K _ _ (KTask (m_ID t)) (KGroup gid) HK HK (proj1 Ht) Hq)
      in E as (_ & _ & ?).
  - intros E. by apply (queueKey_iff K K _ _ (KTask (m_ID t)) (KGroupResult gid) HK HK (proj1 Ht) Hq)
      in E as (_ & _ & ?).
Qed.

(** Creating the tasks leaves the group alone. *)
Lemma set_at_tasks q gid ts m m' :
  brace_free q → Forall (λ t, brace_free (m_Queue t)) ts →
  untouched (concat (map keys_of ts)) m m' → set_at m' (GroupKey K q gid) = set_at m (GroupKey K q gid).
Proof.
  intros Hq Hts Hu. destruct (Hu (GroupKey K q gid)) as (_ & Es & _); [|exact Es].
  rewrite list_elem_of_In, in_concat. setoid_rewrite in_map_iff.
  intros (l & (t & <- & Ht) & Hl). apply list_elem_of_In in Ht, Hl.
  revert Hl. apply group_key_apart; [done|]. rewrite Forall_forall in Hts. by apply Hts.
Qed.

Lemma enqueueNextGroup_fresh msg link rest gid ts w :
  gid = stage_id msg → ts = imap (stageMember msg link rest gid) (cl_Group link) → ts ≠ [] →
  quiet w → Forall (fresh (wks w)) ts → brace_free (cl_Queue link) →
  key_exists (wks w) (TaskKey K (cl_Queue link) (gid +:+ ":cb")) = false →
  key_exists (wks w) (GroupKey K (cl_Queue link) gid) = false →
  wpm (enqueueNextGroup K msg link rest) (λ r w', r = Ok () ∧
    Forall2 (stored (wks w')) ts (map (λ m, wrap64 (gm_Delay m * Second)) (cl_Group link)) ∧
    set_at (wks w') (GroupKey K (cl_Queue link) gid) = list_to_set (map m_ID ts)) w.
Proof.
  intros Egid Ets Hne Hw Hf Hq Hcb Hg. unfold enqueueNextGroup.
  change (m_ChainID msg +:+ _) with (stage_id msg). rewrite <- Egid.
  rewrite (memberIDs_of_stage msg link rest), <- Ets.
  apply wpm_bind, createGroupIfAbsent_fresh; [done|by destruct ts|done|done|].
  intros w1 Hw1 Hset Hu. rewrite bool_decide_false by done.
  apply wpm_bind. rewrite bool_decide_false by done. apply wpm_ret.
  change (imap _ (cl_Group link)) with (members_from msg link rest gid 0 (cl_Group link)) in Ets.
  apply enqueueMembers_fresh; rewrite <- ?Ets.
  - done.
  - eapply Forall_impl; [exact Hf|]. intros t. by eapply fresh_group.
  - intros w2 Hw2 Hst Hu2. split_and!; [done..|]. rewrite <- Hset. eapply set_at_tasks; [done| |done].
    eapply Forall_impl; [exact Hf|]. by intros t [? _].
Qed.

(** What an undisturbed hand-over of [s] by [msg] establishes. *)
Definition stage_stored (msg : TaskMessage) (s : list TaskMessage * TaskMessage) (m : keyspace) : Prop :=
  Forall2 (stored m) (stage_tasks s) (stage_delays msg) ∧
  (s.1 ≠ [] → set_at m (GroupKey K (m_Queue s.2) (stage_id msg)) = list_to_set (map m_ID s.1)).

Lemma next_stage_inv msg s :
  next_stage msg = Some s →
  ∃ link rest, m_Chain msg = link :: rest ∧
    ((cl_Group link = [] ∧ s = ([], nextMessage msg link rest)) ∨
     (cl_Group link ≠ [] ∧ ∃ cb, m_Queue cb = cl_Queue link ∧ m_ID cb = stage_id msg +:+ ":cb" ∧
        s = (imap (stageMember msg link rest (stage_id msg)) (cl_Group link), cb))).
Proof.
  unfold next_stage. destruct (m_Chain msg) as [|link rest]; [done|]. intros H.
  exists link, rest. split; [done|]. destruct (cl_Group link) as [|m ms] eqn:El; injection H as <-.
  - by left.
  - right. split; [done|]. eexists. split_and!; [apply callback_place|apply callback_place|done].
Qed.

Lemma enqueueNext_fresh msg s w :
  quiet w → next_stage msg = Some s →
  Forall (fresh (wks w)) (stage_tasks s) →
  (s.1 ≠ [] → fresh (wks w) s.2 ∧
     key_exists (wks w) (GroupKey K (m_Queue s.2) (stage_id msg)) = false) →
  wpm (enqueueNext K msg) (λ r w', r = Ok () ∧ stage_stored msg s (wks w')) w.
Proof.
  intros Hw (link & rest & Ec & [[Eg ->] | (Hne & cb & Eq & Eid & ->)])%next_stage_inv Hf Hg.
  - unfold enqueueNext. rewrite Ec, bool_decide_false by (rewrite Eg; auto).
    apply (proj1 (Forall_singleton _ _)) in Hf. apply wpm_bind, EnqueueChainLink_fresh; [done..|].
    intros w' Hw' Hst _. apply wpm_ret. split; [done|]. split; [|done].
    unfold stage_delays. rewrite Ec, Eg. constructor; [done|constructor].
  - unfold enqueueNext. rewrite Ec, bool_decide_true by done.
    set (ts := imap _ _) in *.
    assert (ts ≠ []) as Hts by (unfold ts; by destruct (cl_Group link)).
    assert (stage_tasks (ts, cb) = ts) as Et by by destruct ts.
    rewrite Et in Hf. destruct Hg as [[Hq Hcb] Hgk]; [done|]. simpl in Hq, Hcb, Hgk.
    rewrite Eid in Hcb. rewrite Eq in *.
    eapply wpm_mono; [by apply (enqueueNextGroup_fresh msg link rest (stage_id msg) ts)|].
    intros r w' (-> & Hst & Hset). split; [done|]. unfold stage_stored. rewrite Et. simpl. rewrite Eq.
    split; [|done]. unfold stage_delays. rewrite Ec. by destruct (cl_Group link).
Qed.


End handover.

#[global] Instance fresh_dec `{R : Redis} K m t : Decision (fresh K m t).
Proof. unfold fresh. apply _. Defined.

(** A success in the first stage of the workflow, in an empty Redis. *)
Definition demo_first : TaskMessage :=
  match buildChain 0 "c" demo_workflow with
  | Ok (msg, _) => with_Result "fetched" msg
  | Err _ => newMessage "c:0" "fetch" "" "default" 3 false 0
  end.

Definition demo_stage : list TaskMessage * TaskMessage :=
  default ([], demo_first) (next_stage demo_first).


End WorkflowSpec.
