(* ===== verification/ChainSpec.v ===== *)
(** * A chain runs to its end

    Enqueueing a chain of single links, fetching its tasks and processing
    them, composed: what one worker delivers and what is left in Redis when
    no operation fails and every handler succeeds. *)

From S2P Require Import Prelude GoLib Base Redis RedisFacts Client RdbCore RdbLocks RdbFlow Schedule Options Builder.
From S2P Require Import Instances Retry Handler Server CoreSpec FlowSpec ServerSpec BuilderSpec WorkflowSpec CrashSpec.
From Stdlib Require Import Ascii.

Module ChainSpec.
Import GoTime GoFloat GoStr Keys Task Redis RedisFacts Client RdbCore RdbLocks RdbFlow Schedule Options Builder.
Import Retry Handler Server CoreSpec FlowSpec ServerSpec BuilderSpec WorkflowSpec.

#[local] Arguments mbind {_ _ _ _} _ _ : simpl never.

(** A command on a stream leaves the other keys alone. *)
Lemma key_exists_stream_ne f k m k' :
  (∀ x : streams, f x !! k' = x !! k') → k ≠ k' → key_exists (set_stream f m) k' = key_exists m k'.
Proof. intros Hf Hk. apply key_exists_ext; [done..|]. apply Hf. Qed.

Lemma x_group_ne k g f x k' : k ≠ k' → x_group k g f x !! k' = x !! k'.
Proof. intros Hk. unfold x_group. case_match; [by rewrite lookup_insert_ne|done]. Qed.

Lemma x_del_ne k ids x k' : k ≠ k' → x_del k ids x !! k' = x !! k'.
Proof. intros Hk. unfold x_del. case_match; [by rewrite lookup_insert_ne|done]. Qed.

Lemma x_add_ne k e y x k' : k ≠ k' → x_add k e y x !! k' = x !! k'.
Proof. intros Hk. unfold x_add. by rewrite lookup_insert_ne. Qed.

Lemma filter_others (e : sid) (es : list (sid * string)) :
  e ∉ map fst es → filter (λ x, x.1 ∉ [e]) es = es.
Proof.
  induction es as [|[e' x] es IH]; intros He; [done|]. simpl in He.
  rewrite filter_cons_True by (simpl; set_solver). f_equal. apply IH. set_solver.
Qed.

Section chain.
Context `{R : Redis} `{J : Json} (K : Keys) (HK : valid_keys K) (q : string) (Hq : brace_free q).

(** ** The queue between two steps

    The stream, the group, the body of the current task [T], and the other
    tasks of the chain, which are not stored. *)
Record track (m : keyspace) (es : list (sid * string)) (gr : group) (b T : string) (others : gset string) : Prop :=
  MkTrack {
  tr_entries : st_entries (stream_at m (StreamKey K q)) = es;
  tr_group : group_at m (StreamKey K q) ConsumerGroup = Some gr;
  tr_last : (g_last gr ≤ st_last (stream_at m (StreamKey K q)))%Z;
  tr_body : hget m (TaskKey K q T) "msg" = Some b;
  tr_others : ∀ x, x ∈ others → key_exists m (TaskKey K q x) = false;
}.

Lemma stream_not_task x : StreamKey K q ≠ TaskKey K q x.
Proof. by intros E%(queueKey_inj K q KStream (KTask x)). Qed.

Lemma track_hset_state m es gr b T X s :
  track m es gr b T X → T ∉ X → track (do_hset (TaskKey K q T) [("state", s)] m) es gr b T X.
Proof.
  intros [] HT. constructor; try done.
  - unfold hget, hash_at in *; simpl. rewrite h_at_set, decide_True by done. simpl. by rewrite lookup_insert_ne.
  - intros x Hx. rewrite key_exists_hset_ne; [by apply tr_others0|]. intros E%TaskKey_inj. by subst.
Qed.

Lemma track_set_group m es gr b T X f :
  track m es gr b T X → (g_last (f gr) ≤ st_last (stream_at m (StreamKey K q)))%Z →
  track (set_group (StreamKey K q) ConsumerGroup f m) es (f gr) b T X.
Proof.
  intros [] Hf. constructor; try done.
  - unfold stream_at; simpl. by rewrite x_at_group, decide_True.
  - unfold group_at, stream_at in *; simpl. rewrite x_at_group, decide_True by done. simpl.
    by rewrite lookup_alter, decide_True, tr_group0 by done.
  - unfold stream_at in *; simpl. by rewrite x_at_group, decide_True.
  - intros x Hx. pose proof (stream_not_task x). etrans; [|by apply (tr_others0 x)].
    apply (key_exists_stream_ne _ (StreamKey K q)); [|done]. intros y. by apply x_group_ne.
Qed.

(** The next task is created. *)
Lemma track_next m es gr b T X T' enc s e :
  track m es gr b T X → T' ∈ X → (st_last (stream_at m (StreamKey K q)) < e)%Z →
  track (do_xadd (StreamKey K q) e T' (do_hset (TaskKey K q T') [("msg", enc); ("state", s)] m))
    (es ++ [(e, T')]) gr enc T' (X ∖ {[T']}).
Proof.
  intros [] HT He. constructor.
  - unfold stream_at in *; simpl. rewrite x_at_add, decide_True by done. simpl. by rewrite tr_entries0.
  - unfold group_at, stream_at in *; simpl. rewrite x_at_add, decide_True by done. simpl. done.
  - unfold stream_at in *; simpl. rewrite x_at_add, decide_True by done. simpl. lia.
  - unfold hget, hash_at; simpl. rewrite h_at_set, decide_True by done. simpl.
    by rewrite lookup_insert_ne, lookup_insert_eq.
  - intros x [Hx Hne]%elem_of_difference. pose proof (stream_not_task x).
    etrans; [apply (key_exists_stream_ne _ (StreamKey K q)); [|done]; intros y; by apply x_add_ne|].
    rewrite key_exists_hset_ne by (intros E%TaskKey_inj; set_solver). by apply tr_others0.
Qed.

(** Acknowledging and deleting a task. *)
Definition settle (e : sid) (T : string) (m : keyspace) : keyspace :=
  del_key (TaskKey K q T) (do_xdel (StreamKey K q) [e] (do_xack (StreamKey K q) ConsumerGroup [e] m)).

Lemma settle_stream e T m es :
  st_entries (stream_at m (StreamKey K q)) = (e, T) :: es → e ∉ map fst es →
  st_entries (stream_at (settle e T m) (StreamKey K q)) = es ∧
  st_last (stream_at (settle e T m) (StreamKey K q)) = st_last (stream_at m (StreamKey K q)).
Proof.
  intros Es He. pose proof (stream_not_task T). unfold stream_at in *; simpl.
  rewrite x_at_delete, decide_False by done. rewrite x_at_del, decide_True by done. simpl.
  rewrite x_at_group, decide_True by done. simpl. split; [|done].
  rewrite Es, filter_cons_False by (simpl; set_solver). by apply filter_others.
Qed.

Lemma settle_group e T m l p :
  group_at m (StreamKey K q) ConsumerGroup = Some (Redis.MkGroup l {[e := p]}) →
  group_at (settle e T m) (StreamKey K q) ConsumerGroup = Some (Redis.MkGroup l ∅).
Proof.
  intros Eg. pose proof (stream_not_task T). unfold group_at, stream_at in *; simpl.
  rewrite x_at_delete, decide_False by done. rewrite x_at_del, decide_True by done. simpl.
  rewrite x_at_group, decide_True by done. simpl.
  rewrite lookup_alter, decide_True, Eg by done. simpl. do 2 f_equal. apply delete_singleton_eq.
Qed.

Lemma settle_gone e T m (X : gset string) :
  (∀ x, x ∈ X → key_exists m (TaskKey K q x) = false) →
  ∀ x, x ∈ {[T]} ∪ X → key_exists (settle e T m) (TaskKey K q x) = false.
Proof.
  intros HX x Hx. unfold settle. rewrite key_exists_del. case_decide as Hd; [done|].
  apply elem_of_union in Hx as [->%elem_of_singleton|Hx]; [done|].
  pose proof (stream_not_task x). etrans; [|by apply (HX x)]. unfold do_xdel, do_xack.
  rewrite (key_exists_stream_ne _ (StreamKey K q)); [|intros y; by apply x_del_ne|done].
  apply (key_exists_stream_ne _ (StreamKey K q)); [|done]. intros y. by apply x_group_ne.
Qed.

Lemma track_done m e T es l p b T' X :
  track m ((e, T) :: es) (Redis.MkGroup l {[e := p]}) b T' X → T ≠ T' → e ∉ map fst es →
  track (settle e T m) es (Redis.MkGroup l ∅) b T' ({[T]} ∪ X).
Proof.
  intros [] HT He. destruct (settle_stream e T m es) as [E1 E2]; [done..|]. constructor.
  - done.
  - by eapply settle_group.
  - by rewrite E2.
  - unfold hget, hash_at in *; simpl. rewrite h_at_delete, decide_False; [done|]. by intros E%TaskKey_inj.
  - by apply settle_gone.
Qed.

Lemma track_index m m1 es gr b T X ks :
  (m1 = m ∨ m1 = do_sadd (QueuesKey K) ks m) → track m es gr b T X → track m1 es gr b T X.
Proof.
  intros Hm []. constructor; try (by destruct Hm as [-> | ->]).
  intros x Hx. rewrite (task_exists_index K q x ks m m1 HK Hm). by apply tr_others0.
Qed.

(** A task nobody has read, a task in its worker's hands, and the end. *)
Definition ready (m : keyspace) (msg : TaskMessage) (X : gset string) : Prop :=
  ∃ st e l, track m [(e, m_ID msg)] (Redis.MkGroup l ∅) (EncodeMessage (with_State st msg)) (m_ID msg) X ∧
            (l < e ≤ st_last (stream_at m (StreamKey K q)))%Z.

Definition taken (m : keyspace) (T : string) (e : sid) (X : gset string) : Prop :=
  ∃ p b, track m [(e, T)] (Redis.MkGroup e {[e := p]}) b T X.

Record clear (m : keyspace) (X : gset string) : Prop := MkClear {
  cl_entries : st_entries (stream_at m (StreamKey K q)) = [];
  cl_group : ∃ l, group_at m (StreamKey K q) ConsumerGroup = Some (Redis.MkGroup l ∅) ∧
                  (l ≤ st_last (stream_at m (StreamKey K q)))%Z;
  cl_gone : ∀ x, x ∈ X → key_exists m (TaskKey K q x) = false;
}.

Lemma clear_done m e T l p b X :
  track m [(e, T)] (Redis.MkGroup l {[e := p]}) b T X → clear (settle e T m) ({[T]} ∪ X).
Proof.
  intros []. destruct (settle_stream e T m []) as [E1 E2]; [done|by apply not_elem_of_nil|]. constructor.
  - done.
  - exists l. rewrite E2. split; [by eapply settle_group|done].
  - by apply settle_gone.
Qed.

(** The first task is created. *)
Lemma track_zrem m es gr b T X k x :
  (∀ y, k ≠ TaskKey K q y) → track m es gr b T X → track (do_zrem k x m) es gr b T X.
Proof.
  intros Hk []. constructor; try done. intros y Hy. etrans; [|by apply (tr_others0 y)].
  apply key_exists_ext; try done. simpl. unfold z_rem. case_match; [by rewrite lookup_delete_ne|].
  by rewrite lookup_insert_ne.
Qed.

Lemma clear_track m T X enc s e :
  clear m ({[T]} ∪ X) → T ∉ X → (st_last (stream_at m (StreamKey K q)) < e)%Z →
  ∃ l, (l < e)%Z ∧
    track (do_xadd (StreamKey K q) e T (do_hset (TaskKey K q T) [("msg", enc); ("state", s)] m))
      [(e, T)] (Redis.MkGroup l ∅) enc T X.
Proof.
  intros [Hes (l & Hg & Hl) Hx] HT He. exists l. split; [lia|]. constructor.
  - unfold stream_at in *; simpl. rewrite x_at_add, decide_True by done. simpl. by rewrite Hes.
  - unfold group_at, stream_at in *; simpl. rewrite x_at_add, decide_True by done. simpl. done.
  - unfold stream_at in *; simpl. rewrite x_at_add, decide_True by done. simpl. lia.
  - unfold hget, hash_at; simpl. rewrite h_at_set, decide_True by done. simpl.
    by rewrite lookup_insert_ne, lookup_insert_eq.
  - intros x Hin. pose proof (stream_not_task x).
    etrans; [apply (key_exists_stream_ne _ (StreamKey K q)); [|done]; intros y; by apply x_add_ne|].
    rewrite key_exists_hset_ne by (intros E%TaskKey_inj; set_solver). apply Hx. set_solver.
Qed.

Lemma clear_index m m1 X ks :
  (m1 = m ∨ m1 = do_sadd (QueuesKey K) ks m) → clear m X → clear m1 X.
Proof.
  intros Hm []. constructor; try (by destruct Hm as [-> | ->]).
  intros x Hx. rewrite (task_exists_index K q x ks m m1 HK Hm). auto.
Qed.

Lemma Enqueue_clear msg X (Q : result () → world → Prop) w :
  quiet w → m_Queue msg = q → clear (wks w) ({[m_ID msg]} ∪ X) → m_ID msg ∉ X →
  (∀ w', quiet w' → ready (wks w') msg X → Q (Ok ()) w') →
  wpm (Enqueue K msg) Q w.
Proof.
  intros Hw Eq Hc HX HQ. unfold Enqueue. simpl. rewrite Eq. apply wpm_bind, registerQueue_quiet; [done|].
  intros w1 Hw1 _ Hm1. apply (clear_index _ _ _ _ Hm1) in Hc.
  apply wpm_bind, wpm_run_quiet; [done|]. unfold enqueueCmd. wps_steps.
  match goal with H : (_ < ?id)%Z |- _ => rename H into Hid; rename id into e end.
  intros s' Hs'. apply wpm_ret, (HQ (set_store s' w1)); [done|]. rewrite wks_set_store, Hs'.
  destruct (clear_track _ _ _ (EncodeMessage (with_State StatePending msg)) (itoa StatePending) e Hc HX Hid)
    as (l & Hl & Ht).
  exists StatePending, e, l. split.
  - apply track_zrem; [by intros y E%(queueKey_inj K q KArchived (KTask y))|].
    apply track_zrem; [by intros y E%(queueKey_inj K q KCompleted (KTask y))|]. exact Ht.
  - unfold stream_at in *. simpl in *. rewrite x_at_add, decide_True by done. simpl. lia.
Qed.

(** *** The steps *)

Lemma deliver_ready msg X worker n (Q : result (list Dequeued) → world → Prop) w :
  quiet w → utf8_msg msg = true → ready (wks w) msg X → m_ID msg ∉ X →
  (∀ e w', quiet w' → taken (wks w') (m_ID msg) e X →
     Q (Ok [MkDequeued (with_State StateActive msg) e]) w') →
  wpm (DequeueBatch K worker q n) Q w.
Proof.
  intros Hw Hu (st & e & l & Ht & Hle & Hlast) HX HQ. pose proof Ht as [? ? ? ? ?].
  eapply (DequeueBatch_one K q msg); [done|done|done|by apply CrashSpec.undelivered_one|done|]. intros w' Hw' E. apply (HQ e); [done|]. rewrite E.
  eexists _, _. apply track_hset_state; [|done].
  refine (track_set_group _ _ _ _ _ _ (deliver worker (k_now (wks w)) [(e, m_ID msg)]) Ht _). exact Hlast.
Qed.

(** The successor is stored while its predecessor is still claimed. *)
Lemma hand_over next T e X (Q : result bool → world → Prop) w :
  quiet w → taken (wks w) T e X → m_Queue next = q → m_ID next ∈ X →
  (∀ e' p w', quiet w' → (e < e' ≤ st_last (stream_at (wks w') (StreamKey K q)))%Z →
     track (wks w') [(e, T); (e', m_ID next)] (Redis.MkGroup e {[e := p]})
       (EncodeMessage (with_State StatePending next)) (m_ID next) (X ∖ {[m_ID next]}) →
     Q (Ok true) w') →
  wpm (EnqueueChainLink K next 0) Q w.
Proof.
  intros Hw (p & b & Ht) Eq Hin HQ. unfold EnqueueChainLink. rewrite Eq.
  apply wpm_bind, registerQueue_quiet; [done|]. intros w1 Hw1 _ Hm1.
  apply (track_index _ _ _ _ _ _ _ _ Hm1) in Ht.
  change (bool_decide (0 < 0)%Z) with false. cbv iota. apply wpm_bind, wpm_run_quiet; [done|].
  cbn [m_Queue m_ID with_State]. rewrite Eq. unfold chainEnqueueCmd. wps_steps.
  rewrite (tr_others _ _ _ _ _ _ Ht) by done. wps_steps.
  match goal with H : (_ < ?id)%Z |- _ => rename H into Hid; rename id into e' end.
  intros s' Hs'. apply wpm_ret. apply (HQ e' p (set_store s' w1)); [done|..]; rewrite wks_set_store, Hs'.
  - pose proof (tr_last _ _ _ _ _ _ Ht) as Hl. unfold stream_at in *. simpl in *.
    rewrite x_at_add, decide_True by done. simpl. lia.
  - exact (track_next _ _ _ _ _ _ _ (EncodeMessage (with_State StatePending next)) (itoa StatePending) e' Ht Hin Hid).
Qed.

(** [Done] of a task that keeps nothing behind. *)
Lemma Done_plain e msg (Q : result () → world → Prop) w :
  quiet w → (m_Retention msg ≤ 0)%Z → m_UniqueKey msg = "" →
  (∀ w', quiet w' →
     wks w' = settle e (m_ID msg) (wks w) → Q (Ok ()) w') →
  wpm (Done K q e msg) Q w.
Proof.
  intros Hw Hr Hu HQ. unfold Done. rewrite bool_decide_false by lia.
  apply wpm_bind, wpm_run_quiet; [done|]. unfold doneTx. wps_steps. intros s' Hs'.
  unfold releaseUnique. rewrite bool_decide_true by done. apply wpm_ret, HQ; [done|].
  by rewrite wks_set_store, Hs'.
Qed.

(** ** The chain

    [f] is the result of each task's handler; every link is a single task on
    the queue that is due at once and keeps nothing behind. *)
Context (quote : string → string) (sha256hex : bytes → string) (cfg : ServerConfig) (mux : Mux).
Context (f : TaskMessage → bytes).

Definition handled (t : TaskMessage) : Prop := dispatchSafely quote mux t = (with_Result (f t) t, None).

Definition active (msg : TaskMessage) : TaskMessage := with_State StateActive msg.
Definition finished (msg : TaskMessage) : TaskMessage := with_Result (f (active msg)) (active msg).

(** The tasks as they are delivered, each with its predecessor's result. *)
Fixpoint journey (links : list ChainLink) (msg : TaskMessage) : list TaskMessage :=
  active msg :: match links with
                | [] => []
                | link :: rest => journey rest (nextMessage (finished msg) link rest)
                end.

Record plain (msg : TaskMessage) : Prop := MkPlain {
  pl_queue : m_Queue msg = q;
  pl_group : m_GroupID msg = "";
  pl_unique : m_UniqueKey msg = "";
  pl_retention : (m_Retention msg ≤ 0)%Z;
}.

Record plain_link (l : ChainLink) : Prop := MkPlainLink {
  pk_group : cl_Group l = [];
  pk_queue : cl_Queue l = q;
  pk_delay : cl_Delay l = 0%Z;
  pk_retention : (cl_Retention l ≤ 0)%Z;
}.

Lemma plain_next msg link rest : plain msg → plain_link link → plain (nextMessage (finished msg) link rest).
Proof. intros [] []. by constructor. Qed.

(** Processing a task that has a successor, and the last one. *)
Lemma process_link e msg link rest X w :
  quiet w → taken (wks w) (m_ID msg) e X → plain msg → m_Chain msg = link :: rest → plain_link link →
  handled (active msg) → let next := nextMessage (finished msg) link rest in
  m_ID next ∈ X → m_ID msg ∉ X →
  wpm (process K quote cfg mux q e (active msg))
    (λ r w', (∃ l, r = Ok l) ∧ quiet w' ∧ ready (wks w') next ({[m_ID msg]} ∪ X ∖ {[m_ID next]})) w.
Proof.
  intros Hw Ht [Pq Pg Pu Pr] Ec [Lg Lq Ld Lr] Hh next Hin Hni. unfold process. rewrite Hh.
  fold (finished msg). unfold processSuccess. cbn [m_Chain finished active with_Result with_State].
  rewrite Ec, bool_decide_true by done. apply wpm_bind, wpm_try. unfold enqueueNextWithRetry, withRetry.
  apply wpm_bind, wpm_try. unfold enqueueNext. cbn [m_Chain finished active with_Result with_State].
  rewrite Ec, Lg, bool_decide_false by auto. apply wpm_bind. rewrite Ld.
  change (wrap64 (0 * Second)) with 0%Z. eapply (hand_over next); [done|exact Ht|done|done|].
  intros e' p w1 Hw1 He Ht1. apply wpm_ret, wpm_ret. cbv beta iota.
  cbn [m_GroupID finished active with_Result with_State with_Chain]. rewrite Pg.
  rewrite bool_decide_false by auto. apply wpm_bind, wpm_ret. apply wpm_bind. unfold logged.
  apply wpm_bind, wpm_try, Done_plain; [done|done|done|]. intros w2 Hw2 E.
  apply wpm_ret, wpm_ret. split; [by eexists|]. split; [done|]. exists StatePending, e', e.
  rewrite E. split.
  - apply (track_done _ e (m_ID msg) _ e p); [exact Ht1|intros E3; apply Hni; by rewrite E3|].
    simpl. intros ->%list_elem_of_singleton. lia.
  - destruct (settle_stream e (m_ID msg) (wks w1) [(e', m_ID next)]) as [_ Elast];
      [apply Ht1|simpl; intros ->%list_elem_of_singleton; lia|].
    change (m_ID (with_Chain [] (finished msg))) with (m_ID msg). by rewrite Elast.
Qed.

Lemma process_last e msg X w :
  quiet w → taken (wks w) (m_ID msg) e X → plain msg → m_Chain msg = [] → handled (active msg) →
  wpm (process K quote cfg mux q e (active msg))
    (λ r w', (∃ l, r = Ok l) ∧ quiet w' ∧ clear (wks w') ({[m_ID msg]} ∪ X)) w.
Proof.
  intros Hw (p & b & Ht) [Pq Pg Pu Pr] Ec Hh. unfold process. rewrite Hh.
  fold (finished msg). unfold processSuccess. cbn [m_Chain finished active with_Result with_State].
  rewrite Ec, bool_decide_false by auto. apply wpm_bind, wpm_ret. cbv beta iota.
  cbn [m_GroupID finished active with_Result with_State]. rewrite Pg, bool_decide_false by auto.
  apply wpm_bind, wpm_ret. apply wpm_bind. unfold logged.
  apply wpm_bind, wpm_try, Done_plain; [done|done|done|]. intros w2 Hw2 E.
  apply wpm_ret, wpm_ret. split; [by eexists|]. split; [done|]. rewrite E.
  exact (clear_done _ e _ e p b X Ht).
Qed.

(** ** One worker, one round after the other *)

Definition worker_round (worker : string) (n : Z) : M (list TaskMessage) :=
  r ← try (DequeueBatch K worker q n);
  let ds := match r with Ok ds => ds | Err _ => [] end in
  go_foldl (λ _ d, process K quote cfg mux q (dq_StreamID d) (dq_Msg d);; mret ()) () ds;;
  mret (map dq_Msg ds).

Fixpoint worker_rounds (worker : string) (n : Z) (k : nat) : M (list (list TaskMessage)) :=
  match k with
  | 0 => mret []
  | S k => ts ← worker_round worker n; l ← worker_rounds worker n k; mret (ts :: l)
  end.

Lemma journey_runs worker n links msg X w :
  quiet w → ready (wks w) msg X → m_Chain msg = links → plain msg → Forall plain_link links →
  Forall (λ t, utf8_msg t = true ∧ handled t) (journey links msg) →
  m_ID msg ∉ X →
  Forall (λ t, m_ID t ∈ {[m_ID msg]} ∪ X) (journey links msg) →
  (∀ l1 t t' l2, journey links msg = l1 ++ t :: t' :: l2 → m_ID t ≠ m_ID t') →
  wpm (worker_rounds worker n (length (journey links msg)))
    (λ r w', r = Ok (map (λ t, [t]) (journey links msg)) ∧ quiet w' ∧ clear (wks w') ({[m_ID msg]} ∪ X)) w.
Proof.
  revert msg X w. induction links as [|link rest IH]; intros msg X w Hw Hr Ec Hp Hl Hj HX Hin Hne.
  - apply Forall_cons in Hj as [[Hu Hh] _]. simpl. apply wpm_bind. unfold worker_round. apply wpm_bind, wpm_try.
    apply (deliver_ready msg X); [done|by destruct msg|done|done|]. intros e w1 Hw1 Ht.
    apply wpm_bind. cbn [go_foldl dq_Msg dq_StreamID]. apply wpm_bind, wpm_bind.
    eapply wpm_mono; [by apply process_last|]. intros r w2 ([l ->] & Hw2 & Hs).
    apply wpm_ret, wpm_ret, wpm_ret. apply wpm_bind, wpm_ret, wpm_ret. done.
  - apply Forall_cons in Hl as [Hl Hls]. cbn [journey] in Hj, Hin, Hne |- *.
    apply Forall_cons in Hj as [[Hu Hh] Hj]. apply Forall_cons in Hin as [_ Hin].
    set (next := nextMessage (finished msg) link rest) in *.
    assert (∃ js, journey rest next = active next :: js) as [js Ej] by (destruct rest; by eexists).
    assert (m_ID msg ≠ m_ID next) as Hneq by exact (Hne [] _ _ js ltac:(by rewrite Ej)).
    assert (m_ID next ∈ X) as HnX.
    { rewrite Ej in Hin. apply Forall_cons in Hin as [Hin _]. simpl in Hin. set_solver. }
    assert ({[m_ID next]} ∪ ({[m_ID msg]} ∪ X ∖ {[m_ID next]}) = {[m_ID msg]} ∪ X) as EX.
    { apply set_eq. intros x. destruct (decide (x = m_ID next)); set_solver. }
    simpl. apply wpm_bind. unfold worker_round. apply wpm_bind, wpm_try.
    apply (deliver_ready msg X); [done|by destruct msg|done|done|]. intros e w1 Hw1 Ht.
    apply wpm_bind. cbn [go_foldl dq_Msg dq_StreamID]. apply wpm_bind, wpm_bind.
    eapply wpm_mono; [by eapply process_link|]. intros r w2 ([l ->] & Hw2 & Hr2). fold next in Hr2.
    apply wpm_ret, wpm_ret, wpm_ret. apply wpm_bind.
    eapply wpm_mono; [apply (IH next _ w2 Hw2 Hr2)|].
    + done.
    + by apply plain_next.
    + done.
    + done.
    + set_solver.
    + eapply Forall_impl; [exact Hin|]. intros t. cbv beta. by rewrite EX.
    + intros l1 t t' l2 E. apply (Hne (active msg :: l1) t t' l2). by rewrite E.
    + rewrite EX. intros r' w3 (-> & Hw3 & Hs). by apply wpm_ret.
Qed.

(** ** From the caller to the last link *)

Definition immediate (now : Z) (st : chainStage) : Prop :=
  match st with
  | Link _ opts =>
      let o := resolve now opts in o_queue o = q ∧ o_processAt o = zeroTime ∧ o_retention o = 0%Z
  | Parallel _ => False
  end.

Lemma immediate_link now i st last l :
  snapshotStage now i st last = Ok l → immediate now st → plain_link l.
Proof.
  destruct st as [args opts|g]; [|done]. simpl. intros H (Eq & Ea & Er).
  apply rwrap_ok in H. unfold snapshotChainLink in H.
  apply rbind_ok in H as (o & (-> & _)%resolveChainOptions_ok & H).
  apply guard_ok in H as [_ H]. apply guard_ok in H as [_ H].
  apply rbind_ok in H as (b & _ & [= <-]). constructor; simpl; try done.
  - unfold captureRelativeDelay. by rewrite Ea.
  - unfold retentionSeconds. by rewrite Er.
Qed.

Lemma immediate_links now i l ls :
  snapshotStages now i l = Ok ls → Forall (immediate now) l → Forall plain_link ls.
Proof.
  revert i ls. induction l as [|st l IH]; intros i ls H Hl; simpl in H; [by injection H as <-|].
  apply Forall_cons in Hl as [Hst Hl].
  apply rbind_ok in H as (link & Hlink & H). apply rbind_ok in H as (links & Hls & [= <-]).
  constructor; [by eapply immediate_link|by eapply IH].
Qed.

(** Consecutive tasks have different names. *)
Lemma journey_apart links msg :
  m_ID msg = m_ChainID msg +:+ ":" +:+ itoa (m_ChainIndex msg) →
  ∀ l1 t t' l2, journey links msg = l1 ++ t :: t' :: l2 → m_ID t ≠ m_ID t'.
Proof.
  revert msg. induction links as [|link rest IH]; intros msg Hid l1 t t' l2 E; cbn [journey] in E.
  { destruct l1 as [|? [|]]; simplify_eq/=. }
  destruct l1 as [|t1 l1]; simpl in E.
  - assert (m_ID t' = m_ChainID msg +:+ ":" +:+ itoa (m_ChainIndex msg + 1)) as -> by (destruct rest; by simplify_eq/=).
    injection E as <- _. simpl. rewrite Hid. intros E2.
    apply (inj (String.append (m_ChainID msg))), (inj (String.append ":")) in E2.
    unfold itoa in E2. apply (inj pretty) in E2. lia.
  - injection E as _ E. by eapply (IH (nextMessage (finished msg) link rest)).
Qed.

Lemma length_journey links msg : length (journey links msg) = S (length links).
Proof. revert msg. induction links as [|link rest IH]; intros msg; [done|]. simpl. by rewrite IH. Qed.

Lemma dispatch_immediate msg o (Q : result () → world → Prop) w :
  o_processAt o = zeroTime → (o_uniqueTTL o ≤ 0)%Z →
  wpm (Enqueue K msg) Q w → wpm (dispatchMessage K sha256hex msg o) Q w.
Proof.
  intros Ea Hu HQ. unfold dispatchMessage. apply wpm_bind, wpm_now. rewrite Ea.
  by rewrite (bool_decide_false (0 < o_uniqueTTL o)%Z) by lia.
Qed.

(** C7: a chain runs to its end.  Enqueue a chain of single links that are
    due at once, on a queue without other work, and let one worker fetch and
    process, round after round; its handlers succeed and no operation fails.
    Then every round delivers exactly one task, the links in their order, each
    with the result of the one before; and after as many rounds as the chain
    has links nothing is left in the stream or pending, and no task of the
    chain is stored any more. *)
Theorem chain_runs_to_end uuid ch msg o worker n w :
  quiet w → buildChain (w_clock w) uuid ch = Ok (msg, o) →
  Forall (immediate (w_clock w)) (stages ch) →
  let tasks := journey (m_Chain msg) msg in
  Forall (λ t, utf8_msg t = true ∧ handled t) tasks →
  clear (wks w) (list_to_set (map m_ID tasks)) →
  let r := (ChainEnqueue K sha256hex uuid ch;; worker_rounds worker n (length (stages ch))) w in
  r.2 = Ok (map (λ t, [t]) tasks) ∧ clear (wks r.1) (list_to_set (map m_ID tasks)).
Proof.
  intros Hw Hb Hi tasks Hj Hc r.
  change (wpm (ChainEnqueue K sha256hex uuid ch;; worker_rounds worker n (length (stages ch)))
    (λ r w', r = Ok (map (λ t, [t]) tasks) ∧ clear (wks w') (list_to_set (map m_ID tasks))) w).
  pose proof Hb as Hb'. unfold buildChain, snapshotTail in Hb'.
  destruct (stages ch) as [|[args opts|g] rest] eqn:Est; [done| |done].
  apply Forall_cons in Hi as [(Eq & Ea & Er) Hi].
  apply rbind_ok in Hb' as (tl & Htl & H). simpl in Htl.
  apply rbind_ok in H as (o' & Ho & H). apply rwrap_ok in Ho.
  pose proof (resolveChainOptions_ok _ _ _ Ho) as (-> & Hopts).
  apply guard_ok in H as [_ H]. apply rbind_ok in H as (b & _ & [= <- <-]).
  set (o := resolve (w_clock w) opts) in *.
  set (msg := firstMessage uuid args b o (o_noArchive o) tl) in *.
  set (X := (list_to_set (map m_ID tasks) : gset string) ∖ {[m_ID msg]}).
  assert (∃ js, tasks = active msg :: js) as [js Ejs] by (unfold tasks; destruct (m_Chain msg); by eexists).
  assert ({[m_ID msg]} ∪ X = list_to_set (map m_ID tasks)) as EX.
  { unfold X. apply set_eq. intros x. rewrite Ejs. simpl. destruct (decide (x = m_ID msg)); set_solver. }
  assert (m_ID msg ∉ X) as HX by (unfold X; set_solver).
  assert (plain msg) as Hp.
  { constructor; simpl; [done..|]. unfold retentionSeconds. by rewrite Er. }
  assert (length (Link args opts :: rest) = length tasks) as Hlen.
  { unfold tasks. rewrite length_journey. simpl. by rewrite (snapshotStages_length _ _ _ _ Htl). }
  rewrite Hlen. rewrite <- EX in Hc |- *.
  apply wpm_bind. unfold ChainEnqueue. apply wpm_bind, wpm_now, wpm_bind. rewrite Hb. apply wpm_ret.
  apply wpm_bind, (dispatch_immediate msg o); [done|apply Hopts|].
  apply (Enqueue_clear msg X); [done..|]. intros w1 Hw1 Hr1. apply wpm_ret.
  eapply wpm_mono; [apply (journey_runs worker n (m_Chain msg) msg X w1 Hw1 Hr1)|].
  - done.
  - done.
  - by eapply immediate_links.
  - exact Hj.
  - done.
  - apply Forall_forall. intros t Ht. rewrite EX. apply elem_of_list_to_set, list_elem_of_fmap. by exists t.
  - by apply journey_apart.
  - intros r' w2 (-> & _ & Hcl). by split.
Qed.

End chain.

(** Three links, whose handlers answer with what they were given. *)
Definition relay_args (payload : bytes) : TaskArgs := MkArgs "email" (Some payload).

Definition relay_chain : Chain :=
  Then (Then (Then NewChain (relay_args "fetch") [WithQueue "q"; WithMaxRetry 3])
    (relay_args "parse") [WithQueue "q"]) (relay_args "store") [WithQueue "q"; WithDeadLetterDiscard].

Definition demo_result (t : TaskMessage) : bytes := m_Payload t +:+ "!" +:+ m_PrevResult t.
Definition demo_echo : Mux := {["email" := λ t, (with_Result (demo_result t) t, Returned None)]}.

Definition demo_plain_cfg : ServerConfig :=
  newServer (λ z, z) (MkServerConfig {["q" := 1%Z]} false 2 None false NoMetrics 0 0 0 0 0 0 0 0).

Definition demo_start : world (R := RefRedis.RefRedis) := demo_world demo_grouped.

Definition relay_built : TaskMessage * enqueueOptions :=
  match buildChain (w_clock demo_start) "c" relay_chain with
  | Ok p => p
  | Err _ => (newMessage "" "" "" "" 0 false 0, defaultOptions)
  end.

Definition demo_tasks : list TaskMessage := journey demo_result (m_Chain relay_built.1) relay_built.1.

Lemma demo_tasks_handled :
  Forall (λ t, utf8_msg t = true ∧ handled (λ s, s) demo_echo demo_result t) demo_tasks.
Proof.
  assert (forallb (λ t, utf8_msg t && bool_decide (m_Kind t = "email")) demo_tasks = true) as H by by vm_compute.
  rewrite forallb_forall in H. apply Forall_forall. intros t Ht%list_elem_of_In.
  apply H in Ht. apply andb_true_iff in Ht as [Hu Hk]. apply bool_decide_eq_true in Hk.
  split; [done|]. unfold handled, dispatchSafely, dispatch. by rewrite Hk.
Qed.

Lemma demo_start_clear : clear DefaultKeys "q" (wks demo_start) (list_to_set (map m_ID demo_tasks)).
Proof.
  constructor; [vm_compute; reflexivity|exists 0%Z; split; by vm_compute|].
  assert (Forall (λ x, key_exists (wks demo_start) (TaskKey DefaultKeys "q" x) = false) (map m_ID demo_tasks)) as Hf.
  { apply (bool_decide_unpack _). vm_compute. exact I. }
  intros x Hx%elem_of_list_to_set. rewrite Forall_forall in Hf. by apply Hf.
Qed.

Lemma chain_runs_to_end_witness :
  let r := (ChainEnqueue DefaultKeys (λ s, s) "c" relay_chain;;
            worker_rounds DefaultKeys "q" (λ s, s) demo_plain_cfg demo_echo "w1" 5 3) demo_start in
  r.2 = Ok (map (λ t, [t]) demo_tasks) ∧
  map (λ t, (m_ID t, m_Payload t, m_PrevResult t)) demo_tasks
  = [("c:0", "fetch", ""); ("c:1", "parse", "fetch!"); ("c:2", "store", "parse!fetch!")].
Proof.
  intros r. split; [|by vm_compute].
  apply (chain_runs_to_end DefaultKeys ltac:(by exists "chronos") "q"
           ltac:(by apply (bool_decide_unpack (brace_free "q")))
           (λ s, s) (λ s, s) demo_plain_cfg demo_echo demo_result
           "c" relay_chain relay_built.1 relay_built.2 "w1" 5 demo_start eq_refl).
  - vm_compute. reflexivity.
  - repeat constructor.
  - exact demo_tasks_handled.
  - exact demo_start_clear.
Defined.

End ChainSpec.
