(* ===== verification/LineSpec.v ===== *)
(** * A worker works off a queue

    A queue that holds any number of tasks, and a worker that fetches batches
    of any size and processes them: every task is delivered once, in the order
    of the stream, including those that processing adds.  The step for one
    task is a parameter; FIFO queues and the fan-in of a group are its
    instances. *)

From S2P Require Import Prelude GoLib Base Redis RedisFacts Client RdbCore RdbFlow Instances.
From S2P Require Import Retry Handler Server CoreSpec FlowSpec ServerSpec CrashSpec ChainSpec.
From Stdlib Require Import Ascii.

Module LineSpec.
Import GoTime GoFloat GoStr Keys Task Redis RedisFacts Client RdbCore RdbFlow.
Import Retry Handler Server CoreSpec FlowSpec ChainSpec.

#[local] Arguments mbind {_ _ _ _} _ _ : simpl never.

(** ** What an operation leaves alone *)

Definition same_at (k : string) (m m' : keyspace) : Prop :=
  k_str m' !! k = k_str m !! k ∧ k_hash m' !! k = k_hash m !! k ∧ k_set m' !! k = k_set m !! k ∧
  k_zset m' !! k = k_zset m !! k ∧ k_stream m' !! k = k_stream m !! k.

Definition frame (ks : list string) (m m' : keyspace) : Prop := ∀ k, k ∉ ks → same_at k m m'.

Lemma frame_refl ks m : frame ks m m.
Proof. done. Qed.

Lemma frame_trans ks m1 m2 m3 : frame ks m1 m2 → frame ks m2 m3 → frame ks m1 m3.
Proof.
  intros H1 H2 k Hk. destruct (H1 k Hk) as (? & ? & ? & ? & ?), (H2 k Hk) as (? & ? & ? & ? & ?).
  repeat split; by etrans.
Qed.

Lemma frame_weaken ks ks' m m' : ks ⊆ ks' → frame ks m m' → frame ks' m m'.
Proof. intros Hs H k Hk. apply H. set_solver. Qed.

(** No key gets a deadline. *)
Definition lasting (m m' : keyspace) : Prop := ∀ k, k_exp m !! k = None → k_exp m' !! k = None.

#[global] Instance lasting_preorder : PreOrder lasting.
Proof. split; [by intros m k|intros m1 m2 m3 H1 H2 k Hk; auto]. Qed.

Lemma lasting_del k m : lasting m (del_key k m).
Proof. intros k' Hk. simpl. rewrite lookup_delete. by case_decide. Qed.

Lemma lasting_zrem k x m : lasting m (do_zrem k x m).
Proof. intros k' Hk. simpl. case_decide; [|done]. rewrite lookup_delete. by case_decide. Qed.

Lemma frame_stream f k m :
  (∀ x : streams, ∀ k', k ≠ k' → f x !! k' = x !! k') → frame [k] m (set_stream f m).
Proof. intros Hf k' Hk'. repeat split. apply Hf. set_solver. Qed.

Lemma frame_group k g f m : frame [k] m (set_group k g f m).
Proof. apply frame_stream. intros. by apply x_group_ne. Qed.

Lemma frame_xadd k e x m : frame [k] m (do_xadd k e x m).
Proof. apply frame_stream. intros. by apply x_add_ne. Qed.

Lemma frame_xdel k es m : frame [k] m (do_xdel k es m).
Proof. apply frame_stream. intros. by apply x_del_ne. Qed.

Lemma frame_hset k fvs m : frame [k] m (do_hset k fvs m).
Proof. intros k' Hk'. repeat split. simpl. unfold h_set. rewrite lookup_insert_ne by set_solver. done. Qed.

Lemma frame_del k m : frame [k] m (del_key k m).
Proof. intros k' Hk'. assert (k ≠ k') by set_solver. repeat split; simpl; by rewrite lookup_delete_ne. Qed.

Lemma frame_srem k x m : frame [k] m (do_srem k x m).
Proof. intros k' Hk'. assert (k ≠ k') by set_solver. repeat split. by apply s_rem_ne. Qed.

Lemma frame_sadd k xs m : frame [k] m (do_sadd k xs m).
Proof. intros k' Hk'. assert (k ≠ k') by set_solver. repeat split. simpl. unfold s_add. by rewrite lookup_insert_ne. Qed.

Lemma frame_zrem k x m : frame [k] m (do_zrem k x m).
Proof.
  intros k' Hk'. assert (k ≠ k') by set_solver. repeat split. simpl. unfold z_rem.
  case_match; [by rewrite lookup_delete_ne|by rewrite lookup_insert_ne].
Qed.

Lemma frame_pexpire ks k ms m : frame ks m (do_pexpire k ms m).
Proof. done. Qed.

Create HintDb frame.
#[export] Hint Resolve frame_refl frame_group frame_xadd frame_xdel frame_hset frame_del frame_srem
  frame_sadd frame_zrem frame_pexpire : frame.

(** One step, then the rest. *)
Lemma frame_step ks ks1 m1 m2 m3 : frame ks1 m1 m2 → ks1 ⊆ ks → frame ks m2 m3 → frame ks m1 m3.
Proof. intros H1 Hs H2. eapply frame_trans; [by eapply frame_weaken|done]. Qed.

Lemma frame_keep ks k m m' : frame ks m m' → k ∉ ks →
  hash_at m' k = hash_at m k ∧ stream_at m' k = stream_at m k ∧ set_at m' k = set_at m k ∧
  key_exists m' k = key_exists m k.
Proof.
  intros Hf Hk. destruct (Hf k Hk) as (Hs & Hh & Hse & Hz & Hx).
  unfold hash_at, h_at, stream_at, x_at, set_at, s_at. rewrite Hh, Hx, Hse.
  split_and!; [done..|]. by apply key_exists_ext.
Qed.

Lemma frame_index ks key qs m m1 :
  (m1 = m ∨ m1 = do_sadd key qs m) → key ∈ ks → frame ks m m1.
Proof.
  intros [-> | ->] Hk; [done|]. eapply frame_weaken, frame_sadd. set_solver.
Qed.

Lemma wps_and {A} `{R : Redis} (p : script A) (P Q : A → keyspace → Prop) m :
  wps p P m → wps p Q m → wps p (λ a m', P a m' ∧ Q a m') m.
Proof. intros HP HQ s Hs. split; [by apply HP|by apply HQ]. Qed.

(** A group's barrier depends on three keys. *)
Lemma gathered_frame a members l ks m m' :
  frame ks m m' → ga_group a ∉ ks → ga_result a ∉ ks → ga_cbTask a ∉ ks →
  gathered a members l m → gathered a members l m'.
Proof.
  intros Hf Hg Hr Hc []. destruct (Hf _ Hg) as (Eg1 & Eg2 & Eg3 & Eg4 & Eg5).
  destruct (Hf _ Hr) as (Er1 & Er2 & Er3 & Er4 & Er5).
  pose proof (frame_keep _ _ _ _ Hf Hg) as (_ & _ & Hset & _).
  pose proof (frame_keep _ _ _ _ Hf Hc) as (_ & _ & _ & Hex).
  constructor; [by rewrite Hset|by rewrite Er2|by rewrite Er1, Er3, Er4, Er5|by rewrite Hex|
    by rewrite Eg1, Eg2, Eg4, Eg5].
Qed.

Lemma sorted_snoc (l : list Z) x : StronglySorted Z.lt l → Forall (λ y, y < x)%Z l → StronglySorted Z.lt (l ++ [x]).
Proof.
  induction 1 as [|y l Hs IH Hy]; intros Hx; simpl; [by repeat constructor|].
  apply Forall_cons in Hx as [? ?]. constructor; [by apply IH|]. apply Forall_app. by split; [|constructor].
Qed.

Lemma sorted_app (l k : list Z) :
  StronglySorted Z.lt (l ++ k) → Forall (λ x, Forall (λ y, x < y)%Z k) l ∧ StronglySorted Z.lt k.
Proof.
  induction l as [|x l IH]; simpl; [done|]. intros [Hs Hx]%StronglySorted_inv.
  destruct (IH Hs) as [Hl Hk]. split; [|done]. constructor; [|done]. by apply Forall_app in Hx as [_ ?].
Qed.

Section line.
Context `{R : Redis} `{J : Json} (K : Keys) (HK : valid_keys K) (q : string) (Hq : brace_free q).

(** ** The queue

    The entries of the stream with their tasks, first those claimed by the
    worker, then those nobody has read. *)

Definition listed (p : sid * TaskMessage) : sid * string := (p.1, m_ID p.2).

Definition ids (l : list (sid * TaskMessage)) : list string := map (λ p, m_ID p.2) l.

Definition keys_of_tasks (l : list string) : list string := StreamKey K q :: map (TaskKey K q) l.

(** The stored body is the task, but for its state. *)
Definition has_body (m : keyspace) (t : TaskMessage) : Prop :=
  ∃ b st, hget m (TaskKey K q (m_ID t)) "msg" = Some b ∧ DecodeMessage b = Some (with_State st t).

Record line (m : keyspace) (claimed waiting : list (sid * TaskMessage)) : Prop := MkLine {
  li_entries : st_entries (stream_at m (StreamKey K q)) = map listed (claimed ++ waiting);
  li_group : ∃ l pel, group_at m (StreamKey K q) ConsumerGroup = Some (MkGroup l pel) ∧
     dom pel = list_to_set (map fst claimed) ∧ (l ≤ st_last (stream_at m (StreamKey K q)))%Z ∧
     Forall (λ p, p.1 ≤ l)%Z claimed ∧ Forall (λ p, l < p.1)%Z waiting;
  li_last : Forall (λ p, p.1 ≤ st_last (stream_at m (StreamKey K q)))%Z (claimed ++ waiting);
  li_sorted : StronglySorted Z.lt (map fst (claimed ++ waiting));
  li_bodies : Forall (λ p, has_body m p.2) (claimed ++ waiting);
}.

Lemma listed_snd l : map snd (map listed l) = ids l.
Proof. rewrite map_map. done. Qed.

Lemma has_body_frame ks m m' t : frame ks m m' → TaskKey K q (m_ID t) ∉ ks → has_body m t → has_body m' t.
Proof.
  intros Hf Hk (b & st & Hb & Hd). exists b, st. split; [|done].
  destruct (frame_keep _ _ _ _ Hf Hk) as (E & _). unfold hget in *. by rewrite E.
Qed.

Lemma stream_key_apart T : StreamKey K q ≠ TaskKey K q T.
Proof. by intros E%(queueKey_inj K q KStream (KTask T)). Qed.

(** Nothing else touches the queue. *)
Lemma line_frame ks m m' c ws :
  frame ks m m' → StreamKey K q ∉ ks → Forall (λ p, TaskKey K q (m_ID p.2) ∉ ks) (c ++ ws) →
  line m c ws → line m' c ws.
Proof.
  intros Hf Hs Ht []. destruct (frame_keep _ _ _ _ Hf Hs) as (_ & E & _).
  constructor; unfold group_at in *; rewrite ?E; try done.
  rewrite Forall_forall in Ht, li_bodies0 |- *. intros p Hp.
  eapply has_body_frame; [exact Hf|by apply Ht|by apply li_bodies0].
Qed.

(** A stored task joins the stream. *)
Lemma line_admit m c ws t e :
  line m c ws → (st_last (stream_at m (StreamKey K q)) < e)%Z → has_body m t →
  line (do_xadd (StreamKey K q) e (m_ID t) m) c (ws ++ [(e, t)]).
Proof.
  intros [He (l & pel & Hg & Hd & Hl & Hc & Hw) Hla Hso Hb] Hlt Ht.
  constructor.
  - unfold stream_at in *; simpl. rewrite x_at_add, decide_True by done. simpl.
    by rewrite He, app_assoc, (map_app _ (c ++ ws)).
  - exists l, pel. unfold group_at, stream_at in *; simpl. rewrite x_at_add, decide_True by done. simpl.
    split_and!; [done|done|lia|done|]. apply Forall_app. split; [done|]. repeat constructor. simpl. lia.
  - unfold stream_at in *; simpl. rewrite x_at_add, decide_True by done. simpl.
    rewrite app_assoc. apply Forall_app. split; [|by repeat constructor].
    eapply Forall_impl; [exact Hla|]. intros p. simpl. lia.
  - rewrite app_assoc, map_app. simpl. apply sorted_snoc; [done|].
    apply Forall_map. eapply Forall_impl; [exact Hla|]. intros p. simpl. lia.
  - rewrite app_assoc. apply Forall_app. by split; [|constructor].
Qed.

(** A body is stored. *)
Lemma body_stored m t b s st :
  DecodeMessage b = Some (with_State st t) →
  has_body (do_hset (TaskKey K q (m_ID t)) [("msg", b); ("state", s)] m) t.
Proof.
  intros Hd. exists b, st. split; [|done]. unfold hget, hash_at; simpl.
  rewrite h_at_set, decide_True by done. simpl. by rewrite lookup_insert_ne, lookup_insert_eq.
Qed.

(** A task is added. *)
Lemma line_add m c ws t b s st e :
  line m c ws → (st_last (stream_at m (StreamKey K q)) < e)%Z → m_ID t ∉ ids (c ++ ws) →
  DecodeMessage b = Some (with_State st t) →
  line (do_xadd (StreamKey K q) e (m_ID t)
          (do_hset (TaskKey K q (m_ID t)) [("msg", b); ("state", s)] m)) c (ws ++ [(e, t)]).
Proof.
  intros Hl Hlt Hni Hdec. apply line_admit; [|done|by eapply body_stored].
  eapply (line_frame [TaskKey K q (m_ID t)]); [apply frame_hset| | |done].
  - intros E%list_elem_of_singleton. by apply (stream_key_apart (m_ID t)).
  - apply Forall_forall. intros p Hp E%list_elem_of_singleton. apply TaskKey_inj in E.
    apply Hni. unfold ids. apply list_elem_of_fmap. by exists p.
Qed.

(** ** A batch *)

Lemma line_state m c ws T s : line m c ws → line (do_hset (TaskKey K q T) [("state", s)] m) c ws.
Proof.
  intros []. constructor; try done. eapply Forall_impl; [exact li_bodies0|].
  intros p (b & st & Hb & Hd). exists b, st. split; [|done]. rewrite <- Hb. unfold hget, hash_at; simpl.
  rewrite h_at_set. case_decide as E; [|done]. simpl. rewrite E. by rewrite lookup_insert_ne.
Qed.

Lemma bodies_fetched l m :
  wps (foldr (λ p k, a ← p; l ← k; mret (a :: l)) (mret [])
         (map (λ e : sid * string, call (HGET (TaskKey K q e.2) "msg")) (map listed l)))
    (λ bs m', m' = m ∧ bs = map (λ p, hget m (TaskKey K q (m_ID p.2)) "msg") l) m.
Proof.
  induction l as [|p l IH]; simpl; [by apply wps_ret|].
  apply wps_bind, wps_call. cbn [cmd_reply cmd_effect]. intros v ->. apply wps_bind.
  eapply wps_mono; [exact IH|]. intros bs m' [-> ->]. by apply wps_ret.
Qed.

Definition handed (p : sid * TaskMessage) : Dequeued := MkDequeued (active p.2) p.1.

Lemma classify_listed m l :
  Forall (λ p, has_body m p.2) l →
  classify (map listed l) (map (λ p, hget m (TaskKey K q (m_ID p.2)) "msg") l) = (map handed l, []).
Proof.
  induction 1 as [|p l (b & st & Hb & Hd) Hl IH]; simpl; [done|]. by rewrite IH, Hb, Hd.
Qed.

Lemma states_set l c ws s m :
  line m c ws →
  wps (foldr (λ p k, a ← p; l ← k; mret (a :: l)) (mret [])
         (map (λ d, call (HSET (TaskKey K q (m_ID (dq_Msg d))) [("state", s)])) (map handed l)))
    (λ _ m', line m' c ws ∧ frame (map (TaskKey K q) (ids l)) m m' ∧ lasting m m') m.
Proof.
  revert m. induction l as [|p l IH]; intros m Hl; simpl; [by apply wps_ret|].
  apply wps_bind, wps_call. cbn [cmd_reply cmd_effect]. intros v _. apply wps_bind.
  eapply wps_mono; [by apply IH, line_state|]. intros vs m' (Hl' & Hf & Hla). apply wps_ret. split; [done|].
  split; [|exact Hla]. unfold ids in *; cbn [map] in *.
  eapply frame_step; [apply frame_hset| |eapply frame_weaken; [|exact Hf]]; set_solver.
Qed.

Lemma undelivered_all m ws gr :
  line m [] ws → group_at m (StreamKey K q) ConsumerGroup = Some gr →
  undelivered (stream_at m (StreamKey K q)) gr = map listed ws.
Proof.
  intros [He (l & pel & Hg & _ & _ & _ & Hw) _ _ _] Hgr. rewrite Hgr in Hg. injection Hg as ->.
  unfold undelivered. rewrite He. simpl. clear He. induction Hw as [|p ws Hp Hw IH]; [done|]. simpl.
  rewrite filter_cons_True by done. by rewrite IH.
Qed.

Lemma pel_delivered c t (l : list (sid * TaskMessage)) (pel : gmap sid pending) :
  dom (foldl (λ pel e, <[e.1 := MkPending c t 1%Z]> pel) pel (map listed l))
  =@{gset sid} list_to_set (map fst l) ∪ dom pel.
Proof.
  revert pel. induction l as [|p l IH]; intros pel; simpl; [set_solver|].
  rewrite IH, dom_insert_L. set_solver.
Qed.

(** Delivering the first [k] entries. *)
Lemma line_deliver c t m ws k :
  line m [] ws → 0 < k → ws ≠ [] →
  line (set_group (StreamKey K q) ConsumerGroup (deliver c t (map listed (take k ws))) m)
    (take k ws) (drop k ws).
Proof.
  intros [He (l & pel & Hg & Hd & Hl & _ & Hw) Hla Hso Hb] Hk Hne. simpl in *.
  assert (∃ ws1 p, take k ws = ws1 ++ [p]) as (ws1 & p & Ek).
  { destruct (exists_last (l := take k ws)) as (ws1 & p & E); [|by eauto].
    destruct ws, k; done || lia. }
  assert (fst <$> last (map listed (take k ws)) = Some p.1) as Elast.
  { rewrite Ek, map_app. cbn [map]. by rewrite last_snoc. }
  rewrite <- (take_drop k ws), map_app in Hso.
  apply sorted_app in Hso as Hso2. destruct Hso2 as [Hlt _].
  constructor; rewrite ?take_drop; unfold group_at, stream_at in *; simpl;
    rewrite ?x_at_group, ?decide_True by done; simpl; try done.
  - rewrite lookup_alter, decide_True, Hg by done. simpl. unfold deliver. rewrite Elast. simpl.
    eexists _, _. split; [done|]. rewrite pel_delivered, Hd. split; [set_solver|].
    rewrite <- (take_drop k ws) in Hla, Hw. apply Forall_app in Hla as [Hla _], Hw as [_ Hw].
    split_and!.
    + rewrite Ek in Hla. apply Forall_app in Hla as [_ Hla]. by apply Forall_cons in Hla as [? _].
    + rewrite Ek in Hso |- *. rewrite map_app, <- app_assoc in Hso. apply sorted_app in Hso as [H1 _].
      apply Forall_app. split; [|repeat constructor; lia]. apply Forall_map in H1.
      eapply Forall_impl; [exact H1|]. intros x Hx. simpl in Hx. apply Forall_cons in Hx as [? _]. lia.
    + rewrite Ek in Hlt. rewrite map_app in Hlt. apply Forall_app in Hlt as [_ Hlt].
      apply Forall_cons in Hlt as [Hlt _]. by rewrite Forall_map in Hlt.
  - by rewrite <- map_app, take_drop in Hso.
Qed.

Lemma DequeueBatch_line worker n ws (Q : result (list Dequeued) → world → Prop) w :
  quiet w → line (wks w) [] ws → ws ≠ [] →
  let k := Z.to_nat (Z.max 1 n) in
  (∀ w', quiet w' → line (wks w') (take k ws) (drop k ws) →
     frame (keys_of_tasks (ids ws)) (wks w) (wks w') → lasting (wks w) (wks w') →
     Q (Ok (map handed (take k ws))) w') →
  wpm (DequeueBatch K worker q n) Q w.
Proof.
  intros Hw Hl Hne k HQ. unfold DequeueBatch.
  assert (Z.to_nat (if bool_decide (n < 1)%Z then 1%Z else n) = k) as Ek
    by (unfold k; case_bool_decide; f_equal; lia).
  set (count := if bool_decide (n < 1)%Z then 1%Z else n) in *. clearbody count.
  assert (0 < k) as Hk by (unfold k; lia).
  apply wpm_bind. unfold readGroup. apply wpm_round_trip_quiet; [done|].
  apply wps_bind, wps_call. cbn [cmd_reply cmd_effect]. intros es ->.
  pose proof Hl as [_ (l & pel & Hg & _) _ _ _]. rewrite Hg. simpl.
  rewrite (undelivered_all _ ws _ Hl Hg), Ek, firstn_map.
  apply wps_ret. intros s1 Hs1. pose proof (line_deliver worker (k_now (wks w)) _ _ k Hl Hk Hne) as Hl1.
  assert (take k ws ≠ []) as Hne' by (destruct ws, k; done || lia).
  rewrite bool_decide_false by (by intros E%map_eq_nil).
  apply wpm_bind, wpm_pipeline_quiet; [done|]. rewrite wks_set_store, Hs1.
  eapply wps_mono; [apply bodies_fetched|]. intros bs m' [-> ->] s2 Hs2.
  pose proof (li_bodies _ _ _ Hl1) as Hb. apply Forall_app in Hb as [Hb _].
  rewrite (classify_listed _ _ Hb).
  apply wpm_bind, wpm_ret. rewrite bool_decide_false by (by intros E%map_eq_nil).
  apply wpm_bind, wpm_pipeline_quiet; [done|]. rewrite wks_set_store, Hs2.
  eapply wps_mono; [by apply states_set|]. intros vs m' (Hl' & Hf & Hla) s3 Hs3.
  apply wpm_ret, HQ; [done|..]; rewrite wks_set_store, Hs3; [done| |exact Hla].
  eapply frame_step; [apply frame_group| |eapply frame_weaken; [|exact Hf]]; [set_solver|].
  unfold keys_of_tasks, ids. rewrite <- (take_drop k ws) at 2. rewrite !map_app. set_solver.
Qed.

(** The first claimed task is acknowledged and deleted. *)
Lemma line_settle m p c ws :
  line m (p :: c) ws → NoDup (ids (p :: c ++ ws)) →
  line (settle K q p.1 (m_ID p.2) m) c ws ∧ key_exists (settle K q p.1 (m_ID p.2) m) (TaskKey K q (m_ID p.2)) = false.
Proof.
  intros [He (l & pel & Hg & Hd & Hl & Hc & Hw) Hla Hso Hb] Hnd. simpl in *.
  apply StronglySorted_inv in Hso as [Hso Hp].
  assert (p.1 ∉ map fst (c ++ ws)) as Hni.
  { intros Hin. rewrite Forall_forall in Hp. apply Hp in Hin. lia. }
  destruct (settle_stream K HK q Hq p.1 (m_ID p.2) m (map listed (c ++ ws))) as [E1 E2].
  { exact He. }
  { by rewrite map_map. }
  apply NoDup_cons in Hnd as [Hni2 Hnd]. apply Forall_cons in Hla as [_ Hla], Hb as [_ Hb], Hc as [_ Hc].
  split; [|unfold settle; rewrite key_exists_del; by rewrite decide_True].
  constructor; [done| |by rewrite E2|done|].
  - exists l, (delete p.1 pel). rewrite E2. split_and!; [|..|done|done|done].
    + unfold settle, group_at, stream_at in *; simpl.
      pose proof (stream_key_apart (m_ID p.2)). rewrite x_at_delete, decide_False by done.
      rewrite x_at_del, decide_True by done. simpl. rewrite x_at_group, decide_True by done. simpl.
      by rewrite lookup_alter, decide_True, Hg by done.
    + rewrite dom_delete_L, Hd. simpl. rewrite map_app in Hni. set_solver.
  - rewrite Forall_forall in Hb |- *. intros x Hx.
    assert (m_ID p.2 ≠ m_ID x.2) as Hne.
    { intros E. apply Hni2. unfold ids. rewrite E. apply list_elem_of_fmap. by exists x. }
    destruct (Hb x Hx) as (b & st & Hbx & Hdx). exists b, st. split; [|done].
    unfold settle, hget, hash_at in *; simpl. rewrite h_at_delete, decide_False; [done|].
    by intros E%TaskKey_inj.
Qed.

Lemma frame_settle e T m : frame (keys_of_tasks [T]) m (settle K q e T m).
Proof.
  unfold settle, do_xack, keys_of_tasks.
  eapply frame_step; [apply frame_group| |eapply frame_step; [apply frame_xdel| |eapply frame_weaken, frame_del]];
    set_solver.
Qed.

Lemma lasting_settle e T m : lasting m (settle K q e T m).
Proof. intros k Hk. by apply lasting_del. Qed.

Lemma line_idle m worker t :
  line m [] [] → line (set_group (StreamKey K q) ConsumerGroup (deliver worker t []) m) [] [].
Proof.
  intros [He (l & pel & Hg & Hd & Hl & _) _ _ _]. constructor; [|..|done|constructor|done].
  - unfold stream_at in *; simpl. by rewrite x_at_group, decide_True.
  - exists l, pel. unfold group_at, stream_at in *; simpl. rewrite x_at_group, decide_True by done. simpl.
    rewrite lookup_alter, decide_True, Hg by done. done.
Qed.

(** ** A plan

    The tasks that are going to be processed, in their order; after [d] of
    them the first [vis d] have been stored.  [extra d] is what else is true
    of the keyspace then. *)
Context (quote : string → string) (cfg : ServerConfig) (mux : Mux).
Context (plan : list TaskMessage) (vis : nat → nat) (extra : nat → keyspace → Prop).

Definition in_sight (d : nat) : list TaskMessage := drop d (take (vis d) plan).

Record running (d : nat) (c ws : list (sid * TaskMessage)) (w : world) : Prop := MkRunning {
  rn_quiet : quiet w;
  rn_line : line (wks w) c ws;
  rn_tasks : map snd (c ++ ws) = in_sight d;
  rn_extra : extra d (wks w);
}.

Hypothesis Hvis : ∀ d, d < length plan → d < vis d.
Hypothesis Hextra : ∀ d m m',
  extra d m → frame (keys_of_tasks (map m_ID (in_sight d))) m m' → lasting m m' → extra d m'.
Hypothesis Hstep : ∀ d p c ws w, running d (p :: c) ws w →
  wpm (process K quote cfg mux q p.1 (active p.2))
    (λ r w', (∃ l, r = Ok l) ∧ ∃ es, running (S d) c (ws ++ es) w') w.

Lemma ids_in_sight d c ws w : running d c ws w → ids (c ++ ws) = map m_ID (in_sight d).
Proof. intros [_ _ Ht _]. rewrite <- Ht, map_map. done. Qed.

Lemma process_batch d c ws w :
  running d c ws w →
  wpm (go_foldl (λ _ d, process K quote cfg mux q (dq_StreamID d) (dq_Msg d);; mret ()) () (map handed c))
    (λ r w', r = Ok () ∧ ∃ ws', running (d + length c) [] ws' w') w.
Proof.
  revert d ws w. induction c as [|p c IH]; intros d ws w Hr; cbn [map go_foldl].
  { apply wpm_ret. split; [done|]. exists ws. by rewrite Nat.add_0_r. }
  apply wpm_bind, wpm_bind. eapply wpm_mono; [by apply Hstep|].
  intros r w1 ([l ->] & es & Hr1). apply wpm_ret.
  eapply wpm_mono; [by eapply IH|]. intros r2 w2 [-> [ws' Hr2]]. split; [done|]. exists ws'.
  simpl length. by rewrite Nat.add_succ_r.
Qed.

(** A round delivers the next tasks of the plan, at least one while there are any. *)
Lemma plan_round worker n d ws w :
  running d [] ws w →
  wpm (worker_round K q quote cfg mux worker n)
    (λ r w', ∃ k ws', r = Ok (map active (take k (drop d plan))) ∧ k ≤ length (drop d plan) ∧
       k ≤ Z.to_nat (Z.max 1 n) ∧ (d < length plan → 0 < k) ∧ running (d + k) [] ws' w') w.
Proof.
  intros Hr. unfold worker_round. apply wpm_bind, wpm_try.
  pose proof (ids_in_sight _ _ _ _ Hr) as Hids. destruct Hr as [Hw Hl Ht He]. simpl in Ht.
  assert (map snd ws = take (vis d - d) (drop d plan)) as Hts.
  { rewrite Ht. unfold in_sight. by rewrite skipn_firstn_comm. }
  destruct (decide (ws = [])) as [->|Hne].
  - pose proof Hl as [Hes (l & pel & Hg & _) _ _ _].
    eapply CrashSpec.DequeueBatch_empty; [done..|]. intros w1 Hw1 E. apply wpm_bind, wpm_ret, wpm_ret.
    exists 0, []. split_and!; [done|lia|lia| |].
    + intros Hd. apply Hvis in Hd as Hv. apply (f_equal length) in Hts.
      rewrite length_take, length_drop in Hts. simpl in Hts. lia.
    + rewrite Nat.add_0_r. constructor; [done|rewrite E; by apply line_idle|done|].
      rewrite E. eapply Hextra; [done| |by intros k Hk]. eapply frame_weaken, frame_group. set_solver.
  - set (k := Z.to_nat (Z.max 1 n)) in *.
    eapply (DequeueBatch_line worker n ws); [done..|]. fold k. intros w1 Hw1 Hl1 Hf Hla.
    assert (running d (take k ws) (drop k ws) w1) as Hr1.
    { constructor; [done|done| |].
      - by rewrite take_drop.
      - eapply Hextra; [done| |exact Hla]. simpl in Hids. by rewrite <- Hids. }
    apply wpm_bind. eapply wpm_mono; [by eapply process_batch|]. intros r2 w2 (-> & ws' & Hr2).
    apply wpm_ret. exists (length (take k ws)), ws'.
    assert (length ws ≤ length (drop d plan)) as Hlen.
    { rewrite <- (length_map snd ws), Hts, length_take. lia. }
    assert (map snd ws = take (length ws) (drop d plan)) as Hpre.
    { by rewrite <- (length_map snd ws), Hts, length_take, <- take_take, firstn_all. }
    rewrite length_take. split_and!; [| lia |lia| |by rewrite length_take in Hr2].
    + f_equal. rewrite map_map. change (λ x, dq_Msg (handed x)) with (λ x : sid * TaskMessage, active x.2).
      rewrite <- (map_map snd active). f_equal. by rewrite <- firstn_map, Hpre, take_take.
    + intros _. destruct ws; [done|]. simpl. unfold k. lia.
Qed.

(** As many rounds as there are tasks are enough. *)
Lemma plan_rounds worker n k d ws w :
  running d [] ws w → d ≤ length plan →
  wpm (worker_rounds K q quote cfg mux worker n k)
    (λ r w', ∃ outs d' ws', r = Ok outs ∧ d ≤ d' ≤ length plan ∧ (d' = length plan ∨ d + k ≤ d') ∧
       concat outs = map active (take (d' - d) (drop d plan)) ∧
       Forall (λ ts, length ts ≤ Z.to_nat (Z.max 1 n)) outs ∧ running d' [] ws' w') w.
Proof.
  revert d ws w. induction k as [|k IH]; intros d ws w Hr Hd; cbn [worker_rounds].
  { apply wpm_ret. exists [], d, ws. rewrite Nat.sub_diag. simpl. split_and!; [done|lia|lia|lia|done..]. }
  apply wpm_bind. eapply wpm_mono; [by eapply plan_round|].
  intros r w1 (j & ws1 & -> & Hj & Hjn & Hpos & Hr1). rewrite length_drop in Hj.
  apply wpm_bind. eapply wpm_mono; [eapply IH; [exact Hr1|lia]|].
  intros r2 w2 (outs & d' & ws' & -> & Hd' & Hk & Hc & Hf & Hr2). apply wpm_ret.
  exists (map active (take j (drop d plan)) :: outs), d', ws'. split_and!; [done|lia|lia| | | |done].
  - destruct (decide (d < length plan)); [specialize (Hpos ltac:(done))|]; lia.
  - simpl. rewrite Hc, <- map_app. f_equal. replace (d' - d) with (j + (d' - (d + j))) by lia.
    rewrite <- drop_drop, take_take_drop. done.
  - constructor; [|done]. rewrite length_map, length_take. lia.
Qed.

Lemma plan_runs worker n k ws w :
  running 0 [] ws w → length plan ≤ k →
  wpm (worker_rounds K q quote cfg mux worker n k)
    (λ r w', ∃ outs, r = Ok outs ∧ concat outs = map active plan ∧
       Forall (λ ts, length ts ≤ Z.to_nat (Z.max 1 n)) outs ∧ running (length plan) [] [] w') w.
Proof.
  intros Hr Hk. eapply wpm_mono; [apply (plan_rounds worker n k 0 ws w Hr); lia|].
  intros r w1 (outs & d & ws' & -> & Hd & Hd' & Hc & Hf & Hr').
  assert (d = length plan) as -> by lia. exists outs. split_and!; [done| |done|].
  - rewrite Hc, Nat.sub_0_r, drop_0, take_ge by done. done.
  - assert (ws' = []) as ->; [|done]. destruct Hr' as [_ _ Ht _]. unfold in_sight in Ht.
    rewrite skipn_all2 in Ht by (rewrite length_take; lia). by apply map_eq_nil in Ht.
Qed.

End line.

(** ** First in, first out *)

Section fifo.
Context `{R : Redis} `{J : Json} (K : Keys) (HK : valid_keys K) (q : string) (Hq : brace_free q).

Lemma line_start m X : clear K q m X → line K q m [] [].
Proof.
  intros [He (l & Hg & Hl) _]. constructor; [done| |done|constructor|done].
  exists l, ∅. split_and!; [done|by rewrite dom_empty_L|done..].
Qed.

Lemma line_over m X : line K q m [] [] → (∀ x, x ∈ X → key_exists m (TaskKey K q x) = false) → clear K q m X.
Proof.
  intros [He (l & pel & Hg & Hd & Hl & _) _ _ _] HX. constructor; [done| |done].
  exists l. apply dom_empty_inv_L in Hd as ->. done.
Qed.

(** The keys an enqueue may touch. *)
Definition enqueue_keys (T : string) : list string :=
  [QueuesKey K; StreamKey K q; TaskKey K q T; CompletedKey K q; ArchivedKey K q].

Lemma not_queues T x : QueuesKey K ≠ queueKey K T x.
Proof. intros E. symmetry in E. by apply (queueKey_not_global K T x "queues") in E. Qed.

(** The key of a task that is neither created nor deleted. *)
Lemma task_key_apart T T' : T ≠ T' → TaskKey K q T' ∉ enqueue_keys T.
Proof.
  intros Hne. unfold enqueue_keys. rewrite !not_elem_of_cons. split_and!; [..|apply not_elem_of_nil].
  - intros E. symmetry in E. by apply (not_queues q (KTask T')) in E.
  - by intros E%(queueKey_inj K q (KTask T') KStream).
  - intros E%TaskKey_inj. by apply Hne.
  - by intros E%(queueKey_inj K q (KTask T') KCompleted).
  - by intros E%(queueKey_inj K q (KTask T') KArchived).
Qed.

Lemma Enqueue_line ws t (Q : result () → world → Prop) w :
  quiet w → line K q (wks w) [] ws → m_Queue t = q → m_ID t ∉ ids ws → utf8_msg t = true →
  (∀ e w', quiet w' → w_clock w' = w_clock w → line K q (wks w') [] (ws ++ [(e, t)]) →
     frame (enqueue_keys (m_ID t)) (wks w) (wks w') → Q (Ok ()) w') →
  wpm (Enqueue K t) Q w.
Proof.
  intros Hw Hl Eq Hni Hu HQ. unfold Enqueue. simpl. rewrite Eq. apply wpm_bind, registerQueue_quiet; [done|].
  intros w1 Hw1 Hc1 Hm1. pose proof (frame_index [QueuesKey K] _ _ _ _ Hm1 ltac:(set_solver)) as Hf1.
  assert (line K q (wks w1) [] ws) as Hl1.
  { eapply line_frame; [exact Hf1| | |exact Hl].
    - intros E%list_elem_of_singleton. symmetry in E. by apply (not_queues q KStream) in E.
    - apply Forall_forall. intros p _ E%list_elem_of_singleton. symmetry in E.
      by apply (not_queues q (KTask (m_ID p.2))) in E. }
  apply wpm_bind, wpm_run_quiet; [done|]. unfold enqueueCmd. wps_steps.
  match goal with H : (_ < ?id)%Z |- _ => rename H into Hid; rename id into e end.
  intros s' Hs'. apply wpm_ret, (HQ e (set_store s' w1)); [done|done|..]; rewrite wks_set_store, Hs'.
  - eapply (line_frame K q [ArchivedKey K q]); [apply frame_zrem|..].
    { intros E%list_elem_of_singleton. by apply (queueKey_inj K q KStream KArchived) in E. }
    { apply Forall_forall. intros p _ E%list_elem_of_singleton.
      by apply (queueKey_inj K q (KTask (m_ID p.2)) KArchived) in E. }
    eapply (line_frame K q [CompletedKey K q]); [apply frame_zrem|..].
    { intros E%list_elem_of_singleton. by apply (queueKey_inj K q KStream KCompleted) in E. }
    { apply Forall_forall. intros p _ E%list_elem_of_singleton.
      by apply (queueKey_inj K q (KTask (m_ID p.2)) KCompleted) in E. }
    apply (line_add K q _ [] ws t _ _ StatePending); [done|done|done|].
    by apply CrashSpec.decode_state.
  - eapply frame_trans; [eapply frame_weaken; [|exact Hf1]; set_solver|].
    eapply frame_step; [apply frame_hset| |eapply frame_step; [apply frame_xadd| |
      eapply frame_step; [apply frame_zrem| |eapply frame_weaken, frame_zrem]]]; set_solver.
Qed.

Context (quote : string → string) (cfg : ServerConfig) (mux : Mux) (f : TaskMessage → bytes).

(** A task on its own, which leaves nothing behind. *)
Record single (t : TaskMessage) : Prop := MkSingle {
  sg_plain : plain q t;
  sg_chain : m_Chain t = [];
  sg_utf8 : utf8_msg t = true;
  sg_handled : handled quote mux f (active t);
}.

(** Acknowledging the first claimed task. *)
Lemma Done_line p t c ws (Q : result () → world → Prop) w :
  quiet w → line K q (wks w) (p :: c) ws → NoDup (ids (p :: c ++ ws)) →
  m_ID t = m_ID p.2 → (m_Retention t ≤ 0)%Z → m_UniqueKey t = "" →
  (∀ w', quiet w' → line K q (wks w') c ws → frame (keys_of_tasks K q [m_ID p.2]) (wks w) (wks w') →
     lasting (wks w) (wks w') → key_exists (wks w') (TaskKey K q (m_ID p.2)) = false → Q (Ok ()) w') →
  wpm (Done K q p.1 t) Q w.
Proof.
  intros Hw Hl Hnd Eid Hr Hu HQ. apply Done_plain; [done..|]. intros w' Hw' E. rewrite Eid in E.
  destruct (line_settle K HK q Hq _ _ _ _ Hl Hnd) as [Hl' Hk].
  apply HQ; [done|..]; rewrite E; [done|by apply frame_settle|apply lasting_settle|done].
Qed.

Lemma process_single p c ws w :
  quiet w → single p.2 → line K q (wks w) (p :: c) ws → NoDup (ids (p :: c ++ ws)) →
  wpm (process K quote cfg mux q p.1 (active p.2))
    (λ r w', (∃ l, r = Ok l) ∧ quiet w' ∧ line K q (wks w') c ws ∧
       frame (keys_of_tasks K q [m_ID p.2]) (wks w) (wks w') ∧ lasting (wks w) (wks w') ∧
       key_exists (wks w') (TaskKey K q (m_ID p.2)) = false) w.
Proof.
  intros Hw [[Pq Pg Pu Pr] Ec Hu Hh] Hl Hnd. unfold process. rewrite Hh. unfold processSuccess.
  cbn [m_Chain active with_Result with_State]. rewrite Ec, bool_decide_false by auto.
  apply wpm_bind, wpm_ret. cbv beta iota. cbn [m_GroupID active with_Result with_State].
  rewrite Pg, bool_decide_false by auto. apply wpm_bind, wpm_ret, wpm_bind. unfold logged.
  apply wpm_bind, wpm_try. eapply Done_line; [done..|]. intros w' Hw' Hl' Hf Hla Hk.
  apply wpm_ret, wpm_ret. split_and!; [by eexists|done..].
Qed.

(** The tasks already processed are not stored any more. *)
Definition gone (plan : list TaskMessage) (d : nat) (m : keyspace) : Prop :=
  ∀ t, t ∈ take d plan → key_exists m (TaskKey K q (m_ID t)) = false.

Lemma gone_frame plan d (l : list TaskMessage) m m' :
  NoDup (map m_ID plan) → (∀ t, t ∈ l → t ∈ drop d plan) →
  frame (keys_of_tasks K q (map m_ID l)) m m' → gone plan d m → gone plan d m'.
Proof.
  intros Hnd Hl Hf Hg t Ht.
  assert (TaskKey K q (m_ID t) ∉ keys_of_tasks K q (map m_ID l)) as Hk.
  { unfold keys_of_tasks. apply not_elem_of_cons. split; [intros E; by apply (stream_key_apart K q (m_ID t))|].
    intros (x & E & (t' & -> & Ht')%list_elem_of_fmap)%list_elem_of_fmap. apply TaskKey_inj in E.
    rewrite <- (take_drop d plan), map_app in Hnd. apply NoDup_app in Hnd as (_ & Hdis & _).
    apply (Hdis (m_ID t)); [by apply list_elem_of_fmap; exists t|]. rewrite E.
    apply list_elem_of_fmap. exists t'. split; [done|by apply Hl]. }
  destruct (frame_keep _ _ _ _ Hf Hk) as (_ & _ & _ & ->). by apply Hg.
Qed.

Lemma gone_next plan d t m m' :
  NoDup (map m_ID plan) → plan !! d = Some t → frame (keys_of_tasks K q [m_ID t]) m m' →
  key_exists m' (TaskKey K q (m_ID t)) = false → gone plan d m → gone plan (S d) m'.
Proof.
  intros Hnd Hd Hf Hk Hg x. rewrite (take_S_r _ _ t) by done.
  intros [Hx| ->%list_elem_of_singleton]%elem_of_app; [|done].
  apply (gone_frame plan d [t] m); [done| |done|done|done].
  intros y ->%list_elem_of_singleton. apply list_elem_of_lookup. exists 0. by rewrite lookup_drop, Nat.add_0_r.
Qed.

(** Every task is enqueued, one after the other. *)
Fixpoint enqueue_all (l : list TaskMessage) : M () :=
  match l with
  | [] => mret ()
  | t :: l => Enqueue K t;; enqueue_all l
  end.

Lemma enqueue_all_line l ws w :
  quiet w → line K q (wks w) [] ws → Forall (λ t, m_Queue t = q ∧ utf8_msg t = true) l →
  NoDup (ids ws ++ map m_ID l) →
  wpm (enqueue_all l)
    (λ r w', r = Ok () ∧ quiet w' ∧ ∃ es, map snd es = l ∧ line K q (wks w') [] (ws ++ es)) w.
Proof.
  revert ws w. induction l as [|t l IH]; intros ws w Hw Hl Hall Hnd; simpl.
  { apply wpm_ret. split_and!; [done..|]. exists []. by rewrite app_nil_r. }
  apply Forall_cons in Hall as [[Eq Hu] Hall].
  assert (m_ID t ∉ ids ws) as Hni.
  { apply NoDup_app in Hnd as (_ & Hd & _). intros Hin. apply (Hd _ Hin). simpl. set_solver. }
  apply wpm_bind. eapply Enqueue_line; [done..|]. intros e w1 Hw1 _ Hl1 _.
  eapply wpm_mono; [apply (IH (ws ++ [(e, t)])); [done..|]|].
  { unfold ids. rewrite map_app, <- app_assoc. exact Hnd. }
  intros r w2 (-> & Hw2 & es & <- & Hl2). split_and!; [done..|]. exists ((e, t) :: es).
  rewrite <- app_assoc in Hl2. done.
Qed.

(** C9: a queue is worked off in order, exactly once.  Enqueue any number of
    independent tasks with different names on a queue without other work, and
    let a worker fetch batches of any size and process them; no operation
    fails and every handler succeeds.  Then the deliveries, joined, are the
    tasks in the order in which they were enqueued, each once, in batches no
    larger than asked for, whatever their number; and after as many rounds as
    there are tasks nothing is left in the stream or pending, and no task is
    stored any more. *)
Theorem fifo_exactly_once tasks worker n k w :
  quiet w → Forall single tasks → NoDup (map m_ID tasks) → clear K q (wks w) (list_to_set (map m_ID tasks)) →
  length tasks ≤ k →
  let r := (enqueue_all tasks;; worker_rounds K q quote cfg mux worker n k) w in
  ∃ outs, r.2 = Ok outs ∧ concat outs = map active tasks ∧
    Forall (λ ts, length ts ≤ Z.to_nat (Z.max 1 n)) outs ∧
    clear K q (wks r.1) (list_to_set (map m_ID tasks)).
Proof.
  intros Hw Hs Hnd Hc Hk r.
  change (wpm (enqueue_all tasks;; worker_rounds K q quote cfg mux worker n k)
    (λ r w', ∃ outs, r = Ok outs ∧ concat outs = map active tasks ∧
       Forall (λ ts, length ts ≤ Z.to_nat (Z.max 1 n)) outs ∧
       clear K q (wks w') (list_to_set (map m_ID tasks))) w).
  apply wpm_bind. eapply wpm_mono.
  { apply (enqueue_all_line tasks [] w); [done|by eapply line_start| |done].
    eapply Forall_impl; [exact Hs|]. intros t [[] ]. done. }
  intros r1 w1 (-> & Hw1 & es & Hes & Hl). simpl in Hl.
  eapply wpm_mono.
  { apply (plan_runs K HK q Hq quote cfg mux tasks (λ _, length tasks) (gone tasks)) with (ws := es).
    - done.
    - intros d m m' Hg Hf _. eapply gone_frame; [done| |exact Hf|done].
      intros t. unfold in_sight. by rewrite firstn_all.
    - intros d p c ws w' [Hw' Hl' Ht Hg]. unfold in_sight in Ht. rewrite firstn_all in Ht. simpl in Ht.
      assert (tasks !! d = Some p.2) as Hd.
      { rewrite <- (Nat.add_0_r d), <- lookup_drop, <- Ht. done. }
      assert (NoDup (ids (p :: c ++ ws))) as Hnd'.
      { replace (ids (p :: c ++ ws)) with (map m_ID (drop d tasks)) by (rewrite <- Ht; simpl; by rewrite map_map).
        rewrite <- (take_drop d tasks), map_app in Hnd. by apply NoDup_app in Hnd as (_ & _ & ?). }
      assert (single p.2) as Hp by (rewrite Forall_forall in Hs; apply Hs; by eapply list_elem_of_lookup_2).
      eapply wpm_mono; [by apply process_single|].
      intros r' w2 (Hr & Hw2 & Hl2 & Hf & _ & Hk2). split; [done|]. exists []. rewrite app_nil_r.
      constructor; [done|done| |by eapply gone_next].
      unfold in_sight. rewrite firstn_all. apply (f_equal tail) in Ht. simpl in Ht. rewrite Ht.
      by rewrite (drop_S _ p.2 d) by done.
    - constructor; [done|done| |].
      + simpl. unfold in_sight. by rewrite firstn_all, drop_0.
      + intros t Ht. by apply not_elem_of_nil in Ht.
    - done. }
  intros r2 w2 (outs & -> & Ho & Hf & Hr). exists outs. split_and!; [done..|].
  destruct Hr as [_ Hl2 _ Hg]. apply line_over; [done|].
  intros x (t & -> & Ht)%elem_of_list_to_set%list_elem_of_fmap. apply Hg. by rewrite firstn_all.
Qed.

End fifo.

(** Five tasks in batches of two. *)
Definition fifo_tasks : list TaskMessage :=
  map (λ x, newMessage x "email" x "q" 3 false 0) ["a"; "b"; "c"; "d"; "e"].

Lemma fifo_exactly_once_witness :
  let r := (enqueue_all DefaultKeys fifo_tasks;;
            worker_rounds DefaultKeys "q" (λ s, s) demo_plain_cfg demo_echo "w1" 2 5) demo_start in
  ∃ outs, r.2 = Ok outs ∧ concat outs = map active fifo_tasks ∧
    map (map m_ID) outs = [["a"; "b"]; ["c"; "d"]; ["e"]; []; []].
Proof.
  intros r.
  destruct (fifo_exactly_once DefaultKeys ltac:(by exists "chronos") "q"
              ltac:(by apply (bool_decide_unpack (brace_free "q")))
              (λ s, s) demo_plain_cfg demo_echo demo_result fifo_tasks "w1" 2 5 demo_start eq_refl)
    as (outs & Hr & Hc & _).
  - repeat (constructor; [constructor; [by constructor|done|by vm_compute|done]|]). constructor.
  - apply (bool_decide_unpack _). vm_compute. exact I.
  - constructor; [vm_compute; reflexivity|exists 0%Z; split; by vm_compute|].
    assert (Forall (λ x, key_exists (wks demo_start) (TaskKey DefaultKeys "q" x) = false) (map m_ID fifo_tasks)) as Hf.
    { apply (bool_decide_unpack _). vm_compute. exact I. }
    intros x Hx%elem_of_list_to_set. rewrite Forall_forall in Hf. by apply Hf.
  - done.
  - exists outs. split; [exact Hr|]. split; [exact Hc|].
    assert (r.2 = Ok outs) as E by exact Hr. clear Hr Hc. vm_compute in E. injection E as <-. by vm_compute.
Defined.

End LineSpec.
