(* ===== verification/FanInSpec.v ===== *)
(** * A group runs to its end

    Enqueueing a group, working off its members in any batches, gathering
    their results and delivering the callback, composed: the fan-in when no
    operation fails and every handler succeeds. *)

From S2P Require Import Prelude GoLib Base Redis RedisFacts Client RdbCore RdbFlow Schedule Options Builder.
From S2P Require Import Instances Retry Handler Server CoreSpec FlowSpec ServerSpec BuilderSpec WorkflowSpec CrashSpec ChainSpec LineSpec.
From Stdlib Require Import Ascii.

Module FanInSpec.
Import GoTime GoFloat GoStr Keys Task Redis RedisFacts Client RdbCore RdbFlow Schedule Options Builder.
Import Retry Handler Server CoreSpec FlowSpec BuilderSpec WorkflowSpec ChainSpec LineSpec.

#[local] Arguments mbind {_ _ _ _} _ _ : simpl never.

(** An absent key is absent from every map. *)
Lemma absent_at m k :
  key_exists m k = false →
  k_str m !! k = None ∧ k_hash m !! k = None ∧ k_set m !! k = None ∧ k_zset m !! k = None ∧ k_stream m !! k = None.
Proof.
  unfold key_exists. rewrite !orb_false_iff.
  destruct (k_str m !! k), (k_hash m !! k), (k_set m !! k), (k_zset m !! k), (k_stream m !! k); naive_solver.
Qed.

Section fan_in.
Context `{R : Redis} `{J : Json} (K : Keys) (HK : valid_keys K) (q : string) (Hq : brace_free q).
Context (f : TaskMessage → bytes).
Context (uuid : string) (cbLink : ChainLink) (Hlink : plain_link q cbLink) (Huuid : uuid ≠ "").

(** ** The group's tasks *)

(** Member [i] of [n]. *)
Record member_of (n i : nat) (t : TaskMessage) : Prop := MkMemberOf {
  mb_id : m_ID t = uuid +:+ ":m" +:+ itoa (Z.of_nat i);
  mb_queue : m_Queue t = q;
  mb_chain : m_Chain t = [];
  mb_unique : m_UniqueKey t = "";
  mb_retention : (m_Retention t ≤ 0)%Z;
  mb_group : m_GroupID t = uuid ∧ m_GroupQueue t = q;
  mb_callback : m_GroupCallback t = Some cbLink ∧ m_GroupCallbackChain t = [];
  mb_index : m_GroupIndex t = Z.of_nat i ∧ m_GroupSize t = Z.of_nat n;
  mb_slot : m_GroupMemberID t = "";
}.

(** The callback before the results are known, and with them: members without
    a result count as empty, and when nobody has one there are none. *)
Definition callback_base : TaskMessage :=
  newMessage (uuid +:+ ":cb") (cl_Kind cbLink) (cl_Payload cbLink) (cl_Queue cbLink)
    (cl_MaxRetry cbLink) (cl_NoArchive cbLink) (cl_Retention cbLink).

Definition no_results (rs : list bytes) : bool := forallb (λ b, bool_decide (b = "")) rs.

Definition callback_with (rs : list bytes) : TaskMessage :=
  with_GroupResults (if no_results rs then [] else rs) callback_base.

Definition result_of (t : TaskMessage) : bytes := f (active t).

Definition group_args_of (n : nat) : group_args :=
  MkGroupArgs (GroupKey K q uuid) (TaskKey K q (uuid +:+ ":cb")) (StreamKey K q) (GroupResultKey K q uuid)
    (EncodeMessage (with_State StatePending callback_base)) StatePending (uuid +:+ ":cb") ToStream
    groupTTLSeconds (Z.of_nat n).

Definition report_of (t : TaskMessage) : report :=
  MkReport (m_ID t) (m_GroupIndex t)
    (if bool_decide (result_of t = "") then "" else Base64.EncodeToString (result_of t)).

Lemma args_of_ok n : args_ok (group_args_of n).
Proof.
  constructor; simpl; intros E;
    [apply (queueKey_inj K q (KGroup uuid) (KGroupResult uuid)) in E
    |apply (queueKey_inj K q (KGroup uuid) (KTask _)) in E
    |apply (queueKey_inj K q (KGroup uuid) KStream) in E
    |apply (queueKey_inj K q (KGroupResult uuid) (KTask _)) in E
    |apply (queueKey_inj K q (KGroupResult uuid) KStream) in E]; done.
Qed.

(** ** A report *)

(** What a report changes: the barrier, and the callback when it is created. *)
Definition reported (a : group_args) (m : keyspace) (x : Z) (m' : keyspace) : Prop :=
  let ks := [ga_group a; ga_result a] in
  if decide (x = 1%Z) then
    ∃ m1 e b, frame ks m m1 ∧ key_exists m1 (ga_group a) = false ∧ key_exists m1 (ga_result a) = false ∧
      (st_last (stream_at m1 (ga_dest a)) < e)%Z ∧
      m' = do_xadd (ga_dest a) e (ga_cbID a)
             (do_hset (ga_cbTask a) [("msg", b); ("state", itoa (ga_state a))] m1)
  else frame ks m m'.

Lemma report_cmd_reported a r m :
  args_ok a → ga_mode a = ToStream → wps (report_cmd a r) (reported a m) m.
Proof.
  intros Hok Hmode. unfold report_cmd, groupCompleteCmd. set (ks := [ga_group a; ga_result a]). wps_steps.
  case_match; [by wps_steps|]. wps_steps.
  assert (frame ks m (do_srem (ga_group a) (rp_slot r) m)) as Hf1
    by (eapply frame_weaken, frame_srem; set_solver).
  apply (wps_mono _ (λ _, frame ks m)).
  { case_bool_decide; wps_steps; [done|]. unfold expire. wps_steps.
    eapply frame_trans; [exact Hf1|]. eapply (frame_weaken [ga_result a]); [set_solver|apply frame_hset]. }
  intros _ m1 Hf. wps_steps. case_bool_decide.
  { unfold expire. wps_steps. case_match; wps_steps; exact Hf. }
  wps_steps. apply (wps_mono _ (λ _ m', m' = m1)).
  { case_match; wps_steps; [|done]. eapply wps_mono; [apply readResults_spec|].
    intros rs m' [-> _]. by wps_steps. }
  intros cb m' ->. wps_steps.
  set (m2 := del_key (ga_result a) (del_key (ga_group a) m1)).
  assert (frame ks m m2) as Hf2.
  { eapply frame_trans; [exact Hf|]. eapply frame_step; [apply frame_del| |eapply frame_weaken, frame_del]; set_solver. }
  case_match; wps_steps; [exact Hf2|]. rewrite Hmode. wps_steps.
  match goal with H : (_ < ?e)%Z |- _ => rename e into e0; rename H into He end.
  unfold reported. rewrite decide_True by done. exists m2, e0, cb. split_and!; [done|..|done].
  - unfold m2. rewrite !key_exists_del. by repeat case_decide.
  - unfold m2. rewrite key_exists_del. by case_decide.
  - exact He.
Qed.

(** ** The results *)

Definition encoded_result (t : TaskMessage) : option string :=
  if bool_decide (result_of t = "") then None else Some (Base64.EncodeToString (result_of t)).

Definition members_of (n : nat) (ms : list TaskMessage) : Prop :=
  ∀ i t, ms !! i = Some t → member_of n i t.

Lemma members_snoc n ms t : members_of n (ms ++ [t]) → members_of n ms ∧ member_of n (length ms) t.
Proof.
  intros H. split.
  - intros i u Hi. apply H. by apply lookup_app_l_Some.
  - apply H. by rewrite lookup_app_r, Nat.sub_diag.
Qed.

Lemma encoded_nonempty b : b ≠ "" → Base64.EncodeToString b ≠ "".
Proof.
  intros Hb E. apply Hb. pose proof (Base64.decode_encode b) as H. rewrite E in H. by injection H as <-.
Qed.

Lemma add_report g t :
  add_result g (report_of t)
  = match encoded_result t with None => g | Some b => <[itoa (m_GroupIndex t) := b]> g end.
Proof.
  unfold add_result, report_of, encoded_result. cbn [rp_result rp_index].
  destruct (decide (result_of t = "")) as [E|E].
  - by rewrite !(bool_decide_true (result_of t = "")), (bool_decide_true ("" = "")) by done.
  - rewrite !(bool_decide_false (result_of t = "")) by done.
    by rewrite (bool_decide_false (_ = "")) by by apply encoded_nonempty.
Qed.

Lemma results_at n ms i :
  members_of n ms → results_of (map report_of ms) !! itoa (Z.of_nat i) = (ms !! i) ≫= encoded_result.
Proof.
  intros Hm. induction ms as [|t ms IH] using rev_ind; [done|].
  apply members_snoc in Hm as [Hms Ht]. rewrite map_app. simpl map. rewrite results_of_snoc.
  assert (results_of (map report_of ms) !! itoa (Z.of_nat i) = (ms !! i) ≫= encoded_result) as IH' by auto.
  rewrite add_report. destruct (mb_index _ _ _ Ht) as [-> _].
  destruct (decide (i = length ms)) as [->|Hne].
  - rewrite list_lookup_middle by done. change (Some t ≫= encoded_result) with (encoded_result t).
    rewrite lookup_ge_None_2 in IH' by done.
    destruct (encoded_result t); [by rewrite lookup_insert_eq|exact IH'].
  - assert ((ms ++ [t]) !! i = ms !! i) as ->.
    { destruct (decide (i < length ms)); [by apply lookup_app_l|].
      rewrite !lookup_ge_None_2; [done|lia|rewrite length_app; simpl; lia]. }
    rewrite <- IH'. case_match; [|done]. apply lookup_insert_ne.
    unfold itoa. intros E%(inj pretty). lia.
Qed.

Lemma results_none n ms :
  members_of n ms → results_of (map report_of ms) = ∅ ↔ no_results (map result_of ms) = true.
Proof.
  intros Hm. unfold no_results. rewrite forallb_forall. split.
  - intros E b (t & <- & Ht)%in_map_iff. apply list_elem_of_In, list_elem_of_lookup in Ht as [i Hi].
    pose proof (results_at n ms i Hm) as H. rewrite E, Hi, lookup_empty in H.
    change (None = encoded_result t) in H.
    change (bool_decide (result_of t = "") = true). unfold encoded_result in H. by destruct (bool_decide (result_of t = "")).
  - induction ms as [|t ms IH] using rev_ind; intros Hb; [done|].
    apply members_snoc in Hm as [Hms Ht]. rewrite map_app. simpl map. rewrite results_of_snoc, IH; [|done|].
    + rewrite add_report. unfold encoded_result.
      assert (bool_decide (result_of t = "") = true) as ->; [|done].
      apply Hb, in_map, in_or_app. right. by left.
    + intros b (u & <- & Hu)%in_map_iff. apply Hb, in_map, in_or_app. by left.
Qed.

Lemma decoded_results ms : results_of_json (map encoded_result ms) = map result_of ms.
Proof.
  unfold results_of_json. rewrite map_map. apply map_ext. intros t. unfold encoded_result.
  case_bool_decide as E; [by rewrite E|].
  change (default "" (Base64.DecodeString (Base64.EncodeToString (result_of t))) = result_of t).
  by rewrite Base64.decode_encode.
Qed.

(** The body the last report stores is the callback with all results. *)
Lemma callback_decodes ms :
  members_of (length ms) ms → ms ≠ [] → utf8_msg callback_base = true → small_msg callback_base = true →
  DecodeMessage (callback_body (group_args_of (length ms)) (map report_of ms))
  = Some (with_State StatePending (callback_with (map result_of ms))).
Proof.
  intros Hm Hne Hu Hsm. unfold callback_body. cbn [ga_size ga_encoded group_args_of].
  pose proof (results_none _ _ Hm) as Hno. unfold callback_with.
  destruct (no_results (map result_of ms)).
  - rewrite bool_decide_true by (left; by apply Hno). by apply (CrashSpec.decode_state StatePending callback_base).
  - assert (0 < length ms) by (destruct ms; [done|simpl; lia]).
    rewrite bool_decide_false by (intros [E|E]; [by apply Hno in E|lia]).
    rewrite Nat2Z.id.
    assert (map (λ i, results_of (map report_of ms) !! itoa (Z.of_nat i)) (seq 0 (length ms))
            = map encoded_result ms) as ->.
    { apply list_eq. intros i. rewrite !list_lookup_fmap.
      destruct (ms !! i) as [t|] eqn:Hi.
      - rewrite lookup_seq_lt by (by eapply lookup_lt_Some). simpl.
        by rewrite (results_at _ _ _ Hm), Hi.
      - rewrite lookup_seq_ge by (by apply lookup_ge_None). done. }
    unfold DecodeMessage, EncodeMessage. rewrite Unmarshal_cjson.
    + rewrite decoded_results, sanitize_msg_valid by done. done.
    + done.
    + destruct ms; done.
    + apply Forall_forall. intros r Hr.
      apply list_elem_of_omap in Hr as (o & (t & -> & _)%list_elem_of_fmap & Hr). simpl in Hr.
      unfold encoded_result in Hr. case_bool_decide; simplify_eq. by eexists.
Qed.

(** ** The plan: the members, then the callback *)

Context (ms : list TaskMessage) (Hms : members_of (length ms) ms) (Hne : ms ≠ []).

Definition callback : TaskMessage := callback_with (map result_of ms).
Definition plan : list TaskMessage := ms ++ [callback].
Definition args : group_args := group_args_of (length ms).
Definition names : gset string := list_to_set (map m_ID ms).

(** The callback is stored once every member has been processed. *)
Definition visible (d : nat) : nat := if decide (d < length ms) then length ms else S (length ms).

Definition barrier (d : nat) (m : keyspace) : Prop :=
  if decide (d < length ms) then gathered args names (map report_of (take d ms)) m
  else key_exists m (GroupKey K q uuid) = false ∧ key_exists m (GroupResultKey K q uuid) = false.

Lemma member_name_inj i j t :
  ms !! i = Some t → m_ID t = uuid +:+ ":m" +:+ itoa (Z.of_nat j) → i = j.
Proof.
  intros Hi%Hms E. rewrite (mb_id _ _ _ Hi) in E.
  apply (inj (String.append uuid)), (inj (String.append ":m")) in E. unfold itoa in E.
  apply (inj pretty) in E. lia.
Qed.

Lemma names_apart i j t u : ms !! i = Some t → ms !! j = Some u → m_ID t = m_ID u → i = j.
Proof. intros Hi Hj E. apply (member_name_inj i j t Hi). rewrite E. apply Hms in Hj. apply Hj. Qed.

Lemma not_callback t : t ∈ ms → m_ID t ≠ uuid +:+ ":cb".
Proof.
  intros [i Hi%Hms]%list_elem_of_lookup. rewrite (mb_id _ _ _ Hi).
  by intros E%(inj (String.append uuid)).
Qed.

Lemma plan_distinct : NoDup (map m_ID plan).
Proof.
  unfold plan. rewrite map_app. apply NoDup_app. split_and!.
  - apply NoDup_alt. intros i j x. rewrite !list_lookup_fmap. intros Hi Hj.
    destruct (ms !! i) as [t|] eqn:Ei, (ms !! j) as [u|] eqn:Ej; simplify_eq/=.
    by eapply names_apart.
  - intros x (t & -> & Ht)%list_elem_of_fmap E%list_elem_of_singleton. exact (not_callback t Ht E).
  - apply NoDup_singleton.
Qed.

Lemma reported_names l : slots (map report_of l) = list_to_set (map m_ID l).
Proof. unfold slots. by rewrite map_map. Qed.

Lemma someone_missing d : d < length ms → names ⊈ slots (map report_of (take d ms)).
Proof.
  intros Hd Hs. apply lookup_lt_is_Some in Hd as [t Ht].
  assert (m_ID t ∈ names) as Hin.
  { unfold names. apply elem_of_list_to_set, list_elem_of_fmap. exists t. split; [done|].
    by eapply list_elem_of_lookup_2. }
  apply Hs in Hin. rewrite reported_names in Hin.
  apply elem_of_list_to_set, list_elem_of_fmap in Hin as (u & E & [i Hi]%list_elem_of_lookup).
  apply lookup_take_Some in Hi as [Hi Hlt]. pose proof (names_apart _ _ _ _ Ht Hi E). lia.
Qed.

Lemma in_sight_early d : d < length ms → in_sight plan visible d = drop d ms.
Proof.
  intros Hd. unfold in_sight, visible, plan. rewrite decide_True by done. by rewrite take_app_length.
Qed.

Lemma in_sight_late d : length ms ≤ d → in_sight plan visible d = drop d plan.
Proof.
  intros Hd. unfold in_sight, visible. rewrite decide_False by lia.
  rewrite take_ge; [done|]. unfold plan. rewrite length_app. simpl. lia.
Qed.

Lemma plan_early d : d < length ms → plan !! d = ms !! d.
Proof. intros Hd. unfold plan. by apply lookup_app_l. Qed.

(** The barrier's keys are none of the queue's and the tasks'. *)
Lemma barrier_keys_apart l :
  GroupKey K q uuid ∉ keys_of_tasks K q l ∧ GroupResultKey K q uuid ∉ keys_of_tasks K q l.
Proof.
  unfold keys_of_tasks. rewrite !not_elem_of_cons. split_and!;
    try (intros (x & E & _)%list_elem_of_fmap).
  - by intros E%(queueKey_inj K q (KGroup uuid) KStream).
  - by apply (queueKey_inj K q (KGroup uuid) (KTask x)) in E.
  - by intros E%(queueKey_inj K q (KGroupResult uuid) KStream).
  - by apply (queueKey_inj K q (KGroupResult uuid) (KTask x)) in E.
Qed.

Lemma task_key_not_listed T l : T ∉ l → TaskKey K q T ∉ keys_of_tasks K q l.
Proof.
  intros HT. unfold keys_of_tasks. apply not_elem_of_cons. split.
  - by intros E%(queueKey_inj K q (KTask T) KStream).
  - intros (x & E%TaskKey_inj & Hx)%list_elem_of_fmap. by subst.
Qed.

Lemma barrier_frame d l m m' :
  frame (keys_of_tasks K q l) m m' → (d < length ms → uuid +:+ ":cb" ∉ l) → barrier d m → barrier d m'.
Proof.
  intros Hf Hl. destruct (barrier_keys_apart l) as [Hg Hr]. unfold barrier. case_decide as Hd.
  - apply (gathered_frame _ _ _ _ _ _ Hf); [done..|]. apply task_key_not_listed. by apply Hl.
  - destruct (frame_keep _ _ _ _ Hf Hg) as (_ & _ & _ & ->), (frame_keep _ _ _ _ Hf Hr) as (_ & _ & _ & ->). done.
Qed.

Definition extra (d : nat) (m : keyspace) : Prop := gone K q plan d m ∧ barrier d m.

Lemma extra_frame d m m' :
  extra d m → frame (keys_of_tasks K q (map m_ID (in_sight plan visible d))) m m' → extra d m'.
Proof.
  intros [Hg Hb] Hf. split.
  - eapply gone_frame; [apply plan_distinct| |exact Hf|done].
    intros t. unfold in_sight. intros Ht. apply list_elem_of_lookup in Ht as [i Hi].
    rewrite lookup_drop in Hi. apply lookup_take_Some in Hi as [Hi _].
    apply list_elem_of_lookup. exists i. by rewrite lookup_drop.
  - eapply barrier_frame; [exact Hf| |done]. intros Hd. rewrite in_sight_early by done.
    intros (t & E & Ht)%list_elem_of_fmap. apply (not_callback t); [|done].
    by apply (subseteq_drop d ms).
Qed.

(** ** Reporting *)

(** A member's report is one run of the script with the group's arguments. *)
Lemma CompleteGroupMember_member d t (Q : result bool → world → Prop) w :
  quiet w → ms !! d = Some t →
  (∀ w1, quiet w1 → frame [QueuesKey K] (wks w) (wks w1) →
     wps (report_cmd args (report_of t))
       (λ x m', ∀ w', quiet w' → wks w' = m' → Q (Ok (bool_decide (x = 1%Z))) w') (wks w1)) →
  wpm (CompleteGroupMember K (with_Result (result_of t) (active t))) Q w.
Proof.
  intros Hw Ht HQ. pose proof (Hms _ _ Ht) as [Hid Hq' Hc Hu Hr [Hg Hgq] [Hcb Hcc] [Hi Hs] Hsl].
  destruct Hlink as [Lg Lq Ld Lr]. unfold CompleteGroupMember.
  cbn [m_GroupCallback m_GroupQueue with_Result active with_State]. rewrite Hcb, Hgq, Lq.
  rewrite bool_decide_true by done. cbn [negb].
  assert (callbackMessage (with_Result (result_of t) (active t)) cbLink = callback_base) as ->.
  { unfold callbackMessage. cbn [m_GroupID m_GroupCallbackChain with_Result active with_State].
    by rewrite Hcc, Hg. }
  assert (∀ st, m_Queue (with_State st callback_base) = q) as Ecq by done.
  apply wpm_bind. apply registerQueue_quiet; [done|]. intros w1 Hw1 Hc1 Hm1.
  pose proof (frame_index [QueuesKey K] _ _ _ _ Hm1 ltac:(set_solver)) as Hf1.
  apply wpm_bind, wpm_now. rewrite Ld. rewrite bool_decide_false by done. cbv iota.
  apply wpm_bind, wpm_run_quiet; [done|].
  cbn [m_Result m_GroupIndex m_GroupSize with_Result active with_State].
  assert (memberSlot (with_Result (result_of t) (active t)) = m_ID t) as ->.
  { unfold memberSlot. cbn [m_GroupMemberID with_Result active with_State]. by rewrite Hsl. }
  cbn [m_GroupID m_GroupQueue with_Result active with_State]. rewrite Ecq, Hs, Hg.
  change (m_Queue callback_base) with (cl_Queue cbLink). rewrite Lq.
  change (m_ID (with_State StatePending callback_base)) with (uuid +:+ ":cb").
  eapply wps_mono; [apply (HQ w1 Hw1 Hf1)|]. intros x m' Hx s' Hs'. apply wpm_ret, Hx; [done|].
  by rewrite wks_set_store, Hs'.
Qed.

Lemma barrier_frame_line d c ws m m1 :
  frame [GroupKey K q uuid; GroupResultKey K q uuid] m m1 → line K q m c ws → gone K q plan d m →
  line K q m1 c ws ∧ gone K q plan d m1.
Proof.
  intros Hf Hl Hgone.
  assert (∀ x, x ≠ KGroup uuid → x ≠ KGroupResult uuid →
            queueKey K q x ∉ [GroupKey K q uuid; GroupResultKey K q uuid]) as Hk.
  { intros x H1 H2. rewrite !not_elem_of_cons. split_and!; [| |apply not_elem_of_nil]; intros E;
      [by apply (queueKey_inj K q x (KGroup uuid)) in E
      |by apply (queueKey_inj K q x (KGroupResult uuid)) in E]. }
  split.
  - eapply line_frame; [exact Hf|by apply (Hk KStream)| |done]. apply Forall_forall. intros u _.
    by apply (Hk (KTask (m_ID u.2))).
  - intros u Hin. destruct (frame_keep _ _ _ _ Hf (Hk (KTask (m_ID u)) ltac:(done) ltac:(done))) as (_ & _ & _ & E).
    etrans; [exact E|]. by apply Hgone.
Qed.

(** The callback joins the queue. *)
Lemma callback_arrives d c ws m1 e b :
  S d = length ms → line K q m1 c ws → ids (c ++ ws) = map m_ID (drop d ms) → gone K q plan d m1 →
  key_exists m1 (GroupKey K q uuid) = false → key_exists m1 (GroupResultKey K q uuid) = false →
  (st_last (stream_at m1 (StreamKey K q)) < e)%Z →
  utf8_msg callback_base = true → small_msg callback_base = true →
  let m' := do_xadd (StreamKey K q) e (uuid +:+ ":cb")
              (do_hset (TaskKey K q (uuid +:+ ":cb")) [("msg", b); ("state", itoa StatePending)] m1) in
  fired args (map report_of ms) m' →
  gone K q plan d m' ∧ barrier (S d) m' ∧ line K q m' c (ws ++ [(e, callback)]).
Proof.
  intros Hd Hl Hids Hgone Hk1 Hk2 He Hu Hsm m' Hfired.
  assert (frame (keys_of_tasks K q [uuid +:+ ":cb"]) m1 m') as Hf'.
  { unfold m', keys_of_tasks. eapply frame_step; [apply frame_hset| |eapply frame_weaken, frame_xadd]; set_solver. }
  split; [|split].
  - eapply (gone_frame K q plan d [callback]); [apply plan_distinct| |exact Hf'|done].
    intros u ->%list_elem_of_singleton. unfold plan. rewrite drop_app_le by lia. set_solver.
  - unfold barrier. rewrite decide_False by lia. destruct (barrier_keys_apart [uuid +:+ ":cb"]) as [Hgk Hrk].
    destruct (frame_keep _ _ _ _ Hf' Hgk) as (_ & _ & _ & ->), (frame_keep _ _ _ _ Hf' Hrk) as (_ & _ & _ & ->). done.
  - unfold m'. apply (line_add K q m1 c ws callback b _ StatePending); [done|done| |].
    + rewrite Hids. intros (u & E & Hin)%list_elem_of_fmap.
      apply (not_callback u); [|done]. by apply (subseteq_drop d ms).
    + pose proof (fd_body _ _ _ Hfired) as Hbody. unfold hget, hash_at, m' in Hbody. simpl in Hbody.
      rewrite h_at_set, decide_True in Hbody by done. simpl in Hbody.
      rewrite lookup_insert_ne, lookup_insert_eq in Hbody by done. injection Hbody as ->.
      by apply callback_decodes.
Qed.

(** Until the last member the report changes the barrier only; the last one
    appends the callback to the queue. *)
Lemma report_line d t c ws m :
  ms !! d = Some t → line K q m c ws → ids (c ++ ws) = map m_ID (drop d ms) →
  gone K q plan d m → barrier d m → utf8_msg callback_base = true → small_msg callback_base = true →
  wps (report_cmd args (report_of t))
    (λ _ m', gone K q plan d m' ∧ barrier (S d) m' ∧
       ∃ es, map snd es = (if decide (S d < length ms) then [] else [callback]) ∧
             line K q m' c (ws ++ es)) m.
Proof.
  intros Ht Hl Hids Hgone Hb Hu Hsm. assert (d < length ms) as Hd by by eapply lookup_lt_Some.
  unfold barrier in Hb. rewrite decide_True in Hb by done.
  pose proof (args_of_ok (length ms)) as Hok. fold args in Hok.
  eapply wps_mono.
  { apply wps_and; [apply (report_cmd_spec args names _ (report_of t) _ Hok Hb), someone_missing, Hd|].
    by apply report_cmd_reported. }
  intros x m' [Hx Hrep]. cbv beta.
  assert (map report_of (take d ms) ++ [report_of t] = map report_of (take (S d) ms)) as Esnoc.
  { by rewrite (take_S_r _ _ t), map_app. }
  rewrite Esnoc in Hx. unfold reported in Hrep. cbn [ga_group ga_result args group_args_of] in Hrep.
  destruct (decide (S d < length ms)) as [Hlt|Hge].
  - rewrite decide_False in Hx by (by apply someone_missing). destruct Hx as [-> Hg'].
    rewrite decide_False in Hrep by done. destruct (barrier_frame_line _ _ _ _ _ Hrep Hl Hgone) as [Hl' Hgone'].
    unfold barrier. rewrite decide_True by done.
    split_and!; [done|done|]. exists []. by rewrite app_nil_r.
  - assert (S d = length ms) as Eall by lia. rewrite Eall, firstn_all in Hx.
    rewrite decide_True in Hx by by rewrite reported_names. destruct Hx as [-> Hfired].
    rewrite decide_True in Hrep by done. destruct Hrep as (m1 & e & b & Hf & Hk1 & Hk2 & He & ->).
    destruct (barrier_frame_line _ _ _ _ _ Hf Hl Hgone) as [Hl1 Hgone1].
    destruct (callback_arrives d c ws m1 e b) as (H1 & H2 & H3); [done..|].
    split_and!; [done|done|]. by exists [(e, callback)].
Qed.

Lemma index_frame d c ws m m1 :
  frame [QueuesKey K] m m1 → line K q m c ws → gone K q plan d m → barrier d m →
  line K q m1 c ws ∧ gone K q plan d m1 ∧ barrier d m1.
Proof.
  intros Hf Hl Hg Hb.
  assert (∀ x, queueKey K q x ∉ [QueuesKey K]) as Hk.
  { intros x E%list_elem_of_singleton. symmetry in E. by apply (not_queues K HK q x) in E. }
  split_and!.
  - eapply line_frame; [exact Hf|apply (Hk KStream)| |done]. apply Forall_forall. intros u _.
    apply (Hk (KTask (m_ID u.2))).
  - intros u Hin. destruct (frame_keep _ _ _ _ Hf (Hk (KTask (m_ID u)))) as (_ & _ & _ & E).
    etrans; [exact E|]. by apply Hg.
  - unfold barrier in *. case_decide.
    + eapply gathered_frame; [exact Hf|apply (Hk (KGroup uuid))|apply (Hk (KGroupResult uuid))|apply (Hk (KTask _))|done].
    + destruct (frame_keep _ _ _ _ Hf (Hk (KGroup uuid))) as (_ & _ & _ & E1).
      destruct (frame_keep _ _ _ _ Hf (Hk (KGroupResult uuid))) as (_ & _ & _ & E2).
      destruct Hb. split; by etrans.
Qed.

(** ** Enqueueing the group *)

Lemma CreateGroup_barrier l (Q : result () → world → Prop) w :
  quiet w → line K q (wks w) [] l →
  key_exists (wks w) (GroupKey K q uuid) = false → key_exists (wks w) (GroupResultKey K q uuid) = false →
  key_exists (wks w) (TaskKey K q (uuid +:+ ":cb")) = false →
  (∀ w', quiet w' → line K q (wks w') [] l → gathered args names [] (wks w') → Q (Ok ()) w') →
  wpm (CreateGroup K q uuid (map m_ID ms)) Q w.
Proof.
  intros Hw Hl Hg Hr Hc HQ. unfold CreateGroup. rewrite bool_decide_false by (by intros E%map_eq_nil).
  apply wpm_run_quiet; [done|]. unfold createGroupTx. wps_steps. intros s' Hs'.
  destruct r0. apply (HQ (set_store s' w)); [done|..]; rewrite wks_set_store, Hs';
    set (m' := do_pexpire _ _ _); assert (frame [GroupKey K q uuid] (wks w) m') as Hf by (apply frame_sadd).
  - eapply line_frame; [exact Hf| | |done].
    + by intros E%list_elem_of_singleton%(queueKey_inj K q KStream (KGroup uuid)).
    + apply Forall_forall. intros u _.
      by intros E%list_elem_of_singleton%(queueKey_inj K q (KTask _) (KGroup uuid)).
  - assert (GroupResultKey K q uuid ∉ [GroupKey K q uuid]) as Hr'
      by (by intros E%list_elem_of_singleton%(queueKey_inj K q (KGroupResult uuid) (KGroup uuid))).
    assert (TaskKey K q (uuid +:+ ":cb") ∉ [GroupKey K q uuid]) as Hc'
      by (by intros E%list_elem_of_singleton%(queueKey_inj K q (KTask _) (KGroup uuid))).
    destruct (absent_at _ _ Hg) as (G1 & G2 & G3 & G4 & G5), (absent_at _ _ Hr) as (R1 & R2 & R3 & R4 & R5).
    destruct (Hf _ Hr') as (F1 & F2 & F3 & F4 & F5), (frame_keep _ _ _ _ Hf Hc') as (_ & _ & _ & Hcb).
    constructor; cbn [ga_group ga_result ga_cbTask args group_args_of].
    + unfold set_at; simpl. rewrite s_at_add, decide_True by done. unfold s_at. rewrite G3. simpl.
      unfold names. set_solver.
    + by rewrite F2, R2.
    + by rewrite F1, F3, F4, F5.
    + by rewrite Hcb.
    + done.
Qed.

Context (sha256hex : bytes → string).

(** Every member is stored; the barrier is not touched. *)
Lemma dispatchMembers_line i pending ws w :
  quiet w → line K q (wks w) [] ws → gathered args names [] (wks w) →
  Forall (λ p, p.1 ∈ ms ∧ utf8_msg p.1 = true ∧ o_processAt p.2 = zeroTime ∧ (o_uniqueTTL p.2 ≤ 0)%Z) pending →
  NoDup (ids ws ++ map m_ID (map fst pending)) →
  wpm (dispatchMembers K sha256hex i pending)
    (λ r w', r = Ok () ∧ quiet w' ∧ gathered args names [] (wks w') ∧
       ∃ es, map snd es = map fst pending ∧ line K q (wks w') [] (ws ++ es)) w.
Proof.
  revert i ws w. induction pending as [|[t o] pending IH]; intros i ws w Hw Hl Hg Hp Hnd.
  { apply wpm_ret. split_and!; [done..|]. exists []. by rewrite app_nil_r. }
  apply Forall_cons in Hp as [(Hin & Hu & Ha & Ho) Hp]. cbn [map fst snd] in *.
  assert (m_ID t ∉ ids ws) as Hni.
  { apply NoDup_app in Hnd as (_ & Hd & _). intros H. apply (Hd _ H). simpl. set_solver. }
  pose proof Hin as [j Hj%Hms]%list_elem_of_lookup.
  simpl. apply wpm_bind, wpm_wrap_err, (dispatch_immediate K sha256hex t o); [done..|].
  apply (Enqueue_line K HK q Hq ws t); [done|done|apply Hj|done|done|]. intros e w1 Hw1 _ Hl1 Hf.
  assert (∀ x, (∀ T, x ≠ KTask T) → (∀ g, g ∈ [KStream; KCompleted; KArchived] → x ≠ g) →
            queueKey K q x ∉ enqueue_keys K q (m_ID t)) as Hk.
  { intros x Hx1 Hx2. unfold enqueue_keys. rewrite !not_elem_of_cons. split_and!; [..|apply not_elem_of_nil].
    - intros E. symmetry in E. by apply (not_queues K HK q x) in E.
    - intros E%(queueKey_inj K q x KStream); [|done..]. by apply (Hx2 KStream); [set_solver|].
    - intros E%(queueKey_inj K q x (KTask _)); [|done..]. by apply Hx1 in E.
    - intros E%(queueKey_inj K q x KCompleted); [|done..]. by apply (Hx2 KCompleted); [set_solver|].
    - intros E%(queueKey_inj K q x KArchived); [|done..]. by apply (Hx2 KArchived); [set_solver|]. }
  eapply wpm_mono; [apply (IH (S i) (ws ++ [(e, t)]) w1); [done|done| |done|]|].
  - eapply gathered_frame; [exact Hf|apply (Hk (KGroup uuid))|apply (Hk (KGroupResult uuid))| |done];
      try done; try (intros g Hg'; set_solver).
    apply (task_key_apart K HK q). by apply not_callback.
  - unfold ids in *. by rewrite map_app, <- app_assoc.
  - intros r w2 (-> & Hw2 & Hg2 & es & Hes & Hl2). split_and!; [done..|]. exists ((e, t) :: es).
    rewrite <- app_assoc in Hl2. split; [|done]. simpl. by rewrite Hes.
Qed.

(** ** Processing, one task after the other *)

Context (quote : string → string) (cfg : ServerConfig) (mux : Mux).
Context (Hhandled : Forall (λ t, utf8_msg t = true ∧ handled quote mux f (active t)) plan).
Context (Hbase : utf8_msg callback_base = true) (Hsmall : small_msg callback_base = true).

Lemma distinct_in_sight d c ws w :
  running K q plan visible extra d c ws w → NoDup (ids (c ++ ws)).
Proof.
  intros Hr. rewrite (ids_in_sight K q plan visible extra d c ws w Hr). unfold in_sight.
  assert (NoDup (map m_ID (take (visible d) plan))) as H.
  { pose proof plan_distinct as Hd. rewrite <- (take_drop (visible d) plan), map_app in Hd.
    by apply NoDup_app in Hd as [? _]. }
  rewrite <- (take_drop d (take _ _)), map_app in H. by apply NoDup_app in H as (_ & _ & ?).
Qed.

(** No two tasks of the queue have the same name, the callback included. *)
Lemma distinct_after d c ws es :
  d < length ms → ids (c ++ ws) = map m_ID (drop d ms) →
  map snd es = (if decide (S d < length ms) then [] else [callback]) → NoDup (ids (c ++ ws ++ es)).
Proof.
  intros Hd Hids Hes. unfold ids in *. rewrite app_assoc, map_app, Hids.
  pose proof plan_distinct as H. rewrite <- (take_drop d plan), map_app in H.
  apply NoDup_app in H as (_ & _ & H). unfold plan in H. rewrite drop_app_le, map_app in H by lia.
  rewrite <- (map_map snd m_ID es), Hes. case_decide; [|done].
  apply NoDup_app in H as [H _]. by rewrite app_nil_r.
Qed.

Lemma member_step d p c ws w :
  d < length ms → running K q plan visible extra d (p :: c) ws w →
  wpm (process K quote cfg mux q p.1 (active p.2))
    (λ r w', (∃ l, r = Ok l) ∧ ∃ es, running K q plan visible extra (S d) c (ws ++ es) w') w.
Proof.
  intros Hd Hr. pose proof (distinct_in_sight _ _ _ _ Hr) as Hnd.
  pose proof (ids_in_sight K q plan visible extra _ _ _ _ Hr) as Hids.
  destruct Hr as [Hw Hl Ht [Hgone Hb]]. rewrite in_sight_early in Ht, Hids by done. simpl in Ht.
  assert (ms !! d = Some p.2) as Hp by (by rewrite <- (Nat.add_0_r d), <- lookup_drop, <- Ht).
  pose proof (Hms _ _ Hp) as [Hid Hqt Hc Hu Hret [Hg Hgq] Hcb Hix Hsl].
  assert (handled quote mux f (active p.2)) as Hh.
  { rewrite Forall_forall in Hhandled. apply Hhandled. apply list_elem_of_lookup. exists d. by rewrite plan_early. }
  unfold process. rewrite Hh. unfold processSuccess. cbn [m_Chain active with_Result with_State].
  rewrite Hc, bool_decide_false by auto. apply wpm_bind, wpm_ret. cbv beta iota.
  cbn [m_GroupID active with_Result with_State]. rewrite Hg, bool_decide_true by done. cbn [negb andb].
  apply wpm_bind, wpm_try. unfold completeGroupWithRetry, withRetry. apply wpm_bind, wpm_try.
  apply (CompleteGroupMember_member d p.2); [done|done|]. intros w1 Hw1 Hf1.
  destruct (index_frame _ _ _ _ _ Hf1 Hl Hgone Hb) as (Hl1 & Hgone1 & Hb1).
  eapply wps_mono; [by apply (report_line d p.2 (p :: c) ws)|].
  intros x m' (Hgone2 & Hb2 & es & Hes & Hl2) w2 Hw2 <-. apply wpm_ret. cbv beta iota.
  pose proof (distinct_after d (p :: c) ws es Hd Hids Hes) as Hnd2.
  apply wpm_bind. unfold logged. apply wpm_bind, wpm_try.
  eapply (Done_line K HK q Hq p _ c (ws ++ es)); [done..|]. intros w3 Hw3 Hl3 Hf3 _ Hk3.
  apply wpm_ret, wpm_ret. split; [by eexists|]. exists es. constructor; [done|done| |split].
  - apply (f_equal tail) in Ht. cbn [tail] in Ht. rewrite app_assoc, map_app, Ht, Hes.
    rewrite (drop_S _ p.2 d) by done. cbn [tail]. case_decide.
    + by rewrite app_nil_r, in_sight_early.
    + rewrite in_sight_late by lia. unfold plan. by rewrite drop_app_le by lia.
  - eapply gone_next; [apply plan_distinct|by rewrite plan_early|done|done|done].
  - eapply barrier_frame; [exact Hf3| |done]. intros _ E%list_elem_of_singleton.
    apply (not_callback p.2); [by eapply list_elem_of_lookup_2|done].
Qed.

Lemma callback_step d p c ws w :
  length ms ≤ d → running K q plan visible extra d (p :: c) ws w →
  wpm (process K quote cfg mux q p.1 (active p.2))
    (λ r w', (∃ l, r = Ok l) ∧ ∃ es, running K q plan visible extra (S d) c (ws ++ es) w') w.
Proof.
  intros Hd Hr. pose proof (distinct_in_sight _ _ _ _ Hr) as Hnd.
  destruct Hr as [Hw Hl Ht [Hgone Hb]]. rewrite in_sight_late in Ht by done. simpl in Ht.
  assert (plan !! d = Some p.2) as Hp by (by rewrite <- (Nat.add_0_r d), <- lookup_drop, <- Ht).
  assert (p.2 = callback) as Ep.
  { unfold plan in Hp. rewrite lookup_app_r in Hp by done. by apply list_lookup_singleton_Some in Hp as [_ <-]. }
  rewrite Forall_forall in Hhandled. destruct (Hhandled p.2) as [Hu Hh]; [by eapply list_elem_of_lookup_2|].
  assert (single q quote mux f p.2) as Hs.
  { constructor; [|by rewrite Ep|done|done]. destruct Hlink. rewrite Ep. by constructor. }
  eapply wpm_mono; [by apply (process_single K HK q Hq quote cfg mux f p c ws)|].
  intros r w' (Hok & Hw' & Hl' & Hf & _ & Hk). split; [done|]. exists []. rewrite app_nil_r.
  constructor; [done|done| |split].
  - apply (f_equal tail) in Ht. cbn [tail] in Ht. rewrite Ht, in_sight_late by lia.
    by rewrite (drop_S _ p.2 d) by done.
  - by eapply gone_next; [apply plan_distinct|..].
  - unfold barrier in *. rewrite decide_False in Hb by lia. rewrite decide_False by lia.
    destruct (barrier_keys_apart [m_ID p.2]) as [Hgk Hrk].
    destruct (frame_keep _ _ _ _ Hf Hgk) as (_ & _ & _ & ->), (frame_keep _ _ _ _ Hf Hrk) as (_ & _ & _ & ->). done.
Qed.

(** From the enqueued members to the end. *)
Lemma fan_in_runs worker n k es w :
  quiet w → line K q (wks w) [] es → map snd es = ms → gathered args names [] (wks w) → length ms < k →
  wpm (worker_rounds K q quote cfg mux worker n k)
    (λ r w', ∃ outs, r = Ok outs ∧ concat outs = map active plan ∧
       Forall (λ ts, length ts ≤ Z.to_nat (Z.max 1 n)) outs ∧
       clear K q (wks w') (list_to_set (map m_ID plan)) ∧
       key_exists (wks w') (GroupKey K q uuid) = false ∧
       key_exists (wks w') (GroupResultKey K q uuid) = false) w.
Proof.
  intros Hw Hl Hes Hg Hk.
  assert (length plan = S (length ms)) as Hlen by (unfold plan; rewrite length_app; simpl; lia).
  assert (0 < length ms) as Hpos by (destruct ms; [done|simpl; lia]).
  eapply wpm_mono.
  { apply (plan_runs K HK q Hq quote cfg mux plan visible extra) with (ws := es).
    - intros d Hd. unfold visible. case_decide; lia.
    - intros d m m' He Hf _. by apply (extra_frame d m m').
    - intros d p c ws w' Hr. destruct (decide (d < length ms)); [by apply member_step|].
      apply callback_step; [lia|done].
    - constructor; [done|done| |split].
      + rewrite in_sight_early by done. by rewrite drop_0.
      + intros t Ht. by apply not_elem_of_nil in Ht.
      + unfold barrier. by rewrite decide_True.
    - lia. }
  intros r w' (outs & -> & Hc & Hf & [_ Hl' _ [Hgone Hb]]). exists outs.
  unfold barrier in Hb. rewrite decide_False in Hb by lia. split_and!; [done..| |apply Hb|apply Hb].
  apply line_over; [done|]. intros x (t & -> & Ht)%elem_of_list_to_set%list_elem_of_fmap.
  apply Hgone. by rewrite firstn_all.
Qed.

End fan_in.

Section group.
Context `{R : Redis} `{J : Json} (K : Keys) (HK : valid_keys K) (q : string) (Hq : brace_free q).
Context (quote : string → string) (sha256hex : bytes → string) (cfg : ServerConfig) (mux : Mux).
Context (f : TaskMessage → bytes).

(** Single tasks on the queue that are due at once and keep nothing behind. *)
Definition immediate_member (now : Z) (m : groupMember) : Prop :=
  match m with Member args opts => immediate q now (Link args opts) | ChainMember _ => False end.

Definition immediate_group (now : Z) (g : Group) : Prop :=
  Forall (immediate_member now) (members g) ∧
  match Builder.callback g with Some (cb, opts) => immediate q now (Link cb opts) | None => False end.

Lemma buildMember_immediate now uuid cbLink n i m t o :
  plain_link q cbLink → immediate_member now m → buildMember now uuid cbLink n i m = Ok (t, o) →
  member_of q uuid cbLink n i t ∧ o_processAt o = zeroTime ∧ (o_uniqueTTL o ≤ 0)%Z.
Proof.
  intros [_ Lq _ _]. destruct m as [args opts|]; [|done]. intros (Eq & Ea & Er) H. unfold buildMember in H.
  apply rbind_ok in H as (o' & Ho & H). apply rwrap_ok in Ho.
  pose proof (resolveChainOptions_ok _ _ _ Ho) as (-> & Hopts).
  apply guard_ok in H as [_ H]. apply guard_ok in H as [_ H].
  apply rbind_ok in H as (b & _ & [= <- <-]). split; [|split; [done|apply Hopts]].
  constructor; simpl; try done. unfold retentionSeconds. by rewrite Er.
Qed.

Lemma buildMembers_ok now uuid cbLink n i l pending :
  plain_link q cbLink → Forall (immediate_member now) l → buildMembers now uuid cbLink n i l = Ok pending →
  length pending = length l ∧
  ∀ j p, pending !! j = Some p →
    member_of q uuid cbLink n (i + j) p.1 ∧ o_processAt p.2 = zeroTime ∧ (o_uniqueTTL p.2 ≤ 0)%Z.
Proof.
  intros Hl. revert i pending. induction l as [|m l IH]; intros i pending Hi H; simpl in H.
  { by injection H as <-. }
  apply Forall_cons in Hi as [Hm Hi]. apply rbind_ok in H as ([t o] & Hto & H).
  apply rbind_ok in H as (ps & Hps & [= <-]). destruct (IH _ _ Hi Hps) as [Hlen Hj].
  split; [simpl; by rewrite Hlen|]. intros [|j] p Hp; simpl in Hp.
  - injection Hp as <-. rewrite Nat.add_0_r. by eapply buildMember_immediate.
  - rewrite Nat.add_succ_r. by apply (Hj j).
Qed.

Lemma memberIDs_ok uuid g cbLink ms :
  length ms = length (members g) → members_of q uuid cbLink (length ms) ms →
  memberIDs uuid g = map m_ID ms.
Proof.
  intros Hlen Hms. unfold memberIDs. apply list_eq. intros i. rewrite list_lookup_imap, list_lookup_fmap.
  destruct (ms !! i) as [t|] eqn:E.
  - destruct (lookup_lt_is_Some_2 (members g) i) as [m ->]; [rewrite <- Hlen; by eapply lookup_lt_Some|].
    simpl. by rewrite (mb_id _ _ _ _ _ _ (Hms i t E)).
  - apply lookup_ge_None in E. rewrite (lookup_ge_None_2 (members g)) by lia. done.
Qed.

(** C8: a group runs to its end.  Enqueue a group of single tasks with its
    callback, due at once, on a queue without other work, and let a worker
    fetch batches of any size and process them; no operation fails and every
    handler succeeds.  Then the deliveries, joined, are the members in their
    order and, after the last of them, the callback, each once; the callback
    carries the members' results in the members' order (none when all are
    empty).  At the end the stream, the pending list, the group's SET and the
    HASH of its results are empty and no task of the group is stored. *)
Theorem group_runs_to_end uuid g cbLink pending worker n k w :
  quiet w → buildGroup (w_clock w) uuid g = Ok (cbLink, pending) → uuid ≠ "" →
  immediate_group (w_clock w) g →
  let ms := map fst pending in
  let cb := callback_with uuid cbLink (map (result_of f) ms) in
  Forall (λ t, utf8_msg t = true ∧ handled quote mux f (active t)) (ms ++ [cb]) →
  utf8_msg (callback_base uuid cbLink) = true → small_msg (callback_base uuid cbLink) = true →
  clear K q (wks w) (list_to_set (map m_ID (ms ++ [cb]))) →
  key_exists (wks w) (GroupKey K q uuid) = false → key_exists (wks w) (GroupResultKey K q uuid) = false →
  length ms < k →
  let r := (GroupEnqueue K sha256hex uuid g;; worker_rounds K q quote cfg mux worker n k) w in
  ∃ outs, r.2 = Ok outs ∧ concat outs = map active (ms ++ [cb]) ∧
    Forall (λ ts, length ts ≤ Z.to_nat (Z.max 1 n)) outs ∧
    clear K q (wks r.1) (list_to_set (map m_ID (ms ++ [cb]))) ∧
    key_exists (wks r.1) (GroupKey K q uuid) = false ∧
    key_exists (wks r.1) (GroupResultKey K q uuid) = false.
Proof.
  intros Hw Hb Huuid [Hi Hicb] ms cb Hh Hu Hsm Hc Hg Hr Hk r.
  pose proof Hb as Hb'. unfold buildGroup in Hb'. apply guard_ok in Hb' as [Hne%bool_decide_eq_true Hb'].
  destruct (Builder.callback g) as [[a opts]|]; [|done].
  apply rbind_ok in Hb' as (link & Hlink & Hb'). apply rwrap_ok in Hlink.
  apply rbind_ok in Hb' as (ps & Hps & [= -> ->]).
  assert (plain_link q cbLink) as Hpl.
  { eapply (immediate_link q (w_clock w) 0 (Link a opts) true); [|done]. simpl. by rewrite Hlink. }
  destruct (buildMembers_ok _ _ _ _ _ _ _ Hpl Hi Hps) as [Hlen Hps'].
  assert (length ms = length (members g)) as Hlen' by (unfold ms; by rewrite length_map).
  assert (members_of q uuid cbLink (length ms) ms) as Hms.
  { intros i t Ht. rewrite Hlen'. unfold ms in Ht. rewrite list_lookup_fmap in Ht.
    destruct (pending !! i) as [p|] eqn:E; simplify_eq/=. by apply (Hps' i). }
  assert (ms ≠ []) as Hne' by (destruct ms, (members g); done).
  change (wpm (GroupEnqueue K sha256hex uuid g;; worker_rounds K q quote cfg mux worker n k)
    (λ r w', ∃ outs, r = Ok outs ∧ concat outs = map active (ms ++ [cb]) ∧
       Forall (λ ts, length ts ≤ Z.to_nat (Z.max 1 n)) outs ∧
       clear K q (wks w') (list_to_set (map m_ID (ms ++ [cb]))) ∧
       key_exists (wks w') (GroupKey K q uuid) = false ∧
       key_exists (wks w') (GroupResultKey K q uuid) = false) w).
  apply wpm_bind. unfold GroupEnqueue. apply wpm_bind, wpm_now, wpm_bind. rewrite Hb. apply wpm_ret.
  pose proof (memberIDs_ok uuid g cbLink ms Hlen' Hms) as Eids.
  rewrite Eids, (pk_queue _ _ Hpl).
  assert (key_exists (wks w) (TaskKey K q (uuid +:+ ":cb")) = false) as Hcb.
  { apply (cl_gone _ _ _ _ Hc). apply elem_of_list_to_set. rewrite map_app. set_solver. }
  apply wpm_bind, (CreateGroup_barrier K HK q Hq f uuid cbLink Hpl Huuid ms Hms Hne' []); [done|by eapply line_start|done..|].
  intros w1 Hw1 Hl1 Hg1. apply wpm_bind. eapply wpm_mono.
  { apply (dispatchMembers_line K HK q Hq f uuid cbLink Hpl Huuid ms Hms Hne' sha256hex 0 pending []); [done..| |].
    - apply Forall_forall. intros p Hp. pose proof Hp as [i Hi']%list_elem_of_lookup.
      assert (p.1 ∈ ms) as Hin by (apply list_elem_of_fmap; by exists p).
      split; [done|]. split; [|by apply (Hps' i)]. rewrite Forall_forall in Hh. apply Hh. set_solver.
    - pose proof (plan_distinct q f uuid cbLink ms Hms Hne') as Hd. unfold plan in Hd. rewrite map_app in Hd.
      by apply NoDup_app in Hd as [? _]. }
  intros r2 w2 (-> & Hw2 & Hg2 & es & Hes & Hl2). simpl in Hl2. apply wpm_ret.
  by apply (fan_in_runs K HK q Hq f uuid cbLink Hpl Huuid ms Hms Hne' quote cfg mux Hh Hu Hsm worker n k es).
Qed.

End group.

(** Three members, the second of which has nothing to say, and a callback. *)
Definition quiet_result (t : TaskMessage) : bytes :=
  if bool_decide (m_Payload t = "hush") then "" else m_Payload t +:+ "!".
Definition quiet_echo : Mux := {["email" := λ t, (with_Result (quiet_result t) t, Returned None)]}.

Definition demo_fan : Group :=
  OnComplete
    (Add (Add (Add NewGroup (relay_args "a") [WithQueue "q"]) (relay_args "hush") [WithQueue "q"])
       (relay_args "c") [WithQueue "q"; WithMaxRetry 2])
    (relay_args "join") [WithQueue "q"].

Definition fan_built : ChainLink * list (TaskMessage * enqueueOptions) :=
  match buildGroup (w_clock demo_start) "g" demo_fan with
  | Ok p => p
  | Err _ => (MkChainLink "" "" "" 0 false 0 0 [], [])
  end.

Definition fan_tasks : list TaskMessage :=
  map fst fan_built.2 ++ [callback_with "g" fan_built.1 (map (result_of quiet_result) (map fst fan_built.2))].

Lemma fan_tasks_handled :
  Forall (λ t, utf8_msg t = true ∧ handled (λ s, s) quiet_echo quiet_result (active t)) fan_tasks.
Proof.
  assert (forallb (λ t, utf8_msg t && bool_decide (m_Kind t = "email")) fan_tasks = true) as H by by vm_compute.
  rewrite forallb_forall in H. apply Forall_forall. intros t Ht%list_elem_of_In.
  apply H in Ht. apply andb_true_iff in Ht as [Hu Hk]. apply bool_decide_eq_true in Hk.
  split; [done|]. unfold handled, dispatchSafely, dispatch. simpl. by rewrite Hk.
Qed.

Lemma fan_start_clear : clear DefaultKeys "q" (wks demo_start) (list_to_set (map m_ID fan_tasks)).
Proof.
  constructor; [vm_compute; reflexivity|exists 0%Z; split; by vm_compute|].
  assert (Forall (λ x, key_exists (wks demo_start) (TaskKey DefaultKeys "q" x) = false) (map m_ID fan_tasks)) as Hf.
  { apply (bool_decide_unpack _). vm_compute. exact I. }
  intros x Hx%elem_of_list_to_set. rewrite Forall_forall in Hf. by apply Hf.
Qed.

Lemma group_runs_to_end_witness :
  let r := (GroupEnqueue DefaultKeys (λ s, s) "g" demo_fan;;
            worker_rounds DefaultKeys "q" (λ s, s) demo_plain_cfg quiet_echo "w1" 2 4) demo_start in
  (∃ outs, r.2 = Ok outs ∧ concat outs = map active fan_tasks) ∧
  map (λ t, (m_ID t, m_GroupResults t)) fan_tasks
  = [("g:m0", []); ("g:m1", []); ("g:m2", []); ("g:cb", ["a!"; ""; "c!"])].
Proof.
  intros r. split; [|by vm_compute].
  destruct (group_runs_to_end DefaultKeys ltac:(by exists "chronos") "q"
              ltac:(by apply (bool_decide_unpack (brace_free "q")))
              (λ s, s) (λ s, s) demo_plain_cfg quiet_echo quiet_result
              "g" demo_fan fan_built.1 fan_built.2 "w1" 2 4 demo_start eq_refl) as (outs & Hr & Hc & _).
  - vm_compute. reflexivity.
  - done.
  - split; repeat constructor.
  - exact fan_tasks_handled.
  - vm_compute. reflexivity.
  - vm_compute. reflexivity.
  - exact fan_start_clear.
  - vm_compute. reflexivity.
  - vm_compute. reflexivity.
  - vm_compute. lia.
  - exists outs. split; [exact Hr|exact Hc].
Defined.

End FanInSpec.
