(* ===== verification/TimetableSpec.v ===== *)
(** * Delayed tasks keep their times

    Tasks enqueued for later, the ZSET they wait in, the forwarder and a
    worker, composed: every task is delivered once, in the order of the times
    asked for and not before them. *)

From S2P Require Import Prelude GoLib Base Redis RedisFacts Client RdbCore Options Instances.
From S2P Require Import Retry Handler Server CoreSpec FlowSpec ServerSpec ScoreSpec CrashSpec ChainSpec LineSpec.
From Stdlib Require Import Ascii.

Module TimetableSpec.
Import GoTime GoFloat GoStr Keys Task Redis RedisFacts Client RdbCore Options.
Import Retry Handler Server CoreSpec FlowSpec ScoreSpec ChainSpec LineSpec.

#[local] Arguments mbind {_ _ _ _} _ _ : simpl never.

(** ** Time passes *)

(** Keys without a deadline stay as they are. *)
Lemma elapse_frame dt m : frame (elements (dom (k_exp m))) m (elapse dt m).
Proof.
  intros k Hk. rewrite elem_of_elements, not_elem_of_dom in Hk.
  repeat split; simpl; by apply CrashSpec.elapse_lookup.
Qed.

Lemma elapse_lasting dt m : lasting m (elapse dt m).
Proof. intros k Hk. simpl. apply map_lookup_filter_None. by left. Qed.

Lemma frame_zset ks k m m' : frame ks m m' → k ∉ ks → zset_at m' k = zset_at m k.
Proof. intros Hf Hk. destruct (Hf k Hk) as (_ & _ & _ & E & _). unfold zset_at, z_at. by rewrite E. Qed.

#[global] Instance zle_antisymm : AntiSymm (=) zle.
Proof.
  intros [a x] [b y]. unfold zle; simpl. intros [?|[-> ?]] [?|[? ?]]; try lia.
  f_equal. by apply (anti_symm String.le).
Qed.

(** ** The board

    Where the tasks wait that are not due yet, with their times. *)
Section board.
Context `{R : Redis} `{J : Json} (K : Keys) (HK : valid_keys K) (q : string) (Hq : brace_free q).

Definition slot (p : TaskMessage * Z) : string * score := (m_ID p.1, scheduleScore p.2).

Record board (m : keyspace) (pend : list (TaskMessage * Z)) : Prop := MkBoard {
  bd_slots : zset_at m (ScheduledKey K q) = list_to_map (map slot pend);
  bd_retry : zset_at m (RetryKey K q) = ∅;
  bd_bodies : Forall (λ p, has_body K q m p.1) pend;
}.

Definition names (l : list (TaskMessage * Z)) : list string := map (λ p, m_ID p.1) l.

Lemma slot_names l : map fst (map slot l) = names l.
Proof. rewrite map_map. done. Qed.

(** The keys the tasks [l] live in. *)
Definition board_keys (l : list (TaskMessage * Z)) : list string :=
  ScheduledKey K q :: RetryKey K q :: keys_of_tasks K q (names l).

Lemma board_frame ks m m' pend :
  frame ks m m' → ScheduledKey K q ∉ ks → RetryKey K q ∉ ks →
  Forall (λ p, TaskKey K q (m_ID p.1) ∉ ks) pend → board m pend → board m' pend.
Proof.
  intros Hf Hs Hr Ht []. constructor.
  - by rewrite (frame_zset _ _ _ _ Hf Hs).
  - by rewrite (frame_zset _ _ _ _ Hf Hr).
  - rewrite Forall_forall in Ht, bd_bodies0 |- *. intros p Hp.
    eapply has_body_frame; [exact Hf|by apply Ht|by apply bd_bodies0].
Qed.

Lemma board_perm m pend pend' : NoDup (names pend) → pend ≡ₚ pend' → board m pend → board m pend'.
Proof.
  intros Hnd Hp []. constructor; [|done|by rewrite <- Hp].
  rewrite bd_slots0. apply list_to_map_proper; [|by rewrite Hp].
  change (NoDup (map fst (map slot pend))). by rewrite slot_names.
Qed.

(** ** Being put on the board *)

Lemma frame_zadd k sc x m : frame [k] m (do_zadd k sc x m).
Proof.
  intros k' Hk'. assert (k ≠ k') by set_solver. repeat split. simpl. unfold z_add.
  by rewrite lookup_insert_ne.
Qed.

(** A task's key, the board and the rest of the queue are apart. *)
Lemma apart x y : x ≠ y → queueKey K q x ∉ [queueKey K q y].
Proof. intros Hne E%list_elem_of_singleton. by apply (queueKey_inj K q x y) in E. Qed.

Lemma Schedule_board pend t T (Q : result () → world → Prop) w :
  quiet w → board (wks w) pend → line K q (wks w) [] [] → m_Queue t = q → utf8_msg t = true →
  m_ID t ∉ names pend →
  (∀ w', quiet w' → w_clock w' = w_clock w → board (wks w') (pend ++ [(t, T)]) → line K q (wks w') [] [] →
     lasting (wks w) (wks w') → Q (Ok ()) w') →
  wpm (Schedule K t T) Q w.
Proof.
  intros Hw Hb Hl Eq Hu Hni HQ. unfold Schedule. simpl. rewrite Eq. apply wpm_bind, registerQueue_quiet; [done|].
  intros w1 Hw1 Hc1 Hm1. pose proof (frame_index [QueuesKey K] _ _ _ _ Hm1 ltac:(set_solver)) as Hf1.
  assert (∀ x, queueKey K q x ∉ [QueuesKey K]) as Hnq.
  { intros x E%list_elem_of_singleton. symmetry in E. by apply (not_queues K HK q x) in E. }
  assert (lasting (wks w) (wks w1)) as Hla1 by (by destruct Hm1 as [-> | ->]; intros k).
  apply (line_frame K q _ _ _ _ _ Hf1 (Hnq KStream)) in Hl as Hl1; [|by constructor].
  assert (board (wks w1) pend) as Hb1.
  { eapply board_frame; [exact Hf1|apply (Hnq KScheduled)|apply (Hnq KRetry)| |done].
    apply Forall_forall. intros p _. apply (Hnq (KTask (m_ID p.1))). }
  clear Hb Hl Hf1 Hm1. apply wpm_bind, wpm_run_quiet; [done|]. unfold scheduleCmd. wps_steps. intros s' Hs'.
  set (m1 := do_hset _ _ _) in Hs'.
  assert (frame [TaskKey K q (m_ID t)] (wks w1) m1) as Hf by apply frame_hset.
  assert (board m1 pend) as Hb.
  { eapply board_frame; [exact Hf|by apply (apart KScheduled (KTask (m_ID t)))|by apply (apart KRetry (KTask (m_ID t)))| |done].
    apply Forall_forall. intros p Hp. apply (apart (KTask (m_ID p.1)) (KTask (m_ID t))). intros [= E]. apply Hni.
    unfold names. rewrite <- E. apply list_elem_of_fmap. by exists p. }
  apply (line_frame K q _ _ _ _ _ Hf) in Hl1 as Hl; [|by apply (apart KStream (KTask (m_ID t)))|by constructor].
  assert (has_body K q m1 t) as Hbody.
  { eapply body_stored. by apply (CrashSpec.decode_state StateScheduled). }
  assert (lasting (wks w1) m1) as Hla2 by (by intros k).
  clearbody m1.
  assert (frame [ScheduledKey K q; CompletedKey K q; ArchivedKey K q] m1 (ks s')) as Hf2.
  { rewrite Hs'. eapply frame_step; [apply frame_zadd| |eapply frame_step; [apply frame_zrem| |
      eapply frame_weaken, frame_zrem]]; set_solver. }
  assert (∀ x, x ≠ KScheduled → x ≠ KCompleted → x ≠ KArchived →
            queueKey K q x ∉ [ScheduledKey K q; CompletedKey K q; ArchivedKey K q]) as Hx.
  { intros x H1 H2 H3. rewrite !not_elem_of_cons. split_and!; [..|by apply not_elem_of_nil];
      intros E; [apply (queueKey_inj K q x KScheduled) in E|apply (queueKey_inj K q x KCompleted) in E|
                 apply (queueKey_inj K q x KArchived) in E]; done. }
  apply wpm_ret, (HQ (set_store s' w1)); [done|done|..]; rewrite wks_set_store.
  - destruct Hb as [Hs Hr Hbs]. constructor.
    + rewrite map_app. change (map slot [(t, T)]) with [(m_ID t, scheduleScore T)]. rewrite list_to_map_snoc.
      * rewrite Hs', <- Hs. unfold zset_at; simpl. rewrite !z_at_rem, !decide_False.
        -- by rewrite z_at_add, decide_True.
        -- intros E. by apply (queueKey_inj K q KCompleted KScheduled) in E.
        -- intros E. by apply (queueKey_inj K q KArchived KScheduled) in E.
      * change (m_ID t ∉ map fst (map slot pend)). by rewrite slot_names.
    + rewrite (frame_zset _ _ _ _ Hf2); [done|by apply (Hx KRetry)].
    + apply Forall_app. split; [|constructor; [|constructor]].
      * rewrite Forall_forall in Hbs |- *. intros p Hp.
        eapply has_body_frame; [exact Hf2|by apply (Hx (KTask _))|by apply Hbs].
      * eapply has_body_frame; [exact Hf2|by apply (Hx (KTask _))|done].
  - apply (line_frame K q _ _ _ _ _ Hf2); [by apply (Hx KStream)|by constructor|done].
  - intros k Hk. rewrite Hs'. apply lasting_zrem, lasting_zrem. simpl. by apply Hla2, Hla1.
Qed.

(** ** Being taken off it *)

Lemma zsorted_slots pend :
  StronglySorted zle (map slot pend) → NoDup (names pend) →
  zsorted (list_to_map (map slot pend)) = map slot pend.
Proof.
  intros Hs Hnd. apply (StronglySorted_unique zle); [apply zsorted_sorted|done|].
  rewrite zsorted_perm. apply map_to_list_to_map.
  change (NoDup (map fst (map slot pend))). by rewrite slot_names.
Qed.

(** What is due is a front part of the sorted board. *)
Lemma due_front c pend :
  StronglySorted zle (map slot pend) →
  ∃ k, k ≤ length pend ∧ filter (λ p, p.2 ≤ c)%Z (map slot pend) = map slot (take k pend) ∧
    Forall (λ p, scheduleScore p.2 ≤ c)%Z (take k pend) ∧
    Forall (λ p, c < scheduleScore p.2)%Z (drop k pend).
Proof.
  induction pend as [|p pend IH]; intros Hs; [by exists 0|]. simpl in Hs.
  apply StronglySorted_inv in Hs as [Hs Hp].
  destruct (decide (scheduleScore p.2 ≤ c)%Z) as [Hle|Hgt].
  - destruct (IH Hs) as (k & Hk & E & H1 & H2). exists (S k). simpl. rewrite filter_cons_True by done.
    split_and!; [lia|by rewrite E|by constructor|done].
  - exists 0. simpl. split_and!; [lia| |constructor|].
    + apply filter_none. intros x [-> |Hx]%elem_of_cons; [done|]. rewrite Forall_forall in Hp.
      destruct (Hp x Hx) as [?|[? _]]; simpl in *; lia.
    + constructor; [lia|]. rewrite Forall_map in Hp. eapply Forall_impl; [exact Hp|].
      intros s [?|[? _]]; simpl in *; lia.
Qed.

(** One task moves from the board to the stream. *)
Lemma forward_one p pend ws e s m :
  board m (p :: pend) → line K q m [] ws → NoDup (ids ws ++ names (p :: pend)) →
  (st_last (stream_at m (StreamKey K q)) < e)%Z →
  let m' := do_zrem (ScheduledKey K q) (m_ID p.1)
              (do_hset (TaskKey K q (m_ID p.1)) [("state", s)] (do_xadd (StreamKey K q) e (m_ID p.1) m)) in
  board m' pend ∧ line K q m' [] (ws ++ [(e, p.1)]) ∧
  frame (ScheduledKey K q :: keys_of_tasks K q [m_ID p.1]) m m' ∧ lasting m m'.
Proof.
  intros [Hs Hr Hb] Hl Hnd He m'. apply Forall_cons in Hb as [Hp Hb].
  apply NoDup_app in Hnd as (_ & Hdis & Hnd). simpl in Hnd. apply NoDup_cons in Hnd as [Hni Hnd].
  set (m1 := do_xadd (StreamKey K q) e (m_ID p.1) m) in *.
  set (m2 := do_hset (TaskKey K q (m_ID p.1)) [("state", s)] m1) in *.
  assert (line K q m2 [] (ws ++ [(e, p.1)])) as Hl2 by (by apply line_state, line_admit).
  assert (frame (keys_of_tasks K q [m_ID p.1]) m m2) as Hf.
  { eapply frame_step; [apply frame_xadd| |eapply frame_weaken, frame_hset]; unfold keys_of_tasks; set_solver. }
  assert (frame [ScheduledKey K q] m2 m') as Hf' by apply frame_zrem.
  assert (∀ x, x ≠ KStream → x ≠ KTask (m_ID p.1) → queueKey K q x ∉ keys_of_tasks K q [m_ID p.1]) as Hx.
  { intros x H1 H2. unfold keys_of_tasks. simpl. rewrite !not_elem_of_cons.
    split_and!; [..|by apply not_elem_of_nil]; intros E;
      [apply (queueKey_inj K q x KStream) in E|apply (queueKey_inj K q x (KTask _)) in E]; done. }
  split_and!.
  - constructor.
    + assert (zset_at m2 (ScheduledKey K q) = zset_at m (ScheduledKey K q)) as E
        by (eapply frame_zset; [exact Hf|by apply (Hx KScheduled)]).
      assert (zset_at m' (ScheduledKey K q) = delete (m_ID p.1) (zset_at m2 (ScheduledKey K q))) as ->
        by (unfold m', zset_at; simpl; by rewrite z_at_rem, decide_True).
      rewrite E, Hs. simpl.
      rewrite delete_insert_id; [done|]. apply not_elem_of_list_to_map_1.
      change (m_ID p.1 ∉ map fst (map slot pend)). by rewrite slot_names.
    + rewrite (frame_zset _ _ _ _ Hf') by by apply (apart KRetry KScheduled).
      rewrite (frame_zset _ _ _ _ Hf); [done|by apply (Hx KRetry)].
    + rewrite Forall_forall in Hb |- *. intros x Hin.
      eapply has_body_frame; [exact Hf'|by apply (apart (KTask _) KScheduled)|].
      eapply has_body_frame; [exact Hf| |by apply Hb]. apply (Hx (KTask _)); [done|]. intros [= E].
      apply Hni. rewrite <- E. unfold names. apply list_elem_of_fmap. by exists x.
  - eapply line_frame; [exact Hf'|by apply (apart KStream KScheduled)| |done].
    apply Forall_forall. intros x _. by apply (apart (KTask _) KScheduled).
  - eapply frame_step; [exact Hf| |eapply frame_weaken; [|exact Hf']]; set_solver.
  - intros k Hk. by apply lasting_zrem.
Qed.

Lemma forward_loop l1 l2 ws s m :
  board m (l1 ++ l2) → line K q m [] ws → NoDup (ids ws ++ names (l1 ++ l2)) →
  wps (foreach (names l1) (λ id,
         call (XADD (StreamKey K q) id);;
         call (HSET (TaskKeyPrefix K q +:+ id) [("state", s)]);;
         call (ZREM (ScheduledKey K q) id);; mret ()))
    (λ _ m', ∃ es, map snd es = map fst l1 ∧ board m' l2 ∧ line K q m' [] (ws ++ es) ∧
       frame (ScheduledKey K q :: keys_of_tasks K q (names l1)) m m' ∧ lasting m m') m.
Proof.
  revert ws m. induction l1 as [|p l1 IH]; intros ws m Hb Hl Hnd.
  { apply wps_ret. exists []. rewrite app_nil_r. split_and!; [done..|]. by intros k. }
  simpl. wps_steps. match goal with H : (_ < ?id)%Z |- _ => rename H into He; rename id into e end.
  rewrite TaskKey_concat.
  destruct (forward_one p (l1 ++ l2) ws e s m Hb Hl Hnd He) as (Hb' & Hl' & Hf' & Hla').
  eapply wps_mono; [apply (IH (ws ++ [(e, p.1)])); [exact Hb'|exact Hl'|]|].
  { unfold ids. rewrite map_app, <- app_assoc. exact Hnd. }
  intros _ m' (es & Hes & Hb2 & Hl2 & Hf2 & Hla2). exists ((e, p.1) :: es). simpl.
  rewrite <- app_assoc in Hl2. split_and!; [by rewrite Hes|done|done| |by etrans].
  eapply frame_step; [exact Hf'| |eapply frame_weaken; [|exact Hf2]]; unfold keys_of_tasks, names; simpl; set_solver.
Qed.

(** The forwarder moves what is due, from the front, at most a batch of it. *)
Lemma ForwardScheduled_board pend ws t max (Q : result Z → world → Prop) w :
  quiet w → board (wks w) pend → line K q (wks w) [] ws → StronglySorted zle (map slot pend) →
  NoDup (ids ws ++ names pend) → (1 ≤ max)%Z →
  (∀ k es w', quiet w' → k ≤ length pend →
     Forall (λ p, scheduleScore p.2 ≤ scheduleScore t)%Z (take k pend) →
     (k = Z.to_nat max ∨ Forall (λ p, scheduleScore t < scheduleScore p.2)%Z (drop k pend)) →
     map snd es = map fst (take k pend) → board (wks w') (drop k pend) → line K q (wks w') [] (ws ++ es) →
     frame (ScheduledKey K q :: keys_of_tasks K q (names (take k pend))) (wks w) (wks w') →
     lasting (wks w) (wks w') → Q (Ok (Z.of_nat k)) w') →
  wpm (ForwardScheduled K q t max) Q w.
Proof.
  intros Hw Hb Hl Hs Hnd Hmax HQ. unfold ForwardScheduled. apply wpm_run_quiet; [done|].
  unfold forwardCmd. apply wps_bind, wps_call. cbn [cmd_reply cmd_effect]. intros l ->.
  destruct (due_front (scheduleScore t) pend Hs) as (k & Hk & E & H1 & H2).
  rewrite (bd_slots _ _ Hb). unfold zrangebyscore.
  rewrite zsorted_slots, E, slot_names by (done || by apply NoDup_app in Hnd as (_ & _ & ?)).
  set (j := Z.to_nat max `min` k).
  assert (take_limit max (names (take k pend)) = names (take j pend)) as ->.
  { unfold take_limit. rewrite bool_decide_false by lia. unfold names. by rewrite firstn_map, take_take. }
  apply wps_bind. eapply wps_mono.
  { apply (forward_loop (take j pend) (drop j pend) ws); rewrite ?take_drop; done. }
  intros _ m' (es & Hes & Hb' & Hl' & Hf' & Hla'). apply wps_ret. intros s' <-.
  assert (length (names (take j pend)) = j) as Hlen.
  { unfold names. rewrite length_map, length_take. lia. }
  rewrite Hlen. apply (HQ j es (set_store s' w)); rewrite ?wks_set_store; try done; [lia| |].
  - unfold j. rewrite <- take_take. by apply Forall_take.
  - destruct (decide (Z.to_nat max ≤ k)) as [?|?]; [left; lia|right]. by replace j with k by lia.
Qed.

(** ** Rounds

    The worker sleeps, the forwarder's turn comes, the worker fetches and
    processes a batch.  A round returns the forwarder's clock and what was
    delivered. *)
Context (quote : string → string) (cfg : ServerConfig) (mux : Mux) (f : TaskMessage → bytes).

Definition timed_round (worker : string) (n : Z) (nap : N) : M (Z * list TaskMessage) :=
  sleep nap;;
  t ← now; logged (ForwardRetry K q t forwardBatchSize);;
  t ← now; logged (ForwardScheduled K q t forwardBatchSize);;
  ts ← worker_round K q quote cfg mux worker n;
  mret (t, ts).

Fixpoint timed_rounds (worker : string) (n : Z) (naps : list N) : M (list (Z * list TaskMessage)) :=
  match naps with
  | [] => mret []
  | nap :: naps => o ← timed_round worker n nap; l ← timed_rounds worker n naps; mret (o :: l)
  end.

(** The tasks in the order of their times. *)
Context (order : list (TaskMessage * Z)).
Hypothesis Hsorted : StronglySorted zle (map slot order).
Hypothesis Hnames : NoDup (names order).
Hypothesis Hsingle : Forall (λ p, single q quote mux f p.1) order.

Definition tasks : list TaskMessage := map fst order.

(** The first [d] are done; those from the [v]-th on are on the board. *)
Definition rest (v d : nat) (m : keyspace) : Prop :=
  gone K q tasks d m ∧ board m (drop v order) ∧ Forall (λ k, k_exp m !! k = None) (board_keys order).

Definition at_round (v d : nat) (ws : list (sid * TaskMessage)) : world → Prop :=
  running K q (take v tasks) (λ _, v) (rest v) d [] ws.

Lemma order_split v d : d ≤ v → order = take d order ++ drop d (take v order) ++ drop v order.
Proof.
  intros Hd. rewrite <- (take_drop v order) at 1. rewrite app_assoc. f_equal.
  rewrite <- (take_drop d (take v order)) at 1. by rewrite take_take, Nat.min_l by lia.
Qed.

Lemma sight v d : in_sight (take v tasks) (λ _, v) d = map fst (drop d (take v order)).
Proof. unfold in_sight, tasks. by rewrite take_take, Nat.min_id, firstn_map, skipn_map. Qed.

Lemma ids_names (l : list (TaskMessage * Z)) : map m_ID (map fst l) = names l.
Proof. rewrite map_map. done. Qed.


Lemma names_of (p : TaskMessage * Z) l : p ∈ l → m_ID p.1 ∈ names l.
Proof. intros Hp. unfold names. apply list_elem_of_fmap. by exists p. Qed.

Lemma names_disjoint l1 l2 l3 :
  order = l1 ++ l2 ++ l3 →
  (∀ x, x ∈ names l2 → x ∉ names l1 ∧ x ∉ names l3).
Proof.
  intros E x Hx. rewrite E in Hnames. unfold names in *. rewrite !map_app in Hnames.
  apply NoDup_app in Hnames as (_ & H1 & H2). apply NoDup_app in H2 as (_ & H2 & _). split.
  - intros Hx1. apply (H1 x Hx1), elem_of_app. by left.
  - by apply H2.
Qed.

Lemma rest_frame ks v d m m' :
  frame ks m m' → lasting m m' → ScheduledKey K q ∉ ks → RetryKey K q ∉ ks →
  (∀ p, p ∈ drop v order → TaskKey K q (m_ID p.1) ∉ ks) →
  (∀ p, p ∈ take d order → TaskKey K q (m_ID p.1) ∉ ks) → rest v d m → rest v d m'.
Proof.
  intros Hf Hla Hs Hr Hv Hd (Hg & Hb & He). split_and!.
  - intros t Ht. unfold tasks in Ht. rewrite firstn_map in Ht. apply list_elem_of_fmap in Ht as (p & -> & Hp).
    destruct (frame_keep _ _ _ _ Hf (Hd p Hp)) as (_ & _ & _ & ->). apply Hg. unfold tasks.
    rewrite firstn_map. apply list_elem_of_fmap. by exists p.
  - eapply board_frame; [exact Hf|done|done| |done]. apply Forall_forall. exact Hv.
  - eapply Forall_impl; [exact He|]. intros k. apply Hla.
Qed.

Lemma not_task_keys x l : x ≠ KStream → (∀ T, T ∈ l → x ≠ KTask T) → queueKey K q x ∉ keys_of_tasks K q l.
Proof.
  intros Hx Hl. unfold keys_of_tasks. apply not_elem_of_cons. split.
  - by intros E%(queueKey_inj K q x KStream).
  - intros (T & E & HT)%list_elem_of_fmap. apply (queueKey_inj K q x (KTask T)) in E. by apply (Hl T HT).
Qed.

(** The worker's own changes leave the rest alone. *)
Lemma rest_kept v d l1 l2 l3 m m' :
  order = l1 ++ l2 ++ l3 → take d order = l1 → drop v order ⊆ l3 →
  frame (keys_of_tasks K q (names l2)) m m' → lasting m m' → rest v d m → rest v d m'.
Proof.
  intros E E1 E3 Hf Hla. pose proof (names_disjoint _ _ _ E) as Hd.
  apply (rest_frame _ _ _ _ _ Hf Hla); [by apply (not_task_keys KScheduled)|by apply (not_task_keys KRetry)|..];
    intros p Hp; apply (not_task_keys (KTask _)); try done; intros T HT [= <-]; apply Hd in HT as [H1 H3].
  - by apply H3, names_of, E3.
  - rewrite E1 in Hp. by apply H1, names_of.
Qed.

Lemma step_round v d p c ws w :
  d ≤ v → running K q (take v tasks) (λ _, v) (rest v) d (p :: c) ws w →
  wpm (process K quote cfg mux q p.1 (active p.2))
    (λ r w', (∃ l, r = Ok l) ∧ ∃ es, running K q (take v tasks) (λ _, v) (rest v) (S d) c (ws ++ es) w') w.
Proof.
  intros Hdv [Hw Hl Ht He]. rewrite sight in Ht. simpl in Ht.
  destruct (drop d (take v order)) as [|x l2] eqn:E2; [done|]. injection Ht as Hp Ht.
  pose proof (order_split v d Hdv) as E. rewrite E2 in E.
  assert (order !! d = Some x) as Hx.
  { assert (drop d (take v order) !! 0 = Some x) as H by by rewrite E2. rewrite lookup_drop, Nat.add_0_r in H.
    by apply lookup_take_Some in H as [? _]. }
  assert (single q quote mux f p.2) as Hs.
  { rewrite Hp. rewrite Forall_forall in Hsingle. apply Hsingle. by eapply list_elem_of_lookup_2. }
  assert (NoDup (ids (p :: c ++ ws))) as Hnd.
  { assert (ids (p :: c ++ ws) = names (x :: l2)) as ->.
    { unfold ids, names. simpl. rewrite Hp. f_equal. rewrite <- (map_map snd m_ID), Ht, map_map. done. }
    rewrite E in Hnames. unfold names in *. rewrite !map_app in Hnames.
    apply NoDup_app in Hnames as (_ & _ & H). by apply NoDup_app in H as (? & _ & _). }
  eapply wpm_mono; [by apply (process_single K HK q Hq quote cfg mux f p c ws)|].
  intros r w' (Hr & Hw' & Hl' & Hf & Hla & Hk). split; [done|]. exists []. rewrite app_nil_r.
  rewrite Hp in Hf, Hk.
  assert (rest v d (wks w')) as (Hg & Hb & Hex).
  { eapply (rest_kept v d (take d order) [x] (l2 ++ drop v order)); [done|done| |exact Hf|done|done]. set_solver. }
  constructor; [done|done| |].
  - rewrite sight, Ht. f_equal. replace (S d) with (d + 1) by lia. by rewrite <- drop_drop, E2.
  - split_and!; [|done|done]. intros t. unfold tasks. rewrite firstn_map, (take_S_r _ _ x) by done.
    rewrite map_app. intros [Ht'| ->%list_elem_of_singleton]%elem_of_app; [|done].
    apply Hg. unfold tasks. by rewrite firstn_map.
Qed.

Lemma rest_between v d m m' :
  rest v d m → frame (keys_of_tasks K q (map m_ID (in_sight (take v tasks) (λ _, v) d))) m m' →
  lasting m m' → rest v d m'.
Proof.
  intros He Hf Hla. rewrite sight, ids_names in Hf. destruct (decide (d ≤ v)) as [Hd|Hd].
  - eapply (rest_kept v d _ _ _ m m' (order_split v d Hd)); done.
  - rewrite (skipn_all2 (take v order)) in Hf by (rewrite length_take; lia).
    apply (rest_frame _ _ _ _ _ Hf Hla); [by apply (not_task_keys KScheduled)|by apply (not_task_keys KRetry)|..|done];
      intros p Hp; apply (not_task_keys (KTask _)); try done; by intros T HT%elem_of_nil.
Qed.

Lemma work_round worker n v d ws w :
  at_round v d ws w →
  wpm (worker_round K q quote cfg mux worker n)
    (λ r w', ∃ k ws', r = Ok (map active (take k (drop d tasks))) ∧ (0 < k → d + k ≤ v) ∧
       k ≤ length (drop d tasks) ∧ k ≤ Z.to_nat (Z.max 1 n) ∧ (d < v → d < length order → 0 < k) ∧
       at_round v (d + k) ws' w') w.
Proof.
  intros Hr. eapply wpm_mono.
  { apply (plan_round K HK q Hq quote cfg mux (take v tasks) (λ _, v) (rest v)) with (d := d) (ws := ws); [..|exact Hr].
    - intros d' Hd'. rewrite length_take in Hd'. lia.
    - intros d' m m'. apply rest_between.
    - intros d' p c ws' w' Hr'. apply step_round; [|done]. pose proof (rn_tasks _ _ _ _ _ _ _ _ _ Hr') as Ht.
      unfold in_sight in Ht. apply (f_equal length) in Ht. rewrite length_drop, !length_take in Ht. simpl in Ht. lia. }
  intros r w' (k & ws' & -> & Hk & Hkn & Hpos & Hr'). rewrite length_drop, length_take in Hk.
  exists k, ws'. split_and!; [|lia|rewrite length_drop; lia|done| |exact Hr'].
  - do 2 f_equal. rewrite skipn_firstn_comm, take_take. by replace (k `min` (v - d)) with k by lia.
  - intros Hd Hd2. apply Hpos. rewrite length_take. unfold tasks. rewrite length_map. lia.
Qed.

Lemma at_round_pass nap v d ws w : at_round v d ws w → at_round v d ws (pass nap w).
Proof.
  intros [Hw Hl Ht He]. pose proof (elapse_frame (Z.of_N nap) (wks w)) as Hf.
  pose proof (elapse_lasting (Z.of_N nap) (wks w)) as Hla.
  pose proof He as (_ & _ & Hex).
  assert (∀ k, k ∈ board_keys order → k ∉ elements (dom (k_exp (wks w)))) as Hk.
  { intros k Hk. rewrite elem_of_elements, not_elem_of_dom. rewrite Forall_forall in Hex. by apply Hex. }
  assert (∀ p, p ∈ order → TaskKey K q (m_ID p.1) ∈ board_keys order) as Hin.
  { intros p Hp. unfold board_keys, keys_of_tasks. do 3 right. apply list_elem_of_fmap_2. by apply names_of. }
  assert (∀ p, p ∈ order → TaskKey K q (m_ID p.1) ∉ elements (dom (k_exp (wks w)))) as Hout by auto.
  constructor; [done|rewrite CrashSpec.wks_pass|done|rewrite CrashSpec.wks_pass].
  - eapply line_frame; [exact Hf|apply Hk; do 2 right; left| |done].
    rewrite sight in Ht. apply Forall_forall. intros p Hp.
    assert (p.2 ∈ map fst (drop d (take v order))) as (x & -> & Hx)%list_elem_of_fmap
      by (rewrite <- Ht; by apply list_elem_of_fmap_2).
    apply Hout. by apply (subseteq_take v), (subseteq_drop d).
  - eapply rest_frame; [exact Hf|done|apply Hk; left|apply Hk; right; left|..|done];
      intros p Hp; apply Hout; [by apply (subseteq_drop v)|by apply (subseteq_take d)].
Qed.

Lemma StronglySorted_slots_drop v : StronglySorted zle (map slot (drop v order)).
Proof.
  rewrite <- skipn_map. by apply StronglySorted_drop.
Qed.

(** The forwarder's turn. *)
Lemma forward_round t v d ws (Q : result Z → world → Prop) w :
  at_round v d ws w → d ≤ v → v ≤ length order →
  (∀ k ws' w', at_round (v + k) d ws' w' → v + k ≤ length order →
     Forall (λ p, scheduleScore p.2 ≤ scheduleScore t)%Z (take k (drop v order)) →
     (0 < k ∨ Forall (λ p, scheduleScore t < scheduleScore p.2)%Z (drop (v + k) order)) →
     Q (Ok (Z.of_nat k)) w') →
  wpm (ForwardScheduled K q t forwardBatchSize) Q w.
Proof.
  intros [Hw Hl Ht (Hg & Hb & Hex)] Hd Hv HQ.
  assert (ids ws = names (drop d (take v order))) as Hids.
  { rewrite sight in Ht. simpl in Ht. unfold ids. rewrite <- (map_map snd m_ID), Ht. apply ids_names. }
  eapply (ForwardScheduled_board (drop v order) ws); [done|done|done|apply StronglySorted_slots_drop| |done|].
  - rewrite Hids. unfold names. rewrite <- map_app. clear - Hnames Hd.
    rewrite (order_split v d Hd) in Hnames. unfold names in Hnames. rewrite map_app in Hnames.
    by apply NoDup_app in Hnames as (_ & _ & ?).
  - intros k es w' Hw' Hk H1 H2 Hes Hb' Hl' Hf Hla. rewrite drop_drop in Hb', H2. rewrite length_drop in Hk.
    assert (drop d (take (v + k) order) = drop d (take v order) ++ take k (drop v order)) as Esight.
    { rewrite <- take_take_drop. apply drop_app_le. rewrite length_take. lia. }
    apply (HQ k (ws ++ es)); [|lia|done|].
    + constructor; [done|done| |].
      * rewrite sight in *. simpl in *. by rewrite map_app, Ht, Hes, Esight, map_app.
      * split_and!; [|done|eapply Forall_impl; [exact Hex|]; intros x; apply Hla].
        intros x Hx. pose proof Hx as Hx'. unfold tasks in Hx. rewrite firstn_map in Hx.
        apply list_elem_of_fmap in Hx as (p & -> & Hp).
        assert (TaskKey K q (m_ID p.1) ∉ ScheduledKey K q :: keys_of_tasks K q (names (take k (drop v order)))) as Hk'.
        { apply not_elem_of_cons. split; [by intros E%(queueKey_inj K q (KTask _) KScheduled)|].
          apply (not_task_keys (KTask _)); [done|]. intros T HT [= <-].
          assert (order = take d order ++ drop d (take (v + k) order) ++ drop (v + k) order) as E
            by (apply order_split; lia).
          destruct (names_disjoint _ _ _ E (m_ID p.1)) as [H0 _]; [|by apply H0, names_of].
          rewrite Esight. unfold names in *. rewrite map_app. apply elem_of_app. by right. }
        destruct (frame_keep _ _ _ _ Hf Hk') as (_ & _ & _ & ->). by apply Hg.
    + destruct H2 as [-> |?]; [left; unfold forwardBatchSize; lia|by right].
Qed.

(** What the forwarder has moved was due by then. *)
Definition due_by (t : Z) (p : TaskMessage * Z) : Prop :=
  ∃ t0, (0 ≤ t0 ≤ t ∧ scheduleScore p.2 ≤ scheduleScore t0)%Z.

Definition stage (v d : nat) (w : world) : Prop :=
  (∃ ws, at_round v d ws w) ∧ d ≤ v ∧ v ≤ length order ∧ (0 ≤ w_clock w)%Z ∧
  Forall (due_by (w_clock w)) (take v order).

(** By then everything was due. *)
Definition late (t : Z) : Prop := Forall (λ p, scheduleScore p.2 ≤ scheduleScore t)%Z order.

#[local] Instance late_dec t : Decision (late t).
Proof. unfold late. apply _. Defined.

Lemma due_by_mono t t' p : (t ≤ t')%Z → due_by t p → due_by t' p.
Proof. intros Ht (t0 & ? & ?). exists t0. lia. Qed.

Lemma one_round worker n nap v d w :
  stage v d w →
  wpm (timed_round worker n nap)
    (λ r w', ∃ t k v', r = Ok (t, map active (take k (drop d tasks))) ∧ d + k ≤ length order ∧
       k ≤ Z.to_nat (Z.max 1 n) ∧ Forall (due_by t) (take k (drop d order)) ∧
       (late t → d < length order → 0 < k) ∧ stage v' (d + k) w') w.
Proof.
  intros ([ws Hr] & Hd & Hv & Hc & Hdue). unfold timed_round. apply wpm_bind, wpm_sleep.
  apply (at_round_pass nap) in Hr. set (w0 := pass nap w) in *.
  assert (w_clock w ≤ w_clock w0)%Z as Hc0 by (unfold w0, pass; simpl; unfold Millisecond; lia).
  apply wpm_bind, wpm_now, wpm_bind. unfold logged at 1. apply wpm_bind, wpm_try.
  apply (CrashSpec.wpm_timed _ (λ r w', (∃ c, r = Ok c) ∧ at_round v d ws w')).
  { destruct Hr as [Hw Hl Ht He]. apply CrashSpec.ForwardRetry_empty; [done|apply He|].
    intros w1 Hw1 E. split; [by eexists|]. by constructor; rewrite ?E. }
  intros r1 w1 ([c ->] & Hr1) Hc1. apply wpm_ret, wpm_bind, wpm_now. set (t := w_clock w1).
  apply wpm_bind. unfold logged. apply wpm_bind, wpm_try.
  apply (CrashSpec.wpm_timed _ (λ r w', (∃ c, r = Ok c) ∧ ∃ k ws', at_round (v + k) d ws' w' ∧
    v + k ≤ length order ∧ Forall (λ p, scheduleScore p.2 ≤ scheduleScore t)%Z (take k (drop v order)) ∧
    (0 < k ∨ Forall (λ p, scheduleScore t < scheduleScore p.2)%Z (drop (v + k) order)))).
  { eapply forward_round; [exact Hr1|done|done|]. intros. split; [by eexists|]. by eexists _, _. }
  intros r2 w2 ([c2 ->] & k & ws2 & Hr2 & Hk & Hnew & Hmore) Hc2. apply wpm_ret, wpm_bind.
  eapply CrashSpec.wpm_timed; [exact (work_round worker n _ _ _ _ Hr2)|].
  intros r3 w3 (j & ws3 & -> & Hj & Hjl & Hjn & Hpos & Hr3) Hc3. apply wpm_ret.
  rewrite length_drop in Hjl. unfold tasks in Hjl. rewrite length_map in Hjl.
  assert (0 ≤ t)%Z as Ht0 by (unfold t; lia).
  assert (Forall (due_by t) (take (v + k) order)) as Hdue'.
  { rewrite <- take_take_drop. apply Forall_app. split.
    - eapply Forall_impl; [exact Hdue|]. intros p. apply due_by_mono. unfold t. lia.
    - eapply Forall_impl; [exact Hnew|]. intros p Hp. exists t. split; [lia|done]. }
  assert (d + j ≤ v + k) as Hdj by (destruct (decide (0 < j)); [by apply Hj|lia]).
  exists t, j, (v + k). split_and!; [done|lia|done| | |].
  - rewrite Forall_forall in Hdue' |- *. intros p Hp. apply Hdue'.
    apply elem_of_take in Hp as (i & Hi & Hij). rewrite lookup_drop in Hi.
    apply elem_of_take. exists (d + i). split; [done|lia].
  - intros Hlate Hlt. apply Hpos; [|done]. destruct Hmore as [?|Hnone]; [lia|].
    destruct (decide (v + k < length order)) as [Hlt'|]; [|lia].
    destruct (lookup_lt_is_Some_2 order (v + k) Hlt') as [p Hp].
    assert (p ∈ drop (v + k) order) as Hp1
      by (apply (list_elem_of_lookup_2 _ 0); by rewrite lookup_drop, Nat.add_0_r).
    unfold late in Hlate. rewrite Forall_forall in Hlate, Hnone. apply Hnone in Hp1.
    pose proof (Hlate p ltac:(by eapply list_elem_of_lookup_2)). lia.
  - split; [by exists ws3|]. split_and!; [lia|lia|lia|].
    eapply Forall_impl; [exact Hdue'|]. intros p. apply due_by_mono. unfold t. lia.
Qed.

(** What a round may deliver. *)
Definition on_time (n : Z) (o : Z * list TaskMessage) : Prop :=
  length o.2 ≤ Z.to_nat (Z.max 1 n) ∧ ∀ x, x ∈ o.2 → ∃ p, p ∈ order ∧ x = active p.1 ∧ due_by o.1 p.

Lemma rounds_run worker n naps v d w :
  stage v d w →
  wpm (timed_rounds worker n naps)
    (λ r w', ∃ outs v' d', r = Ok outs ∧ d ≤ d' ∧ d' ≤ length order ∧
       concat (map snd outs) = map active (take (d' - d) (drop d tasks)) ∧ Forall (on_time n) outs ∧
       (d' = length order ∨ d + length (filter (λ o, late o.1) outs) ≤ d') ∧ stage v' d' w') w.
Proof.
  revert v d w. induction naps as [|nap naps IH]; intros v d w Hs; cbn [timed_rounds].
  { apply wpm_ret. exists [], v, d. rewrite Nat.sub_diag, filter_nil. simpl.
    pose proof Hs as (_ & ? & ? & _). split_and!; [done|lia|lia|done|constructor|right; lia|done]. }
  apply wpm_bind. eapply wpm_mono; [exact (one_round worker n nap _ _ _ Hs)|].
  intros r w1 (t & k & v1 & -> & Hk & Hkn & Hdue & Hpos & Hs1). apply wpm_bind.
  eapply wpm_mono; [exact (IH _ _ _ Hs1)|]. intros r2 w2 (outs & v2 & d2 & -> & H1 & H2 & Ec & Hf & Hl & Hs2).
  apply wpm_ret. exists ((t, map active (take k (drop d tasks))) :: outs), v2, d2.
  split_and!; [done|lia|done| | | |done].
  - cbn [map concat snd]. rewrite Ec, <- map_app. f_equal.
    replace (d2 - d) with (k + (d2 - (d + k))) by lia. by rewrite <- drop_drop, take_take_drop.
  - constructor; [|done]. split; simpl; [rewrite length_map, length_take; lia|].
    intros x (y & -> & Hy)%list_elem_of_fmap. unfold tasks in Hy. rewrite skipn_map, firstn_map in Hy.
    apply list_elem_of_fmap in Hy as (p & -> & Hp). exists p. rewrite Forall_forall in Hdue.
    split_and!; [|done|by apply Hdue]. by apply (subseteq_drop d), (subseteq_take k).
  - rewrite filter_cons. simpl. case_decide as Hlate; [|lia]. simpl.
    destruct (decide (d < length order)) as [Hd|]; [pose proof (Hpos Hlate Hd)|]; lia.
Qed.

End board.

(** ** Asking for it *)

(** The options of [WithProcessAt(T)]. *)
Definition at_time (T : Z) : enqueueOptions := resolve 0 [WithProcessAt T].

Section timetable.
Context `{R : Redis} `{J : Json} (K : Keys) (HK : valid_keys K) (q : string) (Hq : brace_free q).
Context (sha256hex : bytes → string).

Fixpoint request (l : list (TaskMessage * Z)) : M () :=
  match l with
  | [] => mret ()
  | p :: l => dispatchMessage K sha256hex p.1 (at_time p.2);; request l
  end.

Lemma request_board l pend w :
  quiet w → (0 ≤ w_clock w)%Z → board K q (wks w) pend → line K q (wks w) [] [] →
  Forall (λ p, m_Queue p.1 = q ∧ utf8_msg p.1 = true ∧ w_clock w < p.2)%Z l → NoDup (names (pend ++ l)) →
  wpm (request l) (λ r w', r = Ok () ∧ quiet w' ∧ w_clock w' = w_clock w ∧
    board K q (wks w') (pend ++ l) ∧ line K q (wks w') [] [] ∧ lasting (wks w) (wks w')) w.
Proof.
  revert pend w. induction l as [|[t T] l IH]; intros pend w Hw Hc Hb Hl Hall Hnd; cbn [request].
  { apply wpm_ret. rewrite app_nil_r. split_and!; [done..|]. by intros k. }
  apply Forall_cons in Hall as [(Eq & Hu & HT) Hall]. simpl in Eq, Hu, HT.
  apply wpm_bind. unfold dispatchMessage. apply wpm_bind, wpm_now. simpl.
  unfold IsZero, zeroTime, Second. rewrite bool_decide_false by lia. rewrite bool_decide_true by done. simpl.
  eapply (Schedule_board K HK q Hq pend); [done..| |].
  { unfold names in *. rewrite map_app in Hnd. apply NoDup_app in Hnd as (_ & Hd & _).
    intros Hin. apply (Hd _ Hin). by left. }
  intros w1 Hw1 Hc1 Hb1 Hl1 Hla1. eapply wpm_mono.
  { apply (IH (pend ++ [(t, T)])); [done|lia|done|done|by rewrite Hc1|by rewrite <- app_assoc]. }
  intros r w2 (-> & Hw2 & Hc2 & Hb2 & Hl2 & Hla2). rewrite <- app_assoc in Hb2.
  split_and!; [done|done|by rewrite Hc2|done|done|by etrans].
Qed.

Lemma filter_length_le {A} (P Q : A → Prop) `{∀ x, Decision (P x)} `{∀ x, Decision (Q x)} l :
  (∀ x, P x → Q x) → length (filter P l) ≤ length (filter Q l).
Proof.
  intros HPQ. induction l as [|x l IH]; [done|]. rewrite !filter_cons.
  repeat case_decide; simpl; try lia. exfalso. auto.
Qed.

(** The tasks by the times asked for. *)
Definition sooner (a b : TaskMessage * Z) : Prop := zle (slot a) (slot b).

#[local] Instance sooner_dec : RelDecision sooner.
Proof. intros a b. unfold sooner. apply _. Defined.
#[local] Instance sooner_total : Total sooner.
Proof. intros a b. apply (total zle). Qed.
#[local] Instance sooner_trans : Transitive sooner.
Proof. intros a b c. apply (transitivity (R := zle)). Qed.

Lemma agenda tt :
  ∃ order, order ≡ₚ tt ∧ StronglySorted zle (map slot order) ∧
    StronglySorted (λ a b, scheduleScore a.2 ≤ scheduleScore b.2)%Z order.
Proof.
  exists (merge_sort sooner tt). split; [apply merge_sort_Permutation|].
  assert (StronglySorted sooner (merge_sort sooner tt)) as Hs by (apply StronglySorted_merge_sort; apply _).
  split; induction Hs as [|x l Hl IH Hx]; simpl; constructor; try done.
  - by apply Forall_map.
  - eapply Forall_impl; [exact Hx|]. intros y [?|[E _]]; simpl in *; lia.
Qed.

(** The years for which scores are precise: up to 2242. *)
Definition in_era (t : Z) : Prop := (0 ≤ t ∧ Unix t < 2 ^ 33)%Z.

Lemma in_era_range t : in_era t → in_range t.
Proof. intros [? ?]. split; lia. Qed.

#[local] Instance in_era_dec t : Decision (in_era t).
Proof. unfold in_era. apply _. Defined.

(** A clock after all times. *)
Definition after_all (tt : list (TaskMessage * Z)) (t : Z) : Prop :=
  in_era t ∧ Forall (λ p, p.2 ≤ t)%Z tt.

#[local] Instance after_all_dec tt t : Decision (after_all tt t).
Proof. unfold after_all. apply _. Defined.

Context (quote : string → string) (cfg : ServerConfig) (mux : Mux) (f : TaskMessage → bytes).

(** A task asked for in the future. *)
Definition delayed (now : Z) (p : TaskMessage * Z) : Prop :=
  single q quote mux f p.1 ∧ (now < p.2)%Z ∧ in_era p.2.


End timetable.

(** Three tasks, asked for out of order; five rounds. *)
Definition noon : Z := 1700000000 * Second.

Definition delayed_tasks : list (TaskMessage * Z) :=
  [(newMessage "a" "email" "a" "q" 3 false 0, noon + 5 * Second)%Z;
   (newMessage "b" "email" "b" "q" 3 false 0, noon + 2 * Second)%Z;
   (newMessage "c" "email" "c" "q" 3 false 0, noon + 2500 * Millisecond)%Z].


End TimetableSpec.
