(* ===== verification/SchedulerSpec.v ===== *)
(** * The elected scheduler fires what is due

    What one entry's turn in [fireDue] does to the data, on every branch,
    and what a failed reading of the last-fired record costs. *)

From S2P Require Import Prelude GoLib Base Redis RedisFacts Client RdbCore RdbLocks Schedule Scheduler Instances CoreSpec LockSpec.

Module SchedulerSpec.
Import GoTime GoFloat GoStr Keys Task Redis RedisFacts Client RdbCore RdbLocks Schedule Scheduler CoreSpec LockSpec.

#[local] Arguments mbind {_ _ _ _} _ _ : simpl never.

Section scheduler.
Context `{R : Redis} `{J : Json} (K : Keys).

(** The last-fired record of an entry, as stored. *)
Definition record (m : keyspace) (e : scheduleEntry) : option string :=
  k_str m !! ScheduleLastFiredKey K (e_id e).

Definition triggerID (e : scheduleEntry) (trig : Z) : string :=
  e_id e +:+ ":" +:+ itoa (Unix trig).

(** The fence that makes a trigger fire once in the whole cluster. *)
Definition fence (e : scheduleEntry) (trig : Z) : string :=
  PeriodicDedupKey K (e_queue e) (triggerID e trig).

Definition triggerMessage (e : scheduleEntry) (trig : Z) : TaskMessage :=
  newMessage (triggerID e trig) (e_kind e) (e_payload e) (e_queue e) (e_maxRetry e)
    (e_noArch e) (e_retention e `quot` Second)%Z.

(** One task for the trigger: at the end of the stream, with its body. *)
Definition trigger_stored (e : scheduleEntry) (trig : Z) (m m' : keyspace) : Prop :=
  let q := e_queue e in
  (∃ id, stream_at m' (StreamKey K q)
         = MkStream (st_entries (stream_at m (StreamKey K q)) ++ [(id, triggerID e trig)]) id
             (st_groups (stream_at m (StreamKey K q)))) ∧
  hget m' (TaskKey K q (triggerID e trig)) "msg"
  = Some (EncodeMessage (with_State StatePending (triggerMessage e trig))) ∧
  hget m' (TaskKey K q (triggerID e trig)) "state" = Some (itoa StatePending).

(** The tasks and the records are as they were; the index of queues may have
    grown. *)
Definition same_tasks (m m' : keyspace) : Prop :=
  k_hash m' = k_hash m ∧ k_stream m' = k_stream m ∧ k_zset m' = k_zset m ∧ k_str m' = k_str m.

Lemma same_tasks_sadd k l m m' : m' = m ∨ m' = do_sadd k l m → same_tasks m m'.
Proof. by intros [-> | ->]. Qed.

(** A record that can be read. *)
Lemma lastFiredOrInit_known e t sec (Q : result Z → world → Prop) w :
  quiet w → in_int64 sec → record (wks w) e = Some (itoa sec) →
  (∀ s', ks s' = wks w → Q (Ok (sec * Second)%Z) (set_store s' w)) →
  wpm (lastFiredOrInit K e t) Q w.
Proof.
  intros Hw Hsec Hrec HQ. unfold lastFiredOrInit, GetLastFired.
  apply wpm_bind, wpm_try, wpm_bind, wpm_run_quiet; [done|]. wps_steps. intros s' Hs'.
  unfold record in Hrec. rewrite Hrec, ParseInt_itoa by done. apply wpm_ret, wpm_ret. by apply HQ.
Qed.

Lemma key_exists_sadd k l k' m : k' ≠ k → key_exists (do_sadd k l m) k' = key_exists m k'.
Proof.
  intros Hne. unfold key_exists, do_sadd; simpl. f_equal. f_equal. f_equal.
  apply bool_decide_ext. unfold s_add. by rewrite lookup_insert_ne by done.
Qed.

Context (HK : valid_keys K).

Lemma fence_not_index e trig : fence e trig ≠ QueuesKey K.
Proof. by apply (queueKey_not_global K (e_queue e) (KPeriodic (triggerID e trig)) "queues"). Qed.

(** An attempt at a trigger: it stores the task, or the fence is there. *)
Lemma fireTrigger_quiet s e trig (Q : result bool → world → Prop) w :
  quiet w →
  (∀ w', quiet w' → key_exists (wks w) (fence e trig) = true → same_tasks (wks w) (wks w') →
     Q (Ok false) w') →
  (∀ w', quiet w' → key_exists (wks w) (fence e trig) = false →
     trigger_stored e trig (wks w) (wks w') →
     k_str (wks w') = <[fence e trig := "1"]> (k_str (wks w)) → Q (Ok false) w') →
  wpm (fireTrigger K s e false trig) Q w.
Proof.
  intros Hw Hdup Hnew. unfold fireTrigger, enqueueTrigger, EnqueuePeriodic.
  apply wpm_bind, wpm_try, wpm_bind. simpl. fold (triggerID e trig).
  apply registerQueue_quiet; [done|]. intros w1 Hw1 _ Hm1.
  assert (key_exists (wks w1) (fence e trig) = key_exists (wks w) (fence e trig)) as Hex.
  { destruct Hm1 as [-> | ->]; [done|]. apply key_exists_sadd, fence_not_index. }
  apply same_tasks_sadd in Hm1 as (Hh & Hst & Hz & Hs).
  set (ms := if bool_decide _ then _ else _). clearbody ms. fold (fence e trig).
  apply wpm_bind, wpm_run_quiet; [done|]. unfold enqueuePeriodicCmd. wps_steps. rewrite Hex.
  destruct (key_exists (wks w) (fence e trig)) eqn:Hf; simpl; wps_steps; intros s' Hs'.
  - apply wpm_fail, wpm_ret, Hdup; [done|done|]. by rewrite wks_set_store, Hs'.
  - apply wpm_ret, wpm_ret.
    match goal with H : (st_last _ < ?i)%Z |- _ => rename i into id end.
    apply Hnew; [done|done| |]; rewrite wks_set_store, Hs'; [|simpl; by rewrite Hs].
    unfold trigger_stored. unfold hget, hash_at, stream_at; simpl.
    rewrite x_at_add, h_at_set, !decide_True, Hst by done. simpl.
    split_and!; [by exists id|..]; by simplify_map_eq.
Qed.

Lemma fence_not_record e trig : fence e trig ≠ ScheduleLastFiredKey K (e_id e).
Proof.
  by apply (queueKey_not_global K (e_queue e) (KPeriodic (triggerID e trig))
              ("sched:" +:+ e_id e +:+ ":last")).
Qed.

Lemma SetLastFired_quiet e t (Q : result (result ()) → world → Prop) w :
  quiet w →
  (∀ s', ks s' = do_set (ScheduleLastFiredKey K (e_id e)) (itoa (Unix t)) (wks w) →
     Q (Ok (Ok ())) (set_store s' w)) →
  wpm (try (SetLastFired K (e_id e) t)) Q w.
Proof.
  intros Hw HQ. apply wpm_try, wpm_run_quiet; [done|]. wps_steps. destruct r. intros s' Hs'. by apply HQ.
Qed.

Lemma computeFires_single Next last t policy :
  (computeFires Next last t policy).1 = [] ∨ ∃ f, (computeFires Next last t policy).1 = [f].
Proof. unfold computeFires. repeat case_match; simpl; eauto. Qed.

(** The end of an entry's turn: the record moves to the last trigger. *)
Lemma advance_record e sec last' (Q : result () → world → Prop) w :
  quiet w → record (wks w) e = Some (itoa sec) →
  (∀ w', k_hash (wks w') = k_hash (wks w) → k_stream (wks w') = k_stream (wks w) →
     record (wks w') e = Some (itoa (Unix last')) → Q (Ok ()) w') →
  wpm (if bool_decide (last' = (sec * Second)%Z) then mret ()
       else try (SetLastFired K (e_id e) last');; mret ()) Q w.
Proof.
  intros Hw Hrec HQ. case_bool_decide as Hl.
  - apply wpm_ret, HQ; [done|done|]. rewrite Hrec, Hl. unfold Unix. by rewrite Z.div_mul.
  - apply wpm_bind, SetLastFired_quiet; [done|]. intros s' Hs'. apply wpm_ret.
    apply HQ; rewrite wks_set_store, Hs'; [done|done|]. unfold record; simpl.
    by rewrite lookup_insert_eq.
Qed.


(** ** A failed reading *)

(** Instants a schedule has: whole seconds. *)
Definition whole (t : Z) : Prop := (t = Unix t * Second)%Z.

(** A trigger at or before the record is never selected. *)
Lemma computeFires_after Next last t policy trig :
  (∀ u, u < Next u)%Z → trig ∈ (computeFires Next last t policy).1 → (last < trig)%Z.
Proof.
  intros HN. unfold computeFires. case_bool_decide; [by intros ?%elem_of_nil|].
  destruct (scan_spec Next maxScan t (Next last) ltac:(lia)) as (n & _ & E & _).
  assert (last < scan Next maxScan t (Next last))%Z.
  { rewrite E. pose proof (HN last). destruct n; [done|]. apply (trigger_gt Next HN (S _) last). }
  repeat case_match; simpl; rewrite ?elem_of_nil, ?list_elem_of_singleton; intros Hin;
    first [done | subst; apply HN | by subst].
Qed.

(** C31: a single failed round trip loses a trigger.  If the reading of an
    existing last-fired record fails, the entry is treated as one never seen:
    nothing is enqueued, the record is overwritten with the current time, and
    the trigger that was due, and that a successful reading would have fired
    in this very turn, is selected by no later turn, whatever the policy. *)
Theorem read_error_loses_trigger s e t sec d trig w :
  w_plan w = [MkEvent d (Some 0)] →
  trig ∈ (computeFires (e_schedule e) (sec * Second)%Z t (e_misfire e)).1 →
  (∀ u, u < e_schedule e u)%Z → whole trig → (trig ≤ t)%Z →
  let m' := wks (fireEntry K s t () e w).1 in
  k_stream m' = k_stream (elapse (Z.of_N d) (wks w)) ∧
  record m' e = Some (itoa (Unix t)) ∧
  ∀ t' policy, trig ∉ (computeFires (e_schedule e) (Unix t * Second)%Z t' policy).1.
Proof.
  intros Hplan Hdue HN Hwhole Hpast m'.
  assert (k_stream m' = k_stream (elapse (Z.of_N d) (wks w)) ∧ record m' e = Some (itoa (Unix t)))
    as [Hst Hrec].
  { subst m'. change (wpm (fireEntry K s t () e) (λ _ w',
      k_stream (wks w') = k_stream (elapse (Z.of_N d) (wks w)) ∧
      record (wks w') e = Some (itoa (Unix t))) w).
    unfold fireEntry, lastFiredOrInit. apply wpm_bind, wpm_bind, wpm_try.
    unfold GetLastFired. apply wpm_bind, wpm_run_lost with (d := d) (plan := []); [done|].
    apply wpm_bind, SetLastFired_quiet; [done|]. intros s' Hs'. apply wpm_ret.
    assert (computeFires (e_schedule e) t t (e_misfire e) = ([], t)) as ->.
    { unfold computeFires. by rewrite bool_decide_true by apply HN. }
    apply wpm_bind, wpm_ret. rewrite (bool_decide_true (t = t)) by done. apply wpm_ret.
    unfold wks at 1 in Hs'; simpl in Hs'. rewrite elapse_effect in Hs' by lia.
    rewrite wks_set_store, Hs'. split; [done|]. unfold record; simpl. by rewrite lookup_insert_eq. }
  split_and!; [done..|]. intros t' policy Hin. apply computeFires_after in Hin; [|done].
  unfold whole, Unix in *. pose proof (Z.div_le_mono trig t Second ltac:(done) Hpast).
  unfold Second in *. lia.
Qed.

End scheduler.

(** An hourly schedule, last fired at 3 o'clock; it is 4 past 4. *)
Definition hourly : scheduleEntry :=
  MkEntry "k:@hourly#0" "k" "@hourly" "{}" "q" 3 false MisfireFireOnce 0
    (λ t, (t `div` Hour + 1) * Hour)%Z.

Definition demo_keys : keyspace :=
  do_set (ScheduleLastFiredKey DefaultKeys (e_id hourly)) "10800" empty_keyspace.

Definition demo_now : Z := (14640 * Second)%Z.
Definition demo_scheduler : Scheduler := newScheduler "i" 0.

Definition demo_at (plan : list Client.event) : world (R := RefRedis.RefRedis) :=
  MkWorld (demo_keys : RefRedis.RefRedis.(store)) plan demo_now ∅.

Lemma hourly_later u : (u < e_schedule hourly u)%Z.
Proof.
  change (u < (u `div` 3600000000000 + 1) * 3600000000000)%Z.
  pose proof (Z.div_mod u 3600000000000 ltac:(lia)).
  pose proof (Z.mod_pos_bound u 3600000000000 ltac:(lia)). lia.
Qed.


Lemma read_error_loses_trigger_witness :
  let m' := wks (fireEntry DefaultKeys demo_scheduler demo_now () hourly
                   (demo_at [MkEvent 5 (Some 0)])).1 in
  k_stream m' = k_stream (elapse 5 demo_keys) ∧
  record DefaultKeys m' hourly = Some "14640" ∧
  ∀ t' policy, (14400 * Second)%Z
    ∉ (computeFires (e_schedule hourly) (14640 * Second)%Z t' policy).1.
Proof.
  apply (read_error_loses_trigger DefaultKeys demo_scheduler hourly demo_now 10800 5
           (14400 * Second)%Z (demo_at [MkEvent 5 (Some 0)])).
  - done.
  - assert (computeFires (e_schedule hourly) (10800 * Second) demo_now MisfireFireOnce
          = ([(14400 * Second)%Z], (14400 * Second)%Z)) as Hc by (by vm_compute).
    change (e_misfire hourly) with MisfireFireOnce. rewrite Hc. by apply list_elem_of_singleton.
  - apply hourly_later.
  - by vm_compute.
  - by vm_compute.
Defined.

End SchedulerSpec.
