(* ===== verification/ConsoleSpec.v ===== *)
(** * What the console may do

    Reading requests and requests from foreign pages leave the data as it
    is; a bulk action ends, and without failures drains what it was asked to
    drain. *)

From S2P Require Import Prelude GoLib Base Redis RedisFacts Client RdbCore RdbLocks RdbFlow RdbAdmin Instances.
From S2P Require Import Inspector GoText Sparkline Console Lifecycle Processes Advance ServerSpec MaintSpec JanitorSpec.

Module ConsoleSpec.
Import GoStr Keys Task Redis RedisFacts Client RdbCore RdbLocks RdbFlow RdbAdmin Inspector.
Import GoText Sparkline Console Lifecycle Processes Advance ServerSpec MaintSpec JanitorSpec.

#[local] Arguments mbind {_ _ _ _} _ _ : simpl never.

(** The data is as it was, but for the keys that expired meanwhile. *)
Definition aged : relation keyspace := rtc (λ m m', ∃ dt, (0 ≤ dt)%Z ∧ m' = elapse dt m).

Lemma aged_elapse dt m : (0 ≤ dt)%Z → aged m (elapse dt m).
Proof. intros Hdt. apply rtc_once. eauto. Qed.

Section console.
Context `{R : Redis} `{J : Json} `{MJ : MetaJson} (K : Keys).
Context (quote : string → string) (lib : err → string).

(** ** Reading *)

(** Whatever fails, the program changes nothing. *)
Definition reads {A} (p : M A) : Prop := ∀ w, advances aged p (λ _ _, True) w.

Lemma reads_ret {A} (a : A) : reads (mret a).
Proof. intros w. apply adv_ret; [exact _|done]. Qed.
Lemma reads_fail {A} e : reads (fail (A := A) e).
Proof. intros w. apply adv_fail; [exact _|done]. Qed.
Lemma reads_now : reads now.
Proof. intros w. apply adv_now; [exact _|done]. Qed.
Lemma reads_try {A} (p : M A) : reads p → reads (try p).
Proof. intros Hp w. apply adv_try. apply Hp. Qed.
Lemma reads_bind {A B} (p : M A) (f : A → M B) : reads p → (∀ a, reads (f a)) → reads (p ≫= f).
Proof.
  intros Hp Hf w. eapply (adv_bind _ _ _ (λ _ _, True)); [apply Hp|intros; by apply Hf|done].
Qed.
Lemma reads_call {A} (c : cmd A) : (∀ r m, cmd_effect c r m = m) → reads (run (call c)).
Proof.
  intros Hc w. apply adv_run; [exact _|apply aged_elapse| |done].
  intros m _. apply wps_call. intros r _. by rewrite Hc.
Qed.
Lemma reads_foldl {A B} (f : B → A → M B) acc l :
  (∀ acc x, reads (f acc x)) → reads (go_foldl f acc l).
Proof.
  intros Hf. revert acc. induction l as [|x l IH]; intros acc; [apply reads_ret|].
  by apply reads_bind.
Qed.

(** Programs that only read, by their structure. *)
Ltac reads_step :=
  match goal with
  | |- ∀ _, reads _ => intros ?
  | |- reads (mret _) => apply reads_ret
  | |- reads (fail _) => apply reads_fail
  | |- reads now => apply reads_now
  | |- reads (_ ≫= _) => apply reads_bind
  | |- reads (try _) => apply reads_try
  | |- reads (run (call _)) => by apply reads_call
  | |- reads (go_foldl _ _ _) => apply reads_foldl; intros ? ?
  | |- reads (if ?b then _ else _) => destruct b
  | |- reads (match ?x with Ok _ => _ | Err _ => _ end) => destruct x
  | |- reads (match ?x with Some _ => _ | None => _ end) => destruct x
  | |- reads (match ?x with (_, _) => _ end) => destruct x
  end.
Ltac reads_steps := repeat reads_step.

Lemma reads_queueStats q : reads (queueStats K q).
Proof. unfold queueStats. reads_steps. Qed.

Lemma reads_InspectQueues : reads (InspectQueues K).
Proof.
  unfold InspectQueues, Queues, PausedQueues, queueInfo. pose proof reads_queueStats. reads_steps; auto.
Qed.

Lemma reads_GetTask q T : reads (GetTask K q T).
Proof. unfold GetTask. reads_steps. Qed.

Lemma reads_ListTasks q st n : reads (ListTasks K quote q st n).
Proof.
  unfold ListTasks, ListZSetTasks, listStep. pose proof reads_GetTask.
  reads_steps; auto. case_match; reads_steps.
Qed.

Lemma reads_InspectTask q T : reads (InspectTask K quote q T).
Proof.
  unfold InspectTask, ZScore, GroupPending. apply reads_bind; [by apply reads_try, reads_GetTask|].
  intros [m|e]; [|destruct e; reads_steps]. apply reads_bind; [|intros ti; reads_steps].
  case_match; reads_steps.
Qed.

Lemma reads_SchedulerStatus : reads (SchedulerStatus K).
Proof.
  unfold SchedulerStatus, LeaderID, ListSchedules, ScanSchedules, scanStep. reads_steps.
Qed.

Lemma reads_search r : reads (search K quote r).
Proof.
  unfold search. pose proof reads_InspectQueues. pose proof reads_InspectTask.
  assert (∀ id qs, reads (findTask K quote id qs)) by (induction qs; simpl; reads_steps; auto).
  reads_steps; auto.
Qed.

Lemma reads_serveGet jsonIndent st r : reads (serveGet K quote lib jsonIndent st r).
Proof.
  pose proof reads_InspectQueues. pose proof reads_SchedulerStatus. pose proof reads_search.
  pose proof reads_ListTasks. pose proof reads_InspectTask.
  unfold serveGet, stateless, dashboard, apiStats, queueDetail, taskDetail, schedulerPage.
  unfold sampleQueue, PausedQueues, GroupMemberIDs. repeat case_match; reads_steps; auto.
Qed.

(** A foreign request is turned away before anything is sent. *)
Lemma foreign_post r :
  foreign r = true →
  servePost K quote lib r = mret crossOrigin ∨ servePost K quote lib r = mret Unrouted.
Proof.
  intros Hf. unfold servePost, action, queueAction, bulk. rewrite Hf. repeat case_match; auto.
Qed.

(** C32: only an action of the console itself changes anything.  Whatever
    fails on the way, a request to read (any path, any parameters), and any
    request that names a foreign origin, leaves every key, its value and its
    deadline as they are, apart from the keys whose deadline passes while the
    request is served. *)
Theorem console_reads_only jsonIndent st r w :
  (rq_method r ≠ "POST" ∨ foreign r = true) →
  aged (wks w) (wks (serve K quote lib jsonIndent st r w).1).
Proof.
  intros Hr. assert (reads (serve K quote lib jsonIndent st r)) as H; [|by apply H].
  unfold serve. case_decide; [apply reads_serveGet|]. case_decide; [|apply reads_ret].
  destruct Hr as [?|Hf]; [done|].
  unfold stateless. destruct (foreign_post r Hf) as [-> | ->]; reads_steps.
Qed.

(** ** Bulk actions end *)

(** What a pass keeps: the counters grow within the limit, a failing task is
    counted once, and progress means one more success. *)
Record pass_ok (b b' : bulkState) : Prop := MkPass {
  po_ok : (okCount b ≤ okCount b')%Z;
  po_limit : (done_count b ≤ bulkLimit → done_count b' ≤ bulkLimit)%Z;
  po_failed : (failCount b = Z.of_nat (size (failedIDs b)) →
               failCount b' = Z.of_nat (size (failedIDs b')))%Z;
  po_nonneg : (0 ≤ failCount b → 0 ≤ failCount b')%Z;
  po_progress : progressed b' = true → progressed b = true ∨ (okCount b < okCount b')%Z;
}.

#[local] Instance pass_ok_preorder : PreOrder pass_ok.
Proof.
  split; [constructor; auto; lia|]. intros b1 b2 b3 [] []. constructor; auto; [lia|].
  intros H. destruct (po_progress1 H) as [H2|?]; [|lia]. destruct (po_progress0 H2); [by left|lia].
Qed.

Lemma wpm_any {A} (p : M A) (Q : result A → world → Prop) w : (∀ r w', Q r w') → wpm p Q w.
Proof. unfold wpm. auto. Qed.

Lemma bulkOne_pass q fn b t (Q : result bulkState → world → Prop) w :
  (∀ b' w', pass_ok b b' → Q (Ok b') w') → wpm (bulkOne q fn b t) Q w.
Proof.
  intros HQ. unfold bulkOne. case_bool_decide as Hl; [by apply wpm_ret, HQ|].
  case_bool_decide as Hf; [by apply wpm_ret, HQ|].
  apply wpm_bind, wpm_try, wpm_any. intros [[]|e] w'; apply wpm_ret, HQ; unfold done_count in *;
    constructor; unfold done_count; simpl; try lia; auto.
  rewrite size_union by set_solver. rewrite size_singleton. lia.
Qed.

Lemma pass_spec q fn tasks b (Q : result bulkState → world → Prop) w :
  (∀ b' w', pass_ok b b' → Q (Ok b') w') → wpm (go_foldl (bulkOne q fn) b tasks) Q w.
Proof.
  revert b w. induction tasks as [|t tasks IH]; intros b w HQ; simpl; [by apply wpm_ret, HQ|].
  apply wpm_bind, bulkOne_pass. intros b1 w1 H1. apply IH. intros b2 w2 H2. apply HQ.
  etrans; [exact H1|exact H2].
Qed.

(** The counts of a bulk action that ended. *)
Definition bounded (b : bulkState) : Prop :=
  (0 ≤ okCount b ∧ 0 ≤ failCount b ∧ done_count b ≤ bulkLimit ∧
   failCount b = Z.of_nat (size (failedIDs b)))%Z.

Lemma bulkLoop_ends fuel q state fn b w :
  bounded b → (bulkLimit - okCount b < Z.of_nat fuel)%Z →
  wpm (bulkLoop K quote fuel q state fn b)
    (λ r _, ∃ x, r = Ok (Some x) ∧ ∀ b', x = Ok b' → bounded b') w.
Proof.
  revert b w. induction fuel as [|fuel IH]; intros b w Hb Hf; simpl.
  { destruct Hb as (? & ? & ? & ?). unfold done_count in *. lia. }
  case_bool_decide as Hl; simpl; [|apply wpm_ret; eexists; split; [done|by intros b' [= <-]]].
  apply wpm_bind, wpm_try, wpm_any. intros [tasks|e] w1;
    [|apply wpm_ret; eexists; by split].
  apply wpm_bind, pass_spec. intros b' w2 [H1 H2 H3 H4 H5]; simpl in *.
  destruct Hb as (? & ? & ? & ?).
  assert (bounded b') as Hb'.
  { split_and!; [lia|auto|apply H2; unfold done_count in *; simpl; lia|auto]. }
  case_match eqn:Hp; [|apply wpm_ret; eexists; split; [done|by intros b'' [= <-]]].
  apply IH; [done|]. destruct (H5 eq_refl); [done|]. lia.
Qed.

Lemma answered resp w :
  resp ≠ Unrouted → wpm (mret resp) (λ res _, ∃ resp, res = Ok resp ∧ resp ≠ Unrouted) w.
Proof. intros H. apply wpm_ret. exists resp. split; [reflexivity|exact H]. Qed.

(** A bulk action always ends.  Whatever the tasks, the failures and the
    action applied, [bulkLoop] returns within its fuel, and the request gets
    an answer; at most [bulkLimit] tasks were counted, and a task that failed
    was counted, and tried, once. *)
Lemma bulk_terminates r q fn verb w :
  ∃ x, (bulkLoop K quote bulkFuel q (stateParam r) fn (MkBulk 0 0 ∅ false) w).2 = Ok (Some x) ∧
    (∀ b, x = Ok b → bounded b) ∧
  ∃ resp, (bulk K quote lib r q fn verb w).2 = Ok resp ∧ resp ≠ Unrouted.
Proof.
  assert (bounded (MkBulk 0 0 ∅ false)) as Hb by (by split_and!).
  assert (bulkLimit - okCount (MkBulk 0 0 ∅ false) < Z.of_nat bulkFuel)%Z as Hf by apply bulkFuel_enough.
  destruct (bulkLoop_ends bulkFuel q (stateParam r) fn _ w Hb Hf) as (x & Hx & Hbx).
  exists x. split_and!; [exact Hx|exact Hbx|].
  change (wpm (bulk K quote lib r q fn verb) (λ res _, ∃ resp, res = Ok resp ∧ resp ≠ Unrouted) w).
  unfold bulk. case_match; [by apply answered|]. cbv zeta. case_match; [by apply answered|].
  apply wpm_bind. eapply wpm_mono; [by apply bulkLoop_ends|].
  intros res w' (y & -> & _). apply answered. unfold backTo. destruct y; discriminate.
Qed.

(** ** Bulk actions drain *)

Definition stateName (z : zkind) : string :=
  match z with
  | ZScheduled => "scheduled" | ZRetry => "retry" | ZArchived => "archived"
  | ZCompleted => "completed"
  end.

Lemma stateName_key q z : ZSetKeyForState K q (stateName z) = Some (zkey K q z).
Proof. by destruct z. Qed.

Lemma zkey_not_task q z T : zkey K q z ≠ TaskKey K q T.
Proof. intros E. apply (queueKey_inj K q (zslot z) (KTask T)) in E. by destruct z. Qed.

Context (HK : valid_keys K) (q : string) (Hq : brace_free q) (z : zkind).

Abbreviation waiters m := (zset_at m (zkey K q z)).

(** Every task of the set has a body that decodes to it. *)
Definition listed (m : keyspace) : Prop :=
  ∀ T, is_Some (waiters m !! T) → ∃ b msg,
    body K m q T = Some b ∧ DecodeMessage b = Some msg ∧ m_ID msg = T ∧ ok_lock K (m_UniqueKey msg).

(** What running or deleting a task does to the set. *)
Definition settled (T : string) (m m' : keyspace) : Prop :=
  waiters m' = delete T (waiters m) ∧ ∀ T', T' ≠ T → body K m' q T' = body K m q T'.

Definition settles (fn : string → M ()) : Prop :=
  ∀ T w (Q : result () → world → Prop), quiet w → listed (wks w) →
    is_Some (waiters (wks w) !! T) →
    (∀ w', quiet w' → settled T (wks w) (wks w') → Q (Ok ()) w') → wpm (fn T) Q w.

Lemma listed_settled T m m' : listed m → settled T m m' → listed m'.
Proof.
  intros Hl [Hz Hb] T' HT'. rewrite Hz in HT'. destruct (decide (T' = T)) as [->|Hne].
  - rewrite lookup_delete_eq in HT'. by destruct HT'.
  - rewrite lookup_delete_ne in HT' by done. rewrite Hb by done. by apply Hl.
Qed.

(** *** Reading the tasks *)

Lemma GetTask_quiet T msg b (Q : result TaskMessage → world → Prop) w :
  quiet w → body K (wks w) q T = Some b → DecodeMessage b = Some msg →
  (∀ w', quiet w' → wks w' = wks w → Q (Ok msg) w') → wpm (GetTask K q T) Q w.
Proof.
  intros Hw Hb Hd HQ. unfold GetTask. apply wpm_bind, wpm_run_quiet; [done|]. wps_steps.
  intros s' Hs. unfold body in Hb. rewrite Hb, Hd. by apply wpm_ret, HQ.
Qed.

Lemma listStep_quiet zs acc (Q : result (list ZSetTask) → world → Prop) w :
  quiet w → listed (wks w) → (∀ p, p ∈ zs → is_Some (waiters (wks w) !! p.1)) →
  (∀ l w', quiet w' → wks w' = wks w → map (λ e, m_ID (zt_Msg e)) l = map fst zs →
     Q (Ok (acc ++ l)) w') →
  wpm (go_foldl (listStep K q) acc zs) Q w.
Proof.
  revert acc w. induction zs as [|[T sc] zs IH]; intros acc w Hw Hl Hin HQ; simpl.
  { apply wpm_ret. specialize (HQ [] w Hw eq_refl eq_refl). by rewrite app_nil_r in HQ. }
  destruct (Hl T) as (b & msg & Hb & Hd & HT & _); [by apply (Hin (T, sc)), list_elem_of_here|].
  apply wpm_bind. unfold listStep at 1. simpl. apply wpm_bind, wpm_try, (GetTask_quiet T msg b); [done..|].
  intros w1 Hw1 Hm1. apply wpm_ret. apply IH; [done|by rewrite Hm1| |].
  - intros p Hp. rewrite Hm1. apply Hin. by right.
  - intros l w2 Hw2 Hm2 Hids. rewrite <- app_assoc. simpl. apply HQ; [done|congruence|].
    simpl. by rewrite HT, Hids.
Qed.

Lemma ListTasks_quiet (Q : result (list TaskInfo) → world → Prop) w :
  quiet w → listed (wks w) →
  (∀ l w', quiet w' → wks w' = wks w →
     map ti_ID l = take 100 (map fst (zsorted (waiters (wks w)))) → Q (Ok l) w') →
  wpm (ListTasks K quote q (stateName z) listLimit) Q w.
Proof.
  intros Hw Hl HQ. unfold ListTasks.
  rewrite stateName_key.
  unfold ListZSetTasks. simpl. apply wpm_bind, wpm_bind, wpm_run_quiet; [done|].
  wps_steps. intros s1 Hs1. change (listLimit - 1)%Z with (100 - 1)%Z. rewrite (zrange_prefix 100) by done.
  apply listStep_quiet; rewrite ?wks_set_store, ?Hs1; [done|done| |].
  - intros p Hp. apply elem_of_take in Hp as (j & Hp & _). apply list_elem_of_lookup_2 in Hp.
    destruct p as [T sc]. apply elem_of_zsorted in Hp. by eexists.
  - intros l w2 Hw2 Hm2 Hids. apply wpm_ret, HQ; [done|done|]. simpl.
    rewrite map_map. simpl. rewrite Hids. by rewrite <- firstn_map.
Qed.

(** *** A pass and the loop *)

Lemma pass_settles fn tasks b (Q : result bulkState → world → Prop) w :
  settles (fn q) → quiet w → listed (wks w) → failedIDs b = ∅ →
  NoDup (map ti_ID tasks) → (∀ T, T ∈ map ti_ID tasks → is_Some (waiters (wks w) !! T)) →
  (done_count b + len tasks ≤ bulkLimit)%Z →
  (∀ w', quiet w' → listed (wks w') →
     (∀ T, waiters (wks w') !! T
           = if decide (T ∈ map ti_ID tasks) then None else waiters (wks w) !! T) →
     Q (Ok (MkBulk (okCount b + len tasks) (failCount b) ∅
              (progressed b || negb (bool_decide (tasks = []))))) w') →
  wpm (go_foldl (bulkOne q fn) b tasks) Q w.
Proof.
  intros Hfn. revert b w. induction tasks as [|t tasks IH]; intros b w Hw Hl Hb Hnd Hin Hlim HQ; simpl.
  { apply wpm_ret. specialize (HQ w Hw Hl (λ T, eq_refl)). simpl in HQ.
    rewrite Z.add_0_r, orb_false_r, <- Hb in HQ. by destruct b. }
  simpl in *. apply NoDup_cons in Hnd as [Hni Hnd].
  apply wpm_bind. unfold bulkOne at 1. rewrite bool_decide_false by lia.
  rewrite bool_decide_false by (rewrite Hb; set_solver).
  apply wpm_bind, wpm_try, (Hfn (ti_ID t)); [done|done|by apply Hin; left|].
  intros w1 Hw1 Hset. apply wpm_ret.
  apply IH; [done|by eapply listed_settled|done|done| | |].
  - intros T HT. destruct Hset as [-> _]. rewrite lookup_delete_ne by set_solver. apply Hin. by right.
  - unfold done_count in *. simpl. lia.
  - intros w2 Hw2 Hl2 Hz2. simpl.
    replace (okCount b + 1 + len tasks)%Z with (okCount b + Z.of_nat (S (length tasks)))%Z by lia.
    replace (negb (bool_decide (t :: tasks = []))) with true in HQ by done.
    rewrite orb_true_r in HQ. apply HQ; [done|done|].
    intros T. rewrite Hz2. destruct Hset as [-> _]. rewrite lookup_delete.
    destruct (decide (T = ti_ID t)) as [->|Hne].
    + rewrite (decide_False (P := _ ∈ map ti_ID tasks)), !decide_True by set_solver. done.
    + rewrite (decide_False (P := ti_ID t = T)) by done.
      apply decide_ext. set_solver.
Qed.

Lemma bulkLoop_drains fuel fn b w :
  settles (fn q) → quiet w → listed (wks w) → failedIDs b = ∅ →
  (size (waiters (wks w)) < fuel)%nat →
  (done_count b + Z.of_nat (size (waiters (wks w))) ≤ bulkLimit)%Z →
  wpm (bulkLoop K quote fuel q (stateName z) fn b)
    (λ r w', quiet w' ∧ waiters (wks w') = ∅ ∧
       ∃ pr, r = Ok (Some (Ok (MkBulk (okCount b + Z.of_nat (size (waiters (wks w))))
                                 (failCount b) ∅ pr)))) w.
Proof.
  intros Hfn. revert b w. induction fuel as [|fuel IH]; intros b w Hw Hl Hb Hf Hlim; [lia|]. simpl.
  case_bool_decide as Hd; simpl.
  2:{ apply wpm_ret. assert (size (waiters (wks w)) = 0) as Hz by (unfold done_count in *; lia).
      rewrite Hz, Z.add_0_r, <- Hb. apply map_size_empty_iff in Hz.
      split_and!; [done|done|]. exists (progressed b). by destruct b. }
  apply wpm_bind, wpm_try, ListTasks_quiet; [done|done|]. intros tasks w1 Hw1 Hm1 Hids.
  assert (length tasks = 100 `min` size (waiters (wks w))) as Hlen.
  { rewrite <- (length_map ti_ID), Hids, length_take, length_map, zsorted_length. done. }
  apply wpm_bind, pass_settles; rewrite ?Hm1; [done|done|done|done| | | |].
  { rewrite Hids. eapply sublist_NoDup; [|apply sublist_take]. apply zsorted_NoDup. }
  { intros T. rewrite Hids. intros (j & HT & _)%elem_of_take. apply list_elem_of_lookup_2 in HT.
    apply list_elem_of_fmap in HT as ([T' sc] & -> & HT). apply elem_of_zsorted in HT. by eexists. }
  { unfold done_count in *. simpl. lia. }
  intros w2 Hw2 Hl2 Hz2. simpl. rewrite Hids, firstn_map in Hz2.
  pose proof (zsorted_remove _ _ _ Hz2) as Hrem. apply (f_equal length) in Hrem. rewrite length_drop, !zsorted_length in Hrem.
  destruct (decide (tasks = [])) as [->|Hne]; simpl.
  - apply wpm_ret. change (length []) with 0 in Hlen.
    assert (size (waiters (wks w)) = 0) as Hz by lia.
    split_and!; [done|apply map_size_empty_iff; lia|].
    exists false. by rewrite Hz.
  - rewrite bool_decide_false by done. simpl.
    assert (0 < length tasks) by (destruct tasks; [done|simpl; lia]).
    eapply wpm_mono; [apply IH; simpl; [done|done|done|lia|unfold done_count in *; simpl; lia]|].
    simpl. intros r w3 (Hw3 & Hz3 & pr & ->). split_and!; [done|done|]. exists pr.
    do 4 f_equal. lia.
Qed.

(** *** Running and deleting *)

Lemma body_zrem_all T m T' : body K (zrem_all K q T m) q T' = body K m q T'.
Proof. done. Qed.

Lemma runTask_bodies T m :
  wps (runTaskCmd (ScheduledKey K q) (RetryKey K q) (ArchivedKey K q) (CompletedKey K q)
         (StreamKey K q) (TaskKey K q T) T StatePending)
    (λ _ m', ∀ T', body K m' q T' = body K m q T') m.
Proof.
  unfold runTaskCmd. wps_steps. case_bool_decide; wps_steps; [done|].
  destruct (key_exists _ _); simpl; wps_steps; [|done]. intros T'. unfold body, hget, hash_at; simpl.
  rewrite h_at_set. destruct (decide (TaskKey K q T = TaskKey K q T')) as [E|]; [|done].
  simpl. rewrite lookup_insert_ne by done. by rewrite E.
Qed.

Lemma RunTask_settles : settles (RunTask K q).
Proof.
  intros T w Q Hw _ _ HQ. unfold RunTask. apply wpm_bind, wpm_run_quiet; [done|].
  intros s Hs. destruct (runTaskCmd_spec K q T (wks w) s Hs) as (Hz & _).
  pose proof (runTask_bodies T (wks w) s Hs) as Hb. intros s' Hs'. rewrite <- Hs' in Hz, Hb.
  apply wpm_ret, HQ; [done|]. split; [apply Hz|]. intros T' _. apply Hb.
Qed.

Lemma deleteTx_settled T m :
  wps (deleteTx K q T) (λ _ m', settled T m m') m.
Proof.
  unfold deleteTx.
  change (ScheduledKey K q) with (zkey K q ZScheduled). change (RetryKey K q) with (zkey K q ZRetry).
  change (ArchivedKey K q) with (zkey K q ZArchived). change (CompletedKey K q) with (zkey K q ZCompleted).
  wps_steps. fold (zrem_all K q T m). split.
  - unfold zset_at at 1; simpl. rewrite z_at_delete, decide_False.
    + apply zrem_all_zset.
    + intros E. by apply (zkey_not_task q z T).
  - intros T' Hne. rewrite <- (body_zrem_all T m T'). unfold body, hget, hash_at; simpl.
    rewrite h_at_delete, decide_False; [done|]. intros E. by apply Hne, eq_sym, (TaskKey_inj K q).
Qed.

(** Releasing a lock disturbs no task. *)
Lemma unlocked_settled T msg m m1 m2 :
  ok_lock K (m_UniqueKey msg) → settled T m m1 →
  (m2 = m1 ∨ m_UniqueKey msg ≠ "" ∧ m2 = del_key (m_UniqueKey msg) m1) → settled T m m2.
Proof.
  intros Hl [Hz Hb] [-> |[Hne ->]]; [done|]. split.
  - unfold zset_at at 1; simpl. rewrite z_at_delete, decide_False; [done|].
    apply (lock_neq K HK q (zslot z)); [done|done|done|]. clear. by destruct z.
  - intros T' HT'. rewrite <- Hb by done. unfold body, hget, hash_at; simpl.
    rewrite h_at_delete, decide_False; [done|]. by apply (lock_neq K HK q (KTask T')).
Qed.

Lemma DeleteTask_settles : settles (DeleteTask K q).
Proof.
  intros T w Q Hw Hl HT HQ. destruct (Hl T HT) as (b & msg & Hb & Hd & _ & Hlk).
  unfold DeleteTask. apply wpm_bind, wpm_try, (GetTask_quiet T msg b); [done..|].
  intros w1 Hw1 Hm1. apply wpm_bind, wpm_run_quiet; [done|].
  eapply wps_mono; [apply deleteTx_settled|]. intros a m2 Hs2 s2 Hm2. rewrite Hm1 in Hs2.
  apply (releaseUnique_quiet); [done|]. intros w3 Hw3 _ Hm3. apply HQ; [done|].
  rewrite wks_set_store, Hm2 in Hm3. by eapply unlocked_settled.
Qed.


End console.

(** A queue with one archived task. *)
Definition demo_task : TaskMessage := newMessage "t" "email" "hi" "q" 3 false 0.

Definition demo_archive : world (R := RefRedis.RefRedis) :=
  MkWorld (do_zadd (ArchivedKey DefaultKeys "q") 0 "t"
             (do_hset (TaskKey DefaultKeys "q" "t") [("msg", EncodeMessage demo_task)] empty_keyspace)
           : RefRedis.RefRedis.(store)) [] 0 ∅.

Definition post (origin : string) (path : list string) : request :=
  MkRequest "POST" path "localhost" origin (λ _, "").

Definition no_text (e : err) : string := "error".

Lemma demo_waiters : zset_at (wks demo_archive) (zkey DefaultKeys "q" ZArchived) = {["t" := 0%Z]}.
Proof. by vm_compute. Qed.

Lemma demo_listed : listed DefaultKeys "q" ZArchived (wks demo_archive).
Proof.
  intros T HT. rewrite demo_waiters in HT. destruct HT as [sc [<- _]%lookup_singleton_Some].
  exists (EncodeMessage demo_task), demo_task. split_and!; [by vm_compute..|]. by left.
Qed.

Lemma console_reads_only_witness :
  aged (wks demo_archive)
    (wks (serve DefaultKeys (λ s, s) no_text Some (newSparkStore 20)
            (post "http://evil" ["queues"; "q"; "bulk"; "delete"]) demo_archive).1).
Proof. apply console_reads_only. by right. Defined.


End ConsoleSpec.
