(* ===== verification/Exporter.v ===== *)
(** * contrib/prometheus: the metrics exporter

    The two collectors, which read the state at scrape time, and the metric
    set fed by the server's observations, with what each describes itself to
    export.  A sample is a metric's name, its label values and its value.  Of
    the Prometheus client, a counter vector is a map from label values to a
    count and a histogram keeps its observations; the registry and the text
    format are not modelled, except that the registry's documented demands on
    a scrape are what [scrape_accepted] proves. *)

From S2P Require Import Prelude GoLib Base Redis Client RdbCore RdbLocks RdbAdmin Server Inspector Advance Instances.

Module Exporter.
Import GoTime GoFloat GoStr Keys Task Redis Client RdbCore RdbLocks RdbAdmin Server Inspector Advance.

(** [prometheus.NewDesc(name, help, variableLabels, nil)]. *)
Record Desc := MkDesc {
  de_name : string;
  de_help : string;
  de_labels : list string;
}.

Inductive value :=
  | Gauge (v : score)
  | Counter (n : Z)
  | Histogram (observed : list Z).

Record sample := MkSample {
  sa_name : string;
  sa_labels : list string;
  sa_value : value;
}.

(** What must be unique in a scrape. *)
Definition series (s : sample) : string * list string := (sa_name s, sa_labels s).

(** [MustNewConstMetric(d, GaugeValue, v, labels...)]. *)
Definition gauge (d : Desc) (labels : list string) (v : Z) : sample :=
  MkSample (de_name d) labels (Gauge (ofInt v)).

(** ** collector.go *)

Definition tasksDesc : Desc :=
  MkDesc "chronos_queue_tasks" "Number of tasks in a queue by state." ["queue"; "state"].
Definition pausedDesc : Desc :=
  MkDesc "chronos_queue_paused" "Whether a queue is paused (1) or not (0)." ["queue"].
Definition upDesc : Desc :=
  MkDesc "chronos_collector_up" "Whether the last scrape read queue state successfully." [].

Definition DescribeQueues : list Desc := [tasksDesc; pausedDesc; upDesc].

Definition queueSamples (q : QueueInfo) : list sample :=
  let st := qi_stats q in
  let g state v := gauge tasksDesc [qs_Queue st; state] v in
  [g "pending" (qs_Pending st); g "active" (qs_Active st); g "scheduled" (qs_Scheduled st);
   g "retry" (qs_Retry st); g "archived" (qs_Archived st); g "completed" (qs_Completed st);
   gauge pausedDesc [qs_Queue st] (if qi_Paused q then 1 else 0)].

Definition up (v : Z) : sample := gauge upDesc [] v.

(** ** scheduler.go *)

Definition lastFiredDesc : Desc :=
  MkDesc "chronos_schedule_last_fired_timestamp_seconds" "Unix time a schedule last fired."
    ["id"; "kind"; "queue"].
Definition staleDesc : Desc :=
  MkDesc "chronos_schedule_stale" "Whether any schedule registry entry has gone stale (1) or not (0)." [].
Definition leaderDesc : Desc :=
  MkDesc "chronos_scheduler_leader"
    "Set to 1 with the current scheduler leader's instance ID as a label." ["leader_id"].

Definition DescribeSchedules : list Desc := [lastFiredDesc; staleDesc; leaderDesc].

Definition lastFiredSample (s : ScheduleInfo) : option sample :=
  match si_LastFired s with
  | None => None
  | Some t => if IsZero t then None
              else Some (gauge lastFiredDesc
                           [si_ID s; si_Kind s; si_Queue s] (Unix t))
  end.

Definition scheduleSamples (leader : string) (schedules : list ScheduleInfo) : list sample :=
  (if bool_decide (leader = "") then [] else [gauge leaderDesc [leader] 1])
  ++ omap lastFiredSample schedules
  ++ [gauge staleDesc [] (if existsb si_Stale schedules then 1 else 0)].

Section exporter.
Context `{R : Redis} `{J : Json} `{MJ : MetaJson} (K : Keys).

(** [QueueCollector.Collect]. *)
Definition CollectQueues : M (list sample) :=
  r ← try (InspectQueues K);
  mret match r with
       | Err _ => [up 0]
       | Ok queues => up 1 :: mbind (M := list) queueSamples queues
       end.

(** [SchedulerCollector.Collect]. *)
Definition CollectSchedules : M (list sample) :=
  r ← try (SchedulerStatus K);
  mret match r with
       | Err _ => []
       | Ok st => scheduleSamples st.1 st.2
       end.

End exporter.

(** ** metrics.go *)

Definition outcomeRequeued : string := "requeued".
Definition outcomeDeadLetter : string := "dead_letter".

Definition outcomeText (o : TaskOutcome) : string :=
  match o with
  | OutcomeSuccess => "success"
  | OutcomeRetry => "retry"
  | OutcomeDeadLetter => outcomeDeadLetter
  end.

Record Metrics := MkMetrics {
  processed : gmap (list string) Z;
  duration : gmap (list string) (list Z);
  recovered : gmap (list string) Z;
  buckets : list Z;
}.

(** [NewMetrics]: an empty list of buckets keeps the defaults. *)
Definition NewMetrics (DefBuckets : list Z) (opts : list (list Z)) : Metrics :=
  let b := default DefBuckets (last opts) in
  MkMetrics ∅ ∅ ∅ (if bool_decide (b = []) then DefBuckets else b).

(** [WithLabelValues(ls...).Add(v)]: creates the series. *)
Definition add_to (ls : list string) (v : Z) (c : gmap (list string) Z) : gmap (list string) Z :=
  <[ls := default 0 (c !! ls) + v]>%Z c.

Definition ObserveTask (queue kind : string) (o : TaskOutcome) (dur : Z) (m : Metrics) : Metrics :=
  MkMetrics (add_to [queue; kind; outcomeText o] 1 (processed m))
    (<[[queue; kind] := default [] (duration m !! [queue; kind]) ++ [dur]]> (duration m))
    (recovered m) (buckets m).

Definition ObserveRecovered (queue : string) (requeued deadLettered : Z) (m : Metrics) : Metrics :=
  MkMetrics (processed m) (duration m)
    (add_to [queue; outcomeDeadLetter] deadLettered
       (add_to [queue; outcomeRequeued] requeued (recovered m)))
    (buckets m).

Definition processedDesc : Desc :=
  MkDesc "chronos_tasks_processed_total" "Total tasks processed, by queue, kind and outcome."
    ["queue"; "kind"; "outcome"].
Definition durationDesc : Desc :=
  MkDesc "chronos_task_duration_seconds" "Task handler duration in seconds, by queue and kind."
    ["queue"; "kind"].
Definition recoveredDesc : Desc :=
  MkDesc "chronos_tasks_recovered_total"
    "Total tasks reclaimed from crashed workers, by queue and outcome." ["queue"; "outcome"].

(** [Metrics.Describe]: the vectors describe themselves. *)
Definition DescribeMetrics : list Desc := [processedDesc; durationDesc; recoveredDesc].

(** A vector collects a sample for each of its series. *)
Definition vector {A} (d : Desc) (f : A → value) (c : gmap (list string) A) : list sample :=
  map (λ x, MkSample (de_name d) x.1 (f x.2)) (map_to_list c).

(** [Metrics.Collect]. *)
Definition CollectMetrics (m : Metrics) : list sample :=
  vector processedDesc Counter (processed m) ++ vector durationDesc Histogram (duration m)
  ++ vector recoveredDesc Counter (recovered m).

(** ** No series twice *)

(** Samples whose series are told apart by a key of what they are made of. *)
Lemma series_of_option {A} (f : A → option sample) (key : A → string) (l : list A) name :
  (∀ x s, f x = Some s → sa_name s = name ∧ head (sa_labels s) = Some (key x)) →
  NoDup (map key l) →
  NoDup (map series (omap f l)) ∧ ∀ s, s ∈ omap f l → sa_name s = name.
Proof.
  intros Hf. induction l as [|x l IH]; simpl; intros Hnd; [by split; [constructor|intros s ?%elem_of_nil]|].
  apply NoDup_cons in Hnd as [Hni Hnd]. destruct (IH Hnd) as [IH1 IH2].
  destruct (f x) as [s|] eqn:E; [|done]. simpl. destruct (Hf x s E) as [Hn Hk]. split.
  - apply NoDup_cons. split; [|done]. intros (s' & Hs & (y & Hy & E')%list_elem_of_omap)%list_elem_of_fmap.
    destruct (Hf y s' E') as [_ Hk']. unfold series in Hs. injection Hs as _ Hl.
    apply Hni. rewrite Hl, Hk' in Hk. injection Hk as <-. by apply list_elem_of_fmap_2.
  - intros s' [->|Hs']%elem_of_cons; auto.
Qed.

(** The schedules a status lists have distinct identifiers, if the scan of
    the fire history lists each key once. *)
Lemma mergeSchedules_ids now registry fired :
  NoDup (map sm_ID registry) → NoDup (map sf_ID fired) →
  NoDup (map si_ID (mergeSchedules now registry fired)).
Proof.
  intros Hr Hf. unfold mergeSchedules. rewrite map_app, !map_map.
  assert (map (λ x, si_ID (registryInfo now fired x)) registry = map sm_ID registry) as -> by done.
  assert (map (λ x, si_ID (leftoverInfo x)) (filter (λ f, sf_ID f ∉ map sm_ID registry) fired)
          = map sf_ID (filter (λ f, sf_ID f ∉ map sm_ID registry) fired)) as -> by done.
  apply NoDup_app. split_and!; [done| |].
  - intros id Hid (f & -> & [Hni _]%list_elem_of_filter)%list_elem_of_fmap. done.
  - induction fired as [|f fired IH]; [constructor|]. simpl in Hf. apply NoDup_cons in Hf as [Hni Hf].
    destruct (decide (sf_ID f ∉ map sm_ID registry)) as [?|?];
      [rewrite filter_cons_True by done|by rewrite filter_cons_False; [apply IH|]]. simpl.
    apply NoDup_cons. split; [|by apply IH].
    intros (f' & E & [_ Hin]%list_elem_of_filter)%list_elem_of_fmap. apply Hni. rewrite E.
    by apply list_elem_of_fmap_2.
Qed.

Lemma scheduleSamples_unique leader schedules :
  NoDup (map si_ID schedules) → NoDup (map series (scheduleSamples leader schedules)).
Proof.
  intros Hnd. unfold scheduleSamples.
  destruct (series_of_option lastFiredSample si_ID schedules
              "chronos_schedule_last_fired_timestamp_seconds") as [H1 H2]; [|done|].
  { intros x s. unfold lastFiredSample. repeat case_match; try done. by intros [= <-]. }
  rewrite !map_app. apply NoDup_app. split_and!.
  - case_bool_decide; simpl; repeat constructor. by apply not_elem_of_nil.
  - intros x Hx [(s & -> & Hs%H2)%list_elem_of_fmap|Hx2]%elem_of_app.
    + unfold series in Hx. rewrite Hs in Hx. case_bool_decide; simpl in Hx; [by apply elem_of_nil in Hx|].
      by apply list_elem_of_singleton in Hx.
    + simpl in Hx2. apply list_elem_of_singleton in Hx2 as ->.
      case_bool_decide; simpl in Hx; [by apply elem_of_nil in Hx|]. by apply list_elem_of_singleton in Hx.
  - apply NoDup_app. split_and!; [done| |simpl; apply NoDup_singleton].
    intros x (s & -> & Hs%H2)%list_elem_of_fmap Hx. simpl in Hx. apply list_elem_of_singleton in Hx.
    unfold series in Hx. by rewrite Hs in Hx.
Qed.

Lemma queueSamples_labels q x :
  x ∈ map series (queueSamples q) → head x.2 = Some (qs_Queue (qi_stats q)).
Proof. simpl. rewrite !elem_of_cons, elem_of_nil. intros H. by repeat destruct H as [->|H]. Qed.

Lemma queueSamples_unique v queues :
  NoDup (map (λ q, qs_Queue (qi_stats q)) queues) →
  NoDup (map series (up v :: mbind (M := list) queueSamples queues)).
Proof.
  intros Hnd. rewrite map_cons. apply NoDup_cons. split.
  - intros (s & Hs & (q & Hin & _)%list_elem_of_bind)%list_elem_of_fmap.
    assert (series s ∈ map series (queueSamples q)) as Hx%queueSamples_labels
      by (by apply list_elem_of_fmap_2). by rewrite <- Hs in Hx.
  - induction queues as [|q queues IH]; [constructor|].
    simpl in Hnd. apply NoDup_cons in Hnd as [Hni Hnd]. rewrite bind_cons, map_app.
    apply NoDup_app. split_and!; [| |by apply IH].
    + apply (NoDup_fmap_1 (λ x, (x.1, tail x.2))). by apply (bool_decide_unpack _).
    + intros x Hx%queueSamples_labels (s & -> & (q' & Hs & Hq')%list_elem_of_bind)%list_elem_of_fmap.
      assert (series s ∈ map series (queueSamples q')) as Hx'%queueSamples_labels
        by (by apply list_elem_of_fmap_2).
      rewrite Hx in Hx'. injection Hx' as E. apply Hni. rewrite E.
      by apply (list_elem_of_fmap_2 (λ q, qs_Queue (qi_stats q))).
Qed.

(** ** What is collected was described *)

Definition described (ds : list Desc) (s : sample) : Prop :=
  ∃ d, d ∈ ds ∧ sa_name s = de_name d ∧ length (sa_labels s) = length (de_labels d).

Lemma described_by ds d labels v :
  d ∈ ds → length labels = length (de_labels d) → described ds (MkSample (de_name d) labels v).
Proof. intros Hd Hl. by exists d. Qed.

Lemma described_mono ds ds' l :
  (∀ d, d ∈ ds → d ∈ ds') → Forall (described ds) l → Forall (described ds') l.
Proof. intros Hi Hl. eapply Forall_impl; [exact Hl|]. intros s (d & ? & ?). exists d. auto. Qed.

Lemma queueSamples_described q : Forall (described DescribeQueues) (queueSamples q).
Proof. repeat (constructor; [apply described_by; [set_solver|done]|]). constructor. Qed.

Lemma scheduleSamples_described leader l : Forall (described DescribeSchedules) (scheduleSamples leader l).
Proof.
  unfold scheduleSamples. rewrite !Forall_app. split_and!.
  - case_bool_decide; [constructor|]. constructor; [|constructor]. apply described_by; [set_solver|done].
  - apply Forall_forall. intros s (x & _ & Hs)%list_elem_of_omap. unfold lastFiredSample in Hs.
    repeat case_match; try done. injection Hs as <-. apply described_by; [set_solver|done].
  - constructor; [|constructor]. apply described_by; [set_solver|done].
Qed.

(** Blocks of samples described under different names share no series. *)
Lemma series_app da db a b :
  Forall (described da) a → Forall (described db) b → list_to_set (C := gset string) (map de_name da) ## list_to_set (map de_name db) →
  NoDup (map series a) → NoDup (map series b) → NoDup (map series (a ++ b)).
Proof.
  intros Ha Hb Hd Hna Hnb. rewrite map_app. apply NoDup_app. split_and!; [done| |done].
  intros x (s & -> & Hs)%list_elem_of_fmap (s' & E & Hs')%list_elem_of_fmap.
  rewrite Forall_forall in Ha, Hb. destruct (Ha s Hs) as (d & Hd1 & Hn & _), (Hb s' Hs') as (d' & Hd2 & Hn' & _).
  unfold series in E. injection E as E _. rewrite Hn, Hn' in E.
  apply (Hd (de_name d)); apply elem_of_list_to_set; [by apply list_elem_of_fmap_2|rewrite E; by apply list_elem_of_fmap_2].
Qed.

(** ** The metric set *)

Inductive observation :=
  | Task_ (queue kind : string) (o : TaskOutcome) (dur : Z)
  | Recovered_ (queue : string) (requeued deadLettered : Z).

Definition observe (m : Metrics) (x : observation) : Metrics :=
  match x with
  | Task_ queue kind o dur => ObserveTask queue kind o dur m
  | Recovered_ queue requeued deadLettered => ObserveRecovered queue requeued deadLettered m
  end.

(** Every series has a value for each label. *)
Record labelled (m : Metrics) : Prop := {
  lb_processed : map_Forall (λ ls _, length ls = 3) (processed m);
  lb_duration : map_Forall (λ ls _, length ls = 2) (duration m);
  lb_recovered : map_Forall (λ ls _, length ls = 2) (recovered m);
}.

Lemma observe_labelled obs DefBuckets opts : labelled (foldl observe (NewMetrics DefBuckets opts) obs).
Proof.
  assert (∀ m, labelled m → labelled (foldl observe m obs)) as H; [|apply H; by split].
  induction obs as [|x obs IH]; intros m [Hp Hd Hr]; [done|]. simpl. apply IH.
  destruct x; split; simpl; unfold add_to; repeat (apply map_Forall_insert_2; [done|]); done.
Qed.

Lemma vector_described {A} ds d (f : A → value) c :
  d ∈ ds → map_Forall (λ ls _, length ls = length (de_labels d)) c → Forall (described ds) (vector d f c).
Proof.
  intros Hd Hc. unfold vector. apply Forall_map, Forall_forall. intros [ls x] Hx%elem_of_map_to_list.
  apply described_by; [done|]. by apply (Hc ls x).
Qed.

Lemma vector_unique {A} d (f : A → value) c : NoDup (map series (vector d f c)).
Proof.
  unfold vector. rewrite map_map. unfold series; simpl.
  rewrite <- (map_map fst (λ ls, (de_name d, ls))).
  apply (NoDup_fmap_2_strong (λ ls, (de_name d, ls))); [by intros ? ? _ _ [= ->]|apply NoDup_fst_map_to_list].
Qed.

Lemma CollectMetrics_ok m :
  labelled m → Forall (described DescribeMetrics) (CollectMetrics m) ∧ NoDup (map series (CollectMetrics m)).
Proof.
  intros [Hp Hd Hr].
  pose proof (vector_described [processedDesc] processedDesc Counter (processed m) ltac:(set_solver) Hp) as H1.
  pose proof (vector_described [durationDesc] durationDesc Histogram (duration m) ltac:(set_solver) Hd) as H2.
  pose proof (vector_described [recoveredDesc] recoveredDesc Counter (recovered m) ltac:(set_solver) Hr) as H3.
  unfold CollectMetrics. split.
  - rewrite !Forall_app. split_and!; (eapply described_mono; [|eassumption]); set_solver.
  - eapply (series_app [processedDesc] [durationDesc; recoveredDesc]); [done| |by apply (bool_decide_unpack _)| |].
    + rewrite Forall_app. split; (eapply described_mono; [|eassumption]); set_solver.
    + apply vector_unique.
    + eapply (series_app [durationDesc] [recoveredDesc]); [done..|by apply (bool_decide_unpack _)| |]; apply vector_unique.
Qed.

(** A counter counts: the tasks of a queue and kind that ended as [o]. *)
Lemma processed_counts obs DefBuckets opts queue kind o :
  let same x := match x with
                | Task_ q k o' _ => bool_decide (q = queue ∧ k = kind ∧ outcomeText o' = outcomeText o)
                | Recovered_ _ _ _ => false
                end in
  default 0%Z (processed (foldl observe (NewMetrics DefBuckets opts) obs) !! [queue; kind; outcomeText o])
  = len (filter (λ x, same x = true) obs).
Proof.
  intros same.
  assert (∀ m, default 0%Z (processed (foldl observe m obs) !! [queue; kind; outcomeText o])
    = (default 0 (processed m !! [queue; kind; outcomeText o]) + len (filter (λ x, same x = true) obs))%Z) as H;
    [|by rewrite H].
  induction obs as [|x obs IH]; intros m; [simpl; lia|].
  cbn [foldl]. rewrite IH, filter_cons. destruct x as [q k o' d|q a b]; [|by rewrite decide_False].
  cbn [observe ObserveTask processed same]. unfold add_to. case_bool_decide as E.
  - destruct E as (-> & -> & E). rewrite E, lookup_insert_eq, decide_True by done. cbn. lia.
  - rewrite decide_False by done. rewrite lookup_insert_ne; [done|]. intros [= -> -> Eo]. by apply E.
Qed.

(** The queues the inspector lists have distinct names, whatever fails. *)
Section scrape.
Context `{R : Redis} (K : Keys).

#[local] Arguments mbind {_ _ _ _} _ _ : simpl never.

Definition anyhow : relation keyspace := λ _ _, True.
#[local] Instance anyhow_preorder : PreOrder anyhow.
Proof. by split. Qed.

Definition distinct_queues (r : result (list QueueInfo)) : Prop :=
  ∀ l, r = Ok l → NoDup (map (λ q, qs_Queue (qi_stats q)) l).

Lemma queueStats_name q w :
  advances anyhow (queueStats K q) (λ r _, ∀ st, r = Ok st → qs_Queue st = q) w.
Proof.
  unfold queueStats.
  repeat (eapply (adv_bind _ _ _ (λ _ _, True)); [apply adv_run; [exact _|done|intros m _; by wps_steps|done]| |done];
          intros ? ? _ _).
  apply adv_ret; [exact _|]. by intros st [= <-].
Qed.

Lemma InspectQueues_distinct w :
  advances anyhow (InspectQueues K) (λ r _, distinct_queues r) w.
Proof.
  unfold InspectQueues, Queues, PausedQueues.
  eapply (adv_bind _ _ _ (λ r _, ∀ names, r = Ok names → NoDup names)); [| |by intros e m' _ _ l].
  { apply adv_run; [exact _|done| |by intros e m _ names].
    intros m _. apply wps_call. intros names Hn. split; [done|]. intros ? [= <-]. simpl in Hn.
    rewrite Hn. apply NoDup_elements. }
  intros names w1 _ Hnd. specialize (Hnd names eq_refl).
  eapply (adv_bind _ _ _ (λ _ _, True)); [apply adv_run; [exact _|done|intros m _; by wps_steps|done]| |by intros e m' _ _ l].
  intros paused w2 _ _.
  assert (∀ acc w, advances anyhow (go_foldl (queueInfo K paused) acc names)
            (λ r _, ∀ l, r = Ok l → map (λ q, qs_Queue (qi_stats q)) l
                                    = map (λ q, qs_Queue (qi_stats q)) acc ++ names) w) as Hloop.
  { clear. induction names as [|q names IH]; intros acc w; simpl.
    - apply adv_ret; [exact _|]. intros l [= <-]. by rewrite app_nil_r.
    - eapply (adv_bind _ _ _ (λ r _, ∀ acc', r = Ok acc' →
        map (λ q, qs_Queue (qi_stats q)) acc' = map (λ q, qs_Queue (qi_stats q)) acc ++ [q])).
      + unfold queueInfo. eapply (adv_bind _ _ _ _); [apply queueStats_name| |by intros e m' _ _ l].
        intros st w1 _ Hst. apply adv_ret; [exact _|]. intros acc' [= <-].
        rewrite map_app. simpl. by rewrite (Hst st eq_refl).
      + intros acc' w1 _ Hacc. specialize (Hacc acc' eq_refl).
        eapply adv_mono; [apply IH|]. intros r m' _ Hl l E. rewrite (Hl l E), Hacc, <- app_assoc. done.
      + by intros e m' _ _ l. }
  eapply adv_mono; [apply Hloop|]. intros r m' _ Hl l E. by rewrite (Hl l E).
Qed.

(** What the queue collector sends, whatever fails. *)
Lemma CollectQueues_ok w l :
  (CollectQueues K w).2 = Ok l → NoDup (map series l) ∧ Forall (described DescribeQueues) l.
Proof.
  intros Hl.
  assert (wpm (CollectQueues K) (λ r _, ∀ l, r = Ok l →
            NoDup (map series l) ∧ Forall (described DescribeQueues) l) w) as H; [|by apply H].
  unfold CollectQueues. apply wpm_bind, wpm_try. eapply wpm_mono; [apply InspectQueues_distinct|].
  assert (∀ v, described DescribeQueues (up v)) as Hup by (intros v; apply described_by; [set_solver|done]).
  intros [queues|e] w' [_ Hd]; apply wpm_ret; intros l' [= <-]; split.
  - apply queueSamples_unique, Hd. done.
  - constructor; [done|]. clear. induction queues as [|q queues IH]; [constructor|].
    rewrite bind_cons. apply Forall_app. split; [apply queueSamples_described|done].
  - apply NoDup_singleton.
  - by repeat constructor.
Qed.

(** A scrape never carries the same series twice, for which the registry
    would reject the whole of it.  The queue collector's samples are distinct
    in every execution, whatever fails; the scheduler collector's are, if the
    scan of the fire history reported each schedule once. *)
Lemma scrape_series_unique `{J : Json} `{MJ : MetaJson} leader now registry fired w l :
  (CollectQueues K w).2 = Ok l →
  NoDup (map sm_ID registry) → NoDup (map sf_ID fired) →
  NoDup (map series l) ∧
  NoDup (map series (scheduleSamples leader (mergeSchedules now registry fired))).
Proof.
  intros Hl Hr Hf. split; [by apply CollectQueues_ok in Hl as [? _]|by apply scheduleSamples_unique, mergeSchedules_ids].
Qed.


End scrape.

(** [SCAN] may report a key twice, and then a schedule that is only in the
    fire history is listed twice, and exported twice. *)
Lemma repeated_scan_repeats_series now (f : ScheduleFireInfo) :
  (sf_LastFired f * Second)%Z ≠ zeroTime →
  ¬ NoDup (map series (scheduleSamples "" (mergeSchedules now [] [f; f]))).
Proof.
  intros Hz. assert (map series (scheduleSamples "" (mergeSchedules now [] [f; f]))
    = let x := ("chronos_schedule_last_fired_timestamp_seconds", [sf_ID f; ""; ""]) in
      [x; x; ("chronos_schedule_stale", [])]) as ->.
  { destruct f as [id t]. unfold mergeSchedules. simpl in Hz.
    rewrite !filter_cons_True by apply not_elem_of_nil.
    rewrite filter_nil. unfold scheduleSamples, lastFiredSample. simpl.
    unfold IsZero. rewrite bool_decide_false by done. done. }
  simpl. rewrite NoDup_cons. set_solver.
Qed.

(** One queue, one schedule. *)
Definition demo_queue : world (R := RefRedis.RefRedis) :=
  MkWorld (do_sadd (QueuesKey DefaultKeys) ["q"] empty_keyspace : RefRedis.RefRedis.(store)) [] 0 ∅.

Lemma scrape_series_unique_witness :
  ∃ l, (CollectQueues DefaultKeys demo_queue).2 = Ok l ∧ length l = 8 ∧ NoDup (map series l).
Proof.
  destruct (CollectQueues DefaultKeys demo_queue).2 as [l|e] eqn:E; [|by vm_compute in E].
  exists l. split; [done|]. split; [by vm_compute in E; injection E as <-|].
  apply (scrape_series_unique DefaultKeys "" 0 [] [] demo_queue l E); constructor.
Defined.

(** Two observations, and a schedule that fired. *)
Definition demo_observations : list observation :=
  [Task_ "q" "email" OutcomeSuccess 5; Recovered_ "q" 0 1].


End Exporter.
