(* ===== verification/JobScheduler.v ===== *)
(** * examples/jobscheduler: a string-named job scheduler on top

    The adapter that backs another project's [JobScheduler] interface: every
    job is one task type, [rawTask], routed by name.  Jobs are functions of
    their payload; their contexts, the mutex around the registries and the
    waiting at shutdown are not modelled.  [encoding/json] at [rawTask] is the
    class [RawJson]; the other parameters are those of the components. *)

From S2P Require Import Prelude GoLib Base Redis Client RdbCore RdbLocks RdbAdmin Retry.
From S2P Require Import Handler Server Schedule Options Scheduler Instances CoreSpec.
From Stdlib Require Import Ascii.

Module JobScheduler.
Import GoTime GoStr Utf8 Keys Task Redis Client RdbCore RdbLocks RdbAdmin Retry Handler.
Import Schedule Options CoreSpec.

(** ** hash/fnv: [New32a] *)

Definition offset32 : Z := 2166136261.
Definition prime32 : Z := 16777619.

(** [Write]: exclusive or with each byte, then multiply, in 32 bits. *)
Definition writeByte (h : Z) (c : ascii) : Z :=
  ((Z.lxor h (Z.of_nat (nat_of_ascii c)) * prime32) mod 2 ^ 32)%Z.
Definition sum32a (data : string) : Z := foldl writeByte offset32 (chars data).

Example sum32a_empty : sum32a "" = 0x811c9dc5%Z.
Proof. by vm_compute. Qed.
Example sum32a_a : sum32a "a" = 0xe40c292c%Z.
Proof. by vm_compute. Qed.
Example sum32a_foobar : sum32a "foobar" = 0xbf9cf968%Z.
Proof. by vm_compute. Qed.

(** ** The adapter *)

Definition SchedulerJobFunc : Type := outcome (option error).
Definition TaskHandlerFunc : Type := bytes → outcome (option error).

Record EnqueueConfig := MkEnqueueConfig { QueueKey : string; UniqueTTL : Z }.

Inductive EnqueueOption :=
  | WithQueueKey (key : string)
  | WithUniqueTTL (ttl : Z).

Definition applyOption (c : EnqueueConfig) (opt : EnqueueOption) : EnqueueConfig :=
  match opt with
  | WithQueueKey key => MkEnqueueConfig key (UniqueTTL c)
  | WithUniqueTTL ttl => MkEnqueueConfig (QueueKey c) ttl
  end.

Record rawTask := MkRawTask { Name : string; Data : bytes }.

Definition rawKind : string := "chronos:compat:raw".

Class RawJson := {
  marshalRaw : rawTask → bytes;
  unmarshalRaw : bytes → rawTask + error;
  raw_roundtrip : ∀ t,
    unmarshalRaw (marshalRaw t) = inl (MkRawTask (sanitize (Name t)) (Data t));
}.

Definition rawArgs `{RJ : RawJson} (t : rawTask) : TaskArgs := MkArgs rawKind (Some (marshalRaw t)).

Record adapter := MkAdapter {
  a_server : Server.ServerConfig;
  a_scheduler : Scheduler.Scheduler;
  a_mux : Mux;
  a_queues : list string;
  a_schedulerJob : gmap string SchedulerJobFunc;
  a_taskHandler : gmap string TaskHandlerFunc;
}.

Definition set_scheduler (s : Scheduler.Scheduler) (a : adapter) : adapter :=
  MkAdapter (a_server a) s (a_mux a) (a_queues a) (a_schedulerJob a) (a_taskHandler a).
Definition set_mux (m : Mux) (a : adapter) : adapter :=
  MkAdapter (a_server a) (a_scheduler a) m (a_queues a) (a_schedulerJob a) (a_taskHandler a).
Definition set_job (name : string) (fn : SchedulerJobFunc) (a : adapter) : adapter :=
  MkAdapter (a_server a) (a_scheduler a) (a_mux a) (a_queues a)
    (<[name := fn]> (a_schedulerJob a)) (a_taskHandler a).
Definition set_handler (name : string) (fn : TaskHandlerFunc) (a : adapter) : adapter :=
  MkAdapter (a_server a) (a_scheduler a) (a_mux a) (a_queues a) (a_schedulerJob a)
    (<[name := fn]> (a_taskHandler a)).

(** The server's configuration, before its defaults. *)
Definition serverConfig (queueNames : list string) : Server.ServerConfig :=
  Server.MkServerConfig (foldl (λ m q, <[q := 1%Z]> m) ∅ queueNames) false 8 None false
    Server.NoMetrics 0 0 0 0 0 0 0 0.

(** [instance] is the scheduler's generated identity. *)
Definition New (rnd : Z → Z) (instance : string) (queueNames : list string) : adapter :=
  let queueNames := if bool_decide (len queueNames = 0)%Z then [DefaultQueue] else queueNames in
  MkAdapter (Server.newServer rnd (serverConfig queueNames)) (Scheduler.newScheduler instance 0)
    NewMux queueNames ∅ ∅.

(** [None]: a panic, of the division or of the index. *)
Definition queueFor (a : adapter) (key : string) : option string :=
  let n := (len (a_queues a) mod 2 ^ 32)%Z in
  if bool_decide (n = 0)%Z then None else a_queues a !! Z.to_nat (sum32a key mod n)%Z.

Section adapter.
Context (quote : string → string).

Definition duplicate (taskName : string) : err :=
  ErrText ("jobscheduler: duplicate task name " +:+ quote taskName).

Definition checkDup (a : adapter) (taskName : string) : result () :=
  if bool_decide (is_Some (a_schedulerJob a !! taskName)) then Err (duplicate taskName)
  else if bool_decide (is_Some (a_taskHandler a !! taskName)) then Err (duplicate taskName)
  else Ok ().

Definition panicked : err := ErrText "runtime error: index out of range".

(** ** Registration *)

Section register.
Context `{RJ : RawJson} (sha8 : bytes → string) (every : Z → Z → Z) (show : Z → string)
        (parse : string → result (Z → Z)).

(** The job is recorded before the scheduler is asked. *)
Definition RegisterScheduledJob (now : Z) (taskName : string) (interval : Z)
    (fn : SchedulerJobFunc) (a : adapter) : adapter * result string :=
  if bool_decide (interval < Second)%Z then
    (a, Err (ErrText "jobscheduler: interval must be >= 1s"))
  else match checkDup a taskName with
  | Err e => (a, Err e)
  | Ok _ =>
      let a := set_job taskName fn a in
      match queueFor a taskName with
      | None => (a, Err panicked)
      | Some q =>
          match Scheduler.RegisterInterval sha8 every show now interval
                  (rawArgs (MkRawTask taskName "")) [WithQueue q; WithMaxRetry 0]
                  (a_scheduler a) with
          | Err e => (a, Err e)
          | Ok s => (set_scheduler s a, Ok taskName)
          end
      end
  end.

(** Here it is recorded afterwards. *)
Definition RegisterCronJob (now : Z) (taskName cronSpec : string)
    (fn : SchedulerJobFunc) (a : adapter) : adapter * result string :=
  match checkDup a taskName with
  | Err e => (a, Err e)
  | Ok _ =>
      match queueFor a taskName with
      | None => (a, Err panicked)
      | Some q =>
          match Scheduler.RegisterCron sha8 quote parse now cronSpec
                  (rawArgs (MkRawTask taskName "")) [WithQueue q; WithMaxRetry 0]
                  (a_scheduler a) with
          | Err e => (a, Err e)
          | Ok s => (set_job taskName fn (set_scheduler s a), Ok taskName)
          end
      end
  end.

Definition RegisterTaskHandler (taskName : string) (fn : TaskHandlerFunc) (a : adapter)
    : adapter * result () :=
  match checkDup a taskName with
  | Err e => (a, Err e)
  | Ok _ => (set_handler taskName fn a, Ok ())
  end.

End register.

(** ** The bridge *)

(** The handler reads the registries when it is called: [a] is the adapter
    at that moment. *)
Definition bridge (a : adapter) (t : TypedTask rawTask) : outcome (option error) :=
  let name := Name (t_Args _ t) in
  match a_schedulerJob a !! name, a_taskHandler a !! name with
  | Some sjob, _ => sjob
  | None, Some thandler => thandler (Data (t_Args _ t))
  | None, None => Returned (Some (ErrLeaf ("jobscheduler: no handler for task " +:+ quote name)))
  end.

Definition addBridge `{RJ : RawJson} (a : adapter) : outcome Mux :=
  AddHandler quote rawKind unmarshalRaw (bridge a) (a_mux a).

(** ** Operations that reach Redis *)

(** [errors.Is(err, ErrDuplicateTask)]. *)
Fixpoint isDuplicateTask (e : err) : bool :=
  match e with
  | ErrDuplicateTask => true
  | ErrWrapped _ e => isDuplicateTask e
  | _ => false
  end.

Section run.
Context `{R : Redis} `{J : Json} `{MJ : MetaJson} `{RJ : RawJson} (K : Keys).
Context (sha256hex : bytes → string).

Definition enqueueOptionsOf (q : string) (cfg : EnqueueConfig) : list Option :=
  [WithQueue q; WithMaxRetry 0] ++
  (if bool_decide (0 < UniqueTTL cfg)%Z then [WithUnique (UniqueTTL cfg)] else []).

Definition Enqueue (a : adapter) (uuid taskName : string) (payload : bytes)
    (opts : list EnqueueOption) : M () :=
  let cfg := foldl applyOption (MkEnqueueConfig "" 0) opts in
  let key := if bool_decide (QueueKey cfg = "") then taskName else QueueKey cfg in
  match queueFor a key with
  | None => fail panicked
  | Some q =>
      r ← try (EnqueueTask K sha256hex uuid (rawArgs (MkRawTask taskName payload))
                 (enqueueOptionsOf q cfg));
      match r with
      | Ok _ => mret ()
      | Err e => if isDuplicateTask e then mret () else fail e
      end
  end.

(** Up to launching the two components' goroutines. *)
Definition Start (a : adapter) : M adapter :=
  match addBridge a with
  | Panicked v => fail (ErrText v)             (* a panic in Go *)
  | Returned mux =>
      Server.Start K (a_server a);;
      Scheduler.Start K (a_scheduler a);;
      mret (set_mux mux a)
  end.

(** Errors are dropped; the server's own shutdown is that of [Runtime]. *)
Definition Shutdown (a : adapter) : M () :=
  try (Scheduler.Shutdown K (a_scheduler a));; mret ().

End run.
End adapter.

(** ** What the adapter keeps true *)

Section laws.
Context (quote : string → string).
Context `{RJ : RawJson} (sha8 : bytes → string) (every : Z → Z → Z) (show : Z → string)
        (parse : string → result (Z → Z)).

(** A registration, with the time of the call. *)
Inductive registration :=
  | ScheduledJob (now : Z) (taskName : string) (interval : Z) (fn : SchedulerJobFunc)
  | CronJob (now : Z) (taskName cronSpec : string) (fn : SchedulerJobFunc)
  | TaskHandler (taskName : string) (fn : TaskHandlerFunc).

Definition register (r : registration) (a : adapter) : adapter * option err :=
  match r with
  | ScheduledJob now name interval fn =>
      let '(a, res) := RegisterScheduledJob quote sha8 every show now name interval fn a in
      (a, match res with Ok _ => None | Err e => Some e end)
  | CronJob now name spec fn =>
      let '(a, res) := RegisterCronJob quote sha8 parse now name spec fn a in
      (a, match res with Ok _ => None | Err e => Some e end)
  | TaskHandler name fn =>
      let '(a, res) := RegisterTaskHandler quote name fn a in
      (a, match res with Ok _ => None | Err e => Some e end)
  end.

Definition register_all (rs : list registration) (a : adapter) : adapter :=
  foldl (λ a r, (register r a).1) a rs.

(** An entry of the scheduler fires the job of that name, on a queue the
    server serves, without retries. *)
Definition fires_job (a : adapter) (name : string) (e : Scheduler.scheduleEntry) : Prop :=
  Scheduler.e_kind e = rawKind ∧
  Scheduler.e_payload e = marshalRaw (MkRawTask name "") ∧
  Scheduler.e_maxRetry e = 0%Z ∧
  Scheduler.e_queue e ∈ Server.queueNames (a_server a).

Record wired (a : adapter) : Prop := MkWired {
  wd_queues : a_queues a ≠ [] ∧ (len (a_queues a) < 2 ^ 32)%Z;
  wd_served : ∀ q, q ∈ a_queues a → q ∈ Server.queueNames (a_server a);
  wd_mux : a_mux a = NewMux;
  wd_names : dom (a_schedulerJob a) ## dom (a_taskHandler a);
  wd_entries : ∀ e, e ∈ Scheduler.s_entries (a_scheduler a) →
    ∃ name, name ∈ dom (a_schedulerJob a) ∧ fires_job a name e;
  wd_jobs : ∀ name, name ∈ dom (a_schedulerJob a) →
    ∃ e, e ∈ Scheduler.s_entries (a_scheduler a) ∧ fires_job a name e;
}.

Lemma sum32a_range data : (0 ≤ sum32a data < 2 ^ 32)%Z.
Proof.
  unfold sum32a. assert (0 ≤ offset32 < 2 ^ 32)%Z as H by done. revert H.
  generalize offset32. induction (chars data) as [|c l IH]; intros h H; [done|]. simpl.
  apply IH. unfold writeByte. by apply Z.mod_pos_bound.
Qed.

Lemma queueFor_served a key :
  wired a → ∃ q, queueFor a key = Some q ∧ q ∈ a_queues a ∧ q ∈ Server.queueNames (a_server a).
Proof.
  intros [[Hne Hlt] Hs _ _ _ _]. unfold queueFor.
  assert (0 < len (a_queues a))%Z as Hpos by (destruct (a_queues a); simpl; [done|lia]).
  rewrite Z.mod_small by lia. rewrite bool_decide_false by lia.
  pose proof (Z.mod_pos_bound (sum32a key) (len (a_queues a)) Hpos) as Hb.
  destruct (lookup_lt_is_Some_2 (a_queues a) (Z.to_nat (sum32a key mod len (a_queues a))))
    as [q Hq]; [lia|].
  exists q. assert (q ∈ a_queues a) by (by eapply list_elem_of_lookup_2). auto.
Qed.

Lemma served_names names m q :
  q ∈ dom (foldl (λ m q, <[q := 1%Z]> m) m names : gmap string Z) ↔ q ∈ names ∨ q ∈ dom m.
Proof. revert m. induction names as [|n names IH]; intros m; simpl; [set_solver|]. rewrite IH. set_solver. Qed.

Lemma queueNames_dom cfg q : q ∈ Server.queueNames cfg ↔ q ∈ dom (Server.Queues cfg).
Proof.
  unfold Server.queueNames. rewrite elem_of_dom, list_elem_of_fmap. split.
  - intros ([q' v] & -> & H%elem_of_map_to_list). by exists v.
  - intros [v H%elem_of_map_to_list]. by exists (q, v).
Qed.

Lemma wired_New rnd instance names :
  (len names < 2 ^ 32)%Z → wired (New rnd instance names).
Proof.
  intros Hlen. unfold New. set (l := if bool_decide _ then _ else names).
  assert (l ≠ [] ∧ (len l < 2 ^ 32)%Z) as Hl.
  { unfold l. case_bool_decide as E; [done|]. by destruct names. }
  constructor; simpl; [done| |done|set_solver|set_solver|set_solver].
  intros q Hq. apply queueNames_dom. simpl. apply served_names. by left.
Qed.

Lemma checkDup_ok a name :
  checkDup quote a name = Ok () ↔ name ∉ dom (a_schedulerJob a) ∧ name ∉ dom (a_taskHandler a).
Proof.
  unfold checkDup. rewrite !elem_of_dom. repeat case_bool_decide; naive_solver.
Qed.

(** What both schedule registrations do once the name is free. *)
Definition scheduled_as (now : Z) (q name spec : string) (sched : Z → Z) (fn : SchedulerJobFunc)
    (a : adapter) : adapter :=
  set_job name fn (set_scheduler
    (Scheduler.register sha8 now spec sched rawKind (marshalRaw (MkRawTask name ""))
       [WithQueue q; WithMaxRetry 0] (a_scheduler a)) a).

Lemma scheduled_wired now q name spec sched fn a :
  wired a → q ∈ Server.queueNames (a_server a) →
  name ∉ dom (a_schedulerJob a) → name ∉ dom (a_taskHandler a) →
  wired (scheduled_as now q name spec sched fn a).
Proof.
  intros [Hq Hs Hm Hn He Hj] Hserved Hfresh Hfresh'.
  constructor; simpl; try done; rewrite ?dom_insert.
  - set_solver.
  - setoid_rewrite elem_of_app. intros e [(n & Hn' & Hf)%He | ->%list_elem_of_singleton].
    + exists n. rewrite dom_insert. split; [set_solver|done].
    + exists name. rewrite dom_insert. split; [set_solver|done].
  - setoid_rewrite elem_of_app. intros n Hin. rewrite dom_insert in Hin.
    apply elem_of_union in Hin as [->%elem_of_singleton | (e & He' & Hf)%Hj].
    + eexists. split; [right; by apply list_elem_of_singleton|done].
    + exists e. split; [by left|done].
Qed.

Lemma handler_wired name fn a :
  wired a → name ∉ dom (a_schedulerJob a) → wired (set_handler name fn a).
Proof.
  intros [Hq Hs Hm Hn He Hj] Hfresh. constructor; simpl; try done. rewrite dom_insert. set_solver.
Qed.

Lemma register_wired r a :
  wired a → wired (register r a).1 ∧ (is_Some (register r a).2 → (register r a).1 = a).
Proof.
  intros Hw. destruct r as [now name interval fn|now name spec fn|name fn]; simpl.
  - unfold RegisterScheduledJob. case_bool_decide as Hi; [done|].
    destruct (checkDup quote a name) as [[]|e] eqn:E; [|done]. apply checkDup_ok in E as [Hf Hf'].
    destruct (queueFor_served a name Hw) as (q & Hq & _ & Hs).
    change (queueFor (set_job name fn a) name) with (queueFor a name). rewrite Hq.
    unfold Scheduler.RegisterInterval. rewrite bool_decide_false by done. simpl.
    split; [|by intros []%is_Some_None]. 
    by apply (scheduled_wired now q name ("@every " +:+ show interval) (every interval) fn a).
  - unfold RegisterCronJob. destruct (checkDup quote a name) as [[]|e] eqn:E; [|done].
    apply checkDup_ok in E as [Hf Hf'].
    destruct (queueFor_served a name Hw) as (q & Hq & _ & Hs). rewrite Hq.
    unfold Scheduler.RegisterCron. destruct (parse spec) as [sched|e]; [|done]. simpl.
    split; [|by intros []%is_Some_None]. by apply (scheduled_wired now q name spec sched fn a).
  - unfold RegisterTaskHandler. destruct (checkDup quote a name) as [[]|e] eqn:E; [|done].
    apply checkDup_ok in E as [Hf Hf']. simpl.
    split; [by apply handler_wired|by intros []%is_Some_None].
Qed.

Lemma registered_wired rnd instance names rs :
  (len names < 2 ^ 32)%Z → wired (register_all rs (New rnd instance names)).
Proof.
  intros Hlen. pose proof (wired_New rnd instance names Hlen) as Hw. revert Hw.
  generalize (New rnd instance names). unfold register_all.
  induction rs as [|r rs IH]; intros a Hw; [done|]. simpl. by apply IH, register_wired.
Qed.

(** ** Routing *)

Lemma bridge_job a t fn :
  a_schedulerJob a !! Name (t_Args _ t) = Some fn → bridge quote a t = fn.
Proof. unfold bridge, SchedulerJobFunc. by intros ->. Qed.

Lemma bridge_handler a t fn :
  wired a → a_taskHandler a !! Name (t_Args _ t) = Some fn → bridge quote a t = fn (Data (t_Args _ t)).
Proof.
  intros [_ _ _ Hn _ _] Hfn.
  assert (a_schedulerJob a !! Name (t_Args _ t) = None) as Hj.
  { apply not_elem_of_dom. apply elem_of_dom_2 in Hfn. set_solver. }
  unfold bridge, SchedulerJobFunc, TaskHandlerFunc in *. by rewrite Hj, Hfn.
Qed.

(** The result of a call, as [dispatchSafely] reports it. *)
Definition safely (o : outcome (option error)) : option error :=
  match o with
  | Returned err => err
  | Panicked v => Some (ErrLeaf ("chronos: handler panic: " +:+ v))
  end.

Lemma bridge_dispatch a mux msg t :
  a_mux a = NewMux → addBridge quote a = Returned mux →
  m_Kind msg = rawKind → m_Payload msg = marshalRaw t → valid (Name t) = true →
  dispatchSafely quote mux msg = (msg, safely (bridge quote a (newTask t msg))).
Proof.
  unfold addBridge, AddHandler. intros -> H Hk Hp Hv.
  rewrite bool_decide_false in H by (by intros [? ?]). injection H as Hmux.
  assert (∃ h, mux !! rawKind = Some h ∧ h msg = (msg, bridge quote a (newTask t msg))) as (h & Hh & E).
  { rewrite <- Hmux. eexists. split; [by apply lookup_insert_eq|]. simpl.
    rewrite Hp, raw_roundtrip, sanitize_valid by done. by destruct t. }
  unfold dispatchSafely, dispatch. rewrite Hk, Hh, E. by destruct (bridge _ _ _).
Qed.

Lemma addBridge_ok a : a_mux a = NewMux → ∃ mux, addBridge quote a = Returned mux.
Proof.
  unfold addBridge, AddHandler. intros ->. rewrite bool_decide_false by (by intros [? ?]). eauto.
Qed.

(** The jobs are wired.  Whatever is registered on a new adapter, and
    whichever registrations fail: the bridge can be installed; every entry of
    the scheduler is on a queue the server serves, is never retried, and runs
    the job registered under its name, and every such job has an entry; a
    task is passed with its payload to the handler registered under its name;
    and a registration that fails leaves the adapter as it was. *)
Lemma jobs_wired rnd instance names rs :
  (len names < 2 ^ 32)%Z →
  let a := register_all rs (New rnd instance names) in
  ∃ mux, addBridge quote a = Returned mux ∧
  (∀ e, e ∈ Scheduler.s_entries (a_scheduler a) → ∃ name fn,
     a_schedulerJob a !! name = Some fn ∧ Scheduler.e_maxRetry e = 0%Z ∧
     Scheduler.e_queue e ∈ Server.queueNames (a_server a) ∧
     (valid name = true → ∀ msg,
        m_Kind msg = Scheduler.e_kind e → m_Payload msg = Scheduler.e_payload e →
        dispatchSafely quote mux msg = (msg, safely fn))) ∧
  (∀ name, is_Some (a_schedulerJob a !! name) →
     ∃ e, e ∈ Scheduler.s_entries (a_scheduler a) ∧ fires_job a name e) ∧
  (∀ name fn payload msg, valid name = true → a_taskHandler a !! name = Some fn →
     m_Kind msg = rawKind → m_Payload msg = marshalRaw (MkRawTask name payload) →
     dispatchSafely quote mux msg = (msg, safely (fn payload))) ∧
  (∀ r, is_Some (register r a).2 → (register r a).1 = a).
Proof.
  intros Hlen a. pose proof (registered_wired rnd instance names rs Hlen) as Hw. fold a in Hw.
  pose proof Hw as [_ _ Hm Hn He Hj]. destruct (addBridge_ok a Hm) as [mux Hmux].
  exists mux. split; [done|]. split_and!.
  - intros e (name & [fn Hfn]%elem_of_dom & (Hk & Hp & Hr & Hs))%He. exists name, fn.
    split_and!; [done..|]. intros Hv msg Hmk Hmp.
    rewrite (bridge_dispatch a mux msg (MkRawTask name "")) by (done || congruence).
    by rewrite (bridge_job a _ fn).
  - intros name Hname. by apply Hj, elem_of_dom.
  - intros name fn payload msg Hv Hfn Hk Hp.
    rewrite (bridge_dispatch a mux msg (MkRawTask name payload)) by done.
    by rewrite (bridge_handler a _ fn).
  - intros r. by apply register_wired.
Qed.

End laws.

(** ** From [Enqueue] to the handler *)

#[local] Arguments mbind {_ _ _ _} _ _ : simpl never.

Definition configOf (opts : list EnqueueOption) : EnqueueConfig :=
  foldl applyOption (MkEnqueueConfig "" 0) opts.

(** The queue a task of that name is enqueued on. *)
Definition destination (a : adapter) (taskName : string) (opts : list EnqueueOption) : option string :=
  queueFor a (if bool_decide (QueueKey (configOf opts) = "") then taskName else QueueKey (configOf opts)).

Section delivery.
Context (quote : string → string).
Context `{R : Redis} `{J : Json} `{RJ : RawJson} (K : Keys) (sha256hex : bytes → string).

(** The message of a job. *)
Definition jobMessage (uuid q taskName : string) (payload : bytes) : TaskMessage :=
  newMessage uuid rawKind (marshalRaw (MkRawTask taskName payload)) q 0 false 0.

Lemma Enqueue_job a uuid taskName payload opts q (Q : result () → world → Prop) w :
  destination a taskName opts = Some q → (UniqueTTL (configOf opts) ≤ 0)%Z →
  wpm (RdbCore.Enqueue K (jobMessage uuid q taskName payload)) (λ r w', r = Ok () ∧ Q (Ok ()) w') w →
  wpm (Enqueue K sha256hex a uuid taskName payload opts) Q w.
Proof.
  unfold destination, Enqueue. fold (configOf opts). intros -> Hu HQ.
  apply wpm_bind, wpm_try. unfold EnqueueTask. apply wpm_bind, wpm_now.
  assert (enqueueOptionsOf q (configOf opts) = [WithQueue q; WithMaxRetry 0]) as ->
    by (unfold enqueueOptionsOf; rewrite bool_decide_false by lia; done).
  simpl. apply wpm_bind, wpm_ret, wpm_bind.
  unfold dispatchMessage. apply wpm_bind, wpm_now. simpl.
  eapply wpm_mono; [exact HQ|]. intros r w' [-> H]. by apply wpm_ret, wpm_ret.
Qed.

(** A job reaches its handler.  After any registrations, a task enqueued
    under a name with a handler, without a uniqueness lock, goes to a queue
    the server serves; whoever reads that queue is handed one task, and
    dispatching it calls that handler with that payload, its error or panic
    being the task's outcome. *)
Theorem job_reaches_handler sha8 every show parse rnd instance names rs uuid name fn payload opts
    consumer n gr q mux w :
  (len names < 2 ^ 32)%Z →
  let a := register_all quote sha8 every show parse rs (New rnd instance names) in
  addBridge quote a = Returned mux →
  a_taskHandler a !! name = Some fn → valid name = true → valid uuid = true →
  (UniqueTTL (configOf opts) ≤ 0)%Z → destination a name opts = Some q → valid q = true →
  quiet w → drained K (wks w) q gr →
  let r := (Enqueue K sha256hex a uuid name payload opts;; DequeueBatch K consumer q n) w in
  q ∈ Server.queueNames (a_server a) ∧
  ∃ msg e, r.2 = Ok [MkDequeued msg e] ∧ dispatchSafely quote mux msg = (msg, safely (fn payload)).
Proof.
  intros Hlen a Hmux Hfn Hname Huuid Hu Hq Hvq Hw (Hg & Hun & Hlast) r.
  pose proof (registered_wired quote sha8 every show parse rnd instance names rs Hlen) as Hwired.
  fold a in Hwired. split.
  { destruct (queueFor_served a
      (if bool_decide (QueueKey (configOf opts) = "") then name else QueueKey (configOf opts)) Hwired)
      as (q' & Hq' & _ & Hs). unfold destination in Hq. rewrite Hq in Hq'. by injection Hq' as <-. }
  set (msg := jobMessage uuid q name payload).
  exists (with_State StateActive msg).
  change (wpm (Enqueue K sha256hex a uuid name payload opts;; DequeueBatch K consumer q n)
    (λ r _, ∃ e, r = Ok [MkDequeued (with_State StateActive msg) e] ∧
       dispatchSafely quote mux (with_State StateActive msg)
       = (with_State StateActive msg, safely (fn payload))) w).
  apply wpm_bind, (Enqueue_job a uuid name payload opts q); [done..|].
  apply Enqueue_quiet; [done|]. intros w1 id Hw1 Hid Est Hb _. split; [done|].
  simpl in Hid, Est, Hb.
  apply (DequeueBatch_one K q msg StatePending consumer n gr id); simpl.
  - done.
  - unfold utf8_msg. simpl. by rewrite Huuid, Hvq.
  - unfold group_at in *. by rewrite Est.
  - rewrite Est. by apply undelivered_add.
  - done.
  - intros w' _ _. exists id. split; [done|].
    rewrite (bridge_dispatch quote a mux _ (MkRawTask name payload)); [|apply Hwired|done..].
    by rewrite (bridge_handler quote a _ fn).
Qed.

End delivery.

(** An encoding with the law of [RawJson], two queues and three
    registrations, of which the last fails. *)
Definition RefRaw : RawJson.
Proof.
  refine {|
    marshalRaw := λ t, Pack.pack [Name t; Data t];
    unmarshalRaw := λ b, match Pack.unpack b with
                         | [n; d] => inl (MkRawTask (sanitize n) d)
                         | _ => inr (ErrLeaf "unexpected end of JSON input")
                         end |}.
  intros t. by rewrite Pack.unpack_pack.
Defined.

Definition demo_handler : TaskHandlerFunc := λ b, Panicked b.

Definition demo_registrations : list registration :=
  [ScheduledJob 0 "tick" (5 * Second) (Returned None); TaskHandler "mail" demo_handler;
   CronJob 0 "mail" "* * * * *" (Returned None)].

Definition demo_adapter : adapter :=
  register_all (RJ := RefRaw) id (λ _, "00") (λ d now, now + d)%Z (λ _, "5s")
    (λ _, Err ErrParse) demo_registrations (New id "i1" ["q"; "r"]).

Lemma jobs_wired_witness :
  (∃ mux, addBridge (RJ := RefRaw) id demo_adapter = Returned mux) ∧
  (∃ e, e ∈ Scheduler.s_entries (a_scheduler demo_adapter) ∧
        fires_job (RJ := RefRaw) demo_adapter "tick" e) ∧
  is_Some (register (RJ := RefRaw) id (λ _, "00") (λ d now, now + d)%Z (λ _, "5s")
             (λ _, Err ErrParse) (TaskHandler "tick" demo_handler) demo_adapter).2.
Proof.
  destruct (jobs_wired (RJ := RefRaw) id (λ _, "00") (λ d now, now + d)%Z (λ _, "5s")
              (λ _, Err ErrParse) id "i1" ["q"; "r"] demo_registrations eq_refl)
    as (mux & Hmux & _ & Hj & _ & _).
  split; [by exists mux|]. split; [apply Hj; by exists (Returned None)|].
  by exists (duplicate id "tick").
Defined.

Lemma job_reaches_handler_witness :
  let q := default "" (destination demo_adapter "mail" []) in
  let w := demo_world (do_xgroup (StreamKey DefaultKeys q) ConsumerGroup empty_keyspace) in
  let r := (Enqueue (RJ := RefRaw) DefaultKeys (λ _, "00") demo_adapter "id" "mail" "hi" [];;
            DequeueBatch DefaultKeys "w1" q 5) w in
  ∃ mux msg e, r.2 = Ok [MkDequeued msg e] ∧
    dispatchSafely id mux msg = (msg, Some (ErrLeaf "chronos: handler panic: hi")).
Proof.
  intros q w r.
  destruct (addBridge_ok (RJ := RefRaw) id demo_adapter eq_refl) as [mux E].
  assert (destination demo_adapter "mail" [] = Some q) as Hq by by vm_compute.
  assert (valid q = true) as Hv by by vm_compute.
  assert (drained DefaultKeys (wks w) q (MkGroup 0 ∅)) as Hd by (split_and!; by vm_compute).
  destruct (job_reaches_handler (RJ := RefRaw) id DefaultKeys (λ _, "00") (λ _, "00")
           (λ d now, now + d)%Z (λ _, "5s") (λ _, Err ErrParse) id "i1" ["q"; "r"]
           demo_registrations "id" "mail" demo_handler "hi" [] "w1" 5 (MkGroup 0 ∅) q mux w
           eq_refl E eq_refl eq_refl eq_refl ltac:(done) Hq Hv eq_refl Hd)
    as (_ & msg & e & Hr & Hh).
  exists mux, msg, e. by split.
Defined.

End JobScheduler.
