(* ===== verification/Bench.v ===== *)
(** * benchmarks: the statistics of the harness

    The percentiles and the median run of [bench/stats.go], the repetition of
    [bench/runner.go] and the choice of a scenario of [cmd/bench].  A
    duration is a number of nanoseconds; a throughput is a double.
    [sort.Slice] may order equal elements either way and is a parameter where
    that shows.  The scenarios themselves, which measure wall-clock time on a
    server, and the server's answers to the runner are functions. *)

From S2P Require Import Prelude GoLib Client ScoreSpec.
From Stdlib Require Import Ascii.

Module Bench.
Import GoFloat Client ScoreSpec.

(** ** Doubles

    The quotient of an integer, rounded correctly as in [nsFraction], and the
    product of a double and an integer below [2^53]. *)

Definition fquot (n d : Z) : score :=
  let q := ((n * score_unit) `div` d)%Z in
  f64 (if bool_decide ((n * score_unit) `mod` d = 0)%Z then q else if Z.odd q then q else q + 1)%Z.

Definition fmulInt (a : score) (n : Z) : score := f64 (a * n).

(** ** stats.go *)

Record Result := MkResult {
  Scenario : string;
  Target : string;
  Tasks : Z;
  Concurrency : Z;
  Producers : Z;
  PayloadSize : Z;
  Elapsed : Z;
  Throughput : score;
  P50 : Z;
  P95 : Z;
  P99 : Z;
  Max : Z;
  Extra : gmap string score;
}.

(** The index for a percentile of [n] sorted values. *)
Definition rankIndex (n : nat) (p : score) : Z :=
  let idx := (toInt64 (fadd (fmulInt p (Z.of_nat n)) (fquot 1 2)) - 1)%Z in
  let idx := if bool_decide (idx < 0)%Z then 0%Z else idx in
  if bool_decide (Z.of_nat n ≤ idx)%Z then (Z.of_nat n - 1)%Z else idx.

Definition sortDurations (l : list Z) : list Z := merge_sort Z.le l.

Definition Percentiles (latencies : list Z) : Z * Z * Z * Z :=
  if bool_decide (latencies = []) then (0, 0, 0, 0)%Z else
  let sorted := sortDurations latencies in
  let rank p := nth (Z.to_nat (rankIndex (length sorted) p)) sorted 0%Z in
  (rank (fquot 50 100), rank (fquot 95 100), rank (fquot 99 100),
   nth (length sorted - 1) sorted 0%Z).

Section runs.
Context (sortSlice : list Result → list Result).

(** [None]: an index out of range. *)
Definition MedianByThroughput (rs : list Result) : option Result :=
  let sorted := sortSlice rs in sorted !! (length sorted `div` 2).

(** ** runner.go *)

Record Config := MkConfig {
  c_RedisAddr : string;
  c_RedisDB : Z;
  c_Tasks : Z;
  c_Concurrency : Z;
  c_Producers : Z;
  c_PayloadSize : Z;
}.

(** What [Run] records of one run. *)
Definition labelled (name target : string) (cfg : Config) (r : Result) : Result :=
  MkResult name target (c_Tasks cfg) (c_Concurrency cfg) (c_Producers cfg) (c_PayloadSize cfg)
    (Elapsed r) (Throughput r) (P50 r) (P95 r) (P99 r) (Max r) (Extra r).

Section run.
Context (ping : result ()) (flush : nat → result ()) (scenario : nat → result Result).
Context (name target : string) (cfg : Config).

(** The runs until one fails; [scenario i] is the [i]-th, after the [i]-th
    flush of the database. *)
Fixpoint repeatRuns (i repeats : nat) : result (list Result) :=
  match repeats with
  | 0 => Ok []
  | S repeats =>
      match flush i with
      | Err e => Err e
      | Ok _ =>
          match scenario i with
          | Err e => Err (ErrWrapped ("run " +:+ GoStr.itoa (Z.of_nat i + 1)) e)
          | Ok r =>
              match repeatRuns (S i) repeats with
              | Err e => Err e
              | Ok rs => Ok (labelled name target cfg r :: rs)
              end
          end
      end
  end.

(** [None]: a panic. *)
Definition Run (repeats : Z) : option (result Result) :=
  match ping with
  | Err e => Some (Err (ErrWrapped ("redis not reachable at " +:+ c_RedisAddr cfg) e))
  | Ok _ =>
      if bool_decide (repeats < 0)%Z then None else     (* make: cap out of range *)
      match repeatRuns 0 (Z.to_nat repeats) with
      | Err e => Some (Err e)
      | Ok rs =>
          match flush (Z.to_nat repeats) with
          | Err e => Some (Err e)
          | Ok _ => Ok <$> MedianByThroughput rs
          end
      end
  end.

End run.
End runs.

(** ** cmd/bench: the implementation of a target's scenario *)

Inductive implementation :=
  | ChronosEnqueue | ChronosE2E | ChronosChain (length : Z) | ChronosGroup (size : Z)
  | AsynqEnqueue | AsynqE2E.

Definition pick (target scenario : string) (chainLen groupSize : Z) : result implementation :=
  let unknown := Err (ErrText ("unknown target/scenario: " +:+ target +:+ "/" +:+ scenario)) in
  if bool_decide (target = "chronos") then
    if bool_decide (scenario = "enqueue") then Ok ChronosEnqueue
    else if bool_decide (scenario = "e2e") then Ok ChronosE2E
    else if bool_decide (scenario = "chain") then Ok (ChronosChain chainLen)
    else if bool_decide (scenario = "group") then Ok (ChronosGroup groupSize)
    else unknown
  else if bool_decide (target = "asynq") then
    if bool_decide (scenario = "enqueue") then Ok AsynqEnqueue
    else if bool_decide (scenario = "e2e") then Ok AsynqE2E
    else Err (ErrText "asynq supports enqueue|e2e only")
  else unknown.

(** The payload's filler: [pad] of chronosbench. *)
Definition pad (size : Z) : string :=
  let overhead := 40%Z in
  if bool_decide (size ≤ overhead)%Z then ""
  else GoStr.ofChars (replicate (Z.to_nat (size - overhead)) "x"%char).

(** ** What the percentiles are *)

Lemma rankIndex_bounds n p : n ≠ 0 → (0 ≤ rankIndex n p < Z.of_nat n)%Z.
Proof. unfold rankIndex. intros Hn. repeat case_bool_decide; lia. Qed.

Lemma rankIndex_mono n p p' : (0 ≤ p)%Z → (p ≤ p')%Z → (rankIndex n p ≤ rankIndex n p')%Z.
Proof.
  intros Hp Hpp. unfold rankIndex.
  assert (toInt64 (fadd (fmulInt p (Z.of_nat n)) (fquot 1 2))
          ≤ toInt64 (fadd (fmulInt p' (Z.of_nat n)) (fquot 1 2)))%Z as H.
  { unfold toInt64, fadd, fmulInt.
    assert (0 ≤ f64 (p * Z.of_nat n))%Z by (apply f64_nonneg; lia).
    assert (0 ≤ fquot 1 2)%Z by by vm_compute.
    apply Z.quot_le_mono; [by vm_compute|].
    apply f64_mono; [lia|]. apply Z.add_le_mono_r, f64_mono; nia. }
  repeat case_bool_decide; lia.
Qed.

Lemma sorted_nth l i j :
  StronglySorted Z.le l → i ≤ j → j < length l → (nth i l 0 ≤ nth j l 0)%Z.
Proof.
  intros Hs. revert i j. induction Hs as [|x l Hs IH Hx]; intros i j Hij Hj; simpl in Hj; [lia|].
  destruct i as [|i], j as [|j]; simpl; [done| |lia|apply IH; lia].
  rewrite List.Forall_forall in Hx. apply Hx, nth_In. lia.
Qed.

#[local] Instance Z_le_total : Total Z.le.
Proof. intros a b. lia. Qed.

(** The percentiles are what they are called.  Of a non-empty list of
    latencies each of the four numbers is one of them; they are in ascending
    order, the last is the maximum; and they depend on the latencies only,
    not on the order in which they were measured. *)
Lemma percentiles_ordered l :
  l ≠ [] →
  let '(p50, p95, p99, mx) := Percentiles l in
  (p50 ≤ p95 ∧ p95 ≤ p99 ∧ p99 ≤ mx)%Z ∧
  (p50 ∈ l ∧ p95 ∈ l ∧ p99 ∈ l ∧ mx ∈ l) ∧
  (∀ x, x ∈ l → x ≤ mx)%Z ∧
  ∀ l', l' ≡ₚ l → Percentiles l' = (p50, p95, p99, mx).
Proof.
  intros Hne.
  assert (∀ l', l' ≡ₚ l → sortDurations l' = sortDurations l) as Hperm.
  { intros l' Hl. apply (StronglySorted_unique Z.le);
      [apply StronglySorted_merge_sort; apply _..|]. unfold sortDurations. by rewrite !merge_sort_Permutation. }
  assert (sortDurations l ≡ₚ l) as Hp by apply merge_sort_Permutation.
  assert (StronglySorted Z.le (sortDurations l)) as Hs by (apply StronglySorted_merge_sort; apply _).
  assert (length (sortDurations l) ≠ 0) as Hn by (rewrite Hp; by destruct l).
  destruct (Percentiles l) as [[[p50 p95] p99] mx] eqn:E.
  unfold Percentiles in E. rewrite bool_decide_false in E by exact Hne.
  set (s := sortDurations l) in *.
  assert (∀ i, i < length s → nth i s 0%Z ∈ l) as Hin
    by (intros i Hi; rewrite <- Hp; apply list_elem_of_In, nth_In; lia).
  assert (∀ p, Z.to_nat (rankIndex (length s) p) < length s) as Hr
    by (intros p; pose proof (rankIndex_bounds (length s) p Hn); lia).
  assert (∀ p p', (0 ≤ p)%Z → (p ≤ p')%Z →
            (nth (Z.to_nat (rankIndex (length s) p)) s 0 ≤ nth (Z.to_nat (rankIndex (length s) p')) s 0)%Z) as Hm.
  { intros p p' H0 Hpp. apply sorted_nth; [done| |apply Hr]. by apply Z2Nat.inj_le;
      [apply rankIndex_bounds..|apply rankIndex_mono]. }
  injection E as <- <- <- <-. split_and!.
  - by apply Hm; vm_compute.
  - by apply Hm; vm_compute.
  - apply sorted_nth; [done| |lia]. pose proof (Hr (fquot 99 100)). lia.
  - apply Hin, Hr.
  - apply Hin, Hr.
  - apply Hin, Hr.
  - apply Hin. lia.
  - intros x Hx. rewrite <- Hp in Hx. apply list_elem_of_In, (In_nth _ _ 0%Z) in Hx as (i & Hi & <-).
    apply sorted_nth; [done|lia|lia].
  - intros l' Hl. unfold Percentiles. rewrite bool_decide_false.
    2:{ intros ->. by apply Permutation_nil_l in Hl. }
    by rewrite (Hperm l' Hl).
Qed.

Lemma percentiles_ordered_witness :
  Percentiles [30; 10; 20]%Z = (20, 30, 30, 30)%Z ∧
  Percentiles [10; 20; 30]%Z = (20, 30, 30, 30)%Z.
Proof.
  pose proof (percentiles_ordered [30; 10; 20]%Z ltac:(done)) as H.
  assert (Percentiles [30; 10; 20]%Z = (20, 30, 30, 30)%Z) as E by by vm_compute.
  rewrite E in H. destruct H as (_ & _ & _ & H). split; [exact E|]. apply H.
  by apply (bool_decide_unpack ([10; 20; 30]%Z ≡ₚ [30; 10; 20]%Z)).
Defined.

(** The rank is rounded, not raised: of eleven latencies the 95th percentile
    by nearest rank would be the largest. *)
Lemma percentile_not_nearest_rank :
  (Percentiles (map Z.of_nat (seq 1 11))).1.1.2 = 10%Z ∧ (95 * 11 > 10 * 100)%Z.
Proof. split; by vm_compute. Qed.

(** Asked for no runs, the harness has no median to report. *)
Lemma no_repeats_panics sortSlice flush scenario name target cfg repeats :
  sortSlice [] = [] → (∀ i, flush i = Ok ()) → (repeats ≤ 0)%Z →
  Run sortSlice (Ok ()) flush scenario name target cfg repeats = None.
Proof.
  intros Hs Hf Hr. unfold Run. case_bool_decide; [done|].
  replace repeats with 0%Z by lia. simpl. rewrite Hf. unfold MedianByThroughput. by rewrite Hs.
Qed.

End Bench.
