(* ===== verification/Soak.v ===== *)
(** * benchmarks/soak: the long-running workload and its verdict

    The mix of tasks the soak test feeds to a server, the handlers' decisions,
    the sampling of the keyspace and the judgement of the sampled memory,
    goroutine and key counts.  The tickers, the printed lines and the log are
    not modelled; doubles are those of [Bench]. *)

From S2P Require Import Prelude GoLib Base Redis Client RdbCore RdbLocks RdbFlow RdbAdmin Schedule Options Builder.
From S2P Require Import Retry Handler Server Instances ScoreSpec Bench.
From Stdlib Require Import Ascii.

Module Soak.
Import GoTime GoFloat GoStr Keys Task Redis Client RdbCore RdbLocks RdbFlow RdbAdmin Schedule Options Builder.
Import Retry Handler Server ScoreSpec Bench.

(** ** workload.go *)

Record taskArgs := MkTaskArgs { Seq : Z; FailOnce : bool; Fail : bool }.

Inductive variant :=
  | varNormal | varNormalDelayed | varNormalRetained | varFailOnce | varDeadLetter | varDiscard.

#[global] Instance variant_eq_dec : EqDecision variant.
Proof. solve_decision. Defined.

Definition pickVariant (seq : Z) : variant :=
  let m := Z.rem seq 100 in
  if bool_decide (m < 10)%Z then varFailOnce
  else if bool_decide (m < 15)%Z then varDeadLetter
  else if bool_decide (m < 20)%Z then varDiscard
  else if bool_decide (m < 30)%Z then varNormalDelayed
  else if bool_decide (m < 46)%Z then varNormalRetained
  else varNormal.

Definition pickQueue (seq : Z) : string :=
  if bool_decide (Z.rem seq 4 < 3)%Z then "soak-a" else "soak-b".

(** [NewWorkload]: the rate, at least one task per second. *)
Definition workloadRate (rate : Z) : Z := if bool_decide (rate < 1)%Z then 1%Z else rate.
Definition tickInterval (rate : Z) : Z := (Second `quot` workloadRate rate)%Z.

(** [enqueueOne]: the arguments and options of a task. *)
Definition baseTask (seq : Z) : taskArgs * list Option :=
  let opts := [WithQueue (pickQueue seq)] in
  match pickVariant seq with
  | varFailOnce => (MkTaskArgs seq true false, opts)
  | varDeadLetter => (MkTaskArgs seq false true, opts ++ [WithMaxRetry 1])
  | varDiscard => (MkTaskArgs seq false true, opts ++ [WithMaxRetry 0; WithDeadLetterDiscard])
  | varNormalDelayed =>
      (MkTaskArgs seq false false, opts ++ [WithProcessIn ((5 + Z.rem seq 11) * Second)])
  | varNormalRetained => (MkTaskArgs seq false false, opts ++ [WithRetention (30 * Second)])
  | varNormal => (MkTaskArgs seq false false, opts)
  end.

Definition taskKind : string := "soak:task".
Definition errSoakFail : error := ErrLeaf "soak: deliberate failure".

(** The handler of a base task; [seen] are the tasks that failed once. *)
Definition taskHandler (seen : gset string) (t : TypedTask taskArgs) : outcome (option error) :=
  if Fail (t_Args _ t) then Returned (Some errSoakFail)
  else if FailOnce (t_Args _ t) && bool_decide (t_id _ t ∉ seen) then Returned (Some errSoakFail)
  else Returned None.

(** What a call leaves of [seen] and adds to the completions. *)
Definition taskEffect (seen : gset string) (t : TypedTask taskArgs) : gset string * Z :=
  if Fail (t_Args _ t) then (seen, 0%Z)
  else if FailOnce (t_Args _ t) then
    if bool_decide (t_id _ t ∈ seen) then (seen ∖ {[t_id _ t]}, 1%Z) else ({[t_id _ t]} ∪ seen, 0%Z)
  else (seen, 1%Z).

(** The workflows of a ten-second tick; [chainArgs] and the like are encoded
    by [encode]. *)
Section tick.
Context (encode : string → Z → Z → bytes).

Definition chainArgs (batch link : Z) : TaskArgs := MkArgs "soak:chain" (Some (encode "soak:chain" batch link)).
Definition groupArgs (batch member : Z) : TaskArgs := MkArgs "soak:group" (Some (encode "soak:group" batch member)).
Definition cbArgs (batch : Z) : TaskArgs := MkArgs "soak:cb" (Some (encode "soak:cb" batch 0%Z)).

Definition tickWorkflow (batch : Z) : Chain :=
  Then
    (ThenGroup (Then NewChain (chainArgs batch 0) [WithQueue "soak-a"])
       (Some (OnComplete
          (Add (Add NewGroup (groupArgs batch 0) [WithQueue "soak-a"])
             (groupArgs batch 1) [WithQueue "soak-b"])
          (cbArgs batch) [WithQueue "soak-a"])))
    (chainArgs batch 2) [WithQueue "soak-a"].

Definition tickGroup (batch : Z) : Group :=
  OnComplete
    (Add (Add (Add NewGroup (groupArgs batch 0) [WithQueue "soak-a"])
       (groupArgs batch 1) [WithQueue "soak-b"])
       (groupArgs batch 2) [WithQueue "soak-a"])
    (cbArgs batch) [WithQueue "soak-a"].

Definition tickMemberChains (batch : Z) : Group :=
  let pipeline := Then (Then NewChain (chainArgs batch 0) [WithQueue "soak-a"])
                    (chainArgs batch 1) [WithQueue "soak-b"] in
  OnComplete (AddChain (AddChain NewGroup (Some pipeline)) (Some pipeline))
    (cbArgs batch) [WithQueue "soak-a"].

End tick.

(** The loads: one task of the mix, and the specials of a tick.  What fails is
    logged; [Err] marks the enqueues that a caller would see fail. *)
Section loads.
Context `{R : Redis} `{J : Json} (K : Keys) (sha256hex : bytes → string).
Context (marshal : taskArgs → bytes) (encode : string → Z → Z → bytes).

Definition attempt {A} (p : M A) : M bool :=
  r ← try p;
  mret match r with Ok _ => true | Err _ => false end.

(** What [enqueueOne] adds to the count of accepted tasks. *)
Definition enqueueOne (uuid : string) (seq : Z) : M Z :=
  let (args, opts) := baseTask seq in
  ok ← attempt (EnqueueTask K sha256hex uuid (MkArgs taskKind (Some (marshal args))) opts);
  mret (if ok : bool then 1%Z else 0%Z).

Definition uniqueArgs (batch : Z) : TaskArgs := MkArgs "soak:unique" (Some (encode "soak:unique" batch 0%Z)).

Definition enqueueUnique (uuid : string) (batch : Z) : M bool :=
  attempt (EnqueueTask K sha256hex uuid (uniqueArgs batch) [WithQueue "soak-a"; WithUnique (30 * Second)]).

(** The five duplicates, the workflow and the two groups of batch [batch]; the
    UUIDs come in the order they are drawn. *)
Definition tick (uuids : nat → string) (batch : Z) : M (list bool) :=
  unique ← mapM (λ i, enqueueUnique (uuids i) batch) (seq 0 5);
  wf ← attempt (ChainEnqueue K sha256hex (uuids 5) (tickWorkflow encode batch));
  g ← attempt (GroupEnqueue K sha256hex (uuids 6) (tickGroup encode batch));
  gmc ← attempt (GroupEnqueue K sha256hex (uuids 7) (tickMemberChains encode batch));
  mret (unique ++ [wf; g; gmc]).

End loads.

(** [pauseToggler]: one period of two minutes, unless it is cancelled. *)
Definition pausePeriod `{R : Redis} (K : Keys) : M () :=
  sleep 120000;;
  r ← try (PauseQueue K "soak-b");
  match r with
  | Err _ => mret ()
  | Ok _ => sleep 30000;; try (ResumeQueue K "soak-b");; mret ()
  end.

(** ** sample.go and sampler.go

    The process's own figures (heap, goroutines, completions) are arguments,
    and so are the two commands no other part of the program sends: [dbSize]
    and [hLen]. *)

Record Sample := MkSample {
  ElapsedSec : score;
  HeapBytes : Z;
  Goroutines : Z;
  DBSize : Z;
  Throughput_ : score;
  s_Stream : Z;
  s_Retry : Z;
  s_Scheduled : Z;
  s_Archived : Z;
  s_Completed : Z;
  s_Unique : Z;
  s_Groups : Z;
  s_Schedules : Z;
}.

Definition SampledPrefix : string := "chronos".

Record Sampler := MkSampler {
  sp_queues : list string;
  sp_prefix : string;
  sp_start : Z;
  sp_prevDone : Z;
  sp_prevAt : Z;
}.

Definition NewSamplerWithPrefix (queues : list string) (prefix : string) (now : Z) : Sampler :=
  MkSampler queues prefix now 0 now.
Definition NewSampler (queues : list string) (now : Z) : Sampler :=
  NewSamplerWithPrefix queues SampledPrefix now.

(** [d.Seconds()]. *)
Definition durationSeconds (d : Z) : score := fadd (ofInt (d `quot` Second)) (nsFraction (Z.rem d Second)).

(** The key part of a queue, and the two patterns of a scan. *)
Definition sampledPart (prefix q : string) : string := prefix +:+ ":{" +:+ q +:+ "}:".
Definition uniquePattern (prefix : string) : string := prefix +:+ ":*:unique:*".
Definition groupPattern (prefix : string) : string := prefix +:+ ":*:group*".

Section sampling.
Context `{R : Redis} (dbSize : M Z) (hLen : string → M Z).

(** On a single server the cursor walk is one [SCAN]. *)
Definition scanCount (pattern : string) : M Z :=
  wrap_err ("scan " +:+ pattern) (keys ← run (call (SCAN pattern)); mret (len keys)).

Definition zcard (key : string) : M Z := wrap_err ("zcard " +:+ key) (run (call (ZCARD key))).

(** The counts of one queue, added to those of the queues before. *)
Definition collectQueue (prefix : string) (n : Z * Z * Z * Z * Z) (q : string) : M (Z * Z * Z * Z * Z) :=
  let '(stream, retry, scheduled, archived, completed) := n in
  let p := sampledPart prefix q in
  x ← wrap_err ("xlen " +:+ q) (run (call (XLEN (p +:+ "stream"))));
  r ← zcard (p +:+ "retry");
  s ← zcard (p +:+ "scheduled");
  a ← zcard (p +:+ "archived");
  c ← zcard (p +:+ "completed");
  mret (stream + x, retry + r, scheduled + s, archived + a, completed + c)%Z.

(** A failed collection leaves the sampler as it was. *)
Definition Collect (s : Sampler) (heap goroutines done : Z) : M (Sample * Sampler) :=
  t ← now;
  let dt := durationSeconds (t - sp_prevAt s) in
  let tput := if bool_decide (0 < dt)%Z then fdiv (ofInt (done - sp_prevDone s)) dt else 0%Z in
  db ← wrap_err "dbsize" dbSize;
  n ← go_foldl (collectQueue (sp_prefix s)) (0, 0, 0, 0, 0)%Z (sp_queues s);
  let '(stream, retry, scheduled, archived, completed) := n in
  unique ← scanCount (uniquePattern (sp_prefix s));
  groups ← scanCount (groupPattern (sp_prefix s));
  schedules ← wrap_err "hlen schedules" (hLen (sp_prefix s +:+ ":schedules"));
  mret (MkSample (durationSeconds (t - sp_start s)) heap goroutines db tput
          stream retry scheduled archived completed unique groups schedules,
        MkSampler (sp_queues s) (sp_prefix s) (sp_start s) done t).

End sampling.

(** ** verdict.go *)

(** The quotient of a double and an integer. *)
Definition fdivInt (a : score) (n : Z) : score := f64 (stickyDiv a n).

Record Check_ := MkCheck { Name : string; First : score; Second_ : score; Rule : string; Pass : bool }.

Definition mean (xs : list score) : score :=
  if bool_decide (xs = []) then 0%Z else fdivInt (foldl fadd 0%Z xs) (len xs).

(** [skip = int(float64(len(xs)) * warmup)], at least one. *)
Definition splitWindows (xs : list score) (warmup : score) : list score * list score :=
  let skip := Z.to_nat (toInt64 (fmulInt warmup (len xs))) in
  let skip := if bool_decide (skip = 0 ∧ xs ≠ []) then 1 else skip in
  let rest := drop skip xs in
  let half := length rest `div` 2 in
  (take half rest, drop (length rest - half) rest).

Definition warmupFrac : score := fquot 1 10.
Definition heapSlackBytes : score := ofInt (32 * 2 ^ 20).
Definition dbSlackKeys : score := ofInt 50.

Definition Evaluate (samples : list Sample) : option (list Check_) :=
  let heap := map (λ s, ofInt (HeapBytes s)) samples in
  let gor := map (λ s, ofInt (Goroutines s)) samples in
  let db := map (λ s, ofInt (DBSize s)) samples in
  let (h1, h2) := splitWindows heap warmupFrac in
  if bool_decide (length h1 < 2 ∨ length h2 < 2) then None else
  let (g1, g2) := splitWindows gor warmupFrac in
  let (d1, d2) := splitWindows db warmupFrac in
  let hf := mean h1 in let hs := mean h2 in
  let gf := mean g1 in let gs := mean g2 in
  let df := mean d1 in let ds := mean d2 in
  Some [MkCheck "heap" hf hs "second <= first x1.2 + 32MB"
          (bool_decide (hs ≤ fadd (fmul hf (fquot 12 10)) heapSlackBytes)%Z);
        MkCheck "goroutines" gf gs "second - first <= 10" (bool_decide (f64 (gs - gf) ≤ ofInt 10)%Z);
        MkCheck "dbsize" df ds "second <= first x1.1 + 50"
          (bool_decide (ds ≤ fadd (fmul df (fquot 11 10)) dbSlackKeys)%Z)].

(** ** cmd/soak: the verdict of a run *)

Definition sampleEvery : Z := 30 * Second.
Definition minReliable : Z := 30 * Minute.

(** [None]: exit code 0. *)
Definition runVerdict (elapsed : Z) (samples : list Sample) (shutdownFailed : bool) : option err :=
  let expected := (elapsed `quot` sampleEvery)%Z in
  let coverageFailed := bool_decide (minReliable ≤ elapsed)%Z
                        && bool_decide (len samples < expected * 8 `quot` 10)%Z in
  let leak := Some (ErrText "leak check failed") in
  match Evaluate samples with
  | None => if coverageFailed then leak else None
  | Some checks =>
      let failed := existsb (λ c, negb (Pass c)) checks in
      if bool_decide (elapsed < minReliable)%Z then None
      else if failed || shutdownFailed || coverageFailed then leak else None
  end.

(** The server of [run], with metrics to observe it by. *)
Definition soakConfig (m : metrics) : ServerConfig :=
  newServer (λ z, z) (MkServerConfig {["soak-a" := 3%Z; "soak-b" := 1%Z]} false 16 None false m
                        0 0 0 0 (5 * Minute) 0 0 Second).

(** ** What the sampler observes *)

Definition literal (c : ascii) : Prop := c ≠ "*"%char ∧ c ≠ "?"%char ∧ c ≠ "\"%char.

#[global] Instance literal_dec c : Decision (literal c).
Proof. unfold literal. apply _. Defined.

Lemma glob_literal p q s : Forall literal p → glob (p ++ q) (p ++ s) = glob q s.
Proof.
  induction 1 as [|c p (H1 & H2 & H3) _ IH]; [done|]. simpl. rewrite !decide_False by done.
  by rewrite bool_decide_true.
Qed.

Lemma glob_star q t s : glob q s = true → glob ("*"%char :: q) (t ++ s) = true.
Proof. intros H. simpl. induction t as [|c t IH]; [destruct s; simpl; by rewrite H|]. simpl in *. by rewrite IH, orb_true_r. Qed.

Lemma glob_any s : glob ["*"%char] s = true.
Proof. rewrite <- (app_nil_r s). by apply glob_star. Qed.

Lemma sampled_match k q pat w s :
  Forall literal (chars (prefix k)) → Forall literal (chars pat) → w = pat +:+ s →
  glob (chars (prefix k +:+ (":*:" +:+ (pat +:+ "*")))) (chars (QueueKeyPrefix k q +:+ w)) = true.
Proof.
  intros Hk Hp ->. rewrite QueueKeyPrefix_chars, <- app_assoc, chars_app, glob_literal by done.
  rewrite !chars_app. change (glob (":"%char :: "*"%char :: ":"%char :: (chars pat ++ ["*"%char]))
    (":"%char :: (("{"%char :: chars q ++ "}"%char :: ":"%char :: (chars pat ++ chars s)))) = true).
  assert (Forall literal [":"%char]) as Hc by by repeat constructor.
  etrans; [exact (glob_literal [":"%char] _ _ Hc)|].
  replace ("{"%char :: chars q ++ "}"%char :: ":"%char :: (chars pat ++ chars s))
    with (("{"%char :: chars q ++ ["}"%char]) ++ ":"%char :: (chars pat ++ chars s))
    by (simpl; by rewrite <- app_assoc).
  apply glob_star. etrans; [exact (glob_literal [":"%char] _ _ Hc)|].
  rewrite glob_literal by done. apply glob_any.
Qed.

(** The sampler's own copy of the key layout is the one of keys.go, with the
    same default prefix: it reads
    the stream, the four sets and the registry of every queue it is given,
    and its two patterns match every unique lock, every group and every result
    hash of the namespace, unless a pattern character stands in its prefix. *)
Theorem sampled_layout K q x :
  Forall literal (chars (prefix K)) →
  SampledPrefix = prefix DefaultKeys ∧
  sampledPart (prefix K) q = QueueKeyPrefix K q ∧
  sampledPart (prefix K) q +:+ "stream" = StreamKey K q ∧
  sampledPart (prefix K) q +:+ "retry" = RetryKey K q ∧
  sampledPart (prefix K) q +:+ "scheduled" = ScheduledKey K q ∧
  sampledPart (prefix K) q +:+ "archived" = ArchivedKey K q ∧
  sampledPart (prefix K) q +:+ "completed" = CompletedKey K q ∧
  prefix K +:+ ":schedules" = SchedulesKey K ∧
  glob (chars (uniquePattern (prefix K))) (chars (UniqueKey K q x)) = true ∧
  glob (chars (groupPattern (prefix K))) (chars (GroupKey K q x)) = true ∧
  glob (chars (groupPattern (prefix K))) (chars (GroupResultKey K q x)) = true.
Proof.
  intros Hp. split_and!; [done..| | |].
  - by apply (sampled_match K q "unique:" _ x); [|apply (bool_decide_unpack _)|].
  - by apply (sampled_match K q "group" _ (":" +:+ x)); [|apply (bool_decide_unpack _)|].
  - by apply (sampled_match K q "group" _ ("result:" +:+ x)); [|apply (bool_decide_unpack _)|].
Qed.

(** ** The fate of a base task *)

#[local] Arguments mbind {_ _ _ _} _ _ : simpl never.

Section fates.
Context `{R : Redis} `{J : Json} (K : Keys) (quote : string → string) (cfg : ServerConfig).
Context (marshal : taskArgs → bytes) (decode : bytes → taskArgs + error).

Definition soakMux (seen : gset string) : outcome Mux :=
  AddHandler quote taskKind decode (taskHandler seen) NewMux.

(** The message [enqueueOne] creates for the task, tried [r] times. *)
Definition baseMessage (id : string) (now seq r : Z) : TaskMessage :=
  let (args, opts) := baseTask seq in
  let o := resolve now opts in
  with_Retried r (newMessage id taskKind (marshal args) (o_queue o) (o_maxRetry o) (o_noArchive o)
                    (retentionSeconds o)).

Context (Hjson : ∀ a, decode (marshal a) = inl a).
Context (Hmetrics : Metrics cfg ≠ NoMetrics) (Hhook : OnDeadLetter cfg = false).

Lemma logged_any {A} (p : M A) (Q : result () → world → Prop) w : (∀ w', Q (Ok ()) w') → wpm (logged p) Q w.
Proof.
  intros HQ. unfold logged. apply wpm_bind, wpm_try. unfold wpm. by apply wpm_ret.
Qed.

Lemma soak_dispatch seen mux msg args :
  soakMux seen = Returned mux → m_Kind msg = taskKind → m_Payload msg = marshal args →
  dispatchSafely quote mux msg
  = (msg, match taskHandler seen (newTask args msg) with Returned e => e | Panicked _ => None end).
Proof.
  unfold soakMux, AddHandler. rewrite bool_decide_false by (by intros [? ?]). intros [= Hmux] Hk Hp.
  assert (∃ h, mux !! taskKind = Some h ∧ h msg = (msg, taskHandler seen (newTask args msg))) as (h & Hh & E).
  { rewrite <- Hmux. eexists. split; [by apply lookup_insert_eq|]. simpl. by rewrite Hp, Hjson. }
  unfold dispatchSafely, dispatch. rewrite Hk, Hh, E. unfold taskHandler. by repeat case_match.
Qed.

Lemma success_reports q e msg w :
  m_Chain msg = [] → m_GroupID msg = "" →
  wpm (processSuccess K cfg q e msg) (λ r _, r = Ok [ObserveTask (m_Queue msg) (m_Kind msg) OutcomeSuccess]) w.
Proof.
  intros Hc Hg. unfold processSuccess. rewrite Hc, bool_decide_false by auto.
  apply wpm_bind, wpm_ret. simpl. rewrite Hg. apply wpm_bind, wpm_ret. apply wpm_bind, logged_any. intros w'.
  apply wpm_ret. unfold observe. by destruct (Metrics cfg).
Qed.

Lemma failure_reports q e msg cause w :
  asSkipRetry cause = false →
  wpm (processFailure K cfg q e msg cause) (λ r _, r = Ok [ObserveTask (m_Queue msg) (m_Kind msg)
    (if bool_decide (m_MaxRetry msg ≤ m_Retried msg)%Z then OutcomeDeadLetter else OutcomeRetry)]) w.
Proof.
  intros Hs. unfold processFailure. rewrite Hs. simpl. case_bool_decide.
  - apply wpm_bind. unfold deadLetter. apply wpm_bind.
    destruct (m_NoArchive _); [|apply wpm_bind, wpm_now]; apply logged_any; intros w';
      apply wpm_ret; rewrite Hhook; apply wpm_ret; unfold observe; by destruct (Metrics cfg).
  - apply wpm_bind, wpm_now, wpm_bind, logged_any. intros w'. apply wpm_ret.
    unfold observe. by destruct (Metrics cfg).
Qed.

(** The workload does what its mix says.  Whatever the state of Redis and
    whatever fails, the server reports of a base task at its first delivery:
    success for the plain, delayed and retained ones; a retry for those that
    fail once, which succeed when delivered again and are then forgotten, so
    that the set of seen tasks does not grow; a retry and then a dead letter
    for those that always fail with one retry; and a dead letter at once for
    those without retries, which are not archived. *)
Theorem soak_fates seen id now seq mux mux' e q w w' :
  id ∉ seen → soakMux seen = Returned mux → soakMux ({[id]} ∪ seen) = Returned mux' →
  let v := pickVariant seq in
  let msg := baseMessage id now seq in
  let t := newTask (baseTask seq).1 (msg 0%Z) in
  let report o := Ok [ObserveTask (pickQueue seq) taskKind o] in
  let first := (process K quote cfg mux q e (msg 0%Z) w).2 in
  let second := (process K quote cfg mux' q e (msg 1%Z) w').2 in
  match v with
  | varNormal | varNormalDelayed | varNormalRetained =>
      first = report OutcomeSuccess ∧ taskEffect seen t = (seen, 1%Z)
  | varFailOnce =>
      first = report OutcomeRetry ∧ second = report OutcomeSuccess ∧
      taskEffect seen t = ({[id]} ∪ seen, 0%Z) ∧ taskEffect ({[id]} ∪ seen) t = (seen, 1%Z)
  | varDeadLetter =>
      first = report OutcomeRetry ∧ second = report OutcomeDeadLetter ∧
      m_NoArchive (msg 1%Z) = false ∧ taskEffect seen t = (seen, 0%Z)
  | varDiscard =>
      first = report OutcomeDeadLetter ∧ m_NoArchive (msg 0%Z) = true ∧ taskEffect seen t = (seen, 0%Z)
  end.
Proof.
  intros Hid Hmux Hmux' v msg t report first second.
  assert (∀ r, m_Kind (msg r) = taskKind ∧ m_Payload (msg r) = marshal (baseTask seq).1 ∧
               m_Queue (msg r) = pickQueue seq ∧ m_Chain (msg r) = [] ∧ m_GroupID (msg r) = "" ∧
               m_Retried (msg r) = r) as Hmsg.
  { intros r. unfold msg, baseMessage, baseTask. by destruct (pickVariant seq). }
  assert (∀ s mx r w0, soakMux s = Returned mx →
    (process K quote cfg mx q e (msg r) w0).2
    = report match taskHandler s (newTask (baseTask seq).1 (msg r)) with
             | Returned (Some _) =>
                 if bool_decide (m_MaxRetry (msg r) ≤ r)%Z then OutcomeDeadLetter else OutcomeRetry
             | _ => OutcomeSuccess
             end) as Hrun.
  { intros s mx r w0 Hs. destruct (Hmsg r) as (Hk & Hp & Eq & Hc & Hg & Hr). unfold process.
    rewrite (soak_dispatch s mx (msg r) (baseTask seq).1 Hs Hk Hp).
    pose proof (failure_reports q e (msg r) errSoakFail w0 eq_refl) as Hf.
    pose proof (success_reports q e (msg r) w0 Hc Hg) as Hok.
    rewrite Hk, Eq in Hf, Hok. rewrite Hr in Hf.
    unfold taskHandler. destruct (Fail _); [exact Hf|]. destruct (_ && _); [exact Hf|exact Hok]. }
  unfold first, second. rewrite (Hrun seen mux 0%Z w Hmux), (Hrun _ mux' 1%Z w' Hmux').
  unfold t, taskHandler, taskEffect, msg, v, baseMessage, baseTask.
  destruct (pickVariant seq); simpl; try done.
  - rewrite (bool_decide_true (id ∉ seen)), (bool_decide_false (id ∉ {[id]} ∪ seen)) by set_solver.
    rewrite (bool_decide_false (id ∈ seen)), (bool_decide_true (id ∈ {[id]} ∪ seen)) by set_solver.
    split_and!; [done..|]. f_equal. set_solver.
Qed.

End fates.

(** A codec of the arguments: their number, in binary. *)
Fixpoint binary (p : positive) : bytes :=
  match p with
  | xH => ""
  | xO p => String "0"%char (binary p)
  | xI p => String "1"%char (binary p)
  end.

Fixpoint unbinary (s : bytes) : positive :=
  match s with
  | "" => xH
  | String c s => if Ascii.eqb c "1"%char then xI (unbinary s) else xO (unbinary s)
  end.

Lemma unbinary_binary p : unbinary (binary p) = p.
Proof. induction p; simpl; congruence. Qed.

Definition refMarshal (a : taskArgs) : bytes := binary (countable.encode (Seq a, FailOnce a, Fail a)).
Definition refDecode (b : bytes) : taskArgs + error :=
  match countable.decode (unbinary b) with
  | Some (s, fo, f) => inl (MkTaskArgs s fo f)
  | None => inr (ErrLeaf "syntax error")
  end.

Lemma refDecode_marshal a : refDecode (refMarshal a) = inl a.
Proof. unfold refDecode, refMarshal. rewrite unbinary_binary, decode_encode. by destruct a. Qed.

Definition demo_store (clock : Z) : world (R := RefRedis.RefRedis) :=
  MkWorld (empty_keyspace : RefRedis.RefRedis.(store)) [] clock ∅.

(** Task 3 fails once and then succeeds; task 19 is dropped at once. *)
Lemma soak_fates_witness :
  let run mux msg clock := (process (J := RefJson.RefJson) DefaultKeys (λ s, s) (soakConfig TaskMetrics) mux "soak-b" 1%Z msg (demo_store clock)).2 in
  (∃ mux mux', run mux (baseMessage refMarshal "i3" 0 3 0) 0%Z = Ok [ObserveTask "soak-b" taskKind OutcomeRetry] ∧
               run mux' (baseMessage refMarshal "i3" 0 3 1) Second = Ok [ObserveTask "soak-b" taskKind OutcomeSuccess]) ∧
  ∃ mux, run mux (baseMessage refMarshal "i19" 0 19 0) 0%Z = Ok [ObserveTask "soak-b" taskKind OutcomeDeadLetter].
Proof.
  intros run.
  pose proof (soak_fates (J := RefJson.RefJson) DefaultKeys (λ s, s) (soakConfig TaskMetrics) refMarshal refDecode refDecode_marshal
    ltac:(done) eq_refl ∅) as H.
  destruct (soakMux (λ s, s) refDecode ∅) as [m0|?] eqn:E0; [|done].
  split.
  - destruct (soakMux (λ s, s) refDecode ({["i3"]} ∪ ∅)) as [m1|?] eqn:E1; [|done].
    destruct (H "i3" 0%Z 3%Z m0 m1 1%Z "soak-b" (demo_store 0) (demo_store Second) ltac:(set_solver) eq_refl E1)
      as (H1 & H2 & _).
    exists m0, m1. by split.
  - destruct (soakMux (λ s, s) refDecode ({["i19"]} ∪ ∅)) as [m1|?] eqn:E1; [|done].
    destruct (H "i19" 0%Z 19%Z m0 m1 1%Z "soak-b" (demo_store 0) (demo_store Second) ltac:(set_solver) eq_refl E1)
      as (H1 & _).
    by exists m0.
Defined.


(** ** The verdict *)

(** A number of at most 53 bits is a double, and rounding is idempotent. *)
Lemma f64_exact n k : (0 ≤ n < 2 ^ 53)%Z → (0 ≤ k)%Z → f64 (n * 2 ^ k) = (n * 2 ^ k)%Z.
Proof.
  intros Hn Hk. destruct (decide (n = 0)%Z) as [->|]; [done|].
  unfold f64. rewrite Z.abs_eq by lia. rewrite Z.log2_mul_pow2 by lia.
  pose proof (Z.log2_nonneg n). assert (Z.log2 n < 53)%Z by (apply Z.log2_lt_pow2; lia).
  set (e := Z.max 0 (k + Z.log2 n - 52)%Z).
  replace (n * 2 ^ k)%Z with (n * 2 ^ (k - e) * 2 ^ e)%Z; [apply rne_multiple; lia|].
  rewrite <- Z.mul_assoc, <- Z.pow_add_r by lia. do 2 f_equal. lia.
Qed.

Lemma f64_double x : (0 ≤ x)%Z → f64 (f64 x) = f64 x.
Proof.
  intros Hx. destruct (decide (x = 0)%Z) as [->|]; [done|].
  pose proof (f64_exponent x ltac:(lia)) as (He & Hu & _).
  set (e := Z.max 0 (Z.log2 (Z.abs x) - 52)%Z) in *.
  assert (∃ m, f64 x = (m * 2 ^ e)%Z) as [m Em] by (unfold f64; fold e; unfold rne; by eexists).
  assert (0 * 2 ^ e ≤ f64 x ≤ 2 ^ 53 * 2 ^ e)%Z as Hb by (apply rne_bounds; [done|lia]).
  rewrite Em in *. pose proof (Z.pow_pos_nonneg 2 e ltac:(lia) He).
  assert (0 ≤ m ≤ 2 ^ 53)%Z as Hm by nia.
  destruct (decide (m = 2 ^ 53)%Z) as [->|]; [|apply f64_exact; lia].
  rewrite <- Z.pow_add_r by lia. rewrite <- (Z.mul_1_l (2 ^ (53 + e))). apply f64_exact; lia.
Qed.

Lemma fsum_nonneg xs a : (0 ≤ a)%Z → Forall (λ x, 0 ≤ x)%Z xs → (0 ≤ foldl fadd a xs)%Z.
Proof.
  intros Ha Hxs. revert a Ha. induction Hxs as [|x xs Hx Hxs IH]; intros a Ha; [done|]. simpl.
  apply IH, f64_nonneg. lia.
Qed.

(** A mean is a double of at least zero. *)
Lemma mean_double xs : Forall (λ x, 0 ≤ x)%Z xs → (0 ≤ mean xs)%Z ∧ f64 (mean xs) = mean xs.
Proof.
  intros Hxs. unfold mean. case_bool_decide as Hne; [done|]. unfold fdivInt.
  assert (0 ≤ stickyDiv (foldl fadd 0%Z xs) (len xs))%Z as H.
  { apply stickyDiv_nonneg; [by apply fsum_nonneg|]. destruct xs; simpl; [done|lia]. }
  split; [by apply f64_nonneg|by apply f64_double].
Qed.

(** A threshold above the first mean tolerates a second one that is no larger. *)
Lemma tolerant c slack a b :
  (score_unit ≤ c)%Z → (0 ≤ slack)%Z → (0 ≤ a)%Z → f64 a = a → (b ≤ a)%Z →
  (b ≤ fadd (fmul a c) slack)%Z.
Proof.
  intros Hc Hs Ha Hd Hb. etrans; [exact Hb|].
  assert (a ≤ stickyDiv (a * c) score_unit)%Z as Hq.
  { assert (a ≤ (a * c) `div` score_unit)%Z.
    { apply Z.div_le_lower_bound; [by vm_compute|]. rewrite Z.mul_comm. by apply Z.mul_le_mono_nonneg_l. }
    unfold stickyDiv. repeat case_match; lia. }
  assert (a ≤ fmul a c)%Z as Hm by (rewrite <- Hd at 1; by apply f64_mono).
  unfold fadd. rewrite <- Hd at 1. apply f64_mono; lia.
Qed.

Lemma windows_nonneg xs w :
  Forall (λ x, 0 ≤ x)%Z xs →
  Forall (λ x, 0 ≤ x)%Z (splitWindows xs w).1 ∧ Forall (λ x, 0 ≤ x)%Z (splitWindows xs w).2.
Proof. intros H. unfold splitWindows. simpl. split; [apply Forall_take|apply Forall_drop]; by apply Forall_drop. Qed.

(** The first tenth, at least one sample, is cut off, never more than a
    quarter. *)
Lemma skip_bound n :
  (0 ≤ n < 2 ^ 53)%Z → (0 ≤ toInt64 (fmulInt warmupFrac n))%Z ∧ (4 * toInt64 (fmulInt warmupFrac n) ≤ n)%Z.
Proof.
  intros Hn. unfold toInt64, fmulInt.
  assert (0 ≤ f64 (warmupFrac * n))%Z as H0
    by (apply f64_nonneg, Z.mul_nonneg_nonneg; [by vm_compute|lia]).
  assert (0 ≤ warmupFrac ≤ 2 ^ 88)%Z as Hw by (split; by vm_compute).
  revert H0. generalize dependent warmupFrac. intros f Hf H0.
  assert (f64 (f * n) ≤ n * 2 ^ 88)%Z as H1.
  { etrans; [|apply Z.eq_le_incl, f64_exact; lia]. apply f64_mono; nia. }
  split; [by apply Z.quot_pos|].
  pose proof (Z.quot_rem' (f64 (f * n)) score_unit) as Hq.
  pose proof (Z.rem_nonneg (f64 (f * n)) score_unit ltac:(by vm_compute) H0) as Hr.
  set (s := (_ `quot` _)%Z) in *. unfold score_unit in *.
  assert (2 ^ 90 * s ≤ n * 2 ^ 88)%Z by lia. change (2 ^ 90)%Z with (4 * 2 ^ 88)%Z in *. nia.
Qed.

Lemma windows_length (xs : list score) :
  (len xs < 2 ^ 53)%Z →
  let w := splitWindows xs warmupFrac in
  length w.1 = length w.2 ∧ (length w.1 < 2 ↔ length xs < 5).
Proof.
  intros Hn w. unfold w, splitWindows. cbn [fst snd].
  destruct (skip_bound (len xs)) as [H0 H1]; [lia|].
  generalize dependent (toInt64 (fmulInt warmupFrac (len xs))). intros k H0 H1. set (skip := if bool_decide _ then 1 else Z.to_nat k).
  assert (skip = Nat.max 1 (Z.to_nat k) ∨ length xs = 0) as Hskip.
  { unfold skip. case_bool_decide as E; [left; lia|]. destruct (decide (Z.to_nat k = 0)); [|left; lia].
    right. destruct xs; [reflexivity|]. exfalso. apply E. split; [assumption|discriminate]. }
  rewrite length_take, length_drop, !length_drop.
  set (r := length xs - skip).
  pose proof (Nat.div_mod_eq r 2). pose proof (Nat.mod_upper_bound r 2 ltac:(done)).
  split; [lia|]. rewrite Nat.min_l by lia. unfold r in *. lia.
Qed.

Lemma f64_nonpos x : (x ≤ 0)%Z → (f64 x ≤ 0)%Z.
Proof.
  intros Hx. unfold f64. set (e := Z.max 0 _). assert (0 ≤ e)%Z as He by lia.
  pose proof (rne_mono x (0 * 2 ^ e) e He ltac:(lia)) as H. rewrite rne_multiple in H by done. lia.
Qed.

#[local] Opaque warmupFrac heapSlackBytes dbSlackKeys.

Lemma samples_nonneg (f : Sample → Z) samples :
  Forall (λ s, 0 ≤ f s)%Z samples → Forall (λ x, 0 ≤ x)%Z (map (λ s, ofInt (f s)) samples).
Proof. induction 1; simpl; constructor; [by apply ofInt_nonneg|done]. Qed.

(** The soak verdict raises no false alarm.  With fewer than five samples
    there is no verdict; with more, the two windows are of equal size, and a
    quantity whose mean has not grown from the first to the second passes its
    check, rounding included.  So a run without growth that was sampled and
    shut down properly exits with code zero. *)
Theorem soak_verdict samples :
  (len samples < 2 ^ 53)%Z →
  Forall (λ s, 0 ≤ HeapBytes s ∧ 0 ≤ Goroutines s ∧ 0 ≤ DBSize s)%Z samples →
  (Evaluate samples = None ↔ length samples < 5) ∧
  (∀ checks, Evaluate samples = Some checks →
     Forall (λ c, (Second_ c ≤ First c)%Z → Pass c = true) checks) ∧
  (∀ checks elapsed, Evaluate samples = Some checks →
     Forall (λ c, Second_ c ≤ First c)%Z checks →
     ((elapsed `quot` sampleEvery) * 8 `quot` 10 ≤ len samples)%Z →
     runVerdict elapsed samples false = None).
Proof.
  intros Hn Hs.
  assert (∀ f : Sample → Z, length (splitWindows (map (λ s, ofInt (f s)) samples) warmupFrac).1
            = length (splitWindows (map (λ s, ofInt (f s)) samples) warmupFrac).2 ∧
          (length (splitWindows (map (λ s, ofInt (f s)) samples) warmupFrac).1 < 2 ↔ length samples < 5)) as Hlen.
  { intros f. pose proof (windows_length (map (λ s, ofInt (f s)) samples)) as H.
    rewrite length_map in H. exact (H Hn). }
  assert (∀ f : Sample → Z, Forall (λ s, 0 ≤ f s)%Z samples →
            let w := splitWindows (map (λ s, ofInt (f s)) samples) warmupFrac in
            ((0 ≤ mean w.1)%Z ∧ f64 (mean w.1) = mean w.1)) as Hmean.
  { intros f Hf w. exact (mean_double _ (proj1 (windows_nonneg _ _ (samples_nonneg f samples Hf)))). }
  assert (∀ checks, Evaluate samples = Some checks →
     Forall (λ c, (Second_ c ≤ First c)%Z → Pass c = true) checks) as Hpass.
  { intros checks. unfold Evaluate.
    destruct (Hmean HeapBytes) as [Hh0 Hh1]; [by eapply Forall_impl; [exact Hs|intros ? (? & _)]|].
    destruct (Hmean DBSize) as [Hd0 Hd1]; [by eapply Forall_impl; [exact Hs|intros ? (_ & _ & ?)]|].
    destruct (splitWindows (map (λ s, ofInt (HeapBytes s)) samples) warmupFrac) as [h1 h2].
    destruct (splitWindows (map (λ s, ofInt (Goroutines s)) samples) warmupFrac) as [g1 g2].
    destruct (splitWindows (map (λ s, ofInt (DBSize s)) samples) warmupFrac) as [d1 d2].
    cbn [fst snd] in *. case_bool_decide; [done|]. intros [= <-].
    repeat constructor; cbn [First Second_ Pass]; intros Hle; apply bool_decide_eq_true.
    - apply tolerant; [by vm_compute|by vm_compute|assumption..].
    - etrans; [apply f64_nonpos; lia|by vm_compute].
    - apply tolerant; [by vm_compute|by vm_compute|assumption..]. }
  split; [|split; [exact Hpass|]].
  - destruct (Hlen HeapBytes) as [E1 E2]. rewrite <- E2. unfold Evaluate.
    destruct (splitWindows (map (λ s, ofInt (HeapBytes s)) samples) warmupFrac) as [h1 h2].
    cbn [fst snd] in *. case_bool_decide as Hd; [split; [intros _; lia|done]|].
    destruct (splitWindows _ _), (splitWindows _ _). split; [done|]. intros. exfalso. apply Hd. by left.
  - intros checks elapsed E Hle Hcov. unfold runVerdict. rewrite E.
    specialize (Hpass checks E).
    assert (existsb (λ c, negb (Pass c)) checks = false) as ->.
    { apply not_true_is_false. rewrite existsb_exists. intros (c & Hc & Hf).
      apply list_elem_of_In in Hc. rewrite Forall_forall in Hpass, Hle.
      by rewrite (Hpass c Hc (Hle c Hc)) in Hf. }
    case_bool_decide; [done|]. simpl.
    rewrite (bool_decide_false (len samples < _)%Z) by lia. by rewrite andb_false_r.
Qed.

Definition steady : list Sample := replicate 8 (MkSample 0 50000000 60 1000 0 0 0 0 0 0 0 0 0).

Lemma soak_verdict_witness :
  (∃ checks, Evaluate steady = Some checks ∧ Forall (λ c, Pass c = true) checks ∧ length checks = 3) ∧
  runVerdict (240 * Second) steady false = None ∧ Evaluate (take 4 steady) = None.
Proof.
  destruct (soak_verdict steady ltac:(done) ltac:(by repeat constructor)) as (_ & Hp & Hr).
  assert (∃ checks, Evaluate steady = Some checks ∧ Forall (λ c, (Second_ c ≤ First c)%Z) checks ∧
            length checks = 3) as (checks & E & Hle & H3).
  { exists (default [] (Evaluate steady)). split_and!; [by vm_compute|apply (bool_decide_unpack _); by vm_compute|by vm_compute]. }
  split_and!.
  - exists checks. split_and!; [done| |done].
    pose proof (proj2 (Forall_and _ _) (conj (Hp checks E) Hle)) as H.
    eapply Forall_impl; [exact H|]. intros c [H1 H2]. by apply H1.
  - by apply (Hr checks).
  - apply (soak_verdict (take 4 steady)); [done|by repeat constructor|simpl; lia].
Defined.

End Soak.
