(* ===== verification/Tour.v ===== *)
(** * examples/tour: the walkthrough

    The sixteen scenes of [main], each the tasks it enqueues, the handlers and
    servers it sets up and what the handlers print (as a tag and its
    arguments).  A server is driven by one goroutine, in steps of a tenth of a
    second: what its loops have due, one fetch round, and the fetched tasks
    one after the other.  That is one of the schedules of the real server,
    without faults.  The section titles, the remarks and the start of the
    scene's log are not modelled. *)

From S2P Require Import Prelude GoLib Wrr Base Redis Client RdbCore RdbLocks RdbFlow RdbAdmin Schedule Options Builder.
From S2P Require Import Retry Handler Server Scheduler Inspector Instances ScoreSpec.
From Stdlib Require Import Ascii.

Module Tour.
Import GoTime GoFloat GoStr Keys Task Redis Client RdbCore RdbLocks RdbFlow RdbAdmin Schedule Options Builder.
Import Retry Handler Server Inspector ScoreSpec.

(** ** Task types

    Each has at most one field; [encoding/json] at these types is a class. *)

Class FieldJson := {
  oneString : string → string → bytes;
  unString : string → bytes → string + error;
  oneInt : string → Z → bytes;
  unInt : string → bytes → Z + error;
  noField : bytes;
}.

Section types.
Context `{FieldJson}.

Definition GreetArgs (name : string) : TaskArgs := MkArgs "demo:greet" (Some (oneString "name" name)).
Definition FlakyArgs (id : Z) : TaskArgs := MkArgs "demo:flaky" (Some (oneInt "id" id)).
Definition PoisonArgs (id : Z) : TaskArgs := MkArgs "demo:poison" (Some (oneInt "id" id)).
Definition ReminderArgs (note : string) : TaskArgs := MkArgs "demo:reminder" (Some (oneString "note" note)).
Definition LongArgs (id : Z) : TaskArgs := MkArgs "demo:long" (Some (oneInt "id" id)).
Definition PrioArgs (queue : string) : TaskArgs := MkArgs "demo:prio" (Some (oneString "queue" queue)).
Definition ChainStepArgs (step : Z) : TaskArgs := MkArgs "demo:chainstep" (Some (oneInt "step" step)).
Definition GroupMemberArgs (n : Z) : TaskArgs := MkArgs "demo:groupmember" (Some (oneInt "n" n)).
Definition GroupReportArgs (batch : string) : TaskArgs :=
  MkArgs "demo:groupreport" (Some (oneString "batch" batch)).
Definition OcrArgs (image : string) : TaskArgs := MkArgs "tour:ocr" (Some (oneString "image" image)).
Definition TranslateArgs (lang : string) : TaskArgs := MkArgs "tour:translate" (Some (oneString "lang" lang)).
Definition MergeArgs : TaskArgs := MkArgs "tour:merge" (Some noField).
Definition MigDump (tenant : string) : TaskArgs := MkArgs "tour:mig-dump" (Some (oneString "tenant" tenant)).
Definition MigTransform (tenant : string) : TaskArgs :=
  MkArgs "tour:mig-transform" (Some (oneString "tenant" tenant)).
Definition MigLoad (tenant : string) : TaskArgs := MkArgs "tour:mig-load" (Some (oneString "tenant" tenant)).
Definition MigVerify : TaskArgs := MkArgs "tour:mig-verify" (Some noField).

(** The results [OcrOut] and [MigOut]. *)
Definition OcrOut (text : string) : bytes + error := inl (oneString "text" text).
Definition ocrText : bytes → string + error := unString "text".
Definition MigOut (rows : Z) : bytes + error := inl (oneInt "rows" rows).
Definition migRows : bytes → Z + error := unInt "rows".

End types.

(** ** Handlers that print *)

Definition line : Type := string * list string.

Record demoHandler := MkDemoHandler {
  h_register : Mux → outcome Mux;
  h_kind : string;
  h_says : TaskMessage → list line;
}.

Section handlers.
Context (quote : string → string).

Definition saying {T X} (decodeArgs : bytes → T + error) (fn : TypedTask T → list line * X)
    (msg : TaskMessage) : list line :=
  match decodeArgs (m_Payload msg) with inl args => (fn (newTask args msg)).1 | inr _ => [] end.

Definition on {T} (kind : string) (decodeArgs : bytes → T + error)
    (fn : TypedTask T → list line * option error) : demoHandler :=
  MkDemoHandler (AddHandler quote kind decodeArgs (λ t, Returned (fn t).2)) kind (saying decodeArgs fn).

Definition onR {T Res} (kind : string) (decodeArgs : bytes → T + error) (marshal : Res → bytes + error)
    (fn : TypedTask T → list line * (Res + error)) : demoHandler :=
  MkDemoHandler (AddHandlerR quote kind decodeArgs marshal (λ t, Returned (fn t).2)) kind
    (saying decodeArgs fn).

(** The Mux a scene registers; a kind registered twice panics. *)
Definition muxOf (hs : list demoHandler) : outcome Mux :=
  foldl (λ mux h, match mux with Returned m => h_register h m | p => p end) (Returned NewMux) hs.

Definition says (hs : list demoHandler) (msg : TaskMessage) : list line :=
  concat (map (λ h, if decide (h_kind h = m_Kind msg) then h_says h msg else []) hs).

End handlers.

Section handlers_of_scenes.
Context `{FieldJson} (quote : string → string).

Definition anyArgs (_ : bytes) : () + error := inl ().

(** Scenes 1 to 7: the handlers of the first server; [attempts] counts the
    calls of the flaky one. *)
Definition greet : demoHandler :=
  on quote "demo:greet" (unString "name") (λ t, ([("greet", [t_Args _ t; t_id _ t])], None)).
Definition flaky (attempts : nat) : demoHandler :=
  on quote "demo:flaky" (unInt "id") (λ t,
    if bool_decide (S attempts = 1)
    then ([("flaky: first attempt fails", [itoa (t_Args _ t)])], Some (ErrLeaf "일시적 오류"))
    else ([("flaky: retry succeeds", [itoa (t_Args _ t)])], None)).
Definition poison : demoHandler :=
  on quote "demo:poison" (unInt "id") (λ t, ([("poison", [itoa (t_Args _ t)])], Some (ErrLeaf "영구 오류"))).
Definition reminder : demoHandler :=
  on quote "demo:reminder" (unString "note") (λ t, ([("reminder", [t_Args _ t; t_id _ t])], None)).
Definition mainHandlers (attempts : nat) : list demoHandler := [greet; flaky attempts; poison; reminder].

(** Scenes 8 to 11. *)
Definition alwaysFails : demoHandler :=
  on quote "demo:poison" (unInt "id") (λ t, ([], Some (ErrLeaf "항상 실패"))).
Definition long (runs : nat) : demoHandler :=
  on quote "demo:long" (unInt "id") (λ t, ([("long", [itoa (Z.of_nat (S runs))])], None)).
Definition prio : demoHandler :=
  on quote "demo:prio" (unString "queue") (λ t, ([(t_Args _ t, [])], None)).
Definition retained : demoHandler :=
  on quote "demo:greet" (unString "name") (λ t, ([("retention", [t_Args _ t])], None)).

(** Scenes 12 to 14; [failing] is the flag of the scene. *)
Definition chainStep (failing : bool) : demoHandler :=
  on quote "demo:chainstep" (unInt "step") (λ t,
    if bool_decide (t_Args _ t = 2)%Z && failing
    then ([("chain: failed", ["2"])], Some (ErrLeaf "2단계 오류"))
    else ([("chain", [itoa (t_Args _ t)])], None)).
Definition groupMember (failing : bool) : demoHandler :=
  on quote "demo:groupmember" (unInt "n") (λ t,
    if bool_decide (t_Args _ t = 2)%Z && failing
    then ([("group: failed", ["2"])], Some (ErrLeaf "멤버 2 오류"))
    else ([("group", [itoa (t_Args _ t)])], None)).
Definition groupReport : demoHandler :=
  on quote "demo:groupreport" (unString "batch") (λ t, ([("group: callback", [t_Args _ t])], None)).
Definition pauseDemo : demoHandler :=
  on quote "demo:greet" (unString "name") (λ t, ([("pause-demo", [t_Args _ t])], None)).

(** Scene 15. *)
Definition ocr : demoHandler :=
  onR quote "tour:ocr" (unString "image") OcrOut (λ t, ([("ocr", [t_Args _ t])], inl "hello chronos")).
Definition translate : demoHandler :=
  onR quote "tour:translate" (unString "lang") OcrOut (λ t,
    match PrevResult ocrText t with
    | inr err => ([], inr err)
    | inl src => ([("translate:" +:+ t_Args _ t, [src])], inl (t_Args _ t +:+ "(" +:+ src +:+ ")"))
    end).
(** [rs[0]] and [rs[1]] panic when there are fewer results. *)
Definition merge : demoHandler :=
  on quote "tour:merge" anyArgs (λ t,
    match GroupResults ocrText t with
    | inr err => ([], Some err)
    | inl (r0 :: r1 :: _) => ([("merge", [r0; r1])], None)
    | inl _ => ([], Some (ErrLeaf "chronos: handler panic: runtime error: index out of range"))
    end).
Definition resultHandlers : list demoHandler := [ocr; translate; merge].

(** Scene 16; a missing result counts as zero rows. *)
Definition rowsOr0 {T} (t : TypedTask T) : Z := match PrevResult migRows t with inl n => n | inr _ => 0%Z end.
Definition migDump : demoHandler :=
  onR quote "tour:mig-dump" (unString "tenant") MigOut (λ t,
    ([("dump", [t_Args _ t])], inl (Z.of_nat (String.length (t_Args _ t)) * 10)%Z)).
Definition migTransform : demoHandler :=
  onR quote "tour:mig-transform" (unString "tenant") MigOut (λ t,
    ([("transform", [t_Args _ t; itoa (rowsOr0 t)])], inl (rowsOr0 t))).
Definition migLoad : demoHandler :=
  onR quote "tour:mig-load" (unString "tenant") MigOut (λ t,
    ([("load", [t_Args _ t; itoa (rowsOr0 t)])], inl (rowsOr0 t))).
Definition migVerify : demoHandler :=
  on quote "tour:mig-verify" anyArgs (λ t,
    let rs := match GroupResults migRows t with inl rs => rs | inr _ => [] end in
    ([("verify", [itoa (len rs); itoa (foldl Z.add 0%Z rs)])], None)).
Definition migHandlers : list demoHandler := [migDump; migTransform; migLoad; migVerify].

End handlers_of_scenes.

(** ** The servers of the scenes

    Fields that are not set are zero; [newServer] fills them in. *)

Definition plain (queues : gmap string Z) (concurrency : Z) : ServerConfig :=
  MkServerConfig queues false concurrency None false NoMetrics 0 0 0 0 0 0 0 0.

Definition mainConfig : ServerConfig :=
  MkServerConfig {["default" := 1%Z]} false 8 (Some (λ _ _, 300 * Millisecond)%Z) true NoMetrics
    (200 * Millisecond) 0 0 0 0 0 0 0.
Definition janitorConfig : ServerConfig :=
  MkServerConfig {["janitor-demo" := 1%Z]} false 4 None false NoMetrics
    0 0 0 0 (2 * Second) 0 0 (500 * Millisecond).
Definition heartbeatConfig : ServerConfig :=
  MkServerConfig {["hb-demo" := 1%Z]} false 2 None false NoMetrics
    0 (300 * Millisecond) (700 * Millisecond) (200 * Millisecond) 0 0 0 0.
Definition prioConfig : ServerConfig := plain {["critical" := 4%Z; "low" := 1%Z]} 1.
Definition retentionConfig : ServerConfig :=
  MkServerConfig {["ret-demo" := 1%Z]} false 2 None false NoMetrics 0 0 0 0 0 0 0 (500 * Millisecond).
Definition chainConfig : ServerConfig := plain {["chain-demo" := 1%Z]} 2.
Definition groupConfig : ServerConfig := plain {["group-demo" := 1%Z]} 4.
Definition pauseConfig : ServerConfig := plain {["pause-demo" := 1%Z]} 2.
Definition resultsConfig : ServerConfig := plain {["results" := 1%Z]} 4.
Definition migConfig : ServerConfig := plain {["mig" := 1%Z]} 4.

(** ** Driving a server *)

#[local] Arguments mbind {_ _ _ _} _ _ : simpl never.

Section tour.
Context `{R : Redis} `{J : Json} `{MJ : MetaJson} `{FieldJson} (K : Keys).
Context (quote : string → string) (sha256hex : bytes → string) (rnd : Z → Z).

Definition stepTime : Z := 100 * Millisecond.
Definition due (i : nat) (interval : Z) : bool :=
  bool_decide ((Z.of_nat i * stepTime) `mod` interval = 0)%Z.
Definition every_ (i : nat) (interval : Z) {A} (d : A) (p : M A) : M A :=
  if due i interval then p else mret d.

Definition hookLine (r : report) : list line :=
  match r with
  | CallOnDeadLetter id kind _ cause => [("dead-letter", [kind; id; errorText cause])]
  | _ => []
  end.

Section drive.
Context (cfg : ServerConfig) (S : Type) (hs : S → list demoHandler) (eff : S → TaskMessage → S).

(** One delivered task; [s] is the state of the handlers. *)
Definition work (acc : S * list line) (d : Dequeued) : M (S * list line) :=
  let (s, out) := acc in
  let msg := dq_Msg d in
  match muxOf (hs s) with
  | Panicked v => fail (ErrText v)
  | Returned mux =>
      rs ← process K quote cfg mux (m_Queue msg) (dq_StreamID d) msg;
      mret (eff s msg, out ++ says (hs s) msg ++ concat (map hookLine rs))
  end.

(** Step [i] of a server that is in [st] and has [busy] slots taken, the
    fetcher's own included. *)
Definition serverStep (busy : Z) (i : nat) (st : fetchState) (acc : S * list line)
    : M (fetchState * (S * list line)) :=
  every_ i (ForwardInterval cfg) () (forwarderTick K cfg);;
  rs ← every_ i (RecoverInterval cfg) [] (recovererTick K cfg "w");
  every_ i (JanitorInterval cfg) () (janitorTick K cfg);;
  '(st, ds) ← fetchRound K cfg "w" busy st;
  acc ← go_foldl work (acc.1, acc.2 ++ concat (map hookLine rs)) ds;
  sleep 100;;
  mret (st, acc).

(** The steps [i], [i + 1], ... [i + n - 1]. *)
Fixpoint drive (n i : nat) (st : fetchState) (acc : S * list line) : M (fetchState * (S * list line)) :=
  match n with
  | 0 => mret (st, acc)
  | Datatypes.S n => '(st, acc) ← serverStep 1 i st acc; drive n (Datatypes.S i) st acc
  end.

End drive.

(** A started server before its first round. *)
Definition startServer (cfg : ServerConfig) : M fetchState :=
  Server.Start K cfg;; mret (MkFetch (Wrr.newWRRPicker (Queues cfg)) ∅ 0).

(** Handlers without state. *)
Definition driveWith (cfg : ServerConfig) (hs : list demoHandler) (n i : nat) (st : fetchState)
    : M (fetchState * list line) :=
  '(st, (_, out)) ← drive cfg () (λ _, hs) (λ s _, s) n i st ((), []);
  mret (st, out).

Definition cfgOf (cfg : ServerConfig) : ServerConfig := newServer rnd cfg.
Definition enqueue (id : string) (args : TaskArgs) (opts : list Option) : M bool :=
  r ← try (EnqueueTask K sha256hex id args opts);
  mret match r with Ok _ => true | Err _ => false end.

(** A counter of a queue as the Inspector shows it ([janitorDemoArchived]
    and [retCompleted]). *)
Definition countOf (f : QueueStats → Z) (q : string) : M Z :=
  r ← try (InspectQueues K);
  mret match r with
       | Err _ => (-1)%Z
       | Ok qs => match filter (λ i, qs_Queue (qi_stats i) = q) qs with i :: _ => f (qi_stats i) | [] => 0%Z end
       end.

(** ** Scenes 1 to 6, on the first server *)

Definition countFlaky (n : nat) (msg : TaskMessage) : nat :=
  if decide (m_Kind msg = "demo:flaky") then S n else n.
Definition driveMain (n i : nat) (st : fetchState) (acc : nat * list line) :=
  drive (cfgOf mainConfig) nat (mainHandlers quote) countFlaky n i st acc.

Definition basicScenes : M (list (list line)) :=
  st ← startServer (cfgOf mainConfig);
  enqueue "1" (GreetArgs "Frank") [];;
  '(st, (n, out1)) ← driveMain 6 1 st (0, []);
  enqueue "2" (FlakyArgs 1) [WithMaxRetry 3];;
  '(st, (n, out2)) ← driveMain 12 7 st (n, []);
  enqueue "3" (PoisonArgs 9) [WithMaxRetry 2];;
  '(st, (n, out3)) ← driveMain 15 19 st (n, []);
  mret [out1; out2; out3].

(** Scene 4: what is printed in the first 1.4 seconds, and later. *)
Definition delayScene : M (list line * list line) :=
  st ← startServer (cfgOf mainConfig);
  enqueue "4" (ReminderArgs "회의 시작") [WithProcessIn (1500 * Millisecond)];;
  '(st, (n, early)) ← driveMain 14 1 st (0, []);
  '(st, (n, late)) ← driveMain 8 15 st (n, []);
  mret (early, late).

(** Scene 5: the two enqueues, what is printed, and whether the lock is free
    afterwards. *)
Definition uniqueScene : M (bool * bool * list line * bool) :=
  st ← startServer (cfgOf mainConfig);
  first ← enqueue "5" (GreetArgs "Dedup") [WithUnique (30 * Second)];
  second ← enqueue "6" (GreetArgs "Dedup") [WithUnique (30 * Second)];
  '(st, (_, out)) ← driveMain 6 1 st (0, []);
  again ← enqueue "7" (GreetArgs "Dedup") [WithUnique (30 * Second)];
  mret (first, second, out, again).

(** Scene 6: pending, active, scheduled, retry and archived of each queue. *)
Definition inspectorScene : M (list (string * list Z)) :=
  startServer (cfgOf mainConfig);;
  enqueue "8" (ReminderArgs "나중에") [WithProcessIn Hour];;
  qs ← InspectQueues K;
  mret (map (λ i, let s := qi_stats i in
                  (qs_Queue s, [qs_Pending s; qs_Active s; qs_Scheduled s; qs_Retry s; qs_Archived s])) qs).

(** ** Scene 7: the schedulers, and failover

    [every] is [cron.Every], [show] is [Duration.String]; a scheduler comes
    with the number of its steps so far. *)

Section schedulers.
Context (sha8 : bytes → string) (every : Z → Z → Z) (show : Z → string).

Definition running : Type := option (Scheduler.Scheduler * nat).

Definition mkSched (instance : string) : M running :=
  t ← now;
  s ← lift_result (Scheduler.RegisterInterval sha8 every show t Second (GreetArgs "매초") []
                     (Scheduler.newScheduler instance Second));
  Scheduler.Start K s;;
  s ← Scheduler.tryElect K s;
  mret (Some (s, 1)).

Definition schedulerStep (s : running) : M running :=
  match s with
  | None => mret None
  | Some (s, i) =>
      s ← every_ i (Scheduler.renewEvery s) s (Scheduler.handle K s Scheduler.RenewTick);
      s ← every_ i Second s (Scheduler.handle K s Scheduler.SecondTick);
      mret (Some (s, Datatypes.S i))
  end.

(** [n] steps of two schedulers and the first server. *)
Fixpoint scheduled (n i : nat) (a b : running) (st : fetchState) (out : list line)
    : M (running * running * fetchState * list line) :=
  match n with
  | 0 => mret (a, b, st, out)
  | Datatypes.S n =>
      a ← schedulerStep a;
      b ← schedulerStep b;
      '(st, (_, out)) ← serverStep (cfgOf mainConfig) nat (mainHandlers quote) countFlaky 1 i st (0, out);
      scheduled n (Datatypes.S i) a b st out
  end.

Definition leads (s : running) : bool := match s with Some (s, _) => Scheduler.s_isLeader s | None => false end.

(** Who leads in each part, and what it printed. *)
Definition failoverScene : M (list (bool * bool * list line)) :=
  st ← startServer (cfgOf mainConfig);
  a ← mkSched "A";
  '(a, b, st, out1) ← scheduled 22 1 a None st [];
  b ← mkSched "B";
  '(a, b, st, out2) ← scheduled 12 23 a b st [];
  (match a with Some (s, _) => Scheduler.Shutdown K s | None => mret () end);;
  b' ← (match b with
        | Some (s, i) => s ← Scheduler.handle K s Scheduler.ResignNotice; mret (Some (s, i))
        | None => mret None
        end);
  '(_, b', st, out3) ← scheduled 25 35 None b' st [];
  (match b' with Some (s, _) => Scheduler.Shutdown K s | None => mret () end);;
  mret [(leads a, false, out1); (leads a, leads b, out2); (false, leads b', out3)].

End schedulers.

(** ** Scene 8: retention and the janitor *)

Definition janitorScene : M (list line * Z * Z) :=
  st ← startServer (cfgOf janitorConfig);
  go_foldl (λ _ i, enqueue ("j" +:+ itoa i) (PoisonArgs (100 + i)) [WithQueue "janitor-demo"; WithMaxRetry 0];; mret ())
    () [0; 1; 2; 3; 4]%Z;;
  '(st, out1) ← driveWith (cfgOf janitorConfig) [alwaysFails quote] 10 1 st;
  kept ← countOf qs_Archived "janitor-demo";
  '(st, out2) ← driveWith (cfgOf janitorConfig) [alwaysFails quote] 30 11 st;
  left ← countOf qs_Archived "janitor-demo";
  mret (out1 ++ out2, kept, left).

(** ** Scene 9: the heartbeat

    The handler of the delivered task runs for two seconds, during which the
    loops of its server go on and its other worker is free; [beats] tells
    whether the heartbeat is one of them. *)

Definition longHandlers (runs : nat) : list demoHandler := [long quote runs].
Definition countRun (runs : nat) (_ : TaskMessage) : nat := Datatypes.S runs.

Fixpoint whileRunning (beats : bool) (n i : nat) (inflight : gmap string inflightEntry) (st : fetchState)
    (acc : nat * list line) : M (fetchState * (nat * list line)) :=
  let cfg := cfgOf heartbeatConfig in
  match n with
  | 0 => mret (st, acc)
  | Datatypes.S n =>
      (if beats then every_ i (HeartbeatInterval cfg) () (beat K "w" inflight 0) else mret ());;
      '(st, acc) ← serverStep cfg nat longHandlers countRun 2 i st acc;
      whileRunning beats n (Datatypes.S i) inflight st acc
  end.

Definition heartbeatScene (beats : bool) : M (nat * list line) :=
  let cfg := cfgOf heartbeatConfig in
  st ← startServer cfg;
  enqueue "9" (LongArgs 1) [WithQueue "hb-demo"];;
  '(st, ds) ← fetchRound K cfg "w" 1 st;
  match ds, muxOf (longHandlers 0) with
  | [d], Returned mux =>
      let msg := dq_Msg d in
      let inflight := trackInflight (m_ID msg) (MkInflight (dq_StreamID d) (m_Queue msg) (m_UniqueKey msg)) ∅ in
      '(st, acc) ← whileRunning beats 20 1 inflight st (countRun 0 msg, says (longHandlers 0) msg);
      process K quote cfg mux (m_Queue msg) (dq_StreamID d) msg;;
      '(st, (runs, out)) ← drive cfg nat longHandlers countRun 10 21 st acc;
      mret (runs, out)
  | _, _ => fail (ErrText "not delivered")
  end.

(** ** Scene 10: weighted queues *)

Definition prioScene : M (list string) :=
  go_foldl (λ _ i, enqueue ("c" +:+ itoa (Z.of_nat i)) (PrioArgs "critical") [WithQueue "critical"];; mret ()) () (seq 0 8);;
  go_foldl (λ _ i, enqueue ("l" +:+ itoa (Z.of_nat i)) (PrioArgs "low") [WithQueue "low"];; mret ()) () (seq 0 4);;
  st ← startServer (cfgOf prioConfig);
  '(st, out) ← driveWith (cfgOf prioConfig) [prio quote] 12 1 st;
  mret (map fst out).

(** ** Scene 11: completed retention *)

Definition retentionScene : M (list line * Z * Z) :=
  st ← startServer (cfgOf retentionConfig);
  enqueue "11" (GreetArgs "보관테스트") [WithQueue "ret-demo"; WithRetention (3 * Second)];;
  '(st, out1) ← driveWith (cfgOf retentionConfig) [retained quote] 10 1 st;
  kept ← countOf qs_Completed "ret-demo";
  '(st, out2) ← driveWith (cfgOf retentionConfig) [retained quote] 40 11 st;
  left ← countOf qs_Completed "ret-demo";
  mret (out1 ++ out2, kept, left).

(** ** Scene 12: a chain that stops and is resumed *)

Definition tourChain : Chain :=
  Then (Then (Then NewChain (ChainStepArgs 1) [WithQueue "chain-demo"])
    (ChainStepArgs 2) [WithQueue "chain-demo"; WithMaxRetry 0])
    (ChainStepArgs 3) [WithQueue "chain-demo"].

Definition chainScene : M (list line * list (string * Z) * list line) :=
  st ← startServer (cfgOf chainConfig);
  try (ChainEnqueue K sha256hex "12" tourChain);;
  '(st, out1) ← driveWith (cfgOf chainConfig) [chainStep quote true] 15 1 st;
  tasks ← try (ListTasks K quote "chain-demo" "archived" 10);
  let tasks := match tasks with Ok l => l | Err _ => [] end in
  go_foldl (λ _ ti, try (RunTask K "chain-demo" (ti_ID ti));; mret ()) () tasks;;
  '(st, out2) ← driveWith (cfgOf chainConfig) [chainStep quote (bool_decide (tasks = []))] 15 16 st;
  mret (out1, map (λ ti, (ti_ID ti, ti_ChainPending ti)) tasks, out2).

(** ** Scene 13: a group that waits and is resumed *)

Definition tourGroup : Group :=
  OnComplete
    (Add (Add (Add NewGroup (GroupMemberArgs 1) [WithQueue "group-demo"])
      (GroupMemberArgs 2) [WithQueue "group-demo"; WithMaxRetry 0])
      (GroupMemberArgs 3) [WithQueue "group-demo"])
    (GroupReportArgs "demo") [WithQueue "group-demo"].

Definition groupScene : M (list line * option (string * Z) * list line) :=
  let hs failing := [groupMember quote failing; groupReport quote] in
  st ← startServer (cfgOf groupConfig);
  ginfo ← try (GroupEnqueue K sha256hex "13" tourGroup);
  '(st, out1) ← driveWith (cfgOf groupConfig) (hs true) 15 1 st;
  got ← try (match ginfo with
             | Ok g => match gi_MemberIDs g !! 1 with
                       | Some id => InspectTask K quote "group-demo" id
                       | None => fail (ErrText "index out of range")      (* a panic in Go *)
                       end
             | Err e => fail (ErrText "nil pointer dereference")           (* a panic in Go *)
             end);
  (match got with Ok ti => try (RunTask K "group-demo" (ti_ID ti));; mret () | Err _ => mret () end);;
  '(st, out2) ← driveWith (cfgOf groupConfig) (hs (match got with Ok _ => false | Err _ => true end)) 15 16 st;
  mret (out1, match got with Ok ti => Some (ti_ID ti, ti_GroupPending ti) | Err _ => None end, out2).

(** ** Scene 14: pause and resume *)

Definition pauseScene : M (list line * list (Z * bool) * list line) :=
  st ← startServer (cfgOf pauseConfig);
  try (PauseQueue K "pause-demo");;
  '(st, out0) ← driveWith (cfgOf pauseConfig) [pauseDemo quote] 15 1 st;
  go_foldl (λ _ i, enqueue ("p" +:+ itoa i) (GreetArgs ("대기-" +:+ itoa i)) [WithQueue "pause-demo"];; mret ())
    () [1; 2; 3]%Z;;
  '(st, out1) ← driveWith (cfgOf pauseConfig) [pauseDemo quote] 20 16 st;
  qs ← try (InspectQueues K);
  let shown := match qs with
               | Ok qs => map (λ i, (qs_Pending (qi_stats i), qi_Paused i))
                            (filter (λ i, qs_Queue (qi_stats i) = "pause-demo") qs)
               | Err _ => []
               end in
  try (ResumeQueue K "pause-demo");;
  '(st, out2) ← driveWith (cfgOf pauseConfig) [pauseDemo quote] 25 36 st;
  mret (out0 ++ out1, shown, out2).

(** ** Scenes 15 and 16: workflows *)

Definition tourWorkflow : Chain :=
  ThenGroup (Then NewChain (OcrArgs "scan-001.png") [WithQueue "results"])
    (Some (OnComplete
      (Add (Add NewGroup (TranslateArgs "ko") [WithQueue "results"])
        (TranslateArgs "ja") [WithQueue "results"])
      MergeArgs [WithQueue "results"])).

Definition workflowScene : M (list line) :=
  st ← startServer (cfgOf resultsConfig);
  try (ChainEnqueue K sha256hex "15" tourWorkflow);;
  '(st, out) ← driveWith (cfgOf resultsConfig) (resultHandlers quote) 30 1 st;
  mret out.

Definition tenants : list string := ["acme"; "globex"; "initech"].
Definition migration : Group :=
  OnComplete
    (foldl (λ g tenant, AddChain g (Some
       (Then (Then (Then NewChain (MigDump tenant) [WithQueue "mig"])
          (MigTransform tenant) [WithQueue "mig"]) (MigLoad tenant) [WithQueue "mig"]))) NewGroup tenants)
    MigVerify [WithQueue "mig"].

Definition migrationScene : M (list line) :=
  st ← startServer (cfgOf migConfig);
  try (GroupEnqueue K sha256hex "16" migration);;
  '(st, out) ← driveWith (cfgOf migConfig) (migHandlers quote) 30 1 st;
  mret out.

End tour.

(** ** What the tour shows *)

Definition quoteMark : string := String "034"%char "".

(** An object with one field, and the text of its value. *)
Definition object (field value : string) : bytes :=
  "{" +:+ quoteMark +:+ field +:+ quoteMark +:+ ":" +:+ value +:+ "}".
Definition valueOf (field : string) (b : bytes) : string :=
  let n := 4 + String.length field in String.substring n (String.length b - n - 1) b.

(** Of the strings of the tour none needs an escape. *)
#[local] Instance tourJson : FieldJson := {|
  oneString f v := object f (quoteMark +:+ v +:+ quoteMark);
  unString f b := let v := valueOf f b in inl (String.substring 1 (String.length v - 2) v);
  oneInt f n := object f (itoa n);
  unInt f b := match ParseInt (valueOf f b) with Some n => inl n | None => inr (ErrLeaf "syntax error") end;
  noField := "{}";
|}.

Definition emptyServer : world (R := RefRedis.RefRedis) :=
  MkWorld (empty_keyspace : RefRedis.RefRedis.(store)) [] (1700000000 * Second)%Z ∅.

Definition shown {A} (p : M A) : result A := (p emptyServer).2.


End Tour.
