(* ===== verification/Mains.v ===== *)
(** * The commands: what surrounds the library in each process

    The [main] functions of cmd/chronos, contrib/webui/cmd/webui and
    contrib/prometheus/cmd/loadgen, and the helpers of internal/testutil that
    give a test its Redis.  A process is the list of what it does, given what
    its surroundings answer ([host]); a goroutine's work is listed where it is
    started.  The values of the flags are arguments: package flag parses
    them. *)

From S2P Require Import Prelude GoLib Base Redis Client RdbCore Schedule Options Retry Handler Server Scheduler Inspector GoText Cli Pages Instances ScoreSpec Soak.
From Stdlib Require Import Ascii.

Module Mains.
Import GoTime GoStr Keys Task Redis Client RdbCore Schedule Options Retry Handler Server Scheduler GoText.
Import Cli (connection, Standalone, Cluster, connLabel, envOr, splitAddrs).

Inductive action :=
  | Dial (c : connection)
  | Ping
  | FlushDB                       (* the database of the connection *)
  | FlushMasters                  (* every database of every master *)
  | CloseClient
  | Listen (addr : string)
  | ServeConsole (conn : string)  (* [Serve], in a goroutine *)
  | StartBrowser (cmd : string) (args : list string)
  | Log (text : string)
  | Print (text : string)
  | AwaitSignal
  | RunScenes                     (* the tour, between start and shutdown of its server *)
  | ShutdownServer (timeout : Z)
  | Exit (code : Z)
  | Skip (text : string)          (* [t.Skip]: ends the test *)
  | Fatal (text : string).        (* [t.Fatal]: fails it and ends it *)

(** What the surroundings answer. *)
Record host := MkHost {
  h_env : string → string;
  h_ping : result ();
  h_flush : result ();
  h_listen : result ();
  h_goos : string;
  h_browser : result ();
}.

Section mains.
Context (lib : err → string) (h : host).

Definition defaultRedis : string := "127.0.0.1:6379".

(** [log.Fatalf]: nothing deferred runs. *)
Definition fatalf (text : string) : list action := [Log text; Exit 1].

(** ** contrib/webui/cmd/webui *)

(** The browser's command; its failure is only logged. *)
Definition browserCommand (url : string) : string * list string :=
  if decide (h_goos h = "darwin") then ("open", [url])
  else if decide (h_goos h = "windows") then ("rundll32", ["url.dll,FileProtocolHandler"; url])
  else ("xdg-open", [url]).

Definition openBrowser (url : string) : list action :=
  let (cmd, args) := browserCommand url in
  StartBrowser cmd args ::
  match h_browser h with
  | Ok _ => []
  | Err e => [Log ("could not open browser (" +:+ Error lib e +:+ "); visit " +:+ url +:+ " manually")]
  end.

Record webFlags := MkWebFlags {
  f_addr : string;
  f_standalone : bool;
  f_cluster : bool;
  f_redis : string;
  f_db : Z;
  f_noOpen : bool;
}.

Definition webDefaults : webFlags := MkWebFlags "127.0.0.1:8080" false false defaultRedis 0 false.

(** The console's own copy of the choice of the client. *)
Definition webClient (fl : webFlags) : result connection :=
  if f_standalone fl && f_cluster fl then
    Err (ErrText "--standalone and --cluster are mutually exclusive")
  else if f_cluster fl then
    if negb (bool_decide (f_db fl = 0)%Z) then
      Err (ErrText "--db is not supported with --cluster: Redis Cluster has only database 0")
    else if bool_decide (splitAddrs (f_redis fl) = []) then
      Err (ErrText "--cluster requires at least one seed address in --redis")
    else Ok (Cluster (splitAddrs (f_redis fl)))
  else Ok (Standalone (f_redis fl) (f_db fl)).

Definition webMain (fl : webFlags) : list action :=
  match webClient fl with
  | Err e => fatalf ("webui: " +:+ Error lib e)
  | Ok c =>
      Dial c :: Ping ::
      match h_ping h with
      | Err e => fatalf ("cannot reach Redis at " +:+ f_redis fl +:+ ": " +:+ Error lib e)
      | Ok _ =>
          let conn := connLabel (f_cluster fl) (f_redis fl) (f_db fl) in
          Listen (f_addr fl) ::
          match h_listen h with
          | Err e => fatalf ("cannot listen on " +:+ f_addr fl +:+ ": " +:+ Error lib e)
          | Ok _ =>
              Log ("chronos-go console on http://" +:+ f_addr fl +:+ " (redis " +:+ f_redis fl
                   +:+ " db " +:+ itoa (f_db fl) +:+ ")") ::
              ServeConsole conn ::
              (if f_noOpen fl then [] else openBrowser ("http://" +:+ f_addr fl)) ++
              [AwaitSignal; Log "shutting down..."; ShutdownServer (5 * Second); CloseClient]
          end
      end
  end.

(** ** examples/tour: what precedes and follows the scenes *)

Definition tourFarewell : list action :=
  [Print (nl +:+ "───────────────────────────────────────────────" +:+ nl);
   Print ("투어 완료. 위 로그가 chronos-go가 실제로 동작하는 모습입니다." +:+ nl);
   Print ("Redis 내부 상태를 직접 보려면 docs/OBSERVING.md 를 참고하세요." +:+ nl)].

(** The server of the scenes is shut down when [main] returns. *)
Definition tourServed (start : result ()) : list action :=
  match start with
  | Err e => [Print ("서버 시작 실패: " +:+ Error lib e +:+ nl); Exit 1]
  | Ok _ => RunScenes :: tourFarewell ++ [ShutdownServer (5 * Second)]
  end.

Definition tourMain (start : result ()) : list action :=
  let addr := envOr (h_env h) "REDIS_ADDR" defaultRedis in
  Dial (Standalone addr 15) :: Ping ::
  match h_ping h with
  | Err e =>
      [Print (nl +:+ "⚠️  Redis에 연결할 수 없습니다 (" +:+ addr +:+ "): " +:+ Error lib e +:+ nl);
       Print ("   로컬에서 띄우려면:  redis-server --daemonize yes --port 6379" +:+ nl); Exit 1]
  | Ok _ => FlushDB :: tourServed start
  end.

(** ** internal/testutil *)

Definition TestDB : Z := 15.

(** What a test does before it starts and, if it starts, when it ends. *)
Definition NewRedis : list action * list action :=
  let addr := envOr (h_env h) "REDIS_ADDR" defaultRedis in
  let connect := [Dial (Standalone addr TestDB); Ping] in
  match h_ping h with
  | Err e => (connect ++ [CloseClient; Skip ("redis not available at " +:+ addr +:+ ": " +:+ Error lib e)], [])
  | Ok _ =>
      match h_flush h with
      | Err e => (connect ++ [FlushDB; Fatal ("flush test db: " +:+ Error lib e)], [])
      | Ok _ => (connect ++ [FlushDB], [FlushDB; CloseClient])
      end
  end.

Definition NewClusterRedis : list action * list action :=
  let addrs := h_env h "REDIS_CLUSTER_ADDRS" in
  if bool_decide (addrs = "") then
    ([Skip "REDIS_CLUSTER_ADDRS not set; skipping cluster integration test"], [])
  else
    let connect := [Dial (Cluster (splitAddrs addrs)); Ping] in
    match h_ping h with
    | Err e =>
        (connect ++ [CloseClient;
           Fatal ("REDIS_CLUSTER_ADDRS=" +:+ addrs +:+ " set but cluster unreachable: " +:+ Error lib e)], [])
    | Ok _ =>
        match h_flush h with
        | Err e => (connect ++ [FlushMasters; Fatal ("flush cluster: " +:+ Error lib e)], [])
        | Ok _ => (connect ++ [FlushMasters], [FlushMasters; CloseClient])
        end
    end.

End mains.

(** ** cmd/chronos *)

Record cliFlags := MkCliFlags { c_standalone : bool; c_cluster : bool; c_redis : string; c_db : Z }.

Definition cliDefaults (env : string → string) : cliFlags :=
  MkCliFlags false false (envOr env "REDIS_ADDR" defaultRedis) 0.

(** A refusal (what is printed on stderr, and the exit code), or the command
    to run on a connection; its result is the output and the exit code. *)
Definition cliMain `{R : Redis} `{J : Json} (quote : string → string) (lib : err → string)
    (fl : cliFlags) (args : list string) : (string * Z) + (connection * M Cli.printed) :=
  match Cli.buildClient (c_standalone fl) (c_cluster fl) (c_redis fl) (c_db fl) with
  | Err e => inl ("chronos: " +:+ Error lib e +:+ nl, 2%Z)
  | Ok c => inr (c, Cli.run quote lib DefaultKeys args)
  end.

(** ** contrib/prometheus/cmd/loadgen *)

Section loadgen.
Context (encode : Z → bytes) (decode : bytes → Z + error).

Definition workArgs (n : Z) : TaskArgs := MkArgs "demo:work" (Some (encode n)).

(** [roll] is [rand.Intn(5)]. *)
Definition workHandler (roll : Z) (t : TypedTask Z) : outcome (option error) :=
  Returned (if bool_decide (roll = 0)%Z then Some (ErrLeaf "simulated failure") else None).

(** The time the handler takes; [draw] is [rand.Intn(40)]. *)
Definition workTime (draw : Z) : Z := ((draw + 5) * Millisecond)%Z.

Definition loadMux (quote : string → string) (roll : Z) : outcome Mux :=
  AddHandler quote "demo:work" decode (workHandler roll) NewMux.

Definition loadConfig (rnd : Z → Z) (m : metrics) : ServerConfig :=
  newServer rnd (MkServerConfig {["default" := 1%Z; "critical" := 1%Z]} false 8 None false m
                   0 0 0 0 (30 * Second) 0 0 (5 * Second)).

Definition loadScheduler (sha8 : bytes → string) (every : Z → Z → Z) (show : Z → string) (now : Z)
    (s : Scheduler) : result Scheduler :=
  RegisterInterval sha8 every show now (2 * Second) (workArgs (-1)) [WithMaxRetry 2] s.

Definition loadQueue (i : Z) : string := if bool_decide (i `rem` 3 = 0)%Z then "critical" else "default".

(** One turn of the endless loop; the error is dropped. *)
Definition loadTurn `{R : Redis} `{J : Json} (sha256hex : bytes → string) (uuid : string) (i : Z) : M () :=
  try (EnqueueTask DefaultKeys sha256hex uuid (workArgs i) [WithQueue (loadQueue i); WithMaxRetry 2]);;
  sleep 150.

End loadgen.

(** ** Properties *)

(** The two commands choose the same client from the same flags. *)
Theorem clients_agree fl :
  webClient fl = Cli.buildClient (f_standalone fl) (f_cluster fl) (f_redis fl) (f_db fl).
Proof. done. Qed.

Section properties.
Context (lib : err → string) (h : host).

(** The console's process.  It serves, and opens a browser, only on an
    address it listens on and with a Redis that answered; flags that
    contradict each other end it before it connects; and it ends with an
    exit code, or with the server shut down and the client closed. *)
Theorem console_process fl :
  let t := webMain lib h fl in
  ((∃ c, ServeConsole c ∈ t) ∨ (∃ cmd args, StartBrowser cmd args ∈ t) →
     (∃ e, h_ping h = Ok e) ∧ (∃ e, h_listen h = Ok e) ∧
     ∃ c rest, webClient fl = Ok c ∧ t = [Dial c; Ping; Listen (f_addr fl)] ++ rest ∧
       ServeConsole (connLabel (f_cluster fl) (f_redis fl) (f_db fl)) ∈ rest) ∧
  (∀ e, webClient fl = Err e → t = [Log ("webui: " +:+ Error lib e); Exit 1]) ∧
  (last t = Some (Exit 1) ∨ ∃ pre, t = pre ++ [ShutdownServer (5 * Second); CloseClient]).
Proof.
  intros t. unfold t, webMain, fatalf. destruct (webClient fl) as [c|e]; [|split_and!; [set_solver|by intros ? [= ->]|by left]].
  destruct (h_ping h) as [u|e]; [|split_and!; [set_solver|done|by left]].
  destruct (h_listen h) as [u'|e]; [|split_and!; [set_solver|done|by left]].
  split_and!; [|done|].
  - intros _. split; [by eexists|]. split; [by eexists|]. exists c. eexists. split_and!; [done|done|]. set_solver.
  - right.
    set (web := if f_noOpen fl then [] else openBrowser lib h ("http://" +:+ f_addr fl)).
    match goal with |- context [Listen (f_addr fl) :: ?l :: ?s :: _] =>
      exists ([Dial c; Ping; Listen (f_addr fl); l; s] ++ web ++ [AwaitSignal; Log "shutting down..."]) end.
    simpl. by rewrite <- app_assoc.
Qed.

(** A test wipes only what is set aside for tests.  On a single server it
    connects to database 15 alone, and flushes nothing else; before a test
    starts the database was flushed, and it is flushed again afterwards; a
    test that does not start leaves no clean-up behind.  A cluster is flushed
    only if its addresses were given. *)
Theorem tests_keep_to_their_database :
  let single := NewRedis lib h in
  let cluster := NewClusterRedis lib h in
  (∀ c, Dial c ∈ single.1 ++ single.2 → ∃ addr, c = Standalone addr TestDB) ∧
  FlushMasters ∉ single.1 ++ single.2 ∧
  (single.2 = [FlushDB; CloseClient] ∧ last single.1 = Some FlushDB
   ∨ single.2 = [] ∧ ∃ text, last single.1 = Some (Skip text) ∨ last single.1 = Some (Fatal text)) ∧
  (FlushMasters ∈ cluster.1 ++ cluster.2 → h_env h "REDIS_CLUSTER_ADDRS" ≠ "") ∧
  FlushDB ∉ cluster.1 ++ cluster.2.
Proof.
  unfold NewRedis, NewClusterRedis.
  destruct (h_ping h) as [u|e]; [destruct (h_flush h) as [u'|e]|]; case_bool_decide as Ha; simpl; split_and!;
    try set_solver; eauto 6.
Qed.

End properties.

(** ** The load generator *)

Section load.
Context `{R : Redis} `{J : Json} (quote : string → string) (decode : bytes → Z + error).

(** Its server takes tasks from every queue it feeds. *)
Theorem load_served rnd m i : loadQueue i ∈ queueNames (loadConfig rnd m).
Proof. unfold loadQueue, queueNames. case_bool_decide; apply (bool_decide_unpack _); by vm_compute. Qed.

Lemma load_dispatch roll mux msg n :
  loadMux decode quote roll = Returned mux → m_Kind msg = "demo:work" → decode (m_Payload msg) = inl n →
  dispatchSafely quote mux msg
  = (msg, if bool_decide (roll = 0)%Z then Some (ErrLeaf "simulated failure") else None).
Proof.
  unfold loadMux, AddHandler. rewrite bool_decide_false by (by intros [? ?]). intros [= Hmux] Hk Hp.
  assert (∃ g, mux !! "demo:work" = Some g ∧ g msg = (msg, workHandler roll (newTask n msg))) as (g & Hg & E).
  { rewrite <- Hmux. eexists. split; [by apply lookup_insert_eq|]. simpl. by rewrite Hp. }
  unfold dispatchSafely, dispatch. rewrite Hk, Hg, E. unfold workHandler. by case_bool_decide.
Qed.

(** What becomes of a task of the load.  Whatever the state of Redis and
    whatever fails, a roll other than zero ends it as a success; a zero sends
    it back for a retry until its retries are spent, and then to the dead
    letters. *)
Theorem load_fate (K : Keys) rnd roll mux msg n q e w :
  loadMux decode quote roll = Returned mux → m_Kind msg = "demo:work" → decode (m_Payload msg) = inl n →
  m_Chain msg = [] → m_GroupID msg = "" →
  (process K quote (loadConfig rnd TaskMetrics) mux q e msg w).2
  = Ok [ObserveTask (m_Queue msg) "demo:work"
          (if bool_decide (roll = 0)%Z
           then if bool_decide (m_MaxRetry msg ≤ m_Retried msg)%Z then OutcomeDeadLetter else OutcomeRetry
           else OutcomeSuccess)].
Proof.
  intros Hmux Hk Hp Hc Hg. unfold process. rewrite (load_dispatch roll mux msg n Hmux Hk Hp).
  case_bool_decide; rewrite <- Hk.
  - by apply Soak.failure_reports.
  - by apply Soak.success_reports.
Qed.

End load.

End Mains.
